(* ===== verification/_CoqProject ===== *)
-Q . S2P
Prelude.v
Text.v
Contexts.v
Policy.v
DidScid.v
Board.v
Election.v
BallotBox.v
Json.v
Programs.v
Keyspace.v
Acl.v
Rules.v
Tally.v
Group.v
Shamir.v
Trustees.v
Ceremony.v
Wire.v
Steps.v
Host.v
SwapProof.v
AclOps.v
AclSafety.v
AclEffects.v
Refresh.v
TaskProof.v
FileJournal.v
Record.v
VoterClient.v
Scene.v
AuditEncrypted.v
BoardAudit.v
Service.v
ServiceEncrypted.v
Requests.v
Dispatch.v
HonestVoter.v
Restore.v
Crash.v
Certify.v
Runs.v
DispatchRuns.v
AclRuns.v
Spine.v
SpineSafety.v
AcceptedIds.v
SpineRuns.v
Sessions.v
Login.v
SessionSafety.v
SessionService.v
SessionEffects.v
SessionRuns.v
WebAuthn.v
StepUp.v
StepUpSafety.v
StepUpRuns.v
Rooms.v
RoomSafety.v
RoomLists.v
RoomRuns.v
