(* ===== verification/Prelude.v ===== *)
(** * Verification of the Verifiable Trust Infrastructure

    The repository serves communities and agents that prove who they are by
    decentralized identifiers (DIDs). This development covers five of its
    systems, from the rules down to the requests that reach them:

    - community voting ([src/vti-voting/] and [src/vti-voting-service/]): an
      election's manifest, its ballot box and append-only board, the trustees
      who jointly hold a key at the encrypted levels, the voter's client and
      the auditor who certifies a board without trusting the ballot box;
    - an agent's access control list ([src/vta-service/src/operations/acl.rs]
      over [src/vti-common/] and [src/vta-sdk/]): who may do what in which
      trust context, and how entries are granted, changed, rotated to another
      key and handed off;
    - the pipeline every Trust Task document goes through at a server
      ([src/vti-trust-task-server/]): what it passes before a handler runs, the
      record of accepted ids that keeps it from running twice, and the signing
      of every answer;
    - logging in and staying logged in, at an agent or a community
      ([src/vti-common/src/auth/]): challenges, sessions, the rotation of
      refresh tokens, elevation and sign-out; and the approval an elevation
      takes, by a signed answer or a passkey ([src/vti-webauthn/]);
    - who may act in a data room ([src/vti-rooms/]): a host with no roster, that
      judges what is presented to it and the list of withdrawals the room
      signed.

    The first three stand on who signed a document ([src/vta-sdk/src/trust_task_proof/]).

    ** How the parts meet

    A signed Trust Task document reaches the service ([Dispatch]), which
    verifies its proof ([TaskProof], [DidScid], [Refresh]), runs a cast's
    costly checks ([BallotBox], [ServiceEncrypted]), takes the ballot box's
    lock and handles the task ([Service], [Requests]). The ballot box keeps
    one record per election ([Record]): the board ([Board]), the ceremony
    ([Ceremony]) and what is rebuilt from the board, every entry and receipt
    being journalled first ([Host], [FileJournal]). At the close it counts
    ([Tally]) and publishes. A restart replays the journal ([Restore],
    [Crash]); an auditor recounts from the board alone ([BoardAudit],
    [AuditEncrypted]); a client replays the trustees' signed steps ([Steps])
    before it encrypts a ballot ([VoterClient], [HonestVoter]).

    At the agent's and the communities' servers a document goes through one
    pipeline ([Spine]), which verifies its proof, binds it to its sender,
    claims its id in the store and hands it to a handler.

    A request on the access control list is a program of calls to the store
    ([Programs], [Keyspace], [AclOps]); it is judged by the predicates of [Acl] on context
    paths ([Contexts], whose policies are [Policy]'s) and, for a rotation, by
    the new key's presentation ([SwapProof]).

    The caller of such a request has logged in: a challenge was issued and
    redeemed, or a refresh token rotated ([Login]), over the rows of the
    sessions keyspace ([Sessions]), against which its bearer token is checked
    at each request; the claims that come of it are those [Acl] judges. A task
    that asks for more is answered with a signed request; the approver's answer
    to it raises the session, or approves one disclosure ([StepUp]), once its
    proof or its passkey's assertion ([WebAuthn]) is verified.

    A host of data rooms takes a room's gate, reads the list it holds for the
    room, judges the presentation, does what it was asked to, and drops the
    gate ([Rooms]); a new list is accepted under the same gate, held alone.

    ** Files

    Each file opens with what it models; definitions keep the source's names.

    Foundations
    - [Prelude]: results and the [?] operator, options with panics
      ([attempt]), loops that may return early ([try_fold], [try_map]),
      machine integers, bytes, hashes; the hint databases [ok] and [bools].
    - [Text]: Rust's [str] on UTF-8 bytes. [Json]: [serde_json]'s values.
    - [Programs]: requests as programs of calls, and a service that runs many
      of them; what every run keeps, holds once, does once, or has only one of.

    Voting
    - [Board] ([board.rs]); [Election] ([election.rs], [error.rs],
      [scheme.rs]); [BallotBox] ([ballot_box.rs], [registrar.rs], casting in
      [voter.rs]); [Rules] ([rules.rs]); [Tally] ([tally.rs]);
    - [Group], [Shamir], [Trustees] ([trustees.rs]); [Ceremony]
      ([ceremony.rs]); [Wire] ([wire.rs]); [Steps] ([steps.rs]);
    - [Host], [Record], [Service] ([service/mod.rs]) and [ServiceEncrypted]
      ([service/encrypted.rs]); [Requests]: all tasks as one handler;
    - [VoterClient] ([voter.rs]); [BoardAudit] ([audit.rs]) and
      [AuditEncrypted] ([audit_encrypted.rs]);
    - [FileJournal] ([vti-voting-service/src/journal.rs]); [Dispatch]
      ([dispatch.rs], [config.rs]).
    - Theorems across files: [HonestVoter], [Restore], [Crash], [Certify].

    Who signed ([src/vta-sdk/src/])
    - [DidScid] ([did_scid.rs]); [Refresh] ([did_refresh.rs]); [TaskProof]
      ([trust_task_proof/]).

    Access control
    - [Contexts] ([identifier.rs], [context_path.rs]); [Policy]
      ([context_policy.rs], [vta-support/src/contexts.rs]); [Keyspace]
      ([vti-common/src/store/mod.rs]); [Acl] ([vti-common/src/acl/mod.rs],
      [vta-sdk/src/acl.rs], the claims of [auth/extractor.rs]); [SwapProof]
      ([protocols/acl_management/swap.rs]); [AclOps]
      ([operations/acl.rs]).
    - Theorems: [AclSafety] (every interleaving), [AclEffects] (run alone).

    The receive pipeline ([src/vti-trust-task-server/src/])
    - [Spine] ([spine.rs], [accepted.rs], [accepted_store.rs], [sign.rs],
      [reject.rs], [context.rs], [outcome.rs]).
    - Theorems: [SpineSafety] (every interleaving), [AcceptedIds] (the stored
      record is the simple one).

    Sessions and step-ups ([src/vti-common/src/auth/])
    - [Sessions] ([session.rs], the checks of [extractor.rs], elevation in
      [vta-service]); [Login] ([handlers/], [backend.rs]).
    - Theorems: [SessionSafety] (what each handler's calls keep to),
      [SessionService] (every interleaving), [SessionEffects] (a refresh
      alone).
    - [WebAuthn] ([src/vti-webauthn/src/], [operations/passkey_login.rs]), with
      its theorems; [StepUp] ([step_up.rs],
      [vta-service/src/trust_tasks/step_up.rs], the lookups of
      [operations/passkey_vms]). Theorem: [StepUpSafety].

    Data rooms ([src/vti-rooms/src/])
    - [Rooms] ([lifecycle.rs], [authz.rs], [revocation.rs],
      [revocation_tasks.rs], a room's row in [lib.rs]).
    - Theorems: [RoomSafety] (every interleaving), [RoomLists] (authorization
      alone, and the next list).

    Small worlds for witnesses, which model no code: [Scene], [Runs],
    [DispatchRuns], [AclRuns], [SpineRuns], [SessionRuns], [StepUpRuns],
    [RoomRuns], and the modules [Election.Toy],
    [Group.ToyGroup] and [TaskProof.ToyProof].

    ** State and effects

    - A [Result] is [result E A]; a panic (an index out of range, an [expect])
      is [None] of an [option]. Machine integers are [Z] with their
      saturation or wrap-around written out.
    - The ballot box's handlers run in [Host.M S A], which is
      [S -> option (result Failure A * S)]: a failure keeps the state reached,
      as an early return from a method on [&mut self] does. The election
      record is [Record.ElectionRecord]; the ballot box is
      [Service.Service]; the process around it is [Dispatch.HostState], whose
      requests begin and finish as separate steps of [Dispatch.dispatched].
    - The journal is the interface [Host.Journal] with its laws
      [Host.JournalLaws]; the store in memory and [FileJournal] implement it.
      The nullifier store is [BallotBox.NullifierStore], with laws likewise.
      [FileJournal] runs over a disk whose calls may fail part-way or be the
      last one before a crash.
    - The ceremony and the decryption round are state machines
      ([Ceremony.ceremony_step], [Ceremony.reachable]).
    - A request on the access control list, at the pipeline, on a session or on a room is a
      [Programs.Prog], a tree of calls with the replies each may get: the
      store's, the clock's, and those of code injected from elsewhere
      ([Keyspace.AgentCall], [Spine.SpineCall], [Sessions.SessionCall],
      [StepUp.StepUpCall], [Rooms.RoomCall]). [Programs.service_step] runs
      many at once: a call of the store may fail, or be given up on and happen
      later; the process may stop and start again on the rows it left.
      [Programs.always] is what a program does whatever the replies,
      [service_always] carries it to every run, [service_lease] shows what is
      held by one request at a time, [service_once] what can happen at most
      once, and [service_weight] what there is never more of than at first.
      A room's gate is a count of permits, of which a reader takes one and a
      writer all ([RoomSafety.guarded]).
    - Times are nanoseconds since the epoch, of sessions seconds. Ids drawn at
      random are a sequence without repetition ([Sessions.RandomLaws]). [Spine.Horizon] is an instant
      before which a run's clock stays: a record of an accepted id promises
      something only until it expires.

    ** What is shown

    - The board: proofs are complete, and sound unless SHA-256 collides; the
      board only grows ([board_append_only]).
    - Elections: what a manifest and a ballot may say, exactly; the count is
      the count of the ballots, by declarative rows; a vote record refines
      the abstract one; the published result of an open election certifies, where
      its ballots and its counts are numbers that JSON keeps and nothing but the
      order of a [HashMap] is left open ([published_result_certifies] states the
      conditions).
    - Encrypted levels: any threshold of trustees decrypts, no fewer than it
      form a key, the proofs are sound in the group (special soundness),
      encrypted totals are the vote counts, wire forms read back.
    - The service: only authorised documents reach the ballot box, checking an
      open cast without the lock changes nothing, quotas hold, and a restart or
      a crash loses nothing that was answered, in a life whose journal writes
      succeeded and whose totals are numbers that JSON keeps ([open_life]).
    - Signatures: the named signer's own identity document authorised the key
      for the declared purpose, over the document as received.
    - Access control: grants are bounded by the granter on every axis,
      authority in a context is not gained from outside it, a hand-off is
      bounded twice and happens once, a refused request changes nothing; a
      policy beneath never widens one above. Only a super-administrator confers an
      additive capability. The runs at the end of [AclRuns]
      show what unconditional writes undo.

    - The pipeline: a document reaches its handler only past every check and
      with its id claimed; while its record is retained it is executed once,
      however requests interleave, fail and restart; answers are signed, and
      the durable record answers as a map in memory does. The runs at the end
      of [SpineRuns] show what the retention leaves out.
    - Sessions: a token is minted only for a challenge redeemed or a refresh
      token that is current or retried in time ([mint_earned]); each challenge
      and each refresh token is worth one session's tokens, whatever fails or
      races; a refresh widens nothing; an elevation is read from the row and
      lapses; who is signed out stays so ([signed_out_stays]) - except through
      a refresh under way, as the runs at the end of [SessionRuns] show.
    - Step-ups: a session is raised, or a disclosure approved, only by an
      answer of the approver asked, to a request of its own, with evidence that
      was offered ([elevation_approved]); a passkey's assertion is accepted
      exactly when the method's key made it for this party, origin and
      challenge ([assertion_iff]), and binds the document it was made for
      ([assertion_binds]). A run at the end of [StepUpRuns] shows one answer
      taken twice.
    - Data rooms: authorization answers exactly when its conditions hold
      ([authorize_iff]); what is done in a room is done under the list it was
      judged by ([in_force_when_done]); the list held only moves forward
      ([held_forward]); and the next list a key holder signs is one a host
      accepts ([next_accepted]). Runs at the end of [RoomRuns] show what a list
      whose store was given up on, and an entry that ends between two seconds,
      do to the last two.

    ** Fuel

    Recursion that is not structural carries a bound that is enough, with the
    lemma that says so beside it: the Merkle functions recurse on the number of
    leaves (each half is smaller); the verifiers' loops shift an index whose
    bits bound them; [bsgs] takes the square root of the range in giant steps
    and the theorem [bsgs_exact] says the search ends; a conditional write of a session is
    tried [SESSION_WRITE_ATTEMPTS] times, as in the code; JSON parsing in
    [Scene] takes the length of its input; a context's path is shortened at
    each step, so its length bounds [Policy.path_up]. [page_loop] shortens
    its list.

    ** Arguments

    Code outside the repository is a class of operations, with what is relied
    on as laws of their own, each inhabited by a concrete instance: the
    predicate credential system, the Ristretto group, SHA-256 and SHA-512,
    AEAD, multibase, RFC 8785 JSON, [chrono], DID resolution and Data
    Integrity signatures, the Trust Task framework's reading and judgement of
    a document, the types generated from JSON schemas, and the
    iteration order of a [HashMap].

    ** Not modelled

    - Confidentiality and zero knowledge; computational assumptions appear
      only as explicit collisions or as special soundness.
    - Logging, the words of errors where nothing reads them, metrics, HTTP and
      messaging listeners, configuration files and command lines: input and
      output around what is modelled.
    - Of the agent, everything beside its access control list: keys, vault,
      personas, backup, enclave; of the community service, all. Vetting
      beyond its text encodings, witness and mobile parts.
    - Of data rooms: records, files and their transfers beyond the gate and
      the check, MLS groups, minting an epoch, the purge of a room (which discards its
      list), and the verifier of chains, which is a call.
    - Of logging in: by passkey or SIOP, the enrolment of passkeys, JWT
      signing, attestation, and the routes into the handlers.
    - Of step-ups: what becomes of an approved preview, the judgement of an
      answer's proof (a call; [TaskProof] has the verifier), and the push of a
      request to a device.
    - The pipeline: the peeking at an unparsed body's size, a request its
      caller drops midway, and the durability of a row across a power loss.
    - Keyspaces: scans other than a prefix's, encryption at rest, the vsock backend. Of the list's
      operations, the readers kept for tests and the adapters of the newer
      wire form.

    ** Plan

    Next: the Trust Task surface of the access control list ([acl_v0_2]), the
    disclosures a bound approval releases, keys and signing under a context's
    policy, and the records of a room. *)

From stdpp Require Export prelude gmap strings list vector sorting pretty.
From Stdlib Require Export Strings.Byte.
From Stdlib Require Export ZArith Lia.

#[global] Open Scope Z_scope.
#[global] Set Default Goal Selector "!".

(** ** Results

    Rust's [Result<T, E>], with the [?] operator as stdpp's monadic bind. *)

Inductive result (E A : Type) : Type :=
| Ok (a : A)
| Err (e : E).
Arguments Ok {E A} a.
Arguments Err {E A} e.

#[export] Instance result_ret {E} : MRet (result E) := λ A a, Ok a.
#[export] Instance result_bind {E} : MBind (result E) := λ A B f r,
  match r with Ok a => f a | Err e => Err e end.
#[export] Instance result_fmap {E} : FMap (result E) := λ A B f r,
  match r with Ok a => Ok (f a) | Err e => Err e end.

#[export] Instance result_eq_dec {E A} `{EqDecision E, EqDecision A} :
  EqDecision (result E A).
Proof. solve_decision. Defined.

(** [Result::map_err]. *)
Definition map_err {E E' A} (f : E → E') (r : result E A) : result E' A :=
  match r with Ok a => Ok a | Err e => Err (f e) end.

(** [Result::map]. *)
Definition map_ok {E A B} (f : A → B) (r : result E A) : result E B :=
  match r with Ok a => Ok (f a) | Err e => Err e end.

(** [Option::ok_or]. *)
Definition ok_or {E A} (o : option A) (e : E) : result E A :=
  match o with Some a => Ok a | None => Err e end.

(** [Result::ok]. *)
Definition ok {E A} (r : result E A) : option A :=
  match r with Ok a => Some a | Err _ => None end.

(** [Result::unwrap_or]. *)
Definition unwrap_or {E A} (r : result E A) (d : A) : A :=
  match r with Ok a => a | Err _ => d end.

Definition is_ok {E A} (r : result E A) : bool :=
  match r with Ok _ => true | Err _ => false end.

(** [if c { return Err(e) }]. *)
Definition guard_err {E} (c : bool) (e : E) : result E unit :=
  if c then Err e else Ok ().

(** A [for] loop over a slice whose body may return early. *)
Fixpoint try_fold {E A S} (f : S → A → result E S) (s : S) (l : list A) : result E S :=
  match l with
  | [] => Ok s
  | a :: l' => s' ← f s a; try_fold f s' l'
  end.

(** [iter().map(f).collect::<Result<Vec<_>, _>>()]. *)
Fixpoint try_map {E A B} (f : A → result E B) (l : list A) : result E (list B) :=
  match l with
  | [] => Ok []
  | a :: l' => b ← f a; bs ← try_map f l'; Ok (b :: bs)
  end.

(** A computation that may panic ([None]) or fail. *)
Definition attempt (E A : Type) : Type := option (result E A).
#[export] Instance attempt_ret {E} : MRet (attempt E) := λ A a, Some (Ok a).
#[export] Instance attempt_bind {E} : MBind (attempt E) := λ A B f m,
  match m with
  | Some (Ok a) => f a
  | Some (Err e) => Some (Err e)
  | None => None
  end.
Definition tried {E A} (r : result E A) : attempt E A := Some r.
(** [expect] and indexing. *)
Definition expected {E A} (o : option A) : attempt E A := Ok <$> o.

(** ** Bytes *)

#[export] Instance byte_eq_dec : EqDecision byte := Byte.byte_eq_dec.
#[export] Program Instance byte_countable : Countable byte :=
  inj_countable Byte.to_N Byte.of_N _.
Next Obligation. intros x. apply Byte.of_to_N. Qed.

Abbreviation bytes := (list byte).

(** The low eight bits of a number. *)
Definition byte_of_Z (z : Z) : byte :=
  default x00 (Byte.of_N (Z.to_N (z mod 256))).

Definition Z_of_byte (b : byte) : Z := Z.of_N (Byte.to_N b).

(** [to_be_bytes] of an [8 * n]-bit unsigned integer. *)
Fixpoint to_be_bytes (n : nat) (z : Z) : bytes :=
  match n with
  | O => []
  | S n' => byte_of_Z (z / 256 ^ Z.of_nat n') :: to_be_bytes n' z
  end.

Definition to_le_bytes (n : nat) (z : Z) : bytes := rev (to_be_bytes n z).

(** [str::as_bytes]. *)
Definition as_bytes (s : string) : bytes := String.list_byte_of_string s.

(** [from_be_bytes] of any width. *)
Definition of_be_bytes (l : bytes) : Z := fold_left (λ acc b, acc * 256 + Z_of_byte b) l 0.

(** *** UTF-8

    The sequence at the front of a byte string as [core::str] decodes it: its
    length, and whether it is a character or the longest broken prefix of
    one. *)
Definition in_range (lo hi : Z) (b : byte) : bool := (lo <=? Z_of_byte b) && (Z_of_byte b <=? hi).
Definition is_cont : byte → bool := in_range 128 191.

(** The continuation bytes a character still needs, with the range of the
    first. *)
Definition utf8_needs (b : byte) : option (nat * Z * Z) :=
  let z := Z_of_byte b in
  if z <? 128 then Some (0%nat, 0, 0)
  else if in_range 194 223 b then Some (1%nat, 128, 191)
  else if z =? 224 then Some (2%nat, 160, 191)
  else if z =? 237 then Some (2%nat, 128, 159)
  else if in_range 225 239 b then Some (2%nat, 128, 191)
  else if z =? 240 then Some (3%nat, 144, 191)
  else if in_range 241 243 b then Some (3%nat, 128, 191)
  else if z =? 244 then Some (3%nat, 128, 143)
  else None.

(** How many of [n] continuation bytes are there. *)
Fixpoint conts (n : nat) (l : bytes) : nat :=
  match n, l with
  | S n, b :: l => if is_cont b then S (conts n l) else 0
  | _, _ => 0
  end.

Definition utf8_next (b : byte) (l : bytes) : bool * nat :=
  match utf8_needs b with
  | None => (false, 1%nat)
  | Some (O, _, _) => (true, 1%nat)
  | Some (S n, lo, hi) =>
      match l with
      | c :: l =>
          if in_range lo hi c then let k := conts n l in (bool_decide (k = n), (2 + k)%nat)
          else (false, 1%nat)
      | [] => (false, 1%nat)
      end
  end.

Definition REPLACEMENT : bytes := [xef; xbf; xbd].

(** [String::from_utf8_lossy]: one replacement character for each broken
    sequence; each round consumes a byte at least. *)
Fixpoint utf8_lossy_from (fuel : nat) (l : bytes) : bytes :=
  match fuel, l with
  | S fuel, b :: rest =>
      let '(valid, n) := utf8_next b rest in
      (if valid then take n l else REPLACEMENT) ++ utf8_lossy_from fuel (drop n l)
  | _, _ => []
  end.
Definition utf8_lossy (l : bytes) : string := String.string_of_list_byte (utf8_lossy_from (length l) l).

(** What every [str] is. *)
Fixpoint utf8_from (fuel : nat) (l : bytes) : bool :=
  match fuel, l with
  | S fuel, b :: rest => let '(valid, n) := utf8_next b rest in valid && utf8_from fuel (drop n l)
  | _, _ => true
  end.
Definition is_utf8 (s : string) : bool := utf8_from (length (as_bytes s)) (as_bytes s).

(** A 32-byte array, [[u8; 32]]. *)
Abbreviation Hash := (vec byte 32).

(** [<[u8; 32]>::try_from]. *)
Definition hash_of_bytes (l : bytes) : option Hash :=
  match decide (length l = 32%nat) with
  | left e => Some (eq_rect _ (vec byte) (list_to_vec l) _ e)
  | right _ => None
  end.

(** ** [BTreeMap] with integer keys

    The content of a [BTreeMap<u32, V>] is a finite map; its iteration order
    is ascending by key. *)
Definition key_le {V} (x y : Z * V) : Prop := x.1 ≤ y.1.
#[export] Instance key_le_dec {V} : RelDecision (@key_le V).
Proof. intros x y. unfold key_le. apply _. Defined.
#[export] Instance key_le_trans {V} : Transitive (@key_le V).
Proof. intros x y z. unfold key_le. lia. Qed.
#[export] Instance key_le_total {V} : Total (@key_le V).
Proof. intros x y. unfold key_le. lia. Qed.

Definition bt_list {V} (m : gmap Z V) : list (Z * V) :=
  merge_sort key_le (map_to_list m).
Definition bt_keys {V} (m : gmap Z V) : list Z := (bt_list m).*1.
Definition bt_values {V} (m : gmap Z V) : list V := (bt_list m).*2.

(** Ascending iteration of a [BTreeSet<u32>]. *)
Definition bs_list (s : gset Z) : list Z := merge_sort Z.le (elements s).

(** The inclusive range [a..=b] of a Rust loop. *)
Definition range_incl (a b : Z) : list Z := seqZ a (b - a + 1).

(** ** Machine integers *)
Definition u32_max : Z := 2 ^ 32 - 1.
Definition u64_max : Z := 2 ^ 64 - 1.
Definition i64_max : Z := 2 ^ 63 - 1.
Definition i64_min : Z := - 2 ^ 63.

(** [u32::try_from] of a wider unsigned integer. *)
Definition u32_try_from (z : Z) : option Z :=
  if bool_decide (0 ≤ z ≤ u32_max) then Some z else None.

(** [u64::saturating_sub]. *)
Definition u64_saturating_sub (a b : Z) : Z := Z.max 0 (a - b).

(** [i64::saturating_add]. *)
Definition i64_saturating_add (a b : Z) : Z :=
  Z.max i64_min (Z.min i64_max (a + b)).

(** A length every Rust slice has: it fits a [u64]. *)
Definition fits_u64 (n : nat) : Prop := Z.of_nat n < 2 ^ 64.

(** ** Result lemmas *)

Lemma bind_ok {E A B} (r : result E A) (f : A → result E B) b :
  (r ≫= f) = Ok b ↔ ∃ a, r = Ok a ∧ f a = Ok b.
Proof. destruct r; simpl; naive_solver. Qed.

Lemma bind_unit_ok {E B} (r : result E unit) (f : unit → result E B) b :
  (r ≫= f) = Ok b ↔ r = Ok () ∧ f () = Ok b.
Proof. destruct r as [[]|]; simpl; naive_solver. Qed.

Lemma guard_ok {E} c (e : E) u : guard_err c e = Ok u ↔ c = false.
Proof. destruct c, u; naive_solver. Qed.

Lemma map_err_ok {E E' A} (f : E → E') (r : result E A) a : map_err f r = Ok a ↔ r = Ok a.
Proof. destruct r; naive_solver. Qed.

Lemma ok_or_ok {E A} (o : option A) (e : E) a : ok_or o e = Ok a ↔ o = Some a.
Proof. destruct o; naive_solver. Qed.

Lemma unwrap_or_ok {E A} (r : result E A) d : is_ok r = true → r = Ok (unwrap_or r d).
Proof. by destruct r. Qed.

Lemma ok_inj {E A} (a b : A) : @Ok E A a = Ok b → a = b.
Proof. by intros [=]. Qed.

(** A comparison of a thing with itself. *)
Lemma bool_decide_same {A} (x : A) `{!Decision (x ≠ x)} : bool_decide (x ≠ x) = false.
Proof. apply bool_decide_eq_false_2. intros Hn. by apply Hn. Qed.

Lemma try_fold_app {E A S} (f : S → A → result E S) s l1 l2 :
  try_fold f s (l1 ++ l2) = (s' ← try_fold f s l1; try_fold f s' l2).
Proof.
  revert s. induction l1 as [|a l1 IH]; intros s; simpl; [done|].
  destruct (f s a); simpl; [apply IH|done].
Qed.

Lemma try_map_ok {E A B} (f : A → result E B) l bs :
  try_map f l = Ok bs ↔ Forall2 (λ a b, f a = Ok b) l bs.
Proof.
  revert bs. induction l as [|a l IH]; intros bs; simpl.
  - split; [intros [= <-]; constructor|by inversion 1].
  - rewrite bind_ok. setoid_rewrite bind_ok. setoid_rewrite IH. split.
    + intros (b & Hb & bs' & Hbs & [= <-]). by constructor.
    + inversion 1; simplify_eq. eauto 10.
Qed.

(** Turn [... = Ok _] into the conjunction of what each step required. *)
Create HintDb ok.
#[export] Hint Rewrite @bind_unit_ok @bind_ok @guard_ok @map_err_ok @ok_or_ok : ok.

(** Boolean conditions as propositions. *)
Create HintDb bools.
#[export] Hint Rewrite @bool_decide_eq_true @bool_decide_eq_false orb_false_iff orb_true_iff
  andb_true_iff andb_false_iff negb_true_iff negb_false_iff Z.ltb_lt Z.ltb_ge Z.leb_le Z.leb_gt
  Z.eqb_eq Z.eqb_neq : bools.

Lemma existsb_false {A} (f : A → bool) l : existsb f l = false ↔ ∀ x, x ∈ l → f x = false.
Proof.
  rewrite <- not_true_iff_false, existsb_exists. split.
  - intros Hn x Hx. destruct (f x) eqn:E; [|done]. destruct Hn. exists x.
    by rewrite <- list_elem_of_In.
  - intros Hf (x & Hx%list_elem_of_In & E). by rewrite Hf in E.
Qed.

Lemma forallb_true {A} (f : A → bool) l : forallb f l = true ↔ ∀ x, x ∈ l → f x = true.
Proof. rewrite forallb_forall. by setoid_rewrite list_elem_of_In. Qed.

Lemma find_none_elem {A} (f : A → bool) l : find f l = None ↔ ∀ x, x ∈ l → f x = false.
Proof.
  induction l as [|a l IH]; simpl; [split; [by intros _ x ?%elem_of_nil|done]|].
  destruct (f a) eqn:E.
  - split; [done|]. intros Hf. rewrite Hf in E; [done|apply list_elem_of_here].
  - rewrite IH. split; [|intros Hf x Hx; apply Hf; by apply list_elem_of_further].
    intros Hf x [->|]%elem_of_cons; auto.
Qed.

Lemma filter_all {A} (P : A → Prop) `{∀ x, Decision (P x)} (l : list A) :
  (∀ x, P x) → filter P l = l.
Proof. intros HP. induction l as [|x l IH]; [done|]. by rewrite filter_cons_True, IH. Qed.

(** ** Ordered maps and sets *)

Lemma bt_list_Permutation {V} (m : gmap Z V) : bt_list m ≡ₚ map_to_list m.
Proof. apply merge_sort_Permutation. Qed.

Lemma elem_of_bt_list {V} (m : gmap Z V) k v : (k, v) ∈ bt_list m ↔ m !! k = Some v.
Proof. by rewrite bt_list_Permutation, elem_of_map_to_list. Qed.

Lemma elem_of_bt_keys {V} (m : gmap Z V) k : k ∈ bt_keys m ↔ is_Some (m !! k).
Proof.
  unfold bt_keys. rewrite list_elem_of_fmap. split.
  - intros ([k' v] & -> & Hin%elem_of_bt_list). by exists v.
  - intros [v Hv%elem_of_bt_list]. by exists (k, v).
Qed.

Lemma bt_keys_NoDup {V} (m : gmap Z V) : NoDup (bt_keys m).
Proof. unfold bt_keys. rewrite bt_list_Permutation. apply NoDup_fst_map_to_list. Qed.

Lemma length_bt_keys {V} (m : gmap Z V) : length (bt_keys m) = size m.
Proof.
  unfold bt_keys. rewrite length_fmap, bt_list_Permutation. by rewrite length_map_to_list.
Qed.

Lemma size_list_to_set_le `{Countable A} (l : list A) :
  (size (list_to_set l : gset A) ≤ length l)%nat.
Proof.
  induction l as [|b l IH]; [done|].
  rewrite list_to_set_cons, size_union_alt, size_singleton. simpl.
  pose proof (subseteq_size (list_to_set l ∖ {[b]} : gset A) (list_to_set l)) as Hle.
  specialize (Hle ltac:(set_solver)). lia.
Qed.

(** A list is free of repetition when collecting it into a set loses nothing. *)
Lemma size_list_to_set_NoDup `{Countable A} (l : list A) :
  size (list_to_set l : gset A) = length l ↔ NoDup l.
Proof.
  split; [|apply size_list_to_set].
  induction l as [|a l IH]; simpl; [constructor|].
  destruct (decide (a ∈ l)) as [Hin|Hin].
  - intros Hs. exfalso. rewrite subseteq_union_1_L in Hs by set_solver.
    pose proof (size_list_to_set_le l). lia.
  - rewrite size_union, size_singleton by set_solver. intros Hs.
    constructor; [done|]. apply IH. lia.
Qed.

Lemma bs_list_Permutation (s : gset Z) : bs_list s ≡ₚ elements s.
Proof. apply merge_sort_Permutation. Qed.

Lemma elem_of_bs_list (s : gset Z) k : k ∈ bs_list s ↔ k ∈ s.
Proof. by rewrite bs_list_Permutation, elem_of_elements. Qed.

(** ** Byte lemmas *)

Lemma length_to_be_bytes n z : length (to_be_bytes n z) = n.
Proof. induction n; simpl; congruence. Qed.

Lemma Z_of_byte_of_Z z : Z_of_byte (byte_of_Z z) = z mod 256.
Proof.
  unfold Z_of_byte, byte_of_Z.
  pose proof (Z.mod_pos_bound z 256 ltac:(lia)) as Hb.
  destruct (Byte.of_N (Z.to_N (z mod 256))) as [b|] eqn:E; simpl.
  - apply Byte.to_of_N in E. rewrite E. lia.
  - apply Byte.of_N_None_iff in E. lia.
Qed.

Lemma to_be_bytes_inj n x y :
  0 ≤ x < 256 ^ Z.of_nat n → 0 ≤ y < 256 ^ Z.of_nat n →
  to_be_bytes n x = to_be_bytes n y → x = y.
Proof.
  intros Hx Hy Heq.
  enough (∀ k, (k ≤ n)%nat → x mod 256 ^ Z.of_nat k = y mod 256 ^ Z.of_nat k) as Hk.
  { specialize (Hk n (le_n n)). rewrite !Z.mod_small in Hk by done. done. }
  clear Hx Hy. revert Heq. induction n as [|n IH]; intros Heq k Hk.
  { replace k with 0%nat by lia. by rewrite !Z.mod_1_r. }
  simpl in Heq. injection Heq as Hd Ht. specialize (IH Ht).
  destruct (decide (k = S n)) as [->|]; [|apply IH; lia].
  apply (f_equal Z_of_byte) in Hd. rewrite !Z_of_byte_of_Z in Hd.
  specialize (IH n (le_n n)).
  rewrite Nat2Z.inj_succ, Z.pow_succ_r, (Z.mul_comm 256) by lia.
  rewrite !Z.rem_mul_r by lia. congruence.
Qed.

Lemma of_be_bytes_from acc l :
  fold_left (λ acc b, acc * 256 + Z_of_byte b) l acc
  = acc * 256 ^ Z.of_nat (length l) + of_be_bytes l.
Proof.
  unfold of_be_bytes. revert acc. induction l as [|b l IH]; intros acc; [simpl; lia|].
  cbn [fold_left length]. rewrite IH, (IH (0 * 256 + Z_of_byte b)).
  rewrite Nat2Z.inj_succ, Z.pow_succ_r by lia. ring.
Qed.

Lemma of_be_to_be n z : 0 ≤ z < 256 ^ Z.of_nat n → of_be_bytes (to_be_bytes n z) = z.
Proof.
  intros Hz. enough (∀ k, of_be_bytes (to_be_bytes k z) = z mod 256 ^ Z.of_nat k) as Hk.
  { rewrite Hk. by apply Z.mod_small. }
  induction k as [|k IH]; [by rewrite Z.mod_1_r|]. cbn [to_be_bytes].
  unfold of_be_bytes. cbn [fold_left]. rewrite of_be_bytes_from, IH, length_to_be_bytes.
  rewrite Z_of_byte_of_Z, Nat2Z.inj_succ, Z.pow_succ_r, (Z.mul_comm 256) by lia.
  rewrite Z.rem_mul_r by lia. lia.
Qed.

Lemma utf8_lossy_valid_from fuel l : (length l ≤ fuel)%nat → utf8_from fuel l = true → utf8_lossy_from fuel l = l.
Proof.
  revert l. induction fuel as [|fuel IH]; intros [|b l] Hl; simpl in *; [done|lia|done|].
  destruct (utf8_next b l) as [[] n] eqn:En; simpl; [|done]. intros Hu.
  assert (1 ≤ n)%nat as Hn.
  { unfold utf8_next in En. repeat case_match; simplify_eq/=; lia. }
  rewrite IH; [by rewrite take_drop| |done]. rewrite length_drop. simpl. lia.
Qed.

Lemma utf8_lossy_valid s : is_utf8 s = true → utf8_lossy (as_bytes s) = s.
Proof.
  unfold is_utf8, utf8_lossy. intros Hu. rewrite utf8_lossy_valid_from by done.
  apply String.string_of_list_byte_of_string.
Qed.

Lemma as_bytes_inj s t : as_bytes s = as_bytes t → s = t.
Proof.
  unfold as_bytes. intros Heq. rewrite <- (String.string_of_list_byte_of_string s), Heq.
  apply String.string_of_list_byte_of_string.
Qed.

Lemma hash_of_bytes_vec (d : Hash) : hash_of_bytes (vec_to_list d) = Some d.
Proof.
  unfold hash_of_bytes. destruct (decide _) as [e|n]; [|destruct n; apply length_vec_to_list].
  f_equal. apply vec_to_list_inj2. destruct e. simpl. by rewrite vec_to_list_to_vec.
Qed.

(** Hashes as map keys; the encoding computes. *)
#[export] Instance hash_countable : Countable Hash :=
  inj_countable (A := bytes) (B := Hash) vec_to_list hash_of_bytes hash_of_bytes_vec.

(** ** Hash functions

    SHA-256 is the [sha2] crate's: an argument of every definition that
    hashes. Nothing is assumed of it; where a theorem would need it to be
    collision-resistant, it exhibits the collision instead. *)
Class Sha256 := sha256 : bytes → Hash.

(** A pair of different inputs with one hash. *)
Definition is_collision `{Sha256} (c : bytes * bytes) : Prop :=
  c.1 ≠ c.2 ∧ sha256 c.1 = sha256 c.2.

(** The first [n] bytes of a list, zero-padded. *)
Fixpoint vec_pad (n : nat) (l : bytes) : vec byte n :=
  match n with
  | O => [#]
  | S n' => default x00 (head l) ::: vec_pad n' (tail l)
  end.

Lemma vec_pad_full n l : length l = n → vec_to_list (vec_pad n l) = l.
Proof.
  revert l. induction n as [|n IH]; intros [|x l] Hl; simplify_eq/=; [done|].
  f_equal. by apply IH.
Qed.

(** A small concrete hash, for the witnesses only. *)
Definition toy_sha256 : Sha256 := λ b,
  vec_pad 32 (to_be_bytes 32
    (fold_left (λ acc x, (acc * 65599 + Z_of_byte x + 1) mod 2 ^ 256) b 7)).

Lemma ascii_utf8 fuel l : Forall (λ b, Z_of_byte b < 128) l → utf8_from fuel l = true.
Proof.
  revert l. induction fuel as [|fuel IH]; intros [|b l] Hl; [done..|].
  apply Forall_cons in Hl as [Hb Hl]. cbn [utf8_from].
  assert (utf8_next b l = (true, 1%nat)) as ->; [|exact (IH _ Hl)].
  unfold utf8_next, utf8_needs. by rewrite (proj2 (Z.ltb_lt _ _) Hb).
Qed.

(** A byte as two letters, for the witnesses only. *)
Definition toy_letter (z : Z) : byte := byte_of_Z (97 + z).
Definition toy_letters (b : byte) : bytes := [toy_letter (Z_of_byte b / 16); toy_letter (Z_of_byte b mod 16)].
Definition toy_text (l : bytes) : bytes := concat (toy_letters <$> l).
Fixpoint toy_of_text (l : bytes) : bytes :=
  match l with
  | x :: y :: l => byte_of_Z ((Z_of_byte x - 97) * 16 + (Z_of_byte y - 97)) :: toy_of_text l
  | _ => []
  end.
Lemma toy_of_text_text l : toy_of_text (toy_text l) = l.
Proof. induction l as [|b l IH]; [done|]. simpl. f_equal; [by destruct b|exact IH]. Qed.

Lemma toy_text_ascii l : Forall (λ b, Z_of_byte b < 128) (toy_text l).
Proof.
  induction l as [|b l IH]; [constructor|]. unfold toy_text. simpl.
  apply Forall_cons; split; [by destruct b|]. apply Forall_cons; split; [by destruct b|exact IH].
Qed.

(** A concrete self-delimiting encoding of bytes and integers, for the
    witnesses only: the bytes 0 and 1 are escaped by 1, and 0 ends. *)
Fixpoint toy_put (l : bytes) : bytes :=
  match l with
  | [] => [x00]
  | x00 :: l => x01 :: x00 :: toy_put l
  | x01 :: l => x01 :: x01 :: toy_put l
  | b :: l => b :: toy_put l
  end.
Fixpoint toy_get (l : bytes) : option (bytes * bytes) :=
  match l with
  | [] => None
  | x00 :: l => Some ([], l)
  | x01 :: b :: l => '(x, rest) ← toy_get l; Some (b :: x, rest)
  | b :: l => '(x, rest) ← toy_get l; Some (b :: x, rest)
  end.
Lemma toy_get_put l rest : toy_get (toy_put l ++ rest) = Some (l, rest).
Proof. induction l as [|b l IH]; [done|]. destruct b; simpl; rewrite IH; done. Qed.

Fixpoint bits_of (p : positive) : bytes :=
  match p with
  | xH => []
  | xO p => x02 :: bits_of p
  | xI p => x03 :: bits_of p
  end.
Fixpoint of_bits (l : bytes) : positive :=
  match l with
  | [] => xH
  | x02 :: l => xO (of_bits l)
  | _ :: l => xI (of_bits l)
  end.
Lemma of_bits_of p : of_bits (bits_of p) = p.
Proof. induction p as [p IH|p IH|]; simpl; by rewrite ?IH. Qed.

Definition toy_put_Z (z : Z) : bytes := toy_put (bits_of (encode z)).
Definition toy_get_Z (l : bytes) : option (Z * bytes) :=
  '(b, rest) ← toy_get l; z ← decode (of_bits b); Some (z, rest).
Lemma toy_get_put_Z z rest : toy_get_Z (toy_put_Z z ++ rest) = Some (z, rest).
Proof.
  unfold toy_get_Z, toy_put_Z. rewrite toy_get_put. cbn [mbind option_bind].
  by rewrite of_bits_of, (decode_encode z).
Qed.
