(* ===== verification/Text.v ===== *)
(** * Rust's [str]

    The methods of [str] the workspace uses, on strings as their UTF-8 bytes;
    every pattern in the code is ASCII, so cutting at its bytes cuts at its
    characters. Each has its specification as an equation of concatenation. *)

From S2P Require Import Prelude.
From Stdlib Require Export Strings.Ascii.

Abbreviation char := Ascii.ascii.

(** [str::strip_prefix], [starts_with]. *)
Fixpoint strip_prefix (p s : string) : option string :=
  match p, s with
  | EmptyString, _ => Some s
  | String a p, String b s => if bool_decide (a = b) then strip_prefix p s else None
  | _, _ => None
  end.
Definition starts_with (p s : string) : bool := bool_decide (is_Some (strip_prefix p s)).

(** [str::strip_suffix], [ends_with]. *)
Fixpoint strip_suffix (p s : string) : option string :=
  if bool_decide (s = p) then Some EmptyString
  else match s with
       | EmptyString => None
       | String a s => String a <$> strip_suffix p s
       end.
Definition ends_with (p s : string) : bool := bool_decide (is_Some (strip_suffix p s)).

(** [str::contains] of a string. *)
Fixpoint contains (p s : string) : bool :=
  starts_with p s || match s with EmptyString => false | String _ s => contains p s end.

(** [str::contains] of a character. *)
Fixpoint has_char (c : char) (s : string) : bool :=
  match s with
  | EmptyString => false
  | String a s => bool_decide (a = c) || has_char c s
  end.

(** [str::split_once] and [rsplit_once] at a character. *)
Fixpoint split_once (c : char) (s : string) : option (string * string) :=
  match s with
  | EmptyString => None
  | String a s =>
      if bool_decide (a = c) then Some (EmptyString, s)
      else (λ p, (String a p.1, p.2)) <$> split_once c s
  end.
Fixpoint rsplit_once (c : char) (s : string) : option (string * string) :=
  match s with
  | EmptyString => None
  | String a s =>
      match rsplit_once c s with
      | Some p => Some (String a p.1, p.2)
      | None => if bool_decide (a = c) then Some (EmptyString, s) else None
      end
  end.

(** [s.split(c).next()], which is never empty. *)
Definition before (c : char) (s : string) : string :=
  match split_once c s with Some p => p.1 | None => s end.

(** [str::split] at a character. *)
Fixpoint split (c : char) (s : string) : list string :=
  match s with
  | EmptyString => [EmptyString]
  | String a s =>
      let rest := split c s in
      if bool_decide (a = c) then EmptyString :: rest
      else match rest with [] => [String a EmptyString] | w :: ws => String a w :: ws end
  end.

(** [slice::join] of strings. *)
Fixpoint join (sep : string) (l : list string) : string :=
  match l with
  | [] => ""
  | [s] => s
  | s :: l => s +:+ sep +:+ join sep l
  end.

(** [str::replace] of one character by another. *)
Fixpoint replace_char (a b : char) (s : string) : string :=
  match s with
  | EmptyString => EmptyString
  | String x s => String (if bool_decide (x = a) then b else x) (replace_char a b s)
  end.

(** [str::trim_end_matches] of a character. *)
Fixpoint trim_end (c : char) (s : string) : string :=
  match s with
  | EmptyString => EmptyString
  | String a s =>
      match trim_end c s with
      | EmptyString => if bool_decide (a = c) then EmptyString else String a EmptyString
      | s' => String a s'
      end
  end.

(** White space, in one, two and three bytes. *)
Definition white1 (a : char) : bool :=
  let n := Ascii.nat_of_ascii a in ((9 <=? n) && (n <=? 13) || (n =? 32))%nat.
Definition white2 (a b : char) : bool :=
  let n := Ascii.nat_of_ascii a in let m := Ascii.nat_of_ascii b in ((n =? 194) && ((m =? 133) || (m =? 160)))%nat.
Definition white3 (a b c : char) : bool :=
  let n := Ascii.nat_of_ascii a in let m := Ascii.nat_of_ascii b in let k := Ascii.nat_of_ascii c in
  ((n =? 225) && (m =? 154) && (k =? 128)
   || (n =? 226) && (m =? 128) && ((128 <=? k) && (k <=? 138) || (k =? 168) || (k =? 169) || (k =? 175))
   || (n =? 226) && (m =? 129) && (k =? 159)
   || (n =? 227) && (m =? 128) && (k =? 128))%nat.

(** [str::trim] leaves nothing: every character is white space. *)
Fixpoint blank (s : string) : bool :=
  match s with
  | EmptyString => true
  | String a s1 =>
      if white1 a then blank s1
      else match s1 with
           | String b s2 =>
               if white2 a b then blank s2
               else match s2 with String c s3 => white3 a b c && blank s3 | EmptyString => false end
           | EmptyString => false
           end
  end.
Fixpoint trim_white_start (s : string) : string :=
  match s with
  | EmptyString => EmptyString
  | String a s1 =>
      if white1 a then trim_white_start s1
      else match s1 with
           | String b s2 =>
               if white2 a b then trim_white_start s2
               else match s2 with
                    | String c s3 => if white3 a b c then trim_white_start s3 else s
                    | EmptyString => s
                    end
           | EmptyString => s
           end
  end.
Fixpoint trim_white_end (s : string) : string :=
  if blank s then EmptyString
  else match s with String a s => String a (trim_white_end s) | EmptyString => EmptyString end.
(** [str::trim]. *)
Definition trim (s : string) : string := trim_white_end (trim_white_start s).

(** ** Specifications *)

Lemma string_app_assoc (a b c : string) : a +:+ (b +:+ c) = (a +:+ b) +:+ c.
Proof. induction a as [|x a IH]; [done|]. exact (f_equal (String x) IH). Qed.
Lemma string_app_nil (a : string) : a +:+ "" = a.
Proof. induction a as [|x a IH]; [done|]. exact (f_equal (String x) IH). Qed.
Lemma string_app_length (a b : string) : String.length (a +:+ b) = (String.length a + String.length b)%nat.
Proof. induction a as [|x a IH]; [done|]. exact (f_equal S IH). Qed.
Lemma string_app_inj_l (p a b : string) : p +:+ a = p +:+ b → a = b.
Proof. induction p as [|x p IH]; [done|]. intros [= He]. auto. Qed.

Lemma strip_prefix_spec p s r : strip_prefix p s = Some r ↔ s = p +:+ r.
Proof.
  revert s. induction p as [|a p IH]; intros s; simpl; [naive_solver|].
  destruct s as [|b s]; [done|]. case_bool_decide as Hab.
  - subst. rewrite IH. split; [by intros ->|by intros [= ->]].
  - split; [done|]. by intros [= -> _].
Qed.
Lemma strip_prefix_app p r : strip_prefix p (p +:+ r) = Some r.
Proof. by apply strip_prefix_spec. Qed.

Lemma starts_with_spec p s : starts_with p s = true ↔ ∃ r, s = p +:+ r.
Proof.
  unfold starts_with. rewrite bool_decide_eq_true.
  split; [intros [r Hr%strip_prefix_spec]; by exists r|intros [r Hr%strip_prefix_spec]; by exists r].
Qed.

Lemma strip_suffix_spec p s r : strip_suffix p s = Some r ↔ s = r +:+ p.
Proof.
  revert r. induction s as [|a s IH]; intros r; simpl; case_bool_decide as Hp.
  - subst. split; [by intros [= <-]|]. by destruct r.
  - split; [done|]. by destruct r.
  - subst. split; [by intros [= <-]|]. destruct r as [|b r]; [done|]. intros He.
    apply (f_equal String.length) in He. simpl in He. rewrite string_app_length in He. simpl in He. lia.
  - rewrite fmap_Some. split.
    + intros (r' & Hr'%IH & ->). simpl. by rewrite Hr'.
    + destruct r as [|b r]; [intros He; by destruct Hp|]. intros [= -> He]. exists r. by rewrite IH.
Qed.

Lemma split_once_spec c s a b :
  split_once c s = Some (a, b) ↔ s = a +:+ String c b ∧ has_char c a = false.
Proof.
  revert a b. induction s as [|x s IH]; intros a b; simpl; [split; [done|by destruct a; intros [? _]]|].
  case_bool_decide as Hx.
  - subst. split; [by intros [= <- <-]|]. destruct a as [|y a]; simpl.
    + by intros [[= ->] _].
    + intros [[= <- _] Hc]. by rewrite bool_decide_eq_true_2 in Hc.
  - rewrite fmap_Some. split.
    + intros ([a' b'] & Hs%IH & [= -> ->]). destruct Hs as [-> Hc]. split; [done|]. simpl.
      by rewrite bool_decide_eq_false_2.
    + intros [He Hc]. destruct a as [|y a]; simpl in *; injection He as <- He; [done|].
      apply orb_false_iff in Hc as [_ Hc]. exists (a, b). split; [by apply IH|done].
Qed.

Lemma split_once_none c s : split_once c s = None ↔ has_char c s = false.
Proof.
  induction s as [|x s IH]; simpl; [done|]. case_bool_decide; [done|]. simpl. rewrite <- IH.
  destruct (split_once c s); by split.
Qed.

Lemma rsplit_once_spec c s a b :
  rsplit_once c s = Some (a, b) ↔ s = a +:+ String c b ∧ has_char c b = false.
Proof.
  assert (∀ s, rsplit_once c s = None ↔ has_char c s = false) as Hnone.
  { clear. induction s as [|x s IH]; simpl; [done|]. destruct (rsplit_once c s) as [p|].
    - split; [done|]. intros [_ Hs]%orb_false_iff. by apply IH in Hs.
    - rewrite (proj1 IH) by done. by case_bool_decide. }
  revert a b. induction s as [|x s IH]; intros a b; simpl; [split; [done|by destruct a; intros [? _]]|].
  destruct (rsplit_once c s) as [[a' b']|] eqn:Hr.
  - split.
    + intros [= <- <-]. destruct (proj1 (IH a' b')) as [-> Hb]; [done|]. done.
    + intros [He Hb]. destruct a as [|y a]; simpl in He; injection He as -> He.
      * subst. apply Hnone in Hb. congruence.
      * destruct (IH a b) as [_ IHa]. by specialize (IHa (conj He Hb)) as [= -> ->].
  - assert (has_char c s = false) as Hs by by apply Hnone. case_bool_decide as Hx.
    + subst. split; [by intros [= <- <-]|]. destruct a as [|y a]; simpl; [by intros [[= ->] _]|].
      intros [[= <- ->] _]. exfalso. clear -Hs. induction a as [|y a IH]; simpl in Hs.
      * by rewrite bool_decide_eq_true_2 in Hs.
      * apply orb_false_iff in Hs as [_ ?]. auto.
    + split; [done|]. destruct a as [|y a]; simpl; [by intros [[= ? _] _]|].
      intros [[= <- ->] _]. exfalso. clear -Hs. induction a as [|y a IH]; simpl in Hs.
      * by rewrite bool_decide_eq_true_2 in Hs.
      * apply orb_false_iff in Hs as [_ ?]. auto.
Qed.

Lemma has_char_app c a b : has_char c (a +:+ b) = has_char c a || has_char c b.
Proof. induction a as [|x a IH]; simpl; [done|]. by rewrite IH, orb_assoc. Qed.

Lemma before_no_char c s : has_char c s = false → before c s = s.
Proof. intros Hs%split_once_none. unfold before. by rewrite Hs. Qed.
Lemma before_app c a b : has_char c a = false → before c (a +:+ String c b) = a.
Proof.
  intros Ha. unfold before. destruct (split_once_spec c (a +:+ String c b) a b) as [_ ->]; done.
Qed.
Lemma before_has c s : has_char c (before c s) = false.
Proof.
  unfold before. destruct (split_once c s) as [[a b]|] eqn:Hs.
  - by apply split_once_spec in Hs as [_ ?].
  - by apply split_once_none.
Qed.

Lemma replace_char_id a b s : has_char a s = false → replace_char a b s = s.
Proof.
  induction s as [|x s IH]; simpl; [done|]. intros [Hx Hs]%orb_false_iff. rewrite Hx, IH; done.
Qed.
Lemma replace_char_app a b s t : replace_char a b (s +:+ t) = replace_char a b s +:+ replace_char a b t.
Proof. induction s as [|x s IH]; simpl; [done|]. by rewrite IH. Qed.
(** Replacing forth and back, where the new character did not occur. *)
Lemma replace_char_back a b s : has_char b s = false → replace_char b a (replace_char a b s) = s.
Proof.
  induction s as [|x s IH]; simpl; [done|]. intros [Hx%bool_decide_eq_false Hs]%orb_false_iff.
  rewrite IH by done. f_equal. destruct (decide (x = a)) as [->|Hxa].
  - by rewrite (bool_decide_eq_true_2 (a = a)), bool_decide_eq_true_2.
  - by rewrite (bool_decide_eq_false_2 (x = a)), bool_decide_eq_false_2.
Qed.
Lemma has_replaced a b c s :
  c ≠ b → has_char c s = false → has_char c (replace_char a b s) = false.
Proof.
  intros Hc. induction s as [|x s IH]; simpl; [done|]. intros [Hx Hs]%orb_false_iff.
  rewrite IH by done. rewrite orb_false_r. apply bool_decide_eq_false.
  apply bool_decide_eq_false in Hx. destruct (decide (x = a)) as [->|Hne].
  - by rewrite bool_decide_eq_true_2.
  - by rewrite bool_decide_eq_false_2.
Qed.
Lemma no_char_replaced a b s : a ≠ b → has_char a (replace_char a b s) = false.
Proof.
  intros Hab. induction s as [|x s IH]; simpl; [done|]. rewrite IH, orb_false_r.
  apply bool_decide_eq_false. destruct (decide (x = a)) as [->|Hx].
  - by rewrite bool_decide_eq_true_2.
  - by rewrite bool_decide_eq_false_2.
Qed.

(** Cutting at a character. *)
Lemma split_cons c s : ∃ w ws, split c s = w :: ws.
Proof.
  destruct s as [|x s]; simpl; [by eexists _, _|]. case_bool_decide; [by eexists _, _|].
  destruct (split c s); by eexists _, _.
Qed.
Lemma split_once_split c s :
  split c s = match split_once c s with Some (a, b) => a :: split c b | None => [s] end.
Proof.
  induction s as [|x s IH]; simpl; [done|]. case_bool_decide; [done|]. rewrite IH.
  by destruct (split_once c s) as [[a b]|].
Qed.
Lemma split_replaced a b s : has_char b s = false → split b (replace_char a b s) = split a s.
Proof.
  induction s as [|x s IH]; simpl; [done|]. intros [Hx%bool_decide_eq_false Hs]%orb_false_iff.
  rewrite IH by done. destruct (decide (x = a)) as [->|Hxa].
  - by rewrite (bool_decide_eq_true_2 (a = a)), bool_decide_eq_true_2.
  - by rewrite (bool_decide_eq_false_2 (x = a)), bool_decide_eq_false_2.
Qed.
Lemma trim_end_id c s : last (split c s) ≠ Some "" → trim_end c s = s.
Proof.
  induction s as [|x s IH]; simpl; [done|]. destruct (split_cons c s) as (w & ws & Hw).
  rewrite Hw in *. case_bool_decide as Hx; intros Hl.
  - rewrite IH; [|by destruct ws]. destruct s; [|done]. simpl in Hw. by injection Hw as <- <-.
  - destruct ws as [|w' ws].
    + rewrite split_once_split in Hw. destruct (split_once c s) as [[a b]|] eqn:Hs.
      { injection Hw as _ Hb. by destruct (split_cons c b) as (? & ? & ?); congruence. }
      injection Hw as <-. destruct s as [|y s]; [done|]. rewrite IH by done. done.
    + rewrite IH by done. by destruct s.
Qed.
Lemma nonempty_last c s : Forall (λ w, w ≠ "") (split c s) → last (split c s) ≠ Some "".
Proof.
  intros Hf Hl. apply last_Some in Hl as (l & Hl). rewrite Hl, Forall_app, Forall_singleton in Hf.
  by destruct Hf.
Qed.

(** ** Splitting and joining *)

Lemma split_app c a b : split c (a +:+ String c b) = split c a ++ split c b.
Proof.
  induction a as [|x a IH]; simpl.
  - by rewrite bool_decide_eq_true_2.
  - rewrite IH. case_bool_decide; [done|]. by destruct (split_cons c a) as (w & ws & ->).
Qed.

Lemma join_cons sep w ws : ws ≠ [] → join sep (w :: ws) = w +:+ sep +:+ join sep ws.
Proof. by destruct ws. Qed.

Lemma join_app sep a b : a ≠ [] → b ≠ [] → join sep (a ++ b) = join sep a +:+ sep +:+ join sep b.
Proof.
  intros Ha Hb. induction a as [|w [|v a] IH]; [done|by apply join_cons|].
  change ((w :: v :: a) ++ b) with (w :: (v :: a) ++ b).
  rewrite !join_cons by done. rewrite IH by done. by rewrite !string_app_assoc.
Qed.

Lemma join_split c s : join (String c "") (split c s) = s.
Proof.
  induction s as [|x s IH]; [done|]. cbn [split]. destruct (split_cons c s) as (w & ws & Hs).
  case_bool_decide as Hx.
  - subst x. rewrite join_cons by (by rewrite Hs). rewrite IH. done.
  - rewrite Hs in IH |- *. rewrite <- IH. by destruct ws.
Qed.

Lemma split_inj c s t : split c s = split c t → s = t.
Proof. intros Heq. by rewrite <- (join_split c s), <- (join_split c t), Heq. Qed.

Lemma split_no_char c s : has_char c s = false → split c s = [s].
Proof.
  induction s as [|x s IH]; [done|]. cbn [has_char split]. intros [Hx Hs]%orb_false_iff.
  rewrite Hx, IH by done. done.
Qed.
