(* ===== verification/Contexts.v ===== *)
(** * Context paths

    [vta-sdk/src/identifier.rs] and [context_path.rs]: a trust context's
    identifier is its path, segments joined by ['/'], and an administrator of a
    context administers everything beneath it. Proved: the ancestry test is
    the prefix order on segments, so it is a partial order and no context is
    mistaken for another's parent because its name begins the same; a child is
    exactly one level beneath its parent.

    A [ValidationError] keeps which rule was broken, not the words. *)

From S2P Require Import Prelude Text.

(** ** Identifiers ([identifier.rs]) *)

Definition MAX_IDENTIFIER_LEN : nat := 64.

Inductive ValidationError :=
| EmptyIdentifier | IdentifierTooLong | InvalidCharacter (at_ : nat)
| EmptyPath | OuterSeparator | TooDeep (levels : nat) | EmptySegment.

Definition in_range (a b c : char) : bool :=
  ((Ascii.nat_of_ascii a <=? Ascii.nat_of_ascii c) && (Ascii.nat_of_ascii c <=? Ascii.nat_of_ascii b))%nat.

Definition identifier_char (c : char) : bool :=
  in_range "A" "Z" c || in_range "a" "z" c || in_range "0" "9" c
  || bool_decide (c = "."%char) || bool_decide (c = "_"%char) || bool_decide (c = "-"%char).

(** The loop of [validate_identifier], from character [i]. *)
Fixpoint check_chars (i : nat) (value : string) : result ValidationError unit :=
  match value with
  | EmptyString => Ok ()
  | String c value => if identifier_char c then check_chars (S i) value else Err (InvalidCharacter i)
  end.

Definition validate_identifier (value : string) : result ValidationError unit :=
  _ ← guard_err (bool_decide (value = "")) EmptyIdentifier;
  _ ← guard_err (MAX_IDENTIFIER_LEN <? String.length value)%nat IdentifierTooLong;
  check_chars 0 value.

(** ** Paths ([context_path.rs]) *)

Definition MAX_CONTEXT_DEPTH : nat := 8.
Definition SEPARATOR : char := "/"%char.

Definition validate_context_path (value : string) : result ValidationError unit :=
  _ ← guard_err (bool_decide (value = "")) EmptyPath;
  _ ← guard_err (starts_with "/" value || ends_with "/" value) OuterSeparator;
  let parts := split SEPARATOR value in
  _ ← guard_err (MAX_CONTEXT_DEPTH <? length parts)%nat (TooDeep (length parts));
  try_fold (λ _ segment,
    _ ← guard_err (bool_decide (segment = "")) EmptySegment;
    validate_identifier segment) () parts.

Definition segments (path : string) : list string := split SEPARATOR path.

(** The loop of [is_ancestor_or_self] over the two iterators. *)
Fixpoint begins_with (anc desc : list string) : bool :=
  match anc, desc with
  | [], _ => true
  | _, [] => false
  | a :: anc, d :: desc => if bool_decide (a ≠ d) then false else begins_with anc desc
  end.

Definition is_ancestor_or_self (ancestor descendant : string) : bool :=
  if bool_decide (ancestor = "") || bool_decide (descendant = "") then false
  else begins_with (segments ancestor) (segments descendant).

Definition parent_path (path : string) : option string := fst <$> rsplit_once SEPARATOR path.

Definition depth (path : string) : nat :=
  if bool_decide (path = "") then 0%nat else length (split SEPARATOR path).

Definition child_path (parent segment : string) : result ValidationError string :=
  _ ← validate_identifier segment;
  let candidate := parent +:+ String SEPARATOR segment in
  _ ← validate_context_path candidate;
  Ok candidate.

(** ** Ancestry *)

Lemma begins_with_prefix anc desc : begins_with anc desc = true ↔ anc `prefix_of` desc.
Proof.
  revert desc. induction anc as [|a anc IH]; intros desc; [by split; [intros _; apply prefix_nil|]|].
  destruct desc as [|d desc]; [by split; [|intros ?%prefix_nil_inv]|]. cbn [begins_with].
  case_bool_decide as Hd.
  - split; [done|]. by intros ?%prefix_cons_inv_1.
  - subst d. rewrite IH. split; [apply prefix_cons|apply prefix_cons_inv_2].
Qed.

Lemma is_ancestor_segments a d :
  is_ancestor_or_self a d = true ↔ a ≠ "" ∧ d ≠ "" ∧ segments a `prefix_of` segments d.
Proof.
  unfold is_ancestor_or_self. rewrite <- begins_with_prefix.
  destruct (bool_decide_reflect (a = "")), (bool_decide_reflect (d = "")); simpl; naive_solver.
Qed.

Lemma segments_beneath a rest : segments (a +:+ "/" +:+ rest) = segments a ++ segments rest.
Proof. apply (split_app SEPARATOR). Qed.

Lemma segments_prefix a d :
  segments a `prefix_of` segments d ↔ d = a ∨ ∃ rest, d = a +:+ "/" +:+ rest.
Proof.
  split.
  - intros [ws Hd]. destruct ws as [|w ws].
    + rewrite app_nil_r in Hd. left. by apply (split_inj SEPARATOR).
    + right. exists (join "/" (w :: ws)). rewrite <- (join_split SEPARATOR d).
      unfold segments in Hd. rewrite Hd. rewrite join_app; [|by destruct (split_cons SEPARATOR a) as (? & ? & ->)|done].
      by rewrite (join_split SEPARATOR a).
  - intros [->|[rest ->]]; [done|]. rewrite segments_beneath. by apply prefix_app_r.
Qed.

(** A context is beneath another exactly if its path says so: the
    ancestry test accepts the context itself and the paths that continue it
    after a separator, and nothing else, so that [acme] is not above
    [acme-evil]; and it is a partial order of the contexts. *)
Theorem ancestry_spec a d :
  (is_ancestor_or_self a d = true ↔ a ≠ "" ∧ (d = a ∨ ∃ rest, d = a +:+ "/" +:+ rest))
  ∧ (is_ancestor_or_self a d = true → is_ancestor_or_self d a = true → a = d)
  ∧ (∀ e, is_ancestor_or_self a d = true → is_ancestor_or_self d e = true → is_ancestor_or_self a e = true).
Proof.
  split_and!.
  - rewrite is_ancestor_segments, segments_prefix. split; [tauto|]. intros [Ha Hd].
    split_and!; [done| |done]. destruct Hd as [->|[rest ->]]; [done|]. by destruct a.
  - rewrite !is_ancestor_segments. intros (_ & _ & H1) (_ & _ & H2).
    apply (split_inj SEPARATOR). by apply (anti_symm prefix).
  - intros e. rewrite !is_ancestor_segments. intros (Ha & _ & H1) (_ & He & H2).
    split_and!; [done..|by trans (segments d)].
Qed.

Lemma ancestry_spec_witness :
  (is_ancestor_or_self "acme" "acme/lab" = true ↔ "acme" ≠ "" ∧ ("acme/lab" = "acme" ∨ ∃ rest, "acme/lab" = "acme" +:+ "/" +:+ rest))
  ∧ (is_ancestor_or_self "acme" "acme/lab" = true → is_ancestor_or_self "acme/lab" "acme" = true → "acme" = "acme/lab")
  ∧ (∀ e, is_ancestor_or_self "acme" "acme/lab" = true → is_ancestor_or_self "acme/lab" e = true → is_ancestor_or_self "acme" e = true).
Proof. apply (ancestry_spec "acme" "acme/lab"). Defined.

Lemma ancestor_trans a d e :
  is_ancestor_or_self a d = true → is_ancestor_or_self d e = true → is_ancestor_or_self a e = true.
Proof.
  rewrite !is_ancestor_segments. intros (Ha & _ & H1) (_ & He & H2). split_and!; [done..|by trans (segments d)].
Qed.

(** ** Children *)

Lemma identifier_char_separator : identifier_char SEPARATOR = false.
Proof. reflexivity. Qed.

Lemma check_chars_no_separator i s : check_chars i s = Ok () → has_char SEPARATOR s = false.
Proof.
  revert i. induction s as [|c s IH]; intros i; [done|]. cbn [check_chars has_char].
  destruct (identifier_char c) eqn:Hc; [|done]. intros Hs. rewrite (IH _ Hs).
  rewrite bool_decide_eq_false_2; [done|]. intros ->. by rewrite identifier_char_separator in Hc.
Qed.

Lemma validate_identifier_ok s :
  validate_identifier s = Ok () →
  s ≠ "" ∧ (String.length s ≤ MAX_IDENTIFIER_LEN)%nat ∧ has_char SEPARATOR s = false.
Proof.
  unfold validate_identifier. rewrite !bind_unit_ok, !guard_ok. intros (He & Hl & Hc).
  apply bool_decide_eq_false in He. apply Nat.ltb_ge in Hl. split_and!; [done..|].
  by eapply check_chars_no_separator.
Qed.

Lemma validate_path_ok p :
  validate_context_path p = Ok () →
  p ≠ "" ∧ (depth p ≤ MAX_CONTEXT_DEPTH)%nat ∧ Forall (λ s, validate_identifier s = Ok ()) (segments p).
Proof.
  unfold validate_context_path, depth. rewrite !bind_unit_ok, !guard_ok. intros (He & _ & Hd & Hs).
  apply bool_decide_eq_false in He. apply Nat.ltb_ge in Hd. rewrite bool_decide_eq_false_2 by done.
  split_and!; [done..|]. clear He Hd. unfold segments. induction (split SEPARATOR p) as [|w ws IH]; [constructor|].
  cbn [try_fold] in Hs. apply bind_ok in Hs as ([] & Hw & Hs). apply bind_unit_ok in Hw as [_ Hw].
  constructor; [done|by apply IH].
Qed.

(** A child is one level beneath its parent: a validated path whose parent is
    the given one, and which is an ancestor of nothing above it. *)
Theorem child_path_beneath parent segment c :
  child_path parent segment = Ok c →
  parent_path c = Some parent
  ∧ is_ancestor_or_self parent c = true
  ∧ is_ancestor_or_self c parent = false
  ∧ depth c = S (depth parent)
  ∧ (depth c ≤ MAX_CONTEXT_DEPTH)%nat
  ∧ validate_context_path c = Ok ().
Proof.
  unfold child_path. rewrite !bind_unit_ok. intros (Hs & Hv & [= <-]).
  destruct (validate_identifier_ok _ Hs) as (Hne & _ & Hsep).
  destruct (validate_path_ok _ Hv) as (Hc & Hdep & Hseg).
  assert (segments (parent +:+ String SEPARATOR segment) = segments parent ++ [segment]) as Hsegs.
  { unfold segments. by rewrite split_app, (split_no_char _ segment). }
  assert (parent ≠ "") as Hp.
  { intros ->. rewrite Hsegs in Hseg. apply Forall_app in Hseg as [Hf _]. cbn in Hf.
    apply Forall_cons in Hf as [Hf _]. by destruct (validate_identifier_ok _ Hf). }
  split_and!; [| | | |done|done].
  - unfold parent_path.
    destruct (rsplit_once SEPARATOR (parent +:+ String SEPARATOR segment)) as [[a b]|] eqn:Hr.
    + pose proof Hr as Hr'. apply rsplit_once_spec in Hr as [Heq Hb]. simpl. f_equal.
      assert (segments a ++ segments b = segments parent ++ [segment]) as Happ.
      { rewrite <- Hsegs, Heq. unfold segments. by rewrite split_app. }
      assert (segments b = [b]) as Hsb by (unfold segments; by apply split_no_char).
      rewrite Hsb in Happ. apply app_inj_tail in Happ as [Ha _]. by apply (split_inj SEPARATOR).
    + exfalso. revert Hr. clear. induction parent as [|x p IH]; simpl.
      * destruct (rsplit_once SEPARATOR segment); done.
      * by destruct (rsplit_once SEPARATOR (p +:+ String SEPARATOR segment)).
  - apply is_ancestor_segments. split_and!; [done..|]. rewrite Hsegs. by apply prefix_app_r.
  - apply not_true_iff_false. rewrite is_ancestor_segments. intros (_ & _ & Hpre%prefix_length).
    rewrite Hsegs, length_app in Hpre. simpl in Hpre. lia.
  - unfold depth. rewrite !bool_decide_eq_false_2 by done. fold (segments parent).
    change (split SEPARATOR (parent +:+ String SEPARATOR segment)) with (segments (parent +:+ String SEPARATOR segment)).
    rewrite Hsegs, length_app. simpl. lia.
Qed.
