(* ===== verification/Policy.v ===== *)
(** * Context policies

    [vta-sdk/src/context_policy.rs] and [vta-support/src/contexts.rs]: what a
    context's policy constrains, and how the policies of a context and of the
    contexts above it combine. Proved: the effective policy of a context
    permits exactly what every policy on its path permits, so none written
    beneath can widen one above. *)

From S2P Require Import Prelude Text Contexts.

(** A [BTreeMap] from operation class to ceiling. *)
Abbreviation Quotas := (gmap string Z).

Record ContextPolicy := mk_policy {
  trusted_verifiers : option (gset string);
  presentable_types : option (gset string);
  signable_keys : option (gset string);
  export_allowed : bool;
  quotas : option Quotas;
}.

Definition unrestricted : ContextPolicy := mk_policy None None None true None.

Definition narrow_set (ancestor child : option (gset string)) : option (gset string) :=
  match ancestor, child with
  | None, None => None
  | Some s, None | None, Some s => Some s
  | Some a, Some c => Some (a ∩ c)
  end.

Definition narrow_quotas (ancestor child : option Quotas) : option Quotas :=
  match ancestor, child with
  | None, None => None
  | Some q, None | None, Some q => Some q
  | Some a, Some c =>
      Some (map_fold (λ op limit per_day,
              <[op := match per_day !! op with Some existing => Z.min existing limit | None => limit end]>
                per_day) a c)
  end.

Definition intersect (p child : ContextPolicy) : ContextPolicy :=
  mk_policy
    (narrow_set (trusted_verifiers p) (trusted_verifiers child))
    (narrow_set (presentable_types p) (presentable_types child))
    (narrow_set (signable_keys p) (signable_keys child))
    (export_allowed p && export_allowed child)
    (narrow_quotas (quotas p) (quotas child)).

Definition resolve_policy (chain : list ContextPolicy) : ContextPolicy := fold_left intersect chain unrestricted.

(** The gates. *)
Definition none_or (x : string) (s : option (gset string)) : bool :=
  match s with Some s => bool_decide (x ∈ s) | None => true end.
Definition allows_verifier (p : ContextPolicy) (did : string) : bool := none_or did (trusted_verifiers p).
Definition allows_presentable_type (p : ContextPolicy) (t : string) : bool := none_or t (presentable_types p).
Definition allows_signing_key (p : ContextPolicy) (k : string) : bool := none_or k (signable_keys p).
Definition quota_for (p : ContextPolicy) (op : string) : option Z := q ← quotas p; q !! op.

(** The loop that collects the path, leaf first. A parent is shorter, so the
    length of the path bounds the rounds. *)
Fixpoint path_up (fuel : nat) (id : string) : list string :=
  id :: match fuel with
        | O => []
        | S fuel => match parent_path id with Some parent => path_up fuel parent | None => [] end
        end.
Definition path_to_root (id : string) : list string := path_up (String.length id) id.

(** What is read of a context's record. *)
Record ContextRecord := mk_context { context_policy : option ContextPolicy }.

(** [effective_context_policy_and_record], reading by [get_context]. *)
Definition effective_context_policy_and_record {E} (get_context : string → result E (option ContextRecord))
  (context_id : string) : result E (ContextPolicy * option ContextRecord) :=
  records ← try_map get_context (reverse (path_to_root context_id));
  Ok (resolve_policy (omap (λ r, r ≫= context_policy) records), mjoin (last records)).
Definition effective_context_policy {E} (get_context : string → result E (option ContextRecord))
  (context_id : string) : result E ContextPolicy :=
  fst <$> effective_context_policy_and_record get_context context_id.

(** ** The path *)

Lemma parent_segments id parent :
  parent_path id = Some parent → ∃ w, segments id = segments parent ++ [w].
Proof.
  unfold parent_path. rewrite fmap_Some. intros ([a b] & Hr%rsplit_once_spec & ->).
  destruct Hr as [-> Hb]. exists b. unfold segments. simpl.
  by rewrite split_app, (split_no_char _ b).
Qed.

Lemma parent_none id : parent_path id = None → ∃ w, segments id = [w].
Proof.
  unfold parent_path. rewrite fmap_None. intros Hr. exists id. apply split_no_char.
  induction id as [|x id IH]; [done|]. cbn [rsplit_once has_char] in *.
  destruct (rsplit_once SEPARATOR id); [done|]. case_bool_decide; [done|]. by apply IH.
Qed.

Lemma prefix_snoc {A} (l k : list A) x : l `prefix_of` k ++ [x] ↔ l = k ++ [x] ∨ l `prefix_of` k.
Proof.
  split; [|intros [->|H]; [done|by apply prefix_app_r]].
  intros [r Hr]. destruct r as [|y r _] using rev_ind.
  - left. by rewrite app_nil_r in Hr.
  - right. rewrite app_assoc in Hr. apply app_inj_tail in Hr as [-> _]. by exists r.
Qed.

Lemma segments_nonempty id : segments id ≠ [].
Proof. unfold segments. by destruct (split_cons SEPARATOR id) as (? & ? & ->). Qed.

Lemma path_up_spec fuel id a :
  (String.length id ≤ fuel)%nat → a ∈ path_up fuel id ↔ segments a `prefix_of` segments id.
Proof.
  revert id. induction fuel as [|fuel IH]; intros id Hf.
  { destruct id; [|simpl in Hf; lia]. cbn [path_up]. rewrite list_elem_of_singleton. split; [by intros ->|].
    intros Hp. unfold segments in Hp at 2. cbn in Hp. apply (split_inj SEPARATOR). fold (segments a).
    pose proof (segments_nonempty a). destruct Hp as [r Hr]. destruct (segments a) as [|w ws]; [done|].
    cbn. injection Hr as <- Hr. symmetry in Hr. by apply app_eq_nil in Hr as [-> _]. }
  cbn [path_up]. destruct (parent_path id) as [parent|] eqn:Hp.
  - rewrite elem_of_cons. destruct (parent_segments _ _ Hp) as [w Hw].
    assert (String.length parent < String.length id)%nat as Hlen.
    { unfold parent_path in Hp. apply fmap_Some in Hp as ([x y] & [-> _]%rsplit_once_spec & ->).
      simpl. rewrite string_app_length. simpl. lia. }
    rewrite IH by lia. rewrite Hw, prefix_snoc, <- Hw. split; (intros [H|H]; [left|by right]); [by subst|].
    by apply (split_inj SEPARATOR).
  - rewrite list_elem_of_singleton. destruct (parent_none _ Hp) as [w Hw]. split; [by intros ->|].
    rewrite Hw. intros [r Hr]. apply (split_inj SEPARATOR). change (segments a = segments id). rewrite Hw.
    pose proof (segments_nonempty a). destruct (segments a) as [|v vs]; [done|].
    injection Hr as <- Hr. symmetry in Hr. by apply app_eq_nil in Hr as [-> _].
Qed.

(** ** Narrowing *)

Lemma none_or_narrow x a c : none_or x (narrow_set a c) = none_or x a && none_or x c.
Proof.
  destruct a as [a|], c as [c|]; simpl; rewrite ?andb_true_r; try done.
  apply eq_true_iff_eq. rewrite andb_true_iff, !bool_decide_eq_true. set_solver.
Qed.

(** The least of two ceilings. *)
Definition min_quota (a c : option Z) : option Z :=
  match a, c with Some a, Some c => Some (Z.min a c) | Some x, None | None, Some x => Some x | None, None => None end.

Lemma quota_fold (a c : Quotas) (op : string) :
  map_fold (λ op limit per_day,
    <[op := match per_day !! op with Some existing => Z.min existing limit | None => limit end]> per_day) a c !! op
  = min_quota (a !! op) (c !! op).
Proof.
  revert op. apply (map_fold_weak_ind (λ r (m : Quotas), ∀ op, r !! op = min_quota (a !! op) (m !! op))).
  - intros op. rewrite lookup_empty. by destruct (a !! op).
  - intros k x m r Hm Hr op. destruct (decide (k = op)) as [->|Hk].
    + rewrite !lookup_insert_eq, Hr, Hm. by destruct (a !! op).
    + by rewrite !lookup_insert_ne.
Qed.

Lemma quota_for_intersect p c op : quota_for (intersect p c) op = min_quota (quota_for p op) (quota_for c op).
Proof.
  unfold quota_for, intersect. simpl. destruct (quotas p) as [a|], (quotas c) as [b|]; simpl; try done.
  - apply quota_fold.
  - by destruct (a !! op).
  - by destruct (b !! op).
Qed.

(** [P] holds of the resolved policy when it holds of every policy. *)
Lemma resolve_and (g : ContextPolicy → bool) chain :
  g unrestricted = true → (∀ p c, g (intersect p c) = g p && g c) →
  g (resolve_policy chain) = forallb g chain.
Proof.
  intros Hu Hi. unfold resolve_policy. rewrite <- (andb_true_l (forallb g chain)), <- Hu.
  generalize unrestricted. induction chain as [|c chain IH]; intros p; simpl; [by rewrite andb_true_r|].
  by rewrite IH, Hi, andb_assoc.
Qed.

Lemma resolve_quota chain op limit :
  quota_for (resolve_policy chain) op = Some limit →
  ∀ p x, p ∈ chain → quota_for p op = Some x → limit ≤ x.
Proof.
  unfold resolve_policy. generalize unrestricted.
  assert (∀ chain p l, quota_for (fold_left intersect chain p) op = Some l → ∀ x, quota_for p op = Some x → l ≤ x)
    as Hle.
  { intros ch. induction ch as [|c ch IH]; intros p l Hl x Hx; simpl in Hl; [rewrite Hx in Hl; by injection Hl as <-|].
    pose proof (quota_for_intersect p c op) as Hi. rewrite Hx in Hi.
    destruct (quota_for c op) as [y|]; simpl in Hi.
    - pose proof (IH _ _ Hl _ Hi). lia.
    - by eapply IH. }
  induction chain as [|c chain IH]; intros p0 Hl p x Hin Hx; [by apply elem_of_nil in Hin|].
  apply elem_of_cons in Hin as [->|Hin]; [|by eapply IH].
  simpl in Hl. pose proof (quota_for_intersect p0 c op) as Hi. rewrite Hx in Hi.
  destruct (quota_for p0 op) as [y|]; simpl in Hi; pose proof (Hle _ _ _ Hl _ Hi); lia.
Qed.

Lemma resolve_quota_some chain op p x :
  p ∈ chain → quota_for p op = Some x → is_Some (quota_for (resolve_policy chain) op).
Proof.
  unfold resolve_policy. generalize unrestricted. intros p0 Hin Hx. revert p0.
  assert (∀ ch q, is_Some (quota_for q op) → is_Some (quota_for (fold_left intersect ch q) op)) as Hkeep.
  { intros ch. induction ch as [|c ch IH]; intros q Hq; [done|]. simpl. apply IH.
    rewrite quota_for_intersect. destruct Hq as [y ->]. destruct (quota_for c op); by eexists. }
  induction chain as [|c chain IH]; intros p0; [by apply elem_of_nil in Hin|]. simpl.
  apply elem_of_cons in Hin as [<-|Hin]; [|by apply IH]. apply Hkeep. rewrite quota_for_intersect, Hx.
  destruct (quota_for p0 op); by eexists.
Qed.

Lemma try_map_records {E A B} (f : A → result E B) l bs :
  try_map f l = Ok bs → ∀ b, b ∈ bs ↔ ∃ a, a ∈ l ∧ f a = Ok b.
Proof.
  revert bs. induction l as [|a l IH]; intros bs Hb.
  - injection Hb as <-. split; [by intros ?%elem_of_nil|]. by intros (? & ?%elem_of_nil & _).
  - cbn [try_map] in Hb. apply bind_ok in Hb as (b1 & H1 & (bs1 & H2 & [= <-])%bind_ok). intros b.
    rewrite elem_of_cons, (IH _ H2). split.
    + intros [->|(x & Hx & Hf)]; [exists a|exists x]; by rewrite elem_of_cons; auto.
    + intros (x & [->|Hx]%elem_of_cons & Hf); [left; congruence|right; by exists x].
Qed.

(** A policy of the context or of one above it. *)
Definition on_path {E} (get_context : string → result E (option ContextRecord)) (id : string)
  (q : ContextPolicy) : Prop :=
  ∃ a r, (a = id ∨ ∃ rest, id = a +:+ "/" +:+ rest)
    ∧ get_context a = Ok (Some r) ∧ context_policy r = Some q.

(** C35 (a policy beneath never widens one above): the effective policy of a
    context is decided by the policies of the context and of everything above
    it, and by nothing else: each gate is open exactly if all of theirs are,
    and each operation's ceiling is at most every ceiling of theirs, and
    present if one is. *)
Theorem policy_narrows {E} (get_context : string → result E (option ContextRecord)) id p :
  effective_context_policy get_context id = Ok p →
  (∀ did, allows_verifier p did = true ↔ ∀ q, on_path get_context id q → allows_verifier q did = true)
  ∧ (∀ t, allows_presentable_type p t = true ↔ ∀ q, on_path get_context id q → allows_presentable_type q t = true)
  ∧ (∀ k, allows_signing_key p k = true ↔ ∀ q, on_path get_context id q → allows_signing_key q k = true)
  ∧ (export_allowed p = true ↔ ∀ q, on_path get_context id q → export_allowed q = true)
  ∧ (∀ op q x, on_path get_context id q → quota_for q op = Some x → ∃ l, quota_for p op = Some l ∧ l ≤ x).
Proof.
  unfold effective_context_policy, effective_context_policy_and_record. intros Hp.
  destruct (try_map get_context _) as [records|] eqn:Hr; [|done]. injection Hp as <-. 
  set (chain := omap (λ r, r ≫= context_policy) records).
  assert (∀ q, q ∈ chain ↔ on_path get_context id q) as Hchain.
  { intros q. unfold chain, on_path. rewrite list_elem_of_omap. setoid_rewrite (try_map_records _ _ _ Hr).
    split.
    - intros (o & (a & Ha & Hg) & Hq). apply bind_Some in Hq as (r & -> & Hq). exists a, r.
      rewrite elem_of_reverse in Ha. unfold path_to_root in Ha. rewrite path_up_spec, segments_prefix in Ha by done.
      split; [|done]. destruct Ha as [->|Ha]; [by left|by right].
    - intros (a & r & Ha & Hg & Hq). exists (Some r). split; [|done]. exists a. split; [|done].
      rewrite elem_of_reverse. unfold path_to_root. rewrite path_up_spec, segments_prefix by done.
      destruct Ha as [->|Ha]; [by left|by right]. }
  assert (∀ g, g unrestricted = true → (∀ p c, g (intersect p c) = g p && g c) →
    g (resolve_policy chain) = true ↔ ∀ q, on_path get_context id q → g q = true) as Hgate.
  { intros g Hu Hi. rewrite resolve_and, forallb_true by done. setoid_rewrite <- Hchain. done. }
  split_and!.
  - intros did. apply (Hgate (λ p, allows_verifier p did)); [done|]. intros. apply none_or_narrow.
  - intros t. apply (Hgate (λ p, allows_presentable_type p t)); [done|]. intros. apply none_or_narrow.
  - intros k. apply (Hgate (λ p, allows_signing_key p k)); [done|]. intros. apply none_or_narrow.
  - by apply (Hgate export_allowed).
  - intros op q x Hq%Hchain Hx. destruct (resolve_quota_some chain op q x Hq Hx) as [l Hl].
    exists l. split; [done|]. by eapply resolve_quota.
Qed.

(** A context that trusts two verifiers over one that trusts one of them and
    another. *)
Definition scene_context (id : string) : result unit (option ContextRecord) :=
  if String.eqb id "acme" then
    Ok (Some (mk_context (Some (mk_policy (Some {["v1"; "v2"]}) None None true (Some {["sign" := 5]})))))
  else if String.eqb id "acme/lab" then
    Ok (Some (mk_context (Some (mk_policy (Some {["v2"; "v3"]}) None None false (Some {["sign" := 9]})))))
  else Ok None.
Definition scene_policy : ContextPolicy :=
  unwrap_or (effective_context_policy scene_context "acme/lab/bench") unrestricted.

Example scene_narrowed :
  (λ d, allows_verifier scene_policy d) <$> ["v1"; "v2"; "v3"] = [false; true; false]
  ∧ export_allowed scene_policy = false ∧ quota_for scene_policy "sign" = Some 5.
Proof. vm_compute. done. Qed.

Lemma policy_narrows_witness :
  (∀ did, allows_verifier scene_policy did = true
    ↔ ∀ q, on_path scene_context "acme/lab/bench" q → allows_verifier q did = true)
  ∧ (∀ t, allows_presentable_type scene_policy t = true
    ↔ ∀ q, on_path scene_context "acme/lab/bench" q → allows_presentable_type q t = true)
  ∧ (∀ k, allows_signing_key scene_policy k = true
    ↔ ∀ q, on_path scene_context "acme/lab/bench" q → allows_signing_key q k = true)
  ∧ (export_allowed scene_policy = true ↔ ∀ q, on_path scene_context "acme/lab/bench" q → export_allowed q = true)
  ∧ (∀ op q x, on_path scene_context "acme/lab/bench" q → quota_for q op = Some x →
      ∃ l, quota_for scene_policy op = Some l ∧ l ≤ x).
Proof. apply (policy_narrows scene_context "acme/lab/bench"). reflexivity. Defined.
