(* ===== verification/DidScid.v ===== *)
(** * The two forms of a durable identity

    [vta-sdk/src/did_scid.rs]: a [did:webvh] log presented as a
    [did:scid:vh:1] identity, whose [src] is a locator and no part of the
    identity. String rules, which every proof's signer and every comparison of
    references goes through. *)

From S2P Require Import Prelude Text.

Definition SCID_VH_PREFIX : string := "did:scid:vh:1:".
Definition WEBVH_PREFIX : string := "did:webvh:".

Definition is_scid (did : string) : bool := starts_with "did:scid:" did.
Definition is_durable (did : string) : bool :=
  starts_with WEBVH_PREFIX did || starts_with SCID_VH_PREFIX did.
Definition is_network_resolved (did : string) : bool := starts_with "did:web:" did || is_durable did.

(** The DID, the locator and the fragment, [#] included. *)
Definition split_src (did_url : string) : option (string * string * string) :=
  if negb (is_scid did_url) then None
  else
    '(did, rest) ← split_once "?" did_url;
    let '(query, fragment) :=
      match split_once "#" rest with
      | Some (q, f) => (q, String "#" f)
      | None => (rest, "")
      end in
    src ← strip_prefix "src=" query;
    if bool_decide (src = "") || has_char "&" src then None else Some (did, src, fragment).

Definition strip_src (did_url : string) : string :=
  match split_src did_url with
  | Some (did, _, fragment) => if bool_decide (fragment = "") then did else did +:+ fragment
  | None => did_url
  end.

Definition src (did_url : string) : option string := (λ x, x.1.2) <$> split_src did_url.

Definition identity (reference : string) : string := strip_src (before "#" reference).

Definition same_reference (a b : string) : bool :=
  bool_decide (a = b) || bool_decide (strip_src a = strip_src b).

Definition scid_forms (webvh_did : string) : option (string * string) :=
  rest ← strip_prefix WEBVH_PREFIX webvh_did;
  let rest := before "#" rest in
  '(scid, tail) ← split_once ":" rest;
  if bool_decide (scid = "") || bool_decide (tail = "") then None
  else
    let bare := SCID_VH_PREFIX +:+ scid in
    Some (bare, bare +:+ "?src=" +:+ replace_char ":" "/" tail).

(** [str::parse::<u16>]: digits, after a [+] perhaps, at most 65535. *)
Definition digit (c : char) : option Z :=
  let z := Z.of_nat (nat_of_ascii c) - 48 in if (0 <=? z) && (z <=? 9) then Some z else None.
Fixpoint u16_digits (acc : Z) (s : string) : option Z :=
  match s with
  | EmptyString => Some acc
  | String c s =>
      d ← digit c;
      let acc := acc * 10 + d in
      if acc <=? 65535 then u16_digits acc s else None
  end.
Definition parse_u16 (s : string) : option Z :=
  let s := match s with String "+" (String _ _ as s) => s | _ => s end in
  match s with EmptyString => None | _ => u16_digits 0 s end.

Definition webvh_did (did_url : string) : option string :=
  let did_url := before "#" did_url in
  scid ← before "?" <$> strip_prefix SCID_VH_PREFIX did_url;
  if bool_decide (scid = "") || has_char ":" scid then None
  else
    source ← src did_url;
    let source :=
      match strip_prefix "https://" source with
      | Some s => s
      | None => default source (strip_prefix "http://" source)
      end in
    let source := trim_end "/" source in
    let '(host, path) :=
      match split_once "/" source with
      | Some (h, p) => (h, Some p)
      | None => (source, None)
      end in
    host ← match split_once ":" host with
           | Some (h, port) =>
               if bool_decide (h ≠ "") && bool_decide (is_Some (parse_u16 port))
               then Some (h +:+ "%3A" +:+ port) else None
           | None => Some host
           end;
    if bool_decide (host = "") then None
    else
      let out := WEBVH_PREFIX +:+ scid +:+ ":" +:+ host in
      match path with
      | None | Some EmptyString => Some out
      | Some p =>
          if existsb (λ w, bool_decide (w = "")) (split "/" p) then None
          else Some (out +:+ ":" +:+ replace_char "/" ":" p)
      end.

Definition scid_of (did : string) : option string :=
  let did := before "#" did in
  match strip_prefix SCID_VH_PREFIX did with
  | Some rest => let scid := before "?" rest in if bool_decide (scid = "") then None else Some scid
  | None =>
      rest ← strip_prefix WEBVH_PREFIX did;
      '(scid, _) ← split_once ":" rest;
      if bool_decide (scid = "") then None else Some scid
  end.

Definition presented_reference (id reference : string) : option string :=
  let id := strip_src id in
  scid ← strip_prefix SCID_VH_PREFIX id;
  if bool_decide (scid = "") || has_char "?" scid || has_char "#" scid || has_char ":" scid then None
  else
    '(did, fragment) ← split_once "#" reference;
    if negb (starts_with WEBVH_PREFIX did) || bool_decide (scid_of did ≠ Some scid) then None
    else Some (id +:+ "#" +:+ fragment).

(** ** Two forms, one log *)

(** A [did:webvh] with a SCID and a host path of nonempty segments, no
    character that a DID URL gives another meaning. *)
Record webvh_parts (scid tail : string) : Prop := {
  wp_scid : scid ≠ "";
  wp_scid_chars : has_char "#" scid = false ∧ has_char "?" scid = false ∧ has_char ":" scid = false;
  wp_tail : Forall (λ w, w ≠ "") (split ":" tail);
  wp_tail_chars : has_char "#" tail = false ∧ has_char "/" tail = false ∧ has_char "&" tail = false;
}.
Definition webvh_of (scid tail : string) : string := WEBVH_PREFIX +:+ scid +:+ ":" +:+ tail.
Definition bare_of (scid : string) : string := SCID_VH_PREFIX +:+ scid.
Definition url_of (scid tail : string) : string :=
  bare_of scid +:+ "?src=" +:+ replace_char ":" "/" tail.

Section Parts.
Context (scid tail : string) (Hp : webvh_parts scid tail).

Lemma tail_nonempty : tail ≠ "".
Proof. intros ->. pose proof (wp_tail _ _ Hp) as Hf. by apply Forall_cons in Hf as [? _]. Qed.

Lemma split_once_at c a b : has_char c a = false → split_once c (a +:+ String c b) = Some (a, b).
Proof. intros Ha. by apply split_once_spec. Qed.

Lemma scid_forms_of : scid_forms (webvh_of scid tail) = Some (bare_of scid, url_of scid tail).
Proof.
  destruct Hp as [Hs (S1 & S2 & S3) Ht (T1 & T2 & T3)].
  unfold scid_forms, webvh_of. rewrite strip_prefix_app. cbn [mbind option_bind].
  rewrite before_no_char by (rewrite !has_char_app, S1, T1; done).
  change (scid +:+ ":" +:+ tail) with (scid +:+ String ":" tail). rewrite split_once_at by done.
  cbn [mbind option_bind]. rewrite !bool_decide_eq_false_2; [done|apply tail_nonempty|done].
Qed.

Lemma located_no_hash : has_char "#" (replace_char ":" "/" tail) = false.
Proof. destruct Hp as [_ _ _ (T1 & _)]. by apply has_replaced. Qed.

Lemma bare_chars : has_char "#" (bare_of scid) = false ∧ has_char "?" (bare_of scid) = false.
Proof. destruct Hp as [_ (S1 & S2 & _) _ _]. unfold bare_of. by rewrite !has_char_app, S1, S2. Qed.

(** The locator read off, with a fragment or without. *)
Lemma split_src_url : split_src (url_of scid tail) = Some (bare_of scid, replace_char ":" "/" tail, "").
Proof.
  destruct bare_chars as [_ Hq]. pose proof located_no_hash as Hh.
  destruct Hp as [_ _ _ (_ & _ & T3)].
  unfold split_src, is_scid, url_of. rewrite (proj2 (starts_with_spec _ _)) by (by eexists).
  cbn [negb].
  change (bare_of scid +:+ "?src=" +:+ replace_char ":" "/" tail)
    with (bare_of scid +:+ String "?" ("src=" +:+ replace_char ":" "/" tail)).
  rewrite split_once_at by done. cbn [mbind option_bind].
  rewrite (proj2 (split_once_none _ _)) by (by rewrite has_char_app, Hh).
  rewrite strip_prefix_app. cbn [mbind option_bind].
  rewrite (has_replaced ":" "/" "&") by done. rewrite bool_decide_eq_false_2; [done|].
  pose proof tail_nonempty. by destruct tail.
Qed.

Lemma split_src_fragment f :
  split_src (url_of scid tail +:+ "#" +:+ f)
  = Some (bare_of scid, replace_char ":" "/" tail, "#" +:+ f).
Proof.
  destruct bare_chars as [_ Hq]. pose proof located_no_hash as Hh.
  destruct Hp as [_ _ _ (_ & _ & T3)].
  unfold split_src, is_scid, url_of. rewrite (proj2 (starts_with_spec _ _)) by (by eexists).
  cbn [negb]. rewrite <- !string_app_assoc.
  change (bare_of scid +:+ "?src=" +:+ (replace_char ":" "/" tail +:+ "#" +:+ f))
    with (bare_of scid +:+ String "?" ("src=" +:+ (replace_char ":" "/" tail +:+ String "#" f))).
  rewrite split_once_at by done. cbn [mbind option_bind].
  rewrite string_app_assoc, split_once_at by (by rewrite has_char_app, Hh).
  rewrite strip_prefix_app. cbn [mbind option_bind].
  rewrite (has_replaced ":" "/" "&") by done. rewrite bool_decide_eq_false_2; [done|].
  pose proof tail_nonempty. by destruct tail.
Qed.

Lemma identity_url f : identity (url_of scid tail +:+ "#" +:+ f) = bare_of scid.
Proof.
  destruct bare_chars as [Hb _]. pose proof located_no_hash as Hh.
  unfold identity. change ("#" +:+ f) with (String "#" f).
  rewrite before_app by (unfold url_of; by rewrite !has_char_app, Hb, Hh).
  unfold strip_src. by rewrite split_src_url.
Qed.

(** The source's first segment is the host, and the rest its path. *)
Lemma webvh_did_of : webvh_did (url_of scid tail) = Some (webvh_of scid tail).
Proof.
  destruct bare_chars as [Hb _]. pose proof located_no_hash as Hh. pose proof split_src_url as Hsrc.
  destruct Hp as [Hs (S1 & S2 & S3) Ht (_ & T2 & _)]. set (source := replace_char ":" "/" tail) in *.
  assert (has_char ":" source = false) as Hcolon by by apply no_char_replaced.
  assert (∀ p, has_char ":" p = true → strip_prefix p source = None) as Hnone.
  { intros p Hc. destruct (strip_prefix p source) as [r|] eqn:Hr; [|done].
    apply strip_prefix_spec in Hr. rewrite Hr, has_char_app, Hc in Hcolon. done. }
  assert (split "/" source = split ":" tail) as Hsplit by by apply split_replaced.
  assert (url_of scid tail = bare_of scid +:+ "?src=" +:+ source) as Hurl by done.
  unfold webvh_did.
  rewrite before_no_char by (by rewrite Hurl, !has_char_app, Hb, Hh).
  rewrite Hurl at 1. unfold bare_of at 1. rewrite <- string_app_assoc, strip_prefix_app. cbn [fmap option_fmap option_map].
  change (scid +:+ "?src=" +:+ source) with (scid +:+ String "?" ("src=" +:+ source)).
  rewrite before_app by done. cbn [mbind option_bind].
  rewrite bool_decide_eq_false_2, S3 by done. cbn [orb].
  unfold src. rewrite Hsrc. cbn [fmap option_fmap option_map mbind option_bind fst snd].
  rewrite (Hnone "https://"), (Hnone "http://") by done. cbn [default from_option id].
  rewrite trim_end_id by (rewrite Hsplit; by apply nonempty_last).
  assert (source ≠ "") as Hne by (pose proof tail_nonempty; by destruct tail).
  pose proof (split_once_split "/" source) as Hcut. rewrite Hsplit in Hcut.
  assert (replace_char "/" ":" source = tail) as Hback by by apply replace_char_back.
  destruct (split_once "/" source) as [[h p]|] eqn:Hso.
  - apply split_once_spec in Hso as [Heq Hh']. rewrite Heq in Hcolon, Hback.
    rewrite has_char_app in Hcolon. apply orb_false_iff in Hcolon as [Hhc Hpc].
    rewrite (proj2 (split_once_none ":" h)) by done. cbn [mbind option_bind].
    rewrite Hcut in Ht. apply Forall_cons in Ht as [Hhne Hrest].
    rewrite bool_decide_eq_false_2 by done.
    rewrite replace_char_app, (replace_char_id _ _ h) in Hback by done.
    destruct p as [|x p]; [by apply Forall_cons in Hrest as [? _]|].
    rewrite (proj2 (existsb_false _ _)).
    + unfold webvh_of. rewrite <- Hback. simpl replace_char at 1. f_equal.
      rewrite <- !string_app_assoc. done.
    + intros w Hw. apply bool_decide_eq_false. by rewrite Forall_forall in Hrest; apply Hrest.
  - rewrite (proj2 (split_once_none ":" source)) by done. cbn [mbind option_bind].
    rewrite bool_decide_eq_false_2 by done. unfold webvh_of.
    rewrite replace_char_id in Hback by by apply split_once_none. by rewrite Hback.
Qed.

Lemma scid_of_forms :
  scid_of (webvh_of scid tail) = Some scid ∧ scid_of (bare_of scid) = Some scid
  ∧ scid_of (url_of scid tail) = Some scid.
Proof.
  destruct bare_chars as [Hb _]. pose proof located_no_hash as Hh.
  destruct Hp as [Hs (S1 & S2 & S3) Ht (T1 & T2 & T3)]. unfold scid_of. split_and!.
  - rewrite before_no_char by (unfold webvh_of; by rewrite !has_char_app, S1, T1).
    replace (strip_prefix SCID_VH_PREFIX (webvh_of scid tail)) with (@None string) by done.
    unfold webvh_of. rewrite strip_prefix_app. cbn [mbind option_bind].
    change (scid +:+ ":" +:+ tail) with (scid +:+ String ":" tail). rewrite split_once_at by done.
    cbn [mbind option_bind]. by rewrite bool_decide_eq_false_2.
  - rewrite before_no_char by done. unfold bare_of. rewrite strip_prefix_app.
    rewrite before_no_char by done. by rewrite bool_decide_eq_false_2.
  - rewrite before_no_char by (unfold url_of; by rewrite !has_char_app, Hb, Hh).
    unfold url_of, bare_of. rewrite <- string_app_assoc, strip_prefix_app.
    change (scid +:+ "?src=" +:+ replace_char ":" "/" tail)
      with (scid +:+ String "?" ("src=" +:+ replace_char ":" "/" tail)).
    rewrite before_app by done. by rewrite bool_decide_eq_false_2.
Qed.

(** The two forms of one log, back and forth: of a [did:webvh] log's DID,
    [scid_forms] gives the bare [did:scid] identity and the URL that locates
    its log; [webvh_did] reads the log's DID back from the URL; whatever the
    locator and the fragment, the identity is the bare DID; all three carry
    the SCID; and a key of the log's document is named under the identity by
    the same fragment, which the URL's reference is the same as. *)
Theorem scid_forms_roundtrip f :
  scid_forms (webvh_of scid tail) = Some (bare_of scid, url_of scid tail)
  ∧ webvh_did (url_of scid tail) = Some (webvh_of scid tail)
  ∧ identity (url_of scid tail +:+ "#" +:+ f) = bare_of scid
  ∧ scid_of (webvh_of scid tail) = Some scid
  ∧ scid_of (bare_of scid) = Some scid
  ∧ scid_of (url_of scid tail) = Some scid
  ∧ presented_reference (url_of scid tail) (webvh_of scid tail +:+ "#" +:+ f)
    = Some (bare_of scid +:+ "#" +:+ f)
  ∧ strip_src (url_of scid tail +:+ "#" +:+ f) = bare_of scid +:+ "#" +:+ f.
Proof.
  destruct scid_of_forms as (H1 & H2 & H3).
  split; [by apply scid_forms_of|]. split; [apply webvh_did_of|]. split; [apply identity_url|].
  split; [done|]. split; [done|]. split; [done|]. split.
  - unfold presented_reference, strip_src. rewrite split_src_url. rewrite bool_decide_eq_true_2 by done.
    unfold bare_of at 1. rewrite strip_prefix_app. cbn [mbind option_bind].
    destruct Hp as [Hs (S1 & S2 & S3) _ (T1 & _)].
    rewrite bool_decide_eq_false_2, S1, S2, S3 by done. cbn [orb].
    change ("#" +:+ f) with (String "#" f).
    rewrite split_once_at by (unfold webvh_of; by rewrite !has_char_app, S1, T1).
    cbn [mbind option_bind]. rewrite (proj2 (starts_with_spec _ _)) by (by eexists).
    by rewrite H1, bool_decide_eq_false_2 by (by intros []).
  - unfold strip_src. by rewrite split_src_fragment.
Qed.
End Parts.

Lemma scid_forms_roundtrip_witness :
  scid_forms "did:webvh:Qm7:example.org%3A8443:box" = Some ("did:scid:vh:1:Qm7", "did:scid:vh:1:Qm7?src=example.org%3A8443/box")
  ∧ webvh_did "did:scid:vh:1:Qm7?src=example.org%3A8443/box" = Some "did:webvh:Qm7:example.org%3A8443:box".
Proof.
  destruct (scid_forms_roundtrip "Qm7" "example.org%3A8443:box") with (f := "key-0") as (H1 & H2 & _).
  - split; [discriminate|by repeat split|by repeat constructor|by repeat split].
  - split; [exact H1|exact H2].
Defined.

(** ** Comparing references *)

#[export] Instance same_reference_equivalence : Equivalence (λ a b, same_reference a b = true).
Proof.
  assert (∀ a b, same_reference a b = true ↔ strip_src a = strip_src b) as Heq.
  { intros a b. unfold same_reference. rewrite orb_true_iff, !bool_decide_eq_true.
    split; [by intros [->|]|by right]. }
  split.
  - intros a. by rewrite Heq.
  - intros a b. by rewrite !Heq.
  - intros a b c. rewrite !Heq. congruence.
Qed.

(** The identity of an identity is itself. *)
Lemma identity_no_query a : has_char "#" (identity a) = false ∧ identity (identity a) = identity a.
Proof.
  assert (∀ d, has_char "#" d = false →
    has_char "#" (strip_src d) = false ∧ (strip_src d = d ∨ has_char "?" (strip_src d) = false)) as Hs.
  { intros d Hd. unfold strip_src, split_src. destruct (is_scid d); cbn [negb]; [|by split; [|left]].
    destruct (split_once "?" d) as [[a' b]|] eqn:Hq; cbn [mbind option_bind]; [|by split; [|left]].
    apply split_once_spec in Hq as [-> Hq]. rewrite has_char_app in Hd. apply orb_false_iff in Hd as [Ha Hb].
    simpl in Hb. rewrite (proj2 (split_once_none "#" b)) by done.
    assert (has_char "#" (a' +:+ String "?" b) = false) as Hab by (rewrite has_char_app, Ha; done).
    destruct (strip_prefix "src=" b) as [s|]; cbn [mbind option_bind]; [|by split; [|left]].
    destruct (bool_decide (s = "") || has_char "&" s); [by split; [|left]|].
    rewrite bool_decide_eq_true_2 by done. split; [done|by right]. }
  unfold identity at 1 3 4. destruct (Hs _ (before_has "#" a)) as [Hn Hor]. split; [done|].
  unfold identity. rewrite (before_no_char "#") by done. destruct Hor as [Heq|Hq]; [by rewrite !Heq|].
  unfold strip_src at 1, split_src. rewrite (proj2 (split_once_none "?" _)) by done.
  by destruct (is_scid _).
Qed.
