(* ===== verification/Board.v ===== *)
(** * The board: an append-only Merkle tree log

    [vti-voting/src/board.rs]: leaf and node hashing, the tree head ([root]),
    inclusion and consistency proofs and their verifiers (RFC 9162 2.1).
    Proved: every generated proof verifies, and a proof that verifies against
    an honest root is the honest one, or yields an explicit SHA-256
    collision. *)

From S2P Require Import Prelude.
Local Open Scope nat_scope.

Section Board.
Context `{Sha256}.

(** ** Hashing *)

Definition leaf_hash (entry : bytes) : Hash := sha256 (x00 :: entry).

Definition node_input (left right : Hash) : bytes :=
  x01 :: vec_to_list left ++ vec_to_list right.
Definition node_hash (left right : Hash) : Hash := sha256 (node_input left right).

Definition empty_root : Hash := sha256 [].

(** The largest power of two strictly less than [n] ([n > 1]):
    [1 << (BITS - 1 - (n - 1).leading_zeros())], that is [2 ^ ilog2(n - 1)]. *)
Definition split (n : nat) : nat := 2 ^ Nat.log2 (n - 1).

(** [MTH(D[n])]. The recursion halves the slice, so its length is fuel enough
    ([mth_unfold]). *)
Fixpoint mth_fuel (fuel : nat) (leaves : list Hash) : Hash :=
  match fuel, leaves with
  | _, [] => empty_root
  | _, [l] => l
  | O, l :: _ => l
  | S f, _ =>
      let k := split (length leaves) in
      node_hash (mth_fuel f (take k leaves)) (mth_fuel f (drop k leaves))
  end.
Definition mth (leaves : list Hash) : Hash := mth_fuel (length leaves) leaves.

(** [PATH(m, D[n])], leaf-first, pushed onto [out]. *)
Fixpoint audit_path_fuel (fuel m : nat) (leaves : list Hash) (out : list Hash) : list Hash :=
  match fuel with
  | O => out
  | S f =>
      let n := length leaves in
      if n <=? 1 then out
      else
        let k := split n in
        if m <? k
        then audit_path_fuel f m (take k leaves) out ++ [mth (drop k leaves)]
        else audit_path_fuel f (m - k) (drop k leaves) out ++ [mth (take k leaves)]
  end.
Definition audit_path (m : nat) (leaves : list Hash) (out : list Hash) : list Hash :=
  audit_path_fuel (length leaves) m leaves out.

(** [SUBPROOF(m, D[n], b)], pushed onto [out]. *)
Fixpoint subproof_fuel (fuel m : nat) (leaves : list Hash) (b : bool) (out : list Hash)
  : list Hash :=
  match fuel with
  | O => out
  | S f =>
      let n := length leaves in
      if m =? n then (if b then out else out ++ [mth leaves])
      else
        let k := split n in
        if m <=? k
        then subproof_fuel f m (take k leaves) b out ++ [mth (drop k leaves)]
        else subproof_fuel f (m - k) (drop k leaves) false out ++ [mth (take k leaves)]
  end.
Definition subproof (m : nat) (leaves : list Hash) (b : bool) (out : list Hash) : list Hash :=
  subproof_fuel (length leaves) m leaves b out.

(** ** The log *)

Record Board := mk_board { board_leaves : list Hash }.

Inductive BoardError :=
| SizeOutOfRange (size len : nat)
| LeafOutOfRange (index size : nat)
| BadSizes (first second : nat).

Definition board_new : Board := mk_board [].
Definition from_leaves (l : list Hash) : Board := mk_board l.
Definition board_len (b : Board) : nat := length (board_leaves b).
Definition board_is_empty (b : Board) : bool := match board_leaves b with [] => true | _ => false end.

(** Append an entry; returns its index. *)
Definition board_append (b : Board) (entry : bytes) : nat * Board :=
  let b' := mk_board (board_leaves b ++ [leaf_hash entry]) in
  (length (board_leaves b') - 1, b').

Definition board_leaf (b : Board) (index : nat) : option Hash := board_leaves b !! index.

Definition check_size (b : Board) (size : nat) : result BoardError unit :=
  if length (board_leaves b) <? size then Err (SizeOutOfRange size (length (board_leaves b))) else Ok ().

(** [MTH] of the first [size] leaves: the root a head of that size signs. *)
Definition board_root (b : Board) (size : nat) : result BoardError Hash :=
  _ ← check_size b size;
  Ok (mth (take size (board_leaves b))).

Definition inclusion_proof (b : Board) (index size : nat) : result BoardError (list Hash) :=
  _ ← check_size b size;
  if size <=? index then Err (LeafOutOfRange index size)
  else Ok (audit_path index (take size (board_leaves b)) []).

Definition consistency_proof (b : Board) (first second : nat) : result BoardError (list Hash) :=
  _ ← check_size b second;
  if (first =? 0) || (second <? first) then Err (BadSizes first second)
  else Ok (subproof first (take second (board_leaves b)) true []).

(** ** Verification *)

(** [while fnn & 1 == 0 && fnn != 0 { fnn >>= 1; sn >>= 1 }]: each turn halves
    [fnn], so [fnn] turns are enough ([shift_even_odd]). *)
Fixpoint shift_even_fuel (fuel fnn sn : nat) : nat * nat :=
  match fuel with
  | O => (fnn, sn)
  | S f =>
      if Nat.even fnn && negb (fnn =? 0)
      then shift_even_fuel f (Nat.div2 fnn) (Nat.div2 sn)
      else (fnn, sn)
  end.
Definition shift_even (fnn sn : nat) : nat * nat := shift_even_fuel fnn fnn sn.

(** The loop of [verify_inclusion] from the state [(fnn, sn, r)]; [None] is
    its [return false]. *)
Fixpoint inclusion_loop (fnn sn : nat) (r : Hash) (path : list Hash) : option (nat * Hash) :=
  match path with
  | [] => Some (sn, r)
  | p :: path' =>
      if sn =? 0 then None
      else if Nat.odd fnn || (fnn =? sn) then
        let '(fnn', sn') := if Nat.even fnn then shift_even fnn sn else (fnn, sn) in
        inclusion_loop (Nat.div2 fnn') (Nat.div2 sn') (node_hash p r) path'
      else inclusion_loop (Nat.div2 fnn) (Nat.div2 sn) (node_hash r p) path'
  end.

(** RFC 9162 2.1.3.2: does [path] prove [leaf] at [index] in a tree of [size]
    with [root]? *)
Definition verify_inclusion (index size : nat) (leaf : Hash) (path : list Hash) (root : Hash)
  : bool :=
  if size <=? index then false
  else
    match inclusion_loop index (size - 1) leaf path with
    | None => false
    | Some (sn, r) => (sn =? 0) && bool_decide (r = root)
    end.

(** [usize::is_power_of_two]. *)
Definition is_power_of_two (n : nat) : bool := (0 <? n) && (n =? 2 ^ Nat.log2 n).

(** [while fnn & 1 == 1 { fnn >>= 1; sn >>= 1 }]. *)
Fixpoint shift_odd_fuel (fuel fnn sn : nat) : nat * nat :=
  match fuel with
  | O => (fnn, sn)
  | S f =>
      if Nat.odd fnn then shift_odd_fuel f (Nat.div2 fnn) (Nat.div2 sn) else (fnn, sn)
  end.
Definition shift_odd (fnn sn : nat) : nat * nat := shift_odd_fuel fnn fnn sn.

(** The loop of [verify_consistency] from the state [(fnn, sn, fr, sr)]. *)
Fixpoint consistency_loop (fnn sn : nat) (fr sr : Hash) (path : list Hash)
  : option (nat * Hash * Hash) :=
  match path with
  | [] => Some (sn, fr, sr)
  | c :: path' =>
      if sn =? 0 then None
      else if Nat.odd fnn || (fnn =? sn) then
        let '(fnn', sn') := if Nat.even fnn then shift_even fnn sn else (fnn, sn) in
        consistency_loop (Nat.div2 fnn') (Nat.div2 sn') (node_hash c fr) (node_hash c sr) path'
      else consistency_loop (Nat.div2 fnn) (Nat.div2 sn) fr (node_hash sr c) path'
  end.

(** RFC 9162 2.1.4.2: does [path] prove the tree of [second] with
    [second_root] extends the tree of [first] with [first_root]? *)
Definition verify_consistency (first second : nat) (first_root second_root : Hash)
    (path : list Hash) : bool :=
  if (first =? 0) || (second <? first) then false
  else if first =? second then
    match path with [] => bool_decide (first_root = second_root) | _ => false end
  else
    let path := if is_power_of_two first then first_root :: path else path in
    match path with
    | [] => false
    | head :: rest =>
        let '(fnn, sn) := shift_odd (first - 1) (second - 1) in
        match consistency_loop fnn sn head head rest with
        | None => false
        | Some (sn, fr, sr) =>
            (sn =? 0) && bool_decide (fr = first_root) && bool_decide (sr = second_root)
        end
    end.

(** ** The shape of the tree *)

Lemma split_spec n : 1 < n → ∃ g, split n = 2 ^ g ∧ 2 ^ g < n ≤ 2 * 2 ^ g.
Proof.
  intros Hn. exists (Nat.log2 (n - 1)). split; [done|].
  pose proof (Nat.log2_spec (n - 1)) as Hs. rewrite Nat.pow_succ_r' in Hs. lia.
Qed.

Lemma split_pow2 h : split (2 ^ S h) = 2 ^ h.
Proof.
  destruct (split_spec (2 ^ S h)) as (g & -> & Hg).
  { rewrite Nat.pow_succ_r'. pose proof (Nat.pow_nonzero 2 h). lia. }
  rewrite Nat.pow_succ_r' in Hg. f_equal.
  destruct (Nat.lt_trichotomy g h) as [Hlt|[->|Hgt]]; [|done|].
  - pose proof (Nat.pow_le_mono_r 2 (S g) h ltac:(lia) ltac:(lia)) as Hp.
    rewrite Nat.pow_succ_r' in Hp. lia.
  - pose proof (Nat.pow_le_mono_r 2 (S h) g ltac:(lia) ltac:(lia)) as Hp.
    rewrite Nat.pow_succ_r' in Hp. lia.
Qed.

Lemma split_pos n : 0 < split n.
Proof. unfold split. pose proof (Nat.pow_nonzero 2 (Nat.log2 (n - 1))). lia. Qed.

Lemma split_bounds n : 1 < n → 0 < split n < n.
Proof.
  intros (g & -> & Hg)%split_spec. pose proof (Nat.pow_nonzero 2 g). lia.
Qed.

(** The two halves of a slice, each shorter than the whole. *)
Lemma halves_length (l : list Hash) :
  1 < length l →
  length (take (split (length l)) l) = split (length l)
  ∧ length (drop (split (length l)) l) = length l - split (length l)
  ∧ 0 < split (length l) < length l.
Proof.
  intros Hl. pose proof (split_bounds _ Hl).
  rewrite length_take, length_drop. lia.
Qed.

Lemma mth_fuel_S f l :
  1 < length l →
  mth_fuel (S f) l = node_hash (mth_fuel f (take (split (length l)) l))
                               (mth_fuel f (drop (split (length l)) l)).
Proof. destruct l as [|x [|y l]]; simpl length; [lia..|done]. Qed.

Lemma mth_fuel_irrel f1 f2 l :
  length l ≤ f1 → length l ≤ f2 → mth_fuel f1 l = mth_fuel f2 l.
Proof.
  revert f2 l. induction f1 as [|f1 IH]; intros f2 l H1 H2.
  { destruct l; [by destruct f2|simpl in *; lia]. }
  destruct f2 as [|f2]; [destruct l; [done|simpl in *; lia]|].
  destruct (decide (1 < length l)) as [Hl|Hl].
  - pose proof (halves_length l Hl) as (Ht & Hd & Hb).
    rewrite !mth_fuel_S by done. f_equal; apply IH; lia.
  - destruct l as [|x [|y l]]; [done..|simpl in Hl; lia].
Qed.

Lemma mth_unfold l :
  1 < length l →
  mth l = node_hash (mth (take (split (length l)) l)) (mth (drop (split (length l)) l)).
Proof.
  intros Hl. pose proof (halves_length l Hl) as (Ht & Hd & Hb).
  unfold mth at 1. rewrite (mth_fuel_irrel _ (S (length l))), mth_fuel_S by lia.
  unfold mth. f_equal; apply mth_fuel_irrel; lia.
Qed.

Lemma audit_path_fuel_irrel f1 f2 m l out :
  length l ≤ f1 → length l ≤ f2 →
  audit_path_fuel f1 m l out = out ++ audit_path_fuel f2 m l [].
Proof.
  revert f2 m l. induction f1 as [|f1 IH]; intros f2 m l H1 H2.
  { destruct l; [|simpl in *; lia]. destruct f2; simpl; by rewrite app_nil_r. }
  destruct f2 as [|f2].
  { destruct l; [|simpl in *; lia]. simpl. by rewrite app_nil_r. }
  simpl. destruct (length l <=? 1) eqn:El; [by rewrite app_nil_r|].
  apply Nat.leb_gt in El. pose proof (halves_length l El) as (Ht & Hd & Hb).
  destruct (m <? split (length l)).
  - rewrite (IH f2) by lia. by rewrite <- app_assoc.
  - rewrite (IH f2) by lia. by rewrite <- app_assoc.
Qed.

Lemma audit_path_fuel_enough f m l out :
  length l ≤ f → audit_path_fuel f m l out = out ++ audit_path m l [].
Proof. intros. by apply audit_path_fuel_irrel. Qed.

Lemma audit_path_unfold m l :
  1 < length l →
  audit_path m l [] =
    if m <? split (length l)
    then audit_path m (take (split (length l)) l) [] ++ [mth (drop (split (length l)) l)]
    else audit_path (m - split (length l)) (drop (split (length l)) l) []
         ++ [mth (take (split (length l)) l)].
Proof.
  intros Hl. pose proof (halves_length l Hl) as (Ht & Hd & Hb).
  unfold audit_path at 1. destruct (length l) as [|f] eqn:E; [lia|].
  cbn [audit_path_fuel]. rewrite E.
  replace (S f <=? 1) with false by (symmetry; apply Nat.leb_gt; lia).
  rewrite !audit_path_fuel_enough by lia. done.
Qed.

(** ** Shifts *)

Lemma div2_double x : Nat.div2 (2 * x) = x.
Proof. apply Nat.div2_double. Qed.
Lemma div2_double_S x : Nat.div2 (2 * x + 1) = x.
Proof. rewrite Nat.add_1_r. apply Nat.div2_succ_double. Qed.
Lemma even_double x : Nat.even (2 * x) = true.
Proof. by rewrite Nat.even_even. Qed.
Lemma odd_double x : Nat.odd (2 * x) = false.
Proof. by rewrite <- Nat.negb_even, even_double. Qed.
Lemma odd_double_S x : Nat.odd (2 * x + 1) = true.
Proof. rewrite Nat.odd_odd. done. Qed.
Lemma even_double_S x : Nat.even (2 * x + 1) = false.
Proof. by rewrite <- Nat.negb_odd, odd_double_S. Qed.

Create Rewrite HintDb shift.
#[local] Hint Rewrite div2_double div2_double_S even_double odd_double odd_double_S even_double_S
  : shift.

Lemma shift_even_fuel_pow f a j x :
  j ≤ f → shift_even_fuel f ((2 * a + 1) * 2 ^ j) (x * 2 ^ j) = (2 * a + 1, x).
Proof.
  revert f. induction j as [|j IH]; intros f Hf.
  { rewrite !Nat.mul_1_r. destruct f; simpl; [done|].
    change (a + (a + 0) + 1) with (2 * a + 1). by rewrite even_double_S. }
  destruct f as [|f]; [lia|]. rewrite !Nat.pow_succ_r'.
  replace ((2 * a + 1) * (2 * 2 ^ j)) with (2 * ((2 * a + 1) * 2 ^ j)) by lia.
  replace (x * (2 * 2 ^ j)) with (2 * (x * 2 ^ j)) by lia.
  cbn [shift_even_fuel]. rewrite even_double, !div2_double.
  pose proof (Nat.pow_nonzero 2 j).
  replace (2 * ((2 * a + 1) * 2 ^ j) =? 0) with false
    by (symmetry; apply Nat.eqb_neq; nia).
  apply IH. lia.
Qed.

Lemma shift_even_pow a j x :
  shift_even ((2 * a + 1) * 2 ^ j) (x * 2 ^ j) = (2 * a + 1, x).
Proof.
  apply shift_even_fuel_pow. pose proof (Nat.pow_gt_lin_r 2 j). nia.
Qed.

(** One turn of each verification loop, by where the node lies: a left child
    strictly inside the tree, a right child, or a node on the right border. *)
Lemma inclusion_step_left x y r p rest :
  2 * x < y →
  inclusion_loop (2 * x) y r (p :: rest) = inclusion_loop x (Nat.div2 y) (node_hash r p) rest.
Proof.
  intros. cbn [inclusion_loop]. autorewrite with shift.
  by destruct (Nat.eqb_spec y 0), (Nat.eqb_spec (2 * x) y); [lia..|].
Qed.

Lemma inclusion_step_right x y r p rest :
  0 < y →
  inclusion_loop (2 * x + 1) y r (p :: rest) = inclusion_loop x (Nat.div2 y) (node_hash p r) rest.
Proof.
  intros. cbn [inclusion_loop]. autorewrite with shift.
  by destruct (Nat.eqb_spec y 0); [lia|].
Qed.

Lemma border_shift x j :
  (if Nat.even ((2 * x + 1) * 2 ^ j)
   then shift_even ((2 * x + 1) * 2 ^ j) ((2 * x + 1) * 2 ^ j)
   else ((2 * x + 1) * 2 ^ j, (2 * x + 1) * 2 ^ j)) = (2 * x + 1, 2 * x + 1).
Proof.
  destruct j as [|j].
  - rewrite Nat.pow_0_r, Nat.mul_1_r. by autorewrite with shift.
  - rewrite shift_even_pow, Nat.pow_succ_r'.
    replace ((2 * x + 1) * (2 * 2 ^ j)) with (2 * ((2 * x + 1) * 2 ^ j)) by lia.
    by autorewrite with shift.
Qed.

Lemma border_nonzero x j : ((2 * x + 1) * 2 ^ j =? 0) = false.
Proof. apply Nat.eqb_neq. pose proof (Nat.pow_nonzero 2 j). nia. Qed.

Lemma inclusion_step_border x j r p rest :
  inclusion_loop ((2 * x + 1) * 2 ^ j) ((2 * x + 1) * 2 ^ j) r (p :: rest)
  = inclusion_loop x x (node_hash p r) rest.
Proof.
  cbn [inclusion_loop]. rewrite border_nonzero, Nat.eqb_refl, orb_true_r, border_shift.
  by autorewrite with shift.
Qed.

Lemma consistency_step_left x y fr sr c rest :
  2 * x < y →
  consistency_loop (2 * x) y fr sr (c :: rest)
  = consistency_loop x (Nat.div2 y) fr (node_hash sr c) rest.
Proof.
  intros. cbn [consistency_loop]. autorewrite with shift.
  by destruct (Nat.eqb_spec y 0), (Nat.eqb_spec (2 * x) y); [lia..|].
Qed.

Lemma consistency_step_right x y fr sr c rest :
  0 < y →
  consistency_loop (2 * x + 1) y fr sr (c :: rest)
  = consistency_loop x (Nat.div2 y) (node_hash c fr) (node_hash c sr) rest.
Proof.
  intros. cbn [consistency_loop]. autorewrite with shift.
  by destruct (Nat.eqb_spec y 0); [lia|].
Qed.

Lemma consistency_step_border x j fr sr c rest :
  consistency_loop ((2 * x + 1) * 2 ^ j) ((2 * x + 1) * 2 ^ j) fr sr (c :: rest)
  = consistency_loop x x (node_hash c fr) (node_hash c sr) rest.
Proof.
  cbn [consistency_loop]. rewrite border_nonzero, Nat.eqb_refl, orb_true_r, border_shift.
  by autorewrite with shift.
Qed.

(** A size [b * 2 ^ S h + c] one level further down. *)
Lemma halve_level b c h :
  c < 2 ^ S h →
  ∃ y c', b * 2 ^ S h + c = y * 2 ^ h + c' ∧ c' < 2 ^ h ∧ Nat.div2 y = b ∧ 2 * b ≤ y.
Proof.
  rewrite Nat.pow_succ_r'. intros Hc.
  destruct (Nat.ltb_spec c (2 ^ h)) as [Hlt|Hge].
  - exists (2 * b), c. autorewrite with shift. lia.
  - exists (2 * b + 1), (c - 2 ^ h). autorewrite with shift. lia.
Qed.

(** ** Every inclusion proof verifies *)

(** A complete subtree below the right border: each step consumes one bit of
    the index. *)
Lemma inclusion_loop_complete h l m a b c lf rest :
  length l = 2 ^ h → l !! m = Some lf → a < b → c < 2 ^ h →
  inclusion_loop (a * 2 ^ h + m) (b * 2 ^ h + c) lf (audit_path m l [] ++ rest)
  = inclusion_loop a b (mth l) rest.
Proof.
  revert l m a b c rest. induction h as [|h IH]; intros l m a b c rest Hl Hm Hab Hc.
  { destruct l as [|x [|? ?]]; simpl in Hl; [lia| |lia].
    assert (m = 0) as -> by (apply lookup_lt_Some in Hm; simpl in Hm; lia).
    simplify_eq/=. assert (c = 0) as -> by (simpl in Hc; lia).
    f_equal; lia. }
  assert (1 < length l) as Hl1.
  { rewrite Hl, Nat.pow_succ_r'. pose proof (Nat.pow_nonzero 2 h). lia. }
  pose proof (halves_length l Hl1) as (Ht & Hd & Hb).
  rewrite audit_path_unfold, (mth_unfold l) by done.
  destruct (halve_level b c h Hc) as (y & c' & -> & Hc' & Hy & Hby).
  rewrite Hl, split_pow2 in *. rewrite Nat.pow_succ_r' in *. rewrite <- Hy.
  destruct (Nat.ltb_spec m (2 ^ h)) as [Hmk|Hmk]; rewrite <- app_assoc.
  - replace (a * (2 * 2 ^ h) + m) with ((2 * a) * 2 ^ h + m) by lia.
    rewrite IH; [|done|by rewrite lookup_take_lt|lia..].
    apply inclusion_step_left. lia.
  - replace (a * (2 * 2 ^ h) + m) with ((2 * a + 1) * 2 ^ h + (m - 2 ^ h)) by lia.
    rewrite IH; [|lia| |lia..].
    { apply inclusion_step_right. lia. }
    rewrite lookup_drop. by replace (2 ^ h + (m - 2 ^ h)) with m by lia.
Qed.

(** Where the border node of [n] leaves splits, below the upper bits [a]. *)
Lemma border_level a n h :
  1 < n → n ≤ 2 ^ h →
  ∃ g e, split n = 2 ^ g ∧ 2 ^ g < n ≤ 2 * 2 ^ g ∧ a * 2 ^ h = 2 * (a * 2 ^ e) * 2 ^ g.
Proof.
  intros Hn Hh. destruct (split_spec n Hn) as (g & Hg & Hgn). exists g, (h - g - 1).
  assert (g < h) by (apply (Nat.pow_lt_mono_r_iff 2); lia).
  split_and!; [done|lia..|].
  replace h with (h - g - 1 + S g) at 1 by lia.
  rewrite Nat.pow_add_r, Nat.pow_succ_r'. lia.
Qed.

(** The right border of the tree: the upper bits of the index and of the last
    leaf agree, and stay equal. *)
Lemma inclusion_loop_border n l m a h lf :
  length l = n → n ≤ 2 ^ h → l !! m = Some lf →
  ∃ j, ∀ rest,
    inclusion_loop (a * 2 ^ h + m) (a * 2 ^ h + (n - 1)) lf (audit_path m l [] ++ rest)
    = inclusion_loop (a * 2 ^ j) (a * 2 ^ j) (mth l) rest.
Proof.
  revert l m a h. induction n as [n IH] using lt_wf_ind; intros l m a h Hl Hh Hm.
  pose proof (lookup_lt_Some _ _ _ Hm) as Hmn.
  destruct (decide (1 < n)) as [Hn|Hn].
  2: { destruct l as [|x [|? ?]]; simpl in Hl, Hmn; [lia| |lia].
       assert (m = 0) as -> by (simpl in Hmn; lia). simplify_eq/=.
       exists h. intros rest. by rewrite Nat.add_0_r. }
  pose proof (halves_length l ltac:(lia)) as (Ht & Hd & Hb).
  destruct (border_level a n h Hn Hh) as (g & e & Hg & Hgn & ->). set (x := a * 2 ^ e).
  rewrite Hl, Hg in *. rewrite audit_path_unfold, (mth_unfold l) by lia. rewrite Hl, Hg.
  destruct (Nat.ltb_spec m (2 ^ g)) as [Hmk|Hmk].
  - exists e. intros rest. rewrite <- app_assoc.
    replace (2 * x * 2 ^ g + (n - 1)) with ((2 * x + 1) * 2 ^ g + (n - 1 - 2 ^ g)) by lia.
    rewrite inclusion_loop_complete; [|lia|by rewrite lookup_take_lt|lia..].
    simpl app. rewrite inclusion_step_left by lia. by autorewrite with shift.
  - destruct (IH (n - 2 ^ g) ltac:(lia) (drop (2 ^ g) l) (m - 2 ^ g) (2 * x + 1) g)
      as [j Hj]; [lia..| |].
    { rewrite lookup_drop. by replace (2 ^ g + (m - 2 ^ g)) with m by lia. }
    exists e. intros rest. rewrite <- app_assoc.
    replace (2 * x * 2 ^ g + m) with ((2 * x + 1) * 2 ^ g + (m - 2 ^ g)) by lia.
    replace (2 * x * 2 ^ g + (n - 1)) with ((2 * x + 1) * 2 ^ g + (n - 2 ^ g - 1)) by lia.
    rewrite Hj. apply inclusion_step_border.
Qed.

Lemma inclusion_loop_honest l m lf :
  l !! m = Some lf → inclusion_loop m (length l - 1) lf (audit_path m l []) = Some (0, mth l).
Proof.
  intros Hm. pose proof (Nat.pow_gt_lin_r 2 (length l)) as Hp.
  destruct (inclusion_loop_border _ l m 0 (length l) lf eq_refl ltac:(lia) Hm) as [j Hj].
  specialize (Hj []). rewrite app_nil_r in Hj. exact Hj.
Qed.

(** ** A proof that verifies is the honest one *)

(** The collision two different paths to one root contain: the first node,
    from the root down, that two different inputs hash to. *)
Fixpoint path_collision (fnn sn : nat) (r1 : Hash) (p1 : list Hash) (r2 : Hash) (p2 : list Hash)
  : option (bytes * bytes) :=
  match p1, p2 with
  | c1 :: p1', c2 :: p2' =>
      let on_right := Nat.odd fnn || (fnn =? sn) in
      let i1 := if on_right then node_input c1 r1 else node_input r1 c1 in
      let i2 := if on_right then node_input c2 r2 else node_input r2 c2 in
      let '(fnn', sn') :=
        if on_right && Nat.even fnn then shift_even fnn sn else (fnn, sn) in
      if bool_decide (i1 ≠ i2 ∧ sha256 i1 = sha256 i2) then Some (i1, i2)
      else path_collision (Nat.div2 fnn') (Nat.div2 sn') (sha256 i1) p1' (sha256 i2) p2'
  | _, _ => None
  end.

Lemma node_input_inj l1 r1 l2 r2 :
  node_input l1 r1 = node_input l2 r2 → l1 = l2 ∧ r1 = r2.
Proof.
  unfold node_input. intros [= Heq].
  apply app_inj_1 in Heq as [?%vec_to_list_inj2 ?%vec_to_list_inj2]; [done|].
  by rewrite !length_vec_to_list.
Qed.

Lemma inclusion_loop_inj fnn sn r1 p1 r2 p2 x :
  inclusion_loop fnn sn r1 p1 = Some (0, x) →
  inclusion_loop fnn sn r2 p2 = Some (0, x) →
  (r1 = r2 ∧ p1 = p2)
  ∨ ∃ c, path_collision fnn sn r1 p1 r2 p2 = Some c ∧ is_collision c.
Proof.
  revert fnn sn r1 r2 p2. induction p1 as [|c1 p1 IH]; intros fnn sn r1 r2 p2 H1 H2.
  { simplify_eq/=. destruct p2; simplify_eq/=. by left. }
  destruct p2 as [|c2 p2]; cbn [inclusion_loop path_collision] in *.
  { simplify_eq/=. }
  destruct (sn =? 0); [done|].
  destruct (Nat.odd fnn || (fnn =? sn)); cbn [andb].
  - destruct (if Nat.even fnn then _ else _) as [fnn' sn'].
    destruct (IH _ _ _ _ _ H1 H2) as [[Hr ->]|(c & Hc & Hcol)].
    + case_bool_decide as Hd; [right; eexists; split; [done|exact Hd]|].
      destruct (decide (node_input c1 r1 = node_input c2 r2)) as [Hi|Hi].
      * apply node_input_inj in Hi as [-> ->]. by left.
      * destruct Hd. by split.
    + case_bool_decide as Hd; right; eexists; (split; [done|]); [exact Hd|done].
  - destruct (IH _ _ _ _ _ H1 H2) as [[Hr ->]|(c & Hc & Hcol)].
    + case_bool_decide as Hd; [right; eexists; split; [done|exact Hd]|].
      destruct (decide (node_input r1 c1 = node_input r2 c2)) as [Hi|Hi].
      * apply node_input_inj in Hi as [-> ->]. by left.
      * destruct Hd. by split.
    + case_bool_decide as Hd; right; eexists; (split; [done|]); [exact Hd|done].
Qed.

(** ** Every consistency proof verifies *)

Lemma subproof_fuel_irrel f1 f2 m l b out :
  length l ≤ f1 → length l ≤ f2 → 0 < m ≤ length l →
  subproof_fuel f1 m l b out = out ++ subproof_fuel f2 m l b [].
Proof.
  revert f2 m l b. induction f1 as [|f1 IH]; intros f2 m l b H1 H2 Hm; [lia|].
  destruct f2 as [|f2]; [lia|]. simpl.
  destruct (Nat.eqb_spec m (length l)).
  { destruct b; [by rewrite app_nil_r|done]. }
  pose proof (halves_length l ltac:(lia)) as (Ht & Hd & Hb).
  destruct (Nat.leb_spec m (split (length l)));
    rewrite (IH f2) by lia; by rewrite <- app_assoc.
Qed.

Lemma subproof_unfold m l b :
  0 < m < length l →
  subproof m l b [] =
    if m <=? split (length l)
    then subproof m (take (split (length l)) l) b [] ++ [mth (drop (split (length l)) l)]
    else subproof (m - split (length l)) (drop (split (length l)) l) false []
         ++ [mth (take (split (length l)) l)].
Proof.
  intros Hm. pose proof (halves_length l ltac:(lia)) as (Ht & Hd & Hb).
  unfold subproof at 1. destruct (length l) as [|f] eqn:E; [lia|].
  cbn [subproof_fuel]. rewrite E.
  replace (m =? S f) with false by (symmetry; apply Nat.eqb_neq; lia).
  destruct (Nat.leb_spec m (split (S f)));
    (erewrite subproof_fuel_irrel; [reflexivity|lia..]).
Qed.

Lemma subproof_all m l b :
  length l = m → 0 < m → subproof m l b [] = if b then [] else [mth l].
Proof.
  intros <- ?. unfold subproof. destruct (length l) as [|f] eqn:E; [lia|].
  cbn [subproof_fuel]. rewrite E, Nat.eqb_refl. by destruct b.
Qed.

Lemma is_power_of_two_spec n : is_power_of_two n = true ↔ ∃ g, n = 2 ^ g.
Proof.
  unfold is_power_of_two. rewrite andb_true_iff, Nat.ltb_lt, Nat.eqb_eq. split.
  - intros [_ ->]. eauto.
  - intros [g ->]. pose proof (Nat.pow_nonzero 2 g). rewrite Nat.log2_pow2 by lia. lia.
Qed.

(** What a proof leaves out when the first tree is complete: its root. *)
Lemma subproof_head m l :
  0 < m ≤ length l → m < length l ∨ is_power_of_two m = true →
  subproof m l false [] =
    (if is_power_of_two m then [mth (take m l)] else []) ++ subproof m l true [].
Proof.
  remember (length l) as n eqn:Hn. revert m l Hn.
  induction n as [n IH] using lt_wf_ind; intros m l -> Hm Hlt.
  destruct (decide (m = length l)) as [->|Hne].
  { destruct Hlt as [?| ->]; [lia|]. rewrite !subproof_all, take_ge by lia. done. }
  rewrite (subproof_unfold m l false), (subproof_unfold m l true) by lia.
  pose proof (halves_length l ltac:(lia)) as (Ht & Hd & Hb).
  destruct (split_spec (length l)) as (g & Hg & Hgl); [lia|].
  destruct (Nat.leb_spec m (split (length l))) as [Hk|Hk].
  - rewrite app_assoc. f_equal.
    assert (m < split (length l) ∨ is_power_of_two m = true) as Hor.
    { destruct (decide (m = split (length l))) as [->|]; [|left; lia].
      right. apply is_power_of_two_spec. eauto. }
    rewrite (IH (split (length l))) by (done || lia).
    rewrite take_take. by replace (m `min` split (length l)) with m by lia.
  - destruct (is_power_of_two m) eqn:Hp; [|done].
    apply is_power_of_two_spec in Hp as [e ->]. exfalso. rewrite Hg in *.
    apply Nat.pow_lt_mono_r_iff in Hk; [|lia].
    pose proof (Nat.pow_le_mono_r 2 (S g) e ltac:(lia) ltac:(lia)) as He.
    rewrite Nat.pow_succ_r' in He. lia.
Qed.

Lemma shift_odd_fuel_pow f x g y c :
  g ≤ f → c < 2 ^ g →
  shift_odd_fuel f (2 * x * 2 ^ g + (2 ^ g - 1)) (y * 2 ^ g + c) = (2 * x, y).
Proof.
  revert f c. induction g as [|g IH]; intros f c Hf Hc.
  { rewrite Nat.pow_0_r in *. assert (c = 0) as -> by lia.
    replace (2 * x * 1 + (1 - 1)) with (2 * x) by lia. rewrite Nat.mul_1_r, Nat.add_0_r.
    destruct f; cbn [shift_odd_fuel]; [done|]. by rewrite odd_double. }
  destruct f as [|f]; [lia|]. rewrite Nat.pow_succ_r' in *.
  pose proof (Nat.pow_nonzero 2 g).
  replace (2 * x * (2 * 2 ^ g) + (2 * 2 ^ g - 1))
    with (2 * (2 * x * 2 ^ g + (2 ^ g - 1)) + 1) by lia.
  cbn [shift_odd_fuel]. rewrite odd_double_S, div2_double_S.
  replace (Nat.div2 (y * (2 * 2 ^ g) + c)) with (y * 2 ^ g + Nat.div2 c).
  2: { replace (y * (2 * 2 ^ g)) with (2 * (y * 2 ^ g)) by lia.
       rewrite !Nat.div2_div, (Nat.mul_comm 2), Nat.div_add_l; lia. }
  apply IH; [lia|]. rewrite Nat.div2_div. apply Nat.Div0.div_lt_upper_bound. lia.
Qed.

Lemma shift_odd_pow x g y c :
  c < 2 ^ g → shift_odd (2 * x * 2 ^ g + (2 ^ g - 1)) (y * 2 ^ g + c) = (2 * x, y).
Proof.
  intros. apply shift_odd_fuel_pow; [|done]. pose proof (Nat.pow_gt_lin_r 2 g). lia.
Qed.

(** [verify_consistency] after its guards: the path with its implicit head. *)
Definition consistency_run (fnn sn : nat) (path : list Hash) : option (nat * Hash * Hash) :=
  match path with
  | [] => None
  | head :: rest =>
      let '(fnn, sn) := shift_odd fnn sn in consistency_loop fnn sn head head rest
  end.

Lemma take_split_root m l k :
  k = split (length l) → k < m ≤ length l →
  mth (take m l) = node_hash (mth (take k l)) (mth (take (m - k) (drop k l))).
Proof.
  intros -> Hm. pose proof (split_pos (length l)).
  pose proof (halves_length l ltac:(lia)) as (Ht & Hd & Hb).
  destruct (split_spec (length l)) as (g & Hg & Hgl); [lia|].
  assert (split m = split (length l)) as Hs.
  { destruct (split_spec m) as (e & He & Hem); [lia|]. rewrite He, Hg. rewrite Hg in Hm.
    f_equal. destruct (Nat.lt_trichotomy e g) as [Hlt|[->|Hgt]]; [|done|]; exfalso.
    - pose proof (Nat.pow_le_mono_r 2 (S e) g ltac:(lia) ltac:(lia)) as Hp.
      rewrite Nat.pow_succ_r' in Hp. lia.
    - pose proof (Nat.pow_le_mono_r 2 (S g) e ltac:(lia) ltac:(lia)) as Hp.
      rewrite Nat.pow_succ_r' in Hp. lia. }
  rewrite mth_unfold by (rewrite length_take; lia).
  rewrite length_take, Nat.min_l, Hs by lia.
  rewrite take_take, Nat.min_l by lia. rewrite take_drop_commute.
  by replace (split (length l) + (m - split (length l))) with m by lia.
Qed.

Lemma consistency_run_complete h l m a b c rest :
  length l = 2 ^ h → 0 < m < 2 ^ h → a < b → c < 2 ^ h →
  consistency_run (a * 2 ^ h + (m - 1)) (b * 2 ^ h + c) (subproof m l false [] ++ rest)
  = consistency_loop a b (mth (take m l)) (mth l) rest.
Proof.
  revert l m a b c rest. induction h as [|h IH]; intros l m a b c rest Hl Hm Hab Hc.
  { simpl in Hm. lia. }
  assert (1 < length l) as Hl1 by lia.
  pose proof (halves_length l Hl1) as (Ht & Hd & Hb).
  rewrite subproof_unfold, (mth_unfold l) by lia.
  pose proof (take_split_root m l _ eq_refl) as Hroot.
  destruct (halve_level b c h Hc) as (y & c' & -> & Hc' & Hy & Hby).
  rewrite Hl, split_pow2 in *. rewrite Nat.pow_succ_r' in *. rewrite <- Hy.
  destruct (Nat.leb_spec m (2 ^ h)) as [Hmk|Hmk]; rewrite <- app_assoc.
  - replace (a * (2 * 2 ^ h) + (m - 1)) with (2 * a * 2 ^ h + (m - 1)) by lia.
    rewrite <- consistency_step_left by lia.
    destruct (decide (m = 2 ^ h)) as [->|Hne].
    + rewrite subproof_all by lia. cbn [app consistency_run]. by rewrite shift_odd_pow.
    + rewrite IH by lia. by rewrite take_take, Nat.min_l by lia.
  - replace (a * (2 * 2 ^ h) + (m - 1)) with ((2 * a + 1) * 2 ^ h + (m - 2 ^ h - 1)) by lia.
    rewrite IH by lia. rewrite Hroot by lia. apply consistency_step_right. lia.
Qed.

Lemma consistency_run_border n l m a h :
  length l = n → n ≤ 2 ^ h → 0 < m < n →
  ∃ j, ∀ rest,
    consistency_run (a * 2 ^ h + (m - 1)) (a * 2 ^ h + (n - 1)) (subproof m l false [] ++ rest)
    = consistency_loop (a * 2 ^ j) (a * 2 ^ j) (mth (take m l)) (mth l) rest.
Proof.
  revert l m a h. induction n as [n IH] using lt_wf_ind; intros l m a h Hl Hh Hm.
  pose proof (halves_length l ltac:(lia)) as (Ht & Hd & Hb).
  destruct (border_level a n h ltac:(lia) Hh) as (g & e & Hg & Hgn & ->).
  pose proof (take_split_root m l _ eq_refl) as Hroot.
  rewrite subproof_unfold, (mth_unfold l) by lia. rewrite Hl, Hg in *.
  exists e. intros rest. set (x := a * 2 ^ e).
  destruct (Nat.leb_spec m (2 ^ g)) as [Hmk|Hmk]; rewrite <- app_assoc.
  - replace (2 * x * 2 ^ g + (n - 1)) with ((2 * x + 1) * 2 ^ g + (n - 1 - 2 ^ g)) by lia.
    replace (consistency_loop x x (mth (take m l)) (node_hash (mth (take (2 ^ g) l))
                                                              (mth (drop (2 ^ g) l))) rest)
      with (consistency_loop (2 * x) (2 * x + 1) (mth (take m l)) (mth (take (2 ^ g) l))
              (mth (drop (2 ^ g) l) :: rest))
      by (rewrite consistency_step_left by lia; by autorewrite with shift).
    destruct (decide (m = 2 ^ g)) as [->|Hne].
    + rewrite subproof_all by lia. cbn [app consistency_run]. by rewrite shift_odd_pow by lia.
    + rewrite consistency_run_complete by lia. by rewrite take_take, Nat.min_l by lia.
  - destruct (IH (n - 2 ^ g) ltac:(lia) (drop (2 ^ g) l) (m - 2 ^ g) (2 * x + 1) g)
      as [j Hj]; [lia..|].
    replace (2 * x * 2 ^ g + (m - 1)) with ((2 * x + 1) * 2 ^ g + (m - 2 ^ g - 1)) by lia.
    replace (2 * x * 2 ^ g + (n - 1)) with ((2 * x + 1) * 2 ^ g + (n - 2 ^ g - 1)) by lia.
    rewrite Hj, Hroot by lia. apply consistency_step_border.
Qed.

(** The collision an accepted consistency path from a false old root [r1]
    contains, given the honest root and path. *)
Definition consistency_collision (first second : nat) (r1 : Hash) (path : list Hash)
    (honest_r1 : Hash) (honest_path : list Hash) : option (bytes * bytes) :=
  match (if is_power_of_two first then [r1] else []) ++ path,
        (if is_power_of_two first then [honest_r1] else []) ++ honest_path with
  | h1 :: p1, h2 :: p2 =>
      let '(fnn, sn) := shift_odd (first - 1) (second - 1) in
      path_collision fnn sn h1 p1 h2 p2
  | _, _ => None
  end.

Lemma consistency_run_honest l m :
  0 < m < length l →
  consistency_run (m - 1) (length l - 1) (subproof m l false [])
  = Some (0, mth (take m l), mth l).
Proof.
  intros Hm. pose proof (Nat.pow_gt_lin_r 2 (length l)).
  destruct (consistency_run_border _ l m 0 (length l) eq_refl ltac:(lia) Hm) as [j Hj].
  specialize (Hj []). rewrite app_nil_r in Hj. exact Hj.
Qed.

(** The second root climbs exactly as an inclusion proof does. *)
Lemma consistency_loop_inclusion fnn sn fr sr path sn' fr' sr' :
  consistency_loop fnn sn fr sr path = Some (sn', fr', sr') →
  inclusion_loop fnn sn sr path = Some (sn', sr').
Proof.
  revert fnn sn fr sr. induction path as [|c path IH]; intros fnn sn fr sr; simpl.
  { by intros [= -> _ ->]. }
  destruct (sn =? 0); [done|]. destruct (Nat.odd fnn || (fnn =? sn)); [|apply IH].
  destruct (if Nat.even fnn then _ else _). apply IH.
Qed.

(** The verifier in terms of [consistency_run], for sizes that differ. *)
Lemma verify_consistency_run first second r1 r2 path :
  0 < first < second →
  verify_consistency first second r1 r2 path = true ↔
  consistency_run (first - 1) (second - 1)
    ((if is_power_of_two first then [r1] else []) ++ path) = Some (0, r1, r2).
Proof.
  intros Hs. unfold verify_consistency.
  destruct (Nat.eqb_spec first 0), (Nat.ltb_spec second first), (Nat.eqb_spec first second);
    [lia..|]. cbn [orb].
  replace (if is_power_of_two first then r1 :: path else path)
    with ((if is_power_of_two first then [r1] else []) ++ path)
    by (by destruct (is_power_of_two first)).
  unfold consistency_run.
  destruct ((if is_power_of_two first then [r1] else []) ++ path) as [|hd rest]; [done|].
  destruct (shift_odd _ _) as [fnn sn].
  destruct (consistency_loop fnn sn hd hd rest) as [[[sn' fr] sr]|]; [|done].
  rewrite !andb_true_iff, Nat.eqb_eq, !bool_decide_eq_true. naive_solver.
Qed.

Lemma check_size_ok b size : size ≤ board_len b → check_size b size = Ok ().
Proof. unfold check_size, board_len. by destruct (Nat.ltb_spec (length (board_leaves b)) size); [lia|]. Qed.

Lemma board_root_ok b size :
  size ≤ board_len b → board_root b size = Ok (mth (take size (board_leaves b))).
Proof. intros. unfold board_root. by rewrite check_size_ok. Qed.

Lemma board_root_inv b size r :
  board_root b size = Ok r → size ≤ board_len b ∧ r = mth (take size (board_leaves b)).
Proof.
  unfold board_root, check_size, board_len.
  destruct (Nat.ltb_spec (length (board_leaves b)) size); naive_solver.
Qed.

(** ** Proof sizes *)

Lemma log2_up_pow n : n ≤ 2 ^ Nat.log2_up n.
Proof.
  destruct (decide (1 < n)) as [Hn|]; [apply Nat.log2_log2_up_spec; lia|].
  pose proof (Nat.pow_nonzero 2 (Nat.log2_up n)). lia.
Qed.

(** Both halves of a slice of at most [2 ^ S h] leaves have at most [2 ^ h]. *)
Lemma halves_pow (l : list Hash) h :
  1 < length l → length l ≤ 2 ^ S h →
  split (length l) ≤ 2 ^ h ∧ length l - split (length l) ≤ 2 ^ h.
Proof.
  intros Hl Hh. destruct (split_spec _ Hl) as (g & -> & Hg).
  assert (g ≤ h) by (apply Nat.lt_succ_r, (Nat.pow_lt_mono_r_iff 2); lia).
  pose proof (Nat.pow_le_mono_r 2 g h). lia.
Qed.

Lemma audit_path_length h m l : length l ≤ 2 ^ h → length (audit_path m l []) ≤ h.
Proof.
  revert m l. induction h as [|h IH]; intros m l Hl.
  { destruct l as [|? [|]]; simpl in *; [done|done|lia]. }
  destruct (decide (1 < length l)) as [Hl1|Hl1].
  2: { destruct l as [|? [|]]; simpl in *; lia. }
  pose proof (halves_length l Hl1) as (Ht & Hd & Hb).
  pose proof (halves_pow l h Hl1 Hl) as [Hk Hr].
  rewrite audit_path_unfold by done.
  destruct (m <? _); rewrite length_app; simpl.
  - pose proof (IH m (take (split (length l)) l)). lia.
  - pose proof (IH (m - split (length l)) (drop (split (length l)) l)). lia.
Qed.

Lemma subproof_length h m l b :
  0 < m ≤ length l → length l ≤ 2 ^ h → length (subproof m l b []) ≤ S h.
Proof.
  revert m l b. induction h as [|h IH]; intros m l b Hm Hl.
  { simpl in Hl. rewrite subproof_all by lia. destruct b; simpl; lia. }
  destruct (decide (m = length l)) as [->|Hne].
  { rewrite subproof_all by lia. destruct b; simpl; lia. }
  pose proof (halves_length l ltac:(lia)) as (Ht & Hd & Hb).
  pose proof (halves_pow l h ltac:(lia) Hl) as [Hk Hr].
  rewrite subproof_unfold by lia.
  destruct (Nat.leb_spec m (split (length l))); rewrite length_app; simpl.
  - pose proof (IH m (take (split (length l)) l) b). lia.
  - pose proof (IH (m - split (length l)) (drop (split (length l)) l) false). lia.
Qed.

(** ** The board's properties *)

(** Inclusion completeness: for every leaf of every prefix of the log,
    [inclusion_proof] returns a path, and [verify_inclusion] accepts it for
    that leaf under the root [root] gives that prefix. *)
Theorem inclusion_complete b index size :
  index < size → size ≤ board_len b →
  ∃ path lf r,
    inclusion_proof b index size = Ok path
    ∧ board_leaf b index = Some lf
    ∧ board_root b size = Ok r
    ∧ verify_inclusion index size lf path r = true.
Proof.
  intros Hi Hs. rewrite board_root_ok by done. unfold inclusion_proof, board_leaf.
  rewrite check_size_ok by done. unfold board_len in Hs. simpl.
  destruct (lookup_lt_is_Some_2 (board_leaves b) index) as [lf Hlf]; [lia|].
  destruct (Nat.leb_spec size index); [lia|]. do 3 eexists. split_and!; [done..|].
  unfold verify_inclusion. destruct (Nat.leb_spec size index); [lia|].
  pose proof (inclusion_loop_honest (take size (board_leaves b)) index lf) as Hl.
  rewrite length_take, Nat.min_l in Hl by lia.
  rewrite Hl by (by rewrite lookup_take_lt). by rewrite bool_decide_eq_true_2.
Qed.

(** Inclusion soundness: a path [verify_inclusion] accepts under a root of
    the log proves the leaf the log holds at that index, and is the very path
    [inclusion_proof] returns; any other accepted path contains an explicit
    SHA-256 collision, which [path_collision] computes. *)
Theorem inclusion_sound b index size lf path r :
  board_root b size = Ok r →
  verify_inclusion index size lf path r = true →
  (board_leaf b index = Some lf ∧ inclusion_proof b index size = Ok path)
  ∨ ∃ honest c,
      board_leaf b index = Some honest
      ∧ path_collision index (size - 1) lf path honest
          (audit_path index (take size (board_leaves b)) []) = Some c
      ∧ is_collision c.
Proof.
  intros [Hs ->]%board_root_inv. unfold verify_inclusion, board_len in *.
  destruct (Nat.leb_spec size index) as [|Hi]; [done|].
  destruct (inclusion_loop index (size - 1) lf path) as [[sn x]|] eqn:Hrun; [|done].
  intros [->%Nat.eqb_eq ->%bool_decide_eq_true]%andb_true_iff.
  destruct (lookup_lt_is_Some_2 (board_leaves b) index) as [honest Hh]; [lia|].
  pose proof (inclusion_loop_honest (take size (board_leaves b)) index honest) as Hl.
  rewrite length_take, Nat.min_l in Hl by lia.
  rewrite lookup_take_lt in Hl by done. specialize (Hl Hh).
  destruct (inclusion_loop_inj _ _ _ _ _ _ _ Hrun Hl) as [[-> ->]|(c & Hc & Hcol)].
  - left. split; [done|]. unfold inclusion_proof. rewrite check_size_ok by done. simpl.
    by destruct (Nat.leb_spec size index); [lia|].
  - right. by exists honest, c.
Qed.

(** Consistency completeness: for any two non-empty prefixes of the log,
    [consistency_proof] returns a path and [verify_consistency] accepts it
    under the two roots. *)
Theorem consistency_complete b first second :
  0 < first → first ≤ second → second ≤ board_len b →
  ∃ path r1 r2,
    consistency_proof b first second = Ok path
    ∧ board_root b first = Ok r1
    ∧ board_root b second = Ok r2
    ∧ verify_consistency first second r1 r2 path = true.
Proof.
  intros H0 Hfs Hs. rewrite !board_root_ok by lia. unfold consistency_proof.
  rewrite check_size_ok by done. simpl.
  destruct (Nat.eqb_spec first 0), (Nat.ltb_spec second first); [lia..|]. simpl.
  do 3 eexists. split_and!; [done..|].
  set (l := take second (board_leaves b)).
  assert (length l = second) as Hl by (unfold l, board_len in *; rewrite length_take; lia).
  assert (take first (board_leaves b) = take first l) as ->
    by (unfold l; by rewrite take_take, Nat.min_l by lia).
  destruct (decide (first = second)) as [->|Hne].
  - rewrite subproof_all, (take_ge l) by lia. unfold verify_consistency.
    destruct (Nat.eqb_spec second 0), (Nat.ltb_spec second second); [lia..|].
    simpl. by rewrite Nat.eqb_refl, bool_decide_eq_true_2.
  - apply verify_consistency_run; [lia|].
    rewrite <- subproof_head by lia. rewrite <- Hl. apply consistency_run_honest. lia.
Qed.

(** C25 (consistency soundness, the board is append-only): if
    [verify_consistency] accepts a path from an old root [r1] at size [first]
    to the root of the log's first [second] leaves, then [r1] is the root of
    the log's own first [first] leaves; otherwise the accepted path contains an
    explicit SHA-256 collision, which [consistency_collision] computes. *)
Theorem consistency_sound b first second r1 r2 path :
  board_root b second = Ok r2 →
  verify_consistency first second r1 r2 path = true →
  board_root b first = Ok r1
  ∨ ∃ c,
      consistency_collision first second r1 path (mth (take first (board_leaves b)))
        (subproof first (take second (board_leaves b)) true []) = Some c
      ∧ is_collision c.
Proof.
  intros [Hs ->]%board_root_inv Hv.
  assert (0 < first ≤ second) as Hfs.
  { unfold verify_consistency in Hv.
    destruct (Nat.eqb_spec first 0), (Nat.ltb_spec second first); [done..|lia]. }
  rewrite board_root_ok by lia. set (l := take second (board_leaves b)) in *.
  assert (length l = second) as Hl by (unfold l, board_len in *; rewrite length_take; lia).
  assert (take first (board_leaves b) = take first l) as ->
    by (unfold l; by rewrite take_take, Nat.min_l by lia).
  destruct (decide (first = second)) as [->|Hne].
  { left. unfold verify_consistency in Hv. rewrite Nat.eqb_refl in Hv.
    destruct (_ || _); [done|]. destruct path; [|done].
    apply bool_decide_eq_true in Hv as ->. by rewrite take_ge by lia. }
  apply verify_consistency_run in Hv; [|lia].
  pose proof (consistency_run_honest l first ltac:(lia)) as Hh.
  rewrite subproof_head, Hl in Hh by lia.
  unfold consistency_collision. unfold consistency_run in Hv, Hh.
  destruct ((if is_power_of_two first then [r1] else []) ++ path) as [|h1 p1] eqn:E1; [done|].
  destruct ((if is_power_of_two first then [mth (take first l)] else []) ++ _)
    as [|h2 p2] eqn:E2; [done|].
  destruct (shift_odd _ _) as [fnn sn].
  pose proof (consistency_loop_inclusion _ _ _ _ _ _ _ _ Hv) as Hi1.
  pose proof (consistency_loop_inclusion _ _ _ _ _ _ _ _ Hh) as Hi2.
  destruct (inclusion_loop_inj _ _ _ _ _ _ _ Hi1 Hi2) as [[-> ->]|(c & Hc & Hcol)].
  - left. congruence.
  - right. by exists c.
Qed.

(** Proof size: an inclusion proof in a tree of [size] leaves has at most
    [ceil (log2 size)] hashes, and a consistency proof at most one more. *)
Theorem proofs_logarithmic b i size path :
  (inclusion_proof b i size = Ok path → length path ≤ Nat.log2_up size)
  ∧ (consistency_proof b i size = Ok path → length path ≤ S (Nat.log2_up size)).
Proof.
  unfold inclusion_proof, consistency_proof, check_size.
  destruct (Nat.ltb_spec (length (board_leaves b)) size) as [|Hs]; [done|]. simpl.
  set (l := take size (board_leaves b)).
  assert (length l = size) as Hl by (unfold l; rewrite length_take; lia).
  split.
  - destruct (size <=? i); intros [= <-]. apply audit_path_length. rewrite Hl.
    apply log2_up_pow.
  - destruct (Nat.eqb_spec i 0), (Nat.ltb_spec size i); intros [= <-].
    apply subproof_length; [lia|]. rewrite Hl. apply log2_up_pow.
Qed.

End Board.

(** ** Witnesses *)

(** A log of five entries under a concrete hash. *)
Definition five : Board :=
  let add b e := (board_append (H:=toy_sha256) b e).2 in
  fold_left add [[x00]; [x10]; [x20; x21]; []; [x40]] board_new.

Definition five_root (n : nat) : Hash := mth (H:=toy_sha256) (take n (board_leaves five)).

Lemma inclusion_complete_witness :
  ∃ path lf r,
    inclusion_proof (H:=toy_sha256) five 3 5 = Ok path
    ∧ board_leaf five 3 = Some lf
    ∧ board_root (H:=toy_sha256) five 5 = Ok r
    ∧ verify_inclusion (H:=toy_sha256) 3 5 lf path r = true.
Proof. apply (inclusion_complete (H:=toy_sha256) five 3 5); vm_compute; lia. Defined.

Lemma inclusion_sound_witness :
  let lf := default (five_root 0) (board_leaf five 3) in
  let path := audit_path (H:=toy_sha256) 3 (board_leaves five) [] in
  (board_leaf five 3 = Some lf ∧ inclusion_proof (H:=toy_sha256) five 3 5 = Ok path)
  ∨ ∃ honest c,
      board_leaf five 3 = Some honest
      ∧ path_collision (H:=toy_sha256) 3 4 lf path honest
          (audit_path (H:=toy_sha256) 3 (take 5 (board_leaves five)) []) = Some c
      ∧ is_collision (H:=toy_sha256) c.
Proof.
  intros lf path.
  apply (inclusion_sound (H:=toy_sha256) five 3 5 lf path (five_root 5)); vm_compute; reflexivity.
Defined.

Lemma consistency_complete_witness :
  ∃ path r1 r2,
    consistency_proof (H:=toy_sha256) five 3 5 = Ok path
    ∧ board_root (H:=toy_sha256) five 3 = Ok r1
    ∧ board_root (H:=toy_sha256) five 5 = Ok r2
    ∧ verify_consistency (H:=toy_sha256) 3 5 r1 r2 path = true.
Proof. apply (consistency_complete (H:=toy_sha256) five 3 5); vm_compute; lia. Defined.

Lemma consistency_sound_witness :
  let path := subproof (H:=toy_sha256) 3 (board_leaves five) true [] in
  board_root (H:=toy_sha256) five 3 = Ok (five_root 3)
  ∨ ∃ c,
      consistency_collision (H:=toy_sha256) 3 5 (five_root 3) path
        (mth (H:=toy_sha256) (take 3 (board_leaves five)))
        (subproof (H:=toy_sha256) 3 (take 5 (board_leaves five)) true []) = Some c
      ∧ is_collision (H:=toy_sha256) c.
Proof.
  intros path. apply (consistency_sound (H:=toy_sha256) five 3 5 (five_root 3) (five_root 5)
           path);
    vm_compute; reflexivity.
Defined.
