(* ===== verification/Election.v ===== *)
(** * An election's public identity

    [vti-voting/src/election.rs], [error.rs] and [scheme.rs]: election
    identifiers, the length-prefixed framing every hash and context of the
    voting crate is built from, the voter class, the election point and the
    contexts a ballot and a trustee's proof are bound to.

    The Predicate Credential System is the [predicate_credential_system]
    crate's: the class [PCS] lists what the voting code calls of it. *)

From S2P Require Import Prelude.

(** ** The credential library *)

Class PCS := {
  Predicate : Type;
  G1 : Type;
  Fr : Type;
  Open : Type;
  Hvk : Type;
  Hsk : Type;
  Usk : Type;
  Credential : Type;
  RootRequest : Type;
  IssuanceState : Type;
  PreCredential : Type;
  Attestation : Type;
  PcsError : Type;
  Rng : Type;
  Fr_eq_dec :: EqDecision Fr;
  (** [PcsError::to_string]. *)
  pcs_error_text : PcsError → string;
  (** [Predicate::root]. *)
  predicate_root : bytes → Predicate;
  (** [PCS::setup] for a deployment label. *)
  pcs_setup : bytes → result PcsError Open;
  (** [G1Hasher::new(domain)] and its [hash(tag, msg)]. *)
  g1_hash : bytes → result PcsError (bytes → bytes → G1);
  (** [enc_pred]: a predicate as a field element. *)
  enc_pred : Open → Predicate → result PcsError Fr;
  helper_keygen : Open → Rng → Hvk * Hsk * Rng;
  user_keygen : Open → Rng → result PcsError (G1 * Usk * Rng);
  root_request : Open → Hvk → Predicate → G1 → Usk → Rng
    → result PcsError (RootRequest * IssuanceState * Rng);
  issue_root : Open → Hvk → Hsk → Predicate → G1 → RootRequest → Rng
    → result PcsError (PreCredential * Rng);
  unblind : Open → Hvk → Usk → Predicate → PreCredential → IssuanceState
    → result PcsError Credential;
  attest_in_context : Open → Hvk → Usk → Predicate → Credential → G1 → bytes → Rng
    → result PcsError (Attestation * Rng);
  check_attestation_in_context : Open → Hvk → G1 → Attestation → bytes → result PcsError unit;
  (** The attestation's class and tag. *)
  att_phi : Attestation → Fr;
  att_tag : Attestation → G1;
  (** [serialization::to_bytes] and [from_bytes] at the types they are used at. *)
  g1_to_bytes : G1 → result PcsError bytes;
  hvk_from_bytes : bytes → result PcsError Hvk;
  credential_to_bytes : Credential → result PcsError bytes;
  credential_from_bytes : bytes → result PcsError Credential;
  attestation_to_bytes : Attestation → result PcsError bytes;
  attestation_from_bytes : bytes → result PcsError Attestation;
  (** [serialization::to_multibase] and [from_multibase]. *)
  to_multibase : bytes → string;
  from_multibase : string → result PcsError bytes;
  (** [ChaCha20Rng::from_seed]. *)
  rng_from_seed : Hash → Rng;
}.

(** The [multibase] crate, base58btc. *)
Class Multibase := {
  multibase_encode : bytes → string;
  (** The base and the bytes of a multibase text; [true] for base58btc. *)
  multibase_decode : string → option (bool * bytes);
}.

(** What decoding promises of encoding. *)
Class MultibaseLaws `{Multibase} := {
  multibase_roundtrip b : multibase_decode (multibase_encode b) = Some (true, b);
  multibase_utf8 b : is_utf8 (multibase_encode b) = true;
}.

(** ** Errors ([error.rs]) *)

Section WithPCS.
Context `{PCS, Multibase}.

Inductive VotingError :=
| Pcs (e : PcsError)
| InvalidElectionId (id : string)
| InvalidCommunity
| WrongCommunity (expected actual : string)
| WrongElection
| WrongClass
| ProofRejected (e : PcsError)
| AlreadyVoted
| Serialization (reason : string)
| Store (reason : string).

Definition lift_pcs {A} (r : result PcsError A) : result VotingError A := map_err Pcs r.

(** ** Identifiers *)

Definition is_ascii_alphanumeric (b : byte) : bool :=
  let z := Z_of_byte b in
  ((48 <=? z) && (z <=? 57)) || ((65 <=? z) && (z <=? 90)) || ((97 <=? z) && (z <=? 122)).

(** A character of an election identifier. *)
Definition id_byte (b : byte) : bool :=
  is_ascii_alphanumeric b || bool_decide (b = x2e) || bool_decide (b = x5f) || bool_decide (b = x2d).

Record ElectionId := mk_election_id { id_str : string }.

(** [ElectionId::new]: 1 to 128 of [A-Z a-z 0-9 . _ -]. *)
Definition election_id_new (id : string) : result VotingError ElectionId :=
  let n := Z.of_nat (length (as_bytes id)) in
  if (1 <=? n) && (n <=? 128) && forallb id_byte (as_bytes id)
  then Ok (mk_election_id id)
  else Err (InvalidElectionId id).

(** [chars().any(char::is_control)] on UTF-8: the C0 controls and DEL, and the
    C1 controls U+0080 to U+009F, encoded C2 80 to C2 9F. *)
Fixpoint has_control (l : bytes) : bool :=
  match l with
  | [] => false
  | b :: l' =>
      (Z_of_byte b <? 32) || (Z_of_byte b =? 127)
      || (bool_decide (b = xc2)
          && match l' with
             | c :: _ => (128 <=? Z_of_byte c) && (Z_of_byte c <=? 159)
             | [] => false
             end)
      || has_control l'
  end.

Definition check_community (community : string) : result VotingError unit :=
  if bool_decide (community = EmptyString) || has_control (as_bytes community)
  then Err InvalidCommunity
  else Ok ().

(** ** Framing *)

(** Length-prefixed, so no two different field sequences encode alike. *)
Definition frame (out field : bytes) : bytes :=
  out ++ to_be_bytes 8 (Z.of_nat (length field)) ++ field.

(** ** Elections *)

Definition ELECTION_POINT_DOMAIN : bytes := as_bytes "vti/vote/election-point/v1".
Definition BALLOT_CONTEXT_TAG : bytes := as_bytes "vti/vote/ballot/v1" ++ [x00].

Record Election := mk_election {
  e_community : string;
  e_id : ElectionId;
  e_digest : Hash;
}.

Definition election_new (c : string) (i : ElectionId) (digest : Hash)
  : result VotingError Election :=
  _ ← check_community c;
  Ok (mk_election c i digest).

(** The deployment label and the voter class ([scheme.rs]). *)
Definition deployment_label (c : string) : bytes := as_bytes (c +:+ "#voting-pcs").

Definition voter_predicate (i : ElectionId) : Predicate :=
  predicate_root (as_bytes ("voter/" +:+ id_str i)).

Definition pcs_open (c : string) : result VotingError Open := lift_pcs (pcs_setup (deployment_label c)).

Definition election_predicate (e : Election) : Predicate := voter_predicate (e_id e).

(** The point every cast in this election attests for. *)
Definition election_point (e : Election) : result VotingError G1 :=
  hasher ← lift_pcs (g1_hash ELECTION_POINT_DOMAIN);
  let msg := frame [] (as_bytes (e_community e)) in
  let msg := frame msg (as_bytes (id_str (e_id e))) in
  let msg := frame msg (vec_to_list (e_digest e)) in
  Ok (hasher (as_bytes "election") msg).

(** The application context a cast is made under. *)
Definition ballot_context (e : Election) (ballot : bytes) : bytes :=
  let out := BALLOT_CONTEXT_TAG in
  let out := frame out (as_bytes (e_community e)) in
  let out := frame out (as_bytes (id_str (e_id e))) in
  let out := frame out (vec_to_list (e_digest e)) in
  frame out ballot.

(** [ctx] of the encrypted levels. *)
Definition trustee_context (e : Election) : bytes :=
  let out := frame [] (as_bytes (e_community e)) in
  let out := frame out (as_bytes (id_str (e_id e))) in
  frame out (vec_to_list (e_digest e)).

(** What a voter and a ballot box need of a community. *)
Record VotingParams := mk_params {
  vp_community : string;
  vp_open : Open;
  vp_hvk : Hvk;
}.

Definition voting_params_new (c : string) (hvk : Hvk) : result VotingError VotingParams :=
  _ ← check_community c;
  o ← pcs_open c;
  Ok (mk_params c o hvk).

(** *** [vti-vetting-pcs/src/scheme.rs]: the text encodings

    [enc] and [dec] at a type, given its byte encoding; a [ProtoError] they
    return is the library's error under a prefix. *)
Definition scheme_enc {A} (to_bytes : A → result PcsError bytes) (v : A) : result PcsError string :=
  b ← to_bytes v; Ok (to_multibase b).
Definition scheme_dec {A} (from_bytes : bytes → result PcsError A) (s : string) : result PcsError A :=
  b ← from_multibase s; from_bytes b.
Definition proto_error_text (e : PcsError) : string := "pcs: " +:+ pcs_error_text e.

(** Multibase text of a group element. *)
Definition point_text (p : G1) : result PcsError string :=
  b ← g1_to_bytes p; Ok (to_multibase b).

Definition dec_hvk (s : string) : result string Hvk :=
  map_err proto_error_text (scheme_dec hvk_from_bytes s).
Definition dec_attestation (s : string) : result string Attestation :=
  map_err proto_error_text (scheme_dec attestation_from_bytes s).

(** What the texts promise: a byte string's text and an encoding read back. *)
Class PCSTextLaws := {
  multibase_text b : from_multibase (to_multibase b) = Ok b;
  attestation_text_bytes a b : attestation_to_bytes a = Ok b → attestation_from_bytes b = Ok a;
  credential_text_bytes c b : credential_to_bytes c = Ok b → credential_from_bytes b = Ok c;
}.

(** ** Framing is injective *)

Lemma frame_app out field : frame out field = out ++ frame [] field.
Proof. unfold frame. by rewrite app_nil_l. Qed.

(** A frame can be cut off the front of any byte string in one way only. *)
Lemma frame_inj f g x y :
  fits_u64 (length f) → fits_u64 (length g) →
  frame [] f ++ x = frame [] g ++ y → f = g ∧ x = y.
Proof.
  unfold frame, fits_u64. intros Hf Hg. rewrite !app_nil_l, <- !app_assoc. intros Heq.
  apply app_inj_1 in Heq as [Hlen Heq]; [|by rewrite !length_to_be_bytes].
  apply to_be_bytes_inj in Hlen; [|lia..].
  apply app_inj_1 in Heq; [done|lia].
Qed.

(** The concatenation of frames, as every context and transcript is built. *)
Definition frames (fields : list bytes) : bytes := concat (frame [] <$> fields).

Lemma frames_inj fs gs :
  Forall (λ f, fits_u64 (length f)) fs → Forall (λ f, fits_u64 (length f)) gs →
  frames fs = frames gs → fs = gs.
Proof.
  unfold frames. intros Hfs. revert gs. induction Hfs as [|f fs Hf Hfs IH]; intros gs Hgs Heq.
  - destruct gs as [|g gs]; [done|]. simpl in Heq. unfold frame in Heq. done.
  - destruct Hgs as [|g gs Hg Hgs]; [by unfold frame in Heq|].
    cbn [fmap list_fmap concat] in Heq. apply frame_inj in Heq as [-> Heq]; [|done..].
    f_equal. by apply IH.
Qed.

Lemma ballot_context_frames e ballot :
  ballot_context e ballot =
    BALLOT_CONTEXT_TAG
    ++ frames [as_bytes (e_community e); as_bytes (id_str (e_id e)); vec_to_list (e_digest e);
               ballot].
Proof.
  unfold ballot_context, frames.
  rewrite (frame_app (frame (frame (frame _ _) _) _)), (frame_app (frame (frame _ _) _)),
    (frame_app (frame _ _)), (frame_app BALLOT_CONTEXT_TAG), <- !app_assoc.
  cbn [fmap list_fmap concat]. by rewrite app_nil_r.
Qed.

Lemma trustee_context_frames e :
  trustee_context e =
    frames [as_bytes (e_community e); as_bytes (id_str (e_id e)); vec_to_list (e_digest e)].
Proof.
  unfold trustee_context, frames.
  rewrite (frame_app (frame (frame _ _) _)), (frame_app (frame _ _)), <- !app_assoc.
  cbn [fmap list_fmap concat]. by rewrite app_nil_r.
Qed.

(** An election whose strings fit Rust's lengths, as every [String] does. *)
Definition fits_election (e : Election) : Prop :=
  fits_u64 (length (as_bytes (e_community e))) ∧ fits_u64 (length (as_bytes (id_str (e_id e)))).

Lemma election_eq e1 e2 :
  as_bytes (e_community e1) = as_bytes (e_community e2) →
  as_bytes (id_str (e_id e1)) = as_bytes (id_str (e_id e2)) →
  vec_to_list (e_digest e1) = vec_to_list (e_digest e2) → e1 = e2.
Proof.
  destruct e1 as [c1 [i1] d1], e2 as [c2 [i2] d2]; simpl.
  by intros ->%as_bytes_inj ->%as_bytes_inj ->%vec_to_list_inj2.
Qed.

(** A cast is bound to one ballot in one election: two ballots have the
    same application context only if they are the same bytes cast in the same
    community, election and manifest. *)
Theorem ballot_context_injective e1 e2 b1 b2 :
  fits_election e1 → fits_election e2 → fits_u64 (length b1) → fits_u64 (length b2) →
  ballot_context e1 b1 = ballot_context e2 b2 → e1 = e2 ∧ b1 = b2.
Proof.
  intros [Hc1 Hi1] [Hc2 Hi2] Hb1 Hb2. rewrite !ballot_context_frames.
  intros Heq%(app_inj_1 _ _ _ _ eq_refl)%proj2.
  apply frames_inj in Heq as [= Hc Hi Hd ->]; [by split; [apply election_eq|]|..];
    repeat constructor; rewrite ?length_vec_to_list; done.
Qed.

(** Elections with the same trustee context are the same election. *)
Lemma trustee_context_injective e1 e2 :
  fits_election e1 → fits_election e2 → trustee_context e1 = trustee_context e2 → e1 = e2.
Proof.
  intros [Hc1 Hi1] [Hc2 Hi2]. rewrite !trustee_context_frames. intros Heq.
  apply frames_inj in Heq as [= Hc Hi Hd]; [by apply election_eq|..];
    repeat constructor; rewrite ?length_vec_to_list; done.
Qed.
End WithPCS.

(** ** A small credential system and encoding, for the witnesses only

    Keys and points are numbers, a credential names the keys and the class it
    serves, and an attestation carries everything it was made with. *)
Module Toy.

Record toy_attestation := mk_toy_attestation {
  ta_phi : bytes;
  ta_tag : Z;
  ta_hvk : Z;
  ta_point : Z;
  ta_ctx : bytes;
}.

Definition attestation_bytes (a : toy_attestation) : bytes :=
  toy_put (ta_phi a) ++ toy_put_Z (ta_tag a) ++ toy_put_Z (ta_hvk a) ++ toy_put_Z (ta_point a)
  ++ toy_put (ta_ctx a).
Definition bytes_attestation (b : bytes) : option toy_attestation :=
  '(p, b) ← toy_get b; '(t, b) ← toy_get_Z b; '(h, b) ← toy_get_Z b; '(q, b) ← toy_get_Z b;
  '(c, _) ← toy_get b; Some (mk_toy_attestation p t h q c).
Lemma bytes_attestation_bytes a : bytes_attestation (attestation_bytes a) = Some a.
Proof.
  unfold bytes_attestation, attestation_bytes. rewrite toy_get_put. simpl.
  rewrite !toy_get_put_Z. simpl. rewrite !toy_get_put_Z. simpl. rewrite !toy_get_put_Z. simpl.
  rewrite <- (app_nil_r (toy_put (ta_ctx a))), toy_get_put. by destruct a.
Qed.

Definition credential_bytes (c : Z * Z * bytes) : bytes :=
  toy_put_Z c.1.1 ++ toy_put_Z c.1.2 ++ toy_put c.2.
Definition bytes_credential (b : bytes) : option (Z * Z * bytes) :=
  '(h, b) ← toy_get_Z b; '(u, b) ← toy_get_Z b; '(p, _) ← toy_get b; Some (h, u, p).

Definition pcs : PCS := {|
  Predicate := bytes;
  G1 := Z;
  Fr := bytes;
  Open := unit;
  Hvk := Z;
  Hsk := Z;
  Usk := Z;
  Credential := Z * Z * bytes;
  RootRequest := Z * bytes;
  IssuanceState := unit;
  PreCredential := Z * bytes;
  Attestation := toy_attestation;
  PcsError := unit;
  Rng := Z;
  Fr_eq_dec := _;
  pcs_error_text := λ _, "rejected";
  predicate_root := λ b, b;
  pcs_setup := λ _, Ok ();
  g1_hash := λ domain, Ok (λ tag msg, Z.of_nat (length (domain ++ tag ++ msg)));
  enc_pred := λ _ p, Ok p;
  helper_keygen := λ _ r, (r, r, r + 1);
  user_keygen := λ _ r, Ok (r, r, r + 1);
  root_request := λ _ _ p _ usk r, Ok ((usk, p), (), r + 1);
  issue_root := λ _ _ hsk p _ _ r, Ok ((hsk, p), r + 1);
  unblind := λ _ hvk usk p _ _, Ok (hvk, usk, p);
  attest_in_context := λ _ hvk usk p cred pt ctx r,
    if bool_decide (cred = (hvk, usk, p))
    then Ok (mk_toy_attestation p (usk * 1000 + pt) hvk pt ctx, r + 1) else Err ();
  check_attestation_in_context := λ _ hvk pt att ctx,
    if bool_decide (ta_hvk att = hvk ∧ ta_point att = pt ∧ ta_ctx att = ctx) then Ok () else Err ();
  att_phi := ta_phi;
  att_tag := ta_tag;
  g1_to_bytes := λ p, Ok (to_be_bytes 32 p);
  hvk_from_bytes := λ b, ok_or (fst <$> toy_get_Z b) ();
  credential_to_bytes := λ c, Ok (credential_bytes c);
  credential_from_bytes := λ b, ok_or (bytes_credential b) ();
  attestation_to_bytes := λ a, Ok (attestation_bytes a);
  attestation_from_bytes := λ b, ok_or (bytes_attestation b) ();
  to_multibase := λ b, "z" +:+ String.string_of_list_byte b;
  from_multibase := λ s,
    match s with
    | String c rest => if bool_decide (String c EmptyString = "z") then Ok (as_bytes rest) else Err ()
    | EmptyString => Err ()
    end;
  rng_from_seed := λ h, Z_of_byte (Vector.hd h);
|}.

Lemma bytes_credential_bytes c : bytes_credential (credential_bytes c) = Some c.
Proof.
  unfold bytes_credential, credential_bytes. destruct c as [[h u] p]. cbn [fst snd].
  rewrite toy_get_put_Z. simpl. rewrite toy_get_put_Z. simpl.
  by rewrite <- (app_nil_r (toy_put p)), toy_get_put.
Qed.

Lemma pcs_text_laws : @PCSTextLaws pcs.
Proof.
  split.
  - intros b. cbn [from_multibase to_multibase pcs String.append].
    generalize (String.list_byte_of_string_of_list_byte b).
    generalize (String.string_of_list_byte b). unfold as_bytes. by intros t <-.
  - intros a b [= <-]. cbn [attestation_from_bytes pcs]. by rewrite bytes_attestation_bytes.
  - intros c b [= <-]. cbn [credential_from_bytes pcs]. by rewrite bytes_credential_bytes.
Qed.

Definition multibase : Multibase := {|
  multibase_encode := λ b, "z" +:+ String.string_of_list_byte (toy_text b);
  multibase_decode := λ s,
    match s with
    | String c rest => Some (bool_decide (String c EmptyString = "z"), toy_of_text (as_bytes rest))
    | EmptyString => None
    end;
|}.

Lemma as_bytes_text l : as_bytes ("z" +:+ String.string_of_list_byte l) = x7a :: l.
Proof.
  pose proof (String.list_byte_of_string_of_list_byte l) as Hl.
  cbn [String.append]. unfold as_bytes. revert Hl. generalize (String.string_of_list_byte l). by intros t <-.
Qed.

Lemma multibase_laws : @MultibaseLaws multibase.
Proof.
  split; intros b.
  - cbn [multibase_encode multibase_decode multibase String.append].
    pose proof (toy_of_text_text b) as Hb. revert Hb.
    generalize (String.list_byte_of_string_of_list_byte (toy_text b)).
    generalize (String.string_of_list_byte (toy_text b)). intros t Ht Hb.
    simpl. change (EmptyString +:+ t) with t. unfold as_bytes. by rewrite Ht, Hb.
  - cbn [multibase_encode multibase]. unfold is_utf8. rewrite as_bytes_text. apply ascii_utf8.
    apply Forall_cons; split; [done|apply toy_text_ascii].
Qed.

Definition election : Election := mk_election "did:web:club" (mk_election_id "e1") (vec_pad 32 [x07]).
End Toy.

Lemma ballot_context_injective_witness :
  Toy.election = Toy.election ∧ as_bytes "{}" = as_bytes "{}".
Proof.
  apply (ballot_context_injective Toy.election Toy.election (as_bytes "{}") (as_bytes "{}"));
    by vm_compute.
Defined.
