(* ===== verification/BallotBox.v ===== *)
(** * Admitting a cast

    [vti-voting/src/ballot_box.rs]: the stateless check of a cast and the one
    stateful step, recording its tag under the election's revote rule, over
    the [NullifierStore] interface. [MemoryNullifiers] is the store the
    service uses; [NullifierStoreLaws] is what the ballot box needs of any.

    Also the parts of [vti-voting/src/voter.rs] and [registrar.rs] a cast is
    made of: issuing a ticket, unblinding it and casting under it. *)

From S2P Require Import Prelude Election.

Section BallotBox.
Context `{Sha256, PCS, Multibase}.

(** SHA-256 of a ballot's bytes. *)
Abbreviation BallotDigest := Hash.

Inductive Revote := Replace | Refuse.
#[export] Instance Revote_eq_dec : EqDecision Revote.
Proof. solve_decision. Defined.

Inductive Admission :=
| Counted (tag : string)
| Replaced (tag : string) (previous : BallotDigest)
| AlreadyCounted (tag : string).

(** ** The nullifier store *)

(** Each method is one atomic operation on the store. *)
Class NullifierStore (S : Type) := {
  ns_get : S → string → result VotingError (option BallotDigest);
  ns_insert_if_absent : S → string → BallotDigest → result VotingError (option BallotDigest) * S;
  ns_swap : S → string → BallotDigest → result VotingError (option BallotDigest) * S;
}.

(** What a store promises: its content is a map from tags to digests, each
    method reads and writes it as its documentation says, and a method that
    fails changes nothing. *)
Class NullifierStoreLaws (S : Type) `{NullifierStore S} := {
  ns_view : S → gmap string BallotDigest;
  ns_get_law s tag r : ns_get s tag = Ok r → r = ns_view s !! tag;
  ns_insert_law s tag d r s' :
    ns_insert_if_absent s tag d = (r, s') →
    match r with
    | Ok p => p = ns_view s !! tag
              ∧ ns_view s' = match p with None => <[tag := d]> (ns_view s) | Some _ => ns_view s end
    | Err _ => ns_view s' = ns_view s
    end;
  ns_swap_law s tag d r s' :
    ns_swap s tag d = (r, s') →
    match r with
    | Ok p => p = ns_view s !! tag ∧ ns_view s' = <[tag := d]> (ns_view s)
    | Err _ => ns_view s' = ns_view s
    end;
}.

(** The in-memory store. *)
Record MemoryNullifiers := mk_nullifiers { nullifiers : gmap string BallotDigest }.

Definition memory_len (s : MemoryNullifiers) : nat := size (nullifiers s).

Definition memory_get (s : MemoryNullifiers) (tag : string)
  : result VotingError (option BallotDigest) := Ok (nullifiers s !! tag).

Definition memory_insert_if_absent (s : MemoryNullifiers) (tag : string) (digest : BallotDigest)
  : result VotingError (option BallotDigest) * MemoryNullifiers :=
  match nullifiers s !! tag with
  | Some d => (Ok (Some d), s)
  | None => (Ok None, mk_nullifiers (<[tag := digest]> (nullifiers s)))
  end.

Definition memory_swap (s : MemoryNullifiers) (tag : string) (digest : BallotDigest)
  : result VotingError (option BallotDigest) * MemoryNullifiers :=
  (Ok (nullifiers s !! tag), mk_nullifiers (<[tag := digest]> (nullifiers s))).

#[export] Instance memory_nullifiers : NullifierStore MemoryNullifiers := {
  ns_get := memory_get;
  ns_insert_if_absent := memory_insert_if_absent;
  ns_swap := memory_swap;
}.

(** ** The ballot box *)

Record BallotBox (S : Type) := mk_box {
  bb_open : Open;
  bb_hvk : Hvk;
  bb_election : Election;
  bb_phi : Fr;
  bb_point : G1;
  bb_revote : Revote;
  bb_store : S;
}.
#[global] Arguments mk_box {S}.
#[global] Arguments bb_open {S}.
#[global] Arguments bb_hvk {S}.
#[global] Arguments bb_election {S}.
#[global] Arguments bb_phi {S}.
#[global] Arguments bb_point {S}.
#[global] Arguments bb_revote {S}.
#[global] Arguments bb_store {S}.

Definition set_store {S} (b : BallotBox S) (s : S) : BallotBox S :=
  mk_box (bb_open b) (bb_hvk b) (bb_election b) (bb_phi b) (bb_point b) (bb_revote b) s.

Definition ballot_box_new {S} (params : VotingParams) (election : Election) (revote : Revote)
    (store : S) : result VotingError (BallotBox S) :=
  if bool_decide (vp_community params ≠ e_community election)
  then Err (WrongCommunity (vp_community params) (e_community election))
  else
    phi ← lift_pcs (enc_pred (vp_open params) (election_predicate election));
    pt ← election_point election;
    Ok (mk_box (vp_open params) (vp_hvk params) election phi pt revote store).

(** A cast: the attestation that admits one ballot ([voter.rs]). *)
Record Cast := mk_cast { attestation : Attestation }.

(** The tag, multibase: this ticket's nullifier in this election. *)
Definition cast_tag (c : Cast) : result VotingError string :=
  map_err (λ e, Serialization (proto_error_text e)) (point_text (att_tag (attestation c))).

(** Check a cast against this election, statelessly; returns the tag. *)
Definition verify {S} (b : BallotBox S) (c : Cast) (ballot : bytes) : result VotingError string :=
  if bool_decide (att_phi (attestation c) ≠ bb_phi b) then Err WrongClass
  else
    _ ← map_err ProofRejected
          (check_attestation_in_context (bb_open b) (bb_hvk b) (bb_point b) (attestation c)
             (ballot_context (bb_election b) ballot));
    cast_tag c.

(** The cheap refusal before the pairing check. *)
Definition cheap_refusal {S} `{NullifierStore S} (b : BallotBox S) (c : Cast)
    (digest : BallotDigest) : result VotingError unit :=
  match bb_revote b with
  | Replace => Ok ()
  | Refuse =>
      tag ← cast_tag c;
      held ← ns_get (bb_store b) tag;
      match held with
      | Some h => if bool_decide (h ≠ digest) then Err AlreadyVoted else Ok ()
      | None => Ok ()
      end
  end.

(** Verify a cast, then count it once under the election's revote rule. *)
Definition ballot_box_admit {S} `{NullifierStore S} (b : BallotBox S) (c : Cast) (ballot : bytes)
  : result VotingError Admission * BallotBox S :=
  let digest := sha256 ballot in
  match cheap_refusal b c digest with
  | Err e => (Err e, b)
  | Ok _ =>
      match verify b c ballot with
      | Err e => (Err e, b)
      | Ok tag =>
          let '(previous, s') :=
            match bb_revote b with
            | Replace => ns_swap (bb_store b) tag digest
            | Refuse => ns_insert_if_absent (bb_store b) tag digest
            end in
          let b' := set_store b s' in
          match previous with
          | Err e => (Err e, b')
          | Ok None => (Ok (Counted tag), b')
          | Ok (Some p) =>
              if bool_decide (p = digest) then (Ok (AlreadyCounted tag), b')
              else match bb_revote b with
                   | Refuse => (Err AlreadyVoted, b')
                   | Replace => (Ok (Replaced tag p), b')
                   end
          end
      end
  end.

(** ** The voter's and the registrar's halves *)

Record Voter := mk_voter { v_usk : Usk; v_id : G1 }.
Record Ticket := mk_ticket { t_election : Election; t_cred : Credential }.

Definition voter_generate (params : VotingParams) (rng : Rng) : result VotingError (Voter * Rng) :=
  '(i, usk, rng') ← lift_pcs (user_keygen (vp_open params) rng);
  Ok (mk_voter usk i, rng').

Definition voter_from_seed (params : VotingParams) (seed : Hash) : result VotingError Voter :=
  '(v, _) ← voter_generate params (rng_from_seed seed);
  Ok v.

Definition same_community (params : VotingParams) (election : Election)
  : result VotingError unit :=
  if bool_decide (vp_community params ≠ e_community election)
  then Err (WrongCommunity (vp_community params) (e_community election))
  else Ok ().

Definition ticket_request (v : Voter) (params : VotingParams) (election : Election) (rng : Rng)
  : result VotingError (RootRequest * IssuanceState * Rng) :=
  _ ← same_community params election;
  lift_pcs (root_request (vp_open params) (vp_hvk params) (election_predicate election)
              (v_id v) (v_usk v) rng).

Definition accept_ticket (v : Voter) (params : VotingParams) (election : Election)
    (pre : PreCredential) (state : IssuanceState) : result VotingError Ticket :=
  _ ← same_community params election;
  cred ← lift_pcs (unblind (vp_open params) (vp_hvk params) (v_usk v)
                     (election_predicate election) pre state);
  Ok (mk_ticket election cred).

Definition cast (v : Voter) (params : VotingParams) (t : Ticket) (ballot : bytes) (rng : Rng)
  : result VotingError (Cast * Rng) :=
  let election := t_election t in
  _ ← same_community params election;
  pt ← election_point election;
  '(att, rng') ← lift_pcs (attest_in_context (vp_open params) (vp_hvk params) (v_usk v)
                             (election_predicate election) (t_cred t) pt
                             (ballot_context election ballot) rng);
  Ok (mk_cast att, rng').

(** This voter's tag in the ticket's election. *)
Definition tag_for (v : Voter) (params : VotingParams) (t : Ticket) (rng : Rng)
  : result VotingError string :=
  '(c, _) ← cast v params t (as_bytes "vti/vote/tag") rng;
  cast_tag c.

Definition KEY_DERIVATION_INFO : bytes := as_bytes "vti-voting-pcs-keys/v1" ++ [x00].

Record Registrar := mk_registrar {
  r_community : string;
  r_open : Open;
  r_hvk : Hvk;
  r_hsk : Hsk;
}.

Definition registrar_generate (c : string) (rng : Rng) : result VotingError (Registrar * Rng) :=
  _ ← check_community c;
  o ← pcs_open c;
  let '(hvk, hsk, rng') := helper_keygen o rng in
  Ok (mk_registrar c o hvk hsk, rng').

(** The key pair from one secret: the ChaCha20 stream seeded with
    [SHA-256(info || len || community || secret)]. *)
Definition registrar_derive (c : string) (secret : Hash) : result VotingError Registrar :=
  _ ← check_community c;
  let seed := sha256 (KEY_DERIVATION_INFO
                      ++ to_le_bytes 8 (Z.of_nat (length (as_bytes c)))
                      ++ as_bytes c ++ vec_to_list secret) in
  '(r, _) ← registrar_generate c (rng_from_seed seed);
  Ok r.

Definition registrar_params (r : Registrar) : result VotingError VotingParams :=
  voting_params_new (r_community r) (r_hvk r).

Definition issue_ticket (r : Registrar) (election : Election) (i : G1) (request : RootRequest)
    (rng : Rng) : result VotingError (PreCredential * Rng) :=
  if bool_decide (e_community election ≠ r_community r)
  then Err (WrongCommunity (r_community r) (e_community election))
  else
    lift_pcs (issue_root (r_open r) (r_hvk r) (r_hsk r) (election_predicate election) i request
                rng).

(** ** What the library promises of an honest voter

    A credential unblinded from an honest issuance serves its key, class and
    helper key; an attestation made under it verifies in the context it was
    made in, carries its class, and has a tag fixed by the key and the point. *)
Class PCSLaws := {
  cred_for : Open → Hvk → Usk → Predicate → Credential → Prop;
  pcs_tag : Usk → G1 → G1;
  honest_credential o r0 r1 r2 r3 r0' r1' r2' r3' hvk hsk i usk p req st pre cred :
    helper_keygen o r0 = (hvk, hsk, r0') →
    user_keygen o r1 = Ok (i, usk, r1') →
    root_request o hvk p i usk r2 = Ok (req, st, r2') →
    issue_root o hvk hsk p i req r3 = Ok (pre, r3') →
    unblind o hvk usk p pre st = Ok cred →
    cred_for o hvk usk p cred;
  honest_attestation o hvk usk p cred pt ctx r att r' :
    cred_for o hvk usk p cred →
    attest_in_context o hvk usk p cred pt ctx r = Ok (att, r') →
    check_attestation_in_context o hvk pt att ctx = Ok ()
    ∧ enc_pred o p = Ok (att_phi att)
    ∧ att_tag att = pcs_tag usk pt;
}.

(** ** The abstract record of votes *)

(** What admitting a cast means for the map from tags to counted ballots:
    [tag] is the cast's verified tag, [d] its ballot's digest. *)
Inductive vote_step (rv : Revote) (tag : string) (d : BallotDigest)
    (m : gmap string BallotDigest) : result VotingError Admission → gmap string BallotDigest → Prop :=
| vote_counted : m !! tag = None → vote_step rv tag d m (Ok (Counted tag)) (<[tag := d]> m)
| vote_again : m !! tag = Some d → vote_step rv tag d m (Ok (AlreadyCounted tag)) m
| vote_replaced p :
    rv = Replace → m !! tag = Some p → p ≠ d →
    vote_step rv tag d m (Ok (Replaced tag p)) (<[tag := d]> m)
| vote_refused p :
    rv = Refuse → m !! tag = Some p → p ≠ d → vote_step rv tag d m (Err AlreadyVoted) m.

(** The digests of the verified ballots under one tag, in the order cast. *)
Definition verified_digests {S} (b : BallotBox S) (l : list (Cast * bytes)) (tag : string)
  : list BallotDigest :=
  omap (λ '(c, ballot),
    match verify b c ballot with
    | Ok t => if bool_decide (t = tag) then Some (sha256 ballot) else None
    | Err _ => None
    end) l.

(** Cast after cast into one ballot box, with each outcome. *)
Fixpoint admit_all {S} `{NullifierStore S} (b : BallotBox S) (l : list (Cast * bytes))
  : list (result VotingError Admission) * BallotBox S :=
  match l with
  | [] => ([], b)
  | (c, ballot) :: l' =>
      let '(r, b') := ballot_box_admit b c ballot in
      let '(rs, b'') := admit_all b' l' in (r :: rs, b'')
  end.

#[export] Instance memory_laws : NullifierStoreLaws MemoryNullifiers.
Proof.
  refine {| ns_view := nullifiers |}.
  - by intros s tag r [= <-].
  - intros s tag d r s'. simpl. unfold memory_insert_if_absent.
    destruct (nullifiers s !! tag) eqn:E; intros [= <- <-]; by rewrite ?E.
  - by intros s tag d r s' [= <- <-].
Defined.

(** ** Admission *)

Lemma verify_set_store {S} (b : BallotBox S) s c ballot :
  verify (set_store b s) c ballot = verify b c ballot.
Proof. done. Qed.

Lemma verify_tag {S} (b : BallotBox S) c ballot tag :
  verify b c ballot = Ok tag → cast_tag c = Ok tag.
Proof.
  unfold verify. case_bool_decide; [done|].
  destruct (check_attestation_in_context _ _ _ _ _); by simpl.
Qed.

Lemma admit_static {S} `{NullifierStore S} (b : BallotBox S) c ballot r b' :
  ballot_box_admit b c ballot = (r, b') → ∃ s, b' = set_store b s.
Proof.
  unfold ballot_box_admit. intros Heq.
  destruct (cheap_refusal _ _ _); [|simplify_eq; exists (bb_store b'); by destruct b'].
  destruct (verify _ _ _); [|simplify_eq; exists (bb_store b'); by destruct b'].
  destruct (match bb_revote b with Replace => _ | Refuse => _ end) as [o s'].
  exists s'. repeat case_match; simplify_eq/=; done.
Qed.

Section Store.
Context {S : Type} `{NullifierStoreLaws S}.

Lemma set_store_view (b : BallotBox S) s : bb_store (set_store b s) = s.
Proof. done. Qed.

(** C21 (admission refines the abstract vote record): for any store that keeps
    its promises, an admission either is the abstract step of the cast's
    verified tag and ballot digest, or is refused and leaves the record as it
    was. *)
Theorem admit_refines (b : BallotBox S) c ballot r b' :
  ballot_box_admit b c ballot = (r, b') →
  (∃ tag, verify b c ballot = Ok tag
          ∧ vote_step (bb_revote b) tag (sha256 ballot) (ns_view (bb_store b)) r
              (ns_view (bb_store b')))
  ∨ (∃ e, r = Err e ∧ ns_view (bb_store b') = ns_view (bb_store b)).
Proof.
  unfold ballot_box_admit. intros Heq.
  destruct (cheap_refusal b c (sha256 ballot)) as [u|e]; [|naive_solver].
  destruct (verify b c ballot) as [tag|e]; [|naive_solver].
  destruct (bb_revote b) eqn:Hrv.
  - destruct (ns_swap (bb_store b) tag (sha256 ballot)) as [o s'] eqn:Hop.
    apply ns_swap_law in Hop. destruct o as [[p|]|e]; simplify_eq/=.
    + destruct Hop as [Hp Hview]. left. exists tag. split; [done|].
      case_bool_decide as Hd; simplify_eq/=; rewrite Hview.
      * rewrite insert_id by done. by constructor.
      * by constructor.
    + destruct Hop as [Hp Hview]. left. exists tag. split; [done|].
      rewrite Hview. by constructor.
    + right. by eexists.
  - destruct (ns_insert_if_absent (bb_store b) tag (sha256 ballot)) as [o s'] eqn:Hop.
    apply ns_insert_law in Hop. destruct o as [[p|]|e]; simplify_eq/=.
    + destruct Hop as [Hp Hview]. left. exists tag. split; [done|].
      case_bool_decide as Hd; simplify_eq/=; rewrite Hview; by econstructor.
    + destruct Hop as [Hp Hview]. left. exists tag. split; [done|].
      rewrite Hview. by constructor.
    + right. by eexists.
Qed.
End Store.

(** With the in-memory store every verified cast takes its abstract step. *)
Lemma admit_memory (b : BallotBox MemoryNullifiers) c ballot r b' :
  ballot_box_admit b c ballot = (r, b') →
  match verify b c ballot with
  | Ok tag => vote_step (bb_revote b) tag (sha256 ballot) (nullifiers (bb_store b)) r
                (nullifiers (bb_store b'))
  | Err _ => nullifiers (bb_store b') = nullifiers (bb_store b) ∧ ∃ e, r = Err e
  end.
Proof.
  unfold ballot_box_admit, cheap_refusal. intros Heq.
  destruct (verify b c ballot) as [tag|e] eqn:Hv.
  2: { split; repeat case_match; simplify_eq/=; eauto. }
  pose proof (verify_tag _ _ _ _ Hv) as Ht. rewrite Ht in Heq. destruct (bb_revote b); simpl in Heq.
  - destruct (nullifiers (bb_store b) !! tag) as [p|] eqn:Hm.
    + case_bool_decide; simplify_eq/=; [|by constructor].
      rewrite insert_id by done. by constructor.
    + simplify_eq/=. by constructor.
  - unfold memory_insert_if_absent in Heq.
    destruct (nullifiers (bb_store b) !! tag) as [p|] eqn:Hm.
    + repeat case_bool_decide; simplify_eq/=; by econstructor.
    + simplify_eq/=. by constructor.
Qed.

Lemma admit_all_static (b : BallotBox MemoryNullifiers) l :
  ∃ s, (admit_all b l).2 = set_store b s.
Proof.
  revert b. induction l as [|[c ballot] l IH]; intros b; simpl.
  { exists (bb_store b). by destruct b. }
  destruct (ballot_box_admit b c ballot) as [r b'] eqn:E. apply admit_static in E as [s ->].
  destruct (IH (set_store b s)) as [s' Hs']. exists s'.
  destruct (admit_all (set_store b s) l) as [rs b'']. simpl in *. by rewrite Hs'.
Qed.

(** One ballot counts under each tag, and which one: after any sequence
    of casts, the record holds for a tag exactly the digest of the last
    verified ballot cast under it where the election lets a revote replace,
    and of the first where it refuses one (what the record already held
    counting as cast before). *)
Theorem admit_all_counts (b : BallotBox MemoryNullifiers) l tag :
  let held := option_list (nullifiers (bb_store b) !! tag) in
  nullifiers (bb_store (admit_all b l).2) !! tag =
    match bb_revote b with
    | Replace => last (held ++ verified_digests b l tag)
    | Refuse => head (held ++ verified_digests b l tag)
    end.
Proof.
  simpl. revert b. induction l as [|[c ballot] l IH]; intros b.
  { simpl. rewrite app_nil_r. by destruct (_ !! _), (bb_revote b). }
  simpl. destruct (ballot_box_admit b c ballot) as [r b'] eqn:E.
  pose proof (admit_memory _ _ _ _ _ E) as Hstep. apply admit_static in E as [s ->].
  specialize (IH (set_store b s)). destruct (admit_all (set_store b s) l) as [rs b''].
  simpl in *. rewrite IH. clear IH.
  change (verified_digests (set_store b s) l tag) with (verified_digests b l tag).
  destruct (verify b c ballot) as [t|e]; [|by destruct Hstep as [-> _]].
  case_bool_decide as Ht; subst.
  - simpl. inversion Hstep as [Hm Hr Hs'|Hm Hr Hs'|p Hrv Hm Hne Hr Hs'|p Hrv Hm Hne Hr Hs'];
      simplify_eq/=; rewrite ?lookup_insert_eq, ?Hm, ?Hrv; simpl;
      by destruct (bb_revote b).
  - assert (nullifiers s !! tag = nullifiers (bb_store b) !! tag) as ->; [|done].
    inversion Hstep; simplify_eq/=; rewrite ?lookup_insert_ne by done; congruence.
Qed.

(** ** From ticket to admission *)

Section Honest.
Context {laws : PCSLaws}.

(** The ticket an honest registrar and voter make together. *)
Definition honest_ticket (r : Registrar) (v : Voter) (params : VotingParams) (t : Ticket) : Prop :=
  registrar_params r = Ok params
  ∧ (∃ rng rng' o, pcs_open (r_community r) = Ok o
       ∧ r_open r = o ∧ helper_keygen o rng = (r_hvk r, r_hsk r, rng'))
  ∧ (∃ rng rng', voter_generate params rng = Ok (v, rng'))
  ∧ ∃ r2 r2' r3 r3' req st pre,
      ticket_request v params (t_election t) r2 = Ok (req, st, r2')
      ∧ issue_ticket r (t_election t) (v_id v) req r3 = Ok (pre, r3')
      ∧ accept_ticket v params (t_election t) pre st = Ok t.

Lemma lift_pcs_ok {A} (r : result PcsError A) a : lift_pcs r = Ok a → r = Ok a.
Proof. by destruct r; intros [= ->]. Qed.

Lemma honest_ticket_cred r v params t :
  honest_ticket r v params t →
  cred_for (vp_open params) (vp_hvk params) (v_usk v) (election_predicate (t_election t)) (t_cred t).
Proof.
  intros (Hp & (r0 & r0' & o & Ho & Hro & Hkey) & (r1 & r1' & Hgen)
          & r2 & r2' & r3 & r3' & req & st & pre & Hreq & Hiss & Hacc).
  unfold registrar_params, voting_params_new in Hp.
  destruct (check_community _); simplify_eq/=. rewrite Ho in Hp. simplify_eq/=.
  unfold voter_generate in Hgen.
  destruct (lift_pcs (user_keygen _ _)) as [[[i usk] rr]|] eqn:Hu; simplify_eq/=.
  apply lift_pcs_ok in Hu.
  unfold ticket_request in Hreq. destruct (same_community _ _); simplify_eq/=.
  apply lift_pcs_ok in Hreq.
  unfold issue_ticket in Hiss. case_bool_decide; [done|]. apply lift_pcs_ok in Hiss.
  unfold accept_ticket in Hacc. destruct (same_community _ _); simplify_eq/=.
  destruct (lift_pcs (unblind _ _ _ _ _ _)) as [cred|] eqn:Hun; simplify_eq/=.
  apply lift_pcs_ok in Hun. apply (f_equal t_cred) in Hacc. simpl in Hacc. subst cred.
  eapply honest_credential; eauto.
Qed.

(** What an honest cast is at its election's ballot box. *)
Lemma honest_cast_spec {S} r v params t (b : BallotBox S) rv store ballot c rng rng' :
  honest_ticket r v params t →
  ballot_box_new params (t_election t) rv store = Ok b →
  cast v params t ballot rng = Ok (c, rng') →
  verify b c ballot = cast_tag c
  ∧ ∃ pt, election_point (t_election t) = Ok pt ∧ att_tag (attestation c) = pcs_tag (v_usk v) pt.
Proof.
  intros Ht%honest_ticket_cred Hb Hc. unfold ballot_box_new in Hb. case_bool_decide; [done|].
  destruct (lift_pcs (enc_pred _ _)) as [phi|] eqn:Hphi; simplify_eq/=. apply lift_pcs_ok in Hphi.
  destruct (election_point (t_election t)) as [pt|] eqn:Hpt; simplify_eq/=.
  unfold cast in Hc. destruct (same_community _ _); simplify_eq/=. rewrite Hpt in Hc. simpl in *.
  destruct (lift_pcs _) as [[att ?]|] eqn:Ha; simplify_eq/=. apply lift_pcs_ok in Ha.
  destruct (honest_attestation _ _ _ _ _ _ _ _ _ _ Ht Ha) as (Hck & Hph & Htag).
  split; [|by exists pt]. unfold verify. simpl.
  rewrite bool_decide_eq_false_2 by (intros Hn; apply Hn; congruence). by rewrite Hck.
Qed.

(** An honest voter's ballot is admitted, under one tag: a cast made
    under an honestly issued ticket verifies at the election's ballot box for
    the ballot it was made with, and every cast under the ticket, whatever its
    ballot, carries the same tag. *)
Theorem honest_cast_verifies {S} r v params t (b : BallotBox S) rv store ballot ballot' c c'
    rng rng1 rng' rng1' :
  honest_ticket r v params t →
  ballot_box_new params (t_election t) rv store = Ok b →
  cast v params t ballot rng = Ok (c, rng') →
  cast v params t ballot' rng1 = Ok (c', rng1') →
  verify b c ballot = cast_tag c ∧ cast_tag c' = cast_tag c.
Proof.
  intros Ht Hb Hc Hc'.
  destruct (honest_cast_spec _ _ _ _ _ _ _ _ _ _ _ Ht Hb Hc) as (Hv & pt & Hpt & Htag).
  destruct (honest_cast_spec _ _ _ _ _ _ _ _ _ _ _ Ht Hb Hc') as (_ & pt' & Hpt' & Htag').
  split; [exact Hv|]. unfold cast_tag. rewrite Htag, Htag'. congruence.
Qed.
End Honest.
End BallotBox.

(** ** Witnesses *)

#[local] Existing Instances Toy.pcs Toy.multibase toy_sha256.

Lemma toy_pcs_laws : PCSLaws.
Proof.
  refine {| cred_for := λ _ hvk usk p cred, cred = (hvk, usk, p);
            pcs_tag := λ usk pt, usk * 1000 + pt |}.
  - intros. by simplify_eq/=.
  - intros o hvk usk p cred pt ctx r att r' ->. simpl.
    rewrite bool_decide_eq_true_2 by done. intros [= <- <-]. simpl.
    by rewrite bool_decide_eq_true_2.
Defined.

Definition toy_params : VotingParams := mk_params "did:web:club" () 5.
Definition toy_registrar : Registrar := mk_registrar "did:web:club" () 5 5.
Definition toy_voter : Voter := mk_voter 9 9.
Definition toy_ticket : Ticket :=
  mk_ticket Toy.election (5, 9, election_predicate Toy.election).
Definition toy_box (rv : Revote) : BallotBox MemoryNullifiers :=
  mk_box () 5 Toy.election (election_predicate Toy.election)
    (default 0 (ok (election_point Toy.election))) rv (mk_nullifiers ∅).
Definition toy_cast (ballot : string) : Cast :=
  mk_cast (Toy.mk_toy_attestation (election_predicate Toy.election)
    (9000 + default 0 (ok (election_point Toy.election))) 5
    (default 0 (ok (election_point Toy.election))) (ballot_context Toy.election (as_bytes ballot))).

Lemma admit_refines_witness :
  ∃ r b', ballot_box_admit (toy_box Refuse) (toy_cast "yes") (as_bytes "yes") = (r, b')
  ∧ is_ok r = true
  ∧ ((∃ tag, verify (toy_box Refuse) (toy_cast "yes") (as_bytes "yes") = Ok tag
          ∧ vote_step Refuse tag (sha256 (as_bytes "yes")) ∅ r (ns_view (bb_store b')))
  ∨ (∃ e, r = Err e ∧ ns_view (bb_store b') = ∅)).
Proof.
  eexists _, _. split; [reflexivity|]. split; [vm_compute; reflexivity|].
  exact (admit_refines (toy_box Refuse) (toy_cast "yes") (as_bytes "yes") _ _ eq_refl).
Defined.

Lemma honest_cast_verifies_witness :
  verify (toy_box Replace) (toy_cast "yes") (as_bytes "yes") = cast_tag (toy_cast "yes")
  ∧ cast_tag (toy_cast "no") = cast_tag (toy_cast "yes").
Proof.
  refine (honest_cast_verifies (laws := toy_pcs_laws) toy_registrar toy_voter toy_params toy_ticket
            (toy_box Replace) Replace (mk_nullifiers ∅) (as_bytes "yes") (as_bytes "no")
            (toy_cast "yes") (toy_cast "no") 0 0 1 1 _ _ _ _); [|reflexivity..].
  split; [done|]. split; [by exists 5, 6, ()|]. split; [by exists 9, 10|].
  by exists 0, 1, 0, 1, (9, election_predicate Toy.election), (), (5, election_predicate Toy.election).
Defined.
