(* ===== verification/Json.v ===== *)
(** * JSON values

    What the voting crate uses of [serde_json]: the [Value] tree, member
    access and object building. An object is kept as its key-sorted member
    list, the iteration order of [serde_json::Map]; [mk_obj] builds one from a
    finite map. RFC 8785 canonicalization is the [serde_json_canonicalizer]
    crate's: an argument. *)

From S2P Require Import Prelude.

#[local] Set Warnings "-register-all".

Inductive Value :=
| VNull
| VBool (b : bool)
| VNum (z : Z)
| VFloat (text : string)
| VStr (s : string)
| VArr (l : list Value)
| VObj (members : list (string * Value)).

#[export] Instance value_eq_dec : EqDecision Value.
Proof.
  refine (fix go (v w : Value) : Decision (v = w) :=
    match v, w with
    | VNull, VNull => left _
    | VBool a, VBool b => cast_if (decide (a = b))
    | VNum a, VNum b => cast_if (decide (a = b))
    | VFloat a, VFloat b => cast_if (decide (a = b))
    | VStr a, VStr b => cast_if (decide (a = b))
    | VArr a, VArr b =>
        cast_if ((fix gol (x y : list Value) : Decision (x = y) :=
          match x, y with
          | [], [] => left _
          | v :: x, w :: y => cast_if_and (go v w) (gol x y)
          | _, _ => right _
          end) a b)
    | VObj a, VObj b =>
        cast_if ((fix gol (x y : list (string * Value)) : Decision (x = y) :=
          match x, y with
          | [], [] => left _
          | (k, v) :: x, (l, w) :: y => cast_if_and3 (decide (k = l)) (go v w) (gol x y)
          | _, _ => right _
          end) a b)
    | _, _ => right _
    end); try clear go; try clear gol; abstract congruence.
Defined.

(** The lexicographic order of keys' bytes. *)
Definition member_le {V} (x y : string * V) : Prop := String.leb x.1 y.1 = true.
#[export] Instance member_le_dec {V} : RelDecision (@member_le V).
Proof. intros x y. unfold member_le. apply _. Defined.

(** A [BTreeMap<String, V>]'s or an object's members in iteration order. *)
Definition sorted_members {V} (m : gmap string V) : list (string * V) :=
  merge_sort member_le (map_to_list m).

Definition mk_obj (m : gmap string Value) : Value := VObj (sorted_members m).

(** [Value::get] with a string. *)
Definition json_get (v : Value) (k : string) : option Value :=
  match v with
  | VObj ms => snd <$> find (λ m, String.eqb m.1 k) ms
  | _ => None
  end.

(** [Value]'s index operator: [Null] where the member is absent. *)
Definition json_index (v : Value) (k : string) : Value := default VNull (json_get v k).

Definition as_str (v : Value) : option string := match v with VStr s => Some s | _ => None end.

(** A number is a [u64] where it is an integer of that range. *)
Definition as_u64 (v : Value) : option Z :=
  match v with VNum z => if bool_decide (0 ≤ z ≤ u64_max) then Some z else None | _ => None end.
Definition as_array (v : Value) : option (list Value) :=
  match v with VArr l => Some l | _ => None end.

(** [get(k).and_then(Value::as_str)]. *)
Definition get_str (v : Value) (k : string) : option string := json_get v k ≫= as_str.

(** RFC 8785, as [serde_json_canonicalizer::to_vec]. *)
Class Jcs := jcs_to_vec : Value → result string bytes.

(** ** Object lemmas *)

Lemma find_assoc {V} (l : list (string * V)) k v :
  NoDup l.*1 → (k, v) ∈ l → find (λ m, String.eqb m.1 k) l = Some (k, v).
Proof.
  induction l as [|[j w] l IH]; simpl; [by intros _ ?%elem_of_nil|].
  intros [Hj Hl]%NoDup_cons. rewrite elem_of_cons. intros [[= -> ->]|Hin].
  - by rewrite String.eqb_refl.
  - destruct (String.eqb_spec j k) as [->|]; [|by apply IH].
    destruct Hj. apply list_elem_of_fmap. by exists (k, v).
Qed.

Lemma sorted_members_Permutation {V} (m : gmap string V) :
  sorted_members m ≡ₚ map_to_list m.
Proof. apply merge_sort_Permutation. Qed.

Lemma sorted_members_NoDup {V} (m : gmap string V) : NoDup (sorted_members m).*1.
Proof. rewrite sorted_members_Permutation. apply NoDup_fst_map_to_list. Qed.

Lemma json_get_mk_obj m k : json_get (mk_obj m) k = m !! k.
Proof.
  simpl. destruct (m !! k) as [v|] eqn:E.
  - rewrite (find_assoc _ k v); [done|apply sorted_members_NoDup|].
    rewrite sorted_members_Permutation. by apply elem_of_map_to_list.
  - destruct (find _ _) as [[j w]|] eqn:Hf; [exfalso|done].
    apply find_some in Hf as [Hin Hj%String.eqb_eq]. simpl in Hj. subst j. apply list_elem_of_In in Hin.
    rewrite sorted_members_Permutation in Hin. apply elem_of_map_to_list in Hin. congruence.
Qed.

Lemma json_get_eq m v k : v = mk_obj m → json_get v k = m !! k.
Proof. intros ->. apply json_get_mk_obj. Qed.

(** Members by name, without computing the object. *)
#[global] Opaque mk_obj.
Create HintDb json.
#[export] Hint Rewrite json_get_mk_obj @lookup_insert_eq @lookup_insert_ne using done : json.

(** Read a member of an object built by [mk_obj]. *)
Ltac json := autorewrite with json; try done.

(** A small canonicalization, for the witnesses only: the scalar members'
    text in order. *)
Fixpoint toy_text (v : Value) : bytes :=
  match v with
  | VNull => [x00]
  | VBool b => [x01; if b then x01 else x00]
  | VNum z => x02 :: to_be_bytes 16 z
  | VFloat t => x03 :: as_bytes t
  | VStr s => x04 :: as_bytes s
  | VArr l => x05 :: concat (toy_text <$> l)
  | VObj ms => x06 :: concat ((λ m, as_bytes m.1 ++ toy_text m.2) <$> ms)
  end.
Definition toy_jcs : Jcs := λ v, Ok (toy_text v).
