(* ===== verification/Programs.v ===== *)
(** * Programs of calls, and a service that runs many

    A request of an asynchronous service is a program: a tree of calls with the
    replies each may get ([Prog]). Between any two of its calls other requests
    may run; a call may go wrong, or be given up on and take effect later; the
    process may stop and start again. The service is a pool of programs whose
    calls interleave ([service_step]).

    [always] states what a program does whatever the replies, and is proved by
    going through it; [service_always] carries it to every run of the service,
    [service_lease] shows what one request holds at a time, [service_once] what
    happens at most once, and [service_weight] what no step makes more of. The
    calls are an interface ([CallType], [CallSemantics]): [Keyspace] has the
    store's, [Spine] those of the pipeline that receives documents, [Sessions]
    those of logging in, [Rooms] those of a host of data rooms. *)

From S2P Require Import Prelude Json.

(** [AppError] of [vti-common/src/error.rs], without words. *)
Inductive AppError :=
| AppConfig | AppIo | AppStore | AppSerialization | AppInternal | AppSecretStore | AppNotFound | AppConflict
| AppGone | AppSecrets | AppAuthentication | AppUnauthorized | AppForbidden | AppStepUpRequired
| AppApprovalRequired (code : string) (details : Value) | AppValidation | AppNoMatchingProtocol | AppTrustTaskMissing | AppTrustTaskMismatch
| AppTrustTaskMalformed | AppIdempotencyKeyConflict | AppInvalidCursor | AppResourceExhausted | AppServiceError
| AppVsock.
#[export] Instance AppError_eq_dec : EqDecision AppError.
Proof. solve_decision. Defined.

(** ** Calls *)

(** The reply each call gets. *)
Class CallType (K : Type) := Reply : K → Type.

(** What the calls do to the world they share. *)
Class CallSemantics (K : Type) `{CallType K} := {
  World : Type;
  (** A call may have to wait. *)
  ready : K → World → bool;
  (** Done, nothing going wrong. *)
  exec : ∀ c : K, World → result AppError (Reply c) * World;
  (** What else may come of it, when something beneath it goes wrong. *)
  glitch : ∀ c : K, World → result AppError (Reply c) → World → Prop;
  (** It may be given up on, and be done later. *)
  outlives : K → Prop;
  (** What others do. *)
  elsewhere : World → World → Prop;
  (** The world a new process finds. *)
  restarted : World → World;
}.

Arguments World K {_ _}.

(** ** Programs *)

Inductive Prog (K : Type) `{CallType K} (A : Type) : Type :=
| Ret (r : result AppError A)
| Do (c : K) (k : result AppError (Reply c) → Prog K A).
Arguments Ret {K _ A} r.
Arguments Do {K _ A} c k.

(** A call made and its reply. *)
Record Event (K : Type) `{CallType K} := mk_event { ev_call : K; ev_reply : result AppError (Reply ev_call) }.
Arguments mk_event {K _} _ _.
Arguments ev_call {K _} _.
Arguments ev_reply {K _} _.

(** A request being served: what it has called, and what is left. *)
Record Thread (K : Type) `{CallType K} (A : Type) := mk_thread { th_history : list (Event K); th_prog : Prog K A }.
Arguments mk_thread {K _ A} _ _.
Arguments th_history {K _ A} _.
Arguments th_prog {K _ A} _.

(** The world, the calls given up on that may still take effect, and the
    requests. *)
Record Service (K : Type) `{CallSemantics K} (A : Type) :=
  mk_service { sv_world : World K; sv_late : list K; sv_threads : list (Thread K A) }.
Arguments mk_service {K _ _ A} _ _ _.
Arguments sv_world {K _ _ A} _.
Arguments sv_late {K _ _ A} _.
Arguments sv_threads {K _ _ A} _.

Section Programs.
Context {K : Type} `{CT : CallType K}.

#[export] Instance Prog_ret : MRet (Prog K) := λ A a, Ret (Ok a).
Fixpoint prog_bind {A B} (f : A → Prog K B) (p : Prog K A) : Prog K B :=
  match p with
  | Ret (Ok a) => f a
  | Ret (Err e) => Ret (Err e)
  | Do c k => Do c (λ r, prog_bind f (k r))
  end.
#[export] Instance Prog_bind : MBind (Prog K) := @prog_bind.

(** What comes next, whether or not it failed. *)
Fixpoint then_do {A B} (p : Prog K A) (f : result AppError A → Prog K B) : Prog K B :=
  match p with
  | Ret r => f r
  | Do c k => Do c (λ r, then_do (k r) f)
  end.

Definition call (c : K) : Prog K (Reply c) := Do c Ret.
(** A call whose failure is let pass. *)
Definition best_effort (c : K) : Prog K unit := Do c (λ _, Ret (Ok ())).
Definition lift {A} (r : result AppError A) : Prog K A := Ret r.
(** [if c { return Err(e) }] *)
Definition refuse_if (c : bool) (e : AppError) : Prog K unit := lift (guard_err c e).

(** A step that may end its request with a refusal of its own. *)
Definition attempt_bind {E A B} (p : Prog K (result E A)) (f : A → Prog K (result E B)) : Prog K (result E B) :=
  prog_bind (λ r, match r with Ok a => f a | Err e => Prog_ret _ (Err e) end) p.
Definition settled {E A} (r : result E A) : Prog K (result E A) := Prog_ret _ r.
Definition refuse_when {E} (c : bool) (e : E) : Prog K (result E unit) := settled (guard_err c e).
(** [match p { Err(e) => return Err(f(e)), .. }] *)
Definition or_refuse {E A} (f : AppError → E) (p : Prog K A) : Prog K (result E A) :=
  then_do p (λ r, settled (map_err f r)).

Definition begin {A} (p : Prog K A) : Thread K A := mk_thread [] p.
(** A request its process did not outlive. *)
Definition cut_off {A} (t : Thread K A) : Thread K A := mk_thread (th_history t) (Ret (Err AppInternal)).

Context `{!CallSemantics K}.

(** Run alone, nothing going wrong. *)
Fixpoint run {A} (p : Prog K A) (w : World K) : result AppError A * World K :=
  match p with
  | Ret r => (r, w)
  | Do c k => let '(r, w) := exec c w in run (k r) w
  end.

Inductive service_step {A} : Service K A → Service K A → Prop :=
| step_done w late ts i h c k r w' :
    ts !! i = Some (mk_thread h (Do c k)) → ready c w = true → exec c w = (r, w') →
    service_step (mk_service w late ts)
      (mk_service w' late (<[i := mk_thread (h ++ [mk_event c r]) (k r)]> ts))
| step_glitch w late ts i h c k r w' :
    ts !! i = Some (mk_thread h (Do c k)) → glitch c w r w' →
    service_step (mk_service w late ts)
      (mk_service w' late (<[i := mk_thread (h ++ [mk_event c r]) (k r)]> ts))
| step_timed_out w late ts i h c k e :
    ts !! i = Some (mk_thread h (Do c k)) → outlives c →
    service_step (mk_service w late ts)
      (mk_service w (c :: late) (<[i := mk_thread (h ++ [mk_event c (Err e)]) (k (Err e))]> ts))
| step_late w late1 c late2 ts :
    service_step (mk_service w (late1 ++ c :: late2) ts)
      (mk_service (exec c w).2 (late1 ++ late2) ts)
| step_elsewhere w w' late ts :
    elsewhere w w' → service_step (mk_service w late ts) (mk_service w' late ts)
| step_restart w late ts :
    service_step (mk_service w late ts) (mk_service (restarted w) [] (cut_off <$> ts)).

(** ** What a program does, whatever the replies *)

(** Each call is one [C] allows after the calls before it, and the result is
    one [Q] allows. *)
Fixpoint always {A} (C : list (Event K) → K → Prop) (Q : list (Event K) → result AppError A → Prop)
  (h : list (Event K)) (p : Prog K A) : Prop :=
  match p with
  | Ret r => Q h r
  | Do c k => C h c ∧ ∀ r, always C Q (h ++ [mk_event c r]) (k r)
  end.

Definition and_then {A B} (C : list (Event K) → K → Prop) (Q : list (Event K) → result AppError B → Prop)
  (f : A → Prog K B) (h : list (Event K)) (r : result AppError A) : Prop :=
  match r with Ok a => always C Q h (f a) | Err e => Q h (Err e) end.

Lemma always_bind_iff {A B} C Q (p : Prog K A) (f : A → Prog K B) h :
  always C (and_then C Q f) h p ↔ always C Q h (p ≫= f).
Proof.
  revert h. induction p as [[a|e]|c k IH]; intros h; simpl; [done..|].
  split; intros [Hc Hk]; (split; [done|]); intros r; apply IH, Hk.
Qed.
Lemma always_bind {A B} C Q (p : Prog K A) (f : A → Prog K B) h :
  always C (and_then C Q f) h p → always C Q h (p ≫= f).
Proof. apply always_bind_iff. Qed.

Lemma always_then {A B} C Q (p : Prog K A) (f : result AppError A → Prog K B) h :
  always C (λ h r, always C Q h (f r)) h p → always C Q h (then_do p f).
Proof.
  revert h. induction p as [r|c k IH]; intros h; simpl; [done|].
  intros [Hc Hk]. split; [done|]. intros r. apply IH, Hk.
Qed.

Lemma always_impl {A} C (Q Q' : list (Event K) → result AppError A → Prop) h p :
  (∀ h' r, Q (h ++ h') r → Q' (h ++ h') r) → always C Q h p → always C Q' h p.
Proof.
  revert h. induction p as [r|c k IH]; intros h HQ; simpl.
  - intros Hr. specialize (HQ [] r). rewrite !app_nil_r in HQ. by apply HQ.
  - intros [Hc Hk]. split; [done|]. intros r. eapply IH; [|apply Hk].
    intros h' r'. rewrite <- !app_assoc. apply HQ.
Qed.

Lemma always_call {A} C Q (c : K) (f : Reply c → Prog K A) h :
  C h c →
  (∀ a, always C Q (h ++ [mk_event c (Ok a)]) (f a)) →
  (∀ e, Q (h ++ [mk_event c (Err e)]) (Err e)) →
  always C Q h (call c ≫= f).
Proof. intros Hc Hok Herr. split; [done|]. intros [a|e]; simpl; [apply Hok|apply Herr]. Qed.

Lemma always_lift {A B} C Q (r : result AppError A) (f : A → Prog K B) h :
  (∀ a, r = Ok a → always C Q h (f a)) → (∀ e, r = Err e → Q h (Err e)) → always C Q h (lift r ≫= f).
Proof. destruct r; simpl; auto. Qed.

(** ** Every run of the service *)

(** What a call may come to. *)
Definition may_do (c : K) (w : World K) (r : result AppError (Reply c)) (w' : World K) : Prop :=
  exec c w = (r, w') ∨ glitch c w r w'.

Section Runs.
Context {A : Type} (I : World K → Prop) (good : list (Event K) → Prop).
Context (C : list (Event K) → K → Prop) (Q : nat → list (Event K) → result AppError A → Prop).

(** What the world keeps, call by call, and what a request may then rely on
    of its replies; a request cut off fails. *)
Context (Hexec : ∀ h c w, good h → C h c → I w →
  I (exec c w).2 ∧ good (h ++ [mk_event c (exec c w).1])).
Context (Hglitch : ∀ h c w r w', good h → C h c → I w → glitch c w r w' → I w' ∧ good (h ++ [mk_event c r])).
Context (Hlate : ∀ h c e, good h → C h c → outlives c → good (h ++ [mk_event c (Err e)])).
Context (Helse : ∀ w w', elsewhere w w' → I w → I w').
Context (Hrestart : ∀ w, I w → I (restarted w)).
Context (Hcut : ∀ i h e, Q i h (Err e)).

Record service_ok (s : Service K A) : Prop := {
  ok_world : I (sv_world s);
  ok_late : ∀ c, c ∈ sv_late s → ∃ h, good h ∧ C h c;
  ok_threads : ∀ i t, sv_threads s !! i = Some t → good (th_history t) ∧ always C (Q i) (th_history t) (th_prog t);
}.

Lemma service_ok_reply (ts : list (Thread K A)) i h c (k : result AppError (Reply c) → Prog K A) r :
  (∀ j t, ts !! j = Some t → good (th_history t) ∧ always C (Q j) (th_history t) (th_prog t)) →
  ts !! i = Some (mk_thread h (Do c k)) → good (h ++ [mk_event c r]) →
  ∀ j t, <[i := mk_thread (h ++ [mk_event c r]) (k r)]> ts !! j = Some t →
    good (th_history t) ∧ always C (Q j) (th_history t) (th_prog t).
Proof.
  intros Hts Hi Hg j t Hj. destruct (decide (i = j)) as [<-|Hne].
  - rewrite list_lookup_insert_eq in Hj by (by eapply lookup_lt_Some). injection Hj as <-. split; [done|].
    destruct (Hts _ _ Hi) as [_ [_ Ha]]. apply Ha.
  - rewrite list_lookup_insert_ne in Hj by done. by apply (Hts j).
Qed.

Lemma service_ok_step s s' : service_ok s → service_step s s' → service_ok s'.
Proof.
  intros [Hw Hl Ht] Hstep.
  destruct Hstep as [w late ts i h c k r w' Hi Hr He|w late ts i h c k r w' Hi He|w late ts i h c k e Hi Ho
                    |w late1 c late2 ts|w w' late ts Hsame|w late ts]; simpl in *.
  - destruct (Ht _ _ Hi) as [Hg [Hc Ha]]. pose proof (Hexec h c w Hg Hc Hw) as [Hw' Hg'].
    rewrite He in Hw', Hg'. simpl in *. split; simpl; [done..|]. by eapply service_ok_reply.
  - destruct (Ht _ _ Hi) as [Hg [Hc Ha]]. pose proof (Hglitch h c w r w' Hg Hc Hw He) as [Hw' Hg'].
    split; simpl; [done..|]. by eapply service_ok_reply.
  - destruct (Ht _ _ Hi) as [Hg [Hc Ha]]. split; simpl; [done| |].
    + intros c' [->|Hin]%elem_of_cons; [by exists h|by apply Hl].
    + eapply service_ok_reply; [done..|]. by apply Hlate.
  - destruct (Hl c) as (h & Hg & Hc); [by apply elem_of_app; right; left|]. split; simpl; [|intros c' [?|?]%elem_of_app; apply Hl, elem_of_app; [by left|by right; right]|done].
    by apply (Hexec h c w Hg Hc Hw).
  - split; simpl; [by eapply Helse|done..].
  - split; simpl; [by apply Hrestart|by intros c ?%elem_of_nil|].
    intros i t Hi. rewrite list_lookup_fmap in Hi. apply fmap_Some in Hi as (u & Hu & ->).
    destruct (Ht _ _ Hu) as [Hg _]. split; [done|]. simpl. apply Hcut.
Qed.

Lemma service_begins w ps :
  I w → good [] → (∀ i p, ps !! i = Some p → always C (Q i) [] p) → service_ok (mk_service w [] (begin <$> ps)).
Proof.
  intros Hw Hg Hps. split; simpl; [done|by intros c ?%elem_of_nil|]. intros i t Hi.
  rewrite list_lookup_fmap in Hi. apply fmap_Some in Hi as (p & Hp & ->). split; [done|by apply Hps].
Qed.

(** Programs that always keep to [C], under a world that keeps [I]. *)
Theorem service_always w ps s :
  I w → good [] → (∀ i p, ps !! i = Some p → always C (Q i) [] p) →
  rtc service_step (mk_service w [] (begin <$> ps)) s → service_ok s.
Proof.
  intros Hw Hg Hps Hrun. pose proof (service_begins w ps Hw Hg Hps) as Hs. clear Hps.
  induction Hrun; [done|]. apply IHHrun. by eapply service_ok_step.
Qed.
(** ** What is held by one at a time *)

(** Calls that take something: they succeed only where it is free, and leave
    it taken. Calls that give it back are made by the request that took it. *)
Section Lease.
Context (takes : Event K → Prop) (gives : K → bool) (taken : World K → Prop).

(** It took it, and has not begun to give it back. *)
Definition holds_lease (h : list (Event K)) : Prop :=
  ∃ h1 ev h2, h = h1 ++ ev :: h2 ∧ takes ev ∧ Forall (λ e, gives (ev_call e) = false) h2.

Context (Htake : ∀ h c w r w', good h → C h c → I w → may_do c w r w' → takes (mk_event c r) →
  gives c = false ∧ ¬ taken w ∧ taken w').
Context (Hkeep : ∀ h c w r w', good h → C h c → I w → may_do c w r w' → gives c = false → taken w → taken w').
Context (Hgive : ∀ h c, good h → C h c → gives c = true → holds_lease h).
Context (Hnone : ∀ h c e, good h → C h c → outlives c → ¬ takes (mk_event c (Err e))).
Context (Htaken_else : ∀ w w', elsewhere w w' → taken w → taken w').
Context (Htaken_restart : ∀ w, taken w → taken (restarted w)).

Lemma holds_lease_last h ev :
  holds_lease (h ++ [ev]) → takes ev ∨ (holds_lease h ∧ gives (ev_call ev) = false).
Proof.
  intros (h1 & e & h2 & Heq & Ht & Hf). destruct h2 as [|e2 h2 _] using rev_ind.
  - apply app_inj_tail in Heq as [_ ->]. by left.
  - rewrite app_comm_cons, app_assoc in Heq. apply app_inj_tail in Heq as [-> ->].
    apply Forall_app in Hf as [Hf Hl]. apply Forall_cons in Hl as [Hl _]. right. split; [by exists h1, e, h2|exact Hl].
Qed.

Lemma holds_lease_take h ev : takes ev → holds_lease (h ++ [ev]).
Proof. intros Ht. by exists h, ev, []. Qed.
Lemma holds_lease_keep h ev : holds_lease h → gives (ev_call ev) = false → holds_lease (h ++ [ev]).
Proof.
  intros (h1 & e & h2 & -> & Ht & Hf) Hg. exists h1, e, (h2 ++ [ev]). rewrite <- app_assoc. split; [done|].
  split; [done|]. apply Forall_app. split; [done|]. by apply Forall_cons.
Qed.

(** At most one request holds it, or one call given up on may still give it
    back; and then it is taken. *)
Record lease_ok (s : Service K A) : Prop := {
  lease_one : ∀ i j t u, sv_threads s !! i = Some t → sv_threads s !! j = Some u →
    holds_lease (th_history t) → holds_lease (th_history u) → i = j;
  lease_held : ∀ i t, sv_threads s !! i = Some t → holds_lease (th_history t) →
    taken (sv_world s) ∧ ∀ c, c ∈ sv_late s → gives c = false;
  lease_late : ∀ l1 c l2, sv_late s = l1 ++ c :: l2 → gives c = true →
    taken (sv_world s) ∧ ∀ c', c' ∈ l1 ++ l2 → gives c' = false;
}.

Section Reply.
Context (w w' : World K) (late : list K) (ts : list (Thread K A)) (i : nat) (h : list (Event K)) (c : K).
Context (k : result AppError (Reply c) → Prog K A) (r : result AppError (Reply c)).
Context (Hok : lease_ok (mk_service w late ts)) (Hi : ts !! i = Some (mk_thread h (Do c k))).
Let new := mk_thread (h ++ [mk_event c r]) (k r).

Lemma reply_lookup j t : <[i := new]> ts !! j = Some t → (j = i ∧ t = new) ∨ (j ≠ i ∧ ts !! j = Some t).
Proof.
  intros Hj. destruct (decide (i = j)) as [<-|Hne].
  - rewrite list_lookup_insert_eq in Hj by (by eapply lookup_lt_Some). injection Hj as <-. by left.
  - rewrite list_lookup_insert_ne in Hj by done. by right.
Qed.

Lemma lease_replied :
  gives c = false → (taken w → taken w') → (takes (mk_event c r) → ¬ taken w ∧ taken w') →
  lease_ok (mk_service w' late (<[i := new]> ts)).
Proof.
  intros Hg Hk Ht. destruct Hok as [H1 H2 H3]. simpl in *.
  assert (∀ j t, j ≠ i → ts !! j = Some t → holds_lease (th_history t) → holds_lease (th_history new) → False) as Hother.
  { intros j t Hne Hj Hh [Htk|[Hold _]]%holds_lease_last.
    - apply Ht in Htk as [Hn _]. by apply Hn, (H2 j t).
    - apply Hne. by apply (H1 _ _ _ _ Hj Hi Hh). }
  split; simpl.
  - intros j1 j2 t u [[-> ->]|[Hn1 Hj1]]%reply_lookup [[-> ->]|[Hn2 Hj2]]%reply_lookup Hs1 Hs2;
      [done| | |by apply (H1 _ _ t u)].
    + by destruct (Hother j2 u).
    + by destruct (Hother j1 t).
  - intros j t [[-> ->]|[_ Hj]]%reply_lookup Hh.
    + apply holds_lease_last in Hh as [Htk|[Hold _]].
      * apply Ht in Htk as [Hn Hw]. split; [done|]. intros c' Hin. apply not_true_iff_false. intros Hgc.
        apply list_elem_of_split in Hin as (l1 & l2 & ->). by apply Hn, (H3 l1 c' l2).
      * destruct (H2 i _ Hi Hold) as [Hw Hl]. split; [by apply Hk|done].
    + destruct (H2 j t Hj Hh) as [Hw Hl]. split; [by apply Hk|done].
  - intros l1 c' l2 Heq Hgc. destruct (H3 l1 c' l2 Heq Hgc) as [Hw Hl]. split; [by apply Hk|done].
Qed.

(** Given back, or given up on: nobody holds it. *)
Lemma lease_gave late' :
  holds_lease h → gives c = true → ¬ takes (mk_event c r) → late' = late ∨ (late' = c :: late ∧ w' = w) →
  lease_ok (mk_service w' late' (<[i := new]> ts)).
Proof.
  intros Hh Hg Hnt Hl. destruct Hok as [H1 H2 H3]. simpl in *. destruct (H2 i _ Hi Hh) as [Hw Hfree].
  assert (∀ j t, <[i := new]> ts !! j = Some t → ¬ holds_lease (th_history t)) as Hnone'.
  { intros j t [[-> ->]|[Hne Hj]]%reply_lookup Hht.
    - apply holds_lease_last in Hht as [Htk|[_ Hgf]]; [done|]. simpl in Hgf. congruence.
    - by apply Hne, (H1 _ _ _ _ Hj Hi). }
  split; simpl.
  - intros j1 j2 t u Hj1 _ Hs1. by destruct (Hnone' _ _ Hj1).
  - intros j t Hj Hs. by destruct (Hnone' _ _ Hj).
  - intros l1 c' l2 Heq Hgc. destruct Hl as [->|[-> ->]].
    + rewrite (Hfree c') in Hgc; [done|]. rewrite Heq. apply elem_of_app. right. by left.
    + destruct l1 as [|c1 l1]; injection Heq as -> Heq; [by rewrite <- Heq|].
      rewrite (Hfree c') in Hgc; [done|]. rewrite Heq. apply elem_of_app. right. by left.
Qed.
End Reply.

Lemma lease_ok_step s s' : service_ok s → lease_ok s → service_step s s' → lease_ok s'.
Proof.
  intros [Hw Hl Ht] Hok Hstep. pose proof Hok as [H1 H2 H3].
  destruct Hstep as [w late ts i h c k r w' Hi Hr He|w late ts i h c k r w' Hi He|w late ts i h c k e Hi Hout
                    |w late1 c late2 ts|w w' late ts Hsame|w late ts]; simpl in *.
  1,2: destruct (Ht _ _ Hi) as [Hgood [Hc _]];
    assert (may_do c w r w') as Hm by (unfold may_do; tauto);
    (destruct (gives c) eqn:Hg;
      [eapply lease_gave; [done..|by apply Hgive with c|done| |by left];
        intros Htk; destruct (Htake h c w r w' Hgood Hc Hw Hm Htk); congruence
      |eapply lease_replied; [done..|by eapply Hkeep|];
        intros Htk; by destruct (Htake h c w r w' Hgood Hc Hw Hm Htk) as (_ & ? & ?)]).
  - destruct (Ht _ _ Hi) as [Hgood [Hc _]]. pose proof (Hnone h c e Hgood Hc Hout) as Hnt.
    destruct (gives c) eqn:Hg.
    + eapply lease_gave; [done..|by apply Hgive with c|done|done|by right].
    + assert (lease_ok (mk_service w late (<[i := mk_thread (h ++ [mk_event c (Err e)]) (k (Err e))]> ts))) as [K1 K2 K3].
      { by eapply lease_replied. }
      simpl in *. split; simpl; [done| |].
      * intros j t Hj Hh. destruct (K2 j t Hj Hh) as [Hw' Hl']. split; [done|]. intros c' [->|Hin]%elem_of_cons; [done|by apply Hl'].
      * intros [|c1 l1] c' l2 Heq Hgc; injection Heq as -> Heq; [congruence|].
        destruct (K3 l1 c' l2 Heq Hgc) as [Hw' Hl']. split; [done|].
        simpl. intros c2 [->|Hin]%elem_of_cons; [done|by apply Hl'].
  - destruct (Hl c) as (h & Hgood & Hc); [apply elem_of_app; right; by left|].
    assert (may_do c w (exec c w).1 (exec c w).2) as Hm by (left; apply surjective_pairing).
    assert (∀ c', c' ∈ late1 ++ late2 → c' ∈ late1 ++ c :: late2) as Hsub.
    { intros c'. rewrite !elem_of_app, elem_of_cons. tauto. }
    destruct (gives c) eqn:Hg.
    + destruct (H3 late1 c late2 eq_refl Hg) as [_ Hrest].
      assert (∀ i t, ts !! i = Some t → ¬ holds_lease (th_history t)) as Hnh.
      { intros i t Hi Hh. destruct (H2 i t Hi Hh) as [_ Hf]. rewrite (Hf c) in Hg; [done|].
        apply elem_of_app. right. by left. }
      split; simpl.
      * intros i j t u Hi _ Hh. by destruct (Hnh _ _ Hi).
      * intros i t Hi Hh. by destruct (Hnh _ _ Hi).
      * intros l1 c' l2 Heq Hgc. rewrite (Hrest c') in Hgc; [done|]. rewrite Heq. apply elem_of_app. right. by left.
    + assert (taken w → taken (exec c w).2) as Hk by (by eapply Hkeep).
      split; simpl; [done| |].
      * intros i t Hi Hh. destruct (H2 i t Hi Hh) as [Hw' Hf]. split; [by apply Hk|]. intros c' ?. by apply Hf, Hsub.
      * intros l1 c' l2 Heq Hgc. assert (c' ∈ late1 ++ c :: late2) as Hin.
        { apply Hsub. rewrite Heq. apply elem_of_app. right. by left. }
        assert (∃ m1 m2, late1 ++ c :: late2 = m1 ++ c' :: m2 ∧ ∀ x, x ∈ l1 ++ l2 → x ∈ m1 ++ m2) as (m1 & m2 & Hm' & Hx).
        { apply app_eq_app in Heq as (d & [[-> Hd]|[-> Hd]]).
          - destruct d as [|d0 d]; simpl in Hd.
            + subst late2. exists (l1 ++ [c]), l2. split; [by rewrite app_nil_r, <- app_assoc|].
              intros x. rewrite !elem_of_app. tauto.
            + injection Hd as <- ->. exists l1, (d ++ c :: late2). rewrite <- app_assoc. split; [done|].
              intros x. rewrite !elem_of_app, elem_of_cons. tauto.
          - subst late2. exists (late1 ++ c :: d), l2. split; [by rewrite <- app_assoc|].
            intros x. rewrite !elem_of_app, elem_of_cons. tauto. }
        destruct (H3 m1 c' m2 Hm' Hgc) as [Hw' Hf]. split; [by apply Hk|]. intros x ?. by apply Hf, Hx.
  - split; simpl; [done| |].
    + intros i t Hi Hh. destruct (H2 i t Hi Hh). split; [by eapply Htaken_else|done].
    + intros l1 c l2 Heq Hg. destruct (H3 l1 c l2 Heq Hg). split; [by eapply Htaken_else|done].
  - assert (∀ i t, (cut_off <$> ts) !! i = Some t → ∃ u, ts !! i = Some u ∧ t = cut_off u) as Hat.
    { intros i t Hi. rewrite list_lookup_fmap in Hi. apply fmap_Some in Hi as (u & Hu & ->). by exists u. }
    split; cbn [sv_late sv_threads sv_world].
    + intros i j t u (t' & Hi & ->)%Hat (u' & Hj & ->)%Hat. exact (H1 i j _ _ Hi Hj).
    + intros i t (u & Hi & ->)%Hat Hh. destruct (H2 i u Hi Hh) as [Hw' _]. split; [by apply Htaken_restart|].
      by intros c ?%elem_of_nil.
    + intros [|] c l2 Heq; done.
Qed.

Theorem service_lease w ps s :
  I w → good [] → (∀ i p, ps !! i = Some p → always C (Q i) [] p) →
  rtc service_step (mk_service w [] (begin <$> ps)) s → service_ok s ∧ lease_ok s.
Proof.
  intros Hw Hg Hps Hrun. pose proof (service_begins w ps Hw Hg Hps) as Hs.
  assert (lease_ok (mk_service w [] (begin <$> ps))) as Hl.
  { assert (∀ i t, (begin <$> ps) !! i = Some t → ¬ holds_lease (th_history t)) as Hn.
    { intros i t Hi. rewrite list_lookup_fmap in Hi. apply fmap_Some in Hi as (p & _ & ->).
      by intros ([|] & ev & h2 & ? & _). }
    split; simpl; [intros i j t u Hi _ Hh|intros i t Hi Hh|by intros [|]]; by destruct (Hn _ _ Hi). }
  clear Hps. induction Hrun; [done|]. apply IHHrun; [by eapply service_ok_step|by eapply lease_ok_step].
Qed.
End Lease.

(** ** What there is no more of *)

(** Something the world has, late calls may bring, and requests hold: no step
    makes more of it. *)
Section Weight.
Context (of_world : World K → nat) (of_late : K → nat) (of_history : list (Event K) → nat).
Context (Wdo : ∀ h c w r w', good h → C h c → I w → may_do c w r w' →
  (of_world w' + of_history (h ++ [mk_event c r]) ≤ of_world w + of_history h)%nat).
Context (Wlate : ∀ h c e, good h → C h c → outlives c → (of_late c + of_history (h ++ [mk_event c (Err e)]) ≤ of_history h)%nat).
Context (Wland : ∀ h c w, good h → C h c → I w → (of_world (exec c w).2 ≤ of_world w + of_late c)%nat).
Context (Welse : ∀ w w', elsewhere w w' → (of_world w' ≤ of_world w)%nat).
Context (Wrestart : ∀ w, (of_world (restarted w) ≤ of_world w)%nat).

Definition weight_of (ts : list (Thread K A)) : nat := sum_list_with (λ t, of_history (th_history t)) ts.
Definition weight (s : Service K A) : nat := (of_world (sv_world s) + sum_list_with of_late (sv_late s) + weight_of (sv_threads s))%nat.

Lemma weight_of_insert ts i t u : ts !! i = Some t →
  (weight_of (<[i := u]> ts) + of_history (th_history t) = weight_of ts + of_history (th_history u))%nat.
Proof.
  intros Hi. rewrite <- (take_drop_middle ts i t Hi) at 2. rewrite insert_take_drop by (by eapply lookup_lt_Some).
  unfold weight_of. rewrite !sum_list_with_app. simpl. lia.
Qed.

Lemma weight_step s s' : service_ok s → service_step s s' → (weight s' ≤ weight s)%nat.
Proof.
  intros [Hw Hl Ht] Hstep. unfold weight.
  destruct Hstep as [w late ts i h c k r w' Hi Hr He|w late ts i h c k r w' Hi He|w late ts i h c k e Hi Ho
                    |w late1 c late2 ts|w w' late ts Hsame|w late ts]; cbn [sv_world sv_late sv_threads] in *.
  1,2: destruct (Ht _ _ Hi) as [Hg [Hc _]]; assert (may_do c w r w') as Hm by (unfold may_do; tauto);
    pose proof (Wdo h c w r w' Hg Hc Hw Hm);
    pose proof (weight_of_insert ts i _ (mk_thread (h ++ [mk_event c r]) (k r)) Hi); cbn [th_history] in *; lia.
  - destruct (Ht _ _ Hi) as [Hg [Hc _]]. pose proof (Wlate h c e Hg Hc Ho).
    pose proof (weight_of_insert ts i _ (mk_thread (h ++ [mk_event c (Err e)]) (k (Err e))) Hi). cbn [th_history] in *. simpl. lia.
  - destruct (Hl c) as (h & Hg & Hc); [apply elem_of_app; right; by left|]. pose proof (Wland h c w Hg Hc Hw).
    rewrite !sum_list_with_app. simpl. lia.
  - pose proof (Welse _ _ Hsame). lia.
  - pose proof (Wrestart w). simpl. assert (weight_of (cut_off <$> ts) = weight_of ts) as ->; [|lia].
    unfold weight_of. clear. induction ts as [|u ts IH]; [done|]. rewrite fmap_cons. cbn [sum_list_with cut_off th_history]. by rewrite IH.
Qed.

Lemma weight_begins w (ps : list (Prog K A)) : of_history [] = 0%nat → weight (mk_service w [] (begin <$> ps)) = of_world w.
Proof.
  intros Hn. unfold weight, weight_of. cbn [sv_world sv_late sv_threads]. simpl.
  induction ps as [|p ps IH]; [simpl; lia|]. rewrite fmap_cons. cbn [sum_list_with begin th_history]. lia.
Qed.

Lemma weight_two s i j t u : i ≠ j → sv_threads s !! i = Some t → sv_threads s !! j = Some u →
  (of_history (th_history t) + of_history (th_history u) ≤ weight s)%nat.
Proof.
  intros Hne Hi Hj. unfold weight. assert (of_history (th_history t) + of_history (th_history u) ≤ weight_of (sv_threads s))%nat; [|lia].
  rewrite <- (take_drop_middle _ i t Hi) in Hj |- *.
  unfold weight_of. rewrite sum_list_with_app. simpl.
  assert (∀ (l : list (Thread K A)) n, l !! n = Some u → of_history (th_history u) ≤ weight_of l)%nat as Hin.
  { intros l n Hn. rewrite <- (take_drop_middle l n u Hn). unfold weight_of. rewrite sum_list_with_app. simpl. lia. }
  pose proof (lookup_lt_Some _ _ _ Hi) as Hlt.
  apply lookup_app_Some in Hj as [Hj|[Hle Hj]].
  - apply Hin in Hj. unfold weight_of in Hj. lia.
  - rewrite length_take_le in Hj, Hle by lia. destruct (j - i)%nat as [|n] eqn:Hn; [lia|]. simpl in Hj.
    apply Hin in Hj. unfold weight_of in Hj. lia.
Qed.

(** At most one request has one, where there was one. *)
Theorem service_weight w ps s i j t u :
  I w → good [] → of_history [] = 0%nat → (of_world w ≤ 1)%nat → (∀ n p, ps !! n = Some p → always C (Q n) [] p) →
  rtc service_step (mk_service w [] (begin <$> ps)) s →
  sv_threads s !! i = Some t → sv_threads s !! j = Some u →
  (0 < of_history (th_history t))%nat → (0 < of_history (th_history u))%nat → i = j.
Proof.
  intros Hw Hg Hn H1 Hps Hrun Hi Hj Ht Hu.
  pose proof (service_begins w ps Hw Hg Hps) as Hs. pose proof (weight_begins w ps Hn) as Hb.
  assert (∀ s0 s', rtc service_step s0 s' → service_ok s0 → (weight s0 ≤ 1)%nat → (weight s' ≤ 1)%nat) as Hkeep.
  { induction 1 as [|s1 s2 s3 H12 _ IH]; [done|]. intros Hok Hle. pose proof (weight_step _ _ Hok H12).
    apply IH; [by eapply service_ok_step|lia]. }
  assert (weight s ≤ 1)%nat as Hle by (apply (Hkeep _ _ Hrun Hs); lia).
  destruct (decide (i = j)) as [|Hne]; [done|]. pose proof (weight_two s i j t u Hne Hi Hj). lia.
Qed.
End Weight.
End Runs.

(** ** What happens once *)

(** A lease never given back. *)
Lemma service_once {A} (C : list (Event K) → K → Prop) (spends : Event K → Prop) (spent : World K → Prop)
    w (ps : list (Prog K A)) s i j t u :
  (∀ h c w r w', C h c → may_do c w r w' → spends (mk_event c r) → ¬ spent w ∧ spent w') →
  (∀ h c w r w', C h c → may_do c w r w' → spent w → spent w') →
  (∀ h c e, C h c → outlives c → ¬ spends (mk_event c (Err e))) →
  (∀ w w', elsewhere w w' → spent w → spent w') →
  (∀ w, spent w → spent (restarted w)) →
  Forall (always C (λ _ _, True) []) ps →
  rtc service_step (mk_service w [] (begin <$> ps)) s →
  sv_threads s !! i = Some t → sv_threads s !! j = Some u →
  Exists spends (th_history t) → Exists spends (th_history u) → i = j.
Proof.
  intros Hspend Hspent Hlate Helse Hrestart Hps Hrun Hi Hj Hti Huj.
  assert (lease_ok spends (λ _ : K, false) spent s) as Hl.
  { eapply (service_lease (λ _, True) (λ _, True) C (λ _ _ _, True)); [..|exact Hrun]; try done.
    - intros h c w1 r w2 _ Hc _ Hm Hs. split; [done|]. by apply (Hspend h c w1 r w2).
    - intros h c w1 r w2 _ Hc _ Hm _. by apply (Hspent h c w1 r w2).
    - intros h c e _ Hc. by apply (Hlate h).
    - intros n p Hn. rewrite Forall_lookup in Hps. by apply (Hps n). }
  assert (∀ h, Exists spends h → holds_lease spends (λ _ : K, false) h) as Hh.
  { intros h (ev & Hin & Hs)%Exists_exists. apply list_elem_of_split in Hin as (h1 & h2 & ->).
    exists h1, ev, h2. split; [done|]. split; [done|]. by apply Forall_true. }
  by apply (lease_one _ _ _ _ Hl i j t u); [..|apply Hh|apply Hh].
Qed.

(** ** One program's runs *)

(** The calls a program has made, and what is left of it. *)
Inductive traced {A} : Prog K A → list (Event K) → Prog K A → Prop :=
| traced_start p : traced p [] p
| traced_call p h c k r : traced p h (Do c k) → traced p (h ++ [mk_event c r]) (k r).

Definition next_call {A} (p : Prog K A) : option K := match p with Do c _ => Some c | Ret _ => None end.

Lemma always_next {A} C Q h (p : Prog K A) c : always C Q h p → next_call p = Some c → C h c.
Proof. destruct p as [r|c' k]; [done|]. by intros [Hc _] [= <-]. Qed.

(** The program [n] calls on, nothing failing. *)
Fixpoint advance {A} (n : nat) (h : list (Event K)) (p : Prog K A) (w : World K) : list (Event K) * Prog K A :=
  match n, p with
  | S n, Do c k => let '(r, w') := exec c w in advance n (h ++ [mk_event c r]) (k r) w'
  | _, _ => (h, p)
  end.

Lemma advance_traced {A} (p : Prog K A) n w : traced p (advance n [] p w).1 (advance n [] p w).2.
Proof.
  assert (∀ n h q w, traced p h q → traced p (advance n h q w).1 (advance n h q w).2) as Hg; [|apply Hg, traced_start].
  clear. intros n. induction n as [|n IH]; intros h [r|c k] w Ht; simpl; [done..|].
  destruct (exec c w) as [r w']. apply IH. by apply traced_call.
Qed.

(** A schedule: whose call is done next. *)
Definition serve_one {A} (s : Service K A) (i : nat) : Service K A :=
  match sv_threads s !! i with
  | Some (mk_thread h (Do c k)) =>
      if negb (ready c (sv_world s)) then s else
      mk_service (exec c (sv_world s)).2 (sv_late s)
        (<[i := mk_thread (h ++ [mk_event c (exec c (sv_world s)).1]) (k (exec c (sv_world s)).1)]> (sv_threads s))
  | _ => s
  end.
Definition serve {A} (s : Service K A) (schedule : list nat) : Service K A := fold_left serve_one schedule s.

Lemma serve_one_step {A} (s : Service K A) i :
  sv_late (serve_one s i) = sv_late s ∧ (serve_one s i = s ∨ service_step s (serve_one s i)).
Proof.
  destruct s as [w late ts]. unfold serve_one. cbn [sv_threads sv_world sv_late].
  destruct (ts !! i) as [[h [r|c k]]|] eqn:Hi; [by auto| |by auto]. destruct (ready c w) eqn:Hr; [|by auto]. split; [done|]. right.
  eapply step_done; [done..|]. by destruct (exec c w).
Qed.
(** Nothing is given up on. *)
Lemma serve_within {A} (s : Service K A) schedule :
  rtc (λ s1 s2, service_step s1 s2 ∧ sv_late s2 = sv_late s) s (serve s schedule).
Proof.
  set (late := sv_late s). assert (sv_late s = late) as Hs by done. clearbody late. revert s Hs.
  induction schedule as [|i rest IH]; intros s Hs; [done|]. destruct (serve_one_step s i) as [Hl [He|Hstep]]; simpl.
  - rewrite He. by apply IH.
  - eapply rtc_l; [split; [exact Hstep|congruence]|]. apply IH. congruence.
Qed.
Lemma serve_steps {A} (s : Service K A) schedule : rtc service_step s (serve s schedule).
Proof. eapply rtc_subrel; [|apply serve_within]. by intros ? ? []. Qed.

Lemma traced_always {A} C Q (p : Prog K A) h p' : traced p h p' → always C Q [] p → always C Q h p'.
Proof. induction 1 as [p|p h c k r _ IH]; [done|]. intros [_ Hk]%IH. apply Hk. Qed.

(** Each call made was allowed where it was made. *)
Lemma traced_event {A} C Q (p : Prog K A) h p' ev :
  traced p h p' → always C Q [] p → ev ∈ h → ∃ h1, h1 `prefix_of` h ∧ C h1 (ev_call ev).
Proof.
  intros Ht Ha. revert ev. induction Ht as [p|p h c k r Ht IH]; intros ev; [by intros ?%elem_of_nil|].
  intros [Hin|Hin]%elem_of_app.
  - destruct (IH Ha ev Hin) as (h1 & Hp & Hc). exists h1. split; [by apply prefix_app_r|done].
  - apply list_elem_of_singleton in Hin as ->. exists h. split; [by apply prefix_app_r|].
    by destruct (traced_always _ _ _ _ _ Ht Ha).
Qed.

(** A request has made the calls its program makes, and goes on with it unless
    it was cut off. *)
Lemma service_follows {A} w (ps : list (Prog K A)) s i t :
  rtc service_step (mk_service w [] (begin <$> ps)) s → sv_threads s !! i = Some t →
  ∃ p p', ps !! i = Some p ∧ traced p (th_history t) p' ∧ (th_prog t = p' ∨ ∃ r, th_prog t = Ret r).
Proof.
  set (follows := λ (ts : list (Thread K A)), ∀ i t, ts !! i = Some t → ∃ p p', ps !! i = Some p ∧ traced p (th_history t) p'
    ∧ (th_prog t = p' ∨ ∃ r, th_prog t = Ret r)).
  assert (∀ ts i h c k r, follows ts → ts !! i = Some (mk_thread h (Do c k)) →
    follows (<[i := mk_thread (h ++ [mk_event c r]) (k r)]> ts)) as Hnext.
  { intros ts j h c k r Hf Hj m u Hm. destruct (decide (j = m)) as [<-|Hne].
    - rewrite list_lookup_insert_eq in Hm by (by eapply lookup_lt_Some). injection Hm as <-.
      destruct (Hf _ _ Hj) as (p & p' & Hp & Ht & [<-|[r' Hr]]); [|discriminate Hr].
      exists p, (k r). split; [done|]. split; [by apply traced_call|by left].
    - rewrite list_lookup_insert_ne in Hm by done. by apply Hf. }
  assert (∀ s0 s', rtc service_step s0 s' → follows (sv_threads s0) → follows (sv_threads s')) as Hkeep.
  { induction 1 as [|s1 s2 s3 H12 _ IH]; [done|]. intros Hf. apply IH. clear IH.
    destruct H12; simpl in *; try done; try (by apply Hnext).
    intros j u Hj. rewrite list_lookup_fmap in Hj. apply fmap_Some in Hj as (v & Hv & ->).
    destruct (Hf _ _ Hv) as (p & p' & Hp & Ht & _). exists p, p'. split; [done|]. split; [done|]. right. by eexists. }
  intros Hrun Hi. apply (Hkeep _ _ Hrun) with (i := i) (t := t); [|done].
  intros j u Hj. simpl in Hj. rewrite list_lookup_fmap in Hj. apply fmap_Some in Hj as (p & Hp & ->).
  exists p, p. split; [done|]. split; [apply traced_start|by left].
Qed.
Lemma service_traced {A} w (ps : list (Prog K A)) s i t :
  rtc service_step (mk_service w [] (begin <$> ps)) s → sv_threads s !! i = Some t →
  ∃ p p', ps !! i = Some p ∧ traced p (th_history t) p'.
Proof. intros Hrun Hi. destruct (service_follows _ _ _ _ _ Hrun Hi) as (p & p' & ? & ? & _). by exists p, p'. Qed.

(** A postcondition that asks nothing of a failure. *)
Definition lenient {A} (Q : list (Event K) → result AppError A → Prop) : Prop := ∀ h e, Q h (Err e).
(** What holds of an answer. *)
Definition ok_then {A} (P : list (Event K) → A → Prop) (h : list (Event K)) (r : result AppError A) : Prop :=
  match r with Ok a => P h a | Err _ => True end.

Lemma lenient_ok_then {A} (P : list (Event K) → A → Prop) : lenient (ok_then P).
Proof. done. Qed.
Lemma lenient_then {A B} C (Q : list (Event K) → result AppError B → Prop) (f : A → Prog K B) :
  lenient Q → lenient (and_then C Q f).
Proof. intros HQ h e. apply HQ. Qed.
Lemma lenient_true {A} : @lenient A (λ _ _, True).
Proof. done. Qed.
#[local] Hint Resolve lenient_then lenient_true lenient_ok_then : core.

(** One program after another. *)
Lemma always_seq {A B} C (P : list (Event K) → A → Prop) Q (p : Prog K A) (f : A → Prog K B) h :
  lenient Q → always C (ok_then P) h p →
  (∀ a h', h `prefix_of` h' → P h' a → always C Q h' (f a)) → always C Q h (p ≫= f).
Proof.
  intros HQ Hp Hf. apply always_bind. eapply always_impl; [|exact Hp].
  intros h' [a|e]; simpl; [|intros; apply HQ]. intros HP. apply Hf; [by apply prefix_app_r|done].
Qed.

(** A program keeps to what its rules allow. *)
Lemma always_allows {A} (C C' : list (Event K) → K → Prop) (Q : list (Event K) → result AppError A → Prop) h p :
  (∀ h c, C h c → C' h c) → always C Q h p → always C' Q h p.
Proof.
  intros HC. revert h. induction p as [r|c k IH]; intros h; [done|]. intros [Hc Hk].
  split; [by apply HC|]. intros r. apply IH, Hk.
Qed.

Lemma always_any {A} (p : Prog K A) h : always (λ _ _, True) (ok_then (λ _ _, True)) h p.
Proof. revert h. induction p as [[]|c k IH]; intros h; [done..|]. split; [done|]. intros r. apply IH. Qed.
Lemma always_both {A} C Q C' Q' (p : Prog K A) h :
  always C Q h p → always C' Q' h p → always (λ h c, C h c ∧ C' h c) (λ h r, Q h r ∧ Q' h r) h p.
Proof.
  revert h. induction p as [r|c k IH]; intros h; [done|]. intros [Hc Hk] [Hc' Hk'].
  split; [done|]. intros r. by apply IH.
Qed.

(** What holds of its calls so far goes on holding. *)
Lemma always_track {A} C Q (G : list (Event K) → Prop) (p : Prog K A) h :
  (∀ h c r, G h → C h c → G (h ++ [mk_event c r])) →
  G h → always C Q h p → always C (λ h r, Q h r ∧ G h) h p.
Proof.
  intros HG. revert h. induction p as [r|c k IH]; intros h Hh; [done|]. intros [Hc Hk].
  split; [done|]. intros r. by apply IH; [apply HG|].
Qed.

Section Lenient.
Context {A : Type} (C : list (Event K) → K → Prop) (Q : list (Event K) → result AppError A → Prop) (HQ : lenient Q).

Lemma always_lift_ok {B} (r : result AppError B) (f : B → Prog K A) h :
  (∀ a, r = Ok a → always C Q h (f a)) → always C Q h (lift r ≫= f).
Proof. intros Hf. apply always_lift; [done|intros; apply HQ]. Qed.

Lemma always_refuse (b : bool) e (f : () → Prog K A) h :
  (b = false → always C Q h (f ())) → always C Q h (refuse_if b e ≫= f).
Proof. intros Hf. apply always_lift_ok. intros [] ->%guard_ok. by apply Hf. Qed.

Lemma always_call_ok c (f : Reply c → Prog K A) h :
  C h c → (∀ a, always C Q (h ++ [mk_event c (Ok a)]) (f a)) → always C Q h (call c ≫= f).
Proof. intros Hc Hf. apply always_call; [done..|]. intros. apply HQ. Qed.

Lemma always_best_effort c (f : () → Prog K A) h :
  C h c → (∀ r, always C Q (h ++ [mk_event c r]) (f ())) → always C Q h (best_effort c ≫= f).
Proof. intros Hc Hf. by split. Qed.
End Lenient.

Lemma run_bind {A B} (p : Prog K A) (f : A → Prog K B) w :
  run (p ≫= f) w = match run p w with (Ok a, w') => run (f a) w' | (Err e, w') => (Err e, w') end.
Proof.
  revert w. induction p as [[a|e]|c k IH]; intros w; simpl; [done..|].
  destruct (exec c w) as [r w']. apply IH.
Qed.
Lemma run_then {A B} (p : Prog K A) (f : result AppError A → Prog K B) w :
  run (then_do p f) w = let '(r, w') := run p w in run (f r) w'.
Proof.
  revert w. induction p as [r|c k IH]; intros w; simpl; [done|]. destruct (exec c w) as [r w']. apply IH.
Qed.

(** *** Steps that may end a request with a refusal *)

(** What holds of what is not refused. *)
Definition accepted_then {E A} (P : list (Event K) → A → Prop) (h : list (Event K)) (r : result AppError (result E A)) : Prop :=
  match r with Ok (Ok a) => P h a | _ => True end.

Lemma attempt_seq {E A B} C (P : list (Event K) → A → Prop) (Q : list (Event K) → B → Prop) (p : Prog K (result E A))
    (f : A → Prog K (result E B)) h :
  always C (accepted_then P) h p → (∀ a h', h `prefix_of` h' → P h' a → always C (accepted_then Q) h' (f a)) →
  always C (accepted_then Q) h (attempt_bind p f).
Proof.
  intros Hp Hf. unfold attempt_bind. apply (always_bind (A := result E A)). eapply always_impl; [|exact Hp].
  intros h' [[a|e]|e]; simpl; [|done..]. intros HP. apply Hf; [by apply prefix_app_r|done].
Qed.
Lemma settled_ok {E A} C h (r : result E A) : always C (accepted_then (λ _ a, r = Ok a)) h (settled r).
Proof. by destruct r. Qed.
Lemma refused_ok {E} C h (b : bool) (e : E) : always C (accepted_then (λ _ _, b = false)) h (refuse_when b e).
Proof. by destruct b. Qed.
Lemma attempted_ok {E A} C (P : list (Event K) → A → Prop) (f : AppError → E) h (p : Prog K A) :
  always C (ok_then P) h p → always C (accepted_then P) h (or_refuse f p).
Proof. intros Hp. apply always_then. eapply always_impl; [|exact Hp]. by intros h' [a|e']. Qed.
End Programs.
Notation "x ←? y ; z" := (attempt_bind y (λ x, z)) (at level 20, y at level 100, z at level 200).
