(* ===== verification/Keyspace.v ===== *)
(** * Keyspaces, and what a request of an agent calls

    [vti-common/src/store/mod.rs]: a keyspace's rows and its atomic operations;
    and the calls ([AgentCall]) the programs of [AclOps] are made of. A store
    operation runs on a thread of its own and is given up on after a timeout,
    so any of them may fail, and may take effect after it was answered as
    failed.

    A value at rest is encrypted, and a key names one keyspace; neither shows
    here, where a row is its plaintext. *)

From S2P Require Import Prelude Programs Json.

(** ** Rows *)

Abbreviation Rows := (gmap string bytes).

Inductive Precondition := Absent (k : string) | Present (k : string) | Unchanged (k : string) (b : bytes).
Inductive Write := Put (k : string) (b : bytes) | Delete (k : string).
Record Batch := mk_batch { checks : list Precondition; writes : list Write }.

Inductive BatchOutcome := Applied | Refused (check : nat).
Definition is_applied (o : BatchOutcome) : bool := match o with Applied => true | Refused _ => false end.
Inductive MoveOutcome := Moved | SourceMissing | SourceChanged | TargetExists.

Definition write_key (w : Write) : string := match w with Put k _ => k | Delete k => k end.

(** [Batch::validate]: no key is written twice. *)
Definition validate_batch (b : Batch) : bool := bool_decide (NoDup (write_key <$> writes b)).

Definition holds (m : Rows) (c : Precondition) : bool :=
  match c with
  | Absent k => bool_decide (m !! k = None)
  | Present k => bool_decide (is_Some (m !! k))
  | Unchanged k expected => bool_decide (m !! k = Some expected)
  end.

Definition write_row (m : Rows) (w : Write) : Rows :=
  match w with Put k b => <[k := b]> m | Delete k => delete k m end.

(** The first precondition, from index [i], that does not hold. *)
Fixpoint first_failing (i : nat) (m : Rows) (cs : list Precondition) : option nat :=
  match cs with
  | [] => None
  | c :: cs => if negb (holds m c) then Some i else first_failing (S i) m cs
  end.

Definition apply_batch (b : Batch) (m : Rows) : result AppError BatchOutcome * Rows :=
  if negb (validate_batch b) then (Err AppInternal, m)
  else
    match first_failing 0 m (checks b) with
    | Some i => (Ok (Refused i), m)
    | None => (Ok Applied, fold_left write_row (writes b) m)
    end.

(** What a batch leaves: what it puts, or what was there. *)
Lemma written_lookup ws m k b : fold_left write_row ws m !! k = Some b → Put k b ∈ ws ∨ m !! k = Some b.
Proof.
  revert m. induction ws as [|w ws IH]; intros m; simpl; [by right|]. intros [Hin|Hm]%IH; [left; by right|].
  destruct w as [k' b'|k']; simpl in Hm.
  - apply lookup_insert_Some in Hm as [[-> ->]|[_ Hm]]; [left; by left|by right].
  - apply lookup_delete_Some in Hm as [_ Hm]. by right.
Qed.
Lemma first_failing_none i m cs : first_failing i m cs = None → ∀ c, c ∈ cs → holds m c = true.
Proof.
  revert i. induction cs as [|c cs IH]; intros i; simpl; [by intros _ ? ?%elem_of_nil|].
  destruct (holds m c) eqn:Hc; [|done]. simpl. intros Hf c' [->|Hin]%elem_of_cons; [done|by eapply IH].
Qed.
Lemma applied_lookup b m k v :
  (apply_batch b m).2 !! k = Some v → m !! k = Some v ∨ Put k v ∈ writes b ∧ ∀ c, c ∈ checks b → holds m c = true.
Proof.
  unfold apply_batch. destruct (negb _); [by left|]. destruct (first_failing 0 m (checks b)) as [i|] eqn:Hf; [by left|].
  simpl. intros [Hp|Hm]%written_lookup; [|by left]. right. split; [done|]. by eapply first_failing_none.
Qed.

Definition move_if_unchanged (old_key : string) (expected : bytes) (new_key : string) (value : bytes) (m : Rows)
  : MoveOutcome * Rows :=
  match m !! old_key with
  | None => (SourceMissing, m)
  | Some current =>
      if bool_decide (current ≠ expected) then (SourceChanged, m)
      else if bool_decide (is_Some (m !! new_key)) then (TargetExists, m)
      else (Moved, delete old_key (<[new_key := value]> m))
  end.

(** [insert_bytes_if_absent]: whether it was inserted. *)
Definition insert_if_absent (k : string) (b : bytes) (m : Rows) : bool * Rows :=
  if bool_decide (is_Some (m !! k)) then (false, m) else (true, <[k := b]> m).

(** ** What a request of an agent calls *)

(** A row of the audit trail. *)
Record AuditRow := mk_audit { au_action : string; au_actor : string; au_resource : string; au_outcome : string }.

Inductive AgentCall :=
| GetRaw (k : string)
| ApplyBatch (b : Batch)
| MoveIfUnchanged (old_key : string) (expected : bytes) (new_key : string) (value : bytes)
(** Whether [get_context] finds a record. *)
| ContextRegistered (id : string)
| NowEpoch
| RecordAudit (r : AuditRow)
(** Sealing the integrity manifest, where one is kept. *)
| Reseal
(** Resolving a DID to its document. *)
| ResolveDid (did : string).

#[export] Instance agent_reply : CallType AgentCall := λ c,
  match c with
  | GetRaw _ => option bytes
  | ApplyBatch _ => BatchOutcome
  | MoveIfUnchanged _ _ _ _ => MoveOutcome
  | ContextRegistered _ => bool
  | NowEpoch => Z
  | RecordAudit _ | Reseal => unit
  | ResolveDid _ => Value
  end%type.

(** What the calls read and write. *)
Record AgentWorld := mk_world {
  w_rows : Rows;
  w_contexts : gset string;
  w_now : Z;
  w_audit : list AuditRow;
  w_documents : gmap string Value;
}.

Definition set_rows (m : Rows) (w : AgentWorld) : AgentWorld :=
  mk_world m (w_contexts w) (w_now w) (w_audit w) (w_documents w).

(** A call, done. *)
Definition agent_exec (c : AgentCall) (w : AgentWorld) : result AppError (Reply c) * AgentWorld :=
  match c with
  | GetRaw k => (Ok (w_rows w !! k), w)
  | ApplyBatch b => let '(r, m) := apply_batch b (w_rows w) in (r, set_rows m w)
  | MoveIfUnchanged o e n v => let '(r, m) := move_if_unchanged o e n v (w_rows w) in (Ok r, set_rows m w)
  | ContextRegistered id => (Ok (bool_decide (id ∈ w_contexts w)), w)
  | NowEpoch => (Ok (w_now w), w)
  | RecordAudit r => (Ok (), mk_world (w_rows w) (w_contexts w) (w_now w) (w_audit w ++ [r]) (w_documents w))
  | Reseal => (Ok (), w)
  | ResolveDid did => (match w_documents w !! did with Some d => Ok d | None => Err AppValidation end, w)
  end.

(** The parts of the world the requests here do not write. *)
Definition same_rows (w w' : AgentWorld) : Prop := w_rows w' = w_rows w ∧ w_audit w' = w_audit w.

(** Any call may fail without doing anything, or be given up on. *)
#[export] Instance agent_calls : CallSemantics AgentCall := {|
  World := AgentWorld;
  ready _ _ := true;
  exec := agent_exec;
  glitch c w r w' := w' = w ∧ ∃ e, r = Err e;
  outlives _ := True;
  elsewhere := same_rows;
  restarted w := w;
|}.

Abbreviation AgentProg := (Prog AgentCall).
