(* ===== verification/Acl.v ===== *)
(** * Access control

    [vti-common/src/acl/mod.rs], [vta-sdk/src/acl.rs] and the claims of
    [vti-common/src/auth/extractor.rs]: roles and the capabilities they carry,
    what an entry may act in, approve, sign with and for how long, and the
    predicates a change of the list is judged by. Proved: an entry's
    capabilities are its role's, narrowed, and what was granted by name; scopes
    reach downwards only; whoever may manage an entry may read it.

    Errors' words are left out. *)

From S2P Require Import Prelude Text Json Contexts Programs Keyspace.

(** ** Roles and capabilities *)

Inductive Role := Admin | Initiator | Application | Reader | Monitor.
#[export] Instance Role_eq_dec : EqDecision Role.
Proof. solve_decision. Defined.

Definition role_text (r : Role) : string :=
  match r with
  | Admin => "admin" | Initiator => "initiator" | Application => "application"
  | Reader => "reader" | Monitor => "monitor"
  end.
Definition role_parse (s : string) : result AppError Role :=
  if String.eqb s "admin" then Ok Admin
  else if String.eqb s "initiator" then Ok Initiator
  else if String.eqb s "application" then Ok Application
  else if String.eqb s "reader" then Ok Reader
  else if String.eqb s "monitor" then Ok Monitor
  else Err AppInternal.

Inductive Capability :=
| VaultRead | VaultWrite | ProxyLogin | FillRelease | PolicyAdmin | DeviceAdmin | Sign | KeyMint | KeyExport
| SignTrustTask | SignSshsig | SignJws | SignCsr | SignDocument | CredentialWrite | MemoryRead | MemoryWrite
| RoomPresent | RoomOpen | PersonaHolder | ExternalAccountsManage | ExternalAuthUse | PcsVetter | PcsApplicant
| WitnessRequest | PcsVoter | PcsTrustee | CredentialPresent.
#[export] Instance Capability_eq_dec : EqDecision Capability.
Proof. solve_decision. Defined.

(** The names on the wire. *)
Definition capability_text (c : Capability) : string :=
  match c with
  | VaultRead => "vault-read"
  | VaultWrite => "vault-write"
  | ProxyLogin => "proxy-login"
  | FillRelease => "fill-release"
  | PolicyAdmin => "policy-admin"
  | DeviceAdmin => "device-admin"
  | Sign => "sign"
  | KeyMint => "key-mint"
  | KeyExport => "key-export"
  | SignTrustTask => "sign-trust-task"
  | SignSshsig => "sign-sshsig"
  | SignJws => "sign-jws"
  | SignCsr => "sign-csr"
  | SignDocument => "sign-document"
  | CredentialWrite => "credential-write"
  | MemoryRead => "memory-read"
  | MemoryWrite => "memory-write"
  | RoomPresent => "room-present"
  | RoomOpen => "room-open"
  | PersonaHolder => "persona-holder"
  | ExternalAccountsManage => "external-accounts-manage"
  | ExternalAuthUse => "external-auth-use"
  | PcsVetter => "pcs-vetter"
  | PcsApplicant => "pcs-applicant"
  | WitnessRequest => "witness-request"
  | PcsVoter => "pcs-voter"
  | PcsTrustee => "pcs-trustee"
  | CredentialPresent => "credential-present"
  end.
Definition all_capabilities : list Capability :=
  [VaultRead; VaultWrite; ProxyLogin; FillRelease; PolicyAdmin; DeviceAdmin; Sign; KeyMint; KeyExport;
   SignTrustTask; SignSshsig; SignJws; SignCsr; SignDocument; CredentialWrite; MemoryRead;
   MemoryWrite; RoomPresent; RoomOpen; PersonaHolder; ExternalAccountsManage; ExternalAuthUse;
   PcsVetter; PcsApplicant; WitnessRequest; PcsVoter; PcsTrustee; CredentialPresent].
Definition capability_parse (name : string) : option Capability :=
  find (λ c, String.eqb (capability_text c) name) all_capabilities.

Definition ADDITIVE_CAPABILITIES : list Capability := [PersonaHolder].
Definition is_additive (cap : Capability) : bool := bool_decide (cap ∈ ADDITIVE_CAPABILITIES).

Definition derived_capabilities_for_role (r : Role) : list Capability :=
  match r with
  | Admin =>
      [VaultRead; VaultWrite; CredentialWrite; MemoryRead; MemoryWrite; RoomPresent; RoomOpen; ProxyLogin;
       FillRelease; PolicyAdmin; DeviceAdmin; Sign; SignSshsig; SignJws; SignCsr; SignDocument; SignTrustTask;
       KeyMint; KeyExport; ExternalAccountsManage; ExternalAuthUse; PcsVetter; PcsApplicant; PcsVoter;
       PcsTrustee; WitnessRequest; CredentialPresent]
  | Initiator =>
      [VaultRead; VaultWrite; CredentialWrite; MemoryRead; MemoryWrite; RoomPresent; RoomOpen; ProxyLogin;
       FillRelease; DeviceAdmin; Sign; SignSshsig; SignJws; SignCsr; SignDocument; SignTrustTask; KeyMint;
       ExternalAuthUse; PcsVetter; PcsApplicant; PcsVoter; PcsTrustee; WitnessRequest; CredentialPresent]
  | Application =>
      [VaultRead; ProxyLogin; FillRelease; Sign; SignSshsig; SignJws; SignCsr; SignDocument; SignTrustTask;
       MemoryRead; MemoryWrite; RoomPresent; RoomOpen; ExternalAuthUse]
  | Reader => [VaultRead; MemoryRead]
  | Monitor => []
  end.

Definition role_has_capability (r : Role) (cap : Capability) : bool :=
  bool_decide (cap ∈ derived_capabilities_for_role r).

Definition effective_capabilities (r : Role) (explicit : list Capability) : list Capability :=
  let derived := derived_capabilities_for_role r in
  let narrowing := filter (λ c, is_additive c = false) explicit in
  (if bool_decide (narrowing = []) then derived else filter (λ c, c ∈ narrowing) derived)
  ++ filter (λ c, is_additive c = true) explicit.

Definition capabilities_beyond_role (r : Role) (requested : list Capability) : list Capability :=
  filter (λ c, is_additive c = false ∧ c ∉ derived_capabilities_for_role r) requested.

(** What a client knows of the roles, by their names ([vta-sdk/src/acl.rs]). *)
Definition role_capability_ceiling (r : string) : option (list string) :=
  if String.eqb r "admin" then
    Some ["vault-read"; "vault-write"; "credential-write"; "memory-read"; "memory-write"; "room-present"; "room-open";
          "proxy-login"; "fill-release"; "policy-admin"; "device-admin"; "sign"; "sign-sshsig"; "sign-jws"; "sign-csr";
          "sign-document"; "sign-trust-task"; "key-mint"; "key-export"; "external-accounts-manage";
          "external-auth-use"; "pcs-vetter"; "pcs-applicant"; "pcs-voter"; "pcs-trustee"; "witness-request";
          "credential-present"]
  else if String.eqb r "initiator" then
    Some ["vault-read"; "vault-write"; "credential-write"; "memory-read"; "memory-write"; "room-present"; "room-open";
          "proxy-login"; "fill-release"; "device-admin"; "sign"; "sign-sshsig"; "sign-jws"; "sign-csr";
          "sign-document"; "sign-trust-task"; "key-mint"; "external-auth-use"; "pcs-vetter"; "pcs-applicant";
          "pcs-voter"; "pcs-trustee"; "witness-request"; "credential-present"]
  else if String.eqb r "application" then
    Some ["vault-read"; "proxy-login"; "fill-release"; "sign"; "sign-sshsig"; "sign-jws"; "sign-csr"; "sign-document";
          "sign-trust-task"; "memory-read"; "memory-write"; "room-present"; "room-open"; "external-auth-use"]
  else if String.eqb r "reader" then Some ["vault-read"; "memory-read"]
  else if String.eqb r "monitor" then Some []
  else None.

(** ** Scopes *)

(** Where a subject may act; decoded by [act_scope_for], never stored. *)
Inductive ActScope := ActNone | ActAll | ActContexts (cs : list string).
Definition act_covers (s : ActScope) (context_id : string) : bool :=
  match s with
  | ActNone => false
  | ActAll => true
  | ActContexts cs => existsb (λ c, is_ancestor_or_self c context_id) cs
  end.
Definition acts_within (s : ActScope) (context_id : string) : bool :=
  match s with
  | ActNone | ActAll => false
  | ActContexts cs => existsb (λ c, is_ancestor_or_self context_id c) cs
  end.
Inductive ContextDirection := ActingIn | Subtree | Any.
Definition matches_context (s : ActScope) (context_id : string) (direction : ContextDirection) : bool :=
  match direction with
  | ActingIn => act_covers s context_id
  | Subtree => acts_within s context_id
  | Any => act_covers s context_id || acts_within s context_id
  end.
Definition is_unrestricted (s : ActScope) : bool := match s with ActAll => true | _ => false end.
Definition named_contexts (s : ActScope) : list string := match s with ActContexts cs => cs | _ => [] end.

(** What a subject may confer by an approval; stored. *)
Inductive ApproveScope := ApproveNone | ApproveAll | ApproveContexts (cs : list string).
Definition approve_covers (s : ApproveScope) (context_id : string) : bool :=
  match s with
  | ApproveNone => false
  | ApproveAll => true
  | ApproveContexts cs => existsb (λ c, is_ancestor_or_self c context_id) cs
  end.

Definition act_scope_for (r : Role) (allowed_contexts : list string) : ActScope :=
  match allowed_contexts with
  | _ :: _ => ActContexts allowed_contexts
  | [] => match r with Admin => ActAll | _ => ActNone end
  end.

Inductive KeyScope := AllInScope | Keys (keys : gset string).
Definition allows (s : KeyScope) (key_id : string) : bool :=
  match s with AllInScope => true | Keys keys => bool_decide (key_id ∈ keys) end.
Definition key_scope_for (allowed_keys : option (gset string)) : KeyScope :=
  match allowed_keys with None => AllInScope | Some keys => Keys keys end.

(** ** Entries and claims *)

Record HandOffBound := mk_bound {
  hb_role : Role;
  hb_contexts : list string;
  hb_capabilities : list Capability;
  hb_approve_scope : ApproveScope;
  hb_keys : option (gset string);
  hb_expires_at : option Z;
}.
Record HandOff := mk_handoff { ho_granted_by : string; ho_granted_at : Z; ho_bound : HandOffBound }.

Inductive StepUpMode := StepNone | SelfApprove | Delegated | DelegatedAny.

(** What a consumer is, and a registered device; no decision here reads them. *)
Inductive CompanionFormFactor := Browser | Mobile | Desktop.
Inductive ServiceKind := Mediator | AiAgent | Daemon.
Inductive ConsumerKind := Companion (form_factor : CompanionFormFactor) | ServiceConsumer (kind : ServiceKind).
Record WakeChannel := mk_wake { wk_gateway : string; wk_handle : string; wk_allowed_triggers : list string }.
Record UvKey := mk_uv_key { uv_enrolment : Value; uv_enrolled_at : string }.
Record DeviceBinding := mk_device {
  dv_id : string; dv_display_name : string; dv_platform : option string; dv_registered_at : string;
  dv_last_seen_at : option string; dv_disabled_at : option string; dv_wiped_at : option string;
  dv_hpke_public_key : option string; dv_wake : option WakeChannel; dv_uv_key : option UvKey;
}.

Record AclEntry := mk_entry {
  ae_did : string;
  ae_role : Role;
  ae_label : option string;
  ae_contexts : list string;
  ae_created_at : Z;
  ae_created_by : string;
  ae_expires_at : option Z;
  ae_kind : ConsumerKind;
  ae_capabilities : list Capability;
  ae_device : option DeviceBinding;
  ae_version : Z;
  ae_step_up_approver : option string;
  ae_step_up_require : option StepUpMode;
  ae_approve_scope : ApproveScope;
  ae_keys : option (gset string);
  ae_handoff : option HandOff;
}.

(** [AclEntry::new], at [now]. *)
Definition entry_new (did : string) (r : Role) (created_by : string) (now : Z) : AclEntry :=
  mk_entry did r None [] now created_by None (ServiceConsumer Daemon) [] None 0 None None ApproveNone None None.

(** A member replaced. *)
Definition set_did (x : string) (e : AclEntry) : AclEntry :=
  mk_entry x (ae_role e) (ae_label e) (ae_contexts e) (ae_created_at e) (ae_created_by e) (ae_expires_at e)
    (ae_kind e) (ae_capabilities e) (ae_device e) (ae_version e) (ae_step_up_approver e) (ae_step_up_require
    e) (ae_approve_scope e) (ae_keys e) (ae_handoff e).
Definition set_role (x : Role) (e : AclEntry) : AclEntry :=
  mk_entry (ae_did e) x (ae_label e) (ae_contexts e) (ae_created_at e) (ae_created_by e) (ae_expires_at e)
    (ae_kind e) (ae_capabilities e) (ae_device e) (ae_version e) (ae_step_up_approver e) (ae_step_up_require
    e) (ae_approve_scope e) (ae_keys e) (ae_handoff e).
Definition with_label (x : option string) (e : AclEntry) : AclEntry :=
  mk_entry (ae_did e) (ae_role e) x (ae_contexts e) (ae_created_at e) (ae_created_by e) (ae_expires_at e)
    (ae_kind e) (ae_capabilities e) (ae_device e) (ae_version e) (ae_step_up_approver e) (ae_step_up_require
    e) (ae_approve_scope e) (ae_keys e) (ae_handoff e).
Definition with_contexts (x : list string) (e : AclEntry) : AclEntry :=
  mk_entry (ae_did e) (ae_role e) (ae_label e) x (ae_created_at e) (ae_created_by e) (ae_expires_at e)
    (ae_kind e) (ae_capabilities e) (ae_device e) (ae_version e) (ae_step_up_approver e) (ae_step_up_require
    e) (ae_approve_scope e) (ae_keys e) (ae_handoff e).
Definition with_expires_at (x : option Z) (e : AclEntry) : AclEntry :=
  mk_entry (ae_did e) (ae_role e) (ae_label e) (ae_contexts e) (ae_created_at e) (ae_created_by e) x
    (ae_kind e) (ae_capabilities e) (ae_device e) (ae_version e) (ae_step_up_approver e) (ae_step_up_require
    e) (ae_approve_scope e) (ae_keys e) (ae_handoff e).
Definition with_capabilities (x : list Capability) (e : AclEntry) : AclEntry :=
  mk_entry (ae_did e) (ae_role e) (ae_label e) (ae_contexts e) (ae_created_at e) (ae_created_by e)
    (ae_expires_at e) (ae_kind e) x (ae_device e) (ae_version e) (ae_step_up_approver e) (ae_step_up_require
    e) (ae_approve_scope e) (ae_keys e) (ae_handoff e).
Definition with_version (x : Z) (e : AclEntry) : AclEntry :=
  mk_entry (ae_did e) (ae_role e) (ae_label e) (ae_contexts e) (ae_created_at e) (ae_created_by e)
    (ae_expires_at e) (ae_kind e) (ae_capabilities e) (ae_device e) x (ae_step_up_approver e)
    (ae_step_up_require e) (ae_approve_scope e) (ae_keys e) (ae_handoff e).
Definition with_step_up_approver (x : option string) (e : AclEntry) : AclEntry :=
  mk_entry (ae_did e) (ae_role e) (ae_label e) (ae_contexts e) (ae_created_at e) (ae_created_by e)
    (ae_expires_at e) (ae_kind e) (ae_capabilities e) (ae_device e) (ae_version e) x (ae_step_up_require e)
    (ae_approve_scope e) (ae_keys e) (ae_handoff e).
Definition with_step_up_require (x : option StepUpMode) (e : AclEntry) : AclEntry :=
  mk_entry (ae_did e) (ae_role e) (ae_label e) (ae_contexts e) (ae_created_at e) (ae_created_by e)
    (ae_expires_at e) (ae_kind e) (ae_capabilities e) (ae_device e) (ae_version e) (ae_step_up_approver e) x
    (ae_approve_scope e) (ae_keys e) (ae_handoff e).
Definition with_approve_scope (x : ApproveScope) (e : AclEntry) : AclEntry :=
  mk_entry (ae_did e) (ae_role e) (ae_label e) (ae_contexts e) (ae_created_at e) (ae_created_by e)
    (ae_expires_at e) (ae_kind e) (ae_capabilities e) (ae_device e) (ae_version e) (ae_step_up_approver e)
    (ae_step_up_require e) x (ae_keys e) (ae_handoff e).
Definition with_allowed_keys (x : option (gset string)) (e : AclEntry) : AclEntry :=
  mk_entry (ae_did e) (ae_role e) (ae_label e) (ae_contexts e) (ae_created_at e) (ae_created_by e)
    (ae_expires_at e) (ae_kind e) (ae_capabilities e) (ae_device e) (ae_version e) (ae_step_up_approver e)
    (ae_step_up_require e) (ae_approve_scope e) x (ae_handoff e).
Definition with_handoff (x : option HandOff) (e : AclEntry) : AclEntry :=
  mk_entry (ae_did e) (ae_role e) (ae_label e) (ae_contexts e) (ae_created_at e) (ae_created_by e)
    (ae_expires_at e) (ae_kind e) (ae_capabilities e) (ae_device e) (ae_version e) (ae_step_up_approver e)
    (ae_step_up_require e) (ae_approve_scope e) (ae_keys e) x.

Definition key_scope (e : AclEntry) : KeyScope := key_scope_for (ae_keys e).
Definition is_admin (e : AclEntry) : bool := bool_decide (ae_role e = Admin).
Definition act_scope (e : AclEntry) : ActScope := act_scope_for (ae_role e) (ae_contexts e).
Definition can_act_in (e : AclEntry) (context_id : string) : bool := act_covers (act_scope e) context_id.
Definition entry_is_super_admin (e : AclEntry) : bool := is_admin e && is_unrestricted (act_scope e).
Definition is_expired (e : AclEntry) (now : Z) : bool :=
  match ae_expires_at e with Some deadline => deadline <=? now | None => false end.
Definition entry_has_capability (e : AclEntry) (cap : Capability) : bool :=
  bool_decide (cap ∈ effective_capabilities (ae_role e) (ae_capabilities e)).

(** An authenticated caller, as its access token states it. *)
Record AuthClaims := mk_claims {
  ac_did : string;
  ac_role : Role;
  ac_contexts : list string;
  ac_session_id : string;
  ac_access_expires_at : Z;
  ac_issued_at : Z;
  ac_amr : list string;
  ac_acr : string;
}.
Definition is_local_cli_principal (a : AuthClaims) : bool :=
  starts_with "cli:" (ac_did a) && bool_decide (ac_session_id a = ac_did a) && bool_decide (ac_amr a = ["cli"]).
Definition claims_scope (a : AuthClaims) : ActScope := act_scope_for (ac_role a) (ac_contexts a).
Definition is_super_admin (a : AuthClaims) : bool :=
  bool_decide (ac_role a = Admin) && is_unrestricted (claims_scope a).
Definition has_context_access (a : AuthClaims) (context_id : string) : bool := act_covers (claims_scope a) context_id.
Definition require_context (a : AuthClaims) (context_id : string) : result AppError unit :=
  guard_err (negb (has_context_access a context_id)) AppForbidden.
Definition require_admin (a : AuthClaims) : result AppError unit :=
  guard_err (bool_decide (ac_role a ≠ Admin)) AppForbidden.
Definition require_manage (a : AuthClaims) : result AppError unit :=
  guard_err (bool_decide (ac_role a ≠ Admin) && bool_decide (ac_role a ≠ Initiator)) AppForbidden.

Definition require_read (a : AuthClaims) : result AppError unit :=
  guard_err (bool_decide (ac_role a = Monitor)) AppForbidden.
Definition require_write (a : AuthClaims) : result AppError unit :=
  match ac_role a with Admin | Initiator | Application => Ok () | _ => Err AppForbidden end.
Definition require_super_admin (a : AuthClaims) : result AppError unit :=
  if is_super_admin a then Ok () else Err AppForbidden.
Definition default_context (a : AuthClaims) : option string :=
  match ac_contexts a with [c] => Some c | _ => None end.

(** The extra contexts not yet named, appended. *)
Definition merge_contexts (extra contexts : list string) : list string :=
  fold_left (λ cs c, if existsb (λ x, bool_decide (x = c)) cs then cs else cs ++ [c]) extra contexts.
Definition with_delegated_contexts (extra : list string) (a : AuthClaims) : AuthClaims :=
  if bool_decide (extra = []) || is_super_admin a then a
  else mk_claims (ac_did a) (ac_role a) (merge_contexts extra (ac_contexts a)) (ac_session_id a)
         (ac_access_expires_at a) (ac_issued_at a) (ac_amr a) (ac_acr a).
Definition with_delegated_authority (extra : list string) (a : AuthClaims) : AuthClaims :=
  if bool_decide (extra = []) || is_super_admin a then a
  else mk_claims (ac_did a) Admin (merge_contexts extra (ac_contexts a)) (ac_session_id a)
         (ac_access_expires_at a) (ac_issued_at a) (ac_amr a) (ac_acr a).

(** ** What a change is judged by *)

(** A [?] on a [ValidationError]. *)
Definition valid {A} (r : result ValidationError A) : result AppError A := map_err (λ _, AppValidation) r.

Definition for_all {A} (f : A → result AppError unit) (l : list A) : result AppError unit :=
  try_fold (λ _ a, f a) () l.

Definition validate_additive_capability_grant (caller : AuthClaims) (requested : list Capability)
  : result AppError unit :=
  guard_err (negb (bool_decide (filter (λ c, is_additive c = true) requested = []) || is_super_admin caller))
    AppForbidden.

Definition validate_approve_scope_grant (caller : AuthClaims) (scope : ApproveScope) : result AppError unit :=
  match scope with
  | ApproveNone => Ok ()
  | ApproveAll => guard_err (negb (is_super_admin caller)) AppForbidden
  | ApproveContexts cs =>
      _ ← guard_err (bool_decide (cs = [])) AppForbidden;
      _ ← for_all (λ c, valid (validate_context_path c)) cs;
      for_all (require_context caller) cs
  end.

Definition validate_role_assignment (caller : AuthClaims) (target_role : Role) : result AppError unit :=
  _ ← guard_err (match ac_role caller with Monitor | Reader | Application => true | _ => false end) AppForbidden;
  guard_err (bool_decide (target_role = Admin) && bool_decide (ac_role caller ≠ Admin)) AppForbidden.

Definition validate_acl_modification (caller : AuthClaims) (target_role : Role) (target_contexts : list string)
  : result AppError unit :=
  _ ← for_all (λ c, valid (validate_context_path c)) target_contexts;
  if is_super_admin caller then Ok ()
  else match act_scope_for target_role target_contexts with
       | ActAll => Err AppForbidden
       | ActNone => Ok ()
       | ActContexts cs => for_all (require_context caller) cs
       end.

Definition delegated_any_approver_covers (approver subject : AclEntry) : bool :=
  let scoped :=
    match ae_approve_scope approver with
    | ApproveAll => true
    | ApproveContexts _ =>
        match act_scope subject with
        | ActContexts cs => forallb (approve_covers (ae_approve_scope approver)) cs
        | _ => false
        end
    | ApproveNone => false
    end in
  if scoped then true
  else if negb (is_admin approver) then false
  else match act_scope approver with
       | ActAll => true
       | ActContexts _ =>
           match act_scope subject with
           | ActContexts cs => forallb (act_covers (act_scope approver)) cs
           | _ => false
           end
       | ActNone => false
       end.

Definition acl_entry_can_act_in (e : AclEntry) (context_id : string) : bool := act_covers (act_scope e) context_id.
Definition acl_entry_acts_within (e : AclEntry) (context_id : string) : bool := acts_within (act_scope e) context_id.
Definition acl_entry_matches_context (e : AclEntry) (context_id : string) (d : ContextDirection) : bool :=
  matches_context (act_scope e) context_id d.

Definition is_acl_entry_visible (caller : AuthClaims) (e : AclEntry) : bool :=
  is_super_admin caller || existsb (has_context_access caller) (named_contexts (act_scope e)).

Definition is_acl_entry_auditable (caller : AuthClaims) (e : AclEntry) : bool :=
  is_acl_entry_visible caller e
  || match ae_approve_scope e with
     | ApproveAll => true
     | ApproveContexts cs => existsb (has_context_access caller) cs
     | ApproveNone => false
     end.

(** ** Facts *)

Lemma for_all_ok {A} (f : A → result AppError unit) l : for_all f l = Ok () ↔ ∀ x, x ∈ l → f x = Ok ().
Proof.
  unfold for_all. induction l as [|a l IH]; cbn [try_fold].
  { split; [|done]. by intros _ x ?%elem_of_nil. }
  rewrite bind_unit_ok, IH. split.
  - intros [Ha Hl] x [->|Hx]%elem_of_cons; [done|by apply Hl].
  - intros Hx. split; [apply Hx; left|]. intros y Hy. apply Hx. by right.
Qed.

Lemma require_context_ok a c : require_context a c = Ok () ↔ has_context_access a c = true.
Proof. unfold require_context. rewrite guard_ok. by rewrite negb_false_iff. Qed.

Lemma existsb_true {A} (f : A → bool) l : existsb f l = true ↔ ∃ x, x ∈ l ∧ f x = true.
Proof. rewrite existsb_exists. by setoid_rewrite <- list_elem_of_In. Qed.

(** Whatever is covered is covered all the way down. *)
Lemma act_covers_beneath s c d : is_ancestor_or_self c d = true → act_covers s c = true → act_covers s d = true.
Proof.
  intros Hcd. destruct s as [| |cs]; [done..|]. simpl. rewrite !existsb_true. intros (x & Hx & Hc).
  exists x. split; [done|by eapply ancestor_trans].
Qed.
Lemma approve_covers_beneath s c d :
  is_ancestor_or_self c d = true → approve_covers s c = true → approve_covers s d = true.
Proof.
  intros Hcd. destruct s as [| |cs]; [done..|]. simpl. rewrite !existsb_true. intros (x & Hx & Hc).
  exists x. split; [done|by eapply ancestor_trans].
Qed.
Lemma access_beneath a c d :
  is_ancestor_or_self c d = true → has_context_access a c = true → has_context_access a d = true.
Proof. apply act_covers_beneath. Qed.

Lemma super_access a c : is_super_admin a = true → has_context_access a c = true.
Proof.
  unfold is_super_admin, has_context_access. intros [_ Hs]%andb_true_iff. by destruct (claims_scope a).
Qed.
Lemma super_admin_role a : is_super_admin a = true → ac_role a = Admin ∧ ac_contexts a = [].
Proof.
  unfold is_super_admin, claims_scope, act_scope_for. intros [Hr Hs]%andb_true_iff.
  apply bool_decide_eq_true in Hr. split; [done|]. by destruct (ac_contexts a).
Qed.

Lemma role_assignment_ok a r :
  validate_role_assignment a r = Ok () →
  (ac_role a = Admin ∨ ac_role a = Initiator) ∧ (r = Admin → ac_role a = Admin).
Proof.
  unfold validate_role_assignment. rewrite bind_unit_ok, !guard_ok. intros [Hc Hr].
  split; [by destruct (ac_role a); auto|]. intros ->. simpl in Hr. by apply bool_decide_eq_false, dec_stable in Hr.
Qed.

(** Who may make an entry act somewhere, acts there. *)
Lemma modification_ok a r cs :
  validate_acl_modification a r cs = Ok () →
  ∀ c, act_covers (act_scope_for r cs) c = true → has_context_access a c = true.
Proof.
  unfold validate_acl_modification. intros [_ Hm]%bind_unit_ok c Hc.
  destruct (is_super_admin a) eqn:Hs; [by apply super_access|].
  destruct (act_scope_for r cs) as [| |xs]; [done..|]. rewrite for_all_ok in Hm. simpl in Hc.
  apply existsb_true in Hc as (x & Hx & Hxc). eapply access_beneath; [done|]. by apply require_context_ok, Hm.
Qed.

Lemma approve_grant_ok a s :
  validate_approve_scope_grant a s = Ok () →
  ∀ c, approve_covers s c = true → has_context_access a c = true.
Proof.
  destruct s as [| |cs]; simpl; [done| |].
  - intros Hs%guard_ok c _. by apply super_access, negb_false_iff.
  - rewrite !bind_unit_ok, !for_all_ok. intros (_ & _ & Hcs) c (x & Hx & Hxc)%existsb_true.
    eapply access_beneath; [done|]. by apply require_context_ok, Hcs.
Qed.

(** An entry holds what its role carries, narrowed by the names it lists, and
    the additive capabilities it lists; no role carries those. *)
Theorem effective_spec r explicit cap :
  cap ∈ effective_capabilities r explicit
  ↔ (if is_additive cap then cap ∈ explicit
     else cap ∈ derived_capabilities_for_role r
          ∧ ((∀ c, c ∈ explicit → is_additive c = true) ∨ cap ∈ explicit)).
Proof.
  assert (cap ∈ derived_capabilities_for_role r → is_additive cap = false) as Hnone.
  { destruct r; simpl; intros Hin; repeat (apply elem_of_cons in Hin as [->|Hin]; [reflexivity|]);
      by apply elem_of_nil in Hin. }
  unfold effective_capabilities. rewrite elem_of_app, list_elem_of_filter.
  case_bool_decide as Hn.
  - assert (∀ c, c ∈ explicit → is_additive c = true) as Hall.
    { intros c Hc. destruct (is_additive c) eqn:Ha; [done|]. exfalso.
      assert (c ∈ filter (λ c, is_additive c = false) explicit) as Hin by by apply list_elem_of_filter.
      rewrite Hn in Hin. by apply elem_of_nil in Hin. }
    destruct (is_additive cap) eqn:Ha; naive_solver.
  - rewrite !list_elem_of_filter. destruct (is_additive cap) eqn:Ha; [naive_solver|].
    split; [naive_solver|]. intros [Hd [Hall|Hx]]; [|naive_solver]. exfalso. apply Hn.
    apply elem_of_nil_inv. intros c [Hc1 Hc2]%list_elem_of_filter. rewrite Hall in Hc1; done.
Qed.

(** What may be changed may be read. *)
Lemma visible_auditable a e : is_acl_entry_visible a e = true → is_acl_entry_auditable a e = true.
Proof. unfold is_acl_entry_auditable. by intros ->. Qed.

(** The client's table is the agent's, and the names are told apart. *)
Lemma ceiling_mirrors r : role_capability_ceiling (role_text r) = Some (capability_text <$> derived_capabilities_for_role r).
Proof. by destruct r. Qed.
Lemma role_roundtrip r : role_parse (role_text r) = Ok r.
Proof. by destruct r. Qed.
Lemma capability_roundtrip c : capability_parse (capability_text c) = Some c.
Proof. by destruct c. Qed.

(** A client grants an additive capability beside a whole role by naming the
    role's ceiling and the capability: the entry holds exactly those. *)
Lemma ceiling_and_additive r extra cap :
  Forall (λ c, is_additive c = true) extra → derived_capabilities_for_role r ≠ [] →
  cap ∈ effective_capabilities r (derived_capabilities_for_role r ++ extra)
  ↔ cap ∈ derived_capabilities_for_role r ∨ cap ∈ extra.
Proof.
  intros Hextra Hr. rewrite Forall_forall in Hextra. rewrite effective_spec.
  assert (∀ c, c ∈ derived_capabilities_for_role r → is_additive c = false) as Hd.
  { destruct r; simpl; intros c Hc; repeat (apply elem_of_cons in Hc as [->|Hc]; [reflexivity|]);
      by apply elem_of_nil in Hc. }
  destruct (is_additive cap) eqn:Ha.
  - rewrite elem_of_app. naive_solver.
  - split; [naive_solver|]. intros [Hc|Hc]; [|by rewrite Hextra in Ha].
    split; [done|]. right. apply elem_of_app. by left.
Qed.
