(* ===== verification/Rules.v ===== *)
(** * The rules of a manifest and of a ballot

    [vti-voting/src/rules.rs]: what a manifest must say and what a ballot may
    answer, beyond what the JSON schema states, over the wire types of
    [voting/election/register/0.4] and [voting/ballot/cast/0.1]. The two
    checks are proved equivalent to declarative specifications. *)

From S2P Require Import Prelude Json Election.

(** ** The wire types (generated from the schemas) *)

Inductive SecrecyLevel := Open | Sealed | TalliedEncrypted.
#[export] Instance SecrecyLevel_eq_dec : EqDecision SecrecyLevel.
Proof. solve_decision. Defined.

(** [SecrecyLevel::to_string]. *)
Definition secrecy_text (s : SecrecyLevel) : string :=
  match s with Open => "open" | Sealed => "sealed" | TalliedEncrypted => "talliedEncrypted" end.

Inductive RollRuleRule := Members | MembersAndListed | Listed | CredentialRoll.
#[export] Instance RollRuleRule_eq_dec : EqDecision RollRuleRule.
Proof. solve_decision. Defined.

Record RollRule := mk_roll {
  roll_rule : RollRuleRule;
  roll_listed : option (list string);
  roll_member_of : option string;
}.

Inductive ManifestRevote := RevoteReplace | RevoteRefuse.
#[export] Instance ManifestRevote_eq_dec : EqDecision ManifestRevote.
Proof. solve_decision. Defined.

Record QuestionOption := mk_option { opt_key : string }.

(** The generated enum is non-exhaustive: [Other] stands for a type this
    version does not know. *)
Inductive Question :=
| Choice (key : string) (options : list QuestionOption) (min_selections max_selections : Z)
    (optional : bool)
| Ranking (key : string) (options : list QuestionOption) (partial optional : bool)
| Score (key : string) (options : list QuestionOption) (min max : Z) (optional : bool)
| Text (key : string) (max_length : Z) (optional : bool)
| Other.

Record Trustees := mk_trustees { t_dids : list string; t_threshold : Z }.

(** Instants are nanoseconds since the epoch. *)
Record Manifest := mk_manifest {
  election_id : string;
  community : string;
  questions : list Question;
  secrecy : SecrecyLevel;
  roll : RollRule;
  registration_opens_at : Z;
  voting_opens_at : Z;
  voting_closes_at : Z;
  revote : ManifestRevote;
  board_public : bool;
  auditors : list string;
  ballot_box : string;
  binding : bool;
  allow_early_close : bool;
  results_before_close : bool;
  text_release_threshold : Z;
  trustees : option Trustees;
}.

Record Answer := mk_answer {
  a_question : string;
  a_choice : option (list string);
  a_ranking : option (list string);
  a_scores : gmap string Z;
  a_text : option string;
  a_abstain : option Value;
}.

Record Ballot := mk_ballot {
  b_election_id : string;
  b_manifest_digest : string;
  b_answers : list Answer;
}.

Inductive RuleError :=
| InvalidManifest (why : string)
| UnsupportedSecrecy (level : string)
| ManifestMismatch
| BallotInvalid (why : string)
| RuleSerialization (why : string).
#[export] Instance RuleError_eq_dec : EqDecision RuleError.
Proof. solve_decision. Defined.

(** ** Versions *)

Definition V0_1_INSTANTS : list string := ["registrationOpens"; "votingOpens"; "votingCloses"].

(** Refuse a manifest in the shape of [voting/election/register/0.1]. *)
Definition require_current_manifest (manifest : Value) : result RuleError unit :=
  if existsb (λ k, bool_decide (is_Some (json_get manifest k))) V0_1_INSTANTS then
    let id := default "(unnamed)" (get_str manifest "electionId") in
    Err (InvalidManifest
      ("election " +:+ id +:+ " was registered under voting/election/register/0.1 (its manifest "
       +:+ "names registrationOpens, votingOpens and votingCloses); this build reads only "
       +:+ "the 0.2 manifest and cannot carry it over. Finish or cancel it on the previous "
       +:+ "release, or remove it"))
  else Ok ().

(** Why a board entry written under [voting/board/read/0.1] cannot be served
    or audited, if it is one. *)
Definition v0_1_lifecycle_entry (index : Z) (entry : Value) : option string :=
  let lifecycle :=
    match get_str entry "kind" with
    | Some k => bool_decide (k ∈ ["opened"; "closed"; "closedEarly"; "cancelled"])
    | None => false
    end in
  if lifecycle && bool_decide (is_Some (json_get entry "at"))
     && bool_decide (json_get entry "occurredAt" = None)
  then Some ("board entry " +:+ pretty index +:+ " names its instant `at` (voting/board/read/0.1); "
             +:+ "this build serves and reads only voting/board/read/0.2, whose lifecycle entries "
             +:+ "name it `occurredAt`, and cannot rename it without changing the board. Finish or "
             +:+ "cancel the election on the previous release, or remove it")
  else None.

(** ** Digests *)

Section Digests.
Context `{Sha256, Multibase, Jcs}.

(** SHA-256 of the manifest's canonicalization. *)
Definition manifest_digest (manifest : Value) : result RuleError Hash :=
  jcs ← map_err RuleSerialization (jcs_to_vec manifest);
  Ok (sha256 jcs).

(** A digest as the wire carries it: a multihash, multibase base58btc. *)
Definition digest_multibase (digest : Hash) : string :=
  multibase_encode ([x12; x20] ++ vec_to_list digest).

(** The raw digest of a [digest_multibase] value, if it is one. *)
Definition digest_from_multibase (text : string) : option Hash :=
  match multibase_decode text with
  | Some (_, x12 :: x20 :: rest) => hash_of_bytes rest
  | _ => None
  end.
End Digests.

(** ** Questions *)

Definition key (q : Question) : option string :=
  match q with
  | Choice k _ _ _ _ | Ranking k _ _ _ | Score k _ _ _ _ | Text k _ _ => Some k
  | Other => None
  end.

Definition optional (q : Question) : bool :=
  match q with
  | Choice _ _ _ _ o | Ranking _ _ _ o | Score _ _ _ _ o | Text _ _ o => o
  | Other => false
  end.

Definition option_keys (q : Question) : list string :=
  match q with
  | Choice _ os _ _ _ | Ranking _ os _ _ | Score _ os _ _ _ => opt_key <$> os
  | _ => []
  end.

(** [iter().collect::<HashSet<_>>().len()]. *)
Definition distinct_len (l : list string) : nat := size (list_to_set l : gset string).

(** ** Manifests *)

Definition MAX_TRUSTEES : nat := 64.

Definition is_choice (q : Question) : bool :=
  match q with Choice _ _ _ _ _ => true | _ => false end.

(** The trustee rules of a sealed or tallied-encrypted manifest. *)
Definition check_trustees (m : Manifest) : result RuleError unit :=
  match trustees m with
  | None => Err (InvalidManifest "a sealed or tallied-encrypted election names its trustees")
  | Some t =>
      let n := length (t_dids t) in
      if bool_decide (MAX_TRUSTEES < n)%nat then
        Err (InvalidManifest ("at most " +:+ pretty MAX_TRUSTEES +:+ " trustees, not " +:+ pretty n))
      else if (t_threshold t <? 2) || (Z.of_nat n <? t_threshold t) then
        Err (InvalidManifest "the trustees' threshold must satisfy 2 <= threshold <= trustees")
      else if bool_decide (distinct_len (t_dids t) ≠ n) then
        Err (InvalidManifest "a trustee is named twice")
      else if existsb (λ d, String.eqb d (community m) || String.eqb d (ballot_box m)) (t_dids t) then
        Err (InvalidManifest "neither the community nor the ballot box is a trustee")
      else if results_before_close m then
        Err (InvalidManifest "running totals are an open election's alone (VTI-VOT-061)")
      else if bool_decide (secrecy m = TalliedEncrypted)
              && existsb (λ q, negb (is_choice q)) (questions m) then
        Err (InvalidManifest "a tallied-encrypted election asks choice questions only (VTI-VOT-064)")
      else Ok ()
  end.

Definition SERVED_LEVELS : list SecrecyLevel := [Open; Sealed; TalliedEncrypted].

(** The roll's rules. *)
Definition check_roll (r : RollRule) : result RuleError unit :=
  let listed := from_option length 0%nat (roll_listed r) in
  _ ← match roll_rule r with
      | Listed | MembersAndListed =>
          guard_err (bool_decide (listed = 0%nat))
            (InvalidManifest "a roll that lists parties must list at least one")
      | Members =>
          guard_err (bool_decide (listed ≠ 0%nat))
            (InvalidManifest "a members-only roll lists nobody")
      | CredentialRoll =>
          _ ← guard_err (bool_decide (roll_member_of r = None))
                (InvalidManifest "a credential roll names the DID in memberOf");
          guard_err (bool_decide (listed ≠ 0%nat))
            (InvalidManifest "a credential roll lists nobody")
      end;
  guard_err (bool_decide (is_Some (roll_member_of r)) && bool_decide (roll_rule r ≠ CredentialRoll))
    (InvalidManifest "only a credential roll names memberOf").

(** One question, after the keys already [seen]: the body of the loop. *)
Definition check_question (seen : gset string) (q : Question) : result RuleError (gset string) :=
  match key q with
  | None => Err (InvalidManifest "a question of a type this version does not serve")
  | Some k =>
      _ ← guard_err (bool_decide (k ∈ seen)) (InvalidManifest ("question key " +:+ k +:+ " repeats"));
      let opts := option_keys q in
      _ ← guard_err (bool_decide (distinct_len opts ≠ length opts))
            (InvalidManifest ("question " +:+ k +:+ " repeats an option key"));
      _ ← match q with
          | Choice _ options min max _ =>
              guard_err ((max <? min) || (Z.of_nat (length options) <? max))
                (InvalidManifest ("question " +:+ k +:+ ": minSelections <= maxSelections <= options"))
          | Score _ _ min max _ =>
              guard_err (max <=? min) (InvalidManifest ("question " +:+ k +:+ ": min < max"))
          | _ => Ok ()
          end;
      Ok ({[ k ]} ∪ seen)
  end.

(** A manifest's cross-field rules, for a service serving [served]. *)
Definition check_manifest_serving (m : Manifest) (own : option string)
    (served : list SecrecyLevel) : result RuleError unit :=
  _ ← guard_err (bool_decide (secrecy m ∉ served)) (UnsupportedSecrecy (secrecy_text (secrecy m)));
  _ ← if bool_decide (secrecy m = Open)
      then guard_err (bool_decide (is_Some (trustees m)))
             (InvalidManifest "an open election has no trustees")
      else check_trustees m;
  _ ← guard_err (negb ((registration_opens_at m <=? voting_opens_at m)
                       && (voting_opens_at m <? voting_closes_at m)))
        (InvalidManifest
           "the times must satisfy registrationOpensAt <= votingOpensAt < votingClosesAt");
  _ ← match own with
      | Some o => guard_err (bool_decide (ballot_box m ≠ o))
                    (InvalidManifest "ballotBox names another service")
      | None => Ok ()
      end;
  _ ← check_roll (roll m);
  _ ← guard_err (existsb (λ a, String.eqb a (community m) || String.eqb a (ballot_box m)) (auditors m))
        (InvalidManifest "neither the community nor the ballot box audits its own election");
  _ ← try_fold check_question ∅ (questions m);
  Ok ().

Definition check_manifest (m : Manifest) (own : option string) : result RuleError unit :=
  check_manifest_serving m own SERVED_LEVELS.

(** [serde_json::from_value::<Manifest>], generated from the schema. *)
Class ManifestWire := manifest_from_value : Value → result string Manifest.

(** A manifest as received, checked as a community checks one it creates. *)
Definition check_new_manifest `{ManifestWire} (manifest : Value) (now : Z)
  : result RuleError Manifest :=
  _ ← require_current_manifest manifest;
  m ← map_err InvalidManifest (manifest_from_value manifest);
  _ ← check_manifest m None;
  _ ← guard_err (voting_closes_at m <=? now) (InvalidManifest "votingClosesAt is already past");
  Ok m.

(** ** Ballots *)

(** How many answer members an answer carries. *)
Definition members (a : Answer) : nat :=
  let present {A} (o : option A) := match o with Some _ => 1%nat | None => 0%nat end in
  present (a_choice a) + present (a_ranking a)
  + (if bool_decide (a_scores a = ∅) then 0 else 1)
  + present (a_text a) + present (a_abstain a).

(** [str::chars().count()] of UTF-8: the bytes that start a character. *)
Definition chars_count (s : string) : Z :=
  Z.of_nat (length (filter (λ b, ¬ (128 ≤ Z_of_byte b < 192)) (as_bytes s))).

(** An answer as its question admits: the body of the loop after the
    abstention. *)
Definition check_given (q : Question) (a : Answer) : result RuleError unit :=
  let qkey := a_question a in
  let opts : gset string := list_to_set (option_keys q) in
  match q with
  | Choice _ _ min max _ =>
      match a_choice a with
      | None => Err (BallotInvalid ("question " +:+ qkey +:+ " takes a choice"))
      | Some choice =>
          let n := Z.of_nat (length choice) in
          _ ← guard_err ((n <? min) || (max <? n))
                (BallotInvalid ("question " +:+ qkey +:+ ": selection count"));
          guard_err (bool_decide (distinct_len choice ≠ length choice)
                     || existsb (λ k, bool_decide (k ∉ opts)) choice)
            (BallotInvalid ("question " +:+ qkey +:+ ": unknown or repeated option"))
      end
  | Ranking _ _ partial _ =>
      match a_ranking a with
      | None => Err (BallotInvalid ("question " +:+ qkey +:+ " takes a ranking"))
      | Some ranking =>
          let distinct := bool_decide (distinct_len ranking = length ranking) in
          let known := forallb (λ k, bool_decide (k ∈ opts)) ranking in
          let complete :=
            if partial then bool_decide (ranking ≠ []) else bool_decide (length ranking = size opts) in
          guard_err (negb (distinct && known && complete))
            (BallotInvalid ("question " +:+ qkey +:+ ": ranking"))
      end
  | Score _ _ min max _ =>
      _ ← guard_err (bool_decide (dom (a_scores a) ≠ opts))
            (BallotInvalid ("question " +:+ qkey +:+ ": score every option"));
      guard_err (existsb (λ v, (v <? min) || (max <? v)) (map_to_list (a_scores a)).*2)
        (BallotInvalid ("question " +:+ qkey +:+ ": score out of bounds"))
  | Text _ max_length _ =>
      match a_text a with
      | None => Err (BallotInvalid ("question " +:+ qkey +:+ " takes text"))
      | Some text =>
          guard_err (max_length <? chars_count text)
            (BallotInvalid ("question " +:+ qkey +:+ ": text too long"))
      end
  | Other => Err (BallotInvalid ("question " +:+ qkey +:+ ": unsupported type"))
  end.

(** One answer, after the questions already [answered]: the loop's body. *)
Definition check_answer (m : Manifest) (answered : gset string) (a : Answer)
  : result RuleError (gset string) :=
  let qkey := a_question a in
  match find (λ q, bool_decide (key q = Some qkey)) (questions m) with
  | None => Err (BallotInvalid ("no question " +:+ qkey))
  | Some q =>
      _ ← guard_err (bool_decide (qkey ∈ answered))
            (BallotInvalid ("question " +:+ qkey +:+ " answered twice"));
      _ ← guard_err (bool_decide (members a ≠ 1%nat))
            (BallotInvalid ("question " +:+ qkey +:+ ": exactly one answer member"));
      _ ← match a_abstain a with
          | Some v =>
              _ ← guard_err (bool_decide (v ≠ VBool true))
                    (BallotInvalid ("question " +:+ qkey +:+ ": abstain is true"));
              guard_err (negb (optional q))
                (BallotInvalid ("question " +:+ qkey +:+ " may not be left unanswered"))
          | None => check_given q a
          end;
      Ok ({[ qkey ]} ∪ answered)
  end.

(** A ballot against the manifest it was cast under. *)
Definition check_ballot `{Multibase} (m : Manifest) (digest : Hash) (b : Ballot)
  : result RuleError unit :=
  _ ← guard_err (bool_decide (b_election_id b ≠ election_id m)
                 || bool_decide (digest_from_multibase (b_manifest_digest b) ≠ Some digest))
        ManifestMismatch;
  answered ← try_fold (check_answer m) ∅ (b_answers b);
  match find (λ q, match key q with None => true | Some k => bool_decide (k ∉ answered) end)
          (questions m) with
  | Some q =>
      Err (BallotInvalid ("question " +:+ default "?" (key q)
             +:+ " unanswered (an optional question is answered with abstain)"))
  | None => Ok ()
  end.

(** ** What an acceptable manifest is *)

Definition question_ok (q : Question) : Prop :=
  is_Some (key q) ∧ NoDup (option_keys q)
  ∧ match q with
    | Choice _ options min max _ => min ≤ max ≤ Z.of_nat (length options)
    | Score _ _ min max _ => min < max
    | _ => True
    end.

Record trustees_ok (m : Manifest) (t : Trustees) : Prop := {
  few_trustees : (length (t_dids t) ≤ 64)%nat;
  threshold_fits : 2 ≤ t_threshold t ≤ Z.of_nat (length (t_dids t));
  trustees_distinct : NoDup (t_dids t);
  trustees_independent : (community m ∉ t_dids t) ∧ (ballot_box m ∉ t_dids t);
  no_running_totals : results_before_close m = false;
  tallied_choices :
    secrecy m = TalliedEncrypted → ∀ q, q ∈ questions m → is_choice q = true;
}.

Definition roll_ok (r : RollRule) : Prop :=
  let nobody := roll_listed r = None ∨ roll_listed r = Some [] in
  match roll_rule r with
  | Listed | MembersAndListed => ¬ nobody ∧ roll_member_of r = None
  | Members => nobody ∧ roll_member_of r = None
  | CredentialRoll => nobody ∧ is_Some (roll_member_of r)
  end.

Record manifest_ok (m : Manifest) (own : option string) : Prop := {
  secrecy_trustees :
    match secrecy m with
    | Open => trustees m = None
    | _ => ∃ t, trustees m = Some t ∧ trustees_ok m t
    end;
  times_ordered :
    registration_opens_at m ≤ voting_opens_at m ∧ voting_opens_at m < voting_closes_at m;
  own_box : ∀ o, own = Some o → ballot_box m = o;
  roll_is_ok : roll_ok (roll m);
  auditors_independent : (community m ∉ auditors m) ∧ (ballot_box m ∉ auditors m);
  questions_ok : Forall question_ok (questions m);
  keys_distinct : NoDup (omap key (questions m));
}.

(** ** Deciding it *)

Lemma distinct_len_NoDup l : distinct_len l = length l ↔ NoDup l.
Proof. apply size_list_to_set_NoDup. Qed.

Lemma not_independent m l :
  existsb (λ d, String.eqb d (community m) || String.eqb d (ballot_box m)) l = false
  ↔ (community m ∉ l) ∧ (ballot_box m ∉ l).
Proof.
  rewrite existsb_false. setoid_rewrite orb_false_iff. setoid_rewrite String.eqb_neq. split.
  - intros Hl. split; intros Hin; by destruct (Hl _ Hin).
  - intros [Hc Hb] x Hx. split; by intros ->.
Qed.

Lemma check_trustees_ok m :
  check_trustees m = Ok () ↔ ∃ t, trustees m = Some t ∧ trustees_ok m t.
Proof.
  unfold check_trustees. destruct (trustees m) as [t|]; [|naive_solver].
  transitivity (trustees_ok m t); [|naive_solver].
  case_bool_decide as H1; [split; [done|intros [Hf _ _ _ _ _]; unfold MAX_TRUSTEES in *; lia]|].
  destruct (_ || _) eqn:H2.
  { split; [done|]. intros [_ Hf _ _ _ _]. autorewrite with bools in H2. lia. }
  case_bool_decide as H3.
  { split; [done|]. intros [_ _ Hf%distinct_len_NoDup _ _ _]. done. }
  destruct (existsb _ (t_dids t)) eqn:H4.
  { split; [done|]. intros [_ _ _ Hf%not_independent _ _]. congruence. }
  destruct (results_before_close m) eqn:H5.
  { split; [done|]. intros [_ _ _ _ Hf _]. congruence. }
  apply not_independent in H4. autorewrite with bools in H2. unfold MAX_TRUSTEES in H1.
  destruct (_ && _) eqn:H6.
  - split; [done|]. intros [_ _ _ _ _ Hf]. apply andb_true_iff in H6 as [Hs Hq].
    apply bool_decide_eq_true in Hs. apply existsb_exists in Hq as (q & Hin%list_elem_of_In & Hq).
    by rewrite Hf in Hq.
  - split; [|done]. intros _. split; [lia|lia|apply distinct_len_NoDup; lia|done|done|].
    intros Hs q Hq. rewrite bool_decide_eq_true_2 in H6 by done. simpl in H6.
    rewrite existsb_false in H6. by apply negb_false_iff, H6.
Qed.

(** The bounds of a question, the last of its checks. *)
Lemma check_bounds_ok q k :
  match q with
  | Choice _ options min max _ =>
      guard_err ((max <? min) || (Z.of_nat (length options) <? max))
        (InvalidManifest ("question " +:+ k +:+ ": minSelections <= maxSelections <= options"))
  | Score _ _ min max _ =>
      guard_err (max <=? min) (InvalidManifest ("question " +:+ k +:+ ": min < max"))
  | _ => Ok ()
  end = Ok () ↔
  match q with
  | Choice _ options min max _ => min ≤ max ≤ Z.of_nat (length options)
  | Score _ _ min max _ => min < max
  | _ => True
  end.
Proof. destruct q; rewrite ?guard_ok; autorewrite with bools; try done; lia. Qed.

Lemma check_question_ok seen q s :
  check_question seen q = Ok s ↔
    question_ok q ∧ ∃ k, key q = Some k ∧ (k ∉ seen) ∧ s = {[ k ]} ∪ seen.
Proof.
  unfold check_question, question_ok. destruct (key q) as [k|].
  2: { split; [done|]. by intros [_ (k & ? & _)]. }
  rewrite !bind_unit_ok, !guard_ok, !bool_decide_eq_false, check_bounds_ok.
  assert (¬ distinct_len (option_keys q) ≠ length (option_keys q) ↔ NoDup (option_keys q)) as ->.
  { rewrite <- distinct_len_NoDup. lia. }
  split.
  - intros (? & ? & ? & [= <-]). split; [|by exists k]. by split; [exists k|].
  - by intros [(_ & ? & ?) (k' & [= <-] & ? & ->)].
Qed.

Lemma check_questions_ok seen qs :
  is_ok (try_fold check_question seen qs) = true ↔
    Forall question_ok qs ∧ NoDup (omap key qs) ∧ ∀ k, k ∈ omap key qs → k ∉ seen.
Proof.
  revert seen. induction qs as [|q qs IH]; intros seen; simpl.
  { split; [|done]. intros _. repeat split; [constructor..|]. by intros k ?%elem_of_nil. }
  rewrite Forall_cons. destruct (check_question seen q) as [s|e] eqn:E; simpl.
  - apply check_question_ok in E as (Hq & k & Hk & Hseen & ->). rewrite IH, Hk, NoDup_cons.
    setoid_rewrite elem_of_cons. set_solver.
  - split; [done|]. intros ([Hq Hqs] & Hnd & Hs).
    destruct Hq as [[k Hk] Hq]. rewrite Hk in Hs.
    enough (check_question seen q = Ok ({[ k ]} ∪ seen)) by congruence.
    apply check_question_ok. split; [by split|]. exists k. split; [done|]. split; [|done].
    apply Hs. apply list_elem_of_here.
Qed.

Lemma check_roll_ok r : check_roll r = Ok () ↔ roll_ok r.
Proof.
  unfold check_roll, roll_ok. rewrite bind_unit_ok, guard_ok.
  assert (from_option length 0%nat (roll_listed r) = 0%nat
          ↔ roll_listed r = None ∨ roll_listed r = Some []) as Hn.
  { destruct (roll_listed r) as [[]|]; naive_solver. }
  destruct (roll_rule r); rewrite ?bind_unit_ok, ?guard_ok; autorewrite with bools;
    rewrite <- Hn; destruct (roll_member_of r); simpl;
    try (pose proof (mk_is_Some (Some s) s eq_refl));
    try (pose proof is_Some_None (A := string)); intuition (try congruence; try lia; eauto).
Qed.

Lemma check_manifest_spec m own : check_manifest m own = Ok () ↔ manifest_ok m own.
Proof.
  unfold check_manifest, check_manifest_serving.
  rewrite !bind_unit_ok, !guard_ok, check_roll_ok, not_independent. autorewrite with bools.
  assert ((∃ s, try_fold check_question ∅ (questions m) = Ok s)
          ↔ Forall question_ok (questions m) ∧ NoDup (omap key (questions m))) as Hq.
  { transitivity (is_ok (try_fold check_question ∅ (questions m)) = true).
    - destruct (try_fold _ _ _); naive_solver.
    - rewrite check_questions_ok. set_solver. }
  rewrite bind_ok.
  assert ((∃ s, try_fold check_question ∅ (questions m) = Ok s ∧ (Ok () : result RuleError unit) = Ok ())
          ↔ ∃ s, try_fold check_question ∅ (questions m) = Ok s) as -> by naive_solver.
  rewrite Hq.
  assert ((if bool_decide (secrecy m = Open)
           then guard_err (bool_decide (is_Some (trustees m)))
                  (InvalidManifest "an open election has no trustees")
           else check_trustees m) = Ok ()
          ↔ match secrecy m with
            | Open => trustees m = None
            | _ => ∃ t, trustees m = Some t ∧ trustees_ok m t
            end) as ->.
  { destruct (secrecy m) eqn:Hs; rewrite ?bool_decide_eq_true_2, ?bool_decide_eq_false_2 by done;
      [|apply check_trustees_ok..].
    rewrite guard_ok, bool_decide_eq_false. by rewrite eq_None_not_Some. }
  assert (match own with
          | Some o => guard_err (bool_decide (ballot_box m ≠ o))
                        (InvalidManifest "ballotBox names another service")
          | None => Ok ()
          end = Ok () ↔ ∀ o, own = Some o → ballot_box m = o) as ->.
  { destruct own as [o|]; [rewrite guard_ok, bool_decide_eq_false|]; [|naive_solver].
    destruct (decide (ballot_box m = o)); naive_solver. }
  split.
  - by intros (_ & ? & ? & ? & ? & ? & ? & ?); split.
  - intros [? ? ? ? ? ? ?]. split; [|done].
    intros Hn. apply Hn. unfold SERVED_LEVELS. destruct (secrecy m); set_solver.
Qed.

(** A manifest is accepted exactly when it is well-formed: the checks of
    a ballot box serving every level accept a manifest if and only if its
    times are ordered, its trustees fit its secrecy level, its roll lists whom
    its rule says, no party audits or decrypts its own election, and its
    questions have distinct keys, distinct options and satisfiable bounds. *)
Theorem check_manifest_iff m own : check_manifest m own = Ok () ↔ manifest_ok m own.
Proof. apply check_manifest_spec. Qed.

(** ** What an acceptable ballot is *)

Definition given_ok (q : Question) (a : Answer) : Prop :=
  match q with
  | Choice _ _ min max _ =>
      ∃ c, a_choice a = Some c ∧ min ≤ Z.of_nat (length c) ≤ max ∧ NoDup c ∧ c ⊆ option_keys q
  | Ranking _ _ partial _ =>
      ∃ r, a_ranking a = Some r ∧ NoDup r ∧ r ⊆ option_keys q
           ∧ if partial then r ≠ [] else option_keys q ⊆ r
  | Score _ _ min max _ =>
      dom (a_scores a) = list_to_set (option_keys q)
      ∧ ∀ k v, a_scores a !! k = Some v → min ≤ v ≤ max
  | Text _ max_length _ => ∃ t, a_text a = Some t ∧ chars_count t ≤ max_length
  | Other => False
  end.

(** The answer that abstains from a question. *)
Definition abstention (k : string) : Answer := mk_answer k None None ∅ None (Some (VBool true)).

Inductive answer_ok (q : Question) (a : Answer) : Prop :=
| abstains : optional q = true → a = abstention (a_question a) → answer_ok q a
| gives : members a = 1%nat → a_abstain a = None → given_ok q a → answer_ok q a.

Record ballot_ok `{Multibase} (m : Manifest) (digest : Hash) (b : Ballot) : Prop := {
  names_election : b_election_id b = election_id m;
  names_manifest : digest_from_multibase (b_manifest_digest b) = Some digest;
  answers_each_once : a_question <$> b_answers b ≡ₚ omap key (questions m);
  keys_known : ∀ q, q ∈ questions m → is_Some (key q);
  answers_fit : ∀ a q, a ∈ b_answers b → q ∈ questions m → key q = Some (a_question a) →
    answer_ok q a;
}.

(** ** Deciding it *)

Lemma ranking_complete r (opts : list string) :
  NoDup r → r ⊆ opts →
  length r = size (list_to_set opts : gset string) ↔ opts ⊆ r.
Proof.
  intros Hnd Hsub. rewrite <- (size_list_to_set (C := gset string)) by done. split.
  - intros Hs k Hk. apply (elem_of_list_to_set (C := gset string)).
    rewrite (set_subseteq_size_eq (list_to_set r) (list_to_set opts : gset string));
      [by apply elem_of_list_to_set|set_solver|lia].
  - intros Hsup. f_equal. set_solver.
Qed.

Lemma check_given_ok q a : check_given q a = Ok () ↔ given_ok q a.
Proof.
  assert (∀ (l : list string) (X : gset string),
    existsb (λ k, bool_decide (k ∉ X)) l = false ↔ ∀ k, k ∈ l → k ∈ X) as Hsub.
  { intros l X. rewrite existsb_false. setoid_rewrite bool_decide_eq_false.
    split; intros Hl k Hk; specialize (Hl k Hk); [by apply dec_stable|by intros Hn]. }
  assert (∀ l, ¬ distinct_len l ≠ length l ↔ NoDup l) as Hnd.
  { intros l. rewrite <- distinct_len_NoDup. lia. }
  unfold check_given, given_ok. destruct q as [k os mn mx o|k os pa o|k os mn mx o|k mx o|]; [..|done].
  - destruct (a_choice a) as [c|]; [|naive_solver].
    rewrite bind_unit_ok, !guard_ok, !orb_false_iff, bool_decide_eq_false, Hsub, Hnd.
    setoid_rewrite elem_of_list_to_set. autorewrite with bools.
    split; [intros ([??] & ? & ?); exists c; naive_solver lia|].
    intros (c' & [= <-] & ? & ? & ?). split; [lia|done].
  - destruct (a_ranking a) as [r|]; [|naive_solver].
    rewrite guard_ok, negb_false_iff, !andb_true_iff, bool_decide_eq_true, distinct_len_NoDup,
      forallb_true. setoid_rewrite bool_decide_eq_true. setoid_rewrite elem_of_list_to_set.
    split.
    + intros [[Hd Hk] Hc]. exists r. repeat split; try done. destruct pa; [by apply bool_decide_eq_true in Hc|].
      apply bool_decide_eq_true in Hc. by apply ranking_complete in Hc.
    + intros (r' & [= <-] & Hd & Hk & Hc). repeat split; try done.
      destruct pa; apply bool_decide_eq_true; [done|]. by apply ranking_complete.
  - rewrite bind_unit_ok, !guard_ok, bool_decide_eq_false, existsb_false.
    setoid_rewrite list_elem_of_fmap. setoid_rewrite orb_false_iff. setoid_rewrite Z.ltb_ge.
    split; intros [Hd Hv]; split.
    + by apply dec_stable.
    + intros k' v Hk'. apply Hv. exists (k', v). by rewrite elem_of_map_to_list.
    + by intros Hn.
    + intros v ([k' v'] & -> & Hk'%elem_of_map_to_list). by apply (Hv k').
  - destruct (a_text a) as [t|]; [|naive_solver]. rewrite guard_ok, Z.ltb_ge. naive_solver.
Qed.

Lemma check_answer_ok m answered a s :
  check_answer m answered a = Ok s ↔
    (∃ q, find (λ q, bool_decide (key q = Some (a_question a))) (questions m) = Some q
          ∧ answer_ok q a)
    ∧ (a_question a ∉ answered) ∧ s = {[ a_question a ]} ∪ answered.
Proof.
  unfold check_answer. destruct (find _ _) as [q|]; [|naive_solver].
  rewrite !bind_unit_ok, !guard_ok, !bool_decide_eq_false.
  assert (members a = 1%nat ∧ match a_abstain a with
          | Some v =>
              _ ← guard_err (bool_decide (v ≠ VBool true))
                    (BallotInvalid ("question " +:+ a_question a +:+ ": abstain is true"));
              guard_err (negb (optional q))
                (BallotInvalid ("question " +:+ a_question a +:+ " may not be left unanswered"))
          | None => check_given q a
          end = Ok () ↔ answer_ok q a) as Ha.
  { destruct a as [qk c r sc t [v|]] eqn:Hea; simpl.
    - rewrite bind_unit_ok, !guard_ok, bool_decide_eq_false, negb_false_iff. split.
      + intros (Hm & Hv & Ho). apply dec_stable in Hv as ->. apply abstains; [done|].
        unfold members in Hm. simpl in Hm.
        destruct c, r, t; try lia. case_bool_decide; [by subst|lia].
      + intros [Ho Heq|Hm Hab _]; [|done]. unfold abstention in Heq. simplify_eq/=.
        split; [done|]. split; [|done]. by intros Hn.
    - rewrite check_given_ok. split; [intros [? ?]; by apply gives|].
      by intros [Ho Heq|Hm Hab Hg]. }
  split.
  - intros (? & ? & ? & [= <-]). split; [exists q; split; [done|]; apply Ha; split; [lia|done]|done].
  - intros ((q' & [= <-] & [Hm Hg]%Ha) & ? & ->). split; [done|]. split; [lia|done].
Qed.

Lemma check_answers_ok m answered l s :
  try_fold (check_answer m) answered l = Ok s ↔
    (∀ a, a ∈ l → ∃ q, find (λ q, bool_decide (key q = Some (a_question a))) (questions m) = Some q
                       ∧ answer_ok q a)
    ∧ NoDup (a_question <$> l) ∧ (∀ a, a ∈ l → a_question a ∉ answered)
    ∧ s = list_to_set (a_question <$> l) ∪ answered.
Proof.
  revert answered. induction l as [|a l IH]; intros answered; cbn [try_fold].
  { simpl. rewrite union_empty_l_L. split; [intros [= <-]|by intros (_ & _ & _ & ->)].
    repeat split; [by intros a ?%elem_of_nil|constructor|by intros a ?%elem_of_nil]. }
  rewrite bind_ok. setoid_rewrite check_answer_ok. setoid_rewrite IH.
  rewrite fmap_cons, list_to_set_cons, NoDup_cons. setoid_rewrite elem_of_cons. split.
  - intros (s' & (Hq & Hna & ->) & Hall & Hnd & Hl & ->).
    split; [naive_solver|]. split.
    { split; [|done]. rewrite list_elem_of_fmap. intros (a' & Heq & Ha'%Hl). set_solver. }
    split; [|set_solver]. intros a' [->|Ha']; [done|]. specialize (Hl a' Ha'). set_solver.
  - intros (Hall & [Hna Hnd] & Hl & ->). eexists. split; [by split; [apply Hall; left|split; [apply Hl; by left|]]|].
    split; [naive_solver|]. split; [done|]. split; [|set_solver].
    intros a' Ha'. rewrite not_elem_of_union, not_elem_of_singleton. split; [|naive_solver].
    intros Heq. apply Hna. rewrite <- Heq. by apply list_elem_of_fmap_2.
Qed.

(** With distinct keys, the question found by key is the one with that key. *)
Lemma find_question m k q :
  NoDup (omap key (questions m)) →
  find (λ q, bool_decide (key q = Some k)) (questions m) = Some q
  ↔ q ∈ questions m ∧ key q = Some k.
Proof.
  induction (questions m) as [|q0 qs IH]; [set_solver|]. intros Hnd. cbn [find].
  rewrite elem_of_cons. case_bool_decide as Hk.
  - cbn [omap list_omap] in Hnd. rewrite Hk in Hnd. apply NoDup_cons in Hnd as [Hni _].
    split; [naive_solver|]. intros [[->|Hin] Hq]; [done|].
    destruct Hni. apply list_elem_of_omap. by exists q.
  - rewrite IH; [naive_solver|]. cbn [omap list_omap] in Hnd.
    destruct (key q0); [by apply NoDup_cons in Hnd as [_ ?]|done].
Qed.

Section Ballots.
Context `{Multibase}.

Lemma check_ballot_raw m digest b :
  check_ballot m digest b = Ok () ↔
    b_election_id b = election_id m
    ∧ digest_from_multibase (b_manifest_digest b) = Some digest
    ∧ (∀ a, a ∈ b_answers b →
         ∃ q, find (λ q, bool_decide (key q = Some (a_question a))) (questions m) = Some q
              ∧ answer_ok q a)
    ∧ NoDup (a_question <$> b_answers b)
    ∧ ∀ q, q ∈ questions m → ∃ k, key q = Some k ∧ k ∈ a_question <$> b_answers b.
Proof.
  unfold check_ballot. rewrite bind_unit_ok, bind_ok, guard_ok, orb_false_iff, !bool_decide_eq_false.
  setoid_rewrite check_answers_ok.
  assert (∀ s : gset string,
    match find (λ q, match key q with None => true | Some k => bool_decide (k ∉ s) end)
            (questions m) with
    | Some q => Err (BallotInvalid ("question " +:+ default "?" (key q)
             +:+ " unanswered (an optional question is answered with abstain)"))
    | None => Ok ()
    end = Ok () ↔ ∀ q, q ∈ questions m → ∃ k, key q = Some k ∧ k ∈ s) as Hfind.
  { intros s. transitivity (find (λ q, match key q with None => true
      | Some k => bool_decide (k ∉ s) end) (questions m) = None); [destruct (find _ _); naive_solver|].
    rewrite find_none_elem. split; intros Hq q Hin; specialize (Hq q Hin).
    - destruct (key q) as [k|]; [|done]. exists k. split; [done|].
      apply bool_decide_eq_false in Hq. by apply dec_stable.
    - destruct Hq as (k & -> & Hk). apply bool_decide_eq_false. by intros Hn. }
  setoid_rewrite Hfind. split.
  - intros ([Hid Hd] & s & (Hall & Hnd & _ & ->) & Hq).
    split; [by apply dec_stable|]. split; [by apply dec_stable|]. do 2 (split; [done|]).
    intros q Hin. destruct (Hq q Hin) as (k & Hk & Hks). exists k. set_solver.
  - intros (-> & -> & Hall & Hnd & Hq). split; [naive_solver|]. eexists.
    split; [by split_and!; [..|set_solver|]|]. intros q Hin.
    destruct (Hq q Hin) as (k & Hk & Hks). exists k. set_solver.
Qed.

Lemma check_ballot_spec m own digest b :
  manifest_ok m own → check_ballot m digest b = Ok () ↔ ballot_ok m digest b.
Proof.
  intros [_ _ _ _ _ Hqs Hkeys]. rewrite check_ballot_raw. split.
  - intros (Hid & Hd & Hall & Hnd & Hq). split; try done.
    + apply NoDup_Permutation; [done..|]. intros k. rewrite list_elem_of_omap, list_elem_of_fmap.
      split; [|intros (q & Hin & Hk); destruct (Hq q Hin) as (k' & ? & Hk'); simplify_eq;
               by apply list_elem_of_fmap in Hk'].
      intros (a & -> & Ha). destruct (Hall a Ha) as (q & Hf & _).
      apply find_question in Hf as [Hin Hk]; [|done]. by exists q.
    + intros q Hin. destruct (Hq q Hin) as (k & -> & _). by exists k.
    + intros a q Ha Hin Hk. destruct (Hall a Ha) as (q' & Hf & Hok).
      assert (find (λ q, bool_decide (key q = Some (a_question a))) (questions m) = Some q) as Hf'
        by (by apply find_question). by simplify_eq.
  - intros [Hid Hd Hperm Hkn Hfit]. do 2 (split; [done|]). split_and!.
    + intros a Ha. assert (a_question a ∈ omap key (questions m)) as (q & Hin & Hk)%list_elem_of_omap.
      { rewrite <- Hperm. by apply list_elem_of_fmap_2. }
      exists q. split; [by apply find_question|]. by apply (Hfit a q).
    + by rewrite Hperm.
    + intros q Hin. destruct (Hkn q Hin) as [k Hk]. exists k. split; [done|].
      rewrite Hperm. apply list_elem_of_omap. by exists q.
Qed.

(** C33 (a ballot is accepted exactly when it answers the manifest): under an
    accepted manifest, the check accepts a ballot if and only if it names the
    election and manifest, answers every question exactly once, and gives each
    the kind of answer it takes within its bounds, or abstains where it may. *)
Theorem check_ballot_iff m own digest b :
  check_manifest m own = Ok () → check_ballot m digest b = Ok () ↔ ballot_ok m digest b.
Proof. intros Hm%check_manifest_spec. by eapply check_ballot_spec. Qed.
End Ballots.

(** ** Digests on the wire *)

Lemma digest_multibase_decode `{Multibase} `{!MultibaseLaws} (d : Hash) :
  digest_from_multibase (digest_multibase d) = Some d.
Proof.
  unfold digest_from_multibase, digest_multibase. rewrite multibase_roundtrip.
  apply hash_of_bytes_vec.
Qed.

(** Digests survive the wire: the multihash text of a digest reads back
    as that digest, so two digests never share a text. *)
Theorem digest_multibase_roundtrip `{Multibase} `{!MultibaseLaws} (d e : Hash) :
  digest_from_multibase (digest_multibase d) = Some d
  ∧ (digest_multibase d = digest_multibase e → d = e).
Proof.
  split; [apply digest_multibase_decode|]. intros Heq.
  apply (f_equal digest_from_multibase) in Heq. rewrite !digest_multibase_decode in Heq. congruence.
Qed.

(** A manifest a community creates is well-formed and its voting is still to
    close, whatever the wire parser is. *)
Lemma check_new_manifest_spec `{ManifestWire} v now m :
  check_new_manifest v now = Ok m →
  manifest_ok m None ∧ now < voting_closes_at m
  ∧ ∀ k, k ∈ V0_1_INSTANTS → json_get v k = None.
Proof.
  unfold check_new_manifest. rewrite bind_unit_ok. intros [Hcur Hrest].
  apply bind_ok in Hrest as (m' & _ & Hrest).
  rewrite !bind_unit_ok, guard_ok, check_manifest_spec, Z.leb_gt in Hrest.
  destruct Hrest as (Hm & Ht & [= <-]). split; [done|]. split; [done|].
  unfold require_current_manifest in Hcur. destruct (existsb _ _) eqn:He; [done|].
  rewrite existsb_false in He. intros k Hk%He. apply bool_decide_eq_false in Hk.
  by apply eq_None_not_Some.
Qed.

(** ** Witnesses *)

Module ToyElection.
#[local] Existing Instance Toy.multibase.

Definition digest : Hash := vec_pad 32 [x07].

Definition manifest (rv : ManifestRevote) : Manifest := {|
  election_id := "e1";
  community := "did:web:club";
  questions :=
    [Choice "motion" [mk_option "yes"; mk_option "no"] 1 1 true;
     Ranking "order" [mk_option "a"; mk_option "b"] true false;
     Score "rate" [mk_option "x"] 0 5 false;
     Text "why" 100 true];
  secrecy := Open;
  roll := mk_roll Members None None;
  registration_opens_at := 0;
  voting_opens_at := 10;
  voting_closes_at := 20;
  revote := rv;
  board_public := true;
  auditors := ["did:web:auditor"];
  ballot_box := "did:web:box";
  binding := false;
  allow_early_close := false;
  results_before_close := true;
  text_release_threshold := 1;
  trustees := None;
|}.

Definition ballot (choice : option string) (text : option string) : Ballot :=
  mk_ballot "e1" (digest_multibase digest)
    [match choice with
     | Some c => mk_answer "motion" (Some [c]) None ∅ None None
     | None => abstention "motion"
     end;
     mk_answer "order" None (Some ["b"]) ∅ None None;
     mk_answer "rate" None None {[ "x" := 3 ]} None None;
     match text with
     | Some t => mk_answer "why" None None ∅ (Some t) None
     | None => abstention "why"
     end].
End ToyElection.

Lemma check_ballot_iff_witness :
  @check_ballot Toy.multibase (ToyElection.manifest RevoteReplace) ToyElection.digest
    (ToyElection.ballot (Some "yes") None) = Ok ()
  ∧ @ballot_ok Toy.multibase (ToyElection.manifest RevoteReplace) ToyElection.digest
      (ToyElection.ballot (Some "yes") None).
Proof.
  split; [vm_compute; reflexivity|].
  apply (@check_ballot_iff Toy.multibase _ None); vm_compute; reflexivity.
Defined.

Lemma digest_multibase_roundtrip_witness :
  @digest_from_multibase Toy.multibase (@digest_multibase Toy.multibase ToyElection.digest)
    = Some ToyElection.digest.
Proof.
  exact (proj1 (@digest_multibase_roundtrip Toy.multibase Toy.multibase_laws
                  ToyElection.digest ToyElection.digest)).
Defined.
