(* ===== verification/Tally.v ===== *)
(** * Counting

    [vti-voting/src/tally.rs]: an election's totals from the ballots its board
    counts. The loops are translated as folds over the answers; an index out
    of range, which would panic, is [None]. The fold of each question type is
    proved equal to a declarative row that counts ballots. *)

From S2P Require Import Prelude Json Election Rules.

(** [serde_json::from_value::<QuestionResult>], generated from the schema. *)
Class ResultWire := {
  QuestionResult : Type;
  question_result_from_value : Value → result string QuestionResult;
}.

(** ** Tallied-encrypted rows *)

(** One question's row from each option's decrypted total. *)
Definition tallied_row (total : string → string → option Z) (n : Z) (q : Question)
  : result RuleError Value :=
  match q with
  | Choice _ _ _ max_selections _ =>
      let qkey := default "" (key q) in
      '(counts, sum) ←
        try_fold (λ '(counts, sum) o,
          c ← ok_or (total qkey o) (InvalidManifest ("no total for " +:+ qkey +:+ "/" +:+ o));
          Ok (<[o := c]> counts, (sum + c) mod 2 ^ 64))
        ((∅, 0) : gmap string Z * Z) (option_keys q);
      let abstained := if max_selections =? 1 then u64_saturating_sub n sum else 0 in
      Ok (mk_obj (<["question" := VStr qkey]> (<["choice" := mk_obj (VNum <$> counts)]>
                   {[ "abstained" := VNum abstained ]})))
  | _ => Err (InvalidManifest "a tallied-encrypted election asks choices only")
  end.

Definition tallied_rows (m : Manifest) (total : string → string → option Z) (n : Z)
  : result RuleError (list Value) :=
  try_map (tallied_row total n) (questions m).

(** ** Rows from ballots *)

(** The answer a ballot gives to a question: the first that names it. *)
Definition answer_to (qkey : string) (b : Ballot) : option Answer :=
  find (λ a, String.eqb (a_question a) qkey) (b_answers b).

(** A map with one value per option, as the loops start from. *)
Definition per_option {A} (opts : list string) (f : string → A) : gmap string A :=
  list_to_map ((λ o, (o, f o)) <$> opts).

(** [*counts.entry(k).or_default() += 1]. *)
Definition bump (counts : gmap string Z) (k : string) : gmap string Z :=
  <[k := default 0 (counts !! k) + 1]> counts.

Definition tally_choice (opts : list string) (answers : list Answer) : gmap string Z * Z :=
  fold_left (λ '(counts, abstained) a,
    match a_choice a with
    | Some choice => (fold_left bump choice counts, abstained)
    | None => (counts, abstained + 1)
    end) answers (per_option opts (λ _, 0), 0).

(** [if let Some(p) = positions.get_mut(k) { p[pos] += 1 }]. *)
Definition bump_position (positions : gmap string (list Z)) (pos : nat) (k : string)
  : option (gmap string (list Z)) :=
  match positions !! k with
  | None => Some positions
  | Some p => x ← p !! pos; Some (<[k := <[pos := x + 1]> p]> positions)
  end.

(** The ranking's enumerated loop, from position [pos]. *)
Fixpoint bump_ranking (positions : gmap string (list Z)) (pos : nat) (ranking : list string)
  : option (gmap string (list Z)) :=
  match ranking with
  | [] => Some positions
  | k :: rest => positions' ← bump_position positions pos k; bump_ranking positions' (S pos) rest
  end.

Fixpoint tally_ranking_from (positions : gmap string (list Z)) (abstained : Z)
    (answers : list Answer) : option (gmap string (list Z) * Z) :=
  match answers with
  | [] => Some (positions, abstained)
  | a :: rest =>
      match a_ranking a with
      | Some ranking =>
          positions' ← bump_ranking positions 0 ranking;
          tally_ranking_from positions' abstained rest
      | None => tally_ranking_from positions (abstained + 1) rest
      end
  end.

Definition tally_ranking (opts : list string) (answers : list Answer)
  : option (gmap string (list Z) * Z) :=
  tally_ranking_from (per_option opts (λ _, replicate (length opts) 0)) 0 answers.

(** One scored option. *)
Definition bump_score (sums : gmap string (Z * Z)) (kv : string * Z) : gmap string (Z * Z) :=
  let e := default (0, 0) (sums !! kv.1) in
  <[kv.1 := (i64_saturating_add e.1 kv.2, e.2 + 1)]> sums.

Definition tally_score (opts : list string) (answers : list Answer) : gmap string (Z * Z) * Z :=
  fold_left (λ '(sums, abstained) a,
    if bool_decide (a_scores a = ∅) then (sums, abstained + 1)
    else (fold_left bump_score (map_to_list (a_scores a)) sums, abstained))
    answers (per_option opts (λ _, (0, 0)), 0).

Definition tally_text (answers : list Answer) : list string * Z :=
  fold_left (λ '(texts, abstained) a,
    match a_text a with
    | Some t => (texts ++ [t], abstained)
    | None => (texts, abstained + 1)
    end) answers ([], 0).

Definition json_score (e : Z * Z) : Value :=
  mk_obj (<["sum" := VNum e.1]> {[ "count" := VNum e.2 ]}).

(** A question's row: the members the loop inserts. *)
Definition row_obj (qkey : string) (abstained : Z) (members : gmap string Value) : Value :=
  mk_obj (<["abstained" := VNum abstained]> (<["question" := VStr qkey]> members)).

(** One question of the loop; [None] is a panic. *)
Definition tally_row (release_text : bool) (counted : list Ballot) (q : Question)
  : option (result RuleError Value) :=
  match key q with
  | None => Some (Err (InvalidManifest "a question of a type this version does not serve"))
  | Some qkey =>
      let opts := option_keys q in
      let answers := omap (answer_to qkey) counted in
      match q with
      | Choice _ _ _ _ _ =>
          let '(counts, abstained) := tally_choice opts answers in
          Some (Ok (row_obj qkey abstained {[ "choice" := mk_obj (VNum <$> counts) ]}))
      | Ranking _ _ _ _ =>
          '(positions, abstained) ← tally_ranking opts answers;
          Some (Ok (row_obj qkey abstained
            {[ "ranking" := mk_obj ((λ p, VArr (VNum <$> p)) <$> positions) ]}))
      | Score _ _ _ _ _ =>
          let '(sums, abstained) := tally_score opts answers in
          Some (Ok (row_obj qkey abstained {[ "score" := mk_obj (json_score <$> sums) ]}))
      | Text _ _ _ =>
          let '(texts, abstained) := tally_text answers in
          Some (Ok (row_obj qkey abstained
            (if release_text then {[ "text" := VArr (VStr <$> texts) ]}
             else {[ "withheld" := VBool true ]})))
      | Other => Some (Err (InvalidManifest "a question of a type this version does not serve"))
      end
  end.

Section Wire.
Context `{ResultWire}.

Fixpoint tally_loop (release_text : bool) (counted : list Ballot) (qs : list Question)
  : option (result RuleError (list QuestionResult)) :=
  match qs with
  | [] => Some (Ok [])
  | q :: rest =>
      row ← tally_row release_text counted q;
      match v ← row; map_err RuleSerialization (question_result_from_value v) with
      | Err e => Some (Err e)
      | Ok r => rs ← tally_loop release_text counted rest; Some (map_ok (cons r) rs)
      end
  end.

(** Totals per question, in the manifest's order, over the ballots in the
    order the caller's iterator yields them. *)
Definition tally (m : Manifest) (counted : list Ballot) (provisional : bool)
  : option (result RuleError (Z * list QuestionResult)) :=
  let n := Z.of_nat (length counted) in
  let release_text := negb provisional && (text_release_threshold m <=? n) in
  out ← tally_loop release_text counted (questions m);
  Some (map_ok (pair n) out).
End Wire.

(** ** What a row means *)

(** How many ballots have a property. *)
Definition count (P : Ballot → bool) (l : list Ballot) : Z := Z.of_nat (length (List.filter P l)).

Definition abstained_on (qkey : string) (b : Ballot) : bool :=
  match answer_to qkey b with Some a => bool_decide (is_Some (a_abstain a)) | None => false end.

Definition selected (qkey o : string) (b : Ballot) : bool :=
  match answer_to qkey b ≫= a_choice with Some c => bool_decide (o ∈ c) | None => false end.

Definition ranked_at (qkey o : string) (i : nat) (b : Ballot) : bool :=
  match answer_to qkey b ≫= a_ranking with
  | Some r => bool_decide (r !! i = Some o)
  | None => false
  end.

(** The scores an option was given, in the ballots' order. *)
Definition scores_of (qkey o : string) (l : list Ballot) : list Z :=
  omap (λ b, answer_to qkey b ≫= λ a, a_scores a !! o) l.

Definition texts_of (qkey : string) (l : list Ballot) : list string :=
  omap (λ b, answer_to qkey b ≫= a_text) l.

(** The row a question should have: each number counts the ballots it is the
    number of. *)
Definition counted_row (release_text : bool) (l : list Ballot) (q : Question) (qkey : string)
  : Value :=
  let opts := option_keys q in
  row_obj qkey (count (abstained_on qkey) l)
    match q with
    | Choice _ _ _ _ _ =>
        {[ "choice" := mk_obj (per_option opts (λ o, VNum (count (selected qkey o) l))) ]}
    | Ranking _ _ _ _ =>
        {[ "ranking" := mk_obj (per_option opts (λ o,
             VArr ((λ i, VNum (count (ranked_at qkey o i) l)) <$> seq 0 (length opts)))) ]}
    | Score _ _ _ _ _ =>
        {[ "score" := mk_obj (per_option opts (λ o,
             json_score (fold_left i64_saturating_add (scores_of qkey o l) 0,
                         Z.of_nat (length (scores_of qkey o l))))) ]}
    | _ =>
        if release_text then {[ "text" := VArr (VStr <$> texts_of qkey l) ]}
        else {[ "withheld" := VBool true ]}
    end.

(** ** Maps with one value per option *)

Lemma lookup_per_option {A} opts (f : string → A) o :
  per_option opts f !! o = if decide (o ∈ opts) then Some (f o) else None.
Proof.
  unfold per_option. induction opts as [|p opts IH]; [done|]. csimpl.
  destruct (decide (p = o)) as [->|Hne].
  - rewrite lookup_insert_eq, decide_True; [done|]. apply list_elem_of_here.
  - rewrite lookup_insert_ne, IH by done. apply decide_ext. rewrite elem_of_cons. naive_solver.
Qed.

Lemma lookup_per_option_in {A} opts (f : string → A) o :
  o ∈ opts → per_option opts f !! o = Some (f o).
Proof. intros Ho. by rewrite lookup_per_option, decide_True. Qed.

Lemma per_option_ext {A} opts (f g : string → A) :
  (∀ o, o ∈ opts → f o = g o) → per_option opts f = per_option opts g.
Proof.
  intros Hfg. apply map_eq. intros o. rewrite !lookup_per_option.
  destruct (decide _) as [Ho|]; [by rewrite Hfg|done].
Qed.

Lemma per_option_insert {A} opts (f : string → A) k v :
  k ∈ opts →
  <[k := v]> (per_option opts f) = per_option opts (λ o, if decide (o = k) then v else f o).
Proof.
  intros Hk. apply map_eq. intros o. destruct (decide (o = k)) as [->|Hne].
  - by rewrite lookup_insert_eq, lookup_per_option_in, decide_True.
  - rewrite lookup_insert_ne, !lookup_per_option by done. by rewrite (decide_False (P := o = k)).
Qed.

Lemma per_option_fmap {A B} opts (f : string → A) (g : A → B) :
  g <$> per_option opts f = per_option opts (g ∘ f).
Proof.
  apply map_eq. intros o. rewrite lookup_fmap, !lookup_per_option. by destruct (decide _).
Qed.

(** ** Accepted ballots *)

Lemma count_nil P : count P [] = 0.
Proof. done. Qed.

Lemma count_cons P b l : count P (b :: l) = (if P b then 1 else 0) + count P l.
Proof. unfold count. simpl. destruct (P b); simpl; lia. Qed.

(** A ballot that answers a question as it should be answered. *)
Definition answers_well (q : Question) (k : string) (b : Ballot) : Prop :=
  ∃ a, answer_to k b = Some a ∧ answer_ok q a.

Lemma ballot_answers `{Multibase} m d b q k :
  ballot_ok m d b → q ∈ questions m → key q = Some k → answers_well q k b.
Proof.
  intros [_ _ Hperm _ Hfit] Hq Hk.
  assert (k ∈ a_question <$> b_answers b) as (a & -> & Ha)%list_elem_of_fmap.
  { rewrite Hperm. apply list_elem_of_omap. by exists q. }
  unfold answers_well, answer_to.
  destruct (find _ (b_answers b)) as [a'|] eqn:Hf.
  - apply find_some in Hf as [Hin Heq%String.eqb_eq]. apply list_elem_of_In in Hin.
    exists a'. split; [done|]. apply Hfit; [done..|]. by rewrite Heq.
  - rewrite find_none_elem in Hf. specialize (Hf a Ha). by rewrite String.eqb_refl in Hf.
Qed.

(** ** Choices *)

Lemma fold_bump opts c f :
  NoDup c → c ⊆ opts →
  fold_left bump c (per_option opts f)
  = per_option opts (λ o, f o + if bool_decide (o ∈ c) then 1 else 0).
Proof.
  revert f. induction c as [|k c IH]; intros f Hnd Hsub; cbn [fold_left].
  { apply per_option_ext. intros o _. rewrite bool_decide_eq_false_2 by apply not_elem_of_nil. lia. }
  apply NoDup_cons in Hnd as [Hk Hnd]. assert (k ∈ opts) as Hin by (apply Hsub, list_elem_of_here).
  unfold bump at 2. rewrite lookup_per_option_in, per_option_insert by done. simpl.
  rewrite IH by (done || set_solver). apply per_option_ext. intros o _.
  destruct (decide (o = k)) as [->|Hne].
  - rewrite (bool_decide_eq_false_2 (k ∈ c)), bool_decide_eq_true_2 by set_solver. lia.
  - f_equal. by rewrite (bool_decide_ext (o ∈ k :: c) (o ∈ c)) by set_solver.
Qed.

Lemma tally_choice_from q k opts l f ab :
  is_choice q = true → option_keys q = opts → Forall (answers_well q k) l →
  fold_left (λ '(counts, abstained) a,
    match a_choice a with
    | Some choice => (fold_left bump choice counts, abstained)
    | None => (counts, abstained + 1)
    end) (omap (answer_to k) l) (per_option opts f, ab)
  = (per_option opts (λ o, f o + count (selected k o) l), ab + count (abstained_on k) l).
Proof.
  intros Hq Ho Hl. destruct q as [qk os mn mx op| | | |]; try done. clear Hq.
  revert f ab. induction Hl as [|b l (a & Ha & Hok) Hl IH]; intros f ab; csimpl.
  { rewrite Z.add_0_r. f_equal. apply per_option_ext. intros o _. rewrite count_nil. lia. }
  rewrite Ha. csimpl. rewrite count_cons. unfold abstained_on at 1. rewrite Ha.
  destruct Hok as [_ Heq|_ Hab (c & Hc & _ & Hnd & Hsub)].
  - assert (a_choice a = None) as Hc by (by rewrite Heq). rewrite Hc, IH. f_equal.
    + apply per_option_ext. intros o _. rewrite count_cons. unfold selected at 2.
      rewrite Ha. simpl. by rewrite Hc.
    + rewrite bool_decide_eq_true_2 by (rewrite Heq; by eexists). lia.
  - rewrite Hc, fold_bump, IH by (done || by subst). f_equal.
    + apply per_option_ext. intros o _. rewrite count_cons. unfold selected at 2.
      rewrite Ha. simpl. rewrite Hc. lia.
    + by rewrite Hab, bool_decide_eq_false_2.
Qed.

(** ** Rankings *)

Lemma insert_tabulate (g : nat → Z) n pos x :
  <[pos := x]> (g <$> seq 0 n) = (λ i, if decide (i = pos) then x else g i) <$> seq 0 n.
Proof.
  apply list_eq. intros i. destruct (decide (i = pos)) as [->|Hne].
  - rewrite list_lookup_fmap. destruct (decide (pos < n)%nat) as [Hlt|Hge].
    + rewrite list_lookup_insert_eq by (rewrite length_fmap, length_seq; lia).
      rewrite lookup_seq_lt by done. simpl. by rewrite decide_True.
    + rewrite list_insert_ge by (rewrite length_fmap, length_seq; lia).
      by rewrite list_lookup_fmap, lookup_seq_ge by lia.
  - rewrite list_lookup_insert_ne, !list_lookup_fmap by done.
    destruct (seq 0 n !! i) as [j|] eqn:Hj; [|done]. apply lookup_seq in Hj as [-> _]. simpl.
    by rewrite decide_False.
Qed.

(** Positions as a function of the option and the index. *)
Definition positions_of (opts : list string) (g : string → nat → Z) : gmap string (list Z) :=
  per_option opts (λ o, g o <$> seq 0 (length opts)).

Lemma positions_of_ext opts g h :
  (∀ o i, o ∈ opts → (i < length opts)%nat → g o i = h o i) →
  positions_of opts g = positions_of opts h.
Proof.
  intros Hgh. apply per_option_ext. intros o Ho. apply list_fmap_ext. intros i j Hj.
  apply lookup_seq in Hj. apply Hgh; [done|lia].
Qed.

Lemma bump_position_spec opts g pos k :
  k ∈ opts → (pos < length opts)%nat →
  bump_position (positions_of opts g) pos k
  = Some (positions_of opts (λ o i, g o i + if bool_decide (o = k ∧ i = pos) then 1 else 0)).
Proof.
  intros Hk Hpos. unfold bump_position, positions_of. rewrite lookup_per_option_in by done.
  rewrite list_lookup_fmap, lookup_seq_lt by done. simpl. f_equal.
  rewrite per_option_insert by done. apply per_option_ext. intros o Ho.
  destruct (decide (o = k)) as [->|Hne].
  - rewrite insert_tabulate. apply list_fmap_ext. intros i j [-> _]%lookup_seq. simpl.
    destruct (decide (i = pos)) as [->|Hi].
    + by rewrite bool_decide_eq_true_2.
    + rewrite bool_decide_eq_false_2 by naive_solver. lia.
  - apply list_fmap_ext. intros i j _. rewrite bool_decide_eq_false_2 by naive_solver. lia.
Qed.

Lemma bump_ranking_spec opts r g pos :
  r ⊆ opts → (pos + length r ≤ length opts)%nat →
  bump_ranking (positions_of opts g) pos r
  = Some (positions_of opts (λ o i,
      g o i + if bool_decide ((pos ≤ i)%nat ∧ r !! (i - pos)%nat = Some o) then 1 else 0)).
Proof.
  revert g pos. induction r as [|k r IH]; intros g pos Hsub Hlen; cbn [bump_ranking].
  { f_equal. apply positions_of_ext. intros o i _ _. rewrite bool_decide_eq_false_2; [lia|].
    intros [_ Hn]. by rewrite lookup_nil in Hn. }
  simpl in Hlen. rewrite bump_position_spec by (apply Hsub, list_elem_of_here || lia). simpl.
  rewrite IH by (set_solver || lia). f_equal. apply positions_of_ext. intros o i _ _.
  rewrite <- Z.add_assoc. f_equal. destruct (decide (i = pos)) as [->|Hne].
  - rewrite Nat.sub_diag, (bool_decide_eq_false_2 (S pos ≤ pos ∧ _)%nat) by lia. simpl.
    rewrite (bool_decide_ext (o = k ∧ pos = pos) ((pos ≤ pos)%nat ∧ Some k = Some o)); [lia|].
    naive_solver.
  - rewrite (bool_decide_eq_false_2 (o = k ∧ i = pos)) by naive_solver. simpl.
    apply (f_equal (λ b : bool, if b then 1 else 0)), bool_decide_ext.
    destruct (decide (pos < i)%nat); [|lia].
    replace (i - pos)%nat with (S (i - S pos)) by lia. simpl. naive_solver lia.
Qed.

Lemma tally_ranking_spec q k opts pa op l g ab :
  q = Ranking k opts pa op → Forall (answers_well q k) l →
  tally_ranking_from (positions_of (option_keys q) g) ab (omap (answer_to k) l)
  = Some (positions_of (option_keys q) (λ o i, g o i + count (ranked_at k o i) l),
          ab + count (abstained_on k) l).
Proof.
  intros Hq Hl. revert g ab. induction Hl as [|b l (a & Ha & Hok) Hl IH]; intros g ab; csimpl.
  { rewrite Z.add_0_r. do 2 f_equal. apply positions_of_ext. intros o i _ _. rewrite count_nil. lia. }
  rewrite Ha. csimpl. rewrite count_cons. unfold abstained_on at 1. rewrite Ha.
  destruct Hok as [_ Heq|_ Hab Hg].
  - assert (a_ranking a = None) as Hr by (by rewrite Heq). rewrite Hr, IH. do 2 f_equal.
    + apply positions_of_ext. intros o i _ _. rewrite count_cons. unfold ranked_at at 2.
      rewrite Ha. simpl. by rewrite Hr.
    + rewrite bool_decide_eq_true_2 by (rewrite Heq; by eexists). lia.
  - rewrite Hq in Hg. destruct Hg as (r & Hr & Hnd & Hsub & _). rewrite <- Hq in Hsub.
    rewrite Hr, bump_ranking_spec; [|done|simpl; by apply submseteq_length, NoDup_submseteq].
    simpl. rewrite IH. do 2 f_equal; [|by rewrite Hab, bool_decide_eq_false_2].
    apply positions_of_ext. intros o i _ _. rewrite count_cons. unfold ranked_at at 2.
    rewrite Ha. simpl. rewrite Hr, Nat.sub_0_r.
    rewrite (bool_decide_ext ((0 ≤ i)%nat ∧ r !! i = Some o) (r !! i = Some o)); [lia|].
    split; [by intros [_ ?]|]. intros ?. split; [lia|done].
Qed.

(** ** Scores *)

(** An option's running sum and count after one more answer. *)
Definition score_next (scores : gmap string Z) (o : string) (e : Z * Z) : Z * Z :=
  match scores !! o with Some v => (i64_saturating_add e.1 v, e.2 + 1) | None => e end.

Lemma fold_bump_score opts l f :
  NoDup l.*1 → l.*1 ⊆ opts →
  fold_left bump_score l (per_option opts f)
  = per_option opts (λ o, score_next (list_to_map l) o (f o)).
Proof.
  revert f. induction l as [|[k v] l IH]; intros f Hnd Hsub; cbn [fold_left]; [done|].
  csimpl in *. apply NoDup_cons in Hnd as [Hk Hnd].
  unfold bump_score at 2. simpl. assert (k ∈ opts) by (apply Hsub, list_elem_of_here).
  rewrite lookup_per_option_in, per_option_insert by done. simpl.
  rewrite IH by (done || set_solver). apply per_option_ext. intros o _. unfold score_next.
  destruct (decide (o = k)) as [->|Hne].
  - rewrite lookup_insert_eq. by rewrite not_elem_of_list_to_map_1 by done.
  - by rewrite lookup_insert_ne by done.
Qed.

Lemma scores_of_cons k o b l :
  scores_of k o (b :: l) =
    option_list (answer_to k b ≫= λ a, a_scores a !! o) ++ scores_of k o l.
Proof. unfold scores_of. csimpl. by destruct (answer_to k b ≫= _). Qed.

(** The sum and count of an option from where they stand. *)
Definition scored (k o : string) (l : list Ballot) (e : Z * Z) : Z * Z :=
  (fold_left i64_saturating_add (scores_of k o l) e.1, e.2 + Z.of_nat (length (scores_of k o l))).

Lemma tally_score_from q k os mn mx op l f ab :
  q = Score k os mn mx op → option_keys q ≠ [] → Forall (answers_well q k) l →
  fold_left (λ '(sums, abstained) a,
    if bool_decide (a_scores a = ∅) then (sums, abstained + 1)
    else (fold_left bump_score (map_to_list (a_scores a)) sums, abstained))
    (omap (answer_to k) l) (per_option (option_keys q) f, ab)
  = (per_option (option_keys q) (λ o, scored k o l (f o)), ab + count (abstained_on k) l).
Proof.
  intros Hq Hne Hl. revert f ab. induction Hl as [|b l (a & Ha & Hok) Hl IH]; intros f ab; csimpl.
  { rewrite Z.add_0_r. f_equal. apply per_option_ext. intros o _. unfold scored. simpl.
    destruct (f o). simpl. f_equal. lia. }
  rewrite Ha. csimpl. rewrite count_cons. unfold abstained_on at 1. rewrite Ha.
  destruct Hok as [_ Heq|_ Hab Hg].
  - assert (a_scores a = ∅) as Hs by (by rewrite Heq). rewrite bool_decide_eq_true_2, IH by done.
    f_equal.
    + apply per_option_ext. intros o _. unfold scored. rewrite scores_of_cons, Ha. simpl.
      by rewrite Hs, lookup_empty.
    + rewrite bool_decide_eq_true_2 by (rewrite Heq; by eexists). lia.
  - rewrite Hq in Hg. destruct Hg as [Hdom _]. rewrite <- Hq in Hdom.
    rewrite bool_decide_eq_false_2.
    2: { intros He. rewrite He, dom_empty_L in Hdom. destruct (option_keys q); set_solver. }
    rewrite fold_bump_score; [|apply NoDup_fst_map_to_list|].
    2: { intros o (kv & -> & Hkv)%list_elem_of_fmap. destruct kv as [o v].
         apply elem_of_map_to_list in Hkv. apply (elem_of_list_to_set (C := gset string)).
         rewrite <- Hdom. apply elem_of_dom. by exists v. }
    rewrite IH. f_equal; [|by rewrite Hab, bool_decide_eq_false_2].
    apply per_option_ext. intros o _. unfold scored. rewrite scores_of_cons, Ha. simpl.
    unfold score_next. rewrite list_to_map_to_list.
    destruct (a_scores a !! o); simpl; [|done]. f_equal. lia.
Qed.

(** ** Texts *)

Lemma tally_text_from q k mx op l ts ab :
  q = Text k mx op → Forall (answers_well q k) l →
  fold_left (λ '(texts, abstained) a,
    match a_text a with
    | Some t => (texts ++ [t], abstained)
    | None => (texts, abstained + 1)
    end) (omap (answer_to k) l) (ts, ab)
  = (ts ++ texts_of k l, ab + count (abstained_on k) l).
Proof.
  intros Hq Hl. revert ts ab. induction Hl as [|b l (a & Ha & Hok) Hl IH]; intros ts ab; csimpl.
  { by rewrite Z.add_0_r, app_nil_r. }
  rewrite Ha. csimpl. rewrite count_cons. unfold abstained_on at 1, texts_of. csimpl. rewrite Ha.
  destruct Hok as [_ Heq|_ Hab Hg].
  - assert (a_text a = None) as Ht by (by rewrite Heq). rewrite Ht, IH. csimpl. rewrite ?Ht. f_equal.
    rewrite bool_decide_eq_true_2 by (rewrite Heq; by eexists). lia.
  - rewrite Hq in Hg. destruct Hg as (t & Ht & _). rewrite Ht, IH. csimpl. rewrite ?Ht.
    rewrite <- app_assoc. f_equal. by rewrite Hab, bool_decide_eq_false_2.
Qed.

(** ** The rows *)

(** Every option list a score question has is non-empty (the schema's
    [minItems]). *)
Definition scores_something (q : Question) : Prop :=
  match q with Score _ _ _ _ _ => option_keys q ≠ [] | _ => True end.

Lemma tally_row_counted release l q k :
  key q = Some k → scores_something q → Forall (answers_well q k) l →
  tally_row release l q = Some (Ok (counted_row release l q k)).
Proof.
  intros Hk Hs Hl. unfold tally_row, counted_row. rewrite Hk.
  destruct q as [k' os mn mx op|k' os pa op|k' os mn mx op|k' mx op|] eqn:Hq; simplify_eq/=.
  - unfold tally_choice.
    rewrite (tally_choice_from (Choice k os mn mx op) k _ l) by done.
    rewrite per_option_fmap. do 4 f_equal.
  - unfold tally_ranking.
    assert (per_option (opt_key <$> os) (λ _, replicate (length (opt_key <$> os)) 0)
            = positions_of (option_keys (Ranking k os pa op)) (λ _ _, 0)) as ->.
    { unfold positions_of. apply per_option_ext. intros o _. simpl.
      apply list_eq. intros i. rewrite list_lookup_fmap.
      destruct (decide (i < length (opt_key <$> os))%nat).
      - by rewrite lookup_replicate_2, lookup_seq_lt by done.
      - by rewrite lookup_seq_ge, lookup_ge_None_2 by (rewrite ?length_replicate; lia). }
    erewrite tally_ranking_spec by done. simpl. unfold positions_of. rewrite per_option_fmap.
    do 5 f_equal. apply per_option_ext. intros o _. simpl. f_equal.
    by rewrite <- list_fmap_compose.
  - unfold tally_score.
    rewrite (tally_score_from (Score k os mn mx op) k os mn mx op l) by done.
    rewrite per_option_fmap. do 4 f_equal.
  - unfold tally_text. rewrite (tally_text_from (Text k mx op) k mx op l) by done.
    by destruct release.
Qed.

(** The shared setting of an accepted election's accepted ballots. *)
Record accepted `{Multibase} (m : Manifest) (digest : Hash) (l : list Ballot) : Prop := {
  accepted_manifest : ∃ own, check_manifest m own = Ok ();
  accepted_options : Forall scores_something (questions m);
  accepted_ballots : Forall (λ b, check_ballot m digest b = Ok ()) l;
}.

Section Accepted.
Context `{Multibase} {m : Manifest} {digest : Hash} {l : list Ballot}.
Hypothesis Hacc : accepted m digest l.

Lemma accepted_answers q k : q ∈ questions m → key q = Some k → Forall (answers_well q k) l.
Proof.
  destruct Hacc as [[own Hm%check_manifest_spec] _ Hl]. intros Hq Hk.
  apply (Forall_impl _ _ _ Hl). intros b Hb.
  eapply ballot_answers; [by eapply check_ballot_spec|done..].
Qed.

Lemma accepted_key q : q ∈ questions m → ∃ k, key q = Some k ∧ question_ok q.
Proof.
  destruct Hacc as [[own [_ _ _ _ _ Hqs _]%check_manifest_spec] _ _]. intros Hq.
  eapply Forall_forall in Hqs; [|done]. destruct Hqs as ([k Hk] & ?). by exists k.
Qed.

Lemma accepted_row release q k :
  q ∈ questions m → key q = Some k →
  tally_row release l q = Some (Ok (counted_row release l q k)).
Proof.
  intros Hq Hk. apply tally_row_counted; [done| |by apply accepted_answers].
  destruct Hacc as [_ Hs _]. by eapply Forall_forall.
Qed.

Lemma accepted_loop `{ResultWire} release qs :
  qs ⊆ questions m →
  tally_loop release l qs = Some (try_map (λ q,
    map_err RuleSerialization (question_result_from_value
      (counted_row release l q (default "" (key q))))) qs).
Proof.
  induction qs as [|q qs IH]; intros Hsub; [done|].
  destruct (accepted_key q) as (k & Hk & _); [apply Hsub, list_elem_of_here|].
  cbn [tally_loop try_map]. rewrite (accepted_row _ _ k) by (done || apply Hsub, list_elem_of_here).
  rewrite Hk. cbn [mbind option_bind]. cbn [mbind result_bind default]. unfold from_option, id.
  destruct (map_err _ _) as [r|e]; [|done]. rewrite IH by set_solver.
  simpl. by destruct (try_map _ qs).
Qed.
End Accepted.

(** C28 (the tally counts the ballots): over ballots an accepted manifest
    accepts, the tally does not panic, and is for every question, in the
    manifest's order, the row whose numbers count the ballots that selected,
    ranked, scored or abstained; texts are given only when the count is final
    and reaches the manifest's threshold. *)
Theorem tally_counts `{Multibase, ResultWire} m digest l provisional :
  accepted m digest l →
  let n := Z.of_nat (length l) in
  let release := negb provisional && (text_release_threshold m <=? n) in
  tally m l provisional
  = Some (map_ok (pair n) (try_map (λ q,
      map_err RuleSerialization (question_result_from_value
        (counted_row release l q (default "" (key q))))) (questions m))).
Proof. intros Hacc. simpl. unfold tally. by rewrite (accepted_loop Hacc). Qed.

(** Text is withheld early: while a count is provisional or below the
    threshold, no row carries a text answer, whatever the ballots. *)
Theorem text_withheld l q v :
  tally_row false l q = Some (Ok v) → json_get v "text" = None.
Proof.
  unfold tally_row, row_obj. destruct (key q) as [k|]; [|done].
  destruct q; try done; simpl.
  - destruct (tally_choice _ _). intros [= <-]. json.
  - destruct (tally_ranking _ _) as [[? ?]|]; [|done]. simpl. intros [= <-]. json.
  - destruct (tally_score _ _). intros [= <-]. json.
  - destruct (tally_text _). intros [= <-]. json.
Qed.

(** ** Conservation *)

Definition sum_over (opts : list string) (f : string → Z) : Z :=
  fold_right (λ o s, f o + s) 0 opts.

Lemma sum_over_add opts f g :
  sum_over opts (λ o, f o + g o) = sum_over opts f + sum_over opts g.
Proof. induction opts; simpl; lia. Qed.

Lemma sum_over_zero opts f : (∀ o, o ∈ opts → f o = 0) → sum_over opts f = 0.
Proof.
  induction opts as [|o opts IH]; intros Hf; simpl; [done|].
  rewrite Hf, IH; [done|set_solver|apply list_elem_of_here].
Qed.

Lemma sum_over_ext opts f g : (∀ o, o ∈ opts → f o = g o) → sum_over opts f = sum_over opts g.
Proof.
  induction opts as [|o opts IH]; intros Hf; simpl; [done|].
  rewrite Hf, IH; [done|set_solver|apply list_elem_of_here].
Qed.

Lemma sum_over_subset opts c :
  NoDup opts → NoDup c → c ⊆ opts →
  sum_over opts (λ o, if bool_decide (o ∈ c) then 1 else 0) = Z.of_nat (length c).
Proof.
  intros Hopts. revert opts Hopts. induction c as [|k c IH]; intros opts Hopts Hnd Hsub.
  { apply sum_over_zero. intros o _. by rewrite bool_decide_eq_false_2 by apply not_elem_of_nil. }
  apply NoDup_cons in Hnd as [Hk Hnd].
  rewrite (sum_over_ext _ _ (λ o, (if bool_decide (o = k) then 1 else 0)
                                  + (if bool_decide (o ∈ c) then 1 else 0))).
  2: { intros o _. destruct (decide (o = k)) as [->|Hne].
       - by rewrite !bool_decide_eq_true_2, (bool_decide_eq_false_2 (k ∈ c)) by set_solver.
       - rewrite (bool_decide_eq_false_2 (o = k)) by done. simpl.
         by rewrite (bool_decide_ext (o ∈ k :: c) (o ∈ c)) by set_solver. }
  rewrite sum_over_add, IH by (done || set_solver). simpl.
  enough (sum_over opts (λ o, if bool_decide (o = k) then 1 else 0) = 1) by lia.
  assert (k ∈ opts) as Hin by (apply Hsub, list_elem_of_here). clear -Hopts Hin.
  induction Hopts as [|o opts Ho Hopts IHo]; [by apply elem_of_nil in Hin|]. simpl.
  apply elem_of_cons in Hin as [->|Hin].
  - rewrite bool_decide_eq_true_2 by done. rewrite sum_over_zero; [done|].
    intros o' Ho'. rewrite bool_decide_eq_false_2; [done|]. by intros ->.
  - rewrite bool_decide_eq_false_2 by (by intros ->). by rewrite IHo.
Qed.

Lemma choice_bounds `{Multibase} m digest l k os mn mx op :
  accepted m digest l → Choice k os mn mx op ∈ questions m →
  let answered := Z.of_nat (length l) - count (abstained_on k) l in
  let total := sum_over (opt_key <$> os) (λ o, count (selected k o) l) in
  0 ≤ answered ∧ mn * answered ≤ total ≤ mx * answered.
Proof.
  intros Hacc Hq. simpl.
  destruct (accepted_key Hacc _ Hq) as (k' & [= <-] & _ & Hnd & _). simpl in Hnd.
  pose proof (accepted_answers Hacc _ k Hq eq_refl) as Hl. clear Hacc Hq.
  induction Hl as [|b l (a & Ha & Hok) Hl IH].
  { rewrite sum_over_zero by done. rewrite count_nil. simpl. lia. }
  rewrite count_cons. cbn [length]. rewrite (sum_over_ext _ _ (λ o,
    (if selected k o b then 1 else 0) + count (selected k o) l))
    by (intros o _; apply count_cons).
  rewrite sum_over_add. unfold abstained_on at 1 3 5, selected at 1 3. rewrite Ha. simpl.
  destruct Hok as [_ Heq|_ Hab (c & Hc & Hlen & Hndc & Hsub)].
  - rewrite bool_decide_eq_true_2 by (rewrite Heq; by eexists).
    rewrite sum_over_zero by (intros o _; by rewrite Heq). lia.
  - rewrite Hab, bool_decide_eq_false_2 by (by intros []). rewrite Hc.
    rewrite sum_over_subset by done. nia.
Qed.

(** No vote is lost or invented: over accepted ballots, a choice
    question's selections add up to between [minSelections] and
    [maxSelections] for each ballot that did not abstain on it; where both are
    one, the options' totals and the abstentions sum to the ballots counted. *)
Theorem choice_conserved `{Multibase} m digest l k os mn mx op :
  accepted m digest l → Choice k os mn mx op ∈ questions m →
  let answered := Z.of_nat (length l) - count (abstained_on k) l in
  let total := sum_over (opt_key <$> os) (λ o, count (selected k o) l) in
  0 ≤ answered ∧ mn * answered ≤ total ≤ mx * answered.
Proof. apply choice_bounds. Qed.

(** ** Order *)

Lemma count_Permutation P l l' : l ≡ₚ l' → count P l = count P l'.
Proof. intros Hp. induction Hp; rewrite ?count_cons; lia. Qed.

Definition sum_list (vs : list Z) : Z := fold_right Z.add 0 vs.

Lemma sum_list_Permutation vs ws : vs ≡ₚ ws → sum_list vs = sum_list ws.
Proof. induction 1; simpl; lia. Qed.

(** A saturating sum that cannot reach the bounds is the sum. *)
Lemma saturating_sum bound vs acc :
  Forall (λ v, Z.abs v ≤ bound) vs →
  Z.abs acc + bound * Z.of_nat (length vs) ≤ i64_max →
  fold_left i64_saturating_add vs acc = acc + sum_list vs.
Proof.
  intros Hvs. revert acc. induction Hvs as [|v vs Hv Hvs IH]; intros acc Hb; simpl in *; [lia|].
  assert (0 ≤ bound * Z.of_nat (length vs)) by nia.
  assert (i64_saturating_add acc v = acc + v) as ->.
  { unfold i64_saturating_add, i64_min. unfold i64_max in *. nia. }
  rewrite IH; nia.
Qed.

Lemma length_omap_le {A B} (f : A → option B) l : (length (omap f l) ≤ length l)%nat.
Proof. induction l as [|a l IH]; csimpl; [done|]. destruct (f a); simpl; lia. Qed.

Lemma scores_bounded k os mn mx op o l :
  Forall (answers_well (Score k os mn mx op) k) l →
  Forall (λ v, Z.abs v ≤ Z.max (Z.abs mn) (Z.abs mx)) (scores_of k o l).
Proof.
  induction 1 as [|b l (a & Ha & Hok) Hl IH]; [constructor|]. rewrite scores_of_cons, Ha. simpl.
  apply Forall_app. split; [|done]. destruct Hok as [_ Heq|_ _ [_ Hv]].
  - rewrite Heq. simpl. rewrite lookup_empty. constructor.
  - destruct (a_scores a !! o) as [v|] eqn:Hv'; simpl; [|constructor].
    apply Hv in Hv'. constructor; [lia|constructor].
Qed.

(** A row that cannot depend on the order of [n] ballots: no text, and no sum
    near the bounds of an [i64]. *)
Definition order_free (n : nat) (q : Question) : Prop :=
  match q with
  | Score _ _ mn mx _ => Z.max (Z.abs mn) (Z.abs mx) * Z.of_nat n ≤ i64_max
  | Text _ _ _ => False
  | _ => True
  end.

Lemma counted_row_Permutation release l l' q k :
  l ≡ₚ l' → key q = Some k → Forall (answers_well q k) l → order_free (length l) q →
  counted_row release l q k = counted_row release l' q k.
Proof.
  intros Hp Hk Hl Ho. unfold counted_row. rewrite (count_Permutation _ _ _ Hp). f_equal.
  destruct q as [k' os mn mx op|k' os pa op|k' os mn mx op|k' mx op|]; simplify_eq/=; [..|done].
  - do 2 f_equal. apply per_option_ext. intros o _. f_equal. by apply count_Permutation.
  - do 2 f_equal. apply per_option_ext. intros o _. f_equal. apply list_fmap_ext. intros i j _.
    f_equal. by apply count_Permutation.
  - do 2 f_equal. apply per_option_ext. intros o _.
    assert (scores_of k o l ≡ₚ scores_of k o l') as Hs by (by apply omap_Permutation).
    pose proof (scores_bounded k os mn mx op o l Hl) as Hb.
    pose proof (length_omap_le (λ b, answer_to k b ≫= λ a, a_scores a !! o) l) as Hlen.
    fold (scores_of k o l) in Hlen.
    rewrite !(saturating_sum (Z.max (Z.abs mn) (Z.abs mx))), (sum_list_Permutation _ _ Hs), Hs;
      [done|by rewrite <- Hs|rewrite <- Hs; simpl; nia|done|simpl; nia].
Qed.

(** Where no row can depend on the order, nor can the tally. *)
Lemma tally_Permutation `{Multibase, ResultWire} m digest l l' provisional :
  accepted m digest l → l ≡ₚ l' → Forall (order_free (length l)) (questions m) →
  tally m l provisional = tally m l' provisional.
Proof.
  intros Hacc Hp Ho.
  assert (accepted m digest l') as Hacc'.
  { destruct Hacc as [? ? Hb]. split; [done..|]. by rewrite <- Hp. }
  unfold tally. rewrite (accepted_loop Hacc), (accepted_loop Hacc'), (Permutation_length Hp) by done.
  set (release := _ && _).
  assert (∀ qs, qs ⊆ questions m →
    try_map (λ q, map_err RuleSerialization (question_result_from_value
        (counted_row release l q (default "" (key q))))) qs
    = try_map (λ q, map_err RuleSerialization (question_result_from_value
        (counted_row release l' q (default "" (key q))))) qs) as Hq; [|by rewrite (Hq (questions m))].
  induction qs as [|q qs IH]; intros Hsub; [done|]. cbn [try_map]. rewrite IH by set_solver.
  assert (q ∈ questions m) as Hin by (apply Hsub, list_elem_of_here).
  destruct (accepted_key Hacc _ Hin) as (k & Hk & _). rewrite Hk. simpl.
  rewrite (counted_row_Permutation release l l' q k); [done..|exact Hp|exact Hk| |].
  - by apply (accepted_answers Hacc).
  - by eapply Forall_forall in Ho.
Qed.

(** The order of the board does not change the totals: two orders of the
    same accepted ballots give the same choice and ranking rows, and the same
    score rows where the sums fit; of texts they give the same answers, in
    another order. *)
Theorem tally_order `{Multibase} m digest l l' q k release :
  accepted m digest l → q ∈ questions m → key q = Some k → l ≡ₚ l' →
  (order_free (length l) q → tally_row release l q = tally_row release l' q)
  ∧ texts_of k l ≡ₚ texts_of k l'.
Proof.
  intros Hacc Hq Hk Hp. split; [|by apply omap_Permutation]. intros Ho.
  assert (accepted m digest l') as Hacc'.
  { destruct Hacc as [? ? Hb]. split; [done..|]. by rewrite <- Hp. }
  rewrite (accepted_row Hacc _ _ k), (accepted_row Hacc' _ _ k) by done. do 2 f_equal.
  apply counted_row_Permutation; [done..| |done]. by apply (accepted_answers Hacc).
Qed.

(** ** Encrypted totals *)

Lemma fold_totals (total : string → string → option Z) k f opts counts sum :
  (∀ o, o ∈ opts → total k o = Some (f o)) →
  (∀ o, o ∈ opts → 0 ≤ f o) → 0 ≤ sum → sum + sum_over opts f < 2 ^ 64 →
  try_fold (λ '(counts, sum) o,
      c ← ok_or (total k o) (InvalidManifest ("no total for " +:+ k +:+ "/" +:+ o));
      Ok (<[o := c]> counts, (sum + c) mod 2 ^ 64)) (counts, sum) opts
  = Ok (per_option opts f ∪ counts, sum + sum_over opts f).
Proof.
  revert counts sum. induction opts as [|o opts IH]; intros counts sum Ht Hf Hs Hlt.
  { simpl. rewrite Z.add_0_r. change (per_option [] f) with (∅ : gmap string Z).
    by rewrite map_empty_union. }
  pose proof (Hf o ltac:(apply list_elem_of_here)).
  assert (0 ≤ sum_over opts f).
  { clear -Hf. induction opts as [|p opts IH]; simpl; [done|].
    pose proof (Hf p ltac:(set_solver)). specialize (IH ltac:(set_solver)). lia. }
  cbn [try_fold]. rewrite Ht by apply list_elem_of_here. simpl in *.
  rewrite Z.mod_small by lia. rewrite IH by (set_solver || lia). f_equal. f_equal; [|lia].
  apply map_eq. intros p. destruct (decide (p = o)) as [->|Hne].
  - destruct (decide (o ∈ opts)).
    + erewrite !lookup_union_Some_l; [done|..]; apply lookup_per_option_in; set_solver.
    + rewrite lookup_union_r by (rewrite lookup_per_option; by rewrite decide_False).
      rewrite lookup_insert_eq. symmetry. apply lookup_union_Some_l, lookup_per_option_in. set_solver.
  - rewrite !lookup_union, lookup_insert_ne, !lookup_per_option by done.
    by rewrite (decide_ext (p ∈ o :: opts) (p ∈ opts)) by set_solver.
Qed.

(** An encrypted tally reads like an open one: where every option's
    decrypted total is the number of accepted ballots that select it, the
    tallied-encrypted row of a question with exactly one selection is the row
    an open count of the same ballots has. *)
Theorem tallied_row_agrees `{Multibase} m digest l total k os op release :
  accepted m digest l → Choice k os 1 1 op ∈ questions m → fits_u64 (length l) →
  (∀ o, o ∈ opt_key <$> os → total k o = Some (count (selected k o) l)) →
  tallied_row total (Z.of_nat (length l)) (Choice k os 1 1 op)
  = Ok (counted_row release l (Choice k os 1 1 op) k).
Proof.
  intros Hacc Hq Hfit Ht.
  pose proof (choice_bounds m digest l k os 1 1 op Hacc Hq) as Hb. simpl in Hb.
  assert (0 ≤ count (abstained_on k) l) by (unfold count; lia).
  unfold tallied_row, fits_u64 in *. cbn [key option_keys default from_option].
  rewrite (fold_totals total k (λ o, count (selected k o) l)); [|done|unfold count; lia|lia..].
  cbn [mbind result_bind Z.eqb Pos.eqb]. unfold counted_row, row_obj. rewrite map_union_empty.
  f_equal. f_equal. rewrite per_option_fmap.
  assert (u64_saturating_sub (Z.of_nat (length l))
            (0 + sum_over (opt_key <$> os) (λ o, count (selected k o) l))
          = count (abstained_on k) l) as -> by (unfold u64_saturating_sub; lia).
  simpl. change (VNum ∘ (λ o, count (selected k o) l)) with (λ o, VNum (count (selected k o) l)).
  rewrite (insert_insert_ne _ "abstained" "question") by done. f_equal.
Qed.

(** ** Witnesses *)

Module ToyTally.
#[local] Existing Instance Toy.multibase.

Definition ballots : list Ballot :=
  [ToyElection.ballot (Some "yes") (Some "now"); ToyElection.ballot (Some "no") (Some "later");
   ToyElection.ballot None None].

Lemma toy_accepted : accepted (ToyElection.manifest RevoteReplace) ToyElection.digest ballots.
Proof.
  split; [by exists None; vm_compute|by repeat constructor|].
  repeat constructor; vm_compute; reflexivity.
Qed.

Definition wire : ResultWire := {| QuestionResult := Value; question_result_from_value := Ok |}.
End ToyTally.

Lemma tally_counts_witness :
  ∃ rows, @tally ToyTally.wire (ToyElection.manifest RevoteReplace) ToyTally.ballots false
          = Some (Ok (3, rows)) ∧ length rows = 4%nat.
Proof.
  eexists. rewrite (@tally_counts Toy.multibase ToyTally.wire _ _ _ false ToyTally.toy_accepted).
  split; reflexivity.
Defined.

Lemma text_withheld_witness :
  ∃ v, tally_row false ToyTally.ballots (Text "why" 100 true) = Some (Ok v)
       ∧ json_get v "text" = None.
Proof.
  eexists. split; [reflexivity|].
  exact (text_withheld ToyTally.ballots (Text "why" 100 true) _ eq_refl).
Defined.

Lemma choice_conserved_witness :
  count (selected "motion" "yes") ToyTally.ballots + (count (selected "motion" "no") ToyTally.ballots + 0)
  = 3 - count (abstained_on "motion") ToyTally.ballots.
Proof.
  pose proof (choice_conserved _ _ _ "motion" [mk_option "yes"; mk_option "no"] 1 1 true
                ToyTally.toy_accepted (list_elem_of_here _ _)) as (_ & H1 & H2).
  vm_compute. reflexivity.
Defined.

Lemma tally_order_witness :
  tally_row true ToyTally.ballots (Choice "motion" [mk_option "yes"; mk_option "no"] 1 1 true)
  = tally_row true (rev ToyTally.ballots) (Choice "motion" [mk_option "yes"; mk_option "no"] 1 1 true).
Proof.
  refine (proj1 (tally_order _ _ ToyTally.ballots (rev ToyTally.ballots)
    (Choice "motion" [mk_option "yes"; mk_option "no"] 1 1 true) "motion" true
    ToyTally.toy_accepted (list_elem_of_here _ _) eq_refl _) I).
  apply Permutation_rev.
Defined.

Lemma tallied_row_agrees_witness :
  is_ok (tallied_row (λ _ o, Some (count (selected "motion" o) ToyTally.ballots)) 3
           (Choice "motion" [mk_option "yes"; mk_option "no"] 1 1 true)) = true.
Proof.
  change 3 with (Z.of_nat (length ToyTally.ballots)).
  rewrite (tallied_row_agrees _ _ ToyTally.ballots _ "motion"
    [mk_option "yes"; mk_option "no"] true true ToyTally.toy_accepted (list_elem_of_here _ _));
    [done|by vm_compute|done].
Defined.

(** The order of the ballots shows in the texts: two orders of one board's
    ballots have different rows. *)
Lemma text_order_matters :
  @accepted Toy.multibase (ToyElection.manifest RevoteReplace) ToyElection.digest ToyTally.ballots
  ∧ tally_row true ToyTally.ballots (Text "why" 100 true)
    ≠ tally_row true (rev ToyTally.ballots) (Text "why" 100 true).
Proof. split; [apply ToyTally.toy_accepted|]. by vm_compute. Qed.
