(* ===== verification/Group.v ===== *)
(** * The group and the proofs of knowledge

    The first part of [vti-voting/src/trustees.rs]: encodings, Fiat-Shamir
    transcripts, and the Schnorr, Chaum-Pedersen and one-of proofs.

    The Ristretto group is [curve25519_dalek]'s: [Dalek] lists the operations
    the code calls and [DalekLaws] what a prime-order group promises of them.
    SHA-512, ChaCha20-Poly1305 and the random source are parameters too. *)

From Stdlib Require Import Field.
From S2P Require Import Prelude Election.

(** ** The libraries *)

Class Dalek := {
  Scalar : Type;
  Point : Type;
  Scalar_eq_dec :: EqDecision Scalar;
  Point_eq_dec :: EqDecision Point;
  s_zero : Scalar;
  s_one : Scalar;
  s_add : Scalar → Scalar → Scalar;
  s_sub : Scalar → Scalar → Scalar;
  s_mul : Scalar → Scalar → Scalar;
  s_opp : Scalar → Scalar;
  s_invert : Scalar → Scalar;
  p_identity : Point;
  p_add : Point → Point → Point;
  p_sub : Point → Point → Point;
  p_mul : Scalar → Point → Point;
  (** [RISTRETTO_BASEPOINT_POINT]. *)
  G : Point;
  (** [Scalar::from] of an unsigned integer. *)
  scalar_from : Z → Scalar;
  (** [Scalar::from_bytes_mod_order_wide]. *)
  from_bytes_mod_order_wide : vec byte 64 → Scalar;
  (** [Scalar::as_bytes], little-endian and canonical. *)
  scalar_as_bytes : Scalar → Hash;
  from_canonical_bytes : Hash → option Scalar;
  compress : Point → Hash;
  decompress : Hash → option Point;
}.

Declare Scope group_scope.
Infix "⊞" := s_add (at level 50, left associativity) : group_scope.
Infix "⊟" := s_sub (at level 50, left associativity) : group_scope.
Infix "⊠" := s_mul (at level 40, left associativity) : group_scope.
Infix "⊕" := p_add (at level 50, left associativity) : group_scope.
Infix "⊖" := p_sub (at level 50, left associativity) : group_scope.
Infix "⊙" := p_mul (at level 38, right associativity) : group_scope.
Open Scope group_scope.

(** The prime-order group: the scalars are a field of [group_order] elements,
    the points a module over it generated by [G], and the encodings are
    canonical. *)
Class DalekLaws `{Dalek} := {
  scalar_field : field_theory s_zero s_one s_add s_mul s_sub s_opp
                   (λ a b, a ⊠ s_invert b) s_invert eq;
  group_order : Z;
  scalar_from_0 : scalar_from 0 = s_zero;
  scalar_from_succ z : 0 ≤ z → scalar_from (z + 1) = scalar_from z ⊞ s_one;
  scalar_from_inj a b :
    0 ≤ a < group_order → 0 ≤ b < group_order → scalar_from a = scalar_from b → a = b;
  p_mul_add_l s t P : (s ⊞ t) ⊙ P = s ⊙ P ⊕ t ⊙ P;
  p_mul_mul s t P : (s ⊠ t) ⊙ P = s ⊙ t ⊙ P;
  p_mul_zero P : s_zero ⊙ P = p_identity;
  p_sub_mul s t P : s ⊙ P ⊖ t ⊙ P = (s ⊟ t) ⊙ P;
  (** Every element is a multiple of the basepoint, of prime order. *)
  p_generated P : ∃ s, P = s ⊙ G;
  p_mul_G_inj s t : s ⊙ G = t ⊙ G → s = t;
  compress_inj P Q : compress P = compress Q → P = Q;
  decompress_compress P : decompress (compress P) = Some P;
  canonical_roundtrip s : from_canonical_bytes (scalar_as_bytes s) = Some s;
}.

Class Sha512 := sha512 : bytes → vec byte 64.

(** [RngCore::fill_bytes] of 64 bytes. *)
Class Random := {
  RngState : Type;
  fill_wide : RngState → vec byte 64 * RngState;
}.

(** [ChaCha20Poly1305] under the zero nonce. *)
Class Aead := {
  aead_encrypt : Hash → bytes → bytes → option bytes;
  aead_decrypt : Hash → bytes → bytes → option bytes;
}.

Class AeadLaws `{Aead} := {
  aead_roundtrip key msg aad body :
    aead_encrypt key msg aad = Some body → aead_decrypt key body aad = Some msg;
}.

(** ** Errors *)

Inductive TrusteeError :=
| DealingInvalid (why : string)
| ShareInvalid
| PartialInvalid
| TooFewPartials (have need : nat)
| BallotInvalid (why : string)
| SealedInvalid
| TotalOutOfRange
| Encoding (why : string)
| Parameters (why : string).
#[export] Instance TrusteeError_eq_dec : EqDecision TrusteeError.
Proof. solve_decision. Defined.

Abbreviation tresult := (result TrusteeError).

Section Group.
Context `{Dalek, Multibase, Sha512, Random}.

(** ** Encodings *)

Definition point_text (p : Point) : string := multibase_encode (vec_to_list (compress p)).

(** Multibase text in base58btc, the one base allowed. The decoder's own error
    message is the [multibase] crate's and is not modelled. *)
Definition b58_decode (text : string) : tresult bytes :=
  match multibase_decode text with
  | None => Err (Encoding "not multibase")
  | Some (base58, b) =>
      if base58 then Ok b else Err (Encoding "an element is multibase base58btc")
  end.

(** The point [point_text] wrote; never the identity. *)
Definition point_from_text (text : string) : tresult Point :=
  b ← b58_decode text;
  arr ← ok_or (hash_of_bytes b) (Encoding "a point is 32 bytes");
  p ← ok_or (decompress arr) (Encoding "not a Ristretto point");
  if bool_decide (p = p_identity) then Err (Encoding "the identity is never a valid element here")
  else Ok p.

Definition scalar_text (s : Scalar) : string := multibase_encode (vec_to_list (scalar_as_bytes s)).

Definition scalar_from_text (text : string) : tresult Scalar :=
  b ← b58_decode text;
  arr ← ok_or (hash_of_bytes b) (Encoding "a scalar is 32 bytes");
  ok_or (from_canonical_bytes arr) (Encoding "not a canonical scalar").

(** A uniformly random scalar: 64 random bytes reduced. *)
Definition random_scalar (rng : RngState) : Scalar * RngState :=
  let '(b, rng') := fill_wide rng in (from_bytes_mod_order_wide b, rng').

(** ** Fiat-Shamir *)

(** The bytes fed to SHA-512 so far. *)
Record Transcript := mk_transcript { fed : bytes }.

Definition tr_bytes (t : Transcript) (b : bytes) : Transcript := mk_transcript (frame (fed t) b).
Definition tr_new (domain : string) (ctx : bytes) : Transcript :=
  tr_bytes (tr_bytes (mk_transcript []) (as_bytes domain)) ctx.
Definition tr_point (t : Transcript) (p : Point) : Transcript :=
  tr_bytes t (vec_to_list (compress p)).
Definition tr_challenge (t : Transcript) : Scalar := from_bytes_mod_order_wide (sha512 (fed t)).

(** ** Schnorr *)

Record Schnorr := mk_schnorr { sch_c : Scalar; sch_z : Scalar }.

(** The challenge of a Schnorr proof with commitment [a]. *)
Definition schnorr_challenge (big_x a : Point) (domain : string) (ctx : bytes) : Scalar :=
  tr_challenge (tr_point (tr_point (tr_new domain ctx) big_x) a).

Definition schnorr_prove (x : Scalar) (big_x : Point) (domain : string) (ctx : bytes)
    (rng : RngState) : Schnorr * RngState :=
  let '(w, rng') := random_scalar rng in
  let a := w ⊙ G in
  let c := schnorr_challenge big_x a domain ctx in
  (mk_schnorr c (w ⊞ c ⊠ x), rng').

Definition schnorr_verify (big_x : Point) (p : Schnorr) (domain : string) (ctx : bytes) : bool :=
  let a := sch_z p ⊙ G ⊖ sch_c p ⊙ big_x in
  bool_decide (schnorr_challenge big_x a domain ctx = sch_c p).

(** ** Chaum-Pedersen *)

Record ChaumPedersen := mk_cp { cp_c : Scalar; cp_z : Scalar }.

Definition DOMAIN_POK : string := "vti/vote/trustee/pok/v1".
Definition DOMAIN_TRANSPORT : string := "vti/vote/trustee/transport/v1".
Definition DOMAIN_PARTIAL : string := "vti/vote/trustee/partial/v1".
Definition DOMAIN_BIT : string := "vti/vote/encrypted/option/v1".
Definition DOMAIN_SUM : string := "vti/vote/encrypted/question/v1".
Definition DOMAIN_SEAL : string := "vti/vote/sealed/key/v1".

Definition cp_challenge (ps : list Point) (domain : string) (ctx : bytes) : Scalar :=
  tr_challenge (fold_left tr_point ps (tr_new domain ctx)).

Definition cp_prove (x : Scalar) (base y d : Point) (domain : string) (ctx : bytes)
    (rng : RngState) : ChaumPedersen * RngState :=
  let '(w, rng') := random_scalar rng in
  let a1 := w ⊙ G in
  let a2 := w ⊙ base in
  let c := cp_challenge [y; base; d; a1; a2] domain ctx in
  (mk_cp c (w ⊞ c ⊠ x), rng').

Definition cp_verify (base y d : Point) (p : ChaumPedersen) (domain : string) (ctx : bytes)
  : bool :=
  let a1 := cp_z p ⊙ G ⊖ cp_c p ⊙ y in
  let a2 := cp_z p ⊙ base ⊖ cp_c p ⊙ d in
  bool_decide (cp_challenge [y; base; d; a1; a2] domain ctx = cp_c p).

(** ** Ciphertexts *)

Record Ciphertext := mk_ct { ct_a : Point; ct_b : Point }.

Definition ct_add (c o : Ciphertext) : Ciphertext := mk_ct (ct_a c ⊕ ct_a o) (ct_b c ⊕ ct_b o).
Definition ct_zero : Ciphertext := mk_ct p_identity p_identity.

(** ** One-of proofs *)

Record OneOf := mk_one_of { parts : list (Scalar * Scalar) }.

Definition s_sum (l : list Scalar) : Scalar := fold_left s_add l s_zero.
Definition p_sum (l : list Point) : Point := fold_left p_add l p_identity.

Definition one_of_challenge (ek : Point) (ct : Ciphertext) (values : list Z)
    (commits : list (Point * Point)) (domain : string) (ctx : bytes) : Scalar :=
  let t := tr_point (tr_point (tr_point (tr_new domain ctx) ek) (ct_a ct)) (ct_b ct) in
  let t := fold_left (λ t v, tr_bytes t (to_be_bytes 8 v)) values t in
  let t := fold_left (λ t '(a1, a2), tr_point (tr_point t a1) a2) commits t in
  tr_challenge t.

(** The commitments a part [(c, z)] for the value [v] answers to. *)
Definition part_commit (ek : Point) (ct : Ciphertext) (v : Z) (part : Scalar * Scalar)
  : Point * Point :=
  let '(c, z) := part in
  let bv := ct_b ct ⊖ scalar_from v ⊙ G in
  (z ⊙ G ⊖ c ⊙ ct_a ct, z ⊙ ek ⊖ c ⊙ bv).

(** The prover's first loop, from index [i]: the simulated challenges and
    answers (zero at [actual]) with every commitment. *)
Fixpoint one_of_commit (ek : Point) (ct : Ciphertext) (actual : nat) (w : Scalar) (i : nat)
    (values : list Z) (rng : RngState)
  : list (Scalar * Scalar) * list (Point * Point) * RngState :=
  match values with
  | [] => ([], [], rng)
  | v :: rest =>
      let '(part, commit, rng) :=
        if bool_decide (i = actual) then ((s_zero, s_zero), (w ⊙ G, w ⊙ ek), rng)
        else
          let '(c, rng) := random_scalar rng in
          let '(z, rng) := random_scalar rng in
          ((c, z), part_commit ek ct v (c, z), rng) in
      let '(ps, cms, rng) := one_of_commit ek ct actual w (S i) rest rng in
      (part :: ps, commit :: cms, rng)
  end.

(** [cs] without the entry at [actual]. *)
Definition others_of (actual : nat) (cs : list Scalar) : list Scalar :=
  take actual cs ++ drop (S actual) cs.

(** [actual] indexes [values]: the callers' [u64::from(bool)] into [[0, 1]]
    and [position] of the count. *)
Definition one_of_prove (ek : Point) (ct : Ciphertext) (r : Scalar) (values : list Z)
    (actual : nat) (domain : string) (ctx : bytes) (rng : RngState) : OneOf * RngState :=
  let '(w, rng) := random_scalar rng in
  let '(ps, commits, rng) := one_of_commit ek ct actual w 0 values rng in
  let c := one_of_challenge ek ct values commits domain ctx in
  let others := s_sum (others_of actual ps.*1) in
  let c_actual := c ⊟ others in
  let z_actual := w ⊞ c_actual ⊠ r in
  (mk_one_of (<[actual := (c_actual, z_actual)]> ps), rng).

Definition one_of_verify (ek : Point) (ct : Ciphertext) (values : list Z) (p : OneOf)
    (domain : string) (ctx : bytes) : bool :=
  if bool_decide (length (parts p) ≠ length values) then false
  else
    let commits := zip_with (part_commit ek ct) values (parts p) in
    bool_decide (one_of_challenge ek ct values commits domain ctx = s_sum (parts p).*1).
End Group.

(** ** Algebra *)

Section Algebra.
Context `{D : Dalek, L : !DalekLaws}.

Add Field scalar_field_inst : scalar_field.

Lemma p_mul_one P : s_one ⊙ P = P.
Proof. destruct (p_generated P) as [s ->]. rewrite <- p_mul_mul. f_equal. ring. Qed.

Lemma p_mul_add_r s P Q : s ⊙ (P ⊕ Q) = s ⊙ P ⊕ s ⊙ Q.
Proof.
  destruct (p_generated P) as [p ->], (p_generated Q) as [q ->].
  rewrite <- p_mul_add_l, <- !p_mul_mul, <- p_mul_add_l. f_equal. ring.
Qed.

Lemma p_mul_identity s : s ⊙ p_identity = p_identity.
Proof. rewrite <- (p_mul_zero G), <- p_mul_mul. f_equal. ring. Qed.

Lemma p_add_identity_l P : p_identity ⊕ P = P.
Proof.
  destruct (p_generated P) as [p ->]. rewrite <- (p_mul_zero G), <- p_mul_add_l. f_equal. ring.
Qed.

Lemma p_add_identity_r P : P ⊕ p_identity = P.
Proof.
  destruct (p_generated P) as [p ->]. rewrite <- (p_mul_zero G), <- p_mul_add_l. f_equal. ring.
Qed.

Lemma p_add_comm P Q : P ⊕ Q = Q ⊕ P.
Proof.
  destruct (p_generated P) as [p ->], (p_generated Q) as [q ->].
  rewrite <- !p_mul_add_l. f_equal. ring.
Qed.

Lemma p_add_assoc P Q R : P ⊕ (Q ⊕ R) = P ⊕ Q ⊕ R.
Proof.
  destruct (p_generated P) as [p ->], (p_generated Q) as [q ->], (p_generated R) as [r ->].
  rewrite <- !p_mul_add_l. f_equal. ring.
Qed.

Lemma s_mul_cancel_zero a b : a ⊠ b = s_zero → a ≠ s_zero → b = s_zero.
Proof.
  intros Hab Ha. assert (b = s_invert a ⊠ (a ⊠ b)) as -> by (field; done).
  rewrite Hab. ring.
Qed.

Lemma s_sub_zero a b : a ⊟ b = s_zero → a = b.
Proof. intros Hz. replace a with ((a ⊟ b) ⊞ b) by ring. rewrite Hz. ring. Qed.

Lemma scalar_from_add a b : 0 ≤ a → 0 ≤ b → scalar_from (a + b) = scalar_from a ⊞ scalar_from b.
Proof.
  intros Ha Hb. revert b Hb. apply (natlike_ind (λ b, scalar_from (a + b) = scalar_from a ⊞ scalar_from b)).
  - rewrite Z.add_0_r, scalar_from_0. ring.
  - intros b Hb IH. rewrite <- Z.add_1_r, Z.add_assoc, !scalar_from_succ, IH by lia. ring.
Qed.

Lemma scalar_from_1 : scalar_from 1 = s_one.
Proof. rewrite (scalar_from_succ 0), scalar_from_0 by lia. ring. Qed.

Lemma scalar_from_mul a b : 0 ≤ a → 0 ≤ b → scalar_from (a * b) = scalar_from a ⊠ scalar_from b.
Proof.
  intros Ha Hb. revert b Hb. apply (natlike_ind (λ b, scalar_from (a * b) = scalar_from a ⊠ scalar_from b)).
  - rewrite Z.mul_0_r, scalar_from_0. ring.
  - intros b Hb IH. replace (a * Z.succ b) with (a * b + a) by lia.
    rewrite scalar_from_add, IH, <- Z.add_1_r, scalar_from_succ by lia. ring.
Qed.

Lemma s_sum_from l acc : fold_left s_add l acc = acc ⊞ s_sum l.
Proof.
  unfold s_sum. revert acc. induction l as [|x l IH]; intros acc; simpl; [ring|].
  rewrite IH, (IH (s_zero ⊞ x)). ring.
Qed.

Lemma s_sum_cons x l : s_sum (x :: l) = x ⊞ s_sum l.
Proof. unfold s_sum. simpl. rewrite s_sum_from. unfold s_sum. ring. Qed.

Lemma s_sum_app l1 l2 : s_sum (l1 ++ l2) = s_sum l1 ⊞ s_sum l2.
Proof.
  induction l1 as [|x l1 IH]; simpl; [unfold s_sum at 2; simpl; ring|].
  rewrite !s_sum_cons, IH. ring.
Qed.

Lemma p_sum_from l acc : fold_left p_add l acc = acc ⊕ p_sum l.
Proof.
  unfold p_sum. revert acc. induction l as [|x l IH]; intros acc; simpl.
  - by rewrite p_add_identity_r.
  - rewrite IH, (IH (p_identity ⊕ x)), p_add_identity_l. by rewrite p_add_assoc.
Qed.

Lemma p_sum_cons x l : p_sum (x :: l) = x ⊕ p_sum l.
Proof. unfold p_sum. simpl. by rewrite p_add_identity_l, p_sum_from. Qed.

Lemma p_sum_mul (l : list Scalar) P : p_sum ((λ s, s ⊙ P) <$> l) = s_sum l ⊙ P.
Proof.
  induction l as [|s l IH]; csimpl.
  - unfold p_sum, s_sum. simpl. by rewrite p_mul_zero.
  - by rewrite p_sum_cons, s_sum_cons, IH, p_mul_add_l.
Qed.
End Algebra.

(** Prove an equation between multiples of [G] in the scalars. *)
Ltac point_norm :=
  rewrite <- ?(p_mul_zero G);
  repeat first [rewrite <- p_mul_mul | rewrite <- p_mul_add_l | rewrite p_sub_mul].

(** ** Completeness *)

Section Proofs.
Context `{D : Dalek, L : !DalekLaws} `{Multibase, Sha512, Random}.

Add Field scalar_field_inst2 : scalar_field.

Lemma schnorr_complete x domain ctx rng p rng' :
  schnorr_prove x (x ⊙ G) domain ctx rng = (p, rng') →
  schnorr_verify (x ⊙ G) p domain ctx = true.
Proof.
  unfold schnorr_prove, schnorr_verify. destruct (random_scalar rng) as [w rng1].
  intros [= <- <-]. simpl. apply bool_decide_eq_true.
  set (c := schnorr_challenge (x ⊙ G) (w ⊙ G) domain ctx).
  assert ((w ⊞ c ⊠ x) ⊙ G ⊖ c ⊙ x ⊙ G = w ⊙ G) as ->; [|done].
  point_norm. f_equal. ring.
Qed.

Lemma cp_complete x base domain ctx rng p rng' :
  cp_prove x base (x ⊙ G) (x ⊙ base) domain ctx rng = (p, rng') →
  cp_verify base (x ⊙ G) (x ⊙ base) p domain ctx = true.
Proof.
  unfold cp_prove, cp_verify. destruct (random_scalar rng) as [w rng1].
  intros [= <- <-]. simpl. apply bool_decide_eq_true.
  set (c := cp_challenge [x ⊙ G; base; x ⊙ base; w ⊙ G; w ⊙ base] domain ctx).
  assert ((w ⊞ c ⊠ x) ⊙ G ⊖ c ⊙ x ⊙ G = w ⊙ G) as ->.
  { point_norm. f_equal. ring. }
  assert ((w ⊞ c ⊠ x) ⊙ base ⊖ c ⊙ x ⊙ base = w ⊙ base) as ->; [|done].
  point_norm. f_equal. ring.
Qed.

(** The commitments of the prover's loop are those its parts answer to, but
    at [actual], where they are the nonce's. *)
Lemma one_of_commit_spec ek ct actual w i values rng ps cms rng' :
  one_of_commit ek ct actual w i values rng = (ps, cms, rng') →
  length ps = length values ∧ length cms = length values
  ∧ (∀ j v, values !! j = Some v → (i + j)%nat ≠ actual →
       ∃ part, ps !! j = Some part ∧ cms !! j = Some (part_commit ek ct v part))
  ∧ (∀ j v, values !! j = Some v → (i + j)%nat = actual →
       ps !! j = Some (s_zero, s_zero) ∧ cms !! j = Some (w ⊙ G, w ⊙ ek)).
Proof.
  revert i rng ps cms rng'. induction values as [|v values IH]; intros i rng ps cms rng'; simpl.
  { intros [= <- <- <-]. split_and!; [done|done| |]; intros j v Hj; by rewrite lookup_nil in Hj. }
  destruct (if bool_decide (i = actual) then _ else _) as [[part commit] rng1] eqn:Hstep.
  destruct (one_of_commit ek ct actual w (S i) values rng1) as [[ps' cms'] rng2] eqn:Hrest.
  intros [= <- <- <-]. apply IH in Hrest as (Hlp & Hlc & Hother & Hactual). simpl.
  split; [lia|]. split; [lia|]. split; intros [|j] u Hj Hij; simpl in Hj |- *.
  - rewrite Nat.add_0_r in Hij. rewrite bool_decide_eq_false_2 in Hstep by done.
    destruct (random_scalar rng) as [c rngc], (random_scalar rngc) as [z rngz].
    simplify_eq. by exists (c, z).
  - apply Hother; [done|lia].
  - rewrite Nat.add_0_r in Hij. rewrite bool_decide_eq_true_2 in Hstep by done. by simplify_eq.
  - apply (Hactual j u); [done|lia].
Qed.

Lemma one_of_complete ek ct r values actual v domain ctx rng p rng' :
  values !! actual = Some v →
  ct = mk_ct (r ⊙ G) (scalar_from v ⊙ G ⊕ r ⊙ ek) →
  one_of_prove ek ct r values actual domain ctx rng = (p, rng') →
  one_of_verify ek ct values p domain ctx = true.
Proof.
  intros Hv Hct. unfold one_of_prove, one_of_verify.
  destruct (random_scalar rng) as [w rng1].
  destruct (one_of_commit ek ct actual w 0 values rng1) as [[ps cms] rng2] eqn:Hcm.
  intros [= <- <-]. apply one_of_commit_spec in Hcm as (Hlp & Hlc & Hother & Hactual).
  simpl in *. rewrite length_insert, bool_decide_eq_false_2 by (intros Hn; lia).
  set (c := one_of_challenge ek ct values cms domain ctx).
  set (c' := c ⊟ s_sum (others_of actual ps.*1)).
  apply bool_decide_eq_true.
  assert (zip_with (part_commit ek ct) values (<[actual:=(c', w ⊞ c' ⊠ r)]> ps) = cms) as ->.
  { apply list_eq. intros j. rewrite lookup_zip_with.
    destruct (values !! j) as [u|] eqn:Hj; simpl.
    2: { symmetry. apply lookup_ge_None. apply lookup_ge_None in Hj. lia. }
    assert (j < length ps)%nat by (apply lookup_lt_Some in Hj; lia).
    destruct (decide (j = actual)) as [->|Hne].
    - rewrite list_lookup_insert_eq by done. destruct (Hactual actual u Hj eq_refl) as [_ ->].
      simplify_eq/=. destruct (p_generated ek) as [k ->]. f_equal. f_equal; point_norm; f_equal; ring.
    - rewrite list_lookup_insert_ne by done. by destruct (Hother j u Hj Hne) as (part & -> & ->). }
  fold c. rewrite list_fmap_insert. simpl.
  assert (actual < length ps.*1)%nat as Hlt.
  { rewrite length_fmap. apply lookup_lt_Some in Hv. lia. }
  rewrite insert_take_drop, s_sum_app, s_sum_cons by done. unfold c', others_of.
  rewrite s_sum_app. ring.
Qed.
End Proofs.

(** ** Encodings *)

Section EncodingProofs.
Context `{D : Dalek, L : !DalekLaws} `{M : Multibase, ML : !MultibaseLaws}.

Lemma point_text_decode p :
  point_from_text (point_text p)
  = if decide (p = p_identity) then Err (Encoding "the identity is never a valid element here")
    else Ok p.
Proof.
  unfold point_from_text, point_text, b58_decode. rewrite multibase_roundtrip. simpl.
  rewrite hash_of_bytes_vec. simpl. rewrite decompress_compress. simpl.
  destruct (decide (p = p_identity)); [by rewrite bool_decide_eq_true_2|].
  by rewrite bool_decide_eq_false_2.
Qed.

Lemma scalar_text_decode s : scalar_from_text (scalar_text s) = Ok s.
Proof.
  unfold scalar_from_text, scalar_text, b58_decode. rewrite multibase_roundtrip. simpl.
  rewrite hash_of_bytes_vec. simpl. by rewrite canonical_roundtrip.
Qed.
End EncodingProofs.

(** ** Special soundness *)

Section Soundness.
Context `{D : Dalek, L : !DalekLaws}.

Add Field scalar_field_inst3 : scalar_field.

Lemma sub_nonzero a b : a ≠ b → a ⊟ b ≠ s_zero.
Proof. intros Hab Hz. by apply Hab, s_sub_zero. Qed.

(** Two answers to one commitment with different challenges give the
    logarithm. *)
Lemma extract_log c z c' z' base P :
  c ≠ c' → z ⊙ base ⊖ c ⊙ P = z' ⊙ base ⊖ c' ⊙ P →
  P = ((z ⊟ z') ⊠ s_invert (c ⊟ c')) ⊙ base.
Proof.
  intros Hc%sub_nonzero. destruct (p_generated base) as [b ->], (p_generated P) as [p ->].
  point_norm. intros Heq%p_mul_G_inj. f_equal. apply s_sub_zero.
  apply (s_mul_cancel_zero (c ⊟ c')); [|done].
  transitivity ((z' ⊠ b ⊟ c' ⊠ p) ⊟ (z ⊠ b ⊟ c ⊠ p)); [field; done|]. rewrite Heq. ring.
Qed.

(** Different sums have a differing part. *)
Lemma s_sum_differ (ps qs : list (Scalar * Scalar)) :
  length ps = length qs → s_sum ps.*1 ≠ s_sum qs.*1 →
  ∃ i p q, ps !! i = Some p ∧ qs !! i = Some q ∧ p.1 ≠ q.1.
Proof.
  revert qs. induction ps as [|p ps IH]; intros [|q qs] Hlen Hne; try done.
  simpl in Hlen.
  destruct (decide (p.1 = q.1)) as [Heq|Hd]; [|by exists 0%nat, p, q].
  destruct (IH qs) as (i & p' & q' & ? & ? & ?); [lia| |by exists (S i), p', q'].
  intros Hs. apply Hne. by rewrite !fmap_cons, !s_sum_cons, Heq, Hs.
Qed.

Lemma one_of_verify_true (h : Sha512) ek ct values p domain ctx :
  one_of_verify ek ct values p domain ctx = true →
  length (parts p) = length values
  ∧ one_of_challenge ek ct values (zip_with (part_commit ek ct) values (parts p)) domain ctx
    = s_sum (parts p).*1.
Proof.
  unfold one_of_verify. destruct (bool_decide (length _ ≠ _)) eqn:Hl; [done|].
  apply bool_decide_eq_false in Hl. intros Hc%bool_decide_eq_true. split; [lia|done].
Qed.

(** An accepted bit or count is one of the values: from two accepted
    one-of proofs over the same commitments, for two answers of the hash, the
    randomness is extracted that shows the ciphertext encrypts one of the
    values under the election key. *)
Theorem one_of_sound (h1 h2 : Sha512) ek ct values p p' domain ctx :
  @one_of_verify D h1 ek ct values p domain ctx = true →
  @one_of_verify D h2 ek ct values p' domain ctx = true →
  let commits := zip_with (part_commit ek ct) values (parts p) in
  commits = zip_with (part_commit ek ct) values (parts p') →
  @one_of_challenge D h1 ek ct values commits domain ctx
    ≠ @one_of_challenge D h2 ek ct values commits domain ctx →
  ∃ v r, v ∈ values ∧ ct = mk_ct (r ⊙ G) (scalar_from v ⊙ G ⊕ r ⊙ ek).
Proof.
  intros [Hl1 H1]%one_of_verify_true [Hl2 H2]%one_of_verify_true commits Hc Hne.
  fold commits in H1. rewrite <- Hc in H2.
  destruct (s_sum_differ (parts p) (parts p')) as (i & [c z] & [c' z'] & Hi & Hi' & Hcc);
    [lia|congruence|].
  destruct (lookup_lt_is_Some_2 values i) as [v Hv].
  { apply lookup_lt_Some in Hi. lia. }
  assert (Hcm : commits !! i = Some (part_commit ek ct v (c, z))).
  { unfold commits. by rewrite lookup_zip_with, Hv, Hi. }
  rewrite Hc, lookup_zip_with, Hv, Hi' in Hcm. simpl in Hcm. injection Hcm as Ha Hb.
  simpl in Hcc. apply extract_log in Ha, Hb; [|done..].
  exists v, ((z' ⊟ z) ⊠ s_invert (c' ⊟ c)). split; [by eapply list_elem_of_lookup_2|].
  destruct ct as [a b]. simpl in *. f_equal; [done|]. rewrite <- Hb.
  destruct (p_generated b) as [s ->]. point_norm. f_equal. ring.
Qed.

(** An accepted partial decryption is the right one: from two accepted
    Chaum-Pedersen proofs over the same commitments, for two answers of the
    hash, the exponent is extracted that takes the basepoint to the
    verification key and the ciphertext's element to the partial. *)
Theorem cp_sound (h1 h2 : Sha512) base y d p p' domain ctx :
  @cp_verify D h1 base y d p domain ctx = true →
  @cp_verify D h2 base y d p' domain ctx = true →
  cp_z p ⊙ G ⊖ cp_c p ⊙ y = cp_z p' ⊙ G ⊖ cp_c p' ⊙ y →
  cp_z p ⊙ base ⊖ cp_c p ⊙ d = cp_z p' ⊙ base ⊖ cp_c p' ⊙ d →
  (let points :=
     [y; base; d; cp_z p ⊙ G ⊖ cp_c p ⊙ y; cp_z p ⊙ base ⊖ cp_c p ⊙ d] in
   @cp_challenge D h1 points domain ctx ≠ @cp_challenge D h2 points domain ctx) →
  ∃ x, y = x ⊙ G ∧ d = x ⊙ base.
Proof.
  unfold cp_verify. intros H1 H2 Hy Hd Hne.
  apply bool_decide_eq_true in H1, H2. rewrite <- Hy, <- Hd in H2.
  assert (cp_c p ≠ cp_c p') as Hcc by congruence.
  exists ((cp_z p ⊟ cp_z p') ⊠ s_invert (cp_c p ⊟ cp_c p')).
  split; by apply extract_log.
Qed.
End Soundness.

(** ** A small group, for the witnesses only

    The integers modulo 101, as scalars and as points with basepoint 1. *)
Module ToyGroup.

Definition order : Z := 101.
Definition F : Type := dsig (λ z : Z, 0 ≤ z < order).

(** A proof of a true boolean that computes. *)
Definition canon (b : bool) : b = true → Is_true b :=
  match b with true => λ _, I | false => λ e, False_ind _ (diff_false_true e) end.

Definition red (z : Z) : F :=
  exist _ (z mod order) (canon _ (bool_decide_eq_true_2 _ (Z.mod_pos_bound z order eq_refl))).
Definition inv (x : F) : F := red (`x ^ 99).
Definition wide (b : bytes) : F :=
  red (fold_left (λ acc x, (acc * 5 + Z_of_byte x + 1) mod order) b 3).
Definition enc (x : F) : Hash := vec_pad 32 (to_be_bytes 32 (`x)).
Definition elements : list F := red <$> seqZ 0 order.
Definition dec (h : Hash) : option F := find (λ x, bool_decide (enc x = h)) elements.

Definition dalek : Dalek := {|
  Scalar := F;
  Point := F;
  Scalar_eq_dec := _;
  Point_eq_dec := _;
  s_zero := red 0;
  s_one := red 1;
  s_add := λ x y, red (`x + `y);
  s_sub := λ x y, red (`x - `y);
  s_mul := λ x y, red (`x * `y);
  s_opp := λ x, red (- `x);
  s_invert := inv;
  p_identity := red 0;
  p_add := λ x y, red (`x + `y);
  p_sub := λ x y, red (`x - `y);
  p_mul := λ x y, red (`x * `y);
  G := red 1;
  scalar_from := red;
  from_bytes_mod_order_wide := λ b, wide (vec_to_list b);
  scalar_as_bytes := enc;
  from_canonical_bytes := dec;
  compress := enc;
  decompress := dec;
|}.

Lemma red_small (x : F) : red (`x) = x.
Proof.
  apply dsig_eq. simpl. apply Z.mod_small. destruct x as [z Hz]. simpl.
  by apply bool_decide_unpack in Hz.
Qed.

Lemma red_eq a b : a mod order = b mod order → red a = red b.
Proof. intros Hab. by apply dsig_eq. Qed.

Ltac modular :=
  apply red_eq; simpl;
  rewrite ?Zplus_mod_idemp_l, ?Zplus_mod_idemp_r, ?Zminus_mod_idemp_l, ?Zminus_mod_idemp_r,
    ?Zmult_mod_idemp_l, ?Zmult_mod_idemp_r; f_equal; lia.

Lemma elements_complete (x : F) : x ∈ elements.
Proof.
  rewrite <- (red_small x). apply list_elem_of_fmap_2, elem_of_seqZ.
  destruct x as [z Hz]. simpl. apply bool_decide_unpack in Hz. lia.
Qed.

Lemma enc_inj (x y : F) : enc x = enc y → x = y.
Proof.
  intros Heq%(f_equal vec_to_list). apply dsig_eq. unfold enc in Heq.
  rewrite !vec_pad_full in Heq by apply length_to_be_bytes.
  assert (∀ w : F, 0 ≤ `w < 256 ^ Z.of_nat 32) as Hr.
  { intros [w Hw]. simpl. apply bool_decide_unpack in Hw. unfold order in Hw. lia. }
  by apply (to_be_bytes_inj 32).
Qed.

Lemma dec_enc (x : F) : dec (enc x) = Some x.
Proof.
  unfold dec. destruct (find _ elements) as [y|] eqn:Hf.
  - apply find_some in Hf as [_ Hy%bool_decide_eq_true]. f_equal. by apply enc_inj.
  - rewrite find_none_elem in Hf. specialize (Hf x (elements_complete x)).
    by apply bool_decide_eq_false in Hf.
Qed.

(** Every non-zero element times its 99th power is one. *)
Lemma inv_table : Forall (λ z, (z ^ 99 mod order * z) mod order = 1) (seqZ 1 100).
Proof.
  assert (forallb (λ z, (z ^ 99 mod order * z) mod order =? 1) (seqZ 1 100) = true) as Hall
    by (vm_compute; reflexivity).
  rewrite forallb_true in Hall. apply Forall_forall. intros z Hz. by apply Z.eqb_eq, Hall.
Qed.

Lemma inv_l (x : F) : x ≠ red 0 → red (proj1_sig (inv x) * `x) = red 1.
Proof.
  intros Hx. apply red_eq. simpl.
  pose proof inv_table as Ht. rewrite Forall_forall in Ht. apply Ht. apply elem_of_seqZ.
  pose proof (proj2_dsig x) as Hr. simpl in Hr.
  assert (`x ≠ 0); [|unfold order in *; lia].
  intros Hz. apply Hx. rewrite <- (red_small x). by rewrite Hz.
Qed.

Lemma laws : @DalekLaws dalek.
Proof.
  refine (Build_DalekLaws dalek _ order _ _ _ _ _ _ _ _ _ enc_inj dec_enc dec_enc).
  - split; [split|..].
    + intros x. rewrite <- (red_small x) at 2. modular.
    + intros x y. modular.
    + intros x y z. modular.
    + intros x. rewrite <- (red_small x) at 2. modular.
    + intros x y. modular.
    + intros x y z. modular.
    + intros x y z. modular.
    + intros x y. modular.
    + intros x. modular.
    + intros Heq%(f_equal proj1_sig). by vm_compute in Heq.
    + done.
    + intros x Hx. by apply inv_l.
  - done.
  - intros z Hz. modular.
  - intros a b Ha Hb Heq%(f_equal proj1_sig). simpl in Heq. by rewrite !Z.mod_small in Heq.
  - intros s t x. modular.
  - intros s t x. modular.
  - intros x. modular.
  - intros s t x. modular.
  - intros x. exists x. rewrite <- (red_small x) at 1. modular.
  - intros s t Heq. rewrite <- (red_small s), <- (red_small t).
    transitivity (red (`s * proj1_sig (red 1))); [modular|]. transitivity (red (`t * proj1_sig (red 1))); [done|modular].
Defined.


(** Two hashes that answer every question with one challenge each. *)
Definition constant (c : byte) : Sha512 := λ _, c ::: Vector.const x00 63.
Definition random : Random := {|
  RngState := Z;
  fill_wide := λ r, (byte_of_Z r ::: Vector.const x00 63, r + 17);
|}.

Definition key : F := red 7.
Definition ct : @Ciphertext dalek := @mk_ct dalek (red 5) (red (1 + 5 * 7)).
Definition bit_proof (h : Sha512) : @OneOf dalek :=
  (@one_of_prove dalek h random key ct (red 5) [0; 1] 1 DOMAIN_BIT [] 3).1.
Definition log_proof (h : Sha512) : @ChaumPedersen dalek :=
  (@cp_prove dalek h random (red 7) (red 5) (red 7) (red 35) DOMAIN_PARTIAL [] 3).1.
End ToyGroup.

#[local] Existing Instance ToyGroup.dalek.

Lemma one_of_sound_witness :
  ∃ v r, v ∈ [0; 1] ∧ ToyGroup.ct = mk_ct (r ⊙ G) (scalar_from v ⊙ G ⊕ r ⊙ ToyGroup.key).
Proof.
  refine (@one_of_sound ToyGroup.dalek ToyGroup.laws (ToyGroup.constant x01) (ToyGroup.constant x02)
    ToyGroup.key ToyGroup.ct [0; 1] (ToyGroup.bit_proof (ToyGroup.constant x01))
    (ToyGroup.bit_proof (ToyGroup.constant x02)) DOMAIN_BIT [] _ _ _ _);
    [vm_compute; reflexivity..|].
  intros Heq%(f_equal proj1_sig). by vm_compute in Heq.
Defined.

Lemma cp_sound_witness :
  ∃ x : Scalar, ToyGroup.red 7 = x ⊙ G ∧ ToyGroup.red 35 = x ⊙ ToyGroup.red 5.
Proof.
  refine (@cp_sound ToyGroup.dalek ToyGroup.laws (ToyGroup.constant x01) (ToyGroup.constant x02)
    (ToyGroup.red 5) (ToyGroup.red 7) (ToyGroup.red 35) (ToyGroup.log_proof (ToyGroup.constant x01))
    (ToyGroup.log_proof (ToyGroup.constant x02)) DOMAIN_PARTIAL [] _ _ _ _ _);
    [vm_compute; reflexivity..|].
  intros points Heq%(f_equal proj1_sig). by vm_compute in Heq.
Defined.
