(* ===== verification/Shamir.v ===== *)
(** * Polynomials over the scalars and their value at zero

    The algebra behind the trustees' key: a polynomial with at most as many
    coefficients as there are points is recovered at zero from its values at
    those points. No definition here models code; [Trustees] relates the
    code's Horner evaluation and Lagrange coefficients to these. *)

From Stdlib Require Import Field.
From S2P Require Import Prelude Election Group.

Section Shamir.
Context `{D : Dalek, L : !DalekLaws}.

Add Field scalar_field_shamir : scalar_field.

(** The value at [x] of the polynomial with these coefficients, constant
    first. *)
Definition peval (cs : list Scalar) (x : Scalar) : Scalar :=
  fold_right (λ a acc, acc ⊠ x ⊞ a) s_zero cs.

(** The coefficient of the value at [x] in the interpolation at zero. *)
Definition lag (x : Scalar) (xs : list Scalar) : Scalar :=
  fold_right (λ k acc, if bool_decide (k = x) then acc else k ⊠ s_invert (k ⊟ x) ⊠ acc) s_one xs.

Definition interp (xs : list Scalar) (f : Scalar → Scalar) : Scalar :=
  s_sum ((λ x, lag x xs ⊠ f x) <$> xs).

Lemma s_sum_ext {A} (f g : A → Scalar) l :
  (∀ x, x ∈ l → f x = g x) → s_sum (f <$> l) = s_sum (g <$> l).
Proof.
  intros Hfg. f_equal. apply list_fmap_ext. intros i x Hx. apply Hfg.
  by eapply list_elem_of_lookup_2.
Qed.

Lemma s_sum_Permutation l l' : l ≡ₚ l' → s_sum l = s_sum l'.
Proof. induction 1; rewrite ?s_sum_cons; try congruence. ring. Qed.

Lemma s_sum_linear {A} (f g : A → Scalar) c l :
  s_sum ((λ x, f x ⊞ c ⊠ g x) <$> l) = s_sum (f <$> l) ⊞ c ⊠ s_sum (g <$> l).
Proof.
  induction l as [|x l IH]; csimpl; [unfold s_sum; simpl; ring|].
  rewrite !s_sum_cons, IH. ring.
Qed.

Lemma s_sum_zero {A} (l : list A) : s_sum ((λ _, s_zero) <$> l) = s_zero.
Proof. induction l as [|x l IH]; csimpl; [done|]. rewrite s_sum_cons, IH. ring. Qed.

Lemma lag_cons x k xs :
  lag x (k :: xs)
  = if bool_decide (k = x) then lag x xs else k ⊠ s_invert (k ⊟ x) ⊠ lag x xs.
Proof. done. Qed.

Lemma lag_Permutation x xs ys : xs ≡ₚ ys → lag x xs = lag x ys.
Proof.
  induction 1 as [|k xs ys _ IH|k l xs|xs ys zs _ IH1 _ IH2]; simpl;
    [done|by rewrite IH|repeat case_bool_decide; ring|congruence].
Qed.

Lemma interp_Permutation xs ys f : xs ≡ₚ ys → interp xs f = interp ys f.
Proof.
  intros Hp. unfold interp. rewrite (s_sum_Permutation _ ((λ x, lag x xs ⊠ f x) <$> ys)).
  - apply s_sum_ext. intros x _. by rewrite (lag_Permutation x xs ys).
  - by apply fmap_Permutation.
Qed.

Lemma interp_ext xs f g : (∀ x, x ∈ xs → f x = g x) → interp xs f = interp xs g.
Proof. intros Hfg. apply s_sum_ext. intros x Hx. by rewrite Hfg. Qed.

Lemma interp_linear xs f g c :
  interp xs (λ x, f x ⊞ c ⊠ g x) = interp xs f ⊞ c ⊠ interp xs g.
Proof.
  unfold interp. rewrite <- s_sum_linear. apply s_sum_ext. intros x _. ring.
Qed.

Lemma interp_zero xs : interp xs (λ _, s_zero) = s_zero.
Proof.
  etransitivity; [|apply (s_sum_zero xs)]. apply s_sum_ext. intros x _. ring.
Qed.

(** A function that vanishes at the first point is interpolated by the rest. *)
Lemma interp_root a xs g :
  a ∉ xs → interp (a :: xs) (λ x, (x ⊟ a) ⊠ g x) = s_opp a ⊠ interp xs g.
Proof.
  intros Ha. unfold interp. csimpl. rewrite s_sum_cons.
  transitivity (s_zero ⊞ s_sum ((λ x, s_zero ⊞ s_opp a ⊠ (lag x xs ⊠ g x)) <$> xs)).
  - f_equal; [ring|]. apply s_sum_ext. intros x Hx.
    rewrite bool_decide_eq_false_2 by (by intros ->).
    assert (a ⊟ x ≠ s_zero) by (apply sub_nonzero; by intros ->). field. done.
  - rewrite s_sum_linear.
    rewrite s_sum_zero. ring.
Qed.

(** Division of a polynomial by [x - a]. *)
Lemma peval_divide cs a :
  ∃ g, (length g ≤ pred (length cs))%nat
       ∧ ∀ x, peval cs x = peval cs a ⊞ s_one ⊠ ((x ⊟ a) ⊠ peval g x).
Proof.
  induction cs as [|c cs (g & Hlen & Hg)].
  { exists []. split; [done|]. intros x. simpl. ring. }
  destruct cs as [|c' cs].
  { exists []. split; [done|]. intros x. simpl. ring. }
  exists (peval (c' :: cs) a :: g). split; [simpl in *; lia|]. intros x.
  change (peval (c :: c' :: cs) x) with (peval (c' :: cs) x ⊠ x ⊞ c).
  change (peval (c :: c' :: cs) a) with (peval (c' :: cs) a ⊠ a ⊞ c).
  change (peval (peval (c' :: cs) a :: g) x) with (peval g x ⊠ x ⊞ peval (c' :: cs) a).
  rewrite (Hg x). ring.
Qed.

Lemma peval_short cs x : (length cs ≤ 1)%nat → peval cs x = peval cs s_zero.
Proof. destruct cs as [|c [|]]; simpl; intros; [done|ring|lia]. Qed.

(** The interpolation of the constant one, from that over one point fewer. *)
Lemma interp_one a b xs :
  NoDup (a :: b :: xs) →
  (∀ ys, NoDup ys → length ys = S (length xs) → interp ys (λ _, s_one) = s_one) →
  interp (a :: b :: xs) (λ _, s_one) = s_one.
Proof.
  intros Hnd IH. apply NoDup_cons in Hnd as [Ha Hnd]. apply NoDup_cons in Hnd as [Hb Hnd].
  assert (b ⊟ a ≠ s_zero) as Hba by (apply sub_nonzero; intros ->; set_solver).
  pose proof (interp_root a (b :: xs) (λ _, s_one) Ha) as H1.
  pose proof (interp_root b (a :: xs) (λ _, s_one) ltac:(set_solver)) as H2.
  rewrite (IH (b :: xs)) in H1 by (try constructor; done).
  rewrite (IH (a :: xs)) in H2 by (try constructor; set_solver || done).
  rewrite (interp_Permutation (b :: a :: xs) (a :: b :: xs)) in H2 by constructor.
  rewrite (interp_ext _ (λ _, s_one) (λ x, s_zero ⊞ s_invert (b ⊟ a)
    ⊠ (((x ⊟ a) ⊠ s_one) ⊞ s_opp s_one ⊠ ((x ⊟ b) ⊠ s_one)))) by (intros x _; field; done).
  rewrite interp_linear, interp_linear, H1, H2.
  assert (interp (a :: b :: xs) (λ _, s_zero) = s_zero) as ->; [|field; done].
  apply interp_zero.
Qed.

Lemma interp_const n xs : NoDup xs → length xs = S n → interp xs (λ _, s_one) = s_one.
Proof.
  revert xs. induction n as [|n IH]; intros xs Hnd Hlen.
  - destruct xs as [|a [|]]; [done| |done]. unfold interp, s_sum. simpl.
    rewrite bool_decide_eq_true_2 by done. ring.
  - destruct xs as [|a [|b xs]]; [done|done|]. simpl in Hlen.
    apply interp_one; [done|]. intros ys Hys Hl. apply IH; [done|lia].
Qed.

(** Interpolation recovers the polynomial at zero. *)
Lemma interp_poly xs cs :
  NoDup xs → xs ≠ [] → (length cs ≤ length xs)%nat → interp xs (peval cs) = peval cs s_zero.
Proof.
  revert cs. induction xs as [|a xs IH]; intros cs Hnd Hne Hlen; [done|].
  destruct (peval_divide cs a) as (g & Hg & Heq).
  rewrite (interp_ext _ _ (λ x, (s_zero ⊞ peval cs a ⊠ s_one) ⊞ s_one ⊠ ((x ⊟ a) ⊠ peval g x)))
    by (intros x _; rewrite (Heq x); ring).
  rewrite interp_linear, (interp_ext _ (λ _, s_zero ⊞ peval cs a ⊠ s_one) (λ _, s_one ⊞
    (peval cs a ⊟ s_one) ⊠ s_one)) by (intros x _; ring).
  rewrite interp_linear, (interp_const (length xs)) by done.
  apply NoDup_cons in Hnd as [Ha Hnd]. rewrite interp_root by done.
  destruct (decide (xs = [])) as [->|Hxs].
  - simpl in Hlen. rewrite (peval_short cs a) by done.
    unfold interp, s_sum. simpl. ring.
  - rewrite IH by (done || simpl in Hlen; lia). rewrite (Heq s_zero). ring.
Qed.

(** The same for a sum of polynomials. *)
Lemma interp_poly_sum xs css :
  NoDup xs → xs ≠ [] → Forall (λ cs, (length cs ≤ length xs)%nat) css →
  interp xs (λ x, s_sum ((λ cs, peval cs x) <$> css)) = s_sum ((λ cs, peval cs s_zero) <$> css).
Proof.
  intros Hnd Hne. induction 1 as [|cs css Hcs Hcss IH]; csimpl.
  - apply interp_zero.
  - rewrite s_sum_cons, <- IH, <- (interp_poly xs cs) by done.
    transitivity (interp xs (peval cs) ⊞ s_one ⊠ interp xs (λ x, s_sum ((λ cs, peval cs x) <$> css)));
      [|ring].
    rewrite <- interp_linear. apply interp_ext. intros x _. rewrite s_sum_cons. ring.
Qed.
End Shamir.
