(* ===== verification/Trustees.v ===== *)
(** * The trustees' cryptography

    [vti-voting/src/trustees.rs]: joint key generation by verifiable secret
    sharing, transport of sealed shares, threshold decryption, sealed ballots
    and tallied-encrypted ballots, over the group of [Group].

    The random source is threaded through; a [BTreeMap] is a finite map read
    in ascending key order. [commitments[0]] is read of a dealing whose length
    was checked to be the threshold, at least 2 by [Threshold::new]. *)

From Stdlib Require Import Field Floats.SpecFloat.
From S2P Require Import Prelude Election Group Shamir.

Section Trustees.
Context `{Dalek, Sha256, Sha512, Random, Aead}.

(** ** Parameters *)

Record Threshold := mk_threshold { th_t : Z; th_n : Z }.
#[export] Instance Threshold_eq_dec : EqDecision Threshold.
Proof. solve_decision. Defined.

Definition threshold_new (t n : Z) : tresult Threshold :=
  if (t <? 2) || (n <? t) then
    Err (Parameters ("the threshold must satisfy 2 <= t <= n (got t=" +:+ pretty t
                     +:+ ", n=" +:+ pretty n +:+ ")"))
  else Ok (mk_threshold t n).

(** ** Dealing *)

Record Dealing := mk_dealing { dealer : Z; commitments : list Point; d_pok : Schnorr }.
Record Share := mk_share { s_dealer : Z; s_recipient : Z; s_value : Scalar }.

(** Horner's rule from the highest coefficient. *)
Definition eval (coeffs : list Scalar) (at_ : Z) : Scalar :=
  let x := scalar_from at_ in
  fold_left (λ acc a, acc ⊠ x ⊞ a) (rev coeffs) s_zero.

Definition eval_commitments (cs : list Point) (at_ : Z) : Point :=
  let x := scalar_from at_ in
  fold_left (λ acc c, x ⊙ acc ⊕ c) (rev cs) p_identity.

Fixpoint random_scalars (n : nat) (rng : RngState) : list Scalar * RngState :=
  match n with
  | O => ([], rng)
  | S n' =>
      let '(s, rng) := random_scalar rng in
      let '(l, rng) := random_scalars n' rng in (s :: l, rng)
  end.

(** [ctx] extended with a trustee's index, 4 bytes big-endian. *)
Definition dealer_ctx (ctx : bytes) (d : Z) : bytes := ctx ++ to_be_bytes 4 d.

Definition deal (i : Z) (th : Threshold) (ctx : bytes) (rng : RngState)
  : tresult (Dealing * list Share * RngState) :=
  if (i =? 0) || (th_n th <? i) then
    Err (Parameters ("dealer " +:+ pretty i +:+ " is not in 1..=" +:+ pretty (th_n th)))
  else
    let '(coeffs, rng) := random_scalars (Z.to_nat (th_t th)) rng in
    let cs := (λ a, a ⊙ G) <$> coeffs in
    let '(pok, rng) :=
      schnorr_prove (default s_zero (head coeffs)) (default p_identity (head cs)) DOMAIN_POK
        (dealer_ctx ctx i) rng in
    let shares := (λ j, mk_share i j (eval coeffs j)) <$> range_incl 1 (th_n th) in
    Ok (mk_dealing i cs pok, shares, rng).

(** The contexts of a cast's encrypted form and of a question's proofs. *)
Definition cast_ctx (ctx : bytes) (tag : string) : bytes := frame ctx (as_bytes tag).
Definition question_ctx (ctx : bytes) (question : string) : bytes := frame ctx (as_bytes question).

(** ** Transport keys and sealed shares *)

Record TransportKey := mk_tk { tk_trustee : Z; tk_key : Point; tk_pok : Schnorr }.
Record TransportSecret := mk_ts { ts_trustee : Z; ts_secret : Scalar }.

Definition transport_generate (trustee : Z) (rng : RngState) : TransportSecret * RngState :=
  let '(s, rng) := random_scalar rng in (mk_ts trustee s, rng).

Definition transport_to_bytes (s : TransportSecret) : Hash := scalar_as_bytes (ts_secret s).

Definition transport_from_bytes (trustee : Z) (b : Hash) : tresult TransportSecret :=
  secret ← ok_or (from_canonical_bytes b) (Encoding "not a canonical scalar");
  if bool_decide (secret = s_zero) then Err (Encoding "a zero transport secret")
  else Ok (mk_ts trustee secret).

Definition transport_from_wide (trustee : Z) (wide : vec byte 64) : tresult TransportSecret :=
  transport_from_bytes trustee (scalar_as_bytes (from_bytes_mod_order_wide wide)).

Definition transport_publish (s : TransportSecret) (ctx : bytes) (rng : RngState)
  : TransportKey * RngState :=
  let key := ts_secret s ⊙ G in
  let '(pok, rng) :=
    schnorr_prove (ts_secret s) key DOMAIN_TRANSPORT (dealer_ctx ctx (ts_trustee s)) rng in
  (mk_tk (ts_trustee s) key pok, rng).

Definition verify_transport_key (tk : TransportKey) (th : Threshold) (ctx : bytes) : tresult unit :=
  _ ← guard_err ((tk_trustee tk =? 0) || (th_n th <? tk_trustee tk))
        (Parameters ("trustee " +:+ pretty (tk_trustee tk) +:+ " is not in 1..="
                     +:+ pretty (th_n th)));
  guard_err (bool_decide (tk_key tk = p_identity)
             || negb (schnorr_verify (tk_key tk) (tk_pok tk) DOMAIN_TRANSPORT
                        (dealer_ctx ctx (tk_trustee tk))))
    (DealingInvalid "the transport key's proof does not verify").

(** What a sealed share is bound to. *)
Definition share_ctx (ctx : bytes) (d r : Z) : bytes :=
  ctx ++ as_bytes "share" ++ to_be_bytes 4 d ++ to_be_bytes 4 r.

Record Sealed := mk_sealed { kem : Ciphertext; body : bytes }.

Definition seal_key (r : Point) : Hash :=
  sha256 (to_be_bytes 8 (Z.of_nat (length (as_bytes DOMAIN_SEAL))) ++ as_bytes DOMAIN_SEAL
          ++ vec_to_list (compress r)).

Definition seal_aad (ctx : bytes) (k : Ciphertext) : bytes :=
  to_be_bytes 8 (Z.of_nat (length ctx)) ++ ctx ++ vec_to_list (compress (ct_a k))
  ++ vec_to_list (compress (ct_b k)).

Definition seal_to (to : Point) (msg aad_ctx : bytes) (rng : RngState)
  : tresult (Sealed * RngState) :=
  let '(e, rng) := random_scalar rng in
  let r_elem := e ⊙ G in
  let '(r, rng) := random_scalar rng in
  let k := mk_ct (r ⊙ G) (r_elem ⊕ r ⊙ to) in
  b ← ok_or (aead_encrypt (seal_key r_elem) msg (seal_aad aad_ctx k)) (Encoding "the cipher refused");
  Ok (mk_sealed k b, rng).

(** Open a payload whose KEM element is already recovered. *)
Definition open_with (r_elem : Point) (s : Sealed) (aad_ctx : bytes) : tresult bytes :=
  ok_or (aead_decrypt (seal_key r_elem) (body s) (seal_aad aad_ctx (kem s))) SealedInvalid.

Definition seal_share (share : Share) (to : TransportKey) (ctx : bytes) (rng : RngState)
  : tresult (Sealed * RngState) :=
  if bool_decide (tk_trustee to ≠ s_recipient share) then
    Err (Parameters ("a share for trustee " +:+ pretty (s_recipient share)
                     +:+ " sealed to trustee " +:+ pretty (tk_trustee to) +:+ "'s key"))
  else
    seal_to (tk_key to) (vec_to_list (scalar_as_bytes (s_value share)))
      (share_ctx ctx (s_dealer share) (s_recipient share)) rng.

Definition open_share (secret : TransportSecret) (d : Z) (sealed : Sealed) (ctx : bytes)
  : tresult Share :=
  let r_elem := ct_b (kem sealed) ⊖ ts_secret secret ⊙ ct_a (kem sealed) in
  b ← map_err (λ _, ShareInvalid) (open_with r_elem sealed (share_ctx ctx d (ts_trustee secret)));
  arr ← ok_or (hash_of_bytes b) ShareInvalid;
  value ← ok_or (from_canonical_bytes arr) ShareInvalid;
  Ok (mk_share d (ts_trustee secret) value).

(** ** Verifying dealings and shares *)

Definition verify_dealing (d : Dealing) (th : Threshold) (ctx : bytes) : tresult unit :=
  _ ← guard_err ((dealer d =? 0) || (th_n th <? dealer d))
        (DealingInvalid ("dealer " +:+ pretty (dealer d) +:+ " is not a trustee"));
  _ ← guard_err (bool_decide (Z.of_nat (length (commitments d)) ≠ th_t th))
        (DealingInvalid (pretty (length (commitments d)) +:+ " commitments for a threshold of "
                         +:+ pretty (th_t th)));
  _ ← guard_err (existsb (λ c, bool_decide (c = p_identity)) (commitments d))
        (DealingInvalid "a commitment is the identity");
  guard_err (negb (schnorr_verify (default p_identity (head (commitments d))) (d_pok d) DOMAIN_POK
                     (dealer_ctx ctx (dealer d))))
    (DealingInvalid "the proof of knowledge does not verify").

(** Feldman's check. *)
Definition verify_share (d : Dealing) (s : Share) : tresult unit :=
  guard_err (bool_decide (s_dealer s ≠ dealer d)
             || bool_decide (s_value s ⊙ G ≠ eval_commitments (commitments d) (s_recipient s)))
    ShareInvalid.

Record ElectionKey := mk_ek {
  ek_threshold : Threshold;
  ek_key : Point;
  ek_qualified : list Z;
  ek_verification : gmap Z Point;
}.

Definition from_dealings (dealings : list Dealing) (th : Threshold) (ctx : bytes)
  : tresult ElectionKey :=
  let dealers : gset Z := list_to_set (dealer <$> dealings) in
  _ ← guard_err (bool_decide (size dealers ≠ length dealings)
                 || (Z.of_nat (length dealings) <? th_t th))
        (DealingInvalid "at least t dealings, and one per dealer, are needed");
  _ ← try_map (λ d, verify_dealing d th ctx) dealings;
  let key := p_sum ((λ d, default p_identity (head (commitments d))) <$> dealings) in
  let verification : gmap Z Point :=
    list_to_map ((λ j, (j, p_sum ((λ d, eval_commitments (commitments d) j) <$> dealings)))
                 <$> range_incl 1 (th_n th)) in
  Ok (mk_ek th key (bs_list dealers) verification).

Record TrusteeKey := mk_trustee_key { tr_index : Z; tr_secret : Scalar }.

Definition from_shares (index : Z) (shares : list Share) (dealings : list Dealing)
    (ek : ElectionKey) : tresult TrusteeKey :=
  let by_dealer : gmap Z Dealing := list_to_map (rev ((λ d, (dealer d, d)) <$> dealings)) in
  let dealers : gset Z := list_to_set (s_dealer <$> shares) in
  _ ← guard_err (bool_decide (size dealers ≠ length shares)
                 || bool_decide (size dealers ≠ size by_dealer)
                 || bool_decide (bs_list dealers ≠ ek_qualified ek)) ShareInvalid;
  secret ← try_fold (λ secret s,
             _ ← guard_err (bool_decide (s_recipient s ≠ index)) ShareInvalid;
             d ← ok_or (by_dealer !! s_dealer s) ShareInvalid;
             _ ← verify_share d s;
             Ok (secret ⊞ s_value s)) s_zero shares;
  _ ← guard_err (bool_decide (ek_verification ek !! index ≠ Some (secret ⊙ G))) ShareInvalid;
  Ok (mk_trustee_key index secret).

Definition trustee_key_to_bytes (k : TrusteeKey) : Hash := scalar_as_bytes (tr_secret k).

Definition trustee_key_from_bytes (index : Z) (b : Hash) : tresult TrusteeKey :=
  secret ← ok_or (from_canonical_bytes b) (Encoding "not a canonical scalar");
  Ok (mk_trustee_key index secret).

(** ** Threshold decryption *)

Record PartialDecryption := mk_partial { pd_trustee : Z; pd_d : Point; pd_proof : ChaumPedersen }.

Definition partial_decrypt (key : TrusteeKey) (ct : Ciphertext) (ctx : bytes) (rng : RngState)
  : PartialDecryption * RngState :=
  let d := tr_secret key ⊙ ct_a ct in
  let y := tr_secret key ⊙ G in
  let '(proof, rng) := cp_prove (tr_secret key) (ct_a ct) y d DOMAIN_PARTIAL ctx rng in
  (mk_partial (tr_index key) d proof, rng).

Definition verify_partial (ek : ElectionKey) (ct : Ciphertext) (p : PartialDecryption) (ctx : bytes)
  : tresult unit :=
  y ← ok_or (ek_verification ek !! pd_trustee p) PartialInvalid;
  if cp_verify (ct_a ct) y (pd_d p) (pd_proof p) DOMAIN_PARTIAL ctx then Ok ()
  else Err PartialInvalid.

Definition lagrange_at_zero (j : Z) (set : list Z) : Scalar :=
  let xj := scalar_from j in
  let '(num, den) :=
    fold_left (λ '(num, den) k,
      if bool_decide (k ≠ j) then
        let xk := scalar_from k in (num ⊠ xk, den ⊠ (xk ⊟ xj))
      else (num, den)) set (s_one, s_one) in
  num ⊠ s_invert den.

(** [chosen.entry(p.trustee).or_insert(p.d)] for each verified partial. *)
Definition choose_partials (ek : ElectionKey) (ct : Ciphertext) (ctx : bytes)
    (partials : list PartialDecryption) : tresult (gmap Z Point) :=
  try_fold (λ chosen p,
    _ ← verify_partial ek ct p ctx;
    Ok (match chosen !! pd_trustee p with
        | Some _ => chosen
        | None => <[pd_trustee p := pd_d p]> chosen
        end)) ∅ partials.

Definition combine (ek : ElectionKey) (ct : Ciphertext) (partials : list PartialDecryption)
    (ctx : bytes) : tresult Point :=
  chosen ← choose_partials ek ct ctx partials;
  let need := Z.to_nat (th_t (ek_threshold ek)) in
  _ ← guard_err (bool_decide (size chosen < need)%nat) (TooFewPartials (size chosen) need);
  let idx := take need (bt_keys chosen) in
  let xa := fold_left (λ xa j,
              xa ⊕ lagrange_at_zero j idx ⊙ default p_identity (chosen !! j)) idx p_identity in
  Ok (ct_b ct ⊖ xa).

(** ** Sealed ballots *)

Definition seal (ek : ElectionKey) (ballot ctx : bytes) (rng : RngState)
  : tresult (Sealed * RngState) := seal_to (ek_key ek) ballot ctx rng.

Definition open_sealed (ek : ElectionKey) (s : Sealed) (partials : list PartialDecryption)
    (ctx : bytes) : tresult bytes :=
  r_elem ← combine ek (kem s) partials ctx;
  open_with r_elem s ctx.

(** ** Tallied-encrypted ballots *)

Record EncryptedQuestion := mk_eq { eq_options : list (Ciphertext * OneOf); eq_sum_proof : OneOf }.

(** The counts a question admits. *)
Definition admitted_counts (options : nat) (min max : Z) (optional : bool) : tresult (list Z) :=
  if (max <? min) || (Z.of_nat options <? max) || bool_decide (options = 0%nat) then
    Err (Parameters ("selections " +:+ pretty min +:+ "..=" +:+ pretty max +:+ " over "
                     +:+ pretty options +:+ " options"))
  else
    let v : gset Z := list_to_set (range_incl min max) in
    Ok (bs_list (if optional then {[ 0 ]} ∪ v else v)).

Definition option_ctx (ctx : bytes) (i : nat) : bytes := ctx ++ to_be_bytes 8 (Z.of_nat i).

(** The encryption loop, from option [i]: the options with their proofs, and
    the sums of the randomness and of the ciphertexts. *)
Fixpoint encrypt_options (ek : ElectionKey) (ctx : bytes) (i : nat) (chosen : list bool)
    (r_sum : Scalar) (ct_sum : Ciphertext) (rng : RngState)
  : list (Ciphertext * OneOf) * Scalar * Ciphertext * RngState :=
  match chosen with
  | [] => ([], r_sum, ct_sum, rng)
  | on :: rest =>
      let m := if on then 1 else 0 in
      let '(r, rng) := random_scalar rng in
      let ct := mk_ct (r ⊙ G) (scalar_from m ⊙ G ⊕ r ⊙ ek_key ek) in
      let '(proof, rng) :=
        one_of_prove (ek_key ek) ct r [0; 1] (Z.to_nat m) DOMAIN_BIT (option_ctx ctx i) rng in
      let '(options, r_sum, ct_sum, rng) :=
        encrypt_options ek ctx (S i) rest (r_sum ⊞ r) (ct_add ct_sum ct) rng in
      ((ct, proof) :: options, r_sum, ct_sum, rng)
  end.

(** How many options are chosen. *)
Definition selections (chosen : list bool) : Z := Z.of_nat (length (List.filter id chosen)).

(** [counts.iter().position(|c| *c == k)]. *)
Definition position (counts : list Z) (k : Z) : option nat := fst <$> list_find (λ c, c = k) counts.

Definition encrypt_vote (ek : ElectionKey) (chosen : list bool) (counts : list Z) (ctx : bytes)
    (rng : RngState) : tresult (EncryptedQuestion * RngState) :=
  let k := selections chosen in
  match position counts k with
  | None => Err (BallotInvalid (pretty k +:+ " selections is not admitted"))
  | Some actual_sum =>
      let '(options, r_sum, ct_sum, rng) :=
        encrypt_options ek ctx 0 chosen s_zero ct_zero rng in
      let '(sum_proof, rng) :=
        one_of_prove (ek_key ek) ct_sum r_sum counts actual_sum DOMAIN_SUM ctx rng in
      Ok (mk_eq options sum_proof, rng)
  end.

(** The verification loop, from option [i]. *)
Fixpoint verify_options (ek : ElectionKey) (ctx : bytes) (i : nat)
    (options : list (Ciphertext * OneOf)) (sum : Ciphertext) : tresult Ciphertext :=
  match options with
  | [] => Ok sum
  | (ct, p) :: rest =>
      if one_of_verify (ek_key ek) ct [0; 1] p DOMAIN_BIT (option_ctx ctx i)
      then verify_options ek ctx (S i) rest (ct_add sum ct)
      else Err (BallotInvalid ("option " +:+ pretty i +:+ " is not shown to be 0 or 1"))
  end.

Definition verify_vote (ek : ElectionKey) (q : EncryptedQuestion) (options : nat) (counts : list Z)
    (ctx : bytes) : tresult unit :=
  _ ← guard_err (bool_decide (length (eq_options q) ≠ options))
        (BallotInvalid (pretty (length (eq_options q)) +:+ " options encrypted for "
                        +:+ pretty options));
  sum ← verify_options ek ctx 0 (eq_options q) ct_zero;
  if one_of_verify (ek_key ek) sum counts (eq_sum_proof q) DOMAIN_SUM ctx then Ok ()
  else Err (BallotInvalid "the selection count is not shown to be admitted").

Definition total (ciphertexts : list Ciphertext) : Ciphertext :=
  fold_left ct_add ciphertexts ct_zero.

(** ** Reading a total back *)

(** The integer a non-negative [f64] rounds up to. *)
Definition f64_ceil (f : spec_float) : Z :=
  match f with
  | S754_finite false m e =>
      if 0 <=? e then Z.pos m * 2 ^ e else - ((- Z.pos m) / 2 ^ (- e))
  | _ => 0
  end.

(** [(max as f64).sqrt().ceil().max(1.0) as u64]. *)
Definition bsgs_step (max : Z) : Z :=
  Z.max 1 (f64_ceil (SFsqrt 53 1024 (binary_normalize 53 1024 max 0 false))).

(** The baby steps from [p = j*G], [n] of them. *)
Fixpoint baby_steps (n : nat) (j : Z) (p : Point) (baby : gmap Hash Z) : gmap Hash Z :=
  match n with
  | O => baby
  | S n' =>
      let baby := match baby !! compress p with Some _ => baby | None => <[compress p := j]> baby end in
      baby_steps n' (j + 1) (p ⊕ G) baby
  end.

(** The giant steps; [None] when the fuel runs out. *)
Fixpoint giant_steps (fuel : nat) (baby : gmap Hash Z) (step max : Z) (giant gamma : Point) (i : Z)
  : option (tresult Z) :=
  match fuel with
  | O => None
  | S fuel' =>
      let at_ := (i * step) mod 2 ^ 64 in
      if at_ <=? max then
        match baby !! compress gamma with
        | Some j =>
            let m := (at_ + j) mod 2 ^ 64 in
            if m <=? max then Some (Ok m)
            else giant_steps fuel' baby step max giant (gamma ⊖ giant) (i + 1)
        | None => giant_steps fuel' baby step max giant (gamma ⊖ giant) (i + 1)
        end
      else Some (Err TotalOutOfRange)
  end.

(** [m] from [m*G], for [m <= max]. *)
Definition bsgs (m_g : Point) (max : Z) : option (tresult Z) :=
  let step := bsgs_step max in
  let baby := baby_steps (Z.to_nat (step + 1)) 0 p_identity ∅ in
  let giant := scalar_from step ⊙ G in
  giant_steps (Z.to_nat (max / step + 2)) baby step max giant m_g 0.
End Trustees.

(** ** Polynomials in the exponent *)

Section Polynomials.
Context `{D : Dalek, L : !DalekLaws}.

Add Field scalar_field_trustees : scalar_field.

Lemma eval_peval cs j : eval cs j = peval cs (scalar_from j).
Proof. unfold eval, peval. by rewrite <- fold_left_rev_right, rev_involutive. Qed.

Lemma eval_commitments_peval cs j :
  eval_commitments ((λ a, a ⊙ G) <$> cs) j = peval cs (scalar_from j) ⊙ G.
Proof.
  unfold eval_commitments. rewrite <- fold_left_rev_right, rev_involutive.
  induction cs as [|c cs IH]; csimpl; [by rewrite p_mul_zero|].
  rewrite IH. point_norm. f_equal. ring.
Qed.

(** Every list of points is a list of multiples of the basepoint. *)
Lemma points_generated (ps : list Point) : ∃ cs, ps = (λ a, a ⊙ G) <$> cs.
Proof.
  induction ps as [|p ps (cs & ->)]; [by exists []|].
  destruct (p_generated p) as [c ->]. by exists (c :: cs).
Qed.

Lemma lagrange_fold j set num den :
  (∀ k, k ∈ set → scalar_from k = scalar_from j → k = j) → den ≠ s_zero →
  let '(n, d) := fold_left (λ '(num, den) k,
      if bool_decide (k ≠ j) then
        let xk := scalar_from k in (num ⊠ xk, den ⊠ (xk ⊟ scalar_from j))
      else (num, den)) set (num, den) in
  n ⊠ s_invert d = num ⊠ s_invert den ⊠ lag (scalar_from j) (scalar_from <$> set).
Proof.
  revert num den. induction set as [|k set IH]; intros num den Hinj Hden; [simpl; ring|].
  cbn [fold_left]. rewrite fmap_cons, lag_cons. destruct (decide (k = j)) as [->|Hne].
  - rewrite bool_decide_eq_false_2, (bool_decide_eq_true_2 (scalar_from j = _)) by naive_solver.
    apply IH; [set_solver|done].
  - assert (scalar_from k ≠ scalar_from j) as Hk.
    { intros Heq. apply Hne, Hinj; [apply list_elem_of_here|done]. }
    rewrite bool_decide_eq_true_2, (bool_decide_eq_false_2 (scalar_from k = _)) by done. simpl.
    pose proof (sub_nonzero _ _ Hk) as Hkj.
    assert (den ⊠ (scalar_from k ⊟ scalar_from j) ≠ s_zero) as Hd.
    { intros Hz. apply Hkj. by apply (s_mul_cancel_zero den). }
    specialize (IH (num ⊠ scalar_from k) _ ltac:(set_solver) Hd).
    destruct (fold_left _ set _) as [n d]. rewrite IH. field. done.
Qed.

Lemma lagrange_lag j set :
  (∀ k, k ∈ set → scalar_from k = scalar_from j → k = j) →
  lagrange_at_zero j set = lag (scalar_from j) (scalar_from <$> set).
Proof.
  intros Hinj. unfold lagrange_at_zero.
  assert (s_one ≠ s_zero) as H10 by apply (F_1_neq_0 scalar_field).
  pose proof (lagrange_fold j set s_one s_one Hinj H10) as Hf.
  destruct (fold_left _ set _) as [n d]. rewrite Hf. field. done.
Qed.

Lemma scalar_from_NoDup idx :
  NoDup idx → (∀ j, j ∈ idx → 0 ≤ j < group_order) → NoDup (scalar_from <$> idx).
Proof.
  intros Hnd Hr. apply NoDup_fmap_2_strong; [|done].
  intros x y Hx Hy. apply scalar_from_inj; auto.
Qed.
End Polynomials.

(** ** Threshold decryption *)

Section Decryption.
Context `{D : Dalek, L : !DalekLaws} `{Sha256, Sha512, Random, Aead}.

Add Field scalar_field_decryption : scalar_field.

(** What a successful combination of dealings is made of. *)
Lemma from_dealings_ok ds th ctx ek :
  from_dealings ds th ctx = Ok ek →
  Forall (λ d, verify_dealing d th ctx = Ok ()) ds
  ∧ ek = mk_ek th (p_sum ((λ d, default p_identity (head (commitments d))) <$> ds))
           (bs_list (list_to_set (dealer <$> ds)))
           (list_to_map ((λ j, (j, p_sum ((λ d, eval_commitments (commitments d) j) <$> ds)))
                 <$> range_incl 1 (th_n th)))
  ∧ th_t th ≤ Z.of_nat (length ds)
  ∧ size (list_to_set (dealer <$> ds) : gset Z) = length ds.
Proof.
  unfold from_dealings. rewrite bind_unit_ok, guard_ok. intros [Hg Hm].
  apply bind_ok in Hm as (us & Hus & [= <-]). apply try_map_ok in Hus.
  apply orb_false_iff in Hg as [Hs Ht]. apply bool_decide_eq_false in Hs. apply Z.ltb_ge in Ht.
  split; [|split; [done|split; [done|lia]]].
  clear -Hus. induction Hus as [|d [] ds us Hd _ IH]; constructor; auto.
Qed.

Lemma verify_dealing_ok d th ctx :
  verify_dealing d th ctx = Ok () →
  (dealer d ≠ 0 ∧ dealer d ≤ th_n th) ∧ Z.of_nat (length (commitments d)) = th_t th
  ∧ schnorr_verify (default p_identity (head (commitments d))) (d_pok d) DOMAIN_POK
      (dealer_ctx ctx (dealer d)) = true.
Proof.
  unfold verify_dealing. rewrite !bind_unit_ok, !guard_ok, orb_false_iff, Z.eqb_neq, Z.ltb_ge,
    bool_decide_eq_false, negb_false_iff. intros ([??] & Hn & _ & Hs). split; [done|].
  split; [lia|done].
Qed.

Lemma elem_of_range_incl a b j : j ∈ range_incl a b ↔ a ≤ j ≤ b.
Proof. unfold range_incl. rewrite elem_of_seqZ. lia. Qed.

(** The verification key of a trustee. *)
Lemma verification_lookup ds th ctx ek j Y :
  from_dealings ds th ctx = Ok ek → ek_verification ek !! j = Some Y →
  1 ≤ j ≤ th_n th ∧ Y = p_sum ((λ d, eval_commitments (commitments d) j) <$> ds).
Proof.
  intros (_ & -> & _ & _)%from_dealings_ok. simpl.
  intros Hin%elem_of_list_to_map_2. apply list_elem_of_fmap in Hin as (i & [= -> ->] & Hi).
  split; [by apply elem_of_range_incl|done].
Qed.

(** The dealings as polynomials: the key is their sum at zero, a trustee's
    verification key their sum at its index. *)
Lemma dealt_polynomials ds th ctx ek :
  from_dealings ds th ctx = Ok ek → 2 ≤ th_t th →
  ∃ css, Forall (λ cs, Z.of_nat (length cs) = th_t th) css
    ∧ ek_key ek = s_sum ((λ cs, peval cs s_zero) <$> css) ⊙ G
    ∧ ∀ j, p_sum ((λ d, eval_commitments (commitments d) j) <$> ds)
           = s_sum ((λ cs, peval cs (scalar_from j)) <$> css) ⊙ G.
Proof.
  intros (Hds & -> & _ & _)%from_dealings_ok Ht. simpl.
  induction Hds as [|d ds (_ & Hlen & _)%verify_dealing_ok Hds IH].
  { exists []. split; [done|]. split; [|intros j]; csimpl; unfold p_sum, s_sum; simpl;
      by rewrite p_mul_zero. }
  destruct IH as (css & Hcss & Hkey & Hver).
  destruct (points_generated (commitments d)) as [cs Hcs].
  rewrite Hcs, length_fmap in Hlen. exists (cs :: css). split; [by constructor|].
  csimpl. rewrite p_sum_cons, s_sum_cons, Hkey. split.
  - rewrite p_mul_add_l. f_equal. rewrite Hcs. destruct cs as [|c cs]; [simpl in Hlen; lia|].
    simpl. f_equal. ring.
  - intros j. rewrite p_sum_cons, s_sum_cons, Hver, p_mul_add_l. f_equal.
    by rewrite Hcs, eval_commitments_peval.
Qed.

Lemma honest_partial_verifies ek ct key ctx rng p rng' :
  ek_verification ek !! tr_index key = Some (tr_secret key ⊙ G) →
  partial_decrypt key ct ctx rng = (p, rng') →
  verify_partial ek ct p ctx = Ok () ∧ pd_trustee p = tr_index key
  ∧ pd_d p = tr_secret key ⊙ ct_a ct.
Proof.
  unfold partial_decrypt. destruct (cp_prove _ _ _ _ _ _ _) as [proof rng1] eqn:Hp.
  intros Hv [= <- <-]. split; [|done]. unfold verify_partial. simpl. rewrite Hv. simpl.
  by rewrite (cp_complete _ _ _ _ _ _ _ Hp).
Qed.

(** A trustee's key, once formed, is the one its verification key commits to. *)
Lemma from_shares_key index shares ds ek key :
  from_shares index shares ds ek = Ok key →
  tr_index key = index ∧ ek_verification ek !! index = Some (tr_secret key ⊙ G).
Proof.
  unfold from_shares. rewrite bind_unit_ok. intros [_ Hs].
  apply bind_ok in Hs as (secret & _ & Hs). rewrite bind_unit_ok, guard_ok in Hs.
  destruct Hs as [Hv [= <-]]. apply bool_decide_eq_false, dec_stable in Hv. done.
Qed.

(** The partials of distinct trustees, each a secret multiple of the
    ciphertext's element. *)
Lemma choose_partials_spec ek ct ctx (keys : list TrusteeKey) partials (chosen0 : gmap Z Point) :
  NoDup (tr_index <$> keys) → (∀ k, k ∈ keys → chosen0 !! tr_index k = None) →
  Forall2 (λ k p, verify_partial ek ct p ctx = Ok () ∧ pd_trustee p = tr_index k
                  ∧ pd_d p = tr_secret k ⊙ ct_a ct) keys partials →
  try_fold (λ chosen p,
    _ ← verify_partial ek ct p ctx;
    Ok (match chosen !! pd_trustee p with
        | Some _ => chosen
        | None => <[pd_trustee p := pd_d p]> chosen
        end)) chosen0 partials
  = Ok (list_to_map ((λ k, (tr_index k, tr_secret k ⊙ ct_a ct)) <$> keys) ∪ chosen0).
Proof.
  intros Hnd Hfresh Hall. revert chosen0 Hfresh.
  induction Hall as [|k p keys partials (Hv & Hi & Hd) Hall IH]; intros chosen0 Hfresh.
  { simpl. f_equal. by rewrite (left_id_L ∅ (∪)). }
  csimpl in *. apply NoDup_cons in Hnd as [Hk Hnd]. rewrite Hv. csimpl.
  rewrite Hi, Hd, Hfresh by apply list_elem_of_here.
  rewrite IH; [|done|].
  - f_equal. rewrite <- insert_union_r, <- insert_union_l; [done|].
    apply not_elem_of_list_to_map_1. by rewrite <- list_fmap_compose.
  - intros k' Hk'. rewrite lookup_insert_ne; [apply Hfresh; set_solver|].
    intros Heq. apply Hk. rewrite Heq. by apply list_elem_of_fmap_2.
Qed.
(** Enough trustees with formed keys to decrypt. *)
Record can_decrypt (th : Threshold) (ctx : bytes) (ds : list Dealing) (ek : ElectionKey)
    (keys : list TrusteeKey) : Prop := {
  cd_threshold : 2 ≤ th_t th;
  cd_order : th_n th < group_order;
  cd_key : from_dealings ds th ctx = Ok ek;
  cd_keys : ∀ k, k ∈ keys → ∃ shares, from_shares (tr_index k) shares ds ek = Ok k;
  cd_distinct : NoDup (tr_index <$> keys);
  cd_enough : th_t th ≤ Z.of_nat (length keys);
}.

(** A partial decryption made with a key. *)
Definition decrypted_by (ct : Ciphertext) (ctx : bytes) (k : TrusteeKey) (p : PartialDecryption)
  : Prop :=
  ∃ rng rng', partial_decrypt k ct ctx rng = (p, rng').

(** The interpolation loop over multiples of one point. *)
Lemma combine_fold (chosen : gmap Z Point) f A idx0 idx acc :
  (∀ j, j ∈ idx0 → 0 ≤ j < group_order) → idx ⊆ idx0 →
  (∀ j, j ∈ idx → chosen !! j = Some (f (scalar_from j) ⊙ A)) →
  fold_left (λ xa j, xa ⊕ lagrange_at_zero j idx0 ⊙ default p_identity (chosen !! j)) idx (acc ⊙ A)
  = (acc ⊞ s_sum ((λ j, lag (scalar_from j) (scalar_from <$> idx0) ⊠ f (scalar_from j)) <$> idx))
    ⊙ A.
Proof.
  intros Hrange. revert acc. induction idx as [|j idx IH]; intros acc Hsub Hch; csimpl.
  - f_equal. unfold s_sum. simpl. ring.
  - rewrite Hch by apply list_elem_of_here. simpl.
    rewrite lagrange_lag by (intros k Hk Heq; apply scalar_from_inj; auto; apply Hrange, Hsub;
                             apply list_elem_of_here).
    rewrite <- p_mul_mul, <- p_mul_add_l, IH by set_solver. rewrite s_sum_cons. f_equal. ring.
Qed.

Lemma combine_interp ek ct ctx' partials (chosen : gmap Z Point) css x :
  let need := Z.to_nat (th_t (ek_threshold ek)) in
  choose_partials ek ct ctx' partials = Ok chosen → (0 < need ≤ size chosen)%nat →
  (∀ j P, chosen !! j = Some P → 0 ≤ j < group_order
     ∧ P = s_sum ((λ cs, peval cs (scalar_from j)) <$> css) ⊙ ct_a ct) →
  Forall (λ cs, length cs = need) css → s_sum ((λ cs, peval cs s_zero) <$> css) = x →
  combine ek ct partials ctx' = Ok (ct_b ct ⊖ x ⊙ ct_a ct).
Proof.
  intros need Hch Hsize Hf Hcss <-. unfold combine. rewrite Hch. cbn [mbind result_bind].
  rewrite bool_decide_eq_false_2 by lia. cbn [guard_err mbind result_bind].
  fold need. set (idx := take need (bt_keys chosen)).
  assert (Hin : ∀ j, j ∈ idx → is_Some (chosen !! j)).
  { intros j Hj. apply elem_of_bt_keys. by eapply subseteq_take. }
  assert (Hlen : length idx = need).
  { unfold idx. rewrite length_take, length_bt_keys. lia. }
  pose proof (combine_fold chosen (λ y, s_sum ((λ cs, peval cs y) <$> css)) (ct_a ct) idx idx s_zero)
    as Hfold. rewrite p_mul_zero in Hfold. rewrite Hfold; [|clear Hfold..|clear Hfold]; [|..|done|].
  - do 2 f_equal. rewrite <- (interp_poly_sum (scalar_from <$> idx) css).
    + unfold interp. rewrite <- list_fmap_compose. f_equal.
      match goal with |- s_zero ⊞ ?a = ?b => change b with a end. ring.
    + apply scalar_from_NoDup; [eapply sublist_NoDup; [apply (bt_keys_NoDup chosen)|apply sublist_take]|].
      intros j [P HP]%Hin. by apply (Hf j P).
    + intros Hnil%(f_equal length). rewrite length_fmap in Hnil. simpl in Hnil. lia.
    + rewrite length_fmap, Hlen. eapply Forall_impl; [done|]. simpl. lia.
  - intros j [P HP]%Hin. by apply (Hf j P).
  - intros j [P HP]%Hin. rewrite HP. f_equal. by apply (Hf j P).
Qed.
Lemma combine_exact th ctx ds ek keys ct ctx' partials :
  can_decrypt th ctx ds ek keys → Forall2 (decrypted_by ct ctx') keys partials →
  ∃ x, ek_key ek = x ⊙ G ∧ combine ek ct partials ctx' = Ok (ct_b ct ⊖ x ⊙ ct_a ct).
Proof.
  intros [Ht Hn Hek Hkeys Hnd Henough] Hp.
  destruct (dealt_polynomials ds th ctx ek Hek Ht) as (css & Hcss & Hkey & Hver).
  exists (s_sum ((λ cs, peval cs s_zero) <$> css)). split; [done|].
  assert (ek_threshold ek = th) as Hth by (apply from_dealings_ok in Hek as (_ & -> & _); done).
  assert (Hk : ∀ k, k ∈ keys → ek_verification ek !! tr_index k = Some (tr_secret k ⊙ G)).
  { intros k Hin. destruct (Hkeys k Hin) as [sh Hsh]. by apply from_shares_key in Hsh as [_ ?]. }
  pose proof (choose_partials_spec ek ct ctx' keys partials ∅ Hnd) as Hch.
  rewrite (right_id_L ∅ (∪)) in Hch. eapply combine_interp; [apply Hch| | | |done].
  - by intros k _.
  - clear -Hp Hk L. induction Hp as [|k p keys partials (rng & rng' & Hd) Hp IH]; constructor.
    + eapply honest_partial_verifies; [|done]. apply Hk, list_elem_of_here.
    + apply IH. set_solver.
  - rewrite Hth, map_size_list_to_map by (by rewrite <- list_fmap_compose).
    rewrite length_fmap. lia.
  - intros j P HP%elem_of_list_to_map_2. apply list_elem_of_fmap in HP as (k & [= -> ->] & Hin).
    destruct (verification_lookup _ _ _ _ _ _ Hek (Hk k Hin)) as [Hr HY]. split; [lia|].
    rewrite Hver in HY. apply p_mul_G_inj in HY. by rewrite HY.
  - rewrite Hth. eapply Forall_impl; [done|]. simpl. lia.
Qed.

(** C36 (any [t] trustees decrypt): whoever dealt, once the dealings combine
    to an election key, the partial decryptions of any [t] or more trustees
    whose keys formed combine to the plaintext of every ciphertext under it. *)
Theorem threshold_decrypts th ctx ds ek keys M r ctx' partials :
  can_decrypt th ctx ds ek keys →
  let ct := mk_ct (r ⊙ G) (M ⊕ r ⊙ ek_key ek) in
  Forall2 (decrypted_by ct ctx') keys partials →
  combine ek ct partials ctx' = Ok M.
Proof.
  intros Hcd ct Hp. destruct (combine_exact _ _ _ _ _ _ _ _ Hcd Hp) as (x & Hx & ->). simpl.
  rewrite Hx. destruct (p_generated M) as [m ->]. f_equal. point_norm. f_equal. ring.
Qed.

(** ** Sealing *)

Lemma seal_to_elem to msg aad rng sealed rng' :
  seal_to to msg aad rng = Ok (sealed, rng') →
  ∃ e r, kem sealed = mk_ct (r ⊙ G) (e ⊙ G ⊕ r ⊙ to)
    ∧ aead_encrypt (seal_key (e ⊙ G)) msg (seal_aad aad (kem sealed)) = Some (body sealed).
Proof.
  unfold seal_to. destruct (random_scalar rng) as [e rng1], (random_scalar rng1) as [r rng2].
  rewrite bind_ok. setoid_rewrite ok_or_ok. intros (b & Hb & [= <- <-]). by exists e, r.
Qed.

Context {AL : AeadLaws}.

(** A sealed ballot opens after the close: a ballot sealed to the
    election key opens, under the context it was sealed in, from the partial
    decryptions of any [t] trustees, to the bytes sealed. *)
Theorem sealed_ballot_opens th ctx ds ek keys ballot ctx' rng sealed rng' partials :
  can_decrypt th ctx ds ek keys →
  seal ek ballot ctx' rng = Ok (sealed, rng') →
  Forall2 (decrypted_by (kem sealed) ctx') keys partials →
  open_sealed ek sealed partials ctx' = Ok ballot.
Proof.
  intros Hcd (e & r & Hkem & Henc)%seal_to_elem Hp. unfold open_sealed.
  destruct (combine_exact _ _ _ _ _ _ _ _ Hcd Hp) as (x & Hx & ->). simpl.
  rewrite Hkem. simpl. rewrite Hx.
  assert (e ⊙ G ⊕ r ⊙ x ⊙ G ⊖ x ⊙ r ⊙ G = e ⊙ G) as -> by (point_norm; f_equal; ring).
  unfold open_with. by rewrite (aead_roundtrip _ _ _ _ Henc).
Qed.

(** A share reaches its recipient: a share sealed to its recipient's
    published transport key opens, with that key's secret and for its dealer,
    to the same share. *)
Theorem share_transport secret tk ctx0 rng0 rng0' share ctx rng sealed rng' :
  transport_publish secret ctx0 rng0 = (tk, rng0') →
  seal_share share tk ctx rng = Ok (sealed, rng') →
  open_share secret (s_dealer share) sealed ctx = Ok share.
Proof.
  unfold transport_publish. destruct (schnorr_prove _ _ _ _ _) as [pok rng1]. intros [= <- <-].
  unfold seal_share. simpl. case_bool_decide as Hr; [done|].
  intros (e & r & Hkem & Henc)%seal_to_elem. unfold open_share. rewrite Hkem. simpl.
  assert (e ⊙ G ⊕ r ⊙ ts_secret secret ⊙ G ⊖ ts_secret secret ⊙ r ⊙ G = e ⊙ G) as ->
    by (point_norm; f_equal; ring).
  unfold open_with. rewrite Hr, (aead_roundtrip _ _ _ _ Henc). simpl.
  rewrite hash_of_bytes_vec. simpl. rewrite canonical_roundtrip. simpl. by destruct share.
Qed.
End Decryption.

(** ** Honest dealing *)

Section Dealing.
Context `{D : Dalek, L : !DalekLaws} `{Sha256, Sha512, Random, Aead}.

Add Field scalar_field_dealing : scalar_field.

Lemma length_random_scalars n rng l rng' :
  random_scalars n rng = (l, rng') → length l = n.
Proof.
  revert rng l. induction n as [|n IH]; intros rng l; simpl; [by intros [= <- <-]|].
  destruct (random_scalar rng) as [s rng1], (random_scalars n rng1) as [l' rng2] eqn:E.
  intros [= <- <-]. simpl. f_equal. by eapply IH.
Qed.

(** The polynomial behind an honest dealing. *)
Lemma deal_polynomial i th ctx rng d shares rng' :
  deal i th ctx rng = Ok (d, shares, rng') →
  ∃ cs rng1 pok rng2, (i ≠ 0 ∧ i ≤ th_n th) ∧ length cs = Z.to_nat (th_t th)
    ∧ schnorr_prove (default s_zero (head cs)) (default s_zero (head cs) ⊙ G) DOMAIN_POK
        (dealer_ctx ctx i) rng1 = (pok, rng2)
    ∧ d = mk_dealing i ((λ a, a ⊙ G) <$> cs) pok
    ∧ shares = (λ j, mk_share i j (eval cs j)) <$> range_incl 1 (th_n th).
Proof.
  unfold deal. destruct (_ || _) eqn:Hi; [done|].
  apply orb_false_iff in Hi as [Hi0%Z.eqb_neq Hin%Z.ltb_ge].
  destruct (random_scalars _ rng) as [cs rng1] eqn:Hcs. apply length_random_scalars in Hcs.
  destruct (schnorr_prove _ _ _ _ _) as [pok rng2] eqn:Hpok. intros [= <- <- <-].
  exists cs, rng1, pok, rng2. split; [done|]. split; [done|]. split; [|done].
  rewrite <- Hpok. f_equal. destruct cs; simpl; [by rewrite p_mul_zero|done].
Qed.

Lemma dealt_share_verifies i th ctx rng d shares rng' s :
  deal i th ctx rng = Ok (d, shares, rng') → s ∈ shares → verify_share d s = Ok ().
Proof.
  intros (cs & _ & pok & _ & _ & _ & _ & -> & ->)%deal_polynomial.
  intros (j & -> & _)%list_elem_of_fmap. unfold verify_share. simpl.
  rewrite eval_commitments_peval, eval_peval.
  by rewrite !bool_decide_eq_false_2 by (intros Hn; by apply Hn).
Qed.

(** An honest dealing passes: every share of an honest dealing verifies
    against its commitments, there is one for each trustee, and the dealing
    verifies unless a random coefficient was zero. *)
Theorem honest_deal_verifies i th ctx rng d shares rng' :
  0 ≤ th_t th → deal i th ctx rng = Ok (d, shares, rng') →
  (∀ s, s ∈ shares → verify_share d s = Ok ())
  ∧ s_recipient <$> shares = range_incl 1 (th_n th)
  ∧ (p_identity ∉ commitments d → verify_dealing d th ctx = Ok ()).
Proof.
  intros Ht Hd. split; [by intros s; eapply dealt_share_verifies|].
  apply deal_polynomial in Hd as (cs & rng1 & pok & rng2 & [Hi0 Hin] & Hlen & Hpok & -> & ->).
  split; [by rewrite <- list_fmap_compose, list_fmap_id|]. intros Hid.
  unfold verify_dealing. simpl. rewrite !bind_unit_ok, !guard_ok. split_and!.
  - apply orb_false_iff. split; [by apply Z.eqb_neq|by apply Z.ltb_ge].
  - apply bool_decide_eq_false. rewrite length_fmap. lia.
  - apply existsb_false. intros c Hc. apply bool_decide_eq_false. by intros ->.
  - apply negb_false_iff. apply schnorr_complete in Hpok. destruct cs as [|c cs]; simpl in *; [|done].
    by rewrite p_mul_zero in Hpok.
Qed.

(** The share for [j] of each dealing. *)
Definition shares_for (j : Z) (dealt : list (Dealing * list Share)) : list Share :=
  omap (λ x, find (λ s, bool_decide (s_recipient s = j)) x.2) dealt.

Definition dealt_honestly (th : Threshold) (ctx : bytes) (x : Dealing * list Share) : Prop :=
  ∃ rng rng', deal (dealer x.1) th ctx rng = Ok (x.1, x.2, rng').

Lemma find_dealt i cs n j :
  1 ≤ j ≤ n →
  find (λ s, bool_decide (s_recipient s = j)) ((λ j, mk_share i j (eval cs j)) <$> range_incl 1 n)
  = Some (mk_share i j (eval cs j)).
Proof.
  intros Hj%elem_of_range_incl. induction (range_incl 1 n) as [|k l IH]; [by apply elem_of_nil in Hj|].
  csimpl. case_bool_decide as Hk; [by rewrite Hk|]. apply IH. set_solver.
Qed.

(** The dealers of the shares, and what summing them gives. *)
Lemma shares_for_spec th ctx dealt j :
  Forall (dealt_honestly th ctx) dealt → 1 ≤ j ≤ th_n th →
  s_dealer <$> shares_for j dealt = dealer <$> dealt.*1
  ∧ Forall2 (λ s d, s_recipient s = j ∧ s_dealer s = dealer d ∧ verify_share d s = Ok ())
      (shares_for j dealt) dealt.*1
  ∧ s_sum (s_value <$> shares_for j dealt) ⊙ G
    = p_sum ((λ d, eval_commitments (commitments d) j) <$> dealt.*1).
Proof.
  intros Hall Hj. induction Hall as [|[d shares] dealt (rng & rng' & Hd) Hall (IHd & IHv & IHs)].
  { split; [done|]. split; [constructor|]. unfold s_sum, p_sum. simpl. by rewrite p_mul_zero. }
  simpl in Hd. pose proof Hd as Hv.
  apply deal_polynomial in Hd as (cs & _ & pok & _ & _ & _ & _ & Heq & Hsh).
  unfold shares_for in *. csimpl. rewrite Hsh, find_dealt by done. csimpl.
  split; [by rewrite IHd|]. split.
  - constructor; [|done]. split; [done|]. split; [done|].
    eapply dealt_share_verifies; [done|]. rewrite Hsh. apply list_elem_of_fmap.
    exists j. by rewrite elem_of_range_incl.
  - rewrite s_sum_cons, p_sum_cons, p_mul_add_l, IHs. f_equal.
    rewrite Heq. simpl. rewrite eval_commitments_peval. simpl. by rewrite eval_peval.
Qed.
Lemma find_by_dealer (ds : list Dealing) d :
  NoDup (dealer <$> ds) → d ∈ ds →
  (list_to_map (rev ((λ d, (dealer d, d)) <$> ds)) : gmap Z Dealing) !! dealer d = Some d.
Proof.
  intros Hnd Hin. apply elem_of_list_to_map_1.
  - rewrite <- Permutation_rev. by rewrite <- list_fmap_compose.
  - rewrite <- Permutation_rev. apply list_elem_of_fmap. by exists d.
Qed.

(** Summing verified shares. *)
Lemma sum_shares index (by_dealer : gmap Z Dealing) shares ds acc :
  Forall2 (λ s d, s_recipient s = index ∧ s_dealer s = dealer d ∧ verify_share d s = Ok ())
    shares ds → (∀ d, d ∈ ds → by_dealer !! dealer d = Some d) →
  try_fold (λ secret s,
    _ ← guard_err (bool_decide (s_recipient s ≠ index)) ShareInvalid;
    d ← ok_or (by_dealer !! s_dealer s) ShareInvalid;
    _ ← verify_share d s;
    Ok (secret ⊞ s_value s)) acc shares = Ok (acc ⊞ s_sum (s_value <$> shares)).
Proof.
  intros Hall. revert acc. induction Hall as [|s d shares ds (Hr & Hs & Hv) Hall IH]; intros acc Hby.
  { simpl. f_equal. unfold s_sum. simpl. ring. }
  csimpl. rewrite bool_decide_eq_false_2 by (intros Hn; by apply Hn). simpl.
  rewrite Hs, Hby by apply list_elem_of_here. simpl. rewrite Hv. simpl.
  rewrite IH by set_solver. f_equal. rewrite s_sum_cons. ring.
Qed.

(** An honest ceremony gives every trustee its key: when the election
    key forms from honest dealings, the shares addressed to any trustee form
    that trustee's key. *)
Theorem honest_keys_form th ctx dealt ek j :
  Forall (dealt_honestly th ctx) dealt →
  from_dealings dealt.*1 th ctx = Ok ek → 1 ≤ j ≤ th_n th →
  ∃ secret, from_shares j (shares_for j dealt) dealt.*1 ek = Ok (mk_trustee_key j secret).
Proof.
  intros Hall Hek Hj. destruct (shares_for_spec th ctx dealt j Hall Hj) as (Hdealers & Hv & Hsum).
  apply from_dealings_ok in Hek as (_ & -> & _ & Hsize).
  assert (NoDup (dealer <$> dealt.*1)) as Hnd.
  { apply size_list_to_set_NoDup. by rewrite Hsize, !length_fmap. }
  exists (s_zero ⊞ s_sum (s_value <$> shares_for j dealt)). unfold from_shares.
  rewrite Hdealers, Hsize. cbn [ek_qualified ek_verification].
  rewrite (bool_decide_eq_false_2 (length _ ≠ length _)).
  2: { rewrite <- (length_fmap s_dealer (shares_for _ _)), Hdealers, !length_fmap. by intros []. }
  rewrite (bool_decide_eq_false_2 (length _ ≠ size _)).
  2: { rewrite map_size_list_to_map, length_rev, !length_fmap; [by intros []|].
       rewrite <- Permutation_rev. by rewrite <- list_fmap_compose. }
  rewrite bool_decide_eq_false_2 by (intros []; done). simpl.
  rewrite (sum_shares j _ _ _ _ Hv) by (intros d Hd; by apply find_by_dealer). simpl.
  rewrite bool_decide_eq_false_2; [done|]. intros Hne. apply Hne.
  apply elem_of_list_to_map_1.
  - rewrite <- list_fmap_compose, list_fmap_id. apply NoDup_seqZ.
  - apply list_elem_of_fmap. exists j. split; [|by apply elem_of_range_incl].
    f_equal. rewrite <- Hsum. f_equal. ring.
Qed.
End Dealing.

(** ** Encrypted votes *)

Section Votes.
Context `{D : Dalek, L : !DalekLaws} `{Sha256, Sha512, Random, Aead}.

Add Field scalar_field_votes : scalar_field.

(** [ct] encrypts the number [m] to the election key with randomness [r]. *)
Definition encrypts_with (ek : ElectionKey) (m : Z) (r : Scalar) (ct : Ciphertext) : Prop :=
  ct = mk_ct (r ⊙ G) (scalar_from m ⊙ G ⊕ r ⊙ ek_key ek).
Definition encrypts (ek : ElectionKey) (m : Z) (ct : Ciphertext) : Prop :=
  ∃ r, encrypts_with ek m r ct.

Lemma encrypts_zero ek : encrypts_with ek 0 s_zero ct_zero.
Proof.
  unfold encrypts_with, ct_zero. by rewrite scalar_from_0, !p_mul_zero, p_add_identity_l.
Qed.

Lemma encrypts_add ek m r ct n s ct' :
  0 ≤ m → 0 ≤ n → encrypts_with ek m r ct → encrypts_with ek n s ct' →
  encrypts_with ek (m + n) (r ⊞ s) (ct_add ct ct').
Proof.
  intros Hm Hn -> ->. unfold encrypts_with, ct_add. simpl.
  rewrite scalar_from_add by done. destruct (p_generated (ek_key ek)) as [k ->].
  f_equal; point_norm; f_equal; ring.
Qed.

Lemma selections_cons on chosen : selections (on :: chosen) = (if on then 1 else 0) + selections chosen.
Proof. unfold selections. destruct on; simpl; lia. Qed.

Lemma encrypt_options_spec ek ctx i chosen m r_sum ct_sum rng options r' ct' rng' :
  0 ≤ m → encrypts_with ek m r_sum ct_sum →
  encrypt_options ek ctx i chosen r_sum ct_sum rng = (options, r', ct', rng') →
  verify_options ek ctx i options ct_sum = Ok ct'
  ∧ encrypts_with ek (m + selections chosen) r' ct'
  ∧ Forall2 (λ on o, encrypts ek (if on : bool then 1 else 0) o.1) chosen options.
Proof.
  intros Hm. revert i m Hm r_sum ct_sum rng options r' ct' rng'.
  induction chosen as [|on chosen IH]; intros i m Hm r_sum ct_sum rng options r' ct' rng' Henc; simpl.
  { intros [= <- <- <- <-]. unfold selections. simpl. rewrite Z.add_0_r. done. }
  set (b := if on then 1 else 0). assert (0 ≤ b ≤ 1) as Hb by (unfold b; destruct on; lia).
  destruct (random_scalar rng) as [r rng1].
  destruct (one_of_prove _ _ _ _ _ _ _ rng1) as [proof rng2] eqn:Hproof.
  destruct (encrypt_options _ _ (S i) _ _ _ _) as [[[opts' r1] ct1] rng3] eqn:Hrest.
  intros [= <- <- <- <-].
  assert (encrypts_with ek b r (mk_ct (r ⊙ G) (scalar_from b ⊙ G ⊕ r ⊙ ek_key ek))) as Hct by done.
  apply IH with (m := m + b) in Hrest as (Hver & Hsum & Hall); [|lia|by apply encrypts_add; [..|lia| |]].
  split; [|split].
  - cbn [verify_options]. erewrite one_of_complete; [done| |done|done].
    unfold b. by destruct on.
  - rewrite selections_cons. fold b. by rewrite Z.add_assoc.
  - constructor; [|done]. by exists r.
Qed.

Lemma position_lookup counts k i : position counts k = Some i → counts !! i = Some k.
Proof.
  unfold position. destruct (list_find _ counts) as [[j c]|] eqn:E; [|done]. intros [= <-].
  apply list_find_Some in E as (? & -> & _). done.
Qed.

Lemma encrypted_vote_spec ek chosen counts ctx rng q rng' :
  encrypt_vote ek chosen counts ctx rng = Ok (q, rng') →
  verify_vote ek q (length chosen) counts ctx = Ok ()
  ∧ Forall2 (λ on o, encrypts ek (if on : bool then 1 else 0) o.1) chosen (eq_options q).
Proof.
  unfold encrypt_vote. destruct (position counts _) as [actual|] eqn:Hpos; [|done].
  destruct (encrypt_options _ _ 0 _ _ _ _) as [[[options r_sum] ct_sum] rng1] eqn:Hopt.
  destruct (one_of_prove _ _ _ _ _ _ _ _) as [proof rng2] eqn:Hproof. intros [= <- <-].
  apply encrypt_options_spec with (m := 0) in Hopt as (Hver & Hsum & Hall);
    [|lia|apply encrypts_zero].
  split; [|done]. unfold verify_vote. simpl.
  rewrite bool_decide_eq_false_2 by (rewrite (Forall2_length _ _ _ Hall); by intros []). simpl.
  rewrite Hver. simpl. erewrite one_of_complete; [done|by apply position_lookup| |done].
  by rewrite Z.add_0_l in Hsum.
Qed.

(** An honest vote is accepted: an encrypted question is refused to its
    voter only when the selection count is not admitted; once encrypted it
    verifies against the same counts and context, and encrypts a one for each
    option chosen and a zero for the others. *)
Theorem encrypted_vote_verifies ek chosen counts ctx rng :
  (selections chosen ∈ counts ↔ is_ok (encrypt_vote ek chosen counts ctx rng) = true)
  ∧ ∀ q rng', encrypt_vote ek chosen counts ctx rng = Ok (q, rng') →
      verify_vote ek q (length chosen) counts ctx = Ok ()
      ∧ Forall2 (λ on o, encrypts ek (if on : bool then 1 else 0) o.1) chosen (eq_options q).
Proof.
  split; [|apply encrypted_vote_spec]. unfold encrypt_vote.
  destruct (position counts _) as [a|] eqn:Hpos.
  - apply position_lookup in Hpos. destruct (encrypt_options _ _ _ _ _ _ _) as [[[? ?] ?] ?].
    destruct (one_of_prove _ _ _ _ _ _ _ _). split; [done|].
    intros _. by eapply list_elem_of_lookup_2.
  - unfold position in Hpos. apply fmap_None in Hpos. apply list_find_None in Hpos.
    rewrite Forall_forall in Hpos. split; [|done]. intros Hin. by destruct (Hpos _ Hin).
Qed.

(** The total of encryptions encrypts the sum. *)
Lemma total_from ek ms cts m0 ct0 :
  0 ≤ m0 → encrypts ek m0 ct0 →
  Forall2 (λ m ct, 0 ≤ m ∧ encrypts ek m ct) ms cts →
  encrypts ek (m0 + fold_right Z.add 0 ms) (fold_left ct_add cts ct0).
Proof.
  intros Hm0 Henc0 Hall. revert m0 ct0 Hm0 Henc0.
  induction Hall as [|m ct ms cts [Hm [s Hct]] Hall IH]; intros m0 ct0 Hm0 [r Hr]; simpl.
  { exists r. by rewrite Z.add_0_r. }
  rewrite Z.add_assoc. apply IH; [lia|]. exists (r ⊞ s). by apply encrypts_add.
Qed.

Lemma total_encrypts ek ms cts :
  Forall2 (λ m ct, 0 ≤ m ∧ encrypts ek m ct) ms cts →
  encrypts ek (fold_right Z.add 0 ms) (total cts).
Proof.
  intros Hall. unfold total. rewrite <- (Z.add_0_l (fold_right _ _ _)).
  apply total_from; [lia|exists s_zero; apply encrypts_zero|done].
Qed.
End Votes.

(** ** Reading a total back *)

Section Bsgs.
Context `{D : Dalek, L : !DalekLaws}.

Add Field scalar_field_bsgs : scalar_field.

(** The number [m] in the group. *)
Definition in_group (m : Z) : Point := scalar_from m ⊙ G.

Lemma in_group_succ j : 0 ≤ j → in_group j ⊕ G = in_group (j + 1).
Proof.
  intros Hj. unfold in_group. rewrite scalar_from_succ by done. rewrite <- (p_mul_one G) at 2.
  by rewrite <- p_mul_add_l.
Qed.

Lemma in_group_sub m n : 0 ≤ n ≤ m → in_group m ⊖ in_group n = in_group (m - n).
Proof.
  intros Hn. unfold in_group. rewrite p_sub_mul. f_equal.
  replace m with ((m - n) + n) at 1 by lia. rewrite scalar_from_add by lia. ring.
Qed.

Lemma in_group_inj a b :
  0 ≤ a < group_order → 0 ≤ b < group_order → in_group a = in_group b → a = b.
Proof. intros Ha Hb Heq%p_mul_G_inj. by apply scalar_from_inj. Qed.

(** The table holds exactly the first multiples, each at its first index. *)
Definition table_upto (n : Z) (baby : gmap Hash Z) : Prop :=
  (∀ h j, baby !! h = Some j → 0 ≤ j < n ∧ h = compress (in_group j))
  ∧ ∀ j, 0 ≤ j < n → is_Some (baby !! compress (in_group j)).

Lemma baby_steps_table n j baby :
  0 ≤ j → table_upto j baby →
  table_upto (j + Z.of_nat n) (baby_steps n j (in_group j) baby).
Proof.
  revert j baby. induction n as [|n IH]; intros j baby Hj [Hs Hc].
  { simpl. by rewrite Z.add_0_r. }
  cbn [baby_steps]. rewrite in_group_succ by done.
  replace (j + Z.of_nat (S n)) with (j + 1 + Z.of_nat n) by lia. apply IH; [lia|].
  assert (Hcase : ∀ k, 0 ≤ k < j + 1 → k < j ∨ k = j) by lia.
  destruct (baby !! compress (in_group j)) as [j'|] eqn:E; split.
  - intros h k Hk. destruct (Hs h k Hk). split; [lia|done].
  - intros k Hk. destruct (Hcase k Hk) as [Hlt| ->]; [apply Hc; lia|by exists j'].
  - intros h k. destruct (decide (h = compress (in_group j))) as [->|Hne].
    + rewrite lookup_insert_eq. intros [= <-]. split; [lia|done].
    + rewrite lookup_insert_ne by done. intros Hk. destruct (Hs h k Hk). split; [lia|done].
  - intros k Hk. destruct (decide (compress (in_group k) = compress (in_group j))) as [->|Hne].
    + rewrite lookup_insert_eq. by eexists.
    + rewrite lookup_insert_ne by done. destruct (Hcase k Hk) as [Hlt| ->]; [apply Hc; lia|done].
Qed.

Section Search.
Context (step max : Z) (baby : gmap Hash Z).
Hypotheses (Hstep : 1 ≤ step) (Htable : table_upto (step + 1) baby)
  (Hwide : max + step < 2 ^ 64).

Lemma giant_next P i :
  0 ≤ i → P ⊖ in_group (i * step) ⊖ scalar_from step ⊙ G = P ⊖ in_group ((i + 1) * step).
Proof.
  intros Hi. destruct (p_generated P) as [p ->]. unfold in_group. point_norm. f_equal.
  replace ((i + 1) * step) with (i * step + step) by lia. rewrite scalar_from_add by lia. ring.
Qed.

(** The total is found within the steps up to its own block. *)
Lemma giant_finds m fuel i :
  0 ≤ m ≤ max → max + step < group_order → 0 ≤ i → i * step ≤ m →
  m / step - i < Z.of_nat fuel →
  giant_steps fuel baby step max (scalar_from step ⊙ G) (in_group m ⊖ in_group (i * step)) i
  = Some (Ok m).
Proof.
  intros Hm Hord. revert i. induction fuel as [|fuel IH]; intros i Hi Him Hfuel.
  { assert (i ≤ m / step) by (apply Z.div_le_lower_bound; lia). lia. }
  cbn [giant_steps]. rewrite (Z.mod_small (i * step)) by lia.
  rewrite (proj2 (Z.leb_le (i * step) max)) by lia.
  rewrite giant_next by done. rewrite in_group_sub by lia.
  destruct Htable as [Hs Hc]. destruct (baby !! _) as [j|] eqn:E.
  - apply Hs in E as [Hj Heq%compress_inj]. apply in_group_inj in Heq; [|lia..].
    rewrite Z.mod_small by lia. replace (i * step + j) with m by lia.
    by rewrite (proj2 (Z.leb_le m max)) by lia.
  - assert (step < m - i * step).
    { destruct (decide (m - i * step ≤ step)); [|lia].
      destruct (Hc (m - i * step)) as [? Hsome]; [lia|congruence]. }
    apply IH; [lia|nia|]. lia.
Qed.

(** A point that is no total in range is reported as such. *)
Lemma giant_misses P fuel i :
  0 ≤ max → (∀ m, 0 ≤ m ≤ max → P ≠ in_group m) → 0 ≤ i → i * step ≤ max + step →
  max / step + 1 - i < Z.of_nat fuel →
  giant_steps fuel baby step max (scalar_from step ⊙ G) (P ⊖ in_group (i * step)) i
  = Some (Err TotalOutOfRange).
Proof.
  intros Hmax HP. revert i. induction fuel as [|fuel IH]; intros i Hi Him Hfuel.
  { assert (i ≤ max / step + 1); [|lia].
    replace (max / step + 1) with ((max + 1 * step) / step) by (rewrite Z.div_add; lia).
    apply Z.div_le_lower_bound; lia. }
  cbn [giant_steps]. rewrite (Z.mod_small (i * step)) by lia.
  destruct (i * step <=? max) eqn:Hle; [|done]. apply Z.leb_le in Hle. rewrite giant_next by done.
  assert (Hrec : giant_steps fuel baby step max (scalar_from step ⊙ G)
    (P ⊖ in_group ((i + 1) * step)) (i + 1) = Some (Err TotalOutOfRange)).
  { apply IH; [lia|nia|lia]. }
  destruct (baby !! _) as [j|] eqn:E; [|done].
  destruct Htable as [Hs _]. apply Hs in E as [Hj Heq%compress_inj].
  destruct ((i * step + j) mod 2 ^ 64 <=? max) eqn:Hm; [|done]. exfalso.
  rewrite Z.mod_small in Hm by lia. apply Z.leb_le in Hm.
  apply (HP (i * step + j)); [lia|]. revert Heq. destruct (p_generated P) as [p ->].
  unfold in_group. rewrite p_sub_mul. intros Heq%p_mul_G_inj. f_equal.
  rewrite scalar_from_add, <- Heq by lia. ring.
Qed.
End Search.

Lemma bsgs_start max :
  1 ≤ bsgs_step max
  ∧ table_upto (bsgs_step max + 1)
      (baby_steps (Z.to_nat (bsgs_step max + 1)) 0 p_identity (∅ : gmap Hash Z)).
Proof.
  assert (1 ≤ bsgs_step max) as Hs by (unfold bsgs_step; lia). split; [lia|].
  assert (in_group 0 = p_identity) as <-.
  { unfold in_group. by rewrite scalar_from_0, p_mul_zero. }
  replace (bsgs_step max + 1) with (0 + Z.of_nat (Z.to_nat (bsgs_step max + 1))) at 1 by lia.
  apply baby_steps_table; [done|]. split; [by intros h j ?|intros j Hj; lia].
Qed.

Lemma sub_in_group_0 P : P = P ⊖ in_group (0 * bsgs_step 0).
Proof.
  destruct (p_generated P) as [p ->]. unfold in_group. simpl. rewrite scalar_from_0. point_norm.
  f_equal. ring.
Qed.

Lemma bsgs_finds max P m :
  0 ≤ m ≤ max → max + bsgs_step max < 2 ^ 64 → max + bsgs_step max < group_order →
  P = in_group m → bsgs P max = Some (Ok m).
Proof.
  intros Hm Hwide Hord ->. destruct (bsgs_start max) as [Hstep Htable]. unfold bsgs.
  rewrite (sub_in_group_0 (in_group m)), Z.mul_0_l, <- (Z.mul_0_l (bsgs_step max)).
  apply giant_finds; try lia; [done|].
  assert (0 ≤ max / bsgs_step max) by (apply Z.div_pos; lia).
  assert (m / bsgs_step max ≤ max / bsgs_step max) by (apply Z.div_le_mono; lia). lia.
Qed.

(** C40 (a total is read back exactly): the baby-step giant-step search ends,
    finds every total up to the maximum, and reports a point that is no such
    total as out of range. *)
Theorem bsgs_exact max P :
  0 ≤ max → max + bsgs_step max < 2 ^ 64 → max + bsgs_step max < group_order →
  (∀ m, 0 ≤ m ≤ max → P = in_group m → bsgs P max = Some (Ok m))
  ∧ ((∀ m, 0 ≤ m ≤ max → P ≠ in_group m) → bsgs P max = Some (Err TotalOutOfRange)).
Proof.
  intros Hmax Hwide Hord. split; [intros m Hm HP; by apply bsgs_finds|intros HP].
  destruct (bsgs_start max) as [Hstep Htable]. unfold bsgs.
  assert (0 ≤ max / bsgs_step max) by (apply Z.div_pos; lia).
  rewrite (sub_in_group_0 P), Z.mul_0_l, <- (Z.mul_0_l (bsgs_step max)).
  apply giant_misses; try lia; done.
Qed.
End Bsgs.

(** ** A tallied-encrypted election *)

Section Election.
Context `{D : Dalek, L : !DalekLaws} `{Sha256, Sha512, Random, Aead}.

Add Field scalar_field_election : scalar_field.

(** The encrypted questions of voters who chose [votes]. *)
Definition cast_votes (ek : ElectionKey) (votes : list (list bool)) (qs : list EncryptedQuestion)
  : Prop :=
  Forall2 (λ chosen q, ∃ counts ctx rng rng', encrypt_vote ek chosen counts ctx rng = Ok (q, rng'))
    votes qs.

(** The ciphertexts of one option over every question cast. *)
Definition option_ciphertexts (k : nat) (qs : list EncryptedQuestion) : list Ciphertext :=
  omap (λ q, fst <$> eq_options q !! k) qs.

(** How many of the votes chose an option. *)
Definition chose (k : nat) (votes : list (list bool)) : Z :=
  Z.of_nat (length (List.filter (λ v, bool_decide (v !! k = Some true)) votes)).

Lemma option_total ek votes qs k :
  cast_votes ek votes qs → encrypts ek (chose k votes) (total (option_ciphertexts k qs)).
Proof.
  intros Hcast.
  assert (∃ ms, fold_right Z.add 0 ms = chose k votes
    ∧ Forall2 (λ m ct, 0 ≤ m ∧ encrypts ek m ct) ms (option_ciphertexts k qs)) as (ms & <- & Hms).
  2: { by apply total_encrypts. }
  unfold option_ciphertexts, chose.
  induction Hcast as [|v q votes qs (counts & ctx & rng & rng' & Hq) Hcast (ms & Hsum & Hms)].
  { exists []. split; [done|constructor]. }
  apply encrypted_vote_spec in Hq as [_ Hall]. csimpl.
  destruct (v !! k) as [on|] eqn:Hv.
  - destruct (Forall2_lookup_l _ _ _ _ _ Hall Hv) as ([ct p] & -> & Hct). simpl in *.
    exists ((if on then 1 else 0) :: ms). split; [|by constructor; [destruct on; split; [lia|done..]|]].
    destruct on; [rewrite bool_decide_eq_true_2 by done|rewrite bool_decide_eq_false_2 by done];
      simpl; lia.
  - destruct (eq_options q !! k) eqn:Hk.
    { destruct (Forall2_lookup_r _ _ _ _ _ Hall Hk) as (? & ? & _). congruence. }
    rewrite bool_decide_eq_false_2 by done. by exists ms.
Qed.

(** The decrypted total is the vote count: in a tallied-encrypted
    election, the partial decryptions of any [t] trustees of an option's
    homomorphic total combine to a point that reads back as the number of
    voters who chose that option. *)
Theorem encrypted_total th ctx ds ek keys votes qs k ctx' partials max :
  can_decrypt th ctx ds ek keys → cast_votes ek votes qs →
  let ct := total (option_ciphertexts k qs) in
  Forall2 (decrypted_by ct ctx') keys partials →
  chose k votes ≤ max → max + bsgs_step max < 2 ^ 64 → max + bsgs_step max < group_order →
  ∃ P, combine ek ct partials ctx' = Ok P ∧ bsgs P max = Some (Ok (chose k votes)).
Proof.
  intros Hcd Hcast ct Hp Hmax Hw Ho.
  destruct (option_total ek votes qs k Hcast) as [r Hct]. fold ct in Hct.
  destruct (combine_exact _ _ _ _ _ _ _ _ Hcd Hp) as (x & Hx & ->). eexists. split; [done|].
  rewrite Hct. simpl. rewrite Hx.
  assert (0 ≤ chose k votes) by (unfold chose; lia).
  apply bsgs_finds; [lia..|]. unfold in_group. point_norm. f_equal. ring.
Qed.
End Election.

(** ** Witnesses

    Three trustees with a threshold of two over the small group. *)

Module ToyTrustees.
#[export] Existing Instances ToyGroup.dalek ToyGroup.laws ToyGroup.random toy_sha256.
#[export] Instance sha512_const : Sha512 := ToyGroup.constant x05.
#[export] Instance aead : Aead := {|
  aead_encrypt := λ _ msg aad, Some (msg ++ aad);
  aead_decrypt := λ _ body aad,
    let n := (length body - length aad)%nat in
    if bool_decide (drop n body = aad) then Some (take n body) else None;
|}.

Lemma aead_laws : AeadLaws.
Proof.
  split. intros key msg aad body [= <-]. simpl. rewrite length_app, Nat.add_sub.
  by rewrite drop_app_length, take_app_length, bool_decide_eq_true_2.
Qed.

Definition th : Threshold := mk_threshold 2 3.
Definition dummy : Dealing := mk_dealing 0 [] (mk_schnorr s_zero s_zero).
Definition dealing_of (i : Z) : Dealing * list Share * Z :=
  unwrap_or (deal i th [] (i * 7)) (dummy, [], 0).
Definition dealt_by (i : Z) : Dealing * list Share := (dealing_of i).1.
Definition dealt : list (Dealing * list Share) := [dealt_by 1; dealt_by 2; dealt_by 3].
Definition ek : ElectionKey := unwrap_or (from_dealings dealt.*1 th []) (mk_ek th p_identity [] ∅).
Definition key_of (j : Z) : TrusteeKey :=
  unwrap_or (from_shares j (shares_for j dealt) dealt.*1 ek) (mk_trustee_key 0 s_zero).
Definition keys : list TrusteeKey := [key_of 1; key_of 3].

Lemma ek_formed : from_dealings dealt.*1 th [] = Ok ek.
Proof. apply unwrap_or_ok. vm_compute. reflexivity. Qed.

Lemma dealing_made i :
  is_ok (deal i th [] (i * 7)) = true →
  deal i th [] (i * 7) = Ok ((dealt_by i).1, (dealt_by i).2, (dealing_of i).2).
Proof.
  intros Hok. rewrite (unwrap_or_ok _ (dummy, [], 0) Hok). f_equal. unfold dealt_by.
  unfold dealing_of. by destruct (unwrap_or _ _) as [[? ?] ?].
Qed.

Lemma decryptable : can_decrypt th [] dealt.*1 ek keys.
Proof.
  split; [done|done|apply ek_formed| |by vm_compute; repeat constructor; set_solver|done].
  intros k Hk. assert (k = key_of 1 ∨ k = key_of 3) as [-> | ->] by set_solver.
  - exists (shares_for 1 dealt). apply unwrap_or_ok. vm_compute. reflexivity.
  - exists (shares_for 3 dealt). apply unwrap_or_ok. vm_compute. reflexivity.
Qed.
End ToyTrustees.

Import ToyTrustees.

Definition toy_partials (ct : Ciphertext) : list PartialDecryption :=
  (λ k, (partial_decrypt k ct [] 11).1) <$> keys.

Lemma toy_decrypted (ct : Ciphertext) : Forall2 (decrypted_by ct []) keys (toy_partials ct).
Proof.
  constructor; [|constructor; [|constructor]]; exists 11; eexists; apply surjective_pairing.
Qed.

Lemma threshold_decrypts_witness :
  let ct := mk_ct (scalar_from 9 ⊙ G) (scalar_from 42 ⊙ G ⊕ scalar_from 9 ⊙ ek_key ek) in
  combine ek ct (toy_partials ct) [] = Ok (scalar_from 42 ⊙ G).
Proof.
  exact (threshold_decrypts th [] dealt.*1 ek keys (scalar_from 42 ⊙ G) (scalar_from 9) [] _
           decryptable (toy_decrypted _)).
Defined.

Definition toy_seal : Sealed * Z :=
  unwrap_or (seal ek (as_bytes "ballot") [] 5) (mk_sealed ct_zero [], 0).

Lemma sealed_ballot_opens_witness :
  open_sealed ek toy_seal.1 (toy_partials (kem toy_seal.1)) [] = Ok (as_bytes "ballot").
Proof.
  refine (sealed_ballot_opens (AL := aead_laws) th [] dealt.*1 ek keys (as_bytes "ballot") [] 5
            toy_seal.1 toy_seal.2 _ decryptable _ (toy_decrypted _)).
  rewrite <- surjective_pairing. apply unwrap_or_ok. vm_compute. reflexivity.
Defined.

Definition toy_secret : TransportSecret := mk_ts 2 (scalar_from 8).
Definition toy_transport : TransportKey := (transport_publish toy_secret [] 4).1.
Definition toy_share : Share := mk_share 1 2 (scalar_from 77).
Definition toy_sealed_share : Sealed * Z :=
  unwrap_or (seal_share toy_share toy_transport [] 5) (mk_sealed ct_zero [], 0).

Lemma share_transport_witness : open_share toy_secret 1 toy_sealed_share.1 [] = Ok toy_share.
Proof.
  refine (share_transport (AL := aead_laws) toy_secret toy_transport [] 4
            (transport_publish toy_secret [] 4).2 toy_share [] 5
            toy_sealed_share.1 toy_sealed_share.2 _ _); [apply surjective_pairing|].
  rewrite <- surjective_pairing. apply unwrap_or_ok. vm_compute. reflexivity.
Defined.

Lemma honest_deal_verifies_witness :
  verify_dealing (dealt_by 1).1 th [] = Ok ()
  ∧ s_recipient <$> (dealt_by 1).2 = range_incl 1 3.
Proof.
  destruct (honest_deal_verifies 1 th [] (7 : @RngState ToyGroup.random) (dealt_by 1).1 (dealt_by 1).2 (dealing_of 1).2)
    as (_ & Hr & Hv); [done|apply (dealing_made 1); vm_compute; reflexivity|].
  split; [apply Hv|exact Hr]. apply (bool_decide_unpack _). vm_compute. exact I.
Defined.

Lemma honest_keys_form_witness :
  ∃ secret, from_shares 2 (shares_for 2 dealt) dealt.*1 ek = Ok (mk_trustee_key 2 secret).
Proof.
  apply (honest_keys_form th [] dealt ek 2); [|apply ek_formed|done].
  apply Forall_cons; split; [exists 7, (dealing_of 1).2; apply (dealing_made 1); vm_compute; reflexivity|].
  apply Forall_cons; split; [exists 14, (dealing_of 2).2; apply (dealing_made 2); vm_compute; reflexivity|].
  apply Forall_singleton. exists 21, (dealing_of 3).2. apply (dealing_made 3). vm_compute. reflexivity.
Defined.

Lemma bsgs_exact_witness : bsgs (in_group 7) 10 = Some (Ok 7).
Proof. apply (bsgs_exact 10); [done|by vm_compute..|done|done]. Defined.

Definition toy_vote (chosen : list bool) : EncryptedQuestion * Z :=
  unwrap_or (encrypt_vote ek chosen [0; 1] [] 6) (mk_eq [] (mk_one_of []), 0).

Lemma toy_vote_cast chosen :
  is_ok (encrypt_vote ek chosen [0; 1] [] 6) = true →
  encrypt_vote ek chosen [0; 1] [] 6 = Ok ((toy_vote chosen).1, (toy_vote chosen).2).
Proof. intros Hok. rewrite <- surjective_pairing. by apply unwrap_or_ok. Qed.

Lemma encrypted_vote_verifies_witness :
  verify_vote ek (toy_vote [true; false]).1 2 [0; 1] [] = Ok ().
Proof.
  refine (proj1 (proj2 (encrypted_vote_verifies ek [true; false] [0; 1] [] 6) _
                   (toy_vote [true; false]).2 _)).
  apply toy_vote_cast. vm_compute. reflexivity.
Defined.

Definition toy_votes : list (list bool) := [[true; false]; [false; true]; [true; false]].

Lemma encrypted_total_witness :
  let ct := total (option_ciphertexts 0 (fst ∘ toy_vote <$> toy_votes)) in
  ∃ P, combine ek ct (toy_partials ct) [] = Ok P ∧ bsgs P 3 = Some (Ok 2).
Proof.
  refine (encrypted_total th [] dealt.*1 ek keys toy_votes (fst ∘ toy_vote <$> toy_votes) 0 [] _ 3
            decryptable _ (toy_decrypted _) _ _ _); [|by vm_compute..].
  constructor; [|constructor; [|constructor; [|constructor]]]; eexists [0; 1], [], 6, _;
    apply toy_vote_cast; vm_compute; reflexivity.
Defined.
