(* ===== verification/Ceremony.v ===== *)
(** * The trustees' ceremony

    [vti-voting/src/ceremony.rs]: the state machine by which the ballot box
    generates the election key on the board, and the decryption round after
    the close. Each operation returns its outcome and the state it leaves;
    [None] is a panic, an index expression on a missing key. *)

From S2P Require Import Prelude Election Group Shamir Trustees.

Section Ceremony.
Context `{Dalek, Sha256, Sha512, Random, Aead}.

(** ** Comparisons of the wire values *)

#[export] Instance Schnorr_eq_dec : EqDecision Schnorr.
Proof. solve_decision. Defined.
#[export] Instance ChaumPedersen_eq_dec : EqDecision ChaumPedersen.
Proof. solve_decision. Defined.
#[export] Instance Ciphertext_eq_dec : EqDecision Ciphertext.
Proof. solve_decision. Defined.
#[export] Instance Sealed_eq_dec : EqDecision Sealed.
Proof. solve_decision. Defined.
#[export] Instance Dealing_eq_dec : EqDecision Dealing.
Proof. solve_decision. Defined.
#[export] Instance TransportKey_eq_dec : EqDecision TransportKey.
Proof. solve_decision. Defined.
#[export] Instance PartialDecryption_eq_dec : EqDecision PartialDecryption.
Proof. solve_decision. Defined.

(** ** State *)

Inductive Phase := Enrolling | Dealing_ | Confirming | Keyed | Failed.
#[export] Instance Phase_eq_dec : EqDecision Phase.
Proof. solve_decision. Defined.

(** The [TrusteePhase] wire value. *)
Definition phase_wire (p : Phase) : string :=
  match p with
  | Enrolling => "enrolling"
  | Dealing_ => "dealing"
  | Confirming => "confirming"
  | Keyed => "keyed"
  | Failed => "failed"
  end.

Inductive CeremonyError :=
| NotEnrolling
| AlreadyEnrolled
| TransportKeyInvalid
| NotDealing
| AlreadyDealt
| CeremonyDealingInvalid (why : string)
| NotConfirming
| AlreadyConfirmed
| NoComplaint
| CeremonyShareInvalid
| NotDecrypting
| CeremonyPartialInvalid (why : string)
| Malformed (why : string).

Inductive Step := Accepted | Repeat.

Record SealedDealing := mk_sealed_dealing { sd_dealing : Dealing; sd_shares : gmap Z Sealed }.
#[export] Instance SealedDealing_eq_dec : EqDecision SealedDealing.
Proof. solve_decision. Defined.

Record Complaint := mk_complaint {
  c_dealer : Z;
  c_recipient : Z;
  c_justified : option Scalar;
}.

Record Ceremony := mk_ceremony {
  threshold : Threshold;
  ctx : bytes;
  phase : Phase;
  transport : gmap Z TransportKey;
  dealings : gmap Z SealedDealing;
  confirmed : gmap Z (gset Z);
  justified : gmap (Z * Z) Scalar;
  key : option ElectionKey;
}.

Definition ceremony_new (th : Threshold) (c : bytes) : Ceremony :=
  mk_ceremony th c Enrolling ∅ ∅ ∅ ∅ None.

Definition set_phase (c : Ceremony) (p : Phase) : Ceremony :=
  mk_ceremony (threshold c) (ctx c) p (transport c) (dealings c) (confirmed c) (justified c) (key c).

(** [TrusteeError]'s message. *)
Definition trustee_error_text (e : TrusteeError) : string :=
  match e with
  | DealingInvalid why => "a dealing does not hold together: " +:+ why
  | ShareInvalid => "a share does not match its dealer's commitments"
  | PartialInvalid => "a partial decryption's proof does not verify"
  | TooFewPartials have need =>
      pretty have +:+ " verified partial decryptions, but " +:+ pretty need +:+ " are needed"
  | BallotInvalid why => "a ballot's proof does not verify: " +:+ why
  | SealedInvalid => "the sealed ballot does not open"
  | TotalOutOfRange => "a total is outside the range searched"
  | Encoding why => "an encoding is not valid: " +:+ why
  | Parameters why => "parameters: " +:+ why
  end.

(** ** Reading the state *)

(** [sort_by_key(|c| (c.dealer, c.recipient))]. *)
Definition complaint_le (x y : Complaint) : Prop :=
  c_dealer x < c_dealer y ∨ (c_dealer x = c_dealer y ∧ c_recipient x ≤ c_recipient y).
#[export] Instance complaint_le_dec : RelDecision complaint_le.
Proof. intros x y. unfold complaint_le. apply _. Defined.

(** Every complaint made, in (dealer, recipient) order. *)
Definition complaints (c : Ceremony) : list Complaint :=
  merge_sort complaint_le
    (concat ((λ '(recipient, against),
      (λ d, mk_complaint d recipient (justified c !! (d, recipient))) <$> bs_list against)
      <$> bt_list (confirmed c))).

Definition index_check (c : Ceremony) (i : Z) : result CeremonyError unit :=
  guard_err ((i =? 0) || (th_n (threshold c) <? i))
    (Malformed ("trustee " +:+ pretty i +:+ " is not in 1..=" +:+ pretty (th_n (threshold c)))).

(** The dealers with no unjustified complaint. *)
Definition qualified (c : Ceremony) : list Z :=
  let unjustified : gset Z :=
    list_to_set (c_dealer <$> filter (λ x, c_justified x = None) (complaints c)) in
  filter (λ d, d ∉ unjustified) (bt_keys (dealings c)).

(** ** Steps *)

Abbreviation outcome := (result CeremonyError Step * Ceremony)%type.

(** Step 1: a trustee's transport key. *)
Definition enrol (c : Ceremony) (tk : TransportKey) : outcome :=
  match index_check c (tk_trustee tk) with
  | Err e => (Err e, c)
  | Ok _ =>
      match transport c !! tk_trustee tk with
      | Some held => (if bool_decide (held = tk) then Ok Repeat else Err AlreadyEnrolled, c)
      | None =>
          if bool_decide (phase c ≠ Enrolling) then (Err NotEnrolling, c)
          else match verify_transport_key tk (threshold c) (ctx c) with
               | Err _ => (Err TransportKeyInvalid, c)
               | Ok _ =>
                   let transport' := <[tk_trustee tk := tk]> (transport c) in
                   let phase' :=
                     if bool_decide (Z.of_nat (size transport') = th_n (threshold c))
                     then Dealing_ else phase c in
                   (Ok Accepted,
                    mk_ceremony (threshold c) (ctx c) phase' transport' (dealings c) (confirmed c)
                      (justified c) (key c))
               end
      end
  end.

(** Step 2: a trustee's dealing. *)
Definition deal_step (c : Ceremony) (d : SealedDealing) : outcome :=
  let i := dealer (sd_dealing d) in
  match index_check c i with
  | Err e => (Err e, c)
  | Ok _ =>
      match dealings c !! i with
      | Some held => (if bool_decide (held = d) then Ok Repeat else Err AlreadyDealt, c)
      | None =>
          if bool_decide (phase c ≠ Dealing_) then (Err NotDealing, c)
          else match verify_dealing (sd_dealing d) (threshold c) (ctx c) with
               | Err e => (Err (CeremonyDealingInvalid (trustee_error_text e)), c)
               | Ok _ =>
                   if bool_decide (bt_keys (sd_shares d) ≠ range_incl 1 (th_n (threshold c)))
                   then (Err (CeremonyDealingInvalid "not exactly one sealed share per trustee"), c)
                   else
                     let dealings' := <[i := d]> (dealings c) in
                     let phase' :=
                       if bool_decide (Z.of_nat (size dealings') = th_n (threshold c))
                       then Confirming else phase c in
                     (Ok Accepted,
                      mk_ceremony (threshold c) (ctx c) phase' (transport c) dealings' (confirmed c)
                        (justified c) (key c))
               end
      end
  end.

(** The key from the qualified dealers, or failed unless at least [t] qualify
    and at least [t] trustees confirmed. *)
Definition form (c : Ceremony) : option Ceremony :=
  if bool_decide (Z.of_nat (size (confirmed c)) < th_t (threshold c))
  then Some (set_phase c Failed)
  else
    ds ← mapM (λ d, sd_dealing <$> dealings c !! d) (qualified c);
    Some (match from_dealings ds (threshold c) (ctx c) with
          | Ok k => mk_ceremony (threshold c) (ctx c) Keyed (transport c) (dealings c) (confirmed c)
                      (justified c) (Some k)
          | Err _ => set_phase c Failed
          end).

Definition form_if_complete (c : Ceremony) : option Ceremony :=
  let all_confirmed := bool_decide (Z.of_nat (size (confirmed c)) = th_n (threshold c)) in
  let all_answered := forallb (λ x, bool_decide (is_Some (c_justified x))) (complaints c) in
  if all_confirmed && all_answered then form c else Some c.

(** One named dealer of a confirmation. *)
Definition check_complaint (c : Ceremony) (trustee d : Z) : result CeremonyError unit :=
  _ ← index_check c d;
  guard_err (d =? trustee) (Malformed "a trustee does not complain of itself").

(** Step 3: a trustee confirms, naming the dealers whose shares failed. *)
Definition confirm (c : Ceremony) (trustee : Z) (against : gset Z) : option outcome :=
  match (_ ← index_check c trustee; try_map (check_complaint c trustee) (bs_list against)) with
  | Err e => Some (Err e, c)
  | Ok _ =>
      match confirmed c !! trustee with
      | Some held => Some (if bool_decide (held = against) then Ok Repeat else Err AlreadyConfirmed, c)
      | None =>
          if bool_decide (phase c ≠ Confirming) then Some (Err NotConfirming, c)
          else
            c' ← form_if_complete
                   (mk_ceremony (threshold c) (ctx c) (phase c) (transport c) (dealings c)
                      (<[trustee := against]> (confirmed c)) (justified c) (key c));
            Some (Ok Accepted, c')
      end
  end.

(** Step 4: a dealer reveals the share it dealt to a trustee that complained. *)
Definition justify (c : Ceremony) (d r : Z) (value : Scalar) : option outcome :=
  match (_ ← index_check c d; index_check c r) with
  | Err e => Some (Err e, c)
  | Ok _ =>
      match justified c !! (d, r) with
      | Some held =>
          Some (if bool_decide (held = value) then Ok Repeat else Err CeremonyShareInvalid, c)
      | None =>
          if bool_decide (phase c ≠ Confirming) then Some (Err NotConfirming, c)
          else if negb (match confirmed c !! r with
                        | Some against => bool_decide (d ∈ against)
                        | None => false
                        end) then Some (Err NoComplaint, c)
          else
            sd ← dealings c !! d;
            match verify_share (sd_dealing sd) (mk_share d r value) with
            | Err _ => Some (Err CeremonyShareInvalid, c)
            | Ok _ =>
                c' ← form_if_complete
                       (mk_ceremony (threshold c) (ctx c) (phase c) (transport c) (dealings c)
                          (confirmed c) (<[(d, r) := value]> (justified c)) (key c));
                Some (Ok Accepted, c')
            end
      end
  end.

(** [votingOpensAt] has come: returns whether the phase changed. *)
Definition deadline (c : Ceremony) : option (bool * Ceremony) :=
  c' ← match phase c with
       | Keyed | Failed => Some c
       | Confirming => form c
       | Enrolling | Dealing_ => Some (set_phase c Failed)
       end;
  Some (bool_decide (phase c' ≠ phase c), c').

(** ** Decryption *)

Record Decryption (K : Type) := mk_decryption {
  dec_key : ElectionKey;
  dec_ctx : bytes;
  targets : list (K * Ciphertext);
  partials : gmap Z (list PartialDecryption);
}.
#[global] Arguments mk_decryption {K}.
#[global] Arguments dec_key {K}.
#[global] Arguments dec_ctx {K}.
#[global] Arguments targets {K}.
#[global] Arguments partials {K}.

Section Rounds.
Context {K : Type} `{EqDecision K}.

Definition decryption_new (k : ElectionKey) (cx : bytes) (ts : list (K * Ciphertext))
  : Decryption K := mk_decryption k cx ts ∅.

Definition complete (d : Decryption K) : bool :=
  th_t (ek_threshold (dec_key d)) <=? Z.of_nat (size (partials d)).

(** One given partial against its target. *)
Definition check_partial (d : Decryption K) (trustee : Z) (i : nat)
    (given : K * Ciphertext * PartialDecryption) (target : K * Ciphertext)
  : result CeremonyError unit :=
  let '(k, ct, p) := given in
  _ ← guard_err (bool_decide (k ≠ target.1) || bool_decide (ct ≠ target.2))
        (CeremonyPartialInvalid ("partial " +:+ pretty i +:+ " is not for target " +:+ pretty i));
  _ ← guard_err (bool_decide (pd_trustee p ≠ trustee))
        (CeremonyPartialInvalid ("partial " +:+ pretty i +:+ " names another trustee"));
  map_err (λ _, CeremonyPartialInvalid ("partial " +:+ pretty i))
    (verify_partial (dec_key d) ct p (dec_ctx d)).

(** The loop over the given partials and the targets, from index [i]. *)
Fixpoint check_partials (d : Decryption K) (trustee : Z) (i : nat)
    (given : list (K * Ciphertext * PartialDecryption)) (ts : list (K * Ciphertext))
  : result CeremonyError unit :=
  match given, ts with
  | g :: given', t :: ts' =>
      _ ← check_partial d trustee i g t;
      check_partials d trustee (S i) given' ts'
  | _, _ => Ok ()
  end.

(** A trustee's partials: exactly one per target, each verified. *)
Definition accept (d : Decryption K) (trustee : Z)
    (given : list (K * Ciphertext * PartialDecryption)) : result CeremonyError Step * Decryption K :=
  let n := th_n (ek_threshold (dec_key d)) in
  if (trustee =? 0) || (n <? trustee) then
    (Err (Malformed ("trustee " +:+ pretty trustee +:+ " is not in 1..=" +:+ pretty n)), d)
  else
    let parts := given.*2 in
    match partials d !! trustee with
    | Some held =>
        (if bool_decide (held = parts) then Ok Repeat
         else Err (CeremonyPartialInvalid "this trustee's partials are already accepted"), d)
    | None =>
        if complete d then (Err NotDecrypting, d)
        else if bool_decide (length given ≠ length (targets d)) then
          (Err (CeremonyPartialInvalid (pretty (length given) +:+ " partials for "
                  +:+ pretty (length (targets d)) +:+ " targets")), d)
        else match check_partials d trustee 0 given (targets d) with
             | Err e => (Err e, d)
             | Ok _ => (Ok Accepted,
                 mk_decryption (dec_key d) (dec_ctx d) (targets d)
                   (<[trustee := parts]> (partials d)))
             end
    end.

(** One target's plaintext; [None] is an index out of range. *)
Definition plaintext (d : Decryption K) (i : nat) (target : K * Ciphertext)
  : option (result CeremonyError (K * Point)) :=
  parts ← mapM (λ ps, ps !! i) (bt_values (partials d));
  Some (map_err (λ e, CeremonyPartialInvalid (trustee_error_text e))
          (map_ok (pair target.1) (combine (dec_key d) target.2 parts (dec_ctx d)))).

(** The targets from index [i], the first error ending the loop. *)
Fixpoint plaintexts_from (d : Decryption K) (i : nat) (ts : list (K * Ciphertext))
  : option (result CeremonyError (list (K * Point))) :=
  match ts with
  | [] => Some (Ok [])
  | t :: ts' =>
      r ← plaintext d i t;
      match r with
      | Err e => Some (Err e)
      | Ok x => rest ← plaintexts_from d (S i) ts'; Some (map_ok (cons x) rest)
      end
  end.

(** Every target's plaintext element, once complete. *)
Definition plaintexts (d : Decryption K) : option (result CeremonyError (list (K * Point))) :=
  if negb (complete d) then Some (Err NotDecrypting) else plaintexts_from d 0 (targets d).
End Rounds.

(** ** The ceremony as a transition system *)

Inductive CeremonyOp :=
| OpEnrol (tk : TransportKey)
| OpDeal (d : SealedDealing)
| OpConfirm (trustee : Z) (against : gset Z)
| OpJustify (d r : Z) (value : Scalar)
| OpDeadline.

(** A step with whether it was accepted as new. *)
Definition ceremony_step (c : Ceremony) (op : CeremonyOp) : option (result CeremonyError Step * Ceremony) :=
  match op with
  | OpEnrol tk => Some (enrol c tk)
  | OpDeal d => Some (deal_step c d)
  | OpConfirm t a => confirm c t a
  | OpJustify d r v => justify c d r v
  | OpDeadline => '(_, c') ← deadline c; Some (Ok Accepted, c')
  end.

(** The indices an operation names are [u32]s. *)
Definition u32_op (op : CeremonyOp) : Prop :=
  match op with
  | OpEnrol tk => 0 ≤ tk_trustee tk
  | OpDeal d => 0 ≤ dealer (sd_dealing d)
  | OpConfirm t a => 0 ≤ t ∧ ∀ d, d ∈ a → 0 ≤ d
  | OpJustify d r _ => 0 ≤ d ∧ 0 ≤ r
  | OpDeadline => True
  end.

Inductive reachable (th : Threshold) (cx : bytes) : Ceremony → Prop :=
| reach_new : reachable th cx (ceremony_new th cx)
| reach_step c op r c' :
    reachable th cx c → u32_op op → ceremony_step c op = Some (r, c') → reachable th cx c'.

(** ** The invariant *)

(** The dealings the key would form from. *)
Definition qualified_dealings (c : Ceremony) : option (list Dealing) :=
  mapM (λ d, sd_dealing <$> dealings c !! d) (qualified c).

Record ceremony_inv (c : Ceremony) : Prop := {
  inv_transport : ∀ i tk, transport c !! i = Some tk →
    1 ≤ i ≤ th_n (threshold c) ∧ tk_trustee tk = i
    ∧ verify_transport_key tk (threshold c) (ctx c) = Ok ();
  inv_dealings : ∀ i sd, dealings c !! i = Some sd →
    1 ≤ i ≤ th_n (threshold c) ∧ dealer (sd_dealing sd) = i
    ∧ verify_dealing (sd_dealing sd) (threshold c) (ctx c) = Ok ()
    ∧ bt_keys (sd_shares sd) = range_incl 1 (th_n (threshold c));
  inv_confirmed : ∀ i s, confirmed c !! i = Some s →
    1 ≤ i ≤ th_n (threshold c) ∧ ∀ d, d ∈ s → 1 ≤ d ≤ th_n (threshold c) ∧ d ≠ i;
  inv_justified : ∀ d r v, justified c !! (d, r) = Some v →
    (∃ s, confirmed c !! r = Some s ∧ d ∈ s)
    ∧ ∃ sd, dealings c !! d = Some sd ∧ verify_share (sd_dealing sd) (mk_share d r v) = Ok ();
  inv_phase :
    match phase c with
    | Enrolling => dealings c = ∅ ∧ confirmed c = ∅ ∧ key c = None
    | Dealing_ => Z.of_nat (size (transport c)) = th_n (threshold c) ∧ confirmed c = ∅ ∧ key c = None
    | Confirming =>
        Z.of_nat (size (transport c)) = th_n (threshold c)
        ∧ Z.of_nat (size (dealings c)) = th_n (threshold c) ∧ key c = None
    | Keyed =>
        Z.of_nat (size (dealings c)) = th_n (threshold c)
        ∧ th_t (threshold c) ≤ Z.of_nat (size (confirmed c))
        ∧ ∃ ds ek, qualified_dealings c = Some ds ∧ key c = Some ek
                   ∧ from_dealings ds (threshold c) (ctx c) = Ok ek
    | Failed => key c = None
    end;
}.

Lemma index_ok c i : index_check c i = Ok () ↔ i ≠ 0 ∧ i ≤ th_n (threshold c).
Proof.
  unfold index_check. by rewrite guard_ok, orb_false_iff, Z.eqb_neq, Z.ltb_ge.
Qed.

Lemma map_full {V} (m : gmap Z V) n d :
  (∀ i v, m !! i = Some v → 1 ≤ i ≤ n) → Z.of_nat (size m) = n → 1 ≤ d ≤ n → is_Some (m !! d).
Proof.
  intros Hr Hs Hd. apply elem_of_dom.
  assert (dom m = list_to_set (seqZ 1 n)) as ->.
  { apply set_subseteq_size_eq.
    - intros i [v Hv]%elem_of_dom. apply elem_of_list_to_set, elem_of_seqZ.
      apply Hr in Hv. lia.
    - rewrite size_dom, size_list_to_set, length_seqZ by apply NoDup_seqZ. lia. }
  apply elem_of_list_to_set, elem_of_seqZ. lia.
Qed.

Lemma qualified_dealt c d : d ∈ qualified c → is_Some (dealings c !! d).
Proof. unfold qualified. rewrite list_elem_of_filter. intros [_ Hd]. by apply elem_of_bt_keys. Qed.

Lemma qualified_dealings_total c :
  ∃ ds, qualified_dealings c = Some ds
        ∧ Forall2 (λ d x, ∃ sd, dealings c !! d = Some sd ∧ x = sd_dealing sd) (qualified c) ds.
Proof.
  unfold qualified_dealings. generalize (qualified_dealt c).
  induction (qualified c) as [|d q IH]; intros Hq; [by exists []; split; [|constructor]|].
  destruct IH as (ds & Hds & Hall); [intros; apply Hq; by apply list_elem_of_further|].
  destruct (Hq d) as [sd Hsd]; [apply list_elem_of_here|].
  exists (sd_dealing sd :: ds). cbn [mapM]. rewrite Hsd. simpl. rewrite Hds. simpl.
  split; [done|]. constructor; [by exists sd|done].
Qed.

(** Forming a key needs nothing but the invariant, and keeps it. *)
Lemma form_spec c :
  ceremony_inv c → phase c = Confirming →
  ∃ c', form c = Some c' ∧ ceremony_inv c' ∧ threshold c' = threshold c ∧ ctx c' = ctx c
        ∧ (phase c' = Keyed ∨ phase c' = Failed) ∧ confirmed c' = confirmed c
        ∧ justified c' = justified c ∧ dealings c' = dealings c ∧ transport c' = transport c.
Proof.
  intros [It Id Ic Ij Ip] Hph. rewrite Hph in Ip. destruct Ip as (Htr & Hdl & Hk). unfold form.
  case_bool_decide as Hconf.
  { eexists. split; [done|]. split; [|by auto 10]. by split. }
  destruct (qualified_dealings_total c) as (ds & Hds & _).
  unfold qualified_dealings in Hds. rewrite Hds. simpl. eexists. split; [done|].
  destruct (from_dealings ds (threshold c) (ctx c)) as [ek|e] eqn:Hek; simpl.
  - split; [|by auto 10]. split; simpl; try done. split; [done|]. split; [lia|]. by exists ds, ek.
  - split; [|by auto 10]. by split.
Qed.

Lemma form_if_complete_spec c :
  ceremony_inv c → phase c = Confirming →
  ∃ c', form_if_complete c = Some c' ∧ ceremony_inv c' ∧ threshold c' = threshold c
        ∧ ctx c' = ctx c ∧ (phase c' = Confirming ∨ phase c' = Keyed ∨ phase c' = Failed)
        ∧ confirmed c' = confirmed c.
Proof.
  intros Hinv Hph. unfold form_if_complete.
  destruct (_ && _); [|by exists c; auto 10].
  destruct (form_spec c Hinv Hph) as (c' & -> & ? & ? & ? & [?|?] & ? & _); exists c'; auto 10.
Qed.

Lemma new_inv th cx : ceremony_inv (ceremony_new th cx).
Proof. by split. Qed.

(** What every step keeps besides the invariant. *)
Definition same_election (c c' : Ceremony) : Prop := threshold c' = threshold c ∧ ctx c' = ctx c.

Lemma enrol_inv c tk :
  ceremony_inv c → 0 ≤ tk_trustee tk →
  ceremony_inv (enrol c tk).2 ∧ same_election c (enrol c tk).2.
Proof.
  intros Hinv Hu. unfold enrol.
  destruct (index_check c _) as [[]|] eqn:Hi; [|done]. apply index_ok in Hi.
  destruct (transport c !! tk_trustee tk) eqn:Hheld; [by case_bool_decide|].
  case_bool_decide as Hphase; [done|].
  destruct (verify_transport_key _ _ _) as [[]|] eqn:Hv; [|done]. split; [|done].
  destruct Hinv as [It Id Ic Ij Ip]. rewrite Hphase in Ip.
  split; simpl; try done.
  - intros i tk'. destruct (decide (i = tk_trustee tk)) as [->|Hne].
    + rewrite lookup_insert_eq. intros [= <-]. split; [lia|done].
    + rewrite lookup_insert_ne by done. apply It.
  - destruct Ip as (Hd & Hc & Hk). case_bool_decide; [by split|]. by rewrite Hphase.
Qed.

Lemma deal_inv c d :
  ceremony_inv c → 0 ≤ dealer (sd_dealing d) →
  ceremony_inv (deal_step c d).2 ∧ same_election c (deal_step c d).2.
Proof.
  intros Hinv Hu. unfold deal_step.
  destruct (index_check c _) as [[]|] eqn:Hi; [|done]. apply index_ok in Hi.
  destruct (dealings c !! dealer (sd_dealing d)) eqn:Hheld; [by case_bool_decide|].
  case_bool_decide as Hphase; [done|].
  destruct (verify_dealing _ _ _) as [[]|] eqn:Hv; [|done].
  destruct (bool_decide (bt_keys _ ≠ _)) eqn:Hsh; [done|].
  apply bool_decide_eq_false, dec_stable in Hsh. split; [|done].
  destruct Hinv as [It Id Ic Ij Ip]. rewrite Hphase in Ip. destruct Ip as (Ht & Hc & Hk).
  split; simpl; try done.
  - intros i sd. destruct (decide (i = dealer (sd_dealing d))) as [->|Hne].
    + rewrite lookup_insert_eq. intros [= <-]. split; [lia|done].
    + rewrite lookup_insert_ne by done. apply Id.
  - intros e r v Hj. destruct (Ij e r v Hj) as ((s & Hs & _) & _). by rewrite Hc in Hs.
  - case_bool_decide; [done|]. by rewrite Hphase.
Qed.

(** The state with one more confirmation. *)
Definition with_confirmed (c : Ceremony) (t : Z) (a : gset Z) : Ceremony :=
  mk_ceremony (threshold c) (ctx c) (phase c) (transport c) (dealings c)
    (<[t := a]> (confirmed c)) (justified c) (key c).

Lemma with_confirmed_inv c t a :
  ceremony_inv c → phase c = Confirming → 1 ≤ t ≤ th_n (threshold c) → confirmed c !! t = None →
  (∀ d, d ∈ a → 1 ≤ d ≤ th_n (threshold c) ∧ d ≠ t) → ceremony_inv (with_confirmed c t a).
Proof.
  intros [It Id Ic Ij Ip] Hph Ht Hfresh Ha. rewrite Hph in Ip.
  split; simpl; rewrite ?Hph; try done.
  - intros i s. destruct (decide (i = t)) as [->|Hne].
    + rewrite lookup_insert_eq. by intros [= <-].
    + rewrite lookup_insert_ne by done. apply Ic.
  - intros d r v Hj. destruct (Ij d r v Hj) as ((s & Hs & Hd) & Hsd). split; [|done].
    exists s. rewrite lookup_insert_ne; [done|]. by intros ->; congruence.
Qed.

Lemma check_complaints_ok c t a us d :
  try_map (check_complaint c t) (bs_list a) = Ok us → d ∈ a → 0 ≤ d →
  1 ≤ d ≤ th_n (threshold c) ∧ d ≠ t.
Proof.
  intros Ha%try_map_ok Hd Hd0.
  assert (d ∈ bs_list a) as [i Hdi]%list_elem_of_lookup by by apply elem_of_bs_list.
  destruct (Forall2_lookup_l _ _ _ _ _ Ha Hdi) as ([] & _ & Hcheck).
  unfold check_complaint in Hcheck. rewrite bind_unit_ok, index_ok, guard_ok in Hcheck. lia.
Qed.

Lemma confirm_inv c t a :
  ceremony_inv c → u32_op (OpConfirm t a) →
  ∃ r c', confirm c t a = Some (r, c') ∧ ceremony_inv c' ∧ same_election c c'.
Proof.
  intros Hinv [Hut Hua]. unfold confirm.
  destruct (_ ← index_check c t; _) as [us|] eqn:Hi; [|by eexists _, _].
  apply bind_unit_ok in Hi as [Hi Ha]. apply index_ok in Hi.
  destruct (confirmed c !! t) eqn:Hheld; [by eexists _, _|].
  case_bool_decide as Hphase; [by eexists _, _|]. fold (with_confirmed c t a).
  destruct (form_if_complete_spec (with_confirmed c t a)) as (c' & -> & Hinv' & Hth & Hcx & _);
    [|done|by eexists _, _].
  apply with_confirmed_inv; [done|done|lia|done|].
  intros d Hd. eapply check_complaints_ok; [done|done|auto].
Qed.

Lemma justify_inv c d r v :
  ceremony_inv c → u32_op (OpJustify d r v) →
  ∃ o c', justify c d r v = Some (o, c') ∧ ceremony_inv c' ∧ same_election c c'.
Proof.
  intros Hinv [Hud Hur]. unfold justify.
  destruct (_ ← index_check c d; _) as [us|] eqn:Hi; [|by eexists _, _].
  apply bind_unit_ok in Hi as [Hd _]. apply index_ok in Hd.
  destruct (justified c !! (d, r)) eqn:Hheld; [by eexists _, _|].
  case_bool_decide as Hphase; [by eexists _, _|].
  destruct (confirmed c !! r) as [s|] eqn:Hs; [|by eexists _, _].
  case_bool_decide as Hds; simpl; [|by eexists _, _].
  pose proof Hinv as [It Id Ic Ij Ip]. rewrite Hphase in Ip. destruct Ip as (Ht & Hn & Hk).
  destruct (map_full (dealings c) (th_n (threshold c)) d) as [sd Hsd];
    [intros i sd Hsd; by apply (Id i sd)|done|lia|].
  rewrite Hsd. simpl. destruct (verify_share _ _) as [[]|] eqn:Hv; [|by eexists _, _].
  destruct (form_if_complete_spec
    (mk_ceremony (threshold c) (ctx c) (phase c) (transport c) (dealings c)
       (confirmed c) (<[(d, r) := v]> (justified c)) (key c))) as (c' & Hf & Hinv' & Hth & Hcx & _).
  - split; simpl; rewrite ?Hphase; try done.
    intros d' r' v'. destruct (decide ((d', r') = (d, r))) as [[= -> ->]|Hne].
    + rewrite lookup_insert_eq. intros [= <-]. split; [by exists s|by exists sd].
    + rewrite lookup_insert_ne by done. apply Ij.
  - done.
  - rewrite Hf. simpl. by eexists _, _.
Qed.

Lemma deadline_inv c :
  ceremony_inv c → ∃ b c', deadline c = Some (b, c') ∧ ceremony_inv c' ∧ same_election c c'.
Proof.
  intros Hinv. unfold deadline. destruct (phase c) eqn:Hphase; simpl.
  - eexists _, _. split; [done|]. split; [|done]. destruct Hinv as [It Id Ic Ij Ip].
    rewrite Hphase in Ip. split; simpl; try done. by destruct Ip as (_ & _ & ->).
  - eexists _, _. split; [done|]. split; [|done]. destruct Hinv as [It Id Ic Ij Ip].
    rewrite Hphase in Ip. split; simpl; try done. by destruct Ip as (_ & _ & ->).
  - destruct (form_spec c Hinv Hphase) as (c' & -> & ? & ? & ? & _). simpl. by eexists _, _.
  - by eexists _, _.
  - by eexists _, _.
Qed.

Lemma step_inv c op :
  ceremony_inv c → u32_op op →
  ∃ r c', ceremony_step c op = Some (r, c') ∧ ceremony_inv c' ∧ same_election c c'.
Proof.
  intros Hinv Hu. destruct op as [tk|d|t a|d r v|]; simpl in *.
  - eexists _, _. split; [by rewrite (surjective_pairing (enrol c tk))|]. by apply enrol_inv.
  - eexists _, _. split; [by rewrite (surjective_pairing (deal_step c d))|]. by apply deal_inv.
  - by apply confirm_inv.
  - by apply justify_inv.
  - destruct (deadline_inv c Hinv) as (b & c' & -> & ?). simpl. by eexists _, _.
Qed.

Lemma reachable_inv th cx c :
  reachable th cx c → ceremony_inv c ∧ threshold c = th ∧ ctx c = cx.
Proof.
  induction 1 as [|c op r c' Hr (Hinv & Hth & Hcx) Hu Hs]; [by split; [apply new_inv|]|].
  destruct (step_inv c op Hinv Hu) as (r' & c'' & Hs' & Hinv' & Hth' & Hcx').
  simplify_eq. split; [done|]. by split; [rewrite Hth'|rewrite Hcx'].
Qed.

(** C38 (the ballot box's ceremony never panics): in any reachable ceremony,
    every operation on trustee indices returns an outcome; no step reads a
    dealing that is not there. *)
Theorem ceremony_total th cx c op :
  reachable th cx c → u32_op op → is_Some (ceremony_step c op).
Proof.
  intros (Hinv & _)%reachable_inv Hu. destruct (step_inv c op Hinv Hu) as (r & c' & -> & _). done.
Qed.

(** C37 (a key only forms from enough qualified dealers): when a reachable
    ceremony holds an election key, its phase is keyed, at least [t] trustees
    confirmed, at least [t] dealers have no unjustified complaint, each with a
    verified dealing, and the key is what their dealings combine to. *)
Theorem keyed_sound th cx c ek :
  reachable th cx c → key c = Some ek →
  phase c = Keyed ∧ th_t th ≤ Z.of_nat (size (confirmed c))
  ∧ th_t th ≤ Z.of_nat (length (qualified c))
  ∧ ∃ ds, from_dealings ds th cx = Ok ek
      ∧ Forall2 (λ i d, ∃ sd, dealings c !! i = Some sd ∧ d = sd_dealing sd
                   ∧ dealer d = i ∧ verify_dealing d th cx = Ok ()) (qualified c) ds.
Proof.
  intros (Hinv & <- & <-)%reachable_inv Hk. destruct Hinv as [_ Id _ _ Ip].
  destruct (phase c) eqn:Hph; try (naive_solver congruence).
  destruct Ip as (_ & Hconf & ds & ek' & Hds & Hk' & Hek). rewrite Hk in Hk'. simplify_eq.
  destruct (qualified_dealings_total c) as (ds' & Hds' & Hall). rewrite Hds in Hds'. simplify_eq.
  split; [done|]. split; [done|].
  pose proof (from_dealings_ok _ _ _ _ Hek) as (_ & _ & Ht & _).
  split; [by rewrite (Forall2_length _ _ _ Hall)|]. exists ds'. split; [done|].
  eapply Forall2_impl; [done|]. simpl. intros i d (sd & Hsd & ->). exists sd.
  destruct (Id i sd Hsd) as (_ & Hdealer & Hv & _). done.
Qed.

(** ** Forming, exactly *)

Lemma from_dealings_succeeds ds th cx :
  Forall (λ d, verify_dealing d th cx = Ok ()) ds → NoDup (dealer <$> ds) →
  th_t th ≤ Z.of_nat (length ds) → is_ok (from_dealings ds th cx) = true.
Proof.
  intros Hv Hnd Ht. unfold from_dealings.
  rewrite size_list_to_set, length_fmap, bool_decide_eq_false_2 by (done || by intros []).
  rewrite (proj2 (Z.ltb_ge _ _)) by done. simpl.
  assert (∃ us, try_map (λ d, verify_dealing d th cx) ds = Ok us) as [us ->]; [|done].
  clear -Hv. induction Hv as [|d ds Hd Hv [us Hus]]; [by exists []|].
  exists (() :: us). simpl. by rewrite Hd, Hus.
Qed.

Lemma qualified_NoDup c : NoDup (qualified c).
Proof. unfold qualified. apply NoDup_filter, bt_keys_NoDup. Qed.

(** Whether enough dealers qualify and enough trustees confirmed. *)
Definition can_form (c : Ceremony) : Prop :=
  th_t (threshold c) ≤ Z.of_nat (size (confirmed c))
  ∧ th_t (threshold c) ≤ Z.of_nat (length (qualified c)).

#[export] Instance can_form_dec c : Decision (can_form c).
Proof. unfold can_form. apply _. Defined.

Lemma form_exact c :
  ceremony_inv c → phase c = Confirming →
  ∃ c', form c = Some c' ∧ (can_form c → phase c' = Keyed) ∧ (¬ can_form c → phase c' = Failed).
Proof.
  intros [_ Id _ _ _] Hph. unfold form, can_form. case_bool_decide as Hconf.
  { eexists. split; [done|]. split; [lia|done]. }
  destruct (qualified_dealings_total c) as (ds & Hds & Hall).
  unfold qualified_dealings in Hds. rewrite Hds. simpl. eexists. split; [done|].
  assert (Forall (λ d, verify_dealing d (threshold c) (ctx c) = Ok ()) ds
          ∧ dealer <$> ds = qualified c) as [Hv Hdealers].
  { clear -Hall Id. induction Hall as [|i d q ds (sd & Hsd & ->) Hall [IHv IHd]]; [done|].
    destruct (Id i sd Hsd) as (_ & Hi & Hv & _). split; [by constructor|]. csimpl. by rewrite Hi, IHd. }
  rewrite (Forall2_length _ _ _ Hall). split.
  - intros [_ Hq]. pose proof (from_dealings_succeeds ds (threshold c) (ctx c) Hv) as Hok.
    rewrite Hdealers in Hok. specialize (Hok (qualified_NoDup c) Hq).
    by destruct (from_dealings _ _ _).
  - intros Hn. destruct (from_dealings ds (threshold c) (ctx c)) eqn:Hek; [|done].
    apply from_dealings_ok in Hek as (_ & _ & Ht & _). lia.
Qed.

(** The deadline decides the key: when voting is due to open on a
    confirming ceremony, the key forms exactly if at least [t] trustees
    confirmed and at least [t] dealers qualify; otherwise the ceremony fails.
    Either way it is over. *)
Theorem deadline_decides th cx c :
  reachable th cx c → phase c = Confirming →
  ∃ c', deadline c = Some (true, c')
    ∧ (can_form c → phase c' = Keyed) ∧ (¬ can_form c → phase c' = Failed).
Proof.
  intros (Hinv & _)%reachable_inv Hph. destruct (form_exact c Hinv Hph) as (c' & Hf & Hk & Hn).
  unfold deadline. rewrite Hph, Hf. simpl. exists c'. split; [|done].
  do 2 f_equal. apply bool_decide_eq_true. intros Heq.
  destruct (decide (can_form c)) as [Hc|Hc]; [apply Hk in Hc|apply Hn in Hc]; congruence.
Qed.

(** ** Progress and finality *)

Definition phase_rank (p : Phase) : Z :=
  match p with Enrolling => 0 | Dealing_ => 1 | Confirming => 2 | Keyed | Failed => 3 end.

(** A step that records nothing changes nothing, and the phase only advances;
    once keyed or failed, nothing changes. *)
Definition advances (c : Ceremony) (r : result CeremonyError Step) (c' : Ceremony) : Prop :=
  (r ≠ Ok Accepted → c' = c)
  ∧ (phase_rank (phase c) = 3 → c' = c)
  ∧ phase_rank (phase c) ≤ phase_rank (phase c').

Lemma advances_refl c r : advances c r c.
Proof. by split. Qed.

Lemma form_rank c c' : form c = Some c' → 2 ≤ phase_rank (phase c').
Proof.
  unfold form. case_bool_decide; [by intros [= <-]|].
  destruct (mapM _ _) as [ds|]; [|done]. simpl. destruct (from_dealings _ _ _); by intros [= <-].
Qed.

Lemma form_if_complete_advances c c' :
  phase c = Confirming → form_if_complete c = Some c' → 2 ≤ phase_rank (phase c').
Proof.
  intros Hph. unfold form_if_complete. destruct (_ && _); [apply form_rank|].
  intros [= <-]. by rewrite Hph.
Qed.

Lemma enrol_advances c tk : advances c (enrol c tk).1 (enrol c tk).2.
Proof.
  unfold enrol. destruct (index_check c _); [|apply advances_refl].
  destruct (transport c !! _); [apply advances_refl|].
  case_bool_decide as Hph; [apply advances_refl|].
  destruct (verify_transport_key _ _ _); [|apply advances_refl].
  unfold advances. simpl. rewrite Hph. split; [done|]. split; [done|].
  by case_bool_decide.
Qed.

Lemma deal_advances c d : advances c (deal_step c d).1 (deal_step c d).2.
Proof.
  unfold deal_step. destruct (index_check c _); [|apply advances_refl].
  destruct (dealings c !! _); [apply advances_refl|].
  case_bool_decide as Hph; [apply advances_refl|].
  destruct (verify_dealing _ _ _); [|apply advances_refl].
  destruct (bool_decide (bt_keys _ ≠ _)); [apply advances_refl|].
  unfold advances. simpl. rewrite Hph. split; [done|]. split; [done|].
  by case_bool_decide.
Qed.

Lemma accepted_advances c c' :
  phase c = Confirming → 2 ≤ phase_rank (phase c') → advances c (Ok Accepted) c'.
Proof. intros Hph Hr. unfold advances. rewrite Hph. by split_and!. Qed.

Lemma confirm_advances c t a r c' : confirm c t a = Some (r, c') → advances c r c'.
Proof.
  unfold confirm. intros Heq.
  destruct (_ ← index_check c t; _); [|simplify_eq; apply advances_refl].
  destruct (confirmed c !! t); [simplify_eq; apply advances_refl|].
  case_bool_decide as Hph; [simplify_eq; apply advances_refl|].
  destruct (form_if_complete _) as [c1|] eqn:Hf; [|done]. simplify_eq/=.
  apply accepted_advances; [done|]. by eapply form_if_complete_advances; [|done].
Qed.

Lemma justify_advances c d r v o c' : justify c d r v = Some (o, c') → advances c o c'.
Proof.
  unfold justify. intros Heq.
  destruct (_ ← index_check c d; _); [|simplify_eq; apply advances_refl].
  destruct (justified c !! _); [simplify_eq; apply advances_refl|].
  case_bool_decide as Hph; [simplify_eq; apply advances_refl|].
  destruct (negb _); [simplify_eq; apply advances_refl|].
  destruct (dealings c !! d); [|done]. simpl in Heq.
  destruct (verify_share _ _); [|simplify_eq; apply advances_refl].
  destruct (form_if_complete _) as [c1|] eqn:Hf; [|done]. simplify_eq/=.
  apply accepted_advances; [done|]. by eapply form_if_complete_advances; [|done].
Qed.

(** A ceremony only moves forward: a refused or repeated step changes
    nothing, the phase never goes back, and a ceremony that is keyed or failed
    never changes again, so a formed election key is final. *)
Theorem ceremony_forward c op r c' :
  ceremony_step c op = Some (r, c') → advances c r c'.
Proof.
  destruct op as [tk|d|t a|d rr v|]; simpl.
  - intros Heq. injection Heq as Heq. pose proof (enrol_advances c tk) as Ha. by rewrite Heq in Ha.
  - intros Heq. injection Heq as Heq. pose proof (deal_advances c d) as Ha. by rewrite Heq in Ha.
  - apply confirm_advances.
  - apply justify_advances.
  - unfold deadline. destruct (phase c) eqn:Hph; simpl; intros Heq; simplify_eq;
      try apply advances_refl; [unfold advances; rewrite Hph; by split_and!..|].
    destruct (form c) as [c1|] eqn:Hf; simplify_eq/=. apply accepted_advances; [done|].
    by eapply form_rank.
Qed.

(** ** The decryption round *)

Section RoundProofs.
Context {K : Type} `{EqDecision K}.

Inductive round_reachable (k : ElectionKey) (cx : bytes) (ts : list (K * Ciphertext))
  : Decryption K → Prop :=
| round_new : round_reachable k cx ts (decryption_new k cx ts)
| round_accept d trustee given r d' :
    round_reachable k cx ts d → accept d trustee given = (r, d') → round_reachable k cx ts d'.

(** Every trustee's accepted partials answer the targets one by one. *)
Definition round_inv (d : Decryption K) : Prop :=
  ∀ j ps, partials d !! j = Some ps →
    Forall2 (λ p t, pd_trustee p = j ∧ verify_partial (dec_key d) t.2 p (dec_ctx d) = Ok ())
      ps (targets d).

Lemma check_partials_ok (d : Decryption K) trustee i given ts :
  length given = length ts → check_partials d trustee i given ts = Ok () →
  Forall2 (λ p t, pd_trustee p = trustee ∧ verify_partial (dec_key d) t.2 p (dec_ctx d) = Ok ())
    given.*2 ts.
Proof.
  revert i ts. induction given as [|[[k ct] p] given IH]; intros i [|[k' ct'] ts] Hlen;
    simpl in Hlen; try done.
  cbn [check_partials]. rewrite bind_unit_ok. unfold check_partial. simpl.
  rewrite !bind_unit_ok, !guard_ok, orb_false_iff, !bool_decide_eq_false, map_err_ok.
  intros (([Hk Hct] & Hp & Hv) & Hrest).
  apply dec_stable in Hct as ->. apply dec_stable in Hp. csimpl. constructor; [done|].
  apply (IH (S i)); [lia|done].
Qed.

Lemma round_reachable_inv k cx ts d :
  round_reachable k cx ts d →
  round_inv d ∧ dec_key d = k ∧ dec_ctx d = cx ∧ targets d = ts.
Proof.
  induction 1 as [|d trustee given r d' Hr (Hinv & Hk & Hc & Ht) Ha]; [by split|].
  unfold accept in Ha. destruct (_ || _); [by simplify_eq|].
  destruct (partials d !! trustee) eqn:Hheld; [by simplify_eq|].
  destruct (complete d); [by simplify_eq|].
  destruct (bool_decide (length given ≠ _)) eqn:Hlen; [by simplify_eq|].
  apply bool_decide_eq_false, dec_stable in Hlen.
  destruct (check_partials d trustee 0 given (targets d)) as [[]|] eqn:Hcheck; [|by simplify_eq].
  injection Ha as <- <-. split; [|done]. intros j ps. simpl.
  destruct (decide (j = trustee)) as [->|Hne].
  - rewrite lookup_insert_eq. intros [= <-]. by eapply check_partials_ok.
  - rewrite lookup_insert_ne by done. apply Hinv.
Qed.

(** Verified partials of distinct trustees are all chosen. *)
Lemma choose_partials_verified ek ct cx parts (chosen0 : gmap Z Point) :
  Forall (λ p, verify_partial ek ct p cx = Ok ()) parts → NoDup (pd_trustee <$> parts) →
  (∀ p, p ∈ parts → chosen0 !! pd_trustee p = None) →
  ∃ chosen, try_fold (λ chosen p,
      _ ← verify_partial ek ct p cx;
      Ok (match chosen !! pd_trustee p with
          | Some _ => chosen
          | None => <[pd_trustee p := pd_d p]> chosen
          end)) chosen0 parts = Ok chosen
    ∧ size chosen = (size chosen0 + length parts)%nat.
Proof.
  intros Hv. revert chosen0. induction Hv as [|p parts Hp Hv IH]; intros chosen0 Hnd Hfresh.
  { exists chosen0. split; [done|]. simpl. lia. }
  csimpl in Hnd. apply NoDup_cons in Hnd as [Hni Hnd]. cbn [try_fold]. rewrite Hp. simpl.
  pose proof (Hfresh p ltac:(apply list_elem_of_here)) as Hnone. rewrite Hnone.
  destruct (IH (<[pd_trustee p := pd_d p]> chosen0) Hnd) as (chosen & Hc & Hs).
  - intros q Hq. rewrite lookup_insert_ne; [apply Hfresh; by apply list_elem_of_further|].
    intros Heq. apply Hni. rewrite Heq. by apply list_elem_of_fmap_2.
  - exists chosen. split; [done|]. rewrite Hs, map_size_insert_None by done. simpl. lia.
Qed.

(** The partials of one target, one from every trustee. *)
Lemma target_parts (d : Decryption K) i t :
  round_inv d → targets d !! i = Some t →
  ∃ parts, mapM (λ ps, ps !! i) (bt_values (partials d)) = Some parts
    ∧ pd_trustee <$> parts = bt_keys (partials d)
    ∧ Forall (λ p, verify_partial (dec_key d) t.2 p (dec_ctx d) = Ok ()) parts.
Proof.
  intros Hinv Ht. unfold bt_values, bt_keys.
  assert (∀ j ps, (j, ps) ∈ bt_list (partials d) → Forall2 (λ p t, pd_trustee p = j
    ∧ verify_partial (dec_key d) t.2 p (dec_ctx d) = Ok ()) ps (targets d)) as Hall.
  { intros j ps Hin%elem_of_bt_list. by apply Hinv. }
  induction (bt_list (partials d)) as [|[j ps] l IH]; [by exists []|].
  destruct IH as (parts & Hm & Hk & Hv); [intros; apply Hall; by apply list_elem_of_further|].
  destruct (Forall2_lookup_r _ _ _ _ _ (Hall j ps ltac:(apply list_elem_of_here)) Ht)
    as (p & Hp & Hj & Hpv).
  exists (p :: parts). rewrite !fmap_cons. cbn [mapM fst snd]. rewrite Hp. simpl. rewrite Hm. simpl.
  split; [done|]. split; [by rewrite Hj, Hk|]. by constructor.
Qed.

Lemma plaintext_ok (d : Decryption K) i t :
  round_inv d → complete d = true → 0 ≤ th_t (ek_threshold (dec_key d)) →
  targets d !! i = Some t → ∃ P, plaintext d i t = Some (Ok (t.1, P)).
Proof.
  intros Hinv Hc Ht0 Ht. destruct (target_parts d i t Hinv Ht) as (parts & Hm & Hk & Hv).
  unfold plaintext. rewrite Hm. simpl. unfold combine, choose_partials.
  destruct (choose_partials_verified (dec_key d) t.2 (dec_ctx d) parts ∅ Hv) as (chosen & Hch & Hs).
  - rewrite Hk. apply bt_keys_NoDup.
  - intros p _. apply lookup_empty.
  - rewrite Hch. simpl. rewrite bool_decide_eq_false_2; [by eexists|].
    rewrite map_size_empty in Hs. apply (f_equal length) in Hk.
    rewrite length_fmap, length_bt_keys in Hk. unfold complete in Hc. apply Z.leb_le in Hc. lia.
Qed.

(** A complete round decrypts: once [t] trustees' partials are accepted,
    every target of a reachable decryption round has a plaintext, in the
    targets' order, and reading them cannot fail or panic. *)
Theorem complete_round_decrypts k cx ts d :
  0 ≤ th_t (ek_threshold k) → round_reachable k cx ts d → complete d = true →
  ∃ out, plaintexts d = Some (Ok out) ∧ out.*1 = ts.*1.
Proof.
  intros Ht (Hinv & Hk & Hc & Hts)%round_reachable_inv Hcomp. subst.
  unfold plaintexts. rewrite Hcomp. simpl.
  assert (Hsuf : ∀ l i, drop i (targets d) = l →
    ∃ out, plaintexts_from d i l = Some (Ok out) ∧ out.*1 = l.*1); [|by apply Hsuf].
  induction l as [|t l IH]; intros i Hl; [by exists []|]. cbn [plaintexts_from].
  assert (targets d !! i = Some t) as Hi.
  { rewrite <- (Nat.add_0_r i), <- lookup_drop, Hl. done. }
  destruct (plaintext_ok d i t Hinv Hcomp Ht Hi) as [P ->]. simpl.
  destruct (IH (S i)) as (out & -> & Hout).
  { rewrite <- Nat.add_1_r, <- drop_drop, Hl. done. }
  simpl. eexists. split; [done|]. csimpl. by rewrite Hout.
Qed.
End RoundProofs.

(** ** An honest ceremony *)

(** Operations in sequence. *)
Fixpoint run (c : Ceremony) (ops : list CeremonyOp) : option Ceremony :=
  match ops with
  | [] => Some c
  | op :: ops' => '(_, c') ← ceremony_step c op; run c' ops'
  end.

Lemma run_app c ops1 ops2 c' : run c ops1 = Some c' → run c (ops1 ++ ops2) = run c' ops2.
Proof.
  revert c. induction ops1 as [|op ops1 IH]; intros c; simpl; [by intros [= ->]|].
  destruct (ceremony_step c op) as [[r c1]|]; [apply IH|done].
Qed.

Lemma run_reachable th cx c ops c' :
  reachable th cx c → Forall u32_op ops → run c ops = Some c' → reachable th cx c'.
Proof.
  intros Hr Hu. revert c Hr. induction Hu as [|op ops Hop Hu IH]; intros c Hr; simpl.
  { by intros [= <-]. }
  destruct (ceremony_step c op) as [[r c1]|] eqn:Hs; [|done]. simpl.
  apply IH. by eapply reach_step.
Qed.

(** With no complaint, every dealer qualifies. *)
Lemma no_complaints c :
  (∀ i s, confirmed c !! i = Some s → s = ∅) →
  complaints c = [] ∧ qualified c = bt_keys (dealings c).
Proof.
  intros Hc. assert (complaints c = []) as Hcs.
  { unfold complaints.
    assert (∀ i s, (i, s) ∈ bt_list (confirmed c) → s = ∅) as Hl.
    { intros i s Hin%elem_of_bt_list. by eapply Hc. }
    enough (concat ((λ '(recipient, against),
      (λ d, mk_complaint d recipient (justified c !! (d, recipient))) <$> bs_list against)
      <$> bt_list (confirmed c)) = []) as -> by done.
    induction (bt_list (confirmed c)) as [|[i s] l IH]; [done|]. csimpl.
    rewrite (Hl i s) by apply list_elem_of_here. simpl. apply IH.
    intros i' s' Hin. apply (Hl i'). by apply list_elem_of_further. }
  split; [done|]. unfold qualified. rewrite Hcs. simpl.
  apply filter_all. intros d. set_solver.
Qed.

Lemma no_complaint_with c j :
  (∀ i s, confirmed c !! i = Some s → s = ∅) →
  ∀ i s, confirmed (with_confirmed c j ∅) !! i = Some s → s = ∅.
Proof.
  intros Hno i s. simpl. destruct (decide (i = j)) as [->|Hij].
  - rewrite lookup_insert_eq. by intros [= <-].
  - rewrite lookup_insert_ne by done. apply Hno.
Qed.

(** One confirmation without a complaint. *)
Lemma confirm_quiet c j :
  let n := th_n (threshold c) in
  ceremony_inv c → phase c = Confirming → 1 ≤ j ≤ n → confirmed c !! j = None →
  2 ≤ th_t (threshold c) ≤ n → (∀ i s, confirmed c !! i = Some s → s = ∅) →
  ceremony_inv (with_confirmed c j ∅)
  ∧ ∃ c', ceremony_step c (OpConfirm j ∅) = Some (Ok Accepted, c')
    ∧ (Z.of_nat (S (size (confirmed c))) = n → phase c' = Keyed)
    ∧ (Z.of_nat (S (size (confirmed c))) ≠ n → c' = with_confirmed c j ∅).
Proof.
  intros n Hinv Hph Hj Hfresh Ht Hno. subst n.
  assert (ceremony_inv (with_confirmed c j ∅)) as Hinv0 by (apply with_confirmed_inv; set_solver).
  split; [done|]. simpl. unfold confirm.
  rewrite (proj2 (index_ok c _)) by lia. simpl. rewrite Hfresh.
  rewrite bool_decide_eq_false_2 by (by intros []). fold (with_confirmed c j ∅).
  destruct (no_complaints _ (no_complaint_with c j Hno)) as [Hcs Hq].
  assert (size (confirmed (with_confirmed c j ∅)) = S (size (confirmed c))) as Hsz
    by (simpl; by rewrite map_size_insert_None).
  unfold form_if_complete. rewrite Hcs, andb_true_r, Hsz.
  destruct (decide (Z.of_nat (S (size (confirmed c))) = th_n (threshold c))) as [Hn|Hn].
  - rewrite bool_decide_eq_true_2 by done.
    destruct (form_exact (with_confirmed c j ∅) Hinv0 Hph) as (c' & -> & Hk & _). simpl.
    exists c'. split; [done|]. split; [intros _; apply Hk|done].
    destruct Hinv as [_ _ _ _ Ip]. rewrite Hph in Ip. destruct Ip as (_ & Hd & _).
    unfold can_form. rewrite Hq, length_bt_keys, Hsz. simpl. lia.
  - rewrite bool_decide_eq_false_2 by done. simpl. by eexists.
Qed.

(** What an honest trustee sends: a valid transport key, a verified dealing
    with one sealed share for each trustee, a confirmation that complains of
    nobody. *)
Definition honest_op (th : Threshold) (cx : bytes) (op : CeremonyOp) : Prop :=
  match op with
  | OpEnrol tk => 1 ≤ tk_trustee tk ≤ th_n th ∧ verify_transport_key tk th cx = Ok ()
  | OpDeal sd =>
      1 ≤ dealer (sd_dealing sd) ≤ th_n th ∧ verify_dealing (sd_dealing sd) th cx = Ok ()
      ∧ bt_keys (sd_shares sd) = range_incl 1 (th_n th)
  | OpConfirm j against => 1 ≤ j ≤ th_n th ∧ against = ∅
  | OpJustify _ _ _ | OpDeadline => False
  end.

(** A ceremony only honest trustees have stepped: it has not failed, and the
    phase it is in still waits for someone and holds no complaint. *)
Record honest_so_far (th : Threshold) (cx : bytes) (c : Ceremony) : Prop := {
  hs_inv : ceremony_inv c;
  hs_election : threshold c = th ∧ ctx c = cx;
  hs_waits :
    match phase c with
    | Enrolling => Z.of_nat (size (transport c)) ≠ th_n th
    | Dealing_ => Z.of_nat (size (dealings c)) ≠ th_n th
    | Confirming => Z.of_nat (size (confirmed c)) ≠ th_n th ∧ ∀ i s, confirmed c !! i = Some s → s = ∅
    | Keyed => True
    | Failed => False
    end;
}.

(** Until it is keyed, what the ceremony holds only grows. *)
Definition grows (c c' : Ceremony) : Prop :=
  phase_rank (phase c) ≤ phase_rank (phase c')
  ∧ (3 ≤ phase_rank (phase c')
     ∨ transport c ⊆ transport c' ∧ dealings c ⊆ dealings c' ∧ confirmed c ⊆ confirmed c').

#[local] Instance grows_preorder : PreOrder grows.
Proof.
  split; [intros c; split; [done|by right]|].
  intros c1 c2 c3 [Hr1 Hg1] [Hr2 Hg2]. split; [lia|].
  destruct Hg2 as [?|(? & ? & ?)]; [by left|].
  destruct Hg1 as [?|(? & ? & ?)]; [left; lia|]. right. split_and!; by etrans.
Qed.

(** The contribution of [op], sent when the phase was [p], is held by [c'],
    unless it came before its phase or [c'] no longer needs it. *)
Definition contributed (p : Phase) (op : CeremonyOp) (c' : Ceremony) : Prop :=
  3 ≤ phase_rank (phase c')
  ∨ match op with
    | OpEnrol tk => is_Some (transport c' !! tk_trustee tk)
    | OpDeal sd => 1 ≤ phase_rank p → is_Some (dealings c' !! dealer (sd_dealing sd))
    | OpConfirm j _ => 2 ≤ phase_rank p → is_Some (confirmed c' !! j)
    | OpJustify _ _ _ | OpDeadline => True
    end.

Lemma contributed_grows p p' op c c' :
  phase_rank p' ≤ phase_rank p → grows c c' → contributed p op c → contributed p' op c'.
Proof.
  intros Hp [Hr Hg] [Hk|Hc]; [left; lia|]. destruct Hg as [?|(Ht & Hd & Hcf)]; [by left|]. right.
  destruct op; [| | |done..]; [destruct Hc as [x Hx]|intros Hq; destruct Hc as [x Hx]; [lia|]..];
    exists x; by eapply lookup_weaken.
Qed.


Lemma not_full {V} (m : gmap Z V) n :
  Z.of_nat (size m) ≠ n → 1 ≤ n → (∀ j, 1 ≤ j ≤ n → is_Some (m !! j)) →
  (∀ j v, m !! j = Some v → 1 ≤ j ≤ n) → False.
Proof.
  intros Hn Hpos Hall Hr. apply Hn.
  assert (dom m = list_to_set (seqZ 1 n)) as Hd.
  { apply set_eq. intros j. rewrite elem_of_dom, elem_of_list_to_set, elem_of_seqZ. split.
    - intros [v Hv]. apply Hr in Hv. lia.
    - intros Hj. apply Hall. lia. }
  rewrite <- size_dom, Hd, size_list_to_set, length_seqZ by apply NoDup_seqZ. lia.
Qed.

Lemma enrol_honest c tk :
  let th := threshold c in let cx := ctx c in
  honest_so_far th cx c → honest_op th cx (OpEnrol tk) →
  honest_so_far th cx (enrol c tk).2 ∧ grows c (enrol c tk).2
  ∧ contributed (phase c) (OpEnrol tk) (enrol c tk).2.
Proof.
  intros th cx Hc [Hi Hv]. subst th cx. pose proof Hc as [Hinv _ Hw].
  pose proof Hinv as [It _ _ _ Ip].
  destruct (enrol_inv c tk Hinv) as [Hinv' _]; [lia|].
  pose proof (enrol_advances c tk) as (_ & _ & Hrank). revert Hinv' Hrank.
  unfold enrol. rewrite (proj2 (index_ok c _)) by lia.
  destruct (transport c !! tk_trustee tk) eqn:Hheld; simpl.
  { intros _ _. split; [done|]. split; [done|]. right. simpl. by rewrite Hheld. }
  case_bool_decide as Hph; simpl.
  - intros _ _. split; [done|]. split; [done|].
    destruct (phase c) eqn:Hphc; [done| | |left; simpl; by rewrite Hphc|done];
      right; simpl; eapply map_full; [|apply Ip|done| |apply Ip|done]; intros i t Ht; by apply (It i t).
  - rewrite Hv. simpl. intros Hinv' Hrank. rewrite Hph in Ip. 
    split; [split; simpl; try done|split].
    + rewrite Hph. destruct Ip as (-> & _). case_bool_decide; [|done]. rewrite map_size_empty. lia.
    + split; [done|]. right. split; [by apply insert_subseteq|done].
    + right. simpl. rewrite lookup_insert_eq. by eexists.
Qed.

Lemma deal_honest c sd :
  let th := threshold c in let cx := ctx c in
  honest_so_far th cx c → honest_op th cx (OpDeal sd) →
  honest_so_far th cx (deal_step c sd).2 ∧ grows c (deal_step c sd).2
  ∧ contributed (phase c) (OpDeal sd) (deal_step c sd).2.
Proof.
  intros th cx Hc (Hi & Hv & Hk). subst th cx. pose proof Hc as [Hinv _ Hw].
  pose proof Hinv as [_ Id _ _ Ip].
  destruct (deal_inv c sd Hinv) as [Hinv' _]; [lia|].
  pose proof (deal_advances c sd) as (_ & _ & Hrank). revert Hinv' Hrank.
  unfold deal_step. rewrite (proj2 (index_ok c _)) by lia.
  destruct (dealings c !! dealer (sd_dealing sd)) eqn:Hheld; simpl.
  { intros _ _. split; [done|]. split; [done|]. right. simpl. by rewrite Hheld. }
  case_bool_decide as Hph; simpl.
  - intros _ _. split; [done|]. split; [done|].
    destruct (phase c) eqn:Hphc; [right; simpl; lia|done| |left; simpl; by rewrite Hphc|done].
    right. intros _. simpl. eapply map_full; [|apply Ip|done]. intros i t Ht. by apply (Id i t).
  - rewrite Hv, bool_decide_eq_false_2 by (by intros []). simpl.
    intros Hinv' Hrank. rewrite Hph in Ip.
    split; [split; simpl; try done|split].
    + rewrite Hph. destruct Ip as (_ & -> & _). case_bool_decide; [|done].
      rewrite map_size_empty. split; [lia|done].
    + split; [done|]. right. split_and!; [done|by apply insert_subseteq|done].
    + right. simpl. rewrite lookup_insert_eq. by eexists.
Qed.

(** A confirmation without a complaint changes nothing, forms the key or is
    held. *)
Lemma confirm_cases c j :
  honest_so_far (threshold c) (ctx c) c → 1 ≤ j ≤ th_n (threshold c) →
  2 ≤ th_t (threshold c) ≤ th_n (threshold c) →
  ∃ r c', ceremony_step c (OpConfirm j ∅) = Some (r, c')
    ∧ ((c' = c ∧ (phase c = Confirming → is_Some (confirmed c !! j)))
       ∨ phase c' = Keyed
       ∨ (c' = with_confirmed c j ∅ ∧ phase c = Confirming ∧ confirmed c !! j = None
          ∧ Z.of_nat (S (size (confirmed c))) ≠ th_n (threshold c))).
Proof.
  intros [Hinv _ Hw] Hj Ht. destruct (confirmed c !! j) as [s|] eqn:Hheld.
  - simpl. unfold confirm. rewrite (proj2 (index_ok c _)) by lia. simpl. rewrite Hheld.
    eexists _, _. split; [done|]. left. by split.
  - destruct (decide (phase c = Confirming)) as [Hph|Hph].
    + rewrite Hph in Hw. destruct Hw as [_ Hq].
      destruct (confirm_quiet c j Hinv Hph Hj Hheld Ht Hq) as (_ & c' & Hs & Hlast & Hmore).
      eexists _, c'. split; [done|]. right.
      destruct (decide (Z.of_nat (S (size (confirmed c))) = th_n (threshold c))); [left; auto|].
      right. auto.
    + simpl. unfold confirm. rewrite (proj2 (index_ok c _)) by lia. simpl.
      rewrite Hheld, bool_decide_eq_true_2 by done.
      eexists _, _. split; [done|]. left. by split.
Qed.

Lemma confirm_honest c j :
  honest_so_far (threshold c) (ctx c) c → 1 ≤ j ≤ th_n (threshold c) →
  2 ≤ th_t (threshold c) ≤ th_n (threshold c) →
  ∃ r c', ceremony_step c (OpConfirm j ∅) = Some (r, c')
    ∧ honest_so_far (threshold c) (ctx c) c' ∧ grows c c' ∧ contributed (phase c) (OpConfirm j ∅) c'.
Proof.
  intros Hc Hj Ht. pose proof Hc as [Hinv _ Hw].
  destruct (confirm_cases c j Hc Hj Ht) as (r & c' & Hs & Hcase). exists r, c'. split; [done|].
  destruct (step_inv c (OpConfirm j ∅) Hinv) as (r' & c1 & Hs' & Hinv' & [Hth Hcx]);
    [split; [lia|set_solver]|].
  rewrite Hs in Hs'. symmetry in Hs'. simplify_eq.
  pose proof (confirm_advances c j ∅ r c' Hs) as (_ & _ & Hrank).
  destruct Hcase as [[-> Hheld]|[Hk|(-> & Hph & Hfresh & Hn)]].
  - split; [done|]. split; [done|]. destruct (phase c) eqn:Hphc; try done;
      [right; simpl; lia..|right; auto|left; by rewrite Hphc].
  - split; [split; [done|done|by rewrite Hk]|]. split; [split; [done|left; by rewrite Hk]|].
    left. by rewrite Hk.
  - rewrite Hph in Hw. destruct Hw as [_ Hq].
    split; [split; [done|done|]|split].
    + simpl. rewrite Hph, map_size_insert_None by done. split; [done|]. apply (no_complaint_with c j Hq).
    + split; [done|]. right. split_and!; [done|done|by apply insert_subseteq].
    + right. simpl. rewrite lookup_insert_eq. by eexists.
Qed.

(** Once every trustee's contribution to a phase is held, it is over. *)
Lemma all_enrolled th cx c :
  1 ≤ th_n th → honest_so_far th cx c →
  (∀ i, 1 ≤ i ≤ th_n th → 3 ≤ phase_rank (phase c) ∨ is_Some (transport c !! i)) →
  1 ≤ phase_rank (phase c).
Proof.
  intros Hn [[It _ _ _ _] [<- <-] Hw] Hall. destruct (phase c) eqn:Hph; simpl; try lia.
  destruct (not_full (transport c) (th_n (threshold c)) Hw Hn) as [].
  - intros j Hj. destruct (Hall j Hj) as [?|?]; [simpl in *; lia|done].
  - intros j v Hv. by apply (It j v).
Qed.

Lemma all_dealt th cx c :
  1 ≤ th_n th → honest_so_far th cx c → 1 ≤ phase_rank (phase c) →
  (∀ i, 1 ≤ i ≤ th_n th → 3 ≤ phase_rank (phase c) ∨ is_Some (dealings c !! i)) →
  2 ≤ phase_rank (phase c).
Proof.
  intros Hn [[_ Id _ _ _] [<- <-] Hw] Hp Hall. destruct (phase c) eqn:Hph; simpl in *; try lia.
  destruct (not_full (dealings c) (th_n (threshold c)) Hw Hn) as [].
  - intros j Hj. destruct (Hall j Hj) as [?|?]; [simpl in *; lia|done].
  - intros j v Hv. by apply (Id j v).
Qed.

Lemma all_confirmed th cx c :
  1 ≤ th_n th → honest_so_far th cx c → 2 ≤ phase_rank (phase c) →
  (∀ i, 1 ≤ i ≤ th_n th → 3 ≤ phase_rank (phase c) ∨ is_Some (confirmed c !! i)) →
  phase c = Keyed.
Proof.
  intros Hn [[_ _ Ic _ _] [<- <-] Hw] Hp Hall. destruct (phase c) eqn:Hph; simpl in *; try done; try lia.
  destruct Hw as [Hw _]. destruct (not_full (confirmed c) (th_n (threshold c)) Hw Hn) as [].
  - intros j Hj. destruct (Hall j Hj) as [?|?]; [simpl in *; lia|done].
  - intros j v Hv. by destruct (Ic j v Hv).
Qed.

Lemma honest_step th cx c op :
  2 ≤ th_t th ≤ th_n th → honest_so_far th cx c → honest_op th cx op →
  ∃ r c', ceremony_step c op = Some (r, c')
    ∧ honest_so_far th cx c' ∧ grows c c' ∧ contributed (phase c) op c'.
Proof.
  intros Ht Hc Hop. pose proof Hc as [_ [<- <-] _]. destruct op as [tk|sd|j a|d r v|]; [..|done|done].
  - eexists _, _. split; [simpl; by rewrite (surjective_pairing (enrol c tk))|]. by apply enrol_honest.
  - eexists _, _. split; [simpl; by rewrite (surjective_pairing (deal_step c sd))|]. by apply deal_honest.
  - destruct Hop as [Hj ->]. by apply confirm_honest.
Qed.

Lemma honest_run th cx c ops :
  2 ≤ th_t th ≤ th_n th → honest_so_far th cx c → Forall (honest_op th cx) ops →
  ∃ c', run c ops = Some c' ∧ honest_so_far th cx c' ∧ grows c c'
    ∧ ∀ op, op ∈ ops → contributed (phase c) op c'.
Proof.
  intros Ht. revert c. induction ops as [|op ops IH]; intros c Hc Hops.
  { exists c. split_and!; [done|done|done|]. by intros op ?%elem_of_nil. }
  apply Forall_cons in Hops as [Hop Hops].
  destruct (honest_step th cx c op Ht Hc Hop) as (r & c1 & Hs & Hc1 & Hg1 & Hcon).
  destruct (IH c1 Hc1 Hops) as (c2 & Hrun & Hc2 & Hg2 & Hall).
  exists c2. split; [cbn [run]; rewrite Hs; done|]. split; [done|]. split; [by etrans|].
  intros op' [->|Hin]%elem_of_cons.
  - eapply contributed_grows; [|done|done]. done.
  - eapply contributed_grows; [apply Hg1|reflexivity|]. by apply Hall.
Qed.

(** C39 (an honest ceremony forms the key): take a ceremony with [2 <= t <= n]
    in which every request is an honest trustee's: a valid transport key, a
    verified dealing with one sealed share for each trustee, or a confirmation
    without complaint, in any order, repeated, or sent before its phase. When
    every trustee has enrolled by some moment, every trustee deals at some
    point after it, and every trustee confirms at some point after all have
    dealt, then no request panics and the ceremony ends keyed, with an
    election key. *)
Theorem honest_ceremony_keys th cx ops1 ops2 ops3 :
  2 ≤ th_t th ≤ th_n th →
  Forall (honest_op th cx) (ops1 ++ ops2 ++ ops3) →
  (∀ i, 1 ≤ i ≤ th_n th → ∃ tk, tk_trustee tk = i ∧ OpEnrol tk ∈ ops1) →
  (∀ i, 1 ≤ i ≤ th_n th → ∃ sd, dealer (sd_dealing sd) = i ∧ OpDeal sd ∈ ops2) →
  (∀ i, 1 ≤ i ≤ th_n th → OpConfirm i ∅ ∈ ops3) →
  ∃ c, run (ceremony_new th cx) (ops1 ++ ops2 ++ ops3) = Some c
    ∧ phase c = Keyed ∧ is_Some (key c).
Proof.
  intros Ht [Hh1 [Hh2 Hh3]%Forall_app]%Forall_app He Hd Hcf.
  assert (honest_so_far th cx (ceremony_new th cx)) as Hc0.
  { split; [apply new_inv|done|]. simpl. rewrite map_size_empty. lia. }
  destruct (honest_run th cx _ ops1 Ht Hc0 Hh1) as (c1 & Hr1 & Hc1 & _ & Hcon1).
  destruct (honest_run th cx c1 ops2 Ht Hc1 Hh2) as (c2 & Hr2 & Hc2 & [Hg2 _] & Hcon2).
  destruct (honest_run th cx c2 ops3 Ht Hc2 Hh3) as (c3 & Hr3 & Hc3 & [Hg3 _] & Hcon3).
  assert (1 ≤ phase_rank (phase c1)) as Hp1.
  { apply (all_enrolled th cx); [lia|done|]. intros i Hi. destruct (He i Hi) as (tk & <- & Hin).
    exact (Hcon1 _ Hin). }
  assert (2 ≤ phase_rank (phase c2)) as Hp2.
  { apply (all_dealt th cx); [lia|done|lia|]. intros i Hi. destruct (Hd i Hi) as (sd & <- & Hin).
    destruct (Hcon2 _ Hin); [by left|right; auto]. }
  assert (phase c3 = Keyed) as Hp3.
  { apply (all_confirmed th cx); [lia|done|lia|]. intros i Hi.
    destruct (Hcon3 _ (Hcf i Hi)); [by left|right; auto]. }
  exists c3. split; [by rewrite (run_app _ _ _ c1), (run_app _ _ _ c2)|]. split; [done|].
  destruct Hc3 as [[_ _ _ _ Ip] _ _]. rewrite Hp3 in Ip.
  destruct Ip as (_ & _ & ds & ek & _ & -> & _). done.
Qed.
End Ceremony.

(** ** Witnesses *)

Module ToyCeremony.
Import ToyTrustees.

Definition tk_of (i : Z) : TransportKey :=
  (transport_publish (mk_ts i (scalar_from (i + 3))) [] i).1.
Definition tks : list TransportKey := [tk_of 1; tk_of 2; tk_of 3].
Definition sealed : Sealed := mk_sealed ct_zero [].
Definition sd_of (i : Z) : SealedDealing :=
  mk_sealed_dealing (dealt_by i).1 (<[1 := sealed]> (<[2 := sealed]> {[ 3 := sealed ]})).
Definition sds : list SealedDealing := [sd_of 1; sd_of 2; sd_of 3].

Definition dealt_ops : list CeremonyOp := (OpEnrol <$> tks) ++ (OpDeal <$> sds).
Definition quiet_ops : list CeremonyOp := (λ j, OpConfirm j ∅) <$> range_incl 1 3.
Definition start : Ceremony := ceremony_new th [].

Definition ran (o : option Ceremony) : bool := match o with Some _ => true | None => false end.
Lemma ran_some o : ran o = true → o = Some (default start o).
Proof. by destruct o. Qed.

Definition confirming : Ceremony := default start (run start dealt_ops).
Definition keyed : Ceremony := default start (run start (dealt_ops ++ quiet_ops)).

Lemma dealt_u32 : Forall u32_op dealt_ops.
Proof. repeat (apply Forall_cons; split; [by vm_compute|]). constructor. Qed.

Lemma quiet_u32 : Forall u32_op quiet_ops.
Proof. repeat (apply Forall_cons; split; [split; [done|set_solver]|]). constructor. Qed.

Lemma confirming_reachable : reachable th [] confirming.
Proof.
  eapply (run_reachable th [] start dealt_ops); [apply reach_new|apply dealt_u32|].
  apply ran_some. vm_compute. reflexivity.
Qed.

Lemma keyed_reachable : reachable th [] keyed.
Proof.
  eapply (run_reachable th [] start (dealt_ops ++ quiet_ops)); [apply reach_new| |].
  - apply Forall_app. split; [apply dealt_u32|apply quiet_u32].
  - apply ran_some. vm_compute. reflexivity.
Qed.

Definition formed : ElectionKey := default ek (key keyed).
Lemma keyed_key : key keyed = Some formed.
Proof.
  assert (match key keyed with Some _ => true | None => false end = true) as Hk
    by (vm_compute; reflexivity).
  unfold formed. by destruct (key keyed).
Qed.

Definition given_by (j : Z) : list (nat * Ciphertext * PartialDecryption) :=
  [(0%nat, ct_zero, (partial_decrypt (key_of j) ct_zero [] 5).1)].
Definition round : Decryption nat :=
  (accept (accept (decryption_new ek [] [(0%nat, ct_zero)]) 1 (given_by 1)).2 3 (given_by 3)).2.
Lemma round_reached : round_reachable ek [] [(0%nat, ct_zero)] round.
Proof.
  eapply round_accept; [|apply surjective_pairing].
  eapply round_accept; [|apply surjective_pairing]. apply round_new.
Qed.
End ToyCeremony.

Import ToyTrustees ToyCeremony.

Lemma ceremony_total_witness : is_Some (ceremony_step confirming (OpJustify 1 2 (scalar_from 5))).
Proof. apply (ceremony_total th []); [apply confirming_reachable|done]. Defined.

Lemma keyed_sound_witness : phase keyed = Keyed ∧ 2 ≤ Z.of_nat (length (qualified keyed)).
Proof.
  destruct (keyed_sound th [] keyed formed keyed_reachable keyed_key) as (Hp & _ & Hq & _).
  by split.
Defined.

Lemma deadline_decides_witness :
  ∃ c', deadline confirming = Some (true, c') ∧ phase c' = Failed.
Proof.
  destruct (deadline_decides th [] confirming confirming_reachable) as (c' & Hd & _ & Hf);
    [vm_compute; reflexivity|].
  exists c'. split; [done|]. apply Hf. apply (bool_decide_unpack _). vm_compute. exact I.
Defined.

Definition late : result CeremonyError Step * Ceremony :=
  default (Ok Accepted, start) (ceremony_step keyed (OpConfirm 1 {[ 2 ]})).

Lemma ceremony_forward_witness : is_ok late.1 = false ∧ advances keyed late.1 late.2.
Proof.
  split; [vm_compute; reflexivity|]. apply (ceremony_forward keyed (OpConfirm 1 {[ 2 ]})).
  assert (match ceremony_step keyed (OpConfirm 1 {[ 2 ]}) with Some _ => true | None => false end = true)
    as Hs by (vm_compute; reflexivity).
  unfold late. destruct (ceremony_step _ _) as [[? ?]|]; [done|discriminate].
Defined.

Lemma complete_round_decrypts_witness :
  ∃ out, plaintexts round = Some (Ok out) ∧ out.*1 = [0%nat].
Proof.
  apply (complete_round_decrypts ek [] [(0%nat, ct_zero)] round); [by vm_compute|apply round_reached|].
  vm_compute. reflexivity.
Defined.

(** Trustees in no order, with a dealing and a confirmation sent too early
    and with repeats. *)
Lemma honest_ceremony_keys_witness :
  ∃ c, run start
    ([OpEnrol (tk_of 3); OpDeal (sd_of 2); OpEnrol (tk_of 1); OpEnrol (tk_of 3); OpEnrol (tk_of 2)]
     ++ [OpDeal (sd_of 2); OpConfirm 3 ∅; OpDeal (sd_of 3); OpEnrol (tk_of 1); OpDeal (sd_of 1)]
     ++ [OpConfirm 2 ∅; OpConfirm 3 ∅; OpConfirm 2 ∅; OpDeal (sd_of 1); OpConfirm 1 ∅; OpConfirm 3 ∅]) = Some c
    ∧ phase c = Keyed ∧ is_Some (key c).
Proof.
  assert (∀ i, 1 ≤ i ≤ 3 → i = 1 ∨ i = 2 ∨ i = 3) as Hthree by lia.
  apply (honest_ceremony_keys th []); [done| | | |].
  - repeat (apply Forall_cons; split; [vm_compute; by repeat split|]). constructor.
  - intros i Hi%Hthree. exists (tk_of i).
    destruct Hi as [->|[->| ->]]; (split; [vm_compute; reflexivity|set_solver]).
  - intros i Hi%Hthree. exists (sd_of i).
    destruct Hi as [->|[->| ->]]; (split; [vm_compute; reflexivity|set_solver]).
  - intros i Hi%Hthree. destruct Hi as [->|[->| ->]]; set_solver.
Defined.
