(* ===== verification/Wire.v ===== *)
(** * Wire forms of the encrypted levels

    [vti-voting/src/wire.rs]: the JSON of transport keys, dealings, election
    keys, partial decryptions and encrypted questions, and back. Decoding
    reads members in the code's order and reports the first that fails. *)

From S2P Require Import Prelude Election Json Group Trustees Ceremony.

Section Wire.
Context `{Dalek, Multibase}.

(** ** Readers *)

Definition bad {A} (what : string) : tresult A :=
  Err (Encoding (what +:+ " is missing or not the expected shape")).

Definition text (v : Value) (what : string) : tresult string :=
  match as_str v with Some s => Ok s | None => bad what end.

Definition index (v : Value) (what : string) : tresult Z :=
  match as_u64 v ≫= u32_try_from with Some n => Ok n | None => bad what end.

Definition array (v : Value) (what : string) : tresult (list Value) :=
  match as_array v with Some l => Ok l | None => bad what end.

Definition point (v : Value) : tresult Point :=
  t ← text v "a group element"; point_from_text t.

Definition ciphertext (v : Value) : tresult Ciphertext :=
  a ← point (json_index v "a");
  b ← point (json_index v "b");
  Ok (mk_ct a b).

Definition ciphertext_value (c : Ciphertext) : Value :=
  mk_obj {[ "a" := VStr (point_text (ct_a c)); "b" := VStr (point_text (ct_b c)) ]}.

Definition sigma (v : Value) : tresult (Scalar * Scalar) :=
  tc ← text (json_index v "c") "c";
  c ← scalar_from_text tc;
  tz ← text (json_index v "z") "z";
  z ← scalar_from_text tz;
  Ok (c, z).

Definition sigma_value (c z : Scalar) : Value :=
  mk_obj {[ "c" := VStr (scalar_text c); "z" := VStr (scalar_text z) ]}.

Definition schnorr (v : Value) : tresult Schnorr :=
  '(c, z) ← sigma v; Ok (mk_schnorr c z).

Definition chaum_pedersen (v : Value) : tresult ChaumPedersen :=
  '(c, z) ← sigma v; Ok (mk_cp c z).

Definition one_of (v : Value) : tresult OneOf :=
  l ← array v "a disjunctive proof";
  parts ← try_map sigma l;
  Ok (mk_one_of parts).

Definition one_of_value (p : OneOf) : Value :=
  VArr ((λ x, sigma_value x.1 x.2) <$> parts p).

(** A [SealedPayload]. *)
Definition sealed (v : Value) : tresult Sealed :=
  t ← text (json_index v "body") "body";
  b ← b58_decode t;
  k ← ciphertext (json_index v "kem");
  Ok (mk_sealed k b).

Definition sealed_value (s : Sealed) : Value :=
  mk_obj {[ "kem" := ciphertext_value (kem s); "body" := VStr (multibase_encode (body s)) ]}.

Definition transport_key (v : Value) : tresult TransportKey :=
  i ← index (json_index v "trustee") "trustee";
  k ← point (json_index v "key");
  p ← schnorr (json_index v "pok");
  Ok (mk_tk i k p).

Definition transport_key_value (t : TransportKey) : Value :=
  mk_obj {[ "trustee" := VNum (tk_trustee t);
            "key" := VStr (point_text (tk_key t));
            "pok" := sigma_value (sch_c (tk_pok t)) (sch_z (tk_pok t)) ]}.

(** One entry of [shares]; a second share for a recipient is refused. *)
Definition dealing_share (shares : gmap Z Sealed) (s : Value) : tresult (gmap Z Sealed) :=
  r ← index (json_index s "recipient") "recipient";
  x ← sealed (json_index s "share");
  match shares !! r with
  | Some _ => Err (DealingInvalid ("two shares for trustee " +:+ pretty r))
  | None => Ok (<[r := x]> shares)
  end.

(** A [Dealing] with its sealed shares. *)
Definition dealing (v : Value) : tresult SealedDealing :=
  cl ← array (json_index v "commitments") "commitments";
  cs ← try_map point cl;
  sl ← array (json_index v "shares") "shares";
  shares ← try_fold dealing_share ∅ sl;
  d ← index (json_index v "dealer") "dealer";
  p ← schnorr (json_index v "pok");
  Ok (mk_sealed_dealing (mk_dealing d cs p) shares).

Definition share_value (x : Z * Sealed) : Value :=
  mk_obj {[ "recipient" := VNum x.1; "share" := sealed_value x.2 ]}.

Definition dealing_value (d : SealedDealing) : Value :=
  mk_obj {[ "dealer" := VNum (dealer (sd_dealing d));
            "commitments" := VArr ((λ c, VStr (point_text c)) <$> commitments (sd_dealing d));
            "pok" := sigma_value (sch_c (d_pok (sd_dealing d))) (sch_z (d_pok (sd_dealing d)));
            "shares" := VArr (share_value <$> bt_list (sd_shares d)) ]}.

Definition verification_value (x : Z * Point) : Value :=
  mk_obj {[ "trustee" := VNum x.1; "key" := VStr (point_text x.2) ]}.

Definition election_key_value (k : ElectionKey) : Value :=
  mk_obj {[ "key" := VStr (point_text (ek_key k));
            "qualified" := VArr (VNum <$> ek_qualified k);
            "verification" := VArr (verification_value <$> bt_list (ek_verification k)) ]}.

Definition verification_entry (e : Value) : tresult (Z * Point) :=
  j ← index (json_index e "trustee") "trustee";
  y ← point (json_index e "key");
  Ok (j, y).

(** An [ElectionKey] as a voter's client passes it: [qualified] collected in a
    set, [verification] in a map, the last entry of a key kept. *)
Definition election_key (v : Value) (th : Threshold) : tresult ElectionKey :=
  ql ← array (json_index v "qualified") "qualified";
  qualified ← try_map (λ q, index q "qualified") ql;
  vl ← array (json_index v "verification") "verification";
  verification ← try_map verification_entry vl;
  k ← point (json_index v "key");
  Ok (mk_ek th k (bs_list (list_to_set qualified)) (list_to_map (rev verification))).

(** What a partial decryption is for. *)
Inductive Target :=
| Leaf (l : Z)
| OptionTotal (question option : string).
#[export] Instance Target_eq_dec : EqDecision Target.
Proof. solve_decision. Defined.

Definition target_value (t : Target) (ct : Ciphertext) : Value :=
  match t with
  | Leaf l => mk_obj {[ "leafIndex" := VNum l; "ciphertext" := ciphertext_value ct ]}
  | OptionTotal q o =>
      mk_obj {[ "question" := VStr q; "option" := VStr o; "ciphertext" := ciphertext_value ct ]}
  end.

Definition target (v : Value) : tresult (Target * Ciphertext) :=
  ct ← ciphertext (json_index v "ciphertext");
  t ← match json_get v "leafIndex" ≫= as_u64 with
      | Some l => Ok (Leaf l)
      | None =>
          q ← text (json_index v "question") "question";
          o ← text (json_index v "option") "option";
          Ok (OptionTotal q o)
      end;
  Ok (t, ct).

(** A [PartialDecryption] by [trustee]. *)
Definition partial (v : Value) (trustee : Z) : tresult (Target * Ciphertext * PartialDecryption) :=
  '(t, ct) ← target (json_index v "target");
  d ← point (json_index v "d");
  p ← chaum_pedersen (json_index v "proof");
  Ok (t, ct, mk_partial trustee d p).

Definition partial_value (t : Target) (ct : Ciphertext) (p : PartialDecryption) : Value :=
  mk_obj {[ "target" := target_value t ct;
            "d" := VStr (point_text (pd_d p));
            "proof" := sigma_value (cp_c (pd_proof p)) (cp_z (pd_proof p)) ]}.

Definition encrypted_option (o : Value) : tresult (Ciphertext * OneOf) :=
  ct ← ciphertext (json_index o "ciphertext");
  p ← one_of (json_index o "proof");
  Ok (ct, p).

(** An [EncryptedQuestion]: its key and the encryption. *)
Definition encrypted_question (v : Value) : tresult (string * EncryptedQuestion) :=
  ol ← array (json_index v "options") "options";
  options ← try_map encrypted_option ol;
  q ← text (json_index v "question") "question";
  p ← one_of (json_index v "sumProof");
  Ok (q, mk_eq options p).

Definition encrypted_option_value (x : Ciphertext * OneOf) : Value :=
  mk_obj {[ "ciphertext" := ciphertext_value x.1; "proof" := one_of_value x.2 ]}.

Definition encrypted_question_value (key : string) (q : EncryptedQuestion) : Value :=
  mk_obj {[ "question" := VStr key;
            "options" := VArr (encrypted_option_value <$> eq_options q);
            "sumProof" := one_of_value (eq_sum_proof q) ]}.
End Wire.

(** ** Round trips

    A [Codec] is a value with its wire form: what [wf] holds of decodes to
    itself. *)

Class Codec {A : Type} (enc : A → Value) (dec : Value → tresult A) (wf : A → Prop) :=
  codec_law x : wf x → dec (enc x) = Ok x.

Section RoundTrips.
Context `{D : Dalek, L : !DalekLaws} `{M : Multibase, ML : !MultibaseLaws}.

Definition u32 (z : Z) : Prop := 0 ≤ z ≤ u32_max.
Definition element (p : Point) : Prop := p ≠ p_identity.
Definition wf_ct (c : Ciphertext) : Prop := element (ct_a c) ∧ element (ct_b c).
Definition wf_tk (t : TransportKey) : Prop := u32 (tk_trustee t) ∧ element (tk_key t).
Definition wf_sealed (s : Sealed) : Prop := wf_ct (kem s).
Definition wf_sd (d : SealedDealing) : Prop :=
  u32 (dealer (sd_dealing d)) ∧ Forall element (commitments (sd_dealing d))
  ∧ map_Forall (λ r s, u32 r ∧ wf_sealed s) (sd_shares d).
Definition wf_ek (k : ElectionKey) : Prop :=
  element (ek_key k) ∧ Forall u32 (ek_qualified k)
  ∧ ek_qualified k = bs_list (list_to_set (ek_qualified k))
  ∧ map_Forall (λ j y, u32 j ∧ element y) (ek_verification k).
Definition wf_target (x : Target * Ciphertext) : Prop :=
  wf_ct x.2 ∧ match x.1 with Leaf l => 0 ≤ l ≤ u64_max | OptionTotal _ _ => True end.
Definition wf_eq (q : EncryptedQuestion) : Prop := Forall (λ o, wf_ct o.1) (eq_options q).

Lemma json_index_obj m k : json_index (mk_obj m) k = default VNull (m !! k).
Proof. unfold json_index. by rewrite json_get_mk_obj. Qed.

(** Members of the objects above. *)
Ltac members :=
  repeat first
    [ rewrite json_index_obj
    | rewrite lookup_insert_eq
    | rewrite lookup_insert_ne by done
    | rewrite lookup_singleton_eq
    | rewrite lookup_singleton_ne by done ]; simpl.

Lemma index_num z what : u32 z → index (VNum z) what = Ok z.
Proof.
  intros Hz. unfold index, as_u64. unfold u32, u32_max in Hz.
  rewrite bool_decide_eq_true_2 by (unfold u64_max; lia). simpl.
  unfold u32_try_from. by rewrite bool_decide_eq_true_2.
Qed.

#[local] Instance point_codec : Codec (λ p, VStr (point_text p)) point element.
Proof.
  intros p Hp. unfold point, text. simpl. rewrite point_text_decode.
  by rewrite decide_False.
Qed.

#[local] Instance ciphertext_codec : Codec ciphertext_value ciphertext wf_ct.
Proof.
  intros [a b] [Ha Hb]. unfold ciphertext, ciphertext_value. members.
  rewrite !(codec_law (enc := λ p, VStr (point_text p))) by done. done.
Qed.

Lemma sigma_sigma_value c z : sigma (sigma_value c z) = Ok (c, z).
Proof.
  unfold sigma, sigma_value. members. rewrite !scalar_text_decode. done.
Qed.

Lemma try_map_codec {A} enc dec (wf : A → Prop) `{!Codec enc dec wf} l :
  Forall wf l → try_map dec (enc <$> l) = Ok l.
Proof.
  intros Hl. apply try_map_ok, Forall2_fmap_l, Forall_Forall2_diag.
  eapply Forall_impl; [done|]. intros x Hx. by apply codec_law.
Qed.

#[local] Instance one_of_codec : Codec one_of_value one_of (λ _, True).
Proof.
  intros [ps] _. unfold one_of, one_of_value. simpl.
  assert (try_map sigma ((λ x, sigma_value x.1 x.2) <$> ps) = Ok ps) as ->; [|done].
  apply try_map_ok, Forall2_fmap_l, Forall_Forall2_diag, Forall_true.
  intros [c z]. apply sigma_sigma_value.
Qed.

#[local] Instance sealed_codec : Codec sealed_value sealed wf_sealed.
Proof.
  intros [k b] Hk. unfold sealed, sealed_value. members.
  unfold b58_decode. rewrite multibase_roundtrip. simpl. by rewrite (codec_law (enc := ciphertext_value)).
Qed.

#[local] Instance transport_key_codec : Codec transport_key_value transport_key wf_tk.
Proof.
  intros [i k [c z]] [Hi Hk]. unfold transport_key, transport_key_value. members.
  rewrite index_num by done. simpl. rewrite (codec_law (enc := λ p, VStr (point_text p))) by done. simpl.
  unfold schnorr. by rewrite sigma_sigma_value.
Qed.

Lemma dealing_share_value m r s :
  u32 r → wf_sealed s → m !! r = None → dealing_share m (share_value (r, s)) = Ok (<[r := s]> m).
Proof.
  intros Hr Hs Hn. unfold dealing_share, share_value. members.
  rewrite index_num by done. simpl. rewrite (codec_law (enc := sealed_value)) by done. simpl.
  by rewrite Hn.
Qed.

(** Reading back a [BTreeMap]'s entries, in any order without repetition. *)
Lemma dealing_shares_fold l (m0 : gmap Z Sealed) :
  NoDup l.*1 → Forall (λ x, m0 !! x.1 = None ∧ u32 x.1 ∧ wf_sealed x.2) l →
  try_fold dealing_share m0 (share_value <$> l) = Ok (list_to_map l ∪ m0).
Proof.
  revert m0. induction l as [|[r s] l IH]; intros m0 Hnd Hl; simpl.
  { by rewrite (left_id_L ∅ (∪)). }
  apply NoDup_cons in Hnd as [Hr Hnd]. apply Forall_cons in Hl as [(Hn & Hu & Hs) Hl].
  simpl in *. rewrite dealing_share_value by done. simpl. rewrite IH; [|done|].
  - f_equal. rewrite <- insert_union_r; [by rewrite insert_union_l|].
    by apply not_elem_of_list_to_map_1.
  - rewrite Forall_forall in Hl |- *. intros [r' s'] Hin. specialize (Hl _ Hin). simpl in *.
    rewrite lookup_insert_ne; [done|]. intros ->. apply Hr, list_elem_of_fmap. by exists (r', s').
Qed.

Lemma list_to_map_bt_list {V} (m : gmap Z V) : list_to_map (bt_list m) = m.
Proof.
  rewrite <- (list_to_map_to_list m) at 2. apply list_to_map_proper.
  - apply bt_keys_NoDup.
  - apply bt_list_Permutation.
Qed.

Lemma bt_list_Forall {V} (P : Z → V → Prop) m :
  map_Forall P m → Forall (λ x, P x.1 x.2) (bt_list m).
Proof.
  intros Hm. apply Forall_forall. intros [k v] Hin%elem_of_bt_list. by apply Hm.
Qed.

#[local] Instance dealing_codec : Codec dealing_value dealing wf_sd.
Proof.
  intros [[d cs [c z]] shares] (Hd & Hcs & Hs). unfold dealing, dealing_value. members.
  rewrite (try_map_codec (λ c, VStr (point_text c)) point element) by done. members.
  rewrite dealing_shares_fold; [|apply bt_keys_NoDup|].
  - simpl. rewrite index_num by done. simpl. unfold schnorr. rewrite sigma_sigma_value. simpl.
    by rewrite list_to_map_bt_list, (right_id_L ∅ (∪)).
  - eapply Forall_impl; [by apply (bt_list_Forall (λ r s, u32 r ∧ wf_sealed s))|].
    intros [r s] ?. by rewrite lookup_empty.
Qed.

#[local] Instance verification_codec :
  Codec verification_value verification_entry (λ x, u32 x.1 ∧ element x.2).
Proof.
  intros [j y] [Hj Hy]. unfold verification_entry, verification_value. members.
  rewrite index_num by done. simpl. by rewrite (codec_law (enc := λ p, VStr (point_text p))).
Qed.

#[local] Instance num_codec : Codec VNum (λ q, index q "qualified") u32.
Proof. intros z Hz. by apply index_num. Qed.

#[local] Instance election_key_codec th :
  Codec election_key_value (λ v, election_key v th) (λ k, ek_threshold k = th ∧ wf_ek k).
Proof.
  intros [th' k qs vs] [<- (Hk & Hqs & Hsorted & Hvs)]. simpl in *.
  unfold election_key, election_key_value. members.
  rewrite (try_map_codec VNum (λ q, index q "qualified") u32) by done. members.
  rewrite (try_map_codec verification_value verification_entry (λ x, u32 x.1 ∧ element x.2))
    by by apply (bt_list_Forall (λ j y, u32 j ∧ element y)).
  members. rewrite (codec_law (enc := λ p, VStr (point_text p))) by done. simpl.
  rewrite <- Hsorted. f_equal. f_equal.
  rewrite <- (list_to_map_bt_list vs) at 2. apply list_to_map_proper; [|symmetry; apply Permutation_rev].
  rewrite map_rev, <- Permutation_rev. apply bt_keys_NoDup.
Qed.

#[local] Instance target_codec : Codec (λ x, target_value x.1 x.2) target wf_target.
Proof.
  intros [[l|q o] ct] [Hct Hl]; simpl in *; unfold target, target_value; members;
    rewrite (codec_law (enc := ciphertext_value)) by done; simpl;
    rewrite json_get_mk_obj; members; [|done].
  by rewrite bool_decide_eq_true_2.
Qed.

Lemma partial_partial_value t ct p :
  wf_target (t, ct) → element (pd_d p) →
  partial (partial_value t ct p) (pd_trustee p) = Ok (t, ct, p).
Proof.
  intros Ht Hd. destruct p as [j d [c z]]. unfold partial, partial_value. members.
  pose proof (codec_law (enc := λ x, target_value x.1 x.2) (dec := target) (t, ct) Ht) as E.
  simpl in E. rewrite E. simpl.
  rewrite (codec_law (enc := λ p, VStr (point_text p))) by done. simpl.
  unfold chaum_pedersen. by rewrite sigma_sigma_value.
Qed.

#[local] Instance encrypted_option_codec :
  Codec encrypted_option_value encrypted_option (λ o, wf_ct o.1).
Proof.
  intros [ct p] Hct. unfold encrypted_option, encrypted_option_value. members.
  rewrite (codec_law (enc := ciphertext_value)) by done. simpl.
  by rewrite (codec_law (enc := one_of_value)).
Qed.

Lemma encrypted_question_encode key q :
  wf_eq q → encrypted_question (encrypted_question_value key q) = Ok (key, q).
Proof.
  intros Hq. destruct q as [os p]. unfold encrypted_question, encrypted_question_value. members.
  rewrite (try_map_codec encrypted_option_value encrypted_option (λ o, wf_ct o.1)) by done. members.
  by rewrite (codec_law (enc := one_of_value)).
Qed.

(** Every wire form of the encrypted levels reads back as what was
    written, where no element is the identity: a trustee's transport key and
    dealing (with its map of sealed shares), the election key, a partial
    decryption with its target, and a voter's encrypted question. So what the
    board carries is exactly what the parties signed for. *)
Theorem wire_roundtrip tk sd ek t ct p key q :
  wf_tk tk → wf_sd sd → wf_ek ek → wf_target (t, ct) → element (pd_d p) → wf_eq q →
  transport_key (transport_key_value tk) = Ok tk ∧
  dealing (dealing_value sd) = Ok sd ∧
  election_key (election_key_value ek) (ek_threshold ek) = Ok ek ∧
  partial (partial_value t ct p) (pd_trustee p) = Ok (t, ct, p) ∧
  encrypted_question (encrypted_question_value key q) = Ok (key, q).
Proof.
  intros Htk Hsd Hek Ht Hd Hq. repeat split.
  - by apply (codec_law (enc := transport_key_value)).
  - by apply (codec_law (enc := dealing_value)).
  - exact (election_key_codec _ ek (conj eq_refl Hek)).
  - by apply partial_partial_value.
  - by apply encrypted_question_encode.
Qed.
End RoundTrips.

Section Witness.
#[local] Existing Instance ToyGroup.dalek.
#[local] Existing Instance ToyGroup.laws.
#[local] Existing Instance Toy.multibase.
#[local] Existing Instance Toy.multibase_laws.

Definition toy_el (z : Z) : Point := ToyGroup.red z.
Definition toy_sigma : Schnorr := mk_schnorr (scalar_from 3) (scalar_from 4).
Definition toy_ct : Ciphertext := mk_ct (toy_el 5) (toy_el 6).
Definition toy_sd : SealedDealing :=
  mk_sealed_dealing (mk_dealing 1 [toy_el 2; toy_el 3] toy_sigma) {[ 2 := mk_sealed toy_ct [x01; x02] ]}.
Definition toy_ek : ElectionKey :=
  mk_ek (mk_threshold 2 3) (toy_el 9) [1; 2] {[ 1 := toy_el 4; 2 := toy_el 8 ]}.

Lemma wire_roundtrip_witness :
  transport_key (transport_key_value (mk_tk 1 (toy_el 7) toy_sigma)) = Ok (mk_tk 1 (toy_el 7) toy_sigma)
  ∧ dealing (dealing_value toy_sd) = Ok toy_sd.
Proof.
  assert (∀ z, bool_decide (toy_el z ≠ p_identity) = true → element (toy_el z)) as Hel.
  { intros z Hz. by apply bool_decide_eq_true in Hz. }
  edestruct (wire_roundtrip (mk_tk 1 (toy_el 7) toy_sigma) toy_sd toy_ek (Leaf 3) toy_ct
    (mk_partial 1 (toy_el 5) (mk_cp (scalar_from 1) (scalar_from 2))) "q"
    (mk_eq [(toy_ct, mk_one_of [])] (mk_one_of []))) as (Htk & Hsd & _);
    [..|split; [exact Htk|exact Hsd]].
  - split; [done|by apply Hel].
  - split; [done|]. split; [repeat constructor; by apply Hel|].
    apply map_Forall_singleton. split; [done|]. split; by apply Hel.
  - split; [by apply Hel|]. split; [by repeat constructor|]. split; [by vm_compute|].
    apply map_Forall_insert_2; [split; [done|by apply Hel]|].
    apply map_Forall_singleton. split; [done|by apply Hel].
  - split; [split; by apply Hel|done].
  - by apply Hel.
  - repeat constructor; by apply Hel.
Defined.
End Witness.
