(* ===== verification/Steps.v ===== *)
(** * The trustees' steps on the board

    [vti-voting/src/steps.rs]: a trustee's signed request as a step of the
    ceremony, the signers proven for a board's requests, and the replay a
    trustee's or a voter's client runs in place of trusting the ballot box.

    The request payloads' types are generated from the schemas: [StepTasks]
    has each task's type URI and whether a payload parses as its type. The
    verifier of a request's proof resolves DIDs: an argument of [prove], run
    in order and keeping a state of its own. *)

From S2P Require Import Prelude Election Json Group Trustees Ceremony Wire.

Class StepTasks := {
  ENROL_URI : string;
  DEAL_URI : string;
  CONFIRM_URI : string;
  JUSTIFY_URI : string;
  (** [serde_json::from_value::<P>] of a payload: its refusal, if any. *)
  parse_enrol : Value → result string unit;
  parse_deal : Value → result string unit;
  parse_confirm : Value → result string unit;
  parse_justify : Value → result string unit;
}.

Section Steps.
Context `{Dalek, Multibase, Sha256, Sha512, Random, Aead, Jcs, StepTasks}.

(** The board entry kind, and the kinds it replaced. *)
Definition KIND : string := "trusteeStep".
Definition RETIRED_KINDS : list string :=
  ["transportKey"; "dealing"; "confirmation"; "justification"].

(** The board entry for a request, as received. *)
Definition entry (request : Value) : Value :=
  mk_obj {[ "kind" := VStr KIND; "request" := request ]}.

(** One step of the key ceremony. *)
Inductive TrusteeStep :=
| Enrol (tk : TransportKey)
| Deal (d : SealedDealing)
| Confirm (trustee : Z) (against : gset Z)
| Justify (d r : Z) (share : Scalar).

(** [TrusteeStep::apply]: the step through the ceremony. *)
Definition apply_step (s : TrusteeStep) (c : Ceremony) : option (result CeremonyError Step * Ceremony) :=
  match s with
  | Enrol tk => Some (enrol c tk)
  | Deal d => Some (deal_step c d)
  | Confirm t a => confirm c t a
  | Justify d r v => justify c d r v
  end.

(** Why a request is not a step of this election's ceremony. *)
Inductive StepError :=
| NotAStep (ty : string)
| OtherElection
| NotTheTrustee (trustee : Z)
| Unproven
| StepMalformed (why : string).

Definition step_error_text (e : StepError) : string :=
  match e with
  | NotAStep ty => "not a trustee step: " +:+ ty
  | OtherElection => "a step of another election"
  | NotTheTrustee j => "its issuer is not the trustee the manifest names at index " +:+ pretty j
  | Unproven => "its proof is not its issuer's"
  | StepMalformed why => why
  end.

(** The election a step must belong to: trustee [j] is [se_trustees !! (j - 1)]. *)
Record StepElection := mk_step_election {
  se_community : string;
  se_election_id : string;
  se_trustees : list string;
}.

Definition parsed (r : result string unit) : result StepError unit := map_err StepMalformed r.

Definition step_index (v : Value) : result StepError Z :=
  ok_or (as_u64 v ≫= u32_try_from) (StepMalformed "a trustee index").

Definition malformed {A} (r : tresult A) : result StepError A :=
  map_err (λ e, StepMalformed (trustee_error_text e)) r.

(** The trustee the payload names and its step, by the request's type. *)
Definition read_payload (ty : string) (payload : Value) : result StepError (Z * TrusteeStep) :=
  if String.eqb ty ENROL_URI then
    _ ← parsed (parse_enrol payload);
    tk ← malformed (transport_key (json_index payload "transportKey"));
    j ← step_index (json_index (json_index payload "transportKey") "trustee");
    Ok (j, Enrol tk)
  else if String.eqb ty DEAL_URI then
    _ ← parsed (parse_deal payload);
    d ← malformed (dealing (json_index payload "dealing"));
    j ← step_index (json_index (json_index payload "dealing") "dealer");
    Ok (j, Deal d)
  else if String.eqb ty CONFIRM_URI then
    _ ← parsed (parse_confirm payload);
    j ← step_index (json_index payload "trustee");
    against ← match as_array (json_index payload "complaints") with
              | None => Ok []
              | Some a => try_map step_index a
              end;
    Ok (j, Confirm j (list_to_set against))
  else if String.eqb ty JUSTIFY_URI then
    _ ← parsed (parse_justify payload);
    d ← step_index (json_index payload "dealer");
    v ← malformed (scalar_from_text (default "" (as_str (json_index payload "share"))));
    r ← step_index (json_index payload "recipient");
    Ok (d, Justify d r v)
  else Err (NotAStep ty).

(** [trustee.checked_sub(1).and_then(|i| trustees.get(i))]. *)
Definition named_trustee (trustees : list string) (j : Z) : option string :=
  if 1 <=? j then trustees !! Z.to_nat (j - 1) else None.

(** A request as a step of the election, given the party proven to have
    signed it. *)
Definition read (request : Value) (el : StepElection) (signer : string) : result StepError TrusteeStep :=
  let ty := default "" (as_str (json_index request "type")) in
  let payload := json_index request "payload" in
  _ ← guard_err (bool_decide (as_str (json_index request "issuer") ≠ Some signer)) Unproven;
  _ ← guard_err (bool_decide (as_str (json_index payload "community") ≠ Some (se_community el))
                 || bool_decide (as_str (json_index payload "electionId") ≠ Some (se_election_id el)))
        OtherElection;
  '(j, step) ← read_payload ty payload;
  _ ← guard_err (bool_decide (named_trustee (se_trustees el) j ≠ Some signer)) (NotTheTrustee j);
  Ok step.

(** The signers proven for the requests on a board, by the requests' digests. *)
Record ProvenRequests := mk_proven { signers : gmap Hash string }.

Definition digest (request : Value) : option Hash := sha256 <$> ok (jcs_to_vec request).

(** The entries that carry a request whose signer matters. *)
Definition carries_request (e : Value) : bool :=
  bool_decide (json_index e "kind" = VStr KIND)
  || bool_decide (json_index e "kind" = VStr "decryptionAuthorized").

(** [ProvenRequests::prove]: the verifier asked in order. *)
Definition prove_entry {S} (verify : S → Value → option string * S)
    (acc : gmap Hash string * S) (e : Value) : gmap Hash string * S :=
  let request := json_index e "request" in
  let d := digest request in
  let '(signer, st) := verify acc.2 request in
  match d, signer with
  | Some d, Some s => (<[d := s]> acc.1, st)
  | _, _ => (acc.1, st)
  end.

Definition prove {S} (verify : S → Value → option string * S) (entries : list Value) (st : S)
  : ProvenRequests * S :=
  let '(m, st) := fold_left (prove_entry verify) (filter carries_request entries) (∅, st) in
  (mk_proven m, st).

Definition prove_requests {S} (verify : S → Value → option string * S) (requests : list Value) (st : S)
  : ProvenRequests * S := prove verify (entry <$> requests) st.

(** The proven signer of [request], if any. *)
Definition signer (p : ProvenRequests) (request : Value) : option string :=
  digest request ≫= λ d, signers p !! d.

(** [CeremonyError]'s message. *)
Definition ceremony_error_text (e : CeremonyError) : string :=
  match e with
  | NotEnrolling => "the ceremony is not enrolling"
  | AlreadyEnrolled => "this trustee has already published another transport key"
  | TransportKeyInvalid => "the transport key's proof does not verify"
  | NotDealing => "the ceremony is not dealing"
  | AlreadyDealt => "this trustee has already published another dealing"
  | CeremonyDealingInvalid why => "the dealing does not hold together: " +:+ why
  | NotConfirming => "the ceremony is not confirming"
  | AlreadyConfirmed => "this trustee has already confirmed otherwise"
  | NoComplaint => "the recipient has not complained of this dealer"
  | CeremonyShareInvalid => "the share does not match the dealer's commitments"
  | NotDecrypting => "there is nothing to decrypt"
  | CeremonyPartialInvalid why => "a partial decryption does not verify: " +:+ why
  | Malformed why => why
  end.

(** One request of [replay], the [i]-th. *)
Definition replay_one (el : StepElection) (proven : ProvenRequests) (i : nat) (c : Ceremony) (r : Value)
  : option (result string Ceremony) :=
  match signer proven r with
  | None => Some (Err ("step " +:+ pretty i +:+ ": " +:+ step_error_text Unproven))
  | Some who =>
      match read r el who with
      | Err e => Some (Err ("step " +:+ pretty i +:+ ": " +:+ step_error_text e))
      | Ok step =>
          '(out, c') ← apply_step step c;
          Some (match out with
                | Ok _ => Ok c'
                | Err e => Err ("step " +:+ pretty i +:+ ": " +:+ ceremony_error_text e)
                end)
      end
  end.

Fixpoint replay_from (el : StepElection) (proven : ProvenRequests) (i : nat) (c : Ceremony)
    (requests : list Value) : option (result string Ceremony) :=
  match requests with
  | [] => Some (Ok c)
  | r :: rest =>
      o ← replay_one el proven i c r;
      match o with
      | Err e => Some (Err e)
      | Ok c' => replay_from el proven (S i) c' rest
      end
  end.

(** The ceremony [requests] establish, and its deadline once it has passed. *)
Definition replay (requests : list Value) (el : StepElection) (th : Threshold) (cx : bytes)
    (proven : ProvenRequests) (deadline_passed : bool) : option (result string Ceremony) :=
  o ← replay_from el proven 0 (ceremony_new th cx) requests;
  match o with
  | Err e => Some (Err e)
  | Ok c => if deadline_passed then '(_, c') ← deadline c; Some (Ok c') else Some (Ok c)
  end.

(** ** What a request vouches for *)

(** [r] is trustee [j]'s own step [step] of the election. *)
Record taken_by (el : StepElection) (proven : ProvenRequests) (j : Z) (step : TrusteeStep) (r : Value)
  : Prop := {
  taken_trustee : 1 ≤ j ≤ u32_max;
  taken_signer : ∃ who, signer proven r = Some who
    ∧ named_trustee (se_trustees el) j = Some who
    ∧ as_str (json_index r "issuer") = Some who;
  taken_election :
    as_str (json_index (json_index r "payload") "community") = Some (se_community el)
    ∧ as_str (json_index (json_index r "payload") "electionId") = Some (se_election_id el);
  taken_step :
    read_payload (default "" (as_str (json_index r "type"))) (json_index r "payload") = Ok (j, step);
}.

(** The trustee whose step it is. *)
Definition step_trustee (s : TrusteeStep) : Z :=
  match s with
  | Enrol tk => tk_trustee tk
  | Deal d => dealer (sd_dealing d)
  | Confirm t _ => t
  | Justify d _ _ => d
  end.

Definition op_of (s : TrusteeStep) : CeremonyOp :=
  match s with
  | Enrol tk => OpEnrol tk
  | Deal d => OpDeal d
  | Confirm t a => OpConfirm t a
  | Justify d r v => OpJustify d r v
  end.

Lemma apply_step_op s c : apply_step s c = ceremony_step c (op_of s).
Proof. by destruct s. Qed.

Lemma step_index_ok v j : step_index v = Ok j ↔ as_u64 v ≫= u32_try_from = Some j.
Proof. unfold step_index. by rewrite ok_or_ok. Qed.

Lemma u32_try_from_some o j : o ≫= u32_try_from = Some j → 0 ≤ j ≤ u32_max.
Proof.
  destruct o as [z|]; [|done]. simpl. unfold u32_try_from. case_bool_decide; [|done].
  by intros [= <-].
Qed.

Lemma index_step_index v what j : index v what = Ok j → step_index v = Ok j.
Proof. unfold index, step_index, bad. destruct (as_u64 v ≫= u32_try_from); naive_solver. Qed.

Lemma transport_key_trustee v tk :
  transport_key v = Ok tk → step_index (json_index v "trustee") = Ok (tk_trustee tk).
Proof.
  unfold transport_key. repeat setoid_rewrite bind_ok.
  by intros (i & Hi%index_step_index & ? & _ & ? & _ & [= <-]).
Qed.

Lemma dealing_dealer v d :
  dealing v = Ok d → step_index (json_index v "dealer") = Ok (dealer (sd_dealing d)).
Proof.
  unfold dealing. repeat setoid_rewrite bind_ok.
  by intros (? & _ & ? & _ & ? & _ & ? & _ & i & Hi%index_step_index & ? & _ & [= <-]).
Qed.

Lemma read_payload_ok ty payload j step :
  read_payload ty payload = Ok (j, step) → j = step_trustee step ∧ 0 ≤ j ≤ u32_max ∧ u32_op (op_of step).
Proof.
  unfold read_payload, malformed, parsed.
  repeat case_match; intros Hr; [..|done]; revert Hr; repeat setoid_rewrite bind_ok;
    repeat setoid_rewrite map_err_ok.
  - intros (_ & _ & tk & Htk%transport_key_trustee & j' & Hj & [= <- <-]). simpl.
    assert (j' = tk_trustee tk) as -> by congruence.
    apply step_index_ok, u32_try_from_some in Hj. lia.
  - intros (_ & _ & d & Hd%dealing_dealer & j' & Hj & [= <- <-]). simpl.
    assert (j' = dealer (sd_dealing d)) as -> by congruence.
    apply step_index_ok, u32_try_from_some in Hj. lia.
  - intros (_ & _ & j' & Hj & against & Ha & [= <- <-]). simpl.
    apply step_index_ok, u32_try_from_some in Hj. split; [done|]. split; [done|]. split; [lia|].
    intros d Hd%elem_of_list_to_set. apply try_map_ok in Ha. apply list_elem_of_lookup in Hd as [i Hi].
    destruct (Forall2_lookup_r _ _ _ _ _ Ha Hi) as (x & _ & Hx%step_index_ok).
    apply u32_try_from_some in Hx. lia.
  - intros (_ & _ & j' & Hj & against & [= <-] & [= <- <-]). simpl.
    apply step_index_ok, u32_try_from_some in Hj. split; [done|]. split; [done|]. split; [lia|].
    by intros d ?%elem_of_empty.
  - intros (_ & _ & d & Hd & v & _ & r & Hr & [= <- <-]). simpl.
    apply step_index_ok, u32_try_from_some in Hd. apply step_index_ok, u32_try_from_some in Hr. lia.
Qed.

Lemma read_ok el proven r who step :
  signer proven r = Some who → read r el who = Ok step →
  taken_by el proven (step_trustee step) step r ∧ u32_op (op_of step).
Proof.
  intros Hw. unfold read. rewrite bind_unit_ok, guard_ok, bool_decide_eq_false, bind_unit_ok, guard_ok.
  rewrite orb_false_iff, !bool_decide_eq_false, bind_ok.
  intros (Hi%dec_stable & [Hc%dec_stable He%dec_stable] & [j st] & Hrp & Hn). revert Hn.
  rewrite bind_unit_ok, guard_ok, bool_decide_eq_false. intros [Hn%dec_stable [= ->]].
  destruct (read_payload_ok _ _ _ _ Hrp) as (-> & Hj & Hu). split; [|done].
  assert (1 ≤ step_trustee step) by (unfold named_trustee in Hn; case_match; [lia|done]).
  split; [lia|by exists who|done|done].
Qed.

(** ** What a ceremony holds was put there by a step *)

Record attributed (P : Z → TrusteeStep → Prop) (c : Ceremony) : Prop := {
  att_transport j tk : transport c !! j = Some tk → P j (Enrol tk);
  att_dealings j sd : dealings c !! j = Some sd → P j (Deal sd);
  att_confirmed j s : confirmed c !! j = Some s → P j (Confirm j s);
  att_justified d r v : justified c !! (d, r) = Some v → P d (Justify d r v);
}.

Definition same_records (c c' : Ceremony) : Prop :=
  transport c' = transport c ∧ dealings c' = dealings c
  ∧ confirmed c' = confirmed c ∧ justified c' = justified c.

Lemma attributed_same P c c' : same_records c c' → attributed P c → attributed P c'.
Proof. intros (Ht & Hd & Hc & Hj) []. split; rewrite ?Ht, ?Hd, ?Hc, ?Hj; eauto. Qed.

Lemma form_records c c' : form c = Some c' → same_records c c'.
Proof.
  unfold form. case_bool_decide; [by intros [= <-]|].
  destruct (mapM _ _); [|done]. simpl. destruct (from_dealings _ _ _); by intros [= <-].
Qed.

Lemma form_if_complete_records c c' : form_if_complete c = Some c' → same_records c c'.
Proof. unfold form_if_complete. case_match; [apply form_records|by intros [= <-]]. Qed.

Lemma deadline_records c b c' : deadline c = Some (b, c') → same_records c c'.
Proof.
  unfold deadline. intros Hd. destruct (phase c); simplify_eq/=; try done.
  destruct (form c) eqn:Hf; simplify_eq/=. by apply form_records.
Qed.

Lemma attributed_step P s c o c' :
  attributed P c → P (step_trustee s) s → apply_step s c = Some (o, c') → attributed P c'.
Proof.
  intros HP HPs. destruct s as [tk|d|t a|d r v]; simpl in *.
  - unfold enrol. intros Hs. repeat case_match; simplify_eq; try done;
      (destruct HP; split; simpl; [|eauto..]);
      by intros j tk' [[<- <-]|[_ ?]]%lookup_insert_Some; eauto.
  - unfold deal_step. intros Hs. repeat case_match; simplify_eq; try done;
      (destruct HP; split; simpl; [eauto| |eauto..]);
      by intros j d' [[<- <-]|[_ ?]]%lookup_insert_Some; eauto.
  - unfold confirm. intros Hs. repeat case_match; simplify_eq; try done.
    destruct (form_if_complete _) as [c1|] eqn:Hf; simplify_eq/=.
    apply form_if_complete_records in Hf. eapply attributed_same; [done|].
    destruct HP; split; simpl; [eauto..| |eauto].
    by intros j s [[<- <-]|[_ ?]]%lookup_insert_Some; eauto.
  - unfold justify. intros Hs. repeat case_match; simplify_eq; try done.
    all: destruct (dealings c !! d) as [sd|]; [|done]; simpl in Hs.
    all: destruct (verify_share _ _); simplify_eq/=; [|done].
    all: destruct (form_if_complete _) as [c1|] eqn:Hf; simplify_eq/=.
    all: apply form_if_complete_records in Hf; eapply attributed_same; [done|].
    all: destruct HP; split; simpl; [eauto..|].
    all: by intros d' r' w [[[= <- <-] <-]|[_ ?]]%lookup_insert_Some; eauto.
Qed.

Lemma replay_one_ok el proven i c r c' :
  replay_one el proven i c r = Some (Ok c') →
  ∃ step o, taken_by el proven (step_trustee step) step r ∧ u32_op (op_of step)
            ∧ apply_step step c = Some (o, c').
Proof.
  unfold replay_one. destruct (signer proven r) as [who|] eqn:Hw; [|done].
  destruct (read r el who) as [step|e] eqn:Hr; [|done].
  destruct (apply_step step c) as [[o c1]|] eqn:Ha; [|done]. simpl.
  destruct o; intros [= <-]. exists step, (Ok a).
  destruct (read_ok _ _ _ _ _ Hw Hr). done.
Qed.

Lemma replay_from_ok P el proven th cx i c rs c' :
  (∀ j step r, r ∈ rs → taken_by el proven j step r → P j step) →
  replay_from el proven i c rs = Some (Ok c') → reachable th cx c → attributed P c →
  reachable th cx c' ∧ attributed P c'.
Proof.
  intros HP. revert i c. induction rs as [|r rs IH]; intros i c; simpl; [by intros [= ->]|].
  destruct (replay_one _ _ _ _ _) as [[c1|]|] eqn:Ho; [|done..]. simpl. intros Hr Hc Ha.
  destruct (replay_one_ok _ _ _ _ _ _ Ho) as (step & o & Ht & Hu & Happ).
  eapply IH; [|done|..].
  - intros j s' r' Hin. apply HP. by apply list_elem_of_further.
  - eapply reach_step; [done..|]. by rewrite <- apply_step_op.
  - eapply attributed_step; [done| |done]. eapply HP; [apply list_elem_of_here|done].
Qed.

(** C34 (every step is the trustee's own, VTI-VOT-062). A ceremony a client
    replays from a board's requests is a reachable one, and each transport
    key, dealing, confirmation and justification it holds came in a request
    of this election whose proven signer is the trustee the manifest names at
    that index: nobody else, the ballot box included, can enrol, deal or
    confirm in a trustee's name. *)
Theorem replay_attributed requests el th cx proven passed c :
  replay requests el th cx proven passed = Some (Ok c) →
  reachable th cx c ∧ attributed (λ j step, ∃ r, r ∈ requests ∧ taken_by el proven j step r) c.
Proof.
  unfold replay. destruct (replay_from _ _ _ _ _) as [[c1|]|] eqn:Hr; [|done..]. simpl.
  destruct (replay_from_ok (λ j step, ∃ r, r ∈ requests ∧ taken_by el proven j step r)
    el proven th cx 0 (ceremony_new th cx) requests c1) as [Hreach Hatt]; [by eauto|done|by constructor|..].
  { by split; intros *; simpl; rewrite lookup_empty. }
  destruct passed; [|by intros [= <-]].
  destruct (deadline c1) as [[b c2]|] eqn:Hd; [|done]. simpl. intros [= <-]. split.
  - eapply (reach_step _ _ c1 OpDeadline); [done..|]. simpl. by rewrite Hd.
  - eapply attributed_same; [by eapply deadline_records|done].
Qed.

(** ** The proven signers *)

(** [verify] vouched for the signer of [request], in some state. *)
Definition vouched {S} (verify : S → Value → option string * S) (request : Value) (who : string) : Prop :=
  ∃ st, (verify st request).1 = Some who.

Lemma prove_fold {S} (verify : S → Value → option string * S) es acc d who :
  (fold_left (prove_entry verify) es acc).1 !! d = Some who →
  acc.1 !! d = Some who ∨ ∃ e, e ∈ es ∧ digest (json_index e "request") = Some d
                             ∧ vouched verify (json_index e "request") who.
Proof.
  revert acc. induction es as [|e es IH]; intros [m st]; simpl; [by left|].
  intros [Hm|(e' & Hin & ? & ?)]%IH; [|right; exists e'; split; [by right|done]].
  revert Hm. unfold prove_entry. simpl. destruct (verify st _) as [[w|] st'] eqn:Hv;
    destruct (digest _) as [d'|] eqn:Hd; simpl; try (by left).
  intros [[-> ->]|[_ ?]]%lookup_insert_Some; [right|by left].
  exists e. split; [left|]. split; [done|]. exists st. by rewrite Hv.
Qed.

(** A signer comes from the verifier, asked about a request of the board with
    the same canonical bytes unless two inputs collide. *)
Lemma prove_sound {S} (verify : S → Value → option string * S) entries st0 request who b :
  signer (prove verify entries st0).1 request = Some who → jcs_to_vec request = Ok b →
  ∃ e b', e ∈ entries ∧ carries_request e = true ∧ jcs_to_vec (json_index e "request") = Ok b'
    ∧ vouched verify (json_index e "request") who ∧ (b' = b ∨ is_collision (b', b)).
Proof.
  unfold signer, prove. destruct (fold_left _ _ _) as [m st] eqn:Hf. simpl.
  unfold digest at 1. intros Hs Hb. rewrite Hb in Hs. simpl in Hs.
  assert ((fold_left (prove_entry verify) (filter carries_request entries) (∅, st0)).1
            !! sha256 b = Some who) as Hin by by rewrite Hf.
  apply prove_fold in Hin as [Hm|(e & He & Hd & Hv)]; [simpl in Hm; by rewrite lookup_empty in Hm|].
  apply list_elem_of_filter in He as [Hc%Is_true_true He].
  unfold digest in Hd. destruct (jcs_to_vec (json_index e "request")) as [b'|] eqn:Hb'; simplify_eq/=.
  exists e, b'. split_and!; try done. destruct (decide (b' = b)); [by left|right]. by split.
Qed.
End Steps.

(** ** The toy ceremony on a board *)

Module ToySteps.
Import ToyTrustees.
#[export] Existing Instances Toy.multibase Toy.multibase_laws toy_jcs.

#[export] Instance tasks : StepTasks := {|
  ENROL_URI := "enrol"; DEAL_URI := "deal"; CONFIRM_URI := "confirm"; JUSTIFY_URI := "justify";
  parse_enrol := λ _, Ok (); parse_deal := λ _, Ok ();
  parse_confirm := λ _, Ok (); parse_justify := λ _, Ok ();
|}.

Definition el : StepElection := mk_step_election "c" "e" ["t1"; "t2"; "t3"].

(** Trustee [j]'s request carrying [fields]. *)
Definition request (ty : string) (j : Z) (fields : gmap string Value) : Value :=
  mk_obj {[ "type" := VStr ty; "issuer" := VStr ("t" +:+ pretty j);
            "payload" := mk_obj (<["community" := VStr "c"]> (<["electionId" := VStr "e"]> fields)) ]}.

Definition enrolment (j : Z) : Value :=
  request "enrol" j {[ "transportKey" := transport_key_value (ToyCeremony.tk_of j) ]}.
Definition enrolments : list Value := enrolment <$> [1; 2; 3].

(** A verifier that vouches for every issuer. *)
Definition trusting (st : unit) (r : Value) : option string * unit := (as_str (json_index r "issuer"), st).
Definition proven : ProvenRequests := (prove_requests trusting enrolments ()).1.

Definition replayed : option (result string Ceremony) := replay enrolments el th [] proven false.
Definition ended (o : option (result string Ceremony)) : Ceremony :=
  match o with Some r => unwrap_or r (ceremony_new th []) | None => ceremony_new th [] end.
Definition has_ended (o : option (result string Ceremony)) : bool :=
  match o with Some r => is_ok r | None => false end.
Lemma ended_some o : has_ended o = true → o = Some (Ok (ended o)).
Proof. by destruct o as [[]|]. Qed.
Definition enrolled : Ceremony := ended replayed.

Lemma replay_attributed_witness :
  phase enrolled = Dealing_ ∧ reachable th [] enrolled.
Proof.
  split; [vm_compute; reflexivity|].
  eapply (replay_attributed enrolments el th [] proven false).
  apply (ended_some replayed). vm_compute. reflexivity.
Defined.
End ToySteps.
