(* ===== verification/Host.v ===== *)
(** * What the ballot box is given

    The ballot box of [vti-voting/src/service/] answers requests for a host.
    This file has the parts around it: its refusals, the libraries and the
    generated wire types it uses (classes), the journal it writes to, and the
    monad its handlers run in.

    A handler's computation threads a state and may fail or panic: [M S A] is
    [S → option (result Failure A * S)], [None] a panic. A failure keeps the
    state reached, as an early return from a method on [&mut self] does. *)

From S2P Require Import Prelude Json Election Board BallotBox Rules Tally.

(** ** Refusals *)

Record Failure := mk_failure { f_local : string; f_standard : bool; f_reason : string }.
#[export] Instance Failure_eq_dec : EqDecision Failure.
Proof. solve_decision. Defined.

Definition f_task (loc reason : string) : Failure := mk_failure loc false reason.
Definition f_std (loc reason : string) : Failure := mk_failure loc true reason.
Definition f_malformed (reason : string) : Failure := f_std "malformedRequest" reason.
Definition f_denied : Failure := f_std "permissionDenied" "the signer may not do this".
Definition f_unknown : Failure :=
  f_task "electionUnknown" "no such election, or not visible to the caller".
Definition journal_failure (reason : string) : Failure :=
  f_std "internalError" ("journal: " +:+ reason).

(** [RuleError]'s and [BoardError]'s messages. *)
Definition rule_error_text (e : RuleError) : string :=
  match e with
  | InvalidManifest why => "invalid manifest: " +:+ why
  | UnsupportedSecrecy level => "secrecy level " +:+ level +:+ " is not served by this version"
  | ManifestMismatch => "the ballot names another election or manifest"
  | BallotInvalid why => "invalid ballot: " +:+ why
  | RuleSerialization why => "serialization: " +:+ why
  end.

Definition board_error_text (e : BoardError) : string :=
  match e with
  | SizeOutOfRange size len =>
      "tree size " +:+ pretty size +:+ " exceeds the log's " +:+ pretty len
  | LeafOutOfRange index size =>
      "leaf " +:+ pretty index +:+ " is not within a tree of size " +:+ pretty size
  | BadSizes first second =>
      "consistency needs 0 < first (" +:+ pretty first +:+ ") <= second (" +:+ pretty second +:+ ")"
  end.

(** [From<RuleError> for Failure]. *)
Definition rule_failure (e : RuleError) : Failure :=
  let reason := rule_error_text e in
  match e with
  | InvalidManifest _ => f_task "invalidManifest" reason
  | UnsupportedSecrecy _ => f_task "unsupportedSecrecy" reason
  | ManifestMismatch => f_task "manifestMismatch" reason
  | BallotInvalid _ => f_task "ballotInvalid" reason
  | RuleSerialization _ => f_malformed reason
  end.

(** ** The monad *)

Definition M (S A : Type) : Type := S → option (result Failure A * S).

#[export] Instance M_ret {S} : MRet (M S) := λ A a s, Some (Ok a, s).
#[export] Instance M_bind {S} : MBind (M S) := λ A B f m s,
  match m s with
  | Some (Ok a, s') => f a s'
  | Some (Err e, s') => Some (Err e, s')
  | None => None
  end.

Definition fail {S A} (e : Failure) : M S A := λ s, Some (Err e, s).
Definition panic {S A} : M S A := λ _, None.
(** The [?] operator on a result. *)
Definition try {S A} (r : result Failure A) : M S A := λ s, Some (r, s).
(** [expect] and indexing. *)
Definition expect {S A} (o : option A) : M S A :=
  λ s, match o with Some a => Some (Ok a, s) | None => None end.
(** A pure step that may panic. *)
Definition try_or_panic {S A} (o : option (result Failure A)) : M S A :=
  λ s, match o with Some r => Some (r, s) | None => None end.
Definition gets {S A} (f : S → A) : M S A := λ s, Some (Ok (f s), s).
Definition modify {S} (f : S → S) : M S unit := λ s, Some (Ok (), f s).
Definition when {S} (c : bool) (m : M S unit) : M S unit := if c then m else mret ().
Definition refuse_if {S} (c : bool) (e : Failure) : M S unit := if c then fail e else mret ().

(** A [for] loop. *)
Fixpoint for_each {S A} (l : list A) (f : A → M S unit) : M S unit :=
  match l with
  | [] => mret ()
  | a :: l' => _ ← f a; for_each l' f
  end.

(** *** Reasoning *)

Lemma bind_run {S A B} (m : M S A) (f : A → M S B) s a s' :
  m s = Some (Ok a, s') → (m ≫= f) s = f a s'.
Proof. unfold mbind, M_bind. by intros ->. Qed.

Lemma bind_run_inv {S A B} (m : M S A) (f : A → M S B) s b s'' :
  (m ≫= f) s = Some (Ok b, s'') → ∃ a s', m s = Some (Ok a, s') ∧ f a s' = Some (Ok b, s'').
Proof.
  unfold mbind, M_bind. destruct (m s) as [[[a|e] s']|]; [|done..]. intros Hf. by exists a, s'.
Qed.

Lemma refuse_if_inv {S} c e (s : S) u s' : refuse_if c e s = Some (Ok u, s') → c = false ∧ s' = s.
Proof. destruct c; by intros [= <-]. Qed.

Lemma try_inv {S A} (x : result Failure A) (s : S) a s' : try x s = Some (Ok a, s') → x = Ok a ∧ s' = s.
Proof. by intros [= -> ->]. Qed.

Lemma for_each_app {S A} (l1 l2 : list A) (f : A → M S unit) s s' :
  for_each l1 f s = Some (Ok (), s') → for_each (l1 ++ l2) f s = for_each l2 f s'.
Proof.
  revert s. induction l1 as [|a l1 IH]; intros s; simpl; [by intros [= ->]|].
  intros (u & s1 & Ha & Hl)%bind_run_inv. rewrite (bind_run _ _ _ _ _ Ha). by apply IH.
Qed.

(** *** What a computation does to the state

    [steps_by R m]: whatever [m] does to the state, it is an [R] step, errors
    included. *)
Definition steps_by {S A} (R : S → S → Prop) (m : M S A) : Prop :=
  ∀ s r s', m s = Some (r, s') → R s s'.

Section StepsBy.
Context {S : Type} (R : S → S → Prop) `{!PreOrder R}.

Lemma steps_ret {A} (a : A) : steps_by R (mret a : M S A).
Proof. by intros s r s' [= _ <-]. Qed.
Lemma steps_fail {A} e : steps_by R (fail e : M S A).
Proof. by intros s r s' [= _ <-]. Qed.
Lemma steps_panic {A} : steps_by R (panic : M S A).
Proof. by intros s r s' ?. Qed.
Lemma steps_try {A} (x : result Failure A) : steps_by R (try x : M S A).
Proof. by intros s r s' [= _ <-]. Qed.
Lemma steps_expect {A} (o : option A) : steps_by R (expect o : M S A).
Proof. unfold expect. by intros s r s' ?; case_match; simplify_eq. Qed.
Lemma steps_try_or_panic {A} (o : option (result Failure A)) : steps_by R (try_or_panic o : M S A).
Proof. unfold try_or_panic. by intros s r s' ?; case_match; simplify_eq. Qed.
Lemma steps_gets {A} (f : S → A) : steps_by R (gets f).
Proof. by intros s r s' [= _ <-]. Qed.
Lemma steps_refuse_if c e : steps_by R (refuse_if c e : M S unit).
Proof. destruct c; [apply steps_fail|apply steps_ret]. Qed.
Lemma steps_bind {A B} (m : M S A) (f : A → M S B) :
  steps_by R m → (∀ a, steps_by R (f a)) → steps_by R (m ≫= f).
Proof.
  intros Hm Hf s r s'. unfold mbind, M_bind. destruct (m s) as [[[a|e] s1]|] eqn:E; [| |done].
  - intros Hs. etrans; [by eapply Hm|by eapply Hf].
  - intros [= _ <-]. by eapply Hm.
Qed.
Lemma steps_modify f : (∀ s, R s (f s)) → steps_by R (modify f).
Proof. by intros Hf s r s' [= _ <-]. Qed.
Lemma steps_when c m : steps_by R m → steps_by R (when c m).
Proof. destruct c; [done|intros; apply steps_ret]. Qed.
Lemma steps_for_each {A} (l : list A) f : (∀ a, steps_by R (f a)) → steps_by R (for_each l f).
Proof.
  intros Hf. induction l as [|a l IH]; simpl; [apply steps_ret|by apply steps_bind].
Qed.
Lemma steps_if {A} (c : bool) (m1 m2 : M S A) :
  steps_by R m1 → steps_by R m2 → steps_by R (if c then m1 else m2).
Proof. by destruct c. Qed.
End StepsBy.

Create HintDb steps.
#[export] Hint Resolve steps_ret steps_fail steps_panic steps_try steps_expect steps_try_or_panic
  steps_gets steps_refuse_if steps_modify steps_for_each : steps.

(** Prove a [steps_by] goal through the monad's operators, the steps of the
    hint database and the matches in between. *)
Ltac steps :=
  repeat first
    [ match goal with |- forall x, @?P x => intro end
    | solve [eauto with steps typeclass_instances]
    | match goal with |- steps_by _ (mbind _ _) => apply steps_bind; [apply _| |] end
    | match goal with |- steps_by _ (when _ _) => apply steps_when; [apply _|] end
    | match goal with |- steps_by _ (match ?x with _ => _ end) => destruct x end ].

(** ** Time

    Instants are nanoseconds since the epoch, as in [Rules]. *)
Class Chrono := {
  (** [to_rfc3339_opts(SecondsFormat::Secs, true)]. *)
  rfc3339_secs : Z → string;
  (** [parse::<DateTime<Utc>>] and [DateTime::parse_from_rfc3339] in UTC. *)
  rfc3339_parse : string → option Z;
}.

Definition NANOS : Z := 10 ^ 9.

(** An instant that RFC 3339 writes: its year has four digits. *)
Definition representable (t : Z) : Prop := -62135596800 * NANOS ≤ t < 253402300800 * NANOS.

(** The text has whole seconds: the fraction is cut off. *)
Class ChronoLaws `{Chrono} := {
  rfc3339_truncates t :
    representable t → rfc3339_parse (rfc3339_secs t) = Some (t - t mod NANOS);
}.

(** ** Serialization *)

Class Serde := {
  (** [serde_json::from_slice::<Value>]. *)
  from_slice : bytes → result string Value;
  (** A [Value]'s and a [str]'s formatting in messages. *)
  json_display : Value → string;
  str_debug : string → string;
}.

(** The values RFC 8785 carries unchanged: no fraction, every integer one a
    double represents exactly, members in one order. *)
Inductive canonical_value : Value → Prop :=
| can_null : canonical_value VNull
| can_bool b : canonical_value (VBool b)
| can_num z : Z.abs z ≤ 2 ^ 53 → canonical_value (VNum z)
| can_str s : canonical_value (VStr s)
| can_arr l : (∀ v, v ∈ l → canonical_value v) → canonical_value (VArr l)
| can_obj m : (∀ k v, m !! k = Some v → canonical_value v) → canonical_value (mk_obj m).

(** Their canonical bytes parse back to them. *)
Class SerdeLaws `{Jcs, Serde} :=
  from_slice_jcs v b : canonical_value v → jcs_to_vec v = Ok b → from_slice b = Ok v.

(** [HashMap]'s iteration: every entry once, in an order of its own. *)
Class HashOrder := hash_iter : ∀ {V : Type}, gmap string V → list (string * V).
Class HashOrderLaws `{HashOrder} :=
  hash_iter_perm : ∀ {V : Type} (m : gmap string V), hash_iter m ≡ₚ map_to_list m.
Definition hash_values `{HashOrder} {V} (m : gmap string V) : list V := (hash_iter m).*2.

(** ** The generated task types

    The payload types the handlers read, with the members they read; each
    [parse_*] holds a payload to its schema and parses it, or says why not. *)

Record WireCast := mk_wire_cast { wc_ballot : Ballot; wc_tag : string; wc_attestation : string }.
Record CastPayload := mk_cast_payload {
  p_community : string; p_election : string; p_cast : WireCast;
}.
Record RegisterPayload := mk_register_payload {
  rg_community : string; rg_manifest : Manifest; rg_manifest_digest : string;
}.
Record ReadPayload := mk_read_payload {
  rd_community : string; rd_election : string;
  rd_tree_size : option Z; rd_from : Z; rd_limit : Z;
}.
Record InclusionPayload := mk_inclusion_payload {
  in_community : string; in_election : string;
  in_leaf_index : Z; in_tree_size : Z; in_receipt_token : option string;
}.
Record ConsistencyPayload := mk_consistency_payload {
  cn_community : string; cn_election : string; cn_first_size : Z; cn_second_size : Z;
}.

Class Tasks `{ResultWire} := {
  parse_register : Value → result string RegisterPayload;
  validate_register_v0_2 : Value → result string unit;
  validate_register_v0_3 : Value → result string unit;
  (** Payloads that name an election and nothing the handler reads further:
      the task's name, then its community and election. *)
  parse_named : string → Value → result string (string * string);
  parse_cast : Value → result string CastPayload;
  parse_wire_cast : Value → result string WireCast;
  parse_ballot : Value → result string Ballot;
  ballot_to_value : Ballot → result string Value;
  parse_read : Value → result string ReadPayload;
  parse_inclusion : Value → result string InclusionPayload;
  parse_consistency : Value → result string ConsistencyPayload;
  (** A payload whose handler reads the JSON itself. *)
  parse_task : string → Value → result string unit;
  (** [VotingParameters]: its [votingKey]. *)
  parse_parameters : Value → result string string;
  (** [to_value] of a tally's rows. *)
  question_results_to_value : list QuestionResult → result string Value;
  (** A response through its generated type, and back to JSON. *)
  Response : Type;
  response_from_value : string → Value → result string Response;
  response_to_value : Response → result string Value;
}.

Section Host.
Context `{PCS, Jcs, ResultWire, Tasks, Serde}.

(** [VotingError]'s message. *)
Definition voting_error_text (e : VotingError) : string :=
  match e with
  | Pcs e => "pcs: " +:+ pcs_error_text e
  | InvalidElectionId i =>
      "invalid election id " +:+ str_debug i +:+ ": 1 to 128 of A-Z a-z 0-9 . _ -"
  | InvalidCommunity =>
      "the community identifier must be non-empty and free of control characters"
  | WrongCommunity e a => "this key serves community " +:+ e +:+ ", not " +:+ a
  | WrongElection => "the ticket is for another election"
  | WrongClass => "the attestation is not under this election's voter class"
  | ProofRejected e => "the cast does not verify: " +:+ pcs_error_text e
  | AlreadyVoted =>
      "a ballot under this ticket was already counted, and this election allows no revote"
  | Serialization why => "serialization: " +:+ why
  | Store why => "nullifier store: " +:+ why
  end.

Definition parse {A} (r : result string A) : result Failure A := map_err f_malformed r.

(** Build a response through its generated type. *)
Definition respond (task : string) (v : Value) : result Failure Value :=
  typed ← map_err (λ e, f_std "internalError" ("response shape: " +:+ e)) (response_from_value task v);
  map_err (λ e, f_std "internalError" ("response encoding: " +:+ e)) (response_to_value typed).

Definition jcs (v : Value) : result Failure bytes := map_err f_malformed (jcs_to_vec v).

Definition time `{Chrono} (t : Z) : string := rfc3339_secs t.

(** Constant-time equality of receipt tokens: [acc | (x ^ y)] over the bytes,
    as 8-bit numbers. *)
Definition same (a b : string) : bool :=
  (length (as_bytes a) =? length (as_bytes b))%nat
  && (fold_left (λ acc '(x, y), Z.lor acc (Z.lxor (Z_of_byte x) (Z_of_byte y)))
        (combine (as_bytes a) (as_bytes b)) 0 =? 0).
End Host.

(** ** The journal *)

Record StoredElection := mk_stored { st_manifest : Value; st_parameters : Value }.

(** One election as a journal returns it for a restore. *)
Record Restored := mk_restored {
  re_election : option StoredElection;
  re_entries : list bytes;
  re_receipts : gmap Z string;
}.
Definition restored_default : Restored := mk_restored None [] ∅.

(** Where the ballot box makes what it accepted durable. *)
Class Journal := {
  JState : Type;
  journal_election : string → string → StoredElection → JState → result string unit * JState;
  journal_entry : string → string → Z → bytes → JState → result string unit * JState;
  journal_receipt : string → string → Z → string → JState → result string unit * JState;
}.

(** What a restart needs of a journal: an entry or a token it says it made
    durable is what is read back, after what was there. *)
Class JournalLaws `{J : Journal} := {
  (** What it holds of an election. *)
  journal_of : JState → string → string → Restored;
  (** Nothing half-written is in it. *)
  journal_whole : JState → Prop;
  journal_entry_law c i n b j j' :
    journal_whole j → journal_entry c i n b j = (Ok (), j') →
    journal_whole j'
    ∧ journal_of j' c i = mk_restored (re_election (journal_of j c i))
                            (re_entries (journal_of j c i) ++ [b]) (re_receipts (journal_of j c i));
  journal_receipt_law c i n token j j' :
    journal_whole j → 0 ≤ n ≤ u64_max → is_utf8 token = true →
    journal_receipt c i n token j = (Ok (), j') →
    journal_whole j'
    ∧ journal_of j' c i = mk_restored (re_election (journal_of j c i)) (re_entries (journal_of j c i))
                            (<[n := token]> (re_receipts (journal_of j c i)));
}.

(** Keeps nothing. *)
Definition NoJournal : Journal := {|
  JState := unit;
  journal_election := λ _ _ _ j, (Ok (), j);
  journal_entry := λ _ _ _ _ j, (Ok (), j);
  journal_receipt := λ _ _ _ _ j, (Ok (), j);
|}.

(** An in-memory journal. Its lock is never poisoned: no method panics. *)
Abbreviation MemoryState := (gmap (string * string) Restored).

Definition memory_of (m : MemoryState) (c i : string) : Restored :=
  default restored_default (m !! (c, i)).

Definition memory_election (c i : string) (e : StoredElection) (m : MemoryState)
  : result string unit * MemoryState :=
  let r := memory_of m c i in
  (Ok (), <[(c, i) := mk_restored (Some e) (re_entries r) (re_receipts r)]> m).

Definition memory_entry (c i : string) (index : Z) (b : bytes) (m : MemoryState)
  : result string unit * MemoryState :=
  let r := memory_of m c i in
  if bool_decide (Z.of_nat (length (re_entries r)) ≠ index)
  then (Err ("entry " +:+ pretty index +:+ " out of order"), <[(c, i) := r]> m)
  else (Ok (), <[(c, i) := mk_restored (re_election r) (re_entries r ++ [b]) (re_receipts r)]> m).

Definition memory_receipt (c i : string) (leaf : Z) (token : string) (m : MemoryState)
  : result string unit * MemoryState :=
  let r := memory_of m c i in
  (Ok (), <[(c, i) := mk_restored (re_election r) (re_entries r) (<[leaf := token]> (re_receipts r))]> m).

Definition MemoryJournal : Journal := {|
  JState := MemoryState;
  journal_election := memory_election;
  journal_entry := memory_entry;
  journal_receipt := memory_receipt;
|}.

#[export] Instance memory_journal_laws : @JournalLaws MemoryJournal.
Proof.
  refine {| journal_of := memory_of : @JState MemoryJournal → _; journal_whole := λ _, True |}.
  - intros c i n b j j' _. cbn. unfold memory_entry. case_bool_decide; [done|]. intros [= <-].
    split; [done|]. unfold memory_of at 1. by rewrite lookup_insert_eq.
  - intros c i n token j j' _ _ _ [= <-]. split; [done|]. unfold memory_of at 1.
    by rewrite lookup_insert_eq.
Defined.

(** What a restart would read back, in the map's order. *)
Definition memory_contents (m : MemoryState) : list Restored := (map_to_list m).*2.

(** ** The world

    What the handlers share beside the ballot box's own state: the journal
    and the operating system's random source. *)
Class OsRng := {
  OsState : Type;
  (** [OsRng.fill_bytes] of 32 bytes. *)
  os_fill : OsState → Hash * OsState;
}.

Record World `{Journal, OsRng} := mk_world { w_journal : JState; w_os : OsState }.
#[global] Arguments mk_world {_ _}.

(** The part of a state that is the world. *)
Section Worlds.
Context `{Journal, OsRng} {S : Type}.

Definition on_journal (f : JState → result string unit * JState) : M (S * World) unit := λ '(s, w),
  let '(r, j) := f (w_journal w) in
  Some (map_err journal_failure r, (s, mk_world j (w_os w))).

Definition fill_bytes : M (S * World) Hash := λ '(s, w),
  let '(b, o) := os_fill (w_os w) in Some (Ok b, (s, mk_world (w_journal w) o)).
End Worlds.
