(* ===== verification/SwapProof.v ===== *)
(** * The presentation of a key swap

    [vta-sdk/src/protocols/acl_management/swap.rs], with
    [decode_ed25519_public_key_multibase] of [vta-sdk/src/did_key.rs]: the
    compact JWS by which a new DID shows that it takes over an entry. Proved:
    what is verified was signed, for this agent, by a key of the very DID it
    names, and has not expired. Base64, Ed25519 and the derived parsers are
    arguments; errors keep which check failed. *)

From S2P Require Import Prelude Text Json Election Host.

(** What the code takes from its libraries. *)
Class Jws := {
  (** [URL_SAFE_NO_PAD.decode]. *)
  b64_decode : string → option bytes;
  (** The signature's and the key's shapes, and the check. *)
  ed25519_verify : bytes → bytes → bytes → bool;
}.

(** The claims of the payload, and the header. *)
Record SwapClaims := mk_swap_claims {
  sc_iss : string; sc_aud : string; sc_exp : Z; sc_nonce : option string;
  sc_types : list string; sc_holder : option string;
}.
Record JwsHeader := mk_header { jh_alg : string; jh_kid : string }.

(** Their derived [Deserialize]. *)
Class SwapSerde := {
  claims_from_slice : bytes → option SwapClaims;
  header_from_slice : bytes → option JwsHeader;
}.

Inductive AclSwapError :=
| SwapParse | UnsupportedAlg | WrongType | HolderMismatch | WrongAudience | SwapExpired | InvalidClaim | BadSignature.

Record VerifiedAclSwap := mk_verified_swap { vs_holder : string; vs_nonce : option string }.

Definition VP_TYPE : string := "VerifiablePresentation".
Definition SWAP_TYPE : string := "AclSwapRequest".
Definition SKEW_SECS : Z := 300.

Section SwapProof.
Context `{Jws, SwapSerde, Multibase, Serde}.

(** [peek_presentation_holder], which [peek_holder] is. *)
Definition peek_holder (jws : string) : result AclSwapError string :=
  payload ← ok_or (split "." jws !! 1%nat) SwapParse;
  b ← ok_or (b64_decode payload) SwapParse;
  claims ← map_err (λ _, SwapParse) (from_slice b);
  ok_or (get_str claims "iss") SwapParse.

Definition decode (jws : string) : result AclSwapError (JwsHeader * SwapClaims * bytes * bytes) :=
  match split "." jws with
  | [h; p; s] =>
      hb ← ok_or (b64_decode h) SwapParse;
      header ← ok_or (header_from_slice hb) SwapParse;
      pb ← ok_or (b64_decode p) SwapParse;
      claims ← ok_or (claims_from_slice pb) SwapParse;
      sig ← ok_or (b64_decode s) SwapParse;
      Ok (header, claims, as_bytes (h +:+ "." +:+ p), sig)
  | _ => Err SwapParse
  end.

Definition PREFIXED_KEY_LEN : nat := 34.
Definition ED25519_PUB_CODEC : bytes := [xed; x01].

(** [decode_ed25519_public_key_multibase]. *)
Definition decode_ed25519_public_key_multibase (mb : string) : option bytes :=
  '(_, raw) ← multibase_decode mb;
  let key_bytes :=
    if bool_decide (length raw = PREFIXED_KEY_LEN) && bool_decide (take 2 raw = ED25519_PUB_CODEC)
    then drop 2 raw else raw in
  if bool_decide (length key_bytes = 32%nat) then Some key_bytes else None.

Definition ed25519_pub_from_jwk (jwk : Value) : result AclSwapError bytes :=
  _ ← guard_err (negb (bool_decide (get_str jwk "kty" = Some "OKP") && bool_decide (get_str jwk "crv" = Some "Ed25519")))
        InvalidClaim;
  x ← ok_or (get_str jwk "x") InvalidClaim;
  b ← ok_or (b64_decode x) InvalidClaim;
  _ ← guard_err (bool_decide (length b ≠ 32%nat)) InvalidClaim;
  Ok b.

(** The loop over the document's methods: the first that matches decides. *)
Fixpoint find_method_key (target_vm_id : string) (vms : list Value) : result AclSwapError bytes :=
  match vms with
  | [] => Err InvalidClaim
  | vm :: vms =>
      let id := default "" (get_str vm "id") in
      let target_fragment := snd <$> split_once "#" target_vm_id in
      let id_fragment := snd <$> split_once "#" id in
      if bool_decide (id = target_vm_id)
         || (bool_decide (is_Some target_fragment) && bool_decide (target_fragment = id_fragment))
      then
        match get_str vm "publicKeyMultibase" with
        | Some mb => ok_or (decode_ed25519_public_key_multibase mb) InvalidClaim
        | None =>
            match json_get vm "publicKeyJwk" with
            | Some jwk => ed25519_pub_from_jwk jwk
            | None => Err InvalidClaim
            end
        end
      else find_method_key target_vm_id vms
  end.

Definition extract_ed25519_pubkey_from_did_doc (doc : Value) (target_vm_id : string) : result AclSwapError bytes :=
  vms ← ok_or (json_get doc "verificationMethod" ≫= as_array) InvalidClaim;
  find_method_key target_vm_id vms.

(** [AclSwapPresentation::verify]. *)
Definition verify_swap (jws : string) (did_doc : Value) (expected_aud : string) (now : Z)
  : result AclSwapError VerifiedAclSwap :=
  '(header, claims, signing_input, sig) ← decode jws;
  _ ← guard_err (negb (bool_decide (VP_TYPE ∈ sc_types claims)) || negb (bool_decide (SWAP_TYPE ∈ sc_types claims)))
        WrongType;
  _ ← guard_err (bool_decide (jh_alg header ≠ "EdDSA")) UnsupportedAlg;
  _ ← guard_err (match sc_holder claims with Some h => bool_decide (h ≠ sc_iss claims) | None => false end)
        HolderMismatch;
  _ ← guard_err (bool_decide (before "#" (jh_kid header) ≠ sc_iss claims)) HolderMismatch;
  _ ← guard_err (bool_decide (sc_aud claims ≠ expected_aud)) WrongAudience;
  _ ← guard_err (Z.min u64_max (sc_exp claims + SKEW_SECS) <? now) SwapExpired;
  pubkey ← extract_ed25519_pubkey_from_did_doc did_doc (jh_kid header);
  _ ← guard_err (negb (ed25519_verify pubkey signing_input sig)) BadSignature;
  Ok (mk_verified_swap (sc_iss claims) (sc_nonce claims)).

(** What a verified presentation shows: the holder's own method, named by the
    header and found in the document given for the holder, signed the claims
    as sent, for this agent, not long enough ago to have expired. *)
Lemma verify_swap_sound jws did_doc aud now v :
  verify_swap jws did_doc aud now = Ok v →
  ∃ header claims input sig key,
    decode jws = Ok (header, claims, input, sig)
    ∧ before "#" (jh_kid header) = vs_holder v
    ∧ sc_iss claims = vs_holder v
    ∧ sc_aud claims = aud
    ∧ now ≤ sc_exp claims + SKEW_SECS
    ∧ SWAP_TYPE ∈ sc_types claims
    ∧ extract_ed25519_pubkey_from_did_doc did_doc (jh_kid header) = Ok key
    ∧ ed25519_verify key input sig = true.
Proof.
  unfold verify_swap. intros ([[[header claims] input] sig] & Hd & Hv)%bind_ok.
  rewrite !bind_unit_ok, !guard_ok in Hv.
  destruct Hv as (Ht & _ & _ & Hk & Ha & He & (key & Hkey & Hs)%bind_ok).
  rewrite bind_unit_ok, guard_ok in Hs. destruct Hs as [Hs [= <-]].
  apply orb_false_iff in Ht as [_ Ht]. apply negb_false_iff, bool_decide_eq_true in Ht.
  apply bool_decide_eq_false, dec_stable in Hk. apply bool_decide_eq_false, dec_stable in Ha.
  apply Z.ltb_ge in He. apply negb_false_iff in Hs.
  exists header, claims, input, sig, key. split_and!; try done. lia.
Qed.
End SwapProof.
