(* ===== verification/AclOps.v ===== *)
(** * The operations on the access control list

    [vta-service/src/operations/acl.rs] over the stored rows of
    [vti-common/src/acl/mod.rs]: creating, updating and deleting an entry,
    changing its role, moving it to another key, and exercising a hand-off, each
    the whole handler as a program over the keyspace. The lock that serialises
    hand-offs in one process is left out: what is shown does not need it.
    Logging, and the words of errors and of audit details, are left out. *)

From S2P Require Import Prelude Text Json Election Host Contexts Programs Keyspace Acl SwapProof.

(** [serde_json] on entries. *)
Class AclSerde := {
  entry_to_vec : AclEntry → result AppError bytes;
  entry_from_slice : bytes → result AppError AclEntry;
}.
Class AclSerdeLaws `{AclSerde} := {
  entry_roundtrip e b : entry_to_vec e = Ok b → entry_from_slice b = Ok e;
}.

Section AclOps.
Context `{AclSerde, Jws, SwapSerde, Multibase, Serde}.

(** ** Rows ([acl/mod.rs]) *)

Definition acl_key (did : string) : string := "acl:" +:+ did.

(** A clock that cannot be read is the epoch. *)
Definition now_epoch : AgentProg Z := Do NowEpoch (λ r, Ret (Ok (unwrap_or r 0))).

Definition get_acl_entry (did : string) : AgentProg (option AclEntry) :=
  raw ← call (GetRaw (acl_key did));
  match raw with
  | None => mret None
  | Some b => e ← lift (entry_from_slice b); mret (Some e)
  end.

Definition get_acl_entry_with_bytes (did : string) : AgentProg (option (AclEntry * bytes)) :=
  raw ← call (GetRaw (acl_key did));
  match raw with
  | None => mret None
  | Some b => e ← lift (entry_from_slice b); mret (Some (e, b))
  end.

Definition store_acl_entry (e : AclEntry) : AgentProg unit :=
  b ← lift (entry_to_vec e);
  _ ← call (ApplyBatch (mk_batch [] [Put (acl_key (ae_did e)) b]));
  call Reseal.

Definition delete_acl_entry (did : string) : AgentProg unit :=
  _ ← call (ApplyBatch (mk_batch [] [Delete (acl_key did)]));
  call Reseal.

(** A subject's live entry. *)
Definition check_acl_entry (did : string) : AgentProg AclEntry :=
  entry ← get_acl_entry did;
  match entry with
  | Some e => now ← now_epoch; _ ← refuse_if (is_expired e now) AppForbidden; mret e
  | None => lift (Err AppForbidden)
  end.
Definition check_acl (did : string) : AgentProg Role := e ← check_acl_entry did; mret (ae_role e).
Definition check_acl_full (did : string) : AgentProg (Role * list string) :=
  e ← check_acl_entry did; mret (ae_role e, ae_contexts e).

(** A [u32] that wraps. *)
Definition next_version (v : Z) : Z := (v + 1) mod 2 ^ 32.

Definition update_acl_entry_versioned (new_entry : AclEntry) (expected_version : Z) : AgentProg Z :=
  let key := acl_key (ae_did new_entry) in
  current_raw ← call (GetRaw key);
  current ← lift (match current_raw with None => Ok None | Some b => Some <$> entry_from_slice b end);
  let stored_version := match current with Some e => ae_version e | None => 0 end in
  _ ← refuse_if (bool_decide (stored_version ≠ expected_version)) AppConflict;
  let check := match current_raw with Some raw => Unchanged key raw | None => Absent key end in
  let new_version := next_version expected_version in
  b ← lift (entry_to_vec (with_version new_version new_entry));
  outcome ← call (ApplyBatch (mk_batch [check] [Put key b]));
  _ ← refuse_if (negb (is_applied outcome)) AppConflict;
  _ ← call Reseal;
  mret new_version.

Definition move_acl_entry_if_unchanged (old_did : string) (expected : bytes) (successor : AclEntry) : AgentProg MoveOutcome :=
  b ← lift (entry_to_vec successor);
  outcome ← call (MoveIfUnchanged (acl_key old_did) expected (acl_key (ae_did successor)) b);
  match outcome with
  | Moved => _ ← call Reseal; mret Moved
  | o => mret o
  end.

(** ** Answers *)

Record CreateAclResultBody := mk_result_body {
  rb_did : string; rb_role : string; rb_label : option string; rb_contexts : list string;
  rb_created_at : Z; rb_created_by : string; rb_expires_at : option Z;
  rb_step_up_approver : option string; rb_step_up_require : option string;
  rb_approve_all_contexts : bool; rb_approve_contexts : list string;
  rb_allowed_keys : option (gset string); rb_handoff : bool; rb_capabilities : list string;
}.

Definition step_up_require_to_wire (m : option StepUpMode) : option string :=
  (λ m, match m with
        | SelfApprove => "self" | Delegated => "delegated" | DelegatedAny => "delegated-any" | StepNone => "none"
        end) <$> m.

Definition to_result_body (e : AclEntry) : CreateAclResultBody :=
  let '(all, cs) := match ae_approve_scope e with
                    | ApproveAll => (true, [])
                    | ApproveContexts cs => (false, cs)
                    | ApproveNone => (false, [])
                    end in
  mk_result_body (ae_did e) (role_text (ae_role e)) (ae_label e) (ae_contexts e) (ae_created_at e) (ae_created_by e)
    (ae_expires_at e) (ae_step_up_approver e) (step_up_require_to_wire (ae_step_up_require e)) all cs (ae_keys e)
    (bool_decide (is_Some (ae_handoff e))) (capability_text <$> ae_capabilities e).

Definition parse_capability_names (names : list string) : result AppError (list Capability) :=
  try_map (λ n, ok_or (capability_parse n) AppValidation) names.

(** ** Guards *)

(** Nothing but "no override" is taken any more. *)
Definition parse_step_up_require (s : option string) : result AppError (option StepUpMode) :=
  match s with
  | None => Ok None
  | Some s => if blank s then Ok None else Err AppValidation
  end.

(** An entry's subject, as claims of its role and contexts. *)
Definition claims_of (e : AclEntry) : AuthClaims := mk_claims (ae_did e) (ae_role e) (ae_contexts e) "" 0 0 [] "".

Definition acl_entry_can_confer (e : AclEntry) (ctx : string) : bool :=
  if approve_covers (ae_approve_scope e) ctx then true
  else bool_decide (ac_role (claims_of e) = Admin) && has_context_access (claims_of e) ctx.

Definition approve_scope_from_wire (all : bool) (contexts : list string) : ApproveScope :=
  if all then ApproveAll else match contexts with [] => ApproveNone | _ => ApproveContexts contexts end.

(** In no particular order. *)
Definition symmetric_difference_contexts (old new : list string) : list string :=
  remove_dups (filter (λ c, c ∉ new) old ++ filter (λ c, c ∉ old) new).

Fixpoint require_contexts_exist (contexts : list string) : AgentProg unit :=
  match contexts with
  | [] => mret ()
  | ctx :: contexts =>
      found ← call (ContextRegistered ctx);
      _ ← refuse_if (negb found) AppNotFound;
      require_contexts_exist contexts
  end.

Definition not_manageable (auth : AuthClaims) (e : AclEntry) : AppError :=
  if is_acl_entry_auditable auth e then AppForbidden else AppNotFound.

Definition caller_entry (auth : AuthClaims) : AgentProg AclEntry :=
  if is_local_cli_principal auth then
    now ← now_epoch;
    mret (with_approve_scope ApproveAll (entry_new (ac_did auth) Admin (ac_did auth) now))
  else
    e ← get_acl_entry (ac_did auth);
    match e with
    | Some e =>
        now ← now_epoch;
        _ ← refuse_if (is_expired e now) AppForbidden;
        mret e
    | None => lift (Err AppForbidden)
    end.

Definition refuse_self_modification (auth : AuthClaims) (did : string) : result AppError unit :=
  guard_err (bool_decide (ac_did auth = did)) AppForbidden.

Definition caller_covers_entry (auth : AuthClaims) (e : AclEntry) : bool :=
  if is_super_admin auth then true
  else
    let acts := match act_scope e with
                | ActContexts cs => forallb (has_context_access auth) cs
                | ActNone => true
                | ActAll => false
                end in
    let approves := match ae_approve_scope e with
                    | ApproveNone => true
                    | ApproveContexts cs => forallb (has_context_access auth) cs
                    | ApproveAll => false
                    end in
    let names_something := match act_scope e, ae_approve_scope e with ActNone, ApproveNone => false | _, _ => true end in
    acts && approves && names_something.

(** The caller as it acts now: its token's role and contexts on its row. *)
Definition acting_as (auth : AuthClaims) (caller : AclEntry) : AclEntry :=
  set_role (ac_role auth) (with_contexts (ac_contexts auth) caller).

Definition validate_within_caller (auth : AuthClaims) (caller target : AclEntry) : result AppError unit :=
  let ceiling := effective_capabilities (ac_role auth) (ae_capabilities caller) in
  let beyond := filter (λ c, is_additive c = false ∧ c ∉ ceiling)
                  (effective_capabilities (ae_role target) (ae_capabilities target)) in
  _ ← guard_err (negb (bool_decide (beyond = []))) AppForbidden;
  _ ← match ae_keys caller with
      | None => Ok ()
      | Some mine =>
          match ae_keys target with
          | None => Err AppForbidden
          | Some theirs => guard_err (negb (bool_decide (theirs ∖ mine = ∅))) AppForbidden
          end
      end;
  _ ← match ae_expires_at caller with
      | None => Ok ()
      | Some mine =>
          match ae_expires_at target with
          | None => Err AppForbidden
          | Some theirs => guard_err (mine <? theirs) AppForbidden
          end
      end;
  match ae_approve_scope target with
  | ApproveContexts cs =>
      guard_err (negb (forallb (acl_entry_can_confer (acting_as auth caller)) cs)) AppForbidden
  | _ => Ok ()
  end.

Definition mint_handoff (auth : AuthClaims) (me : AclEntry) (subject : string) (expires_at : option Z)
  : AgentProg HandOff :=
  _ ← refuse_if (bool_decide (subject = ac_did auth)) AppForbidden;
  _ ← refuse_if (bool_decide (is_Some (ae_handoff me))) AppForbidden;
  _ ← refuse_if (bool_decide (expires_at = None)) AppValidation;
  now ← now_epoch;
  mret (mk_handoff (ac_did auth) now
          (mk_bound (ac_role auth) (ac_contexts auth) (ae_capabilities me) (ae_approve_scope me) (ae_keys me)
             (ae_expires_at me))).

Definition holds_handoff (did : string) : AgentProg bool :=
  e ← get_acl_entry did;
  mret (match e with Some e => bool_decide (is_Some (ae_handoff e)) | None => false end).

Definition validate_allowed_keys (allowed_keys : option (gset string)) : result AppError unit :=
  match allowed_keys with
  | None => Ok ()
  | Some keys => guard_err (existsb blank (elements keys)) AppValidation
  end.

(** ** Creating *)

Record CreateAclParams := mk_create {
  cp_did : string;
  cp_role : Role;
  cp_label : option string;
  cp_contexts : list string;
  cp_expires_at : option Z;
  cp_step_up_approver : option string;
  cp_step_up_require : option string;
  cp_approve_scope : ApproveScope;
  cp_keys : option (gset string);
  cp_capabilities : list Capability;
  cp_handoff : bool;
}.

Definition scope_contexts (s : ApproveScope) : list string := match s with ApproveContexts cs => cs | _ => [] end.

Definition create_acl (auth : AuthClaims) (p : CreateAclParams) : AgentProg CreateAclResultBody :=
  _ ← lift (require_manage auth);
  _ ← lift (validate_role_assignment auth (cp_role p));
  _ ← lift (validate_acl_modification auth (cp_role p) (cp_contexts p));
  _ ← lift (validate_allowed_keys (cp_keys p));
  _ ← refuse_if (negb (bool_decide (capabilities_beyond_role (cp_role p) (cp_capabilities p) = []))) AppValidation;
  _ ← lift (validate_additive_capability_grant auth (cp_capabilities p));
  _ ← lift (validate_approve_scope_grant auth (cp_approve_scope p));
  _ ← require_contexts_exist (cp_contexts p);
  _ ← require_contexts_exist (scope_contexts (cp_approve_scope p));
  step_up ← lift (parse_step_up_require (cp_step_up_require p));
  existing ← get_acl_entry (cp_did p);
  _ ← refuse_if (bool_decide (is_Some existing)) AppConflict;
  now ← now_epoch;
  let entry :=
    with_capabilities (cp_capabilities p) (with_allowed_keys (cp_keys p) (with_approve_scope (cp_approve_scope p)
      (with_step_up_require step_up (with_step_up_approver (cp_step_up_approver p) (with_expires_at (cp_expires_at p)
        (with_contexts (cp_contexts p) (with_label (cp_label p) (entry_new (cp_did p) (cp_role p) (ac_did auth) now)))))))) in
  me ← caller_entry auth;
  _ ← lift (validate_within_caller auth me entry);
  entry ← (if cp_handoff p then
             marker ← mint_handoff auth me (cp_did p) (cp_expires_at p);
             mret (with_handoff (Some marker) entry)
           else mret entry);
  _ ← store_acl_entry entry;
  _ ← best_effort (RecordAudit (mk_audit "acl.create" (ac_did auth) (cp_did p) "success"));
  mret (to_result_body entry).

(** ** Updating *)

Record UpdateAclParams := mk_update {
  up_role : option Role;
  up_label : option string;
  up_contexts : option (list string);
  up_step_up_approver : option string;
  up_step_up_require : option string;
  up_approve_scope : option ApproveScope;
  up_expires_at : option Z;
  up_clear_expiry : bool;
  up_reason : option string;
  up_capabilities : option (list Capability);
  up_keys : option (option (gset string));
}.
Definition update_unchanged : UpdateAclParams := mk_update None None None None None None None false None None None.

(** An empty text clears. *)
Definition non_empty (s : string) : option string := if bool_decide (s = "") then None else Some s.

(** [if let Some(x) = patch { .. }] on an entry. *)
Definition patch {A} (x : option A) (f : A → AclEntry → AgentProg AclEntry) (e : AclEntry) : AgentProg AclEntry :=
  match x with Some a => f a e | None => mret e end.

(** The entry a subject has, if the caller may change it. *)
Definition manageable (auth : AuthClaims) (did : string) : AgentProg AclEntry :=
  entry ← get_acl_entry did;
  entry ← lift (ok_or entry AppNotFound);
  _ ← refuse_if (negb (is_acl_entry_visible auth entry)) (not_manageable auth entry);
  _ ← refuse_if (negb (caller_covers_entry auth entry)) AppForbidden;
  mret entry.

Definition patch_role (auth : AuthClaims) (r : Role) (e : AclEntry) : AgentProg AclEntry :=
  _ ← lift (validate_role_assignment auth r);
  mret (set_role r e).

Definition patch_capabilities (auth : AuthClaims) (cs : list Capability) (e : AclEntry) : AgentProg AclEntry :=
  _ ← refuse_if (negb (bool_decide (capabilities_beyond_role (ae_role e) cs = []))) AppValidation;
  _ ← lift (validate_additive_capability_grant auth cs);
  mret (with_capabilities cs e).

Definition patch_step_up_require (s : string) (e : AclEntry) : AgentProg AclEntry :=
  m ← (if blank s then mret None else lift (parse_step_up_require (Some s)));
  mret (with_step_up_require m e).

Definition patch_contexts (auth : AuthClaims) (cs : list string) (e : AclEntry) : AgentProg AclEntry :=
  let changes := symmetric_difference_contexts (ae_contexts e) cs in
  _ ← (if bool_decide (changes = []) || is_super_admin auth then mret ()
       else lift (for_all (require_context auth) changes));
  _ ← lift (validate_acl_modification auth (ae_role e) cs);
  _ ← require_contexts_exist (filter (λ c, c ∉ ae_contexts e) cs);
  mret (with_contexts cs e).

Definition patch_keys (keys : option (gset string)) (e : AclEntry) : AgentProg AclEntry :=
  _ ← lift (validate_allowed_keys keys);
  mret (with_allowed_keys keys e).

Definition patch_approve_scope (auth : AuthClaims) (scope : ApproveScope) (e : AclEntry) : AgentProg AclEntry :=
  _ ← lift (validate_approve_scope_grant auth scope);
  _ ← require_contexts_exist (scope_contexts scope);
  mret (with_approve_scope scope e).

Definition patch_expiry (p : UpdateAclParams) (e : AclEntry) : AclEntry :=
  match up_expires_at p with
  | Some t => with_expires_at (Some t) e
  | None => if up_clear_expiry p then with_expires_at None e else e
  end.

(** The last checks, on the patched entry whole. *)
Definition judge_whole (auth : AuthClaims) (me entry : AclEntry) : AgentProg unit :=
  _ ← lift (validate_role_assignment auth (ae_role entry));
  _ ← lift (validate_acl_modification auth (ae_role entry) (ae_contexts entry));
  lift (validate_within_caller auth me entry).

Definition update_acl (auth : AuthClaims) (did : string) (p : UpdateAclParams) : AgentProg CreateAclResultBody :=
  _ ← lift (require_admin auth);
  _ ← lift (refuse_self_modification auth did);
  entry ← manageable auth did;
  me ← caller_entry auth;
  entry ← patch (up_role p) (patch_role auth) entry;
  entry ← patch (up_label p) (λ l e, mret (with_label (non_empty l) e)) entry;
  entry ← patch (up_capabilities p) (patch_capabilities auth) entry;
  entry ← patch (up_step_up_approver p) (λ a e, mret (with_step_up_approver (non_empty a) e)) entry;
  entry ← patch (up_step_up_require p) patch_step_up_require entry;
  entry ← patch (up_contexts p) (patch_contexts auth) entry;
  entry ← patch (up_keys p) patch_keys entry;
  entry ← patch (up_approve_scope p) (patch_approve_scope auth) entry;
  let entry := patch_expiry p entry in
  _ ← judge_whole auth me entry;
  _ ← store_acl_entry entry;
  _ ← best_effort (RecordAudit (mk_audit "acl.update" (ac_did auth) did "success"));
  mret (to_result_body entry).

(** ** Changing a role *)

Definition parse_role (raw : string) : result AppError Role := map_err (λ _, AppValidation) (role_parse raw).

Definition change_role (auth : AuthClaims) (subject from_role to_role : string) : AgentProg CreateAclResultBody :=
  _ ← lift (require_admin auth);
  _ ← lift (refuse_self_modification auth subject);
  entry ← manageable auth subject;
  from ← lift (parse_role from_role);
  to ← lift (parse_role to_role);
  _ ← refuse_if (bool_decide (ae_role entry ≠ from)) AppConflict;
  _ ← lift (validate_role_assignment auth to);
  _ ← lift (validate_acl_modification auth to (ae_contexts entry));
  let expected_version := ae_version entry in
  let entry := set_role to entry in
  me ← caller_entry auth;
  _ ← lift (validate_within_caller auth me entry);
  _ ← update_acl_entry_versioned entry expected_version;
  _ ← best_effort (RecordAudit (mk_audit "acl.change_role" (ac_did auth) subject "success"));
  mret (to_result_body entry).

(** ** Deleting *)

Definition may_manage_subject (auth : AuthClaims) (subject : string) : AgentProg bool :=
  if bool_decide (ac_did auth = subject) || is_super_admin auth then mret true
  else if negb (is_ok (require_manage auth)) then mret false
  else
    entry ← get_acl_entry subject;
    match entry with
    | None => mret false
    | Some e => mret (is_acl_entry_visible auth e && is_ok (validate_role_assignment auth (ae_role e)))
    end.

Definition delete_acl (auth : AuthClaims) (did : string) : AgentProg unit :=
  _ ← lift (require_manage auth);
  _ ← refuse_if (bool_decide (ac_did auth = did)) AppConflict;
  entry ← manageable auth did;
  _ ← lift (validate_role_assignment auth (ae_role entry));
  _ ← delete_acl_entry did;
  best_effort (RecordAudit (mk_audit "acl.delete" (ac_did auth) did "success")).

(** ** Rotating a key *)

Definition swap_acl (auth : AuthClaims) (presentation vta_did : string) : AgentProg CreateAclResultBody :=
  claimed ← lift (map_err (λ _, AppAuthentication) (peek_holder presentation));
  doc ← call (ResolveDid claimed);
  now ← now_epoch;
  verified ← lift (map_err (λ _, AppAuthentication) (verify_swap presentation doc vta_did now));
  let new_did := vs_holder verified in
  _ ← refuse_if (bool_decide (new_did = ac_did auth)) AppConflict;
  old ← get_acl_entry (ac_did auth);
  old ← lift (ok_or old AppNotFound);
  _ ← refuse_if (is_expired old now) AppForbidden;
  existing ← get_acl_entry new_did;
  _ ← refuse_if (bool_decide (is_Some existing)) AppConflict;
  let entry := with_handoff None (set_did new_did old) in
  _ ← store_acl_entry entry;
  _ ← delete_acl_entry (ac_did auth);
  _ ← best_effort (RecordAudit (mk_audit "acl.swap" (ac_did auth) new_did "success"));
  mret (to_result_body entry).

(** ** Exercising a hand-off *)

Record HandOffSuccessor := mk_successor {
  hs_did : string; hs_role : Role; hs_label : option string; hs_contexts : list string;
  hs_capabilities : list Capability;
}.

(** The granter, as it stood when it set the marker. *)
Definition granter_claims (auth : AuthClaims) (m : HandOff) : AuthClaims :=
  mk_claims (ho_granted_by m) (hb_role (ho_bound m)) (hb_contexts (ho_bound m)) (ac_session_id auth)
    (ac_access_expires_at auth) (ac_issued_at auth) (ac_amr auth) (ac_acr auth).
Definition granter_entry (m : HandOff) (now : Z) : AclEntry :=
  with_expires_at (hb_expires_at (ho_bound m)) (with_allowed_keys (hb_keys (ho_bound m))
    (with_approve_scope (hb_approve_scope (ho_bound m)) (with_capabilities (hb_capabilities (ho_bound m))
      (with_contexts (hb_contexts (ho_bound m)) (entry_new (ho_granted_by m) (hb_role (ho_bound m)) "handoff" now))))).

(** What bounds a successor: the marked entry but for its expiry, and the
    granter as it was. *)
Definition judge_successor (auth : AuthClaims) (me : AclEntry) (m : HandOff) (granter : AclEntry) (entry : AclEntry)
  : result AppError unit :=
  let additive := filter (λ c, is_additive c = true) (ae_capabilities entry) in
  _ ← validate_role_assignment auth (ae_role entry);
  _ ← validate_acl_modification auth (ae_role entry) (ae_contexts entry);
  _ ← validate_within_caller auth (with_expires_at None me) entry;
  _ ← guard_err (existsb (λ c, negb (bool_decide (c ∈ ae_capabilities me))) additive) AppForbidden;
  map_err (λ _, AppForbidden)
    (_ ← validate_role_assignment (granter_claims auth m) (ae_role entry);
     _ ← validate_acl_modification (granter_claims auth m) (ae_role entry) (ae_contexts entry);
     _ ← validate_additive_capability_grant (granter_claims auth m) additive;
     validate_within_caller (granter_claims auth m) granter entry).

Definition handoff_row (auth : AuthClaims) (resource outcome : string) : AuditRow :=
  mk_audit "acl.handoff" (ac_did auth) resource outcome.

Definition exercise_handoff (auth : AuthClaims) (s : HandOffSuccessor) : AgentProg CreateAclResultBody :=
  now ← now_epoch;
  row ← get_acl_entry_with_bytes (ac_did auth);
  '(me, expected) ← lift (ok_or row AppForbidden);
  marker ← lift (ok_or (ae_handoff me) AppForbidden);
  _ ← refuse_if (is_expired me now) AppForbidden;
  _ ← refuse_if (match hb_expires_at (ho_bound marker) with Some t => t <=? now | None => false end) AppForbidden;
  _ ← refuse_if (bool_decide (hs_did s = ac_did auth)) AppValidation;
  granter_created ← now_epoch;
  _ ← refuse_if (negb (bool_decide (capabilities_beyond_role (hs_role s) (hs_capabilities s) = []))) AppValidation;
  _ ← require_contexts_exist (hs_contexts s);
  created ← now_epoch;
  let entry :=
    with_expires_at (hb_expires_at (ho_bound marker)) (with_allowed_keys (ae_keys me)
      (with_capabilities (hs_capabilities s) (with_contexts (hs_contexts s) (with_label (hs_label s)
        (entry_new (hs_did s) (hs_role s) (ac_did auth) created))))) in
  _ ← lift (judge_successor auth me marker (granter_entry marker granter_created) entry);
  _ ← call (RecordAudit (handoff_row auth (ae_did entry) "committing"));
  then_do (move_acl_entry_if_unchanged (ac_did auth) expected entry) (λ outcome,
    match outcome with
    | Ok Moved =>
        _ ← best_effort (RecordAudit (handoff_row auth (ae_did entry) "success"));
        mret (to_result_body entry)
    | o =>
        _ ← best_effort (RecordAudit (handoff_row auth (ae_did entry) "failure"));
        lift (Err (match o with Err e => e | Ok _ => AppConflict end))
    end).
End AclOps.
