(* ===== verification/AclSafety.v ===== *)
(** * Nobody grants what they do not hold

    What the operations on the access control list ([AclOps]) write, however
    they interleave and whatever fails. Each write is traced to the rows its
    request read ([vetted]): a grant is bounded by the granter's own row on
    every axis, a rotation is the caller's row renamed, a hand-off's successor
    is bounded by the marked entry and by the granter as it was. From that,
    authority in a context is never gained through callers who hold none
    there; and a hand-off happens once. *)

From S2P Require Import Prelude Text Json Election Host Contexts Programs Keyspace Acl SwapProof AclOps.

Section AclSafety.
Context `{AclSerde, !AclSerdeLaws, Jws, SwapSerde, Multibase, Serde}.

(** ** Requests *)

Inductive AclRequest :=
| RqCreate (p : CreateAclParams)
| RqUpdate (did : string) (p : UpdateAclParams)
| RqChangeRole (subject from to : string)
| RqDelete (did : string)
| RqSwap (presentation vta_did : string)
| RqHandOff (s : HandOffSuccessor).

Definition answering {A} (p : AgentProg A) (f : A → option CreateAclResultBody) : AgentProg (option CreateAclResultBody) :=
  a ← p; mret (f a).

Definition run_request (auth : AuthClaims) (rq : AclRequest) : AgentProg (option CreateAclResultBody) :=
  match rq with
  | RqCreate p => answering (create_acl auth p) Some
  | RqUpdate did p => answering (update_acl auth did p) Some
  | RqChangeRole subject from to => answering (change_role auth subject from to) Some
  | RqDelete did => answering (delete_acl auth did) (λ _, None)
  | RqSwap presentation vta_did => answering (swap_acl auth presentation vta_did) Some
  | RqHandOff s => answering (exercise_handoff auth s) Some
  end.

(** ** Authority *)

(** [e] may do, on every axis, no more than the caller: the role and contexts
    of its token, and its own row. *)
Record bounded (auth : AuthClaims) (me e : AclEntry) : Prop := {
  bounded_act c : can_act_in e c = true → has_context_access auth c = true;
  bounded_may cap : entry_has_capability e cap = true → is_additive cap = false →
    cap ∈ effective_capabilities (ac_role auth) (ae_capabilities me);
  bounded_keys k : allows (key_scope e) k = true → allows (key_scope me) k = true;
  bounded_time now : is_expired e now = false → is_expired me now = false;
  bounded_confer c : acl_entry_can_confer e c = true → acl_entry_can_confer (acting_as auth me) c = true;
}.

(** The entry acts or approves in a context. *)
Definition touches (c : string) (e : AclEntry) : bool := can_act_in e c || approve_covers (ae_approve_scope e) c.

(** ** What a request read *)

Definition read_row (h : list (Event AgentCall)) (did : string) (e : AclEntry) : Prop :=
  ∃ b, mk_event (GetRaw (acl_key did)) (Ok (Some b)) ∈ h ∧ entry_from_slice b = Ok e.

(** The caller's own row, live when it was read; the local operator's is the
    whole of the agent's authority. *)
Definition caller_row (auth : AuthClaims) (h : list (Event AgentCall)) (me : AclEntry) : Prop :=
  if is_local_cli_principal auth
  then ae_keys me = None ∧ ae_expires_at me = None ∧ ae_approve_scope me = ApproveAll
  else read_row h (ac_did auth) me
       ∧ ∃ r, mk_event NowEpoch r ∈ h ∧ is_expired me (unwrap_or r 0) = false.

(** Every additive capability the entry lists was listed already, unless the
    caller is a super-administrator. *)
Definition adds_own (auth : AuthClaims) (had : list Capability) (e : AclEntry) : Prop :=
  ∀ cap, cap ∈ ae_capabilities e → is_additive cap = true → is_super_admin auth = true ∨ cap ∈ had.

(** What the row a request changes listed when it was read; a creation changes
    none. *)
Definition had_listed (rq : AclRequest) (h : list (Event AgentCall)) (had : list Capability) : Prop :=
  match rq with
  | RqUpdate did _ | RqChangeRole did _ _ => ∃ old, read_row h did old ∧ had = ae_capabilities old
  | _ => had = []
  end.

(** Where the rows written come from. *)
Definition vetted (auth : AuthClaims) (rq : AclRequest) (h : list (Event AgentCall)) (e : AclEntry) : Prop :=
  match rq with
  | RqCreate p =>
      ∃ me, caller_row auth h me ∧ bounded auth me e
        ∧ (∀ c, touches c e = true → has_context_access auth c = true)
        ∧ (cp_handoff p = false → ae_handoff e = None)
        ∧ adds_own auth [] e
  | RqUpdate did _ | RqChangeRole did _ _ =>
      ∃ me, caller_row auth h me ∧ bounded auth me e
        ∧ (∀ c, touches c e = true → has_context_access auth c = true)
        ∧ did ≠ ac_did auth
        ∧ ∃ had, had_listed rq h had ∧ adds_own auth had e
  | RqDelete _ => False
  | RqSwap presentation vta_did =>
      ∃ old doc r v,
        read_row h (ac_did auth) old
        ∧ mk_event NowEpoch r ∈ h ∧ is_expired old (unwrap_or r 0) = false
        ∧ verify_swap presentation doc vta_did (unwrap_or r 0) = Ok v
        ∧ e = with_handoff None (set_did (vs_holder v) old)
  | RqHandOff s =>
      ∃ me marker now created,
        read_row h (ac_did auth) me ∧ ae_handoff me = Some marker
        ∧ bounded auth (with_expires_at None me) e
        ∧ bounded (granter_claims auth marker) (granter_entry marker created) e
        ∧ is_expired me now = false
        ∧ mk_event (RecordAudit (handoff_row auth (ae_did e) "committing")) (Ok ()) ∈ h
        ∧ (∀ cap, cap ∈ ae_capabilities e → is_additive cap = true → cap ∈ ae_capabilities me)
        ∧ ae_approve_scope e = ApproveNone
        ∧ ae_handoff e = None
  end.

(** A row written by a call. *)
Definition writes_row (c : AgentCall) (key : string) (b : bytes) : Prop :=
  match c with
  | ApplyBatch batch => Put key b ∈ writes batch
  | MoveIfUnchanged _ _ k v => key = k ∧ b = v
  | _ => False
  end.

(** A row is moved away only for the marker it holds. *)
Definition takes_marker (c : AgentCall) : Prop :=
  match c with
  | MoveIfUnchanged _ expected _ _ => ∃ me m, entry_from_slice expected = Ok me ∧ ae_handoff me = Some m
  | _ => True
  end.

(** What every call of a request keeps to. *)
Definition writes_vetted (auth : AuthClaims) (rq : AclRequest) (h : list (Event AgentCall)) (c : AgentCall) : Prop :=
  takes_marker c ∧
  ∀ key b, writes_row c key b →
    ∃ e, entry_from_slice b = Ok e ∧ key = acl_key (ae_did e) ∧ vetted auth rq h e.

(** ** The checks bound *)

Lemma confer_beneath e c d :
  is_ancestor_or_self c d = true → acl_entry_can_confer e c = true → acl_entry_can_confer e d = true.
Proof.
  intros Hcd. unfold acl_entry_can_confer. destruct (approve_covers _ c) eqn:Hc.
  - by rewrite (approve_covers_beneath _ _ _ Hcd Hc).
  - intros [Hr Ha]%andb_true_iff. destruct (approve_covers _ d); [done|]. rewrite Hr. simpl.
    by eapply access_beneath.
Qed.

Lemma acting_admin_confers auth me c :
  ac_role auth = Admin → has_context_access auth c = true → acl_entry_can_confer (acting_as auth me) c = true.
Proof.
  intros Hr Ha. unfold acl_entry_can_confer. destruct (approve_covers _ c); [done|]. simpl.
  by rewrite bool_decide_eq_true_2.
Qed.

(** The last checks of a change leave the entry bounded by the caller. *)
Lemma within_bounded auth me e :
  validate_role_assignment auth (ae_role e) = Ok () →
  validate_acl_modification auth (ae_role e) (ae_contexts e) = Ok () →
  validate_within_caller auth me e = Ok () →
  (ae_approve_scope e = ApproveAll → is_super_admin auth = true) →
  bounded auth me e.
Proof.
  intros Hr Hm Hw Hall. unfold validate_within_caller in Hw. rewrite !bind_unit_ok, !guard_ok in Hw.
  destruct Hw as (Hcaps & Hkeys & Htime & Happ).
  pose proof (modification_ok _ _ _ Hm) as Hact.
  split.
  - apply Hact.
  - intros cap Hc%bool_decide_eq_true Hna. apply negb_false_iff, bool_decide_eq_true in Hcaps.
    destruct (decide (cap ∈ effective_capabilities (ac_role auth) (ae_capabilities me))) as [|Hn]; [done|].
    exfalso. assert (cap ∈ ([] : list Capability)) as Hin by (rewrite <- Hcaps; by apply list_elem_of_filter).
    by apply elem_of_nil in Hin.
  - intros k. unfold key_scope, key_scope_for. destruct (ae_keys me) as [mine|]; [|done].
    destruct (ae_keys e) as [theirs|]; [|done]. apply guard_ok, negb_false_iff, bool_decide_eq_true in Hkeys.
    simpl. rewrite !bool_decide_eq_true. set_solver.
  - intros now. unfold is_expired. destruct (ae_expires_at me) as [mine|]; [|done].
    destruct (ae_expires_at e) as [theirs|]; [|done]. apply guard_ok, Z.ltb_ge in Htime.
    rewrite !Z.leb_gt. lia.
  - intros c Hc. unfold acl_entry_can_confer in Hc. destruct (approve_covers (ae_approve_scope e) c) eqn:Hs.
    + destruct (ae_approve_scope e) as [| |cs]; [done| |].
      * specialize (Hall eq_refl). apply acting_admin_confers; [by apply super_admin_role|by apply super_access].
      * apply existsb_true in Hs as (x & Hx & Hxc). apply guard_ok, negb_false_iff in Happ.
        eapply confer_beneath; [done|]. rewrite forallb_true in Happ. by apply Happ.
    + apply andb_true_iff in Hc as [Hadmin Hc]. apply bool_decide_eq_true in Hadmin.
      apply acting_admin_confers; [by apply (role_assignment_ok _ _ Hr)|by apply Hact].
Qed.

(** A marker bounds nothing of its own entry, nor does a version. *)
Lemma marked_bounded auth me e m : bounded auth me e → bounded auth me (with_handoff m e).
Proof. by intros []. Qed.
Lemma versioned_bounded auth me e v : bounded auth me e → bounded auth me (with_version v e).
Proof. by intros []. Qed.
Lemma unmarked_entry e : ae_handoff e = None → with_handoff None e = e.
Proof. destruct e. simpl. by intros ->. Qed.

(** An entry the caller administers touches only the caller's contexts. *)
Lemma covers_touches auth e c : caller_covers_entry auth e = true → touches c e = true → has_context_access auth c = true.
Proof.
  unfold caller_covers_entry, touches. destruct (is_super_admin auth) eqn:Hs; [intros _ _; by apply super_access|].
  intros [[Ha Hp]%andb_true_iff _]%andb_true_iff [Hc|Hc]%orb_true_iff.
  - unfold can_act_in in Hc. destruct (act_scope e) as [| |cs]; [done..|]. simpl in Hc.
    apply existsb_true in Hc as (x & Hx & Hxc). rewrite forallb_true in Ha. eapply access_beneath; [done|by apply Ha].
  - destruct (ae_approve_scope e) as [| |cs]; [done..|]. simpl in Hc.
    apply existsb_true in Hc as (x & Hx & Hxc). rewrite forallb_true in Hp. eapply access_beneath; [done|by apply Hp].
Qed.

(** ** What the operations read and write *)

Lemma read_row_later h h' did e : h `prefix_of` h' → read_row h did e → read_row h' did e.
Proof. intros [h1 ->] (b & Hb & He). exists b. split; [|done]. apply elem_of_app. by left. Qed.

Lemma caller_row_later auth h h' me : h `prefix_of` h' → caller_row auth h me → caller_row auth h' me.
Proof.
  intros Hpre. unfold caller_row. destruct (is_local_cli_principal auth); [done|].
  intros (Hr & r & Hn & Hx). split; [by eapply read_row_later|]. exists r. split; [|done].
  destruct Hpre as [h1 ->]. apply elem_of_app. by left.
Qed.

Lemma had_later rq h h' had : h `prefix_of` h' → had_listed rq h had → had_listed rq h' had.
Proof.
  intros Hpre. destruct rq; simpl; try done; intros (old & Ho & ->); exists old; (split; [by eapply read_row_later|done]).
Qed.

Section Steps.
Context (auth : AuthClaims) (rq : AclRequest).
Notation C := (writes_vetted auth rq).

Lemma vetted_quiet h c : (∀ key b, ¬ writes_row c key b) → C h c.
Proof.
  intros Hn. split; [|intros key b Hw; by destruct (Hn key b)].
  destruct c as [| |o x n v| | | | |]; [done..| |done|done|done|done|done]. by destruct (Hn n v).
Qed.

(** A call that writes nothing. *)
Ltac quiet := apply vetted_quiet; intros ? ? [].

Lemma reads_entry did h : always C (ok_then (λ h o, ∀ e, o = Some e → read_row h did e)) h (get_acl_entry did).
Proof.
  unfold get_acl_entry. refine (always_call_ok _ _ _ _ _ _ _ _); [done|quiet|]. intros [b|]; [|by intros e [=]].
  apply always_lift_ok; [done|]. intros e He e' [= <-]. exists b. split; [|done]. apply elem_of_app. right. left.
Qed.

Lemma reads_entry_bytes did h :
  always C (ok_then (λ h o, ∀ e b, o = Some (e, b) → read_row h did e ∧ entry_from_slice b = Ok e)) h
    (get_acl_entry_with_bytes did).
Proof.
  unfold get_acl_entry_with_bytes. refine (always_call_ok _ _ _ _ _ _ _ _); [done|quiet|]. intros [b|]; [|by intros e b [=]].
  apply always_lift_ok; [done|]. intros e He e' b' [= <- <-]. split; [|done].
  exists b. split; [|done]. apply elem_of_app. right. left.
Qed.

Lemma reads_now h : always C (ok_then (λ h now, ∃ r, mk_event NowEpoch r ∈ h ∧ now = unwrap_or r 0)) h now_epoch.
Proof. split; [quiet|]. intros r. exists r. split; [|done]. apply elem_of_app. right. left. Qed.

Lemma reads_contexts cs h : always C (ok_then (λ _ _, True)) h (require_contexts_exist cs).
Proof.
  revert h. induction cs as [|c cs IH]; intros h; [done|].
  cbn [require_contexts_exist]. refine (always_call_ok _ _ _ _ _ _ _ _); [done|quiet|]. intros found.
  apply always_refuse; [done|]. intros _. apply IH.
Qed.

Lemma reads_caller h : always C (ok_then (caller_row auth)) h (caller_entry auth).
Proof.
  unfold caller_entry. destruct (is_local_cli_principal auth) eqn:Hcli.
  - split; [quiet|]. intros r. simpl. unfold caller_row. by rewrite Hcli.
  - eapply always_seq; [done|apply reads_entry|]. intros [e|] h1 _ He; [|done].
    eapply always_seq; [done|apply reads_now|]. intros now h2 Hpre (r & Hr & ->).
    apply always_refuse; [done|]. intros Hx. simpl. unfold caller_row. rewrite Hcli.
    split; [eapply read_row_later; [done|by apply He]|by exists r].
Qed.

Lemma stores_vetted e h : vetted auth rq h e → always C (ok_then (λ _ _, True)) h (store_acl_entry e).
Proof.
  intros Hv. unfold store_acl_entry. apply always_lift_ok; [done|]. intros b Hb.
  refine (always_call_ok _ _ _ _ _ _ _ _); [done| |].
  { split; [done|]. intros key v Hw. simpl in Hw. apply list_elem_of_singleton in Hw as [= -> ->]. exists e. split; [|done].
    by apply entry_roundtrip. }
  intros o. split; [quiet|]. by intros [].
Qed.

Lemma deletes_row did h : always C (ok_then (λ _ _, True)) h (delete_acl_entry did).
Proof.
  unfold delete_acl_entry. refine (always_call_ok _ _ _ _ _ _ _ _); [done| |].
  { apply vetted_quiet. intros key v Hw. simpl in Hw. by apply list_elem_of_singleton in Hw. }
  intros o. split; [quiet|]. by intros [].
Qed.

(** ** The requests *)

(** What a patched entry keeps: nothing is approved that the caller does not
    administer. *)
Definition approves_own (e : AclEntry) : Prop :=
  (∀ c, approve_covers (ae_approve_scope e) c = true → has_context_access auth c = true)
  ∧ (ae_approve_scope e = ApproveAll → is_super_admin auth = true).

Definition patched (had : list Capability) (e : AclEntry) : Prop := approves_own e ∧ adds_own auth had e.

Lemma own_bounded me e :
  approves_own e →
  validate_role_assignment auth (ae_role e) = Ok () →
  validate_acl_modification auth (ae_role e) (ae_contexts e) = Ok () →
  validate_within_caller auth me e = Ok () →
  bounded auth me e ∧ (∀ c, touches c e = true → has_context_access auth c = true).
Proof.
  intros [Ho Hs] Hr Hm Hw. pose proof (within_bounded _ _ _ Hr Hm Hw Hs) as Hb. split; [done|].
  intros c [Hc|Hc]%orb_true_iff; [by eapply bounded_act|by apply Ho].
Qed.

Lemma granted_own s e :
  validate_approve_scope_grant auth s = Ok () → ae_approve_scope e = s → approves_own e.
Proof.
  intros Hg <-. split; [by apply approve_grant_ok|]. intros Ha. rewrite Ha in Hg.
  by apply guard_ok, negb_false_iff in Hg.
Qed.

Lemma covered_own e : caller_covers_entry auth e = true → approves_own e.
Proof.
  intros Hc. split.
  - intros c Ha. eapply covers_touches; [done|]. unfold touches. rewrite Ha. by rewrite orb_true_r.
  - intros Ha. unfold caller_covers_entry in Hc. destruct (is_super_admin auth); [done|].
    rewrite Ha, andb_false_r in Hc. done.
Qed.

Lemma granted_additive had cs e :
  validate_additive_capability_grant auth cs = Ok () → ae_capabilities e = cs → adds_own auth had e.
Proof.
  intros Hg%guard_ok <- cap Hin Hadd. left. apply negb_false_iff, orb_true_iff in Hg as [Hnone|]; [|done].
  apply bool_decide_eq_true in Hnone. exfalso.
  assert (cap ∈ ([] : list Capability)) as Hnil by (rewrite <- Hnone; by apply list_elem_of_filter).
  by apply elem_of_nil in Hnil.
Qed.

Lemma manages_own did h :
  always C (ok_then (λ h e, read_row h did e ∧ is_acl_entry_visible auth e = true
    ∧ patched (ae_capabilities e) e)) h
    (manageable auth did).
Proof.
  unfold manageable. eapply always_seq; [done|apply reads_entry|]. intros o h1 _ Ho.
  apply always_lift_ok; [done|]. intros e He. destruct o as [e'|]; [injection He as ->|done].
  apply always_refuse; [done|]. intros Hv%negb_false_iff. apply always_refuse; [done|].
  intros Hc%negb_false_iff. simpl. split_and!; [by apply Ho|done|]. split; [by apply covered_own|]. by right.
Qed.

(** A patch that keeps what is approved and what is added. *)
Lemma patch_own {B} had (x : option B) g e h :
  patched had e →
  (∀ b h, always C (ok_then (λ _, patched had)) h (g b e)) →
  always C (ok_then (λ _, patched had)) h (patch x g e).
Proof. intros He Hg. destruct x as [b|]; [apply Hg|done]. Qed.

Lemma patch_role_own had r e h : patched had e → always C (ok_then (λ _, patched had)) h (patch_role auth r e).
Proof. intros He. apply always_lift_ok; [done|]. by intros []. Qed.
Lemma patch_capabilities_own had cs e h :
  patched had e → always C (ok_then (λ _, patched had)) h (patch_capabilities auth cs e).
Proof.
  intros [Ho _]. apply always_refuse; [done|]. intros _. apply always_lift_ok; [done|].
  intros [] Hg. split; [done|]. by apply (granted_additive _ cs).
Qed.
Lemma patch_step_up_own had s e h : patched had e → always C (ok_then (λ _, patched had)) h (patch_step_up_require s e).
Proof.
  intros He. unfold patch_step_up_require. destruct (blank s); [done|]. by apply always_lift_ok.
Qed.
Lemma patch_contexts_own had cs e h : patched had e → always C (ok_then (λ _, patched had)) h (patch_contexts auth cs e).
Proof.
  intros He. unfold patch_contexts. cbv zeta. eapply (always_seq _ (λ _ _, True)); [done| |].
  { destruct (_ || _); [done|]. by destruct (for_all _ _). }
  intros _ h1 _ _. apply always_lift_ok; [done|]. intros _ _.
  eapply always_seq; [done|apply reads_contexts|]. by intros [].
Qed.
Lemma patch_keys_own had ks e h : patched had e → always C (ok_then (λ _, patched had)) h (patch_keys ks e).
Proof. intros He. apply always_lift_ok; [done|]. by intros []. Qed.
Lemma patch_approve_own had s e h : patched had e → always C (ok_then (λ _, patched had)) h (patch_approve_scope auth s e).
Proof.
  intros [_ Ha]. apply always_lift_ok; [done|]. intros [] Hs. eapply always_seq; [done|apply reads_contexts|].
  intros _ h1 _ _. split; [by apply (granted_own s)|exact Ha].
Qed.
End Steps.

Create HintDb patches.
Hint Resolve patch_role_own patch_capabilities_own patch_step_up_own patch_contexts_own patch_keys_own
  patch_approve_own : patches.

Ltac seq L := eapply always_seq; [done|apply L|].
Ltac checked := apply always_lift_ok; [done|].

Lemma judges auth rq me e h :
  always (writes_vetted auth rq)
    (ok_then (λ _ _, validate_role_assignment auth (ae_role e) = Ok ()
      ∧ validate_acl_modification auth (ae_role e) (ae_contexts e) = Ok ()
      ∧ validate_within_caller auth me e = Ok ())) h (judge_whole auth me e).
Proof.
  unfold judge_whole. checked. intros [] Hr. checked. intros [] Hm. unfold lift. simpl.
  by destruct (validate_within_caller auth me e) as [[]|].
Qed.

(** The row of the audit trail that closes a request, and its answer. *)
Lemma quiet_audit auth rq row (b : CreateAclResultBody) h :
  always (writes_vetted auth rq) (λ _ _, True) h (_ ← best_effort (RecordAudit row); mret b).
Proof. apply always_best_effort; [by apply vetted_quiet; intros ? ? []|done]. Qed.

Lemma create_vetted auth p : always (writes_vetted auth (RqCreate p)) (λ _ _, True) [] (create_acl auth p).
Proof.
  unfold create_acl. checked. intros _ _. checked. intros [] Hr. checked. intros [] Hm. checked. intros _ _.
  apply always_refuse; [done|]. intros _. checked. intros [] Hadd. checked. intros [] Hs.
  seq reads_contexts. intros _ h1 _ _. seq reads_contexts. intros _ h2 _ _. checked. intros step_up _.
  seq reads_entry. intros old h3 _ _. apply always_refuse; [done|]. intros _.
  seq reads_now. intros now h4 _ _. cbv zeta. seq reads_caller. intros me h5 _ Hme. checked. intros [] Hw.
  set (entry := with_capabilities _ _) in *.
  assert (bounded auth me entry ∧ (∀ c, touches c entry = true → has_context_access auth c = true)) as [Hb Ht].
  { apply own_bounded; [by apply (granted_own _ (cp_approve_scope p))|exact Hr|exact Hm|exact Hw]. }
  assert (adds_own auth [] entry) as Had by by apply (granted_additive _ _ (cp_capabilities p)).
  assert (ae_handoff entry = None) as Hn by reflexivity. clearbody entry.
  eapply (always_seq _ (λ h e, caller_row auth h me ∧ ∃ m, e = with_handoff m entry ∧ (cp_handoff p = false → m = None))); [done| |].
  - destruct (cp_handoff p).
    + unfold mint_handoff. apply always_bind.
      apply always_refuse; [done|]. intros _. apply always_refuse; [done|]. intros _.
      apply always_refuse; [done|]. intros _. seq reads_now. intros n h6 Hpre _. simpl.
      split; [by eapply caller_row_later|by eexists].
    + split; [done|]. exists None. by rewrite unmarked_entry.
  - intros e h6 _ (Hme' & m & -> & Hm').
    seq stores_vetted; [exists me; split_and!; [done|by apply marked_bounded|exact Ht|exact Hm'|exact Had]|].
    intros _ h7 _ _. by apply quiet_audit.
Qed.

Lemma update_vetted auth did p : always (writes_vetted auth (RqUpdate did p)) (λ _ _, True) [] (update_acl auth did p).
Proof.
  unfold update_acl. checked. intros _ _. checked. intros [] Hself%guard_ok%bool_decide_eq_false.
  seq manages_own. intros e h1 _ (Hold & _ & He). seq reads_caller. intros me h2 Hpre2 Hme.
  assert (had_listed (RqUpdate did p) h2 (ae_capabilities e)) as Hhad.
  { exists e. split; [by eapply read_row_later|done]. }
  clear Hold Hpre2. revert Hhad He. generalize (ae_capabilities e). intros had Hhad He.
  do 8 (seq patch_own; [eassumption|eauto with patches|]; clear dependent e;
        let e := fresh "e" in let h := fresh "h" in intros e h Hpre He; cbv beta in He;
        eapply caller_row_later in Hme; [|exact Hpre]; eapply had_later in Hhad; [|exact Hpre]; clear Hpre).
  cbv zeta.
  assert (patched auth had (patch_expiry p e)) as Ho.
  { unfold patch_expiry. by destruct (up_expires_at p), (up_clear_expiry p). }
  revert Ho. generalize (patch_expiry p e).
  intros entry [Ho Hadd]. seq judges. intros _ h9 Hpre (Hr & Hm & Hw). eapply caller_row_later in Hme; [|exact Hpre].
  eapply had_later in Hhad; [|exact Hpre].
  destruct (own_bounded _ _ _ Ho Hr Hm Hw) as [Hb Ht].
  seq stores_vetted; [exists me; split_and!; [done..|by exists had]|]. intros _ h10 _ _. by apply quiet_audit.
Qed.

Lemma change_role_vetted auth subject from to :
  always (writes_vetted auth (RqChangeRole subject from to)) (λ _ _, True) [] (change_role auth subject from to).
Proof.
  unfold change_role. checked. intros _ _. checked. intros [] Hself%guard_ok%bool_decide_eq_false.
  seq manages_own. intros e h1 _ (Hold & _ & He & Hadd). checked. intros f _. checked. intros t _.
  apply always_refuse; [done|]. intros _. checked. intros [] Hr. checked. intros [] Hm. cbv zeta.
  seq reads_caller. intros me h2 Hpre2 Hme. checked. intros [] Hw.
  assert (adds_own auth (ae_capabilities e) (set_role t e)) as Hadd' by exact Hadd.
  assert (had_listed (RqChangeRole subject from to) h2 (ae_capabilities e)) as Hhad.
  { exists e. split; [by eapply read_row_later|done]. }
  destruct (own_bounded auth me (set_role t e)) as [Hb Ht]; [exact He|exact Hr|exact Hm|exact Hw|].
  eapply (always_seq _ (λ _ _, True)); [done| |by intros; apply quiet_audit].
  clear Hw. revert Hb Ht Hadd'. generalize (set_role t e). intros entry Hb Ht Hadd'. unfold update_acl_entry_versioned.
  cbv zeta. refine (always_call_ok _ _ _ _ _ _ _ _); [done|by apply vetted_quiet; intros ? ? []|]. intros raw.
  checked. intros cur _. apply always_refuse; [done|]. intros _. checked. intros b Hb'.
  refine (always_call_ok _ _ _ _ _ _ _ _); [done| |].
  - split; [done|]. intros key v Hin. simpl in Hin. apply list_elem_of_singleton in Hin as [= -> ->]. eexists.
    split; [by apply entry_roundtrip|]. split; [done|]. exists me.
    split_and!; [|by apply versioned_bounded|exact Ht|done|exists (ae_capabilities e); split; [|exact Hadd']].
    + eapply caller_row_later; [|exact Hme]. by eexists.
    + eapply had_later; [|exact Hhad]. by eexists.
  - intros o. apply always_refuse; [done|]. intros _.
    refine (always_call_ok _ _ _ _ _ _ _ _); [done|by apply vetted_quiet; intros ? ? []|]. done.
Qed.

Lemma delete_vetted auth did : always (writes_vetted auth (RqDelete did)) (λ _ _, True) [] (delete_acl auth did).
Proof.
  unfold delete_acl. checked. intros _ _. apply always_refuse; [done|]. intros _.
  seq manages_own. intros e h1 _ _. checked. intros _ _. seq deletes_row. intros _ h2 _ _.
  split; [by apply vetted_quiet; intros ? ? []|]. done.
Qed.

Lemma swap_vetted auth presentation vta_did :
  always (writes_vetted auth (RqSwap presentation vta_did)) (λ _ _, True) [] (swap_acl auth presentation vta_did).
Proof.
  unfold swap_acl. checked. intros claimed _. refine (always_call_ok _ _ _ _ _ _ _ _); [done|by apply vetted_quiet; intros ? ? []|].
  intros doc. seq reads_now. intros now h1 _ (r & Hr & ->). checked. intros v Hv. cbv zeta.
  apply always_refuse; [done|]. intros _. seq reads_entry. intros o h2 Hp2 Ho.
  checked. intros old He. destruct o as [e|]; [injection He as ->|done]. apply always_refuse; [done|]. intros Hx.
  seq reads_entry. intros ex h3 Hp3 _. apply always_refuse; [done|]. intros _.
  assert (verify_swap presentation doc vta_did (unwrap_or r 0) = Ok v) as Hok.
  { destruct (verify_swap presentation doc vta_did (unwrap_or r 0)); [by injection Hv as ->|done]. }
  seq stores_vetted.
  - exists old, doc, r, v. split_and!; [eapply read_row_later; [exact Hp3|by apply Ho]| |done..].
    destruct Hp2 as [x ->], Hp3 as [y ->]. rewrite !elem_of_app. tauto.
  - intros _ h4 _ _. seq deletes_row. intros _ h5 _ _. by apply quiet_audit.
Qed.

(** What a successor was judged by bounds it twice. *)
Lemma judged_successor auth me m granter e :
  judge_successor auth me m granter e = Ok () → ae_approve_scope e = ApproveNone →
  bounded auth (with_expires_at None me) e
  ∧ bounded (granter_claims auth m) granter e
  ∧ (∀ cap, cap ∈ ae_capabilities e → is_additive cap = true → cap ∈ ae_capabilities me).
Proof.
  unfold judge_successor. cbv zeta. rewrite !bind_unit_ok, map_err_ok, !bind_unit_ok, guard_ok.
  intros (Hr & Hm & Hw & Ha & Hr' & Hm' & _ & Hw') Hn.
  split_and!; [apply within_bounded; [done..|by rewrite Hn]|apply within_bounded; [done..|by rewrite Hn]|].
  intros cap Hc Hadd. destruct (decide (cap ∈ ae_capabilities me)) as [|Hno]; [done|]. exfalso.
  apply not_true_iff_false in Ha. apply Ha, existsb_true. exists cap.
  split; [by apply list_elem_of_filter|]. by rewrite bool_decide_eq_false_2.
Qed.

Lemma handoff_vetted auth s : always (writes_vetted auth (RqHandOff s)) (λ _ _, True) [] (exercise_handoff auth s).
Proof.
  unfold exercise_handoff. seq reads_now. intros now h1 _ _. seq reads_entry_bytes. intros o h2 _ Ho.
  checked. intros [me expected] Hme. destruct o as [[me' b']|]; [injection Hme as -> ->|done].
  destruct (Ho _ _ eq_refl) as [Hrow Hslice].
  checked. intros marker Hmark. apply ok_or_ok in Hmark. apply always_refuse; [done|]. intros Hx.
  apply always_refuse; [done|]. intros _. apply always_refuse; [done|]. intros _.
  seq reads_now. intros gc h3 Hp3 _. apply always_refuse; [done|]. intros _.
  seq reads_contexts. intros _ h4 Hp4 _. seq reads_now. intros created h5 Hp5 _. cbv zeta.
  set (entry := with_expires_at _ _). checked. intros [] Hj.
  pose proof (judged_successor _ _ _ _ _ Hj eq_refl) as (Hb1 & Hb2 & Hadd).
  assert (ae_approve_scope entry = ApproveNone ∧ ae_handoff entry = None) as [Hap Hho] by done.
  clear Hj. clearbody entry.
  refine (always_call_ok _ _ _ _ _ _ _ _); [done|by apply vetted_quiet; intros ? ? []|]. intros [].
  apply always_then. eapply (always_impl _ (λ _ _, True)).
  { intros h' [[]|] _; (apply always_best_effort; [by apply vetted_quiet; intros ? ? []|done]). }
  unfold move_acl_entry_if_unchanged. checked. intros b Hb. refine (always_call_ok _ _ _ _ _ _ _ _); [done| |].
  - split; [by exists me, marker|]. intros key v [-> ->]. exists entry. split; [by apply entry_roundtrip|]. split; [done|].
    exists me, marker, now, gc. split_and!; try done.
    + eapply read_row_later; [|exact Hrow]. etrans; [exact Hp3|]. etrans; [exact Hp4|]. etrans; [exact Hp5|].
      by eexists.
    + apply elem_of_app. right. left.
  - intros []; try done. refine (always_call_ok _ _ _ _ _ _ _ _); [done|by apply vetted_quiet; intros ? ? []|done].
Qed.

(** Every write of every request comes from what the request read. *)
Lemma answering_vetted {A} auth rq (p : AgentProg A) f h :
  always (writes_vetted auth rq) (λ _ _, True) h p → always (writes_vetted auth rq) (λ _ _, True) h (answering p f).
Proof.
  intros Hp. eapply (always_seq _ (λ _ _, True)); [done| |done].
  eapply always_impl; [|exact Hp]. by intros h' [].
Qed.

Lemma request_vetted auth rq : always (writes_vetted auth rq) (λ _ _, True) [] (run_request auth rq).
Proof.
  destruct rq; apply answering_vetted;
    auto using create_vetted, update_vetted, change_role_vetted, delete_vetted, swap_vetted, handoff_vetted.
Qed.

(** ** Grants *)

Definition grants (rq : AclRequest) : bool :=
  match rq with RqCreate _ | RqUpdate _ _ | RqChangeRole _ _ _ => true | _ => false end.

Lemma written_vetted auth rq h p c key b :
  traced (run_request auth rq) h p → next_call p = Some c → writes_row c key b →
  ∃ e, entry_from_slice b = Ok e ∧ key = acl_key (ae_did e) ∧ vetted auth rq h e.
Proof.
  intros Ht Hn. pose proof (traced_always _ _ _ _ _ Ht (request_vetted auth rq)) as Ha.
  destruct (always_next _ _ _ _ _ Ha Hn) as [_ Hc]. apply Hc.
Qed.

(** C15 (nobody grants what they do not hold): whatever the store and the other
    services answer, each row a creation, an update or a role change writes
    is bounded by the caller: it acts nowhere the caller's token does not, has
    no capability beyond the caller's but for the additive ones, signs with no
    key the caller's own row does not, lasts no longer than that row, and
    confers nothing the caller could not. An additive capability, which no role
    carries, it lists only if the caller is a super-administrator (who need not
    hold it) or the row being changed listed it when it was read; a new row
    lists one only if the caller is a super-administrator. The caller's row was
    read live; the local operator counts as holding the agent's whole
    authority. *)
Theorem grant_bounded auth rq h p c key b :
  grants rq = true → traced (run_request auth rq) h p → next_call p = Some c → writes_row c key b →
  ∃ me e, caller_row auth h me ∧ entry_from_slice b = Ok e ∧ key = acl_key (ae_did e) ∧ bounded auth me e
    ∧ (∀ ctx, touches ctx e = true → has_context_access auth ctx = true)
    ∧ ∃ had, had_listed rq h had ∧ adds_own auth had e.
Proof.
  intros Hg Ht Hc Hw. destruct (written_vetted _ _ _ _ _ _ _ Ht Hc Hw) as (e & He & Hk & Hv).
  destruct rq; try done; destruct Hv as (me & ? & ? & ? & _ & Hadd); exists me, e; split_and!; try done.
  by exists [].
Qed.

(** A hand-off passes on no more than both hold: the row an exercise
    writes is bounded by the marked entry but for its expiry, and by the
    granter as it was when it set the marker; it carries no marker and
    approves nothing; and the audit trail recorded it before it was made. *)
Theorem handoff_bounded auth s h p c key b :
  traced (run_request auth (RqHandOff s)) h p → next_call p = Some c → writes_row c key b →
  ∃ me marker created e,
    read_row h (ac_did auth) me ∧ ae_handoff me = Some marker
    ∧ entry_from_slice b = Ok e ∧ key = acl_key (ae_did e)
    ∧ bounded auth (with_expires_at None me) e
    ∧ bounded (granter_claims auth marker) (granter_entry marker created) e
    ∧ ae_handoff e = None ∧ ae_approve_scope e = ApproveNone
    ∧ mk_event (RecordAudit (handoff_row auth (ae_did e) "committing")) (Ok ()) ∈ h.
Proof.
  intros Ht Hc Hw. destruct (written_vetted _ _ _ _ _ _ _ Ht Hc Hw) as (e & He & Hk & me & m & now & cr & Hv).
  exists me, m, cr, e. tauto.
Qed.

(** ** Authority in a context *)

(** No row touches the context. *)
Definition untouched (ctx : string) (w : AgentWorld) : Prop :=
  ∀ key b e, w_rows w !! key = Some b → entry_from_slice b = Ok e → touches ctx e = false.
Definition saw_untouched (ctx : string) (h : list (Event AgentCall)) : Prop :=
  ∀ did e, read_row h did e → touches ctx e = false.

Definition served (reqs : list (AuthClaims * AclRequest)) : list (AgentProg (option CreateAclResultBody)) :=
  (λ '(auth, rq), run_request auth rq) <$> reqs.

(** What holds of each row holds of it after a call that writes such rows. *)
Lemma write_keeps (P : string → AclEntry → Prop) c w :
  (∀ key b e, w_rows w !! key = Some b → entry_from_slice b = Ok e → P key e) →
  (∀ key b e, writes_row c key b → entry_from_slice b = Ok e → P key e) →
  ∀ key b e, w_rows (exec c w).2 !! key = Some b → entry_from_slice b = Ok e → P key e.
Proof.
  intros Hw Hc. destruct c as [| [cs ws] | o x n v| | | | |]; try exact Hw.
  - cbn [exec agent_calls agent_exec]. unfold apply_batch. simpl. destruct (validate_batch _); simpl; [|exact Hw].
    destruct (first_failing 0 (w_rows w) cs); simpl; [exact Hw|]. simpl in Hc.
    revert Hw. generalize (w_rows w). induction ws as [|wr ws IH]; intros m Hm; [exact Hm|].
    simpl. apply IH; [intros key b e Hin; apply (Hc key); by right|].
    intros key b e. destruct wr as [k' b'|k']; simpl.
    + intros [[<- <-]|[_ Hk]]%lookup_insert_Some; [apply (Hc k'); left|by apply (Hm key)].
    + intros [_ Hk]%lookup_delete_Some. by apply (Hm key).
  - cbn [exec agent_calls agent_exec]. unfold move_if_unchanged. simpl. destruct (w_rows w !! o); [|exact Hw].
    case_bool_decide; [exact Hw|]. case_bool_decide; [exact Hw|]. simpl.
    intros key b e [_ [[<- <-]|[_ Hk]]%lookup_insert_Some]%lookup_delete_Some; [by apply (Hc n)|by apply (Hw key)].
Qed.

(** What a request reads and writes outside its caller's authority. *)
Lemma vetted_outside auth rq h e ctx :
  has_context_access auth ctx = false → saw_untouched ctx h → vetted auth rq h e → touches ctx e = false.
Proof.
  intros Hauth Hsaw Hv. apply not_true_iff_false. intros Ht.
  assert (has_context_access auth ctx = true → False) as Hno by (rewrite Hauth; done).
  destruct rq as [p|did p|did f t|did|pres vta|s]; simpl in Hv.
  - destruct Hv as (me & _ & _ & Hc & _). by apply Hno, Hc.
  - destruct Hv as (me & _ & _ & Hc & _). by apply Hno, Hc.
  - destruct Hv as (me & _ & _ & Hc & _). by apply Hno, Hc.
  - done.
  - destruct Hv as (old & doc & r & v & Hold & _ & _ & _ & ->). apply Hsaw in Hold.
    change (touches ctx old = true) in Ht. by rewrite Hold in Ht.
  - destruct Hv as (me & m & now & cr & _ & _ & Hb & _ & _ & _ & _ & Hap & _). unfold touches in Ht.
    rewrite Hap in Ht. apply orb_true_iff in Ht as [Ht|Ht]; [by eapply Hno, bounded_act|done].
Qed.

Lemma served_writes (C : list (Event AgentCall) → AgentCall → Prop) reqs i p :
  (∀ auth rq h c, (auth, rq) ∈ reqs → writes_vetted auth rq h c → C h c) →
  served reqs !! i = Some p → always C (λ _ _, True) [] p.
Proof.
  intros HC Hi. unfold served in Hi. rewrite list_lookup_fmap in Hi. apply fmap_Some in Hi as ([auth rq] & Hi & ->).
  eapply always_allows; [|apply request_vetted]. intros h c Hc. eapply HC; [|exact Hc].
  by eapply list_elem_of_lookup_2.
Qed.

(** The row an event brought. *)
Definition read_of (ev : Event AgentCall) : option (string * bytes) :=
  match ev with mk_event (GetRaw k) (Ok (Some b)) => Some (k, b) | _ => None end.

Lemma read_row_last h ev did e :
  read_row (h ++ [ev]) did e → read_row h did e ∨ ∃ b, read_of ev = Some (acl_key did, b) ∧ entry_from_slice b = Ok e.
Proof.
  intros (b & [Hin|Hin]%elem_of_app & He); [left; by exists b|right]. exists b. split; [|done].
  apply list_elem_of_singleton in Hin. by rewrite <- Hin.
Qed.

Lemma reads_rows c w k b : read_of (mk_event c (exec c w).1) = Some (k, b) → w_rows w !! k = Some b.
Proof.
  destruct c; simpl; try done.
  destruct (w_rows w !! _) eqn:Hk; [|done]. by intros [= <- <-].
Qed.

(** C4 (authority in a context is not gained from outside it): where no
    entry acts or approves in a context and none of the callers does either,
    no service of any requests, in any interleaving and with any failures and
    late writes, ever stores an entry that does. *)
Theorem authority_contained ctx reqs w s :
  untouched ctx w → (∀ auth rq, (auth, rq) ∈ reqs → has_context_access auth ctx = false) →
  rtc service_step (mk_service w [] (begin <$> served reqs)) s → untouched ctx (sv_world s).
Proof.
  intros Hw Hauth Hrun.
  set (C := λ h c, ∃ auth rq, (auth, rq) ∈ reqs ∧ writes_vetted auth rq h c).
  assert (service_ok (untouched ctx) (saw_untouched ctx) C (λ _ _ _, True) s) as Hs; [|by apply Hs].
  assert (∀ h c e0, saw_untouched ctx h → saw_untouched ctx (h ++ [mk_event c (Err e0)])) as Hfail.
  { intros h c e0 Hg did e [Hold|(b & Hb & He)]%read_row_last; [by apply (Hg did)|]. by destruct c. }
  eapply service_always; [..|exact Hw| | |exact Hrun].
  - intros h c w1 Hg (auth & rq & Hin & _ & Hc) Hw1. split.
    + refine (write_keeps (λ _ e, touches ctx e = false) c w1 Hw1 _).
      intros key b e Hwr He. destruct (Hc _ _ Hwr) as (e' & He' & _ & Hv). rewrite He in He'. injection He' as <-.
      eapply vetted_outside; [by eapply Hauth|done..].
    + intros did e [Hold|(b & Hb & He)]%read_row_last; [by apply (Hg did)|].
      by apply (Hw1 (acl_key did) b), He; apply reads_rows in Hb.
  - intros h c w1 r w2 Hg _ Hw1 [-> [e0 ->]]. split; [done|by apply Hfail].
  - intros h c e0 Hg _ _. by apply Hfail.
  - intros w1 w2 [Hr _] Hw1. unfold untouched. by rewrite Hr.
  - done.
  - done.
  - intros did e (b & Hin & _). by apply elem_of_nil in Hin.
  - intros i p Hi. eapply served_writes; [|exact Hi]. intros auth rq h c Hin Hc. by exists auth, rq.
Qed.

(** ** Once *)

(** The request neither sets a marker nor stores one it read. *)
Definition leaves_no_marker (rq : AclRequest) : bool :=
  match rq with
  | RqCreate p => negb (cp_handoff p)
  | RqUpdate _ _ | RqChangeRole _ _ _ => false
  | RqDelete _ | RqSwap _ _ | RqHandOff _ => true
  end.

Definition unmarked (did : string) (w : AgentWorld) : Prop :=
  ∀ b e, w_rows w !! acl_key did = Some b → entry_from_slice b = Ok e → ae_handoff e = None.

(** The move of the subject's row. *)
Definition moved_from (did : string) (ev : Event AgentCall) : Prop :=
  match ev with mk_event (MoveIfUnchanged o _ _ _) (Ok Moved) => o = acl_key did | _ => False end.

Lemma vetted_unmarked auth rq h e : leaves_no_marker rq = true → vetted auth rq h e → ae_handoff e = None.
Proof.
  destruct rq as [p|did p|did f t|did|pres vta|s]; simpl; intros Hl Hv; try done.
  - destruct Hv as (me & _ & _ & _ & Hn & _). by apply Hn, negb_true_iff.
  - by destruct Hv as (old & doc & r & v & _ & _ & _ & _ & ->).
  - by destruct Hv as (me & m & now & cr & _ & _ & _ & _ & _ & _ & _ & _ & Hn).
Qed.

Lemma unmarked_kept auth rq h c w did :
  leaves_no_marker rq = true → writes_vetted auth rq h c → unmarked did w → unmarked did (exec c w).2.
Proof.
  intros Hl [_ Hc] Hw b e Hb He.
  refine (write_keeps (λ key e, key = acl_key did → ae_handoff e = None) c w _ _ _ _ _ Hb He eq_refl).
  - intros key b' e' Hk He' ->. by eapply Hw.
  - intros key b' e' Hwr He' _. destruct (Hc _ _ Hwr) as (e1 & He1 & _ & Hv). rewrite He' in He1. injection He1 as <-.
    by eapply vetted_unmarked.
Qed.

(** A move finds the marked row, and leaves none. *)
Lemma moved_spends auth rq h c w did :
  leaves_no_marker rq = true → writes_vetted auth rq h c → moved_from did (mk_event c (exec c w).1) →
  ¬ unmarked did w ∧ unmarked did (exec c w).2.
Proof.
  intros Hl Hv Hm. destruct c as [| |o x n v| | | | |]; try done.
  destruct Hv as [(me & m & Hme & Hmk) Hc].
  destruct (Hc n v) as (e & He & _ & Hv); [done|]. pose proof (vetted_unmarked _ _ _ _ Hl Hv) as Hn.
  revert Hm. unfold moved_from, exec, agent_calls, agent_exec, move_if_unchanged. destruct (w_rows w !! o) as [cur|] eqn:Ho; [|done].
  destruct (bool_decide_reflect (cur ≠ x)) as [|Hx%dec_stable]; [done|]. case_bool_decide as Ht; [done|].
  simpl. intros ->. subst cur. split.
  - intros Hu. specialize (Hu _ _ Ho Hme). congruence.
  - intros b' e' Hb _. cbn in Hb. by apply lookup_delete_Some in Hb as [Hk _].
Qed.

Ltac skip := eapply always_seq; [done|apply always_any|].

(** An exercise that succeeds moved the row. *)
Lemma exercise_moves auth s :
  always (λ _ _, True) (ok_then (λ h _, Exists (moved_from (ac_did auth)) h)) [] (run_request auth (RqHandOff s)).
Proof.
  unfold run_request, answering. apply always_bind. unfold exercise_handoff.
  skip. intros now h1 _ _.
  skip. intros o h2 _ _.
  checked. intros [me expected] _. checked. intros marker _. apply always_refuse; [done|]. intros _.
  apply always_refuse; [done|]. intros _. apply always_refuse; [done|]. intros _.
  skip. intros gc h3 _ _.
  apply always_refuse; [done|]. intros _.
  skip. intros _ h4 _ _.
  skip. intros cr h5 _ _.
  cbv zeta. checked. intros _ _. refine (always_call_ok _ _ _ _ _ _ _ _); [done..|]. intros u0. apply always_then.
  unfold move_acl_entry_if_unchanged. apply always_lift; [|done].
  intros b _. split; [done|]. intros [[]|e]; try done.
  split; [done|]. intros [[]|e]; [|done]. split; [done|]. intros r. simpl. rewrite !Exists_app.
  left. left. right. by left.
Qed.

(** C26 (a hand-off is exercised once): of requests served together, none of
    which sets a marker or stores one it read, at most one exercise of a
    subject's hand-off succeeds, in any interleaving and with any failures
    and late writes. *)
Theorem handoff_once reqs w s i j auth_i auth_j s_i s_j t_i t_j a_i a_j :
  (∀ auth rq, (auth, rq) ∈ reqs → leaves_no_marker rq = true) →
  rtc service_step (mk_service w [] (begin <$> served reqs)) s →
  reqs !! i = Some (auth_i, RqHandOff s_i) → reqs !! j = Some (auth_j, RqHandOff s_j) →
  ac_did auth_i = ac_did auth_j →
  sv_threads s !! i = Some t_i → th_prog t_i = Ret (Ok a_i) →
  sv_threads s !! j = Some t_j → th_prog t_j = Ret (Ok a_j) →
  i = j.
Proof.
  intros Hl Hrun Hi Hj Hd Hti Hai Htj Haj.
  set (C := λ h c, ∃ auth rq, (auth, rq) ∈ reqs ∧ writes_vetted auth rq h c).
  set (Q := λ i, match reqs !! i with
                 | Some (auth, RqHandOff _) => ok_then (λ h _, Exists (moved_from (ac_did auth)) h)
                 | _ => λ _ (_ : result AppError (option CreateAclResultBody)), True
                 end).
  assert (service_ok (λ _, True) (λ _, True) (λ _ _, True) Q s) as Hq.
  { eapply service_always; [done..| |done|done| |exact Hrun].
    { intros n h e. unfold Q. by destruct (reqs !! n) as [[a []]|]. }
    intros n p Hn. unfold served in Hn.
    rewrite list_lookup_fmap in Hn. apply fmap_Some in Hn as ([auth rq] & Hn & ->). unfold Q. rewrite Hn.
    destruct rq; try (by eapply always_impl, always_any). apply exercise_moves. }
  destruct (ok_threads _ _ _ _ _ Hq _ _ Hti) as [_ Hqi]. rewrite Hai in Hqi. unfold Q in Hqi. rewrite Hi in Hqi.
  destruct (ok_threads _ _ _ _ _ Hq _ _ Htj) as [_ Hqj]. rewrite Haj in Hqj. unfold Q in Hqj. rewrite Hj in Hqj.
  rewrite <- Hd in Hqj.
  eapply (@service_once _ _ agent_calls _ C (moved_from (ac_did auth_i)) (unmarked (ac_did auth_i))); [..|exact Hrun|exact Hti|exact Htj|done|done].
  - intros h c w1 r w2 (auth & rq & Hin & Hv) [He|[_ [e ->]]] Hm; [|by destruct c].
    replace r with (exec c w1).1 in Hm by (by rewrite He). replace w2 with (exec c w1).2 by (by rewrite He).
    eapply moved_spends; [by eapply Hl|done..].
  - intros h c w1 r w2 (auth & rq & Hin & Hv) [He|[-> _]] Hu; [|done].
    replace w2 with (exec c w1).2 by (by rewrite He). eapply unmarked_kept; [by eapply Hl|done..].
  - intros h c e _ _ Hf. by destruct c.
  - intros w1 w2 [Hr _] Hw1. unfold unmarked. by rewrite Hr.
  - done.
  - apply Forall_lookup. intros n p Hn. eapply served_writes; [|exact Hn]. intros auth rq h c Hin Hc. by exists auth, rq.
Qed.
End AclSafety.
