(* ===== verification/AclEffects.v ===== *)
(** * What a request on the access control list does

    The operations of [AclOps] run alone with nothing failing: a request that
    is refused leaves every row as it was, and one that is answered changes
    the one row it names, or moves it. *)

From S2P Require Import Prelude Text Json Election Host Contexts Programs Keyspace Acl SwapProof AclOps AclSafety.

Section AclEffects.
Context `{AclSerde, !AclSerdeLaws, Jws, SwapSerde, Multibase, Serde}.

(** ** Running a program *)

(** [p] changes nothing, and [P] holds of its answer. *)
Definition only_reads {A} (P : A → Prop) (p : AgentProg A) (w : AgentWorld) : Prop :=
  ∃ r, run p w = (r, w) ∧ ∀ a, r = Ok a → P a.
Definition ends {A} (Q : result AppError A → AgentWorld → Prop) (p : AgentProg A) (w : AgentWorld) : Prop :=
  Q (run p w).1 (run p w).2.

Lemma only_reads_bind {A B} P Q (p : AgentProg A) (f : A → AgentProg B) w :
  only_reads P p w → (∀ a, P a → only_reads Q (f a) w) → only_reads Q (p ≫= f) w.
Proof.
  intros (r & Hr & HP) Hf. unfold only_reads. setoid_rewrite run_bind. rewrite Hr.
  destruct r as [a|e]; [by apply Hf, HP|]. by exists (Err e).
Qed.
Lemma ends_reads {A B} P Q (p : AgentProg A) (f : A → AgentProg B) w :
  only_reads P p w → (∀ e, Q (Err e) w) → (∀ a, P a → ends Q (f a) w) → ends Q (p ≫= f) w.
Proof.
  intros (r & Hr & HP) He Hf. unfold ends. rewrite run_bind, Hr. destruct r as [a|e]; [by apply Hf, HP|by apply He].
Qed.

Lemma reads_lift {A} (r : result AppError A) w : only_reads (λ a, r = Ok a) (lift r) w.
Proof. by exists r. Qed.
Lemma reads_refuse b e w : only_reads (λ _, b = false) (refuse_if b e) w.
Proof. exists (guard_err b e). split; [done|]. by intros [] ?%guard_ok. Qed.
Lemma reads_ret {A} (a : A) w : only_reads (λ x, x = a) (mret a) w.
Proof. exists (Ok a). split; [done|]. by intros x [= ->]. Qed.
Lemma reads_weaken {A} (P P' : A → Prop) p w : (∀ a, P a → P' a) → only_reads P p w → only_reads P' p w.
Proof. intros HP (r & Hr & Ha). exists r. split; [done|]. intros a ?. by apply HP, Ha. Qed.

(** The row of a subject. *)
Definition stored (w : AgentWorld) (did : string) (raw : bytes) (e : AclEntry) : Prop :=
  w_rows w !! acl_key did = Some raw ∧ entry_from_slice raw = Ok e.

Lemma reads_get did w :
  only_reads (λ o, match o with None => w_rows w !! acl_key did = None | Some e => ∃ raw, stored w did raw e end)
    (get_acl_entry did) w.
Proof.
  unfold get_acl_entry, only_reads. simpl. destruct (w_rows w !! acl_key did) as [raw|] eqn:Hk.
  - destruct (entry_from_slice raw) as [e|e] eqn:He; simpl; eexists; (split; [done|]); [|done].
    intros a [= <-]. by exists raw.
  - eexists. split; [done|]. by intros a [= <-].
Qed.
Lemma reads_get_bytes did w :
  only_reads (λ o, match o with None => True | Some (e, raw) => stored w did raw e end) (get_acl_entry_with_bytes did) w.
Proof.
  unfold get_acl_entry_with_bytes, only_reads. simpl. destruct (w_rows w !! acl_key did) as [raw|] eqn:Hk.
  - destruct (entry_from_slice raw) as [e|e] eqn:He; simpl; eexists; (split; [done|]); [|done].
    by intros a [= <-].
  - eexists. split; [done|]. by intros a [= <-].
Qed.
Lemma reads_clock w : only_reads (λ now, now = w_now w) now_epoch w.
Proof. exists (Ok (w_now w)). split; [done|]. by intros a [= <-]. Qed.
Lemma reads_registered cs w : only_reads (λ _, True) (require_contexts_exist cs) w.
Proof.
  induction cs as [|c cs IH]; [by eexists|]. cbn [require_contexts_exist].
  eapply (only_reads_bind (λ _, True)); [by eexists|]. intros found _.
  eapply only_reads_bind; [apply reads_refuse|]. by intros.
Qed.
Lemma reads_me auth w : only_reads (λ _, True) (caller_entry auth) w.
Proof.
  unfold caller_entry. destruct (is_local_cli_principal auth).
  - eapply only_reads_bind; [apply reads_clock|]. intros. by eexists.
  - eapply only_reads_bind; [apply reads_get|]. intros [e|] _; [|by eexists].
    eapply only_reads_bind; [apply reads_clock|]. intros now _.
    eapply only_reads_bind; [apply reads_refuse|]. intros. by eexists.
Qed.
Lemma reads_manageable auth did w : only_reads (λ e, ∃ raw, stored w did raw e) (manageable auth did) w.
Proof.
  unfold manageable. eapply only_reads_bind; [apply reads_get|]. intros o Ho.
  eapply only_reads_bind; [apply reads_lift|]. intros e ->%ok_or_ok.
  eapply only_reads_bind; [apply reads_refuse|]. intros _ _.
  eapply only_reads_bind; [apply reads_refuse|]. intros _ _.
  eapply reads_weaken; [|apply reads_ret]. by intros a ->.
Qed.

Tactic Notation "reading" uconstr(L) := eapply only_reads_bind; [eapply L|].
Ltac returns := eapply reads_weaken; [|apply reads_ret]; by intros ? ->.

Lemma reads_mint auth me subject t w : only_reads (λ _, True) (mint_handoff auth me subject t) w.
Proof.
  unfold mint_handoff. do 3 (reading reads_refuse; intros _ _). reading reads_clock. intros now _. by eexists.
Qed.
Lemma reads_judge auth me e w : only_reads (λ _, True) (judge_whole auth me e) w.
Proof.
  unfold judge_whole. do 2 (reading reads_lift; intros _ _). eapply reads_weaken; [|apply reads_lift]. done.
Qed.

(** A patch keeps the entry's subject. *)
Notation keeps_did e := (λ e', ae_did e' = ae_did e).
Lemma reads_patch {B} (x : option B) g e w :
  (∀ b, only_reads (keeps_did e) (g b e) w) → only_reads (keeps_did e) (patch x g e) w.
Proof. intros Hg. destruct x as [b|]; [apply Hg|returns]. Qed.
Lemma reads_patch_role auth r e w : only_reads (keeps_did e) (patch_role auth r e) w.
Proof. unfold patch_role. reading reads_lift. intros _ _. returns. Qed.
Lemma reads_patch_capabilities auth cs e w : only_reads (keeps_did e) (patch_capabilities auth cs e) w.
Proof. unfold patch_capabilities. reading reads_refuse. intros _ _. reading reads_lift. intros _ _. returns. Qed.
Lemma reads_patch_step_up s e w : only_reads (keeps_did e) (patch_step_up_require s e) w.
Proof.
  unfold patch_step_up_require. eapply (only_reads_bind (λ _, True)); [destruct (blank s); by eexists|].
  intros m _. returns.
Qed.
Lemma reads_patch_contexts auth cs e w : only_reads (keeps_did e) (patch_contexts auth cs e) w.
Proof.
  unfold patch_contexts. cbv zeta. eapply (only_reads_bind (λ _, True)); [destruct (_ || _); by eexists|]. intros _ _.
  reading reads_lift. intros _ _. reading reads_registered. intros _ _. returns.
Qed.
Lemma reads_patch_keys ks e w : only_reads (keeps_did e) (patch_keys ks e) w.
Proof. unfold patch_keys. reading reads_lift. intros _ _. returns. Qed.
Lemma reads_patch_approve auth s e w : only_reads (keeps_did e) (patch_approve_scope auth s e) w.
Proof. unfold patch_approve_scope. reading reads_lift. intros _ _. reading reads_registered. intros _ _. returns. Qed.

(** ** What each request changes *)

Notation Answered := (option CreateAclResultBody).

(** What a request served in [w] and answered [a] leaves the rows as. *)
Definition effect (auth : AuthClaims) (w : AgentWorld) (rq : AclRequest) (a : Answered) (m : Rows) : Prop :=
  match rq with
  | RqCreate p =>
      w_rows w !! acl_key (cp_did p) = None
      ∧ ∃ e b, ae_did e = cp_did p ∧ entry_to_vec e = Ok b ∧ a = Some (to_result_body e)
        ∧ m = <[acl_key (cp_did p) := b]> (w_rows w)
  | RqUpdate did _ =>
      ∃ raw old e b, stored w did raw old ∧ ae_did e = ae_did old
        ∧ entry_to_vec e = Ok b ∧ a = Some (to_result_body e)
        ∧ m = <[acl_key (ae_did old) := b]> (w_rows w)
  | RqChangeRole did from to =>
      ∃ raw old role b, stored w did raw old ∧ role_parse from = Ok (ae_role old) ∧ role_parse to = Ok role
        ∧ entry_to_vec (with_version (next_version (ae_version old)) (set_role role old)) = Ok b
        ∧ a = Some (to_result_body (set_role role old))
        ∧ m = <[acl_key (ae_did old) := b]> (w_rows w)
  | RqDelete did => is_Some (w_rows w !! acl_key did) ∧ a = None ∧ m = delete (acl_key did) (w_rows w)
  | RqSwap presentation vta_did =>
      ∃ raw old claimed doc v b, stored w (ac_did auth) raw old
        ∧ peek_holder presentation = Ok claimed ∧ w_documents w !! claimed = Some doc
        ∧ verify_swap presentation doc vta_did (w_now w) = Ok v ∧ is_expired old (w_now w) = false
        ∧ vs_holder v ≠ ac_did auth ∧ w_rows w !! acl_key (vs_holder v) = None
        ∧ entry_to_vec (with_handoff None (set_did (vs_holder v) old)) = Ok b
        ∧ a = Some (to_result_body (with_handoff None (set_did (vs_holder v) old)))
        ∧ m = delete (acl_key (ac_did auth)) (<[acl_key (vs_holder v) := b]> (w_rows w))
  | RqHandOff s =>
      ∃ raw me e b, stored w (ac_did auth) raw me ∧ is_Some (ae_handoff me) ∧ is_expired me (w_now w) = false
        ∧ hs_did s ≠ ac_did auth ∧ w_rows w !! acl_key (hs_did s) = None
        ∧ ae_did e = hs_did s ∧ entry_to_vec e = Ok b ∧ a = Some (to_result_body e)
        ∧ m = delete (acl_key (ac_did auth)) (<[acl_key (hs_did s) := b]> (w_rows w))
  end.

(** Refused, nothing changed; answered, [D] holds of the rows. *)
Definition or_nothing {A} (w0 : AgentWorld) (D : A → Rows → Prop) (r : result AppError A) (w : AgentWorld) : Prop :=
  match r with Err _ => w_rows w = w_rows w0 | Ok a => D a (w_rows w) end.

Lemma ends_store {A} Q e (f : () → AgentProg A) w :
  (∀ err, Q (Err err) w) →
  (∀ b, entry_to_vec e = Ok b → ends Q (f ()) (set_rows (<[acl_key (ae_did e) := b]> (w_rows w)) w)) →
  ends Q (store_acl_entry e ≫= f) w.
Proof.
  intros He Hf. unfold ends. rewrite run_bind. unfold store_acl_entry. destruct (entry_to_vec e) as [b|err]; [|apply He].
  by apply Hf.
Qed.
Lemma ends_delete {A} Q did (f : () → AgentProg A) w :
  ends Q (f ()) (set_rows (delete (acl_key did) (w_rows w)) w) → ends Q (delete_acl_entry did ≫= f) w.
Proof. done. Qed.
Lemma ends_audit {A} (Q : result AppError A → AgentWorld → Prop) row b w :
  (∀ w', w_rows w' = w_rows w → Q (Ok b) w') → ends Q (_ ← best_effort (RecordAudit row); mret b) w.
Proof. intros HQ. by apply HQ. Qed.

Tactic Notation "read" uconstr(L) := eapply ends_reads; [eapply L|done|].
Ltac checks := read reads_lift; intros [] _.
Ltac refuses := read reads_refuse; intros [] _.

Lemma create_effect auth p w :
  ends (or_nothing w (λ b, effect auth w (RqCreate p) (Some b))) (create_acl auth p) w.
Proof.
  unfold create_acl. do 4 checks. refuses. do 2 checks.
  do 2 (read reads_registered; intros _ _). read reads_lift.
  intros step_up _. read reads_get. intros old Hold. read reads_refuse. intros [] Hn.
  read reads_clock. intros now _. cbv zeta. read reads_me. intros me _. checks.
  eapply (ends_reads (λ e, ae_did e = cp_did p)); [|done|].
  { destruct (cp_handoff p); [|by eapply reads_weaken; [|apply reads_ret]; intros ? ->].
    eapply only_reads_bind; [apply reads_mint|]. intros m _. by eapply reads_weaken; [|apply reads_ret]; intros ? ->. }
  intros e He. apply ends_store; [done|]. intros b Hb. apply ends_audit. intros w' Hw'. simpl. rewrite Hw', He.
  split; [|by exists e, b]. apply bool_decide_eq_false in Hn. destruct old; [|done]. by destruct Hn.
Qed.

Lemma update_effect auth did p w :
  ends (or_nothing w (λ b, effect auth w (RqUpdate did p) (Some b))) (update_acl auth did p) w.
Proof.
  unfold update_acl. do 2 checks. read reads_manageable. intros old [raw Hs]. read reads_me. intros me _.
  read reads_patch; [intros ?; apply reads_patch_role|]. intros e1 H1'.
  read reads_patch; [intros b; returns|]. intros e2 H2'.
  read reads_patch; [intros ?; apply reads_patch_capabilities|]. intros e3 H3'.
  read reads_patch; [intros b; returns|]. intros e4 H4'.
  read reads_patch; [intros ?; apply reads_patch_step_up|]. intros e5 H5'.
  read reads_patch; [intros ?; apply reads_patch_contexts|]. intros e6 H6'.
  read reads_patch; [intros ?; apply reads_patch_keys|]. intros e7 H7'.
  read reads_patch; [intros ?; apply reads_patch_approve|]. intros e8 H8'. cbv zeta.
  assert (ae_did (patch_expiry p e8) = ae_did old) as He.
  { unfold patch_expiry. destruct (up_expires_at p), (up_clear_expiry p); simpl; congruence. }
  revert He. generalize (patch_expiry p e8). intros entry He. read reads_judge. intros _ _.
  apply ends_store; [done|]. intros b Hb. apply ends_audit. intros w' Hw'. simpl. rewrite Hw', He.
  by exists raw, old, entry, b.
Qed.

Lemma apply_put check key b m :
  holds m check = true → apply_batch (mk_batch [check] [Put key b]) m = (Ok Applied, <[key := b]> m).
Proof. intros Hh. unfold apply_batch. simpl. by rewrite Hh. Qed.

Lemma ends_versioned {A} Q e v (f : Z → AgentProg A) w :
  (∀ err, Q (Err err) w) →
  (∀ b, entry_to_vec (with_version (next_version v) e) = Ok b →
    ends Q (f (next_version v)) (set_rows (<[acl_key (ae_did e) := b]> (w_rows w)) w)) →
  ends Q (update_acl_entry_versioned e v ≫= f) w.
Proof.
  intros He Hf. unfold ends. rewrite run_bind. unfold update_acl_entry_versioned. cbv zeta.
  rewrite run_bind. simpl.
  set (cur := match w_rows w !! acl_key (ae_did e) with None => Ok None | Some b => Some <$> entry_from_slice b end).
  destruct cur as [current|err]; [|apply He]. simpl.
  destruct (guard_err _ AppConflict); [|apply He]. simpl.
  destruct (entry_to_vec (with_version (next_version v) e)) as [b|err] eqn:Hb; [|apply He]. simpl.
  rewrite apply_put; [by apply Hf|]. by destruct (w_rows w !! _) eqn:Hr; apply bool_decide_eq_true_2.
Qed.

Lemma change_role_effect auth did from to w :
  ends (or_nothing w (λ b, effect auth w (RqChangeRole did from to) (Some b))) (change_role auth did from to) w.
Proof.
  unfold change_role. do 2 checks. read reads_manageable. intros old [raw Hs].
  read reads_lift. intros r_from Hf%map_err_ok. read reads_lift. intros r_to Ht%map_err_ok.
  read reads_refuse. intros [] Heq%bool_decide_eq_false%dec_stable. do 2 checks. cbv zeta. read reads_me. intros me _.
  checks. apply ends_versioned; [done|]. intros b Hb. apply ends_audit. intros w' Hw'. simpl. rewrite Hw'.
  subst r_from. by exists raw, old, r_to, b.
Qed.

Lemma delete_effect auth did w :
  ends (or_nothing w (λ _, effect auth w (RqDelete did) None)) (delete_acl auth did) w.
Proof.
  unfold delete_acl. checks. refuses. read reads_manageable. intros old (raw & Hraw & _). checks.
  apply ends_delete. split; [by eexists|done].
Qed.

Lemma reads_resolve did w : only_reads (λ doc, w_documents w !! did = Some doc) (call (ResolveDid did)) w.
Proof.
  unfold only_reads. simpl. destruct (w_documents w !! did) as [d|]; eexists; (split; [done|]); [|done].
  by intros a [= <-].
Qed.

Lemma swap_effect auth presentation vta_did w :
  ends (or_nothing w (λ b, effect auth w (RqSwap presentation vta_did) (Some b))) (swap_acl auth presentation vta_did) w.
Proof.
  unfold swap_acl. read reads_lift. intros claimed Hc%map_err_ok. read reads_resolve. intros doc Hdoc.
  read reads_clock. intros now ->. read reads_lift. intros v Hv%map_err_ok. cbv zeta.
  read reads_refuse. intros [] Hne%bool_decide_eq_false. read reads_get. intros o Ho.
  read reads_lift. intros old ->%ok_or_ok. destruct Ho as [raw Hold].
  read reads_refuse. intros [] Hx. read reads_get. intros ex Hex. read reads_refuse. intros [] Hn%bool_decide_eq_false.
  destruct ex; [by destruct Hn|].
  apply ends_store; [done|]. intros b Hb. apply ends_delete. apply ends_audit. intros w' Hw'. simpl. rewrite Hw'.
  by exists raw, old, claimed, doc, v, b.
Qed.

Lemma handoff_effect auth s w :
  ends (or_nothing w (λ b, effect auth w (RqHandOff s) (Some b))) (exercise_handoff auth s) w.
Proof.
  unfold exercise_handoff. read reads_clock. intros now ->. read reads_get_bytes. intros o Ho.
  read reads_lift. intros [me expected] ->%ok_or_ok.
  read reads_lift. intros marker Hm%ok_or_ok. read reads_refuse. intros [] Hx. refuses.
  read reads_refuse. intros [] Hne%bool_decide_eq_false. read reads_clock. intros gc _. refuses.
  read reads_registered. intros _ _. read reads_clock. intros cr _. cbv zeta.
  set (entry := with_expires_at _ _). assert (ae_did entry = hs_did s) as He by done. clearbody entry. checks.
  unfold ends. rewrite run_bind. simpl. rewrite run_then. rewrite He. unfold move_acl_entry_if_unchanged.
  rewrite He. destruct (entry_to_vec entry) as [b|err] eqn:Hb; [|done]. simpl.
  unfold move_if_unchanged. destruct (Ho) as [Hraw Hme]. rewrite Hraw.
  case_bool_decide; [done|]. case_bool_decide as Hfree; [done|]. simpl.
  exists expected, me, entry, b. rewrite <- He. split_and!; try done; rewrite He; [done|].
  by apply eq_None_not_Some.
Qed.

(** C24 (a refused request changes nothing, and another only what it names):
    served alone, a request that is refused leaves every row as it was; a
    creation answered fills the one free row it names, an update or a role
    change rewrites the one row it read (the role as asked for, under the next
    version, and nothing else), a deletion removes it, and a rotation or a
    hand-off moves the caller's row to a free one, which for a rotation is the
    same entry under the DID whose key signed the presentation, without a
    hand-off marker. *)
Theorem request_effect auth rq w r w' :
  run (run_request auth rq) w = (r, w') →
  match r with Err _ => w_rows w' = w_rows w | Ok a => effect auth w rq a (w_rows w') end.
Proof.
  assert (ends (or_nothing w (effect auth w rq)) (run_request auth rq) w) as He.
  { destruct rq as [p|did p|did f t|did|pres vta|s]; unfold run_request, answering, ends; rewrite run_bind;
      [pose proof (create_effect auth p w) as He|pose proof (update_effect auth did p w) as He
      |pose proof (change_role_effect auth did f t w) as He|pose proof (delete_effect auth did w) as He
      |pose proof (swap_effect auth pres vta w) as He|pose proof (handoff_effect auth s w) as He];
      unfold ends in He; destruct (run _ w) as [[a|e] w1]; exact He. }
  unfold ends in He. intros Hr. by rewrite Hr in He.
Qed.
End AclEffects.
