(* ===== verification/Refresh.v ===== *)
(** * Refreshing a cached identity document

    [vta-sdk/src/did_refresh.rs]: a cached DID document is fetched afresh once
    when a proof fails against it, and no more often than the floor allows,
    since anyone can send a proof that fails. The resolver and its cache are
    the [affinidi_did_resolver_cache_sdk] crate's: an argument. *)

From S2P Require Import Prelude Text Json Host DidScid.

(** ** Identity documents

    The members of [affinidi_did_common::Document] that are read. *)
Record VerificationMethod := mk_vm {
  vm_id : string;
  vm_controller : string;
  vm_properties : gmap string Value;
}.
Inductive VerificationRelationship :=
| Reference (id : string)
| Embedded (m : VerificationMethod).
Record Document := mk_document {
  doc_id : string;
  doc_verification_method : list VerificationMethod;
  doc_assertion_method : list VerificationRelationship;
  doc_authentication : list VerificationRelationship;
  doc_capability_invocation : list VerificationRelationship;
  doc_capability_delegation : list VerificationRelationship;
}.
Record ResolveResponse := mk_response { rr_doc : Document; rr_cache_hit : bool }.

(** The resolver and its cache, and the monotonic clock, as one state. *)
Class DidClient := {
  ClientState : Type;
  client_resolve : string → ClientState → result string ResolveResponse * ClientState;
  (** [get_cache().contains_key(hash_did(did))]. *)
  client_holds : string → ClientState → bool;
  client_remove : string → ClientState → ClientState;
  (** [Instant::now], in nanoseconds. *)
  instant_now : ClientState → Z;
}.

(** ** The floor *)

Definition FRESH_RESOLVE_MIN_INTERVAL : Z := 5 * NANOS.
Definition FRESH_RESOLVE_TRACKED_MAX : nat := 4096.
Definition FRESH_RESOLVE_DID_MAX_LEN : nat := 1000.

(** When each DID was last refreshed; [duration_since] saturates at zero. *)
Abbreviation Floor := (gmap string Z).
Definition recent (now t : Z) : bool := Z.max 0 (now - t) <? FRESH_RESOLVE_MIN_INTERVAL.

(** [iter().min_by_key]: the first of the least, in the map's order. *)
Definition min_by_time (l : list (string * Z)) : option string :=
  fst <$> foldr (λ x acc, match acc with
                          | Some y => if y.2 <? x.2 then Some y else Some x
                          | None => Some x
                          end) None l.

Section Floor.
Context `{HashOrder} (capacity : nat).

(** [RefreshFloor::admit]. *)
Definition admit_refresh (did : string) (now : Z) (last : Floor) : bool * Floor :=
  if match last !! did with Some t => recent now t | None => false end then (false, last)
  else
    let last :=
      if bool_decide (last !! did = None) && (capacity <=? size last)%nat then
        let last := filter (λ x, recent now x.2 = true) last in
        if (capacity <=? size last)%nat then
          match min_by_time (hash_iter last) with Some d => delete d last | None => last end
        else last
      else last in
    (true, <[did := now]> last).

(** A run of refreshes asked for, in order, and the DIDs admitted. *)
Fixpoint admits (calls : list (string * Z)) (last : Floor) : list string * Floor :=
  match calls with
  | [] => ([], last)
  | (did, now) :: calls =>
      let '(a, last) := admit_refresh did now last in
      let '(ds, last) := admits calls last in
      ((if a then [did] else []) ++ ds, last)
  end.
End Floor.

Section FloorFacts.
Context `{HO : HashOrder, !HashOrderLaws} (capacity : nat).

Lemma min_by_time_none l : min_by_time l = None ↔ l = [].
Proof.
  unfold min_by_time. destruct l as [|x l]; [done|]. simpl.
  destruct (foldr _ None l) as [y|]; [|done]. by destruct (y.2 <? x.2).
Qed.

Lemma min_by_time_least l d :
  min_by_time l = Some d → ∃ t, (d, t) ∈ l ∧ ∀ x, x ∈ l → t ≤ x.2.
Proof.
  unfold min_by_time. rewrite fmap_Some. intros ([d' t] & Hm & ->). exists t. cbn [fst].
  revert d' t Hm. induction l as [|x l IH]; intros d' t Hm; [done|]. cbn [foldr] in Hm.
  destruct (foldr _ None l) as [y|] eqn:Hl.
  - destruct y as [dy ty]. destruct (IH dy ty eq_refl) as [Hin Hle]. cbn [snd] in Hm.
    destruct (Z.ltb_spec ty x.2) as [Hlt|Hge].
    + injection Hm as <- <-. split; [by apply list_elem_of_further|].
      intros z [->|Hz]%elem_of_cons; [lia|by apply Hle].
    + injection Hm as ->. split; [apply list_elem_of_here|].
      intros z [->|Hz]%elem_of_cons; [done|]. specialize (Hle z Hz). cbn [snd] in *. lia.
  - injection Hm as ->. assert (l = []) as -> by (apply min_by_time_none; unfold min_by_time; by rewrite Hl).
    split; [apply list_elem_of_here|]. intros z [->|[]%elem_of_nil]%elem_of_cons. done.
Qed.

(** The floor without the one evicted for an admitted DID. *)
Definition make_room (now : Z) (last : Floor) : Floor :=
  let last := filter (λ x, recent now x.2 = true) last in
  if (capacity <=? size last)%nat then
    match min_by_time (hash_iter last) with Some d => delete d last | None => last end
  else last.

Lemma admit_cases did now last a last' :
  admit_refresh capacity did now last = (a, last') →
  (a = false ∧ last' = last ∧ ∃ t, last !! did = Some t ∧ recent now t = true)
  ∨ (a = true ∧ (∀ t, last !! did = Some t → recent now t = false)
     ∧ ((is_Some (last !! did) ∨ (size last < capacity)%nat) ∧ last' = <[did := now]> last
        ∨ last !! did = None ∧ (capacity ≤ size last)%nat ∧ last' = <[did := now]> (make_room now last))).
Proof.
  unfold admit_refresh. destruct (last !! did) as [t|] eqn:Hd.
  - destruct (recent now t) eqn:Hr.
    + intros [= <- <-]. left. split_and!; [done..|]. by exists t.
    + intros [= <- <-]. right. split_and!; [done|by intros ? [= <-]|]. left. split; [left; by eexists|done].
  - destruct (Nat.leb_spec capacity (size last)) as [Hc|Hc]; intros [= <- <-]; right.
    + split_and!; [done..|]. right. by split_and!.
    + split_and!; [done..|]. left. split; [by right|done].
Qed.

(** Room is made by dropping what is past its window, then the oldest. *)
Lemma make_room_keeps now last d t :
  last !! d = Some t → recent now t = true →
  make_room now last !! d = Some t
  ∨ make_room now last !! d = None ∧ (capacity ≤ size (filter (λ x, recent now x.2 = true) last))%nat
    ∧ ∀ d' t', last !! d' = Some t' → recent now t' = true → t ≤ t'.
Proof.
  intros Hd Hr. unfold make_room. set (live := filter _ last).
  assert (∀ d' t', live !! d' = Some t' ↔ last !! d' = Some t' ∧ recent now t' = true) as Hlive.
  { intros d' t'. unfold live. by rewrite map_lookup_filter_Some. }
  destruct (Nat.leb_spec capacity (size live)) as [Hc|]; [|left; by apply Hlive].
  destruct (min_by_time (hash_iter live)) as [o|] eqn:Ho; [|left; by apply Hlive].
  apply min_by_time_least in Ho as (t0 & Hin & Hle). rewrite hash_iter_perm in Hin.
  apply elem_of_map_to_list in Hin. destruct (decide (o = d)) as [->|Hne].
  - right. rewrite lookup_delete_eq. split_and!; [done|done|]. intros d' t' Hd' Hr'.
    assert (live !! d = Some t) as Hlt by by apply Hlive. rewrite Hin in Hlt. injection Hlt as ->.
    apply (Hle (d', t')). rewrite hash_iter_perm. by apply elem_of_map_to_list, Hlive.
  - left. rewrite lookup_delete_ne by done. by apply Hlive.
Qed.

Lemma make_room_subset now last : make_room now last ⊆ last.
Proof.
  unfold make_room. assert (filter (λ x : string * Z, recent now x.2 = true) last ⊆ last) as Hf
    by apply map_filter_subseteq.
  destruct (_ <=? _)%nat; [|done]. destruct (min_by_time _); [|done]. etrans; [apply delete_subseteq|done].
Qed.

Lemma make_room_size now last : (0 < capacity)%nat → (size last ≤ capacity)%nat → (size (make_room now last) < capacity)%nat.
Proof.
  intros H0 Hs. unfold make_room. set (live := filter _ last).
  assert (size live ≤ size last)%nat as Hle.
  { apply map_subseteq_size. apply map_filter_subseteq. }
  destruct (Nat.leb_spec capacity (size live)) as [Hc|]; [|done].
  destruct (min_by_time (hash_iter live)) as [o|] eqn:Ho.
  - apply min_by_time_least in Ho as (t0 & Hin & _). rewrite hash_iter_perm in Hin.
    apply elem_of_map_to_list in Hin. rewrite map_size_delete, Hin. cbn. lia.
  - apply min_by_time_none in Ho. pose proof (hash_iter_perm live) as Hp. rewrite Ho in Hp.
    apply Permutation_nil_l in Hp. assert (size live = 0)%nat; [|lia].
    by apply map_size_empty_iff, map_to_list_empty_iff.
Qed.

(** The table never holds more than its capacity. *)
Lemma admit_bounded did now last a last' :
  (0 < capacity)%nat → (size last ≤ capacity)%nat → admit_refresh capacity did now last = (a, last') →
  (size last' ≤ capacity)%nat.
Proof.
  intros H0 Hs [(_ & -> & _)|(_ & _ & [[Hor ->]|(_ & _ & ->)])]%admit_cases; [done| |].
  - destruct (last !! did) as [t|] eqn:Hd.
    + by rewrite map_size_insert_Some by (by eexists).
    + rewrite map_size_insert_None by done. destruct Hor as [[? ?]|?]; [congruence|lia].
  - pose proof (make_room_size now last H0 Hs). rewrite map_size_insert. destruct (_ !! did); cbn; lia.
Qed.

(** A refresh of [did] at [t0] is remembered, and whatever was refreshed since
    is in [A]; or it was forgotten, and then [A] holds a table's worth. *)
Definition remembered (did : string) (t0 : Z) (A : gset string) (m : Floor) : Prop :=
  (capacity ≤ size A)%nat
  ∨ m !! did = Some t0
    ∧ ∀ d t, m !! d = Some t → d ≠ did → t ≠ t0 ∧ (t0 < t → d ∈ A).

(** What evicts a live refresh: a table full of later ones, and one more. *)
Lemma evicted_by_others did t0 (A : gset string) (m : Floor) d now :
  m !! did = Some t0 → m !! d = None → recent now t0 = true →
  (∀ d t, m !! d = Some t → d ≠ did → t ≠ t0 ∧ (t0 < t → d ∈ A)) →
  (capacity ≤ size (filter (λ x : string * Z, recent now x.2 = true) m))%nat →
  (∀ d' t', m !! d' = Some t' → recent now t' = true → t0 ≤ t') →
  (capacity ≤ size (A ∪ {[d]}))%nat.
Proof.
  intros Hdid Hd Hr Hlater Hc Hle. set (live := filter _ m) in *.
  assert (live !! did = Some t0) as Hl by (unfold live; by rewrite map_lookup_filter_Some).
  assert (size live = S (size (delete did live))) as Hs.
  { rewrite map_size_delete, Hl. cbn. assert (size live ≠ 0%nat); [|lia].
    intros Hz%map_size_empty_inv. by rewrite Hz, lookup_empty in Hl. }
  rewrite Hs in Hc. etrans; [exact Hc|].
  assert (d ∉ dom (delete did live)) as Hdn.
  { rewrite dom_delete, elem_of_difference, elem_of_dom. unfold live. intros [[t Ht] _].
    apply map_lookup_filter_Some in Ht as [Ht _]. congruence. }
  transitivity (size (dom (delete did live) ∪ {[d]})).
  { rewrite size_union by set_solver. rewrite size_singleton, size_dom. lia. }
  apply subseteq_size. intros x [Hx|Hx]%elem_of_union; apply elem_of_union; [left|by right].
  apply elem_of_dom in Hx as [t Ht]. apply lookup_delete_Some in Ht as [Hne Ht].
  apply map_lookup_filter_Some in Ht as [Ht Hrt]. cbn in Hrt.
  destruct (Hlater x t Ht (not_eq_sym Hne)) as [Hnt Hin]. apply Hin. specialize (Hle x t Ht Hrt). lia.
Qed.

Lemma admit_remembered did t0 d now A (m m' : Floor) a :
  t0 < now < t0 + FRESH_RESOLVE_MIN_INTERVAL → admit_refresh capacity d now m = (a, m') →
  (a = true → d ≠ did) → remembered did t0 A m →
  remembered did t0 (if a then A ∪ {[d]} else A) m'.
Proof.
  intros Hnow [(-> & -> & _)|(-> & _ & Hcase)]%admit_cases Hne Hrem; [done|]. specialize (Hne eq_refl).
  destruct Hrem as [Hc|[Hdid Hlater]].
  { left. etrans; [exact Hc|]. apply subseteq_size. set_solver. }
  assert (∀ m1 : Floor, m1 ⊆ m → ∀ d' t, <[d := now]> m1 !! d' = Some t → d' ≠ did →
            t ≠ t0 ∧ (t0 < t → d' ∈ A ∪ {[d]})) as Hkeep.
  { intros m1 Hm d' t Ht Hd'. apply lookup_insert_Some in Ht as [[<- <-]|[_ Ht]].
    - split; [lia|set_solver].
    - apply (lookup_weaken _ m) in Ht; [|done]. destruct (Hlater d' t Ht Hd'). split; [done|].
      intros ?. apply elem_of_union. auto. }
  destruct Hcase as [[_ ->]|(Hd & Hcap & ->)].
  - right. split; [by rewrite lookup_insert_ne|]. by apply Hkeep.
  - assert (recent now t0 = true) as Hrec by (unfold recent; apply Z.ltb_lt; lia).
    destruct (make_room_keeps now m did t0 Hdid Hrec) as [Hin|(Hout & Hfull & Hle)].
    + right. split; [by rewrite lookup_insert_ne|]. apply Hkeep, make_room_subset.
    + left. by eapply evicted_by_others.
Qed.

Lemma admits_remembered did t0 mid A m ds m' :
  Forall (λ x, t0 < x.2 < t0 + FRESH_RESOLVE_MIN_INTERVAL) mid → admits capacity mid m = (ds, m') →
  did ∉ ds → remembered did t0 A m → remembered did t0 (A ∪ list_to_set ds) m'.
Proof.
  intros Hmid. revert A m ds m'. induction Hmid as [|[d now] mid Hnow Hmid IH]; intros A m ds m' Hrun Hni Hrem.
  { injection Hrun as <- <-. cbn. by rewrite union_empty_r_L. }
  cbn [admits] in Hrun. destruct (admit_refresh capacity d now m) as [a m1] eqn:Ha.
  destruct (admits capacity mid m1) as [ds1 m2] eqn:Hr. injection Hrun as <- <-.
  assert (remembered did t0 (if a then A ∪ {[d]} else A) m1) as Hrem1.
  { eapply admit_remembered; [exact Hnow|exact Ha| |exact Hrem]. intros -> ->. apply Hni. set_solver. }
  specialize (IH _ _ _ _ Hr ltac:(set_solver) Hrem1). destruct a; [|done].
  replace (A ∪ list_to_set ([d] ++ ds1)) with (A ∪ {[d]} ∪ list_to_set ds1 : gset string); [done|]. set_solver.
Qed.

(** A flood cannot aim fetches at one host: if a DID is refreshed at [t0]
    and, whatever else was asked for in between, refreshed again at [t1], then
    either the interval has passed, or a whole table's worth of other DIDs was
    refreshed in between; and the table never outgrows its capacity. *)
Theorem refresh_spacing did t0 t1 mid ds (m m1 m2 m3 : Floor)
    (Hcap : (0 < capacity)%nat)
    (Hsize : (size m ≤ capacity)%nat)
    (Hbefore : map_Forall (λ _ t, t < t0) m)
    (Hclock : Forall (λ x, t0 < x.2 < t1) mid)
    (Hfirst : admit_refresh capacity did t0 m = (true, m1))
    (Hmid : admits capacity mid m1 = (ds, m2))
    (Hnot : did ∉ ds)
    (Hagain : admit_refresh capacity did t1 m2 = (true, m3)) :
  (FRESH_RESOLVE_MIN_INTERVAL ≤ t1 - t0
   ∨ (capacity ≤ size (list_to_set ds : gset string))%nat ∧ did ∉ ds)
  ∧ (size m3 ≤ capacity)%nat.
Proof.
  split.
  - destruct (decide (FRESH_RESOLVE_MIN_INTERVAL ≤ t1 - t0)) as [|Hlt]; [by left|right]. split; [|done].
    assert (remembered did t0 ∅ m1) as Hrem.
    { right. apply admit_cases in Hfirst as [(? & _)|(_ & _ & Hcase)]; [done|].
      assert (∃ m0 : Floor, m0 ⊆ m ∧ m1 = <[did := t0]> m0) as (m0 & Hm0 & ->).
      { destruct Hcase as [[_ ->]|(_ & _ & ->)]; [by exists m|].
        eexists. split; [apply make_room_subset|done]. }
      split; [by rewrite lookup_insert_eq|]. intros d t Ht Hd.
      rewrite lookup_insert_ne in Ht by done. apply (lookup_weaken _ m) in Ht; [|done].
      apply Hbefore in Ht. cbn in Ht. split; lia. }
    apply (admits_remembered did t0 mid ∅ m1 ds m2) in Hrem; [| |done..].
    2:{ eapply Forall_impl; [exact Hclock|]. cbn. intros x Hx. lia. }
    rewrite union_empty_l_L in Hrem. destruct Hrem as [|[Hdid _]]; [done|]. exfalso.
    apply admit_cases in Hagain as [(? & _)|(_ & Hold & _)]; [done|].
    specialize (Hold t0 Hdid). unfold recent in Hold. apply Z.ltb_ge in Hold. unfold FRESH_RESOLVE_MIN_INTERVAL, NANOS in *. lia.
  - assert (size m2 ≤ capacity)%nat as H2.
    { apply (admit_bounded did t0 m) in Hfirst; [|done..]. clear Hagain Hnot Hclock Hbefore Hsize.
      revert m1 ds Hmid Hfirst. induction mid as [|[d now] mid IH]; intros m1 ds Hmid Hfirst.
      - by injection Hmid as _ <-.
      - cbn [admits] in Hmid. destruct (admit_refresh capacity d now m1) as [a m1'] eqn:Ha.
        destruct (admits capacity mid m1') as [ds1 m2'] eqn:Hr. injection Hmid as _ <-.
        eapply IH; [exact Hr|]. by eapply admit_bounded. }
    by eapply admit_bounded.
Qed.
End FloorFacts.

(** A table of two: refreshed again within the interval only after two other
    DIDs were. *)
#[local] Instance toy_order : HashOrder := λ V m, map_to_list m.
#[local] Instance toy_order_laws : HashOrderLaws.
Proof. intros V m. reflexivity. Qed.

Lemma refresh_spacing_witness :
  let run := admits 2 [("b", 2); ("c", 3)]%string (admit_refresh 2 "a" 1 ∅).2 in
  run.1 = ["b"; "c"]%string ∧ (admit_refresh 2 "a" 4 run.2).1 = true
  ∧ (size (admit_refresh 2 "a" 4 run.2).2 ≤ 2)%nat.
Proof.
  intros run. split; [vm_compute; reflexivity|]. split; [vm_compute; reflexivity|].
  apply (refresh_spacing 2 "a" 1 4 [("b", 2); ("c", 3)]%string run.1 ∅ (admit_refresh 2 "a" 1 ∅).2 run.2).
  - lia.
  - rewrite map_size_empty. lia.
  - apply map_Forall_empty.
  - by repeat constructor.
  - vm_compute. reflexivity.
  - vm_compute. reflexivity.
  - apply (bool_decide_unpack _). vm_compute. exact I.
  - vm_compute. reflexivity.
Defined.

(** ** Resolving for a proof *)

Section Resolving.
Context `{DidClient, HashOrder}.

Abbreviation Resolver := (ClientState * Floor)%type.

Definition is_cached (did : string) (c : ClientState) : bool :=
  (String.length did <=? FRESH_RESOLVE_DID_MAX_LEN)%nat && client_holds did c.

Definition evict_for_fresh_resolve (did : string) (s : Resolver) : bool * Resolver :=
  let '(c, last) := s in
  if negb (is_cached did c) then (false, s)
  else
    let '(a, last) := admit_refresh FRESH_RESOLVE_TRACKED_MAX did (instant_now c) last in
    if a then (true, (client_remove did c, last)) else (false, (c, last)).

Definition lists_vm (doc : Document) (vm : string) : bool :=
  let relative := match split_once "#" vm with Some (_, f) => String "#" f | None => "" end in
  existsb (λ m, same_reference (vm_id m) vm || bool_decide (vm_id m = relative))
    (doc_verification_method doc).

Definition resolve_for_vm (did vm : string) (s : Resolver) : result string ResolveResponse * Resolver :=
  let '(r, c) := client_resolve did s.1 in
  let s := (c, s.2) in
  match r with
  | Err e => (Err e, s)
  | Ok resolved =>
      if rr_cache_hit resolved && negb (lists_vm (rr_doc resolved) vm) then
        let '(evicted, s) := evict_for_fresh_resolve did s in
        if evicted then
          let '(r, c) := client_resolve did s.1 in (r, (c, s.2))
        else (Ok resolved, s)
      else (Ok resolved, s)
  end.

(** What is resolved is what the client returned of the DID. *)
Lemma resolve_for_vm_from did vm s r s' :
  resolve_for_vm did vm s = (Ok r, s') → ∃ c c', client_resolve did c = (Ok r, c').
Proof.
  unfold resolve_for_vm. destruct (client_resolve did s.1) as [[r1|] c1] eqn:E1; [|done].
  destruct (_ && _).
  - destruct (evict_for_fresh_resolve _ _) as [[|] [c2 fl]].
    + cbn [fst snd]. destruct (client_resolve did c2) as [r2 c3] eqn:E2. intros Hr.
      apply (f_equal fst) in Hr. cbn in Hr. subst. by eexists _, _.
    + intros Hr. apply (f_equal fst) in Hr. cbn in Hr. injection Hr as <-. by eexists _, _.
  - intros Hr. apply (f_equal fst) in Hr. cbn in Hr. injection Hr as <-. by eexists _, _.
Qed.
End Resolving.
