(* ===== verification/TaskProof.v ===== *)
(** * Who signed a document

    [vta-sdk/src/trust_task_proof/]: the Data Integrity proof on a Trust Task
    document. A proof's key is resolved only if the signer's own identity
    document authorises it for the purpose the proof declares
    ([purpose.rs]); [vm_resolver.rs] finds the document; [verify.rs] verifies
    one proof over the document as received, [proof_set.rs] every proof of a
    set. Signatures, and the DID methods that carry their keys in the
    identifier, are the [affinidi] crates': arguments. *)

From S2P Require Import Prelude Text Json Host DidScid Refresh.

(** ** What the crates give *)

Inductive DataIntegrityError :=
| MalformedProof (why : string)
| ResolverError (why : string)
| OtherError (why : string).

Inductive KeyType := Ed25519 | X25519 | P256 | MlDsa44 | MlDsa65 | Secp256k1.
#[export] Instance KeyType_eq_dec : EqDecision KeyType.
Proof. solve_decision. Defined.

Record ResolvedKey := mk_key { rk_type : KeyType; rk_bytes : bytes }.

Class DataIntegrity := {
  (** [DataIntegrityProof], read from JSON and written back. *)
  Proof : Type;
  Suite : Type;
  suite_eq_dec :: EqDecision Suite;
  proof_from_value : Value → result string Proof;
  proof_to_value : Proof → result string Value;
  proof_vm : Proof → string;
  proof_purpose : Proof → string;
  proof_suite : Proof → Suite;
  suite_of : string → option Suite;
  suite_text : Suite → string;
  di_display : DataIntegrityError → string;
  (** [DataIntegrityProof::verify], given a resolver of verification
      methods, over a document without its proof. *)
  di_verify : ∀ {S : Type}, (string → S → result DataIntegrityError ResolvedKey * S) →
                Proof → Value → S → result DataIntegrityError unit * S;
  (** The methods whose keys are in the identifier. *)
  resolve_did_key : string → result DataIntegrityError ResolvedKey;
  parse_did : string → result string string;
  resolve_peer : string → option (result string Document);
  (** A verification method's key. *)
  get_public_key_bytes : VerificationMethod → result string bytes;
  decode_public_key : VerificationMethod → result string bytes;
  decode_multibase : string → result string bytes;
  (** A JWK's curve, [None] for one not verified. *)
  jwk_key_type_of : Value → result string (option KeyType);
}.

(** A proof that verifies was checked under a key the resolver gave for its
    verification method. *)
Class DataIntegrityLaws `{DataIntegrity} := {
  signature_ok : ResolvedKey → Proof → Value → bool;
  di_verify_sound {S} (res : string → S → result DataIntegrityError ResolvedKey * S) p doc s s' :
    di_verify res p doc s = (Ok (), s') →
    ∃ key s1 s2, res (proof_vm p) s1 = (Ok key, s2) ∧ signature_ok key p doc = true;
  (** It changes nothing but through the resolver. *)
  di_verify_steps {S} (R : S → S → Prop) `{!PreOrder R}
      (res : string → S → result DataIntegrityError ResolvedKey * S) p doc s r s' :
    (∀ vm s r s', res vm s = (r, s') → R s s') → di_verify res p doc s = (r, s') → R s s';
}.

(** ** Purposes ([purpose.rs]) *)

Inductive ProofPurpose :=
| AssertionMethod | Authentication | CapabilityInvocation | CapabilityDelegation.
#[export] Instance ProofPurpose_eq_dec : EqDecision ProofPurpose.
Proof. solve_decision. Defined.

Definition purpose_as_str (p : ProofPurpose) : string :=
  match p with
  | AssertionMethod => "assertionMethod"
  | Authentication => "authentication"
  | CapabilityInvocation => "capabilityInvocation"
  | CapabilityDelegation => "capabilityDelegation"
  end.

Definition purpose_parse (value : string) : result DataIntegrityError ProofPurpose :=
  if bool_decide (value = "assertionMethod") then Ok AssertionMethod
  else if bool_decide (value = "authentication") then Ok Authentication
  else if bool_decide (value = "capabilityInvocation") then Ok CapabilityInvocation
  else if bool_decide (value = "capabilityDelegation") then Ok CapabilityDelegation
  else if bool_decide (value = "keyAgreement")
  then Err (MalformedProof "proofPurpose keyAgreement never authorises a signature")
  else Err (MalformedProof "proofPurpose names no signing verification relationship").

Definition split_vm (vm : string) : result DataIntegrityError (string * string) :=
  match split_once "#" vm with
  | Some (did, fragment) =>
      if starts_with "did:" did && bool_decide (fragment ≠ "") then Ok (did, fragment)
      else Err (ResolverError "verificationMethod must be an absolute DID URL with a fragment")
  | None => Err (ResolverError "verificationMethod must be an absolute DID URL with a fragment")
  end.

Definition check_did_key_method (vm : string) : result DataIntegrityError unit :=
  p ← split_vm vm;
  i ← ok_or (strip_prefix "did:key:" p.1) (ResolverError "verificationMethod is not a did:key");
  guard_err (bool_decide (p.2 ≠ i))
    (ResolverError ("verificationMethod is not the did:key's own key (fragment must repeat the "
                    +:+ "key id)")).

Definition relationship (doc : Document) (p : ProofPurpose) : list VerificationRelationship :=
  match p with
  | AssertionMethod => doc_assertion_method doc
  | Authentication => doc_authentication doc
  | CapabilityInvocation => doc_capability_invocation doc
  | CapabilityDelegation => doc_capability_delegation doc
  end.

(** A reference names the method absolutely, or by its fragment. *)
Definition names_vm (did vm id : string) : bool :=
  match strip_prefix "#" id with
  | Some fragment => bool_decide ((strip_prefix did vm ≫= strip_prefix "#") = Some fragment)
  | None => bool_decide (id = vm)
  end.

(** [Some None]: listed by reference; [Some (Some m)]: embedded. *)
Definition listed_as (did vm : string) (r : VerificationRelationship) : option (option VerificationMethod) :=
  match r with
  | Reference id => if names_vm did vm id then Some None else None
  | Embedded m => if names_vm did vm (vm_id m) then Some (Some m) else None
  end.
Fixpoint find_map {A B} (f : A → option B) (l : list A) : option B :=
  match l with
  | [] => None
  | a :: l => match f a with Some b => Some b | None => find_map f l end
  end.

Definition authorised_method (doc : Document) (did vm : string) (p : ProofPurpose)
  : result DataIntegrityError VerificationMethod :=
  let did := strip_src did in
  let vm := strip_src vm in
  _ ← guard_err (bool_decide (doc_id doc ≠ did))
        (ResolverError "the resolved DID document's id is not the verificationMethod's DID");
  m ← match find_map (listed_as did vm) (relationship doc p) with
      | None => Err (ResolverError ("verificationMethod is not listed under " +:+ purpose_as_str p
                                    +:+ " in its DID document"))
      | Some (Some m) => Ok m
      | Some None =>
          ok_or (find (λ m, names_vm did vm (vm_id m)) (doc_verification_method doc))
            (ResolverError ("verificationMethod is referenced but not defined under "
                            +:+ "verificationMethod in its DID document"))
      end;
  _ ← guard_err (bool_decide (vm_controller m ≠ did))
        (ResolverError "verificationMethod's controller is not the DID that names it");
  Ok m.

(** ** Resolving a verification method ([vm_resolver.rs]) *)

Definition UNRETRIEVABLE : string := "the signer's key could not be retrieved: ".
Definition unretrievable (detail : string) : DataIntegrityError := ResolverError (UNRETRIEVABLE +:+ detail).
Definition is_unretrievable (e : DataIntegrityError) : bool :=
  match e with ResolverError msg => starts_with UNRETRIEVABLE msg | _ => false end.

Definition multicodec_public (k : KeyType) : bytes :=
  match k with
  | Ed25519 => [xed; x01]
  | X25519 => [xec; x01]
  | P256 => [x80; x24]
  | MlDsa44 => [x90; x24]
  | MlDsa65 => [x91; x24]
  | Secp256k1 => [xe7; x01]
  end.

Definition bytes_start (p b : bytes) : bool := bool_decide (p = take (length p) b).

Section TaskProof.
Context `{DataIntegrity, DidClient, HashOrder}.

Definition jwk_key_type (entry : VerificationMethod) : result DataIntegrityError KeyType :=
  jwk ← ok_or (vm_properties entry !! "publicKeyJwk"%string)
          (ResolverError ("the verificationMethod has neither `publicKeyMultibase` nor `publicKeyJwk`, so "
                          +:+ "its algorithm cannot be read"));
  t ← map_err (λ e, ResolverError ("the verificationMethod's publicKeyJwk is malformed: " +:+ e))
        (jwk_key_type_of jwk);
  match t with
  | Some ((Ed25519 | X25519 | P256 | Secp256k1) as k) => Ok k
  | _ => Err (ResolverError ("the verificationMethod's publicKeyJwk is on a curve this build does not verify "
                             +:+ "(Ed25519, X25519, P-256 and secp256k1 are); a PQC key must be published as a "
                             +:+ "Multikey"))
  end.

Definition declared_key_type (entry : VerificationMethod) : result DataIntegrityError KeyType :=
  match vm_properties entry !! "publicKeyMultibase"%string ≫= as_str with
  | None => jwk_key_type entry
  | Some multibase =>
      b ← map_err (λ e, ResolverError ("the verificationMethod's public key is not valid multibase: " +:+ e))
            (decode_multibase multibase);
      match find (λ k, bytes_start (multicodec_public k) b) [Ed25519; X25519; P256; MlDsa44; MlDsa65] with
      | Some k => Ok k
      | None =>
          if bytes_start (multicodec_public Secp256k1) b then Ok Secp256k1
          else Err (ResolverError ("the verificationMethod carries a key whose multicodec prefix this build does not "
                                   +:+ "recognise, so its signature suite cannot be determined"))
      end
  end.

Definition key_of (doc : Document) (did vm : string) (p : ProofPurpose) : result DataIntegrityError ResolvedKey :=
  entry ← authorised_method doc did vm p;
  t ← declared_key_type entry;
  b ← map_err (λ e, ResolverError ("the verificationMethod's public key could not be extracted: " +:+ e))
        (if bool_decide (is_Some (vm_properties entry !! "publicKeyMultibase"%string))
         then get_public_key_bytes entry else decode_public_key entry);
  Ok (mk_key t b).

Definition resolve_did_peer (vm base_did : string) (p : ProofPurpose) : result DataIntegrityError ResolvedKey :=
  did ← map_err (λ e, ResolverError ("the verificationMethod's DID is not well-formed: " +:+ e))
          (parse_did base_did);
  r ← ok_or (resolve_peer did)
        (ResolverError "the verificationMethod's did:peer is not one this build resolves");
  doc ← map_err (λ e, ResolverError ("the verificationMethod's DID did not resolve: " +:+ e)) r;
  key_of doc base_did vm p.

(** The resolver's own state: the client with the process's floor, and the
    DIDs it was handed from the cache. *)
Record VmState := mk_vm_state { vs_resolver : ClientState * Floor; vs_served : gset string }.

(** Whether a client is configured; without one nothing is fetched. *)
Variable network : bool.

Definition resolve (vm : string) (p : ProofPurpose) (s : VmState)
  : result DataIntegrityError ResolvedKey * VmState :=
  match split_vm vm with
  | Err e => (Err e, s)
  | Ok (base_did, _) =>
      if starts_with "did:key:" base_did then
        (_ ← check_did_key_method vm;
         key ← resolve_did_key vm;
         _ ← guard_err (bool_decide (rk_type key = X25519))
               (ResolverError "a did:key X25519 key is authorised for keyAgreement only");
         Ok key, s)
      else if starts_with "did:peer:" base_did then (resolve_did_peer vm base_did p, s)
      else if negb network then
        (Err (unretrievable ("resolving this verificationMethod needs a DID resolver, but this verifier is "
                             +:+ "configured for did:key only")), s)
      else
        let '(r, rs) := resolve_for_vm base_did vm (vs_resolver s) in
        match r with
        | Err e => (Err (unretrievable ("the verificationMethod's DID did not resolve: " +:+ e)),
                    mk_vm_state rs (vs_served s))
        | Ok resolved =>
            let served := if rr_cache_hit resolved then {[base_did]} ∪ vs_served s else vs_served s in
            (key_of (rr_doc resolved) base_did vm p, mk_vm_state rs served)
        end
  end.

Definition refresh_if_cached (did : string) (s : VmState) : bool * VmState :=
  if negb network then (false, s)
  else
    let was_cached := bool_decide (did ∈ vs_served s) in
    let served := vs_served s ∖ {[did]} in
    if was_cached then
      let '(evicted, rs) := evict_for_fresh_resolve did (vs_resolver s) in
      (evicted, mk_vm_state rs served)
    else (false, mk_vm_state (vs_resolver s) served).

(** ** One proof ([verify.rs]) *)

Inductive DiProofError :=
| NoProof | NotDataIntegrity | NoDid
| ResolverFailed (why : string) | VerifyFailed (why : string)
| WrongPurpose (expected : string).

(** The wire's words: a resolver's failure and a bad proof read alike. *)
Definition di_proof_error_text (e : DiProofError) : string :=
  match e with
  | NoProof => "document has no proof"
  | NotDataIntegrity => "proof is not a Data Integrity proof"
  | NoDid => "proof verificationMethod carries no DID"
  | ResolverFailed _ | VerifyFailed _ => "proof verification failed"
  | WrongPurpose expected => "proof must be made for `" +:+ expected +:+ "`"
  end.
Definition cause (e : DiProofError) : option string :=
  match e with ResolverFailed w | VerifyFailed w => Some w | _ => None end.

Definition classify (e : DataIntegrityError) : DiProofError :=
  if is_unretrievable e then ResolverFailed (di_display e) else VerifyFailed (di_display e).

Definition remove_member (k : string) (ms : list (string * Value)) : list (string * Value) :=
  filter (λ m, m.1 ≠ k) ms.

#[export] Instance string_leb_dec : RelDecision (λ a b : string, String.leb a b = true).
Proof. intros a b. apply _. Defined.

(** The members of a proof that would not be in what is hashed. *)
Definition lost_members (proof carried : Value) : list string :=
  match proof with
  | VObj ms =>
      merge_sort (λ a b, String.leb a b = true)
        (filter (λ m, json_get carried m.1 ≠ Some m.2) ms).*1
  | _ => []
  end.

Definition parse_proof (proof : Value) : result DiProofError Proof :=
  di ← map_err (λ _, NotDataIntegrity) (proof_from_value proof);
  carried ← map_err (λ _, NotDataIntegrity) (proof_to_value di);
  _ ← guard_err (bool_decide (carried ≠ proof))
        (VerifyFailed ("the proof carries members the verifier cannot include in the proof "
                       +:+ "configuration it hashes: " +:+ join ", " (lost_members proof carried)));
  Ok di.

Definition split_received (received : Value) : result DiProofError (Value * Proof) :=
  match received with
  | VObj ms =>
      match json_get received "proof" with
      | None | Some VNull => Err NoProof
      | Some proof => di ← parse_proof proof; Ok (VObj (remove_member "proof" ms), di)
      end
  | _ => Err NoProof
  end.

Definition verify_core (unsigned : Value) (di : Proof) (s : VmState) : result DiProofError string * VmState :=
  let signer_did := before "#" (proof_vm di) in
  if bool_decide (signer_did = "") then (Err NoDid, s)
  else
    match map_err classify (purpose_parse (proof_purpose di)) with
    | Err e => (Err e, s)
    | Ok p =>
        let bound vm := resolve vm p in
        match di_verify bound di unsigned s with
        | (Ok _, s) => (Ok signer_did, s)
        | (Err first, s) =>
            let '(refreshed, s) := refresh_if_cached signer_did s in
            if negb refreshed then (Err (classify first), s)
            else
              match di_verify bound di unsigned s with
              | (Ok _, s) => (Ok signer_did, s)
              | (Err e, s) => (Err (classify e), s)
              end
        end
    end.

Definition verify_trust_task_proof_value (received : Value) (s : VmState)
  : result DiProofError string * VmState :=
  match split_received received with
  | Err e => (Err e, s)
  | Ok (unsigned, di) => verify_core unsigned di s
  end.

Definition APPROVAL_PROOF_PURPOSE : string := "assertionMethod".
Definition require_approval_purpose (di : Proof) : result DiProofError unit :=
  guard_err (bool_decide (ok (purpose_parse (proof_purpose di)) ≠ Some AssertionMethod))
    (WrongPurpose APPROVAL_PROOF_PURPOSE).

Definition verify_approval_proof_value (received : Value) (s : VmState)
  : result DiProofError string * VmState :=
  match '(unsigned, di) ← split_received received; _ ← require_approval_purpose di; Ok (unsigned, di) with
  | Err e => (Err e, s)
  | Ok (unsigned, di) => verify_core unsigned di s
  end.

(** ** A set of proofs ([proof_set.rs]) *)

Definition unsupported_suite (v : Value) : bool :=
  bool_decide (get_str v "type" = Some "DataIntegrityProof")
  && match get_str v "cryptosuite" with
     | Some suite => bool_decide (suite_of suite = None)
     | None => false
     end.

(** The loop of [proof_set], from index [i]. *)
Fixpoint parse_proofs (i : nat) (raw : list Value) : result string (list Proof) :=
  match raw with
  | [] => Ok []
  | v :: raw =>
      if unsupported_suite v then parse_proofs (S i) raw
      else
        di ← map_err (λ e, "proof " +:+ pretty i +:+ " did not parse as a Data Integrity proof: " +:+ e)
               (proof_from_value v);
        dis ← parse_proofs (S i) raw;
        Ok (di :: dis)
  end.

Definition raw_proofs (proof_value : Value) : list Value :=
  match proof_value with VArr items => items | single => [single] end.

Definition proof_set (proof_value : Value) : result string (list Proof) :=
  _ ← guard_err (bool_decide (raw_proofs proof_value = []))
        ("proof block is an empty array; a document with no proof is unsigned, "
         +:+ "which is a different thing from one whose proofs did not verify");
  proofs ← parse_proofs 0 (raw_proofs proof_value);
  match proofs with
  | [] => Err "no proof uses a cryptosuite this verifier implements, so none can be checked"
  | _ => Ok proofs
  end.

Definition require_suites (proofs : list Proof) (required : list Suite) : result string unit :=
  match find (λ suite, negb (existsb (λ p, bool_decide (proof_suite p = suite)) proofs)) required with
  | None => Ok ()
  | Some missing => Err ("this verifier requires a " +:+ suite_text missing
                         +:+ " proof, and the document carries none")
  end.

Definition proof_signer_did (di : Proof) : string := before "#" (proof_vm di).

Definition verify_one (di : Proof) (doc : Value) (expected : ProofPurpose) (s : VmState)
  : result string unit * VmState :=
  match map_err di_display (purpose_parse (proof_purpose di)) with
  | Err e => (Err e, s)
  | Ok p =>
      if bool_decide (p ≠ expected) then
        (Err ("proofPurpose is " +:+ purpose_as_str p +:+ ", but this document is relied on for "
              +:+ purpose_as_str expected), s)
      else
        let '(r, s) := di_verify (λ vm, resolve vm p) di doc s in (map_err di_display r, s)
  end.

Definition accept_all (outcomes : list (string * result string unit)) : result string string :=
  match outcomes with
  | [] => Err "no proof to verify; a document with no proof is unsigned"
  | (first, _) :: _ =>
      let reasons := omap (λ x, match x.2.2 with
                                | Err e => Some ("proof " +:+ pretty x.1 +:+ ": " +:+ e)
                                | Ok _ => None
                                end) (imap pair outcomes) in
      if bool_decide (reasons ≠ []) then
        Err (pretty (length reasons) +:+ " of " +:+ pretty (length outcomes)
             +:+ " proofs did not verify, and every proof present must — " +:+ join "; " reasons)
      else if existsb (λ x, bool_decide (x.1 ≠ first)) outcomes then
        Err ("proofs verify for two different issuers; a document signed by more than one "
             +:+ "party cannot be reported as verified for one of them")
      else Ok first
  end.

Inductive ProofSetError := Missing | NotAnObject | Unreadable (why : string) | NotVerified (why : string).

Record VerifiedProofSet := mk_verified_set { vp_signer : string; vp_proofs : list Proof }.

(** The loop over the proofs. *)
Fixpoint verify_each (dis : list Proof) (doc : Value) (expected : ProofPurpose) (s : VmState)
  : list (string * result string unit) * VmState :=
  match dis with
  | [] => ([], s)
  | di :: dis =>
      let '(r, s) := verify_one di doc expected s in
      let '(rs, s) := verify_each dis doc expected s in
      ((proof_signer_did di, r) :: rs, s)
  end.

Definition verify_proof_set (signed : Value) (expected : ProofPurpose) (s : VmState)
  : result ProofSetError VerifiedProofSet * VmState :=
  match signed with
  | VObj ms =>
      match proof_value ← ok_or (json_get signed "proof") Missing; map_err Unreadable (proof_set proof_value) with
      | Err e => (Err e, s)
      | Ok proofs =>
          let '(outcomes, s) := verify_each proofs (VObj (remove_member "proof" ms)) expected s in
          (signer ← map_err NotVerified (accept_all outcomes); Ok (mk_verified_set signer proofs), s)
      end
  | _ => (Err NotAnObject, s)
  end.

(** ** Whose key signed *)

(** [m] is the method [vm] names in [did]'s document, listed under [p]. *)
Record authorised (doc : Document) (did vm : string) (p : ProofPurpose) (m : VerificationMethod) : Prop := {
  auth_document : doc_id doc = strip_src did;
  auth_controller : vm_controller m = strip_src did;
  auth_named : names_vm (strip_src did) (strip_src vm) (vm_id m) = true;
  auth_listed :
    Embedded m ∈ relationship doc p
    ∨ m ∈ doc_verification_method doc
      ∧ ∃ id, Reference id ∈ relationship doc p ∧ names_vm (strip_src did) (strip_src vm) id = true;
}.

Lemma find_map_some {A B} (f : A → option B) l b : find_map f l = Some b → ∃ a, a ∈ l ∧ f a = Some b.
Proof.
  induction l as [|a l IH]; [done|]. simpl. destruct (f a) eqn:Hf.
  - intros [= ->]. exists a. split; [apply list_elem_of_here|done].
  - intros (x & Hx & Hfx)%IH. exists x. split; [by apply list_elem_of_further|done].
Qed.

Lemma authorised_method_sound doc did vm p m :
  authorised_method doc did vm p = Ok m → authorised doc did vm p m.
Proof.
  unfold authorised_method. intros (? & Hid%guard_ok & (m' & Hm & (? & Hc%guard_ok & [= ->])%bind_ok)%bind_ok)%bind_ok.
  apply bool_decide_eq_false, dec_stable in Hid. apply bool_decide_eq_false, dec_stable in Hc.
  destruct (find_map _ _) as [[e|]|] eqn:Hf; [| |done].
  - injection Hm as ->. apply find_map_some in Hf as ([id|m'] & Hr & Hl); cbn [listed_as] in Hl.
    { by destruct (names_vm _ _ _). }
    destruct (names_vm _ _ (vm_id m')) eqn:Hn; [|done]. injection Hl as ->. split; [done|done|done|by left].
  - apply ok_or_ok, find_some in Hm as [Hin%list_elem_of_In Hn].
    apply find_map_some in Hf as ([id|m'] & Hr & Hl); cbn [listed_as] in Hl.
    2:{ by destruct (names_vm _ _ _). }
    destruct (names_vm _ _ id) eqn:Hn'; [|done].
    split; [done|done|done|right]. split; [done|]. by exists id.
Qed.

(** Where a document comes from: the identifier, or the client. *)
Definition document_of (did : string) (doc : Document) : Prop :=
  (∃ d, parse_did did = Ok d ∧ resolve_peer d = Some (Ok doc) ∧ starts_with "did:peer:" did = true)
  ∨ network = true ∧ ∃ c c' hit, client_resolve did c = (Ok (mk_response doc hit), c').

(** The key is the signer's own for this purpose. *)
Definition key_for (vm : string) (p : ProofPurpose) (key : ResolvedKey) : Prop :=
  ∃ did fragment, split_vm vm = Ok (did, fragment)
    ∧ ((∃ i, did = "did:key:" +:+ i ∧ fragment = i ∧ resolve_did_key vm = Ok key ∧ rk_type key ≠ X25519)
       ∨ ∃ doc m, document_of did doc ∧ authorised doc did vm p m
           ∧ declared_key_type m = Ok (rk_type key)
           ∧ (get_public_key_bytes m = Ok (rk_bytes key) ∨ decode_public_key m = Ok (rk_bytes key))).

Lemma key_of_sound doc did vm p key :
  key_of doc did vm p = Ok key →
  ∃ m, authorised doc did vm p m ∧ declared_key_type m = Ok (rk_type key)
    ∧ (get_public_key_bytes m = Ok (rk_bytes key) ∨ decode_public_key m = Ok (rk_bytes key)).
Proof.
  unfold key_of. intros (m & Hm%authorised_method_sound & (t & Ht & (b & Hb%map_err_ok & [= <-])%bind_ok)%bind_ok)%bind_ok.
  exists m. split; [done|]. split; [done|]. cbn. case_bool_decide; [by left|by right].
Qed.

Lemma resolve_sound vm p s key s' : resolve vm p s = (Ok key, s') → key_for vm p key.
Proof.
  unfold resolve. destruct (split_vm vm) as [[did fragment]|] eqn:Hvm; [|done].
  destruct (starts_with "did:key:" did) eqn:Hkey.
  - intros [= Hr _]. apply bind_ok in Hr as (? & Hc & (k & Hk & (? & Hx%guard_ok & [= ->])%bind_ok)%bind_ok).
    unfold check_did_key_method in Hc. rewrite Hvm in Hc. cbn [mbind result_bind fst snd] in Hc.
    apply bind_ok in Hc as (i & Hi%ok_or_ok & Hf%guard_ok). apply strip_prefix_spec in Hi.
    apply bool_decide_eq_false, dec_stable in Hf. apply bool_decide_eq_false in Hx.
    exists did, fragment. split; [done|]. left. by exists i.
  - destruct (starts_with "did:peer:" did) eqn:Hpeer.
    + intros [= Hr _]. unfold resolve_did_peer in Hr.
      apply bind_ok in Hr as (d & Hd%map_err_ok & (r & Hr%ok_or_ok & (doc & Hdoc%map_err_ok & Hk)%bind_ok)%bind_ok).
      apply key_of_sound in Hk as (m & Ha & Ht & Hb). exists did, fragment. split; [done|]. right. exists doc, m.
      split; [left; exists d; by subst|]. done.
    + destruct network eqn:Hnet; [|done]. cbn [negb].
      destruct (resolve_for_vm did vm (vs_resolver s)) as [[r|] rs] eqn:Hres; [|done].
      intros [= Hk _]. apply key_of_sound in Hk as (m & Ha & Ht & Hb).
      apply resolve_for_vm_from in Hres as (c & c' & Hc). exists did, fragment. split; [done|]. right.
      exists (rr_doc r), m. split; [right; split; [done|]; exists c, c', (rr_cache_hit r); by destruct r|done].
Qed.

Context `{!DataIntegrityLaws}.

Lemma verified_key di doc p s s' :
  di_verify (λ vm, resolve vm p) di doc s = (Ok (), s') →
  ∃ key, key_for (proof_vm di) p key ∧ signature_ok key di doc = true.
Proof. intros (key & s1 & s2 & Hk%resolve_sound & Hs)%di_verify_sound. by exists key. Qed.

(** A signature by [signer] over a document, for a purpose. *)
Record signed_by (signer : string) (di : Proof) (p : ProofPurpose) (doc : Value) : Prop := {
  sb_signer : signer = before "#" (proof_vm di);
  sb_purpose : purpose_parse (proof_purpose di) = Ok p;
  sb_key : ∃ key, key_for (proof_vm di) p key ∧ signature_ok key di doc = true;
}.

Lemma verify_core_sound doc di s signer s' :
  verify_core doc di s = (Ok signer, s') → signer ≠ "" ∧ ∃ p, signed_by signer di p doc.
Proof.
  unfold verify_core. case_bool_decide as Hne; [done|].
  destruct (purpose_parse (proof_purpose di)) as [p|] eqn:Hp; [|done]. cbn [map_err].
  destruct (di_verify _ di doc s) as [[[]|first] s1] eqn:Hv.
  - intros [= <- _]. split; [done|]. exists p. split; [done|done|]. by eapply verified_key.
  - destruct (refresh_if_cached _ s1) as [[|] s2]; [|done]. cbn [negb].
    destruct (di_verify _ di doc s2) as [[[]|] s3] eqn:Hv2; [|done].
    intros [= <- _]. split; [done|]. exists p. split; [done|done|]. by eapply verified_key.
Qed.

Lemma split_received_inv received doc di :
  split_received received = Ok (doc, di) →
  ∃ ms proof, received = VObj ms ∧ json_get received "proof" = Some proof
    ∧ proof_from_value proof = Ok di ∧ proof_to_value di = Ok proof
    ∧ doc = VObj (remove_member "proof" ms).
Proof.
  unfold split_received. destruct received as [| | | | | |ms]; try done.
  destruct (json_get (VObj ms) "proof") as [proof|] eqn:Hg; [|done]. intros Hr.
  assert (∃ d, parse_proof proof = Ok d ∧ Ok (VObj (remove_member "proof" ms), d) = @Ok DiProofError _ (doc, di))
    as (d & Hd & [= <- ->]).
  { destruct proof; try done; by apply bind_ok in Hr as (d & Hd & Hr); exists d. }
  unfold parse_proof in Hd.
  apply bind_ok in Hd as (d & Hd%map_err_ok & (c & Hc%map_err_ok & (? & Hq%guard_ok & [= ->])%bind_ok)%bind_ok).
  apply bool_decide_eq_false, dec_stable in Hq. subst c. by exists ms, proof.
Qed.

(** The received document, split and signed for. *)
Lemma received_signed_by received s signer s'
    (Hv : verify_trust_task_proof_value received s = (Ok signer, s')) :
  ∃ ms proof di p,
    received = VObj ms
    ∧ json_get received "proof" = Some proof
    ∧ proof_from_value proof = Ok di
    ∧ proof_to_value di = Ok proof
    ∧ signer ≠ ""
    ∧ signed_by signer di p (VObj (remove_member "proof" ms)).
Proof.
  unfold verify_trust_task_proof_value in Hv.
  destruct (split_received received) as [[doc di]|] eqn:Hs; [|done].
  apply split_received_inv in Hs as (ms & proof & Hr & Hg & Hf & Ht & ->).
  apply verify_core_sound in Hv as (Hne & p & Hsb). by exists ms, proof, di, p.
Qed.

(** C18 (who signed a document as received): if the verifier names a signer,
    the received JSON carries one proof, read whole (every member of it is
    hashed); the signature is over exactly the received members but [proof];
    and the key is the signer's own, authorised by the signer's identity
    document under the very relationship the proof declares as its purpose,
    with the signer its controller — or the one key of a [did:key] that can
    sign. Retrying with a refreshed document loosens none of it. *)
Theorem task_proof_sound received s signer s'
    (Hv : verify_trust_task_proof_value received s = (Ok signer, s')) :
  ∃ ms proof di p,
    received = VObj ms
    ∧ json_get received "proof" = Some proof
    ∧ proof_from_value proof = Ok di
    ∧ proof_to_value di = Ok proof
    ∧ signer ≠ ""
    ∧ signed_by signer di p (VObj (remove_member "proof" ms)).
Proof. by apply received_signed_by with s s'. Qed.

(** An approval is made for [assertionMethod], by a key listed under it. *)
Lemma approval_sound received s signer s' :
  verify_approval_proof_value received s = (Ok signer, s') →
  ∃ ms di, received = VObj ms ∧ signed_by signer di AssertionMethod (VObj (remove_member "proof" ms)).
Proof.
  unfold verify_approval_proof_value. destruct (_ ≫= _) as [[doc di]|] eqn:Hs; [|done].
  apply bind_ok in Hs as ([d i] & Hs%split_received_inv & (u & Hp%guard_ok & [= <- <-])%bind_ok).
  destruct Hs as (ms & proof & Hr & _ & _ & _ & ->). apply bool_decide_eq_false, dec_stable in Hp.
  intros (_ & p & Hsb)%verify_core_sound. exists ms, i. split; [done|].
  pose proof (sb_purpose _ _ _ _ Hsb) as Hpp. rewrite Hpp in Hp. by injection Hp as <-.
Qed.

(** Without a client configured nothing is fetched, whatever is presented. *)
Lemma no_client_no_fetch received s r s' :
  network = false → verify_trust_task_proof_value received s = (r, s') → vs_resolver s' = vs_resolver s.
Proof.
  intros Hn. unfold verify_trust_task_proof_value. destruct (split_received received) as [[doc di]|];
    [|by intros [= _ <-]]. unfold verify_core. case_bool_decide; [by intros [= _ <-]|].
  destruct (map_err classify _) as [p|]; [|by intros [= _ <-]].
  set (R := λ a b : VmState, vs_resolver b = vs_resolver a).
  assert (PreOrder R) as HR by (split; [done|intros a b c; unfold R; congruence]).
  assert (∀ vm s r s', resolve vm p s = (r, s') → R s s') as Hres.
  { intros vm s0 r0 s0'. unfold resolve. destruct (split_vm vm) as [[did f]|]; [|by intros [= _ <-]].
    destruct (starts_with "did:key:" did); [by intros [= _ <-]|].
    destruct (starts_with "did:peer:" did); [by intros [= _ <-]|]. rewrite Hn. by intros [= _ <-]. }
  destruct (di_verify _ di doc s) as [[[]|first] s1] eqn:Hv; apply (di_verify_steps R) in Hv; [|exact Hres|..].
  - by intros [= _ <-].
  - unfold refresh_if_cached. rewrite Hn. cbn [negb]. by intros [= _ <-].
  - exact Hres.
Qed.

(** ** Whole sets *)

Lemma accept_all_ok outcomes signer :
  accept_all outcomes = Ok signer ↔
  outcomes ≠ [] ∧ Forall (λ x, x = (signer, Ok ())) outcomes.
Proof.
  unfold accept_all. destruct outcomes as [|[first r0] os]; [by split; [|intros []]|].
  set (all := (first, r0) :: os).
  assert (omap (λ x : nat * (string * result string unit), match x.2.2 with
            | Err e => Some ("proof " +:+ pretty x.1 +:+ ": " +:+ e)
            | Ok _ => None end) (imap pair all) = [] ↔ Forall (λ x, x.2 = Ok ()) all) as Hr.
  { unfold all. clear. generalize ((first, r0) :: os). clear. intros l. generalize 0%nat as n.
    assert (∀ (f : nat → nat), omap (λ x : nat * (string * result string unit), match x.2.2 with
            | Err e => Some ("proof " +:+ pretty x.1 +:+ ": " +:+ e)
            | Ok _ => None end) (imap (λ n x, (f n, x)) l) = [] ↔ Forall (λ x, x.2 = Ok ()) l) as Hg.
    { induction l as [|[d [[]|e]] l IH]; intros f; cbn.
      - done.
      - rewrite Forall_cons. specialize (IH (f ∘ S)). unfold compose in IH |- *. rewrite IH. naive_solver.
      - rewrite Forall_cons. naive_solver. }
    intros _. apply (Hg id). }
  case_bool_decide as Hne.
  - split; [done|]. intros [_ Hf]. destruct Hne. apply Hr. eapply Forall_impl; [exact Hf|]. by intros x ->.
  - apply Hr in Hne. destruct (existsb _ all) eqn:He.
    + split; [done|]. intros [_ Hf]. exfalso. rewrite Forall_forall in Hf.
      pose proof (Hf _ (list_elem_of_here _ _)) as [= -> _].
      apply existsb_exists in He as (x & Hx%list_elem_of_In & Hd%bool_decide_eq_true).
      rewrite (Hf x Hx) in Hd. done.
    + rewrite existsb_false in He. split.
      * intros [= <-]. split; [done|]. apply Forall_forall. intros [d r] Hx.
        rewrite Forall_forall in Hne. pose proof (Hne _ Hx) as Hok. cbn in Hok. subst.
        pose proof (He _ Hx) as Hd. cbn in Hd. by apply bool_decide_eq_false, dec_stable in Hd as ->.
      * intros [_ Hf]. apply Forall_cons in Hf as [[= -> _] _]. done.
Qed.

Lemma parse_proofs_ok i raw dis :
  parse_proofs i raw = Ok dis →
  (∀ di, di ∈ dis → ∃ v, v ∈ raw ∧ unsupported_suite v = false ∧ proof_from_value v = Ok di)
  ∧ ∀ v, v ∈ raw → unsupported_suite v = false → ∃ di, di ∈ dis ∧ proof_from_value v = Ok di.
Proof.
  revert i dis. induction raw as [|v raw IH]; intros i dis Hp; cbn [parse_proofs] in Hp.
  { injection Hp as <-. split; intros ? []%elem_of_nil. }
  destruct (unsupported_suite v) eqn:Hu.
  - destruct (IH _ _ Hp) as [Hin1 Hin2]. split.
    + intros di (w & Hw & ?)%Hin1. exists w. split; [by apply list_elem_of_further|done].
    + intros w [->|Hw]%elem_of_cons; [congruence|by apply Hin2].
  - apply bind_ok in Hp as (di & Hdi%map_err_ok & (rest & Hrest & [= <-])%bind_ok).
    destruct (IH _ _ Hrest) as [Hin1 Hin2]. split.
    + intros d [->|(w & Hw & ?)%Hin1]%elem_of_cons; [exists v|exists w; split; [by apply list_elem_of_further|done]].
      split; [apply list_elem_of_here|done].
    + intros w [->|Hw]%elem_of_cons Hs; [exists di; split; [apply list_elem_of_here|done]|].
      destruct (Hin2 w Hw Hs) as (d & Hd & ?). exists d. split; [by apply list_elem_of_further|done].
Qed.

Lemma verify_each_sound dis doc expected s outcomes s' signer :
  verify_each dis doc expected s = (outcomes, s') → Forall (λ x, x = (signer, Ok ())) outcomes →
  length outcomes = length dis ∧ ∀ di, di ∈ dis → signed_by signer di expected doc.
Proof.
  revert s s' outcomes. induction dis as [|di dis IH]; intros s s' outcomes Hv Hf; cbn [verify_each] in Hv.
  { injection Hv as <- _. split; [done|]. intros ? []%elem_of_nil. }
  destruct (verify_one di doc expected s) as [r s1] eqn:Hone.
  destruct (verify_each dis doc expected s1) as [rs s2] eqn:Heach. injection Hv as <- _.
  apply Forall_cons in Hf as [[= Hd ->] Hf]. destruct (IH _ _ _ Heach Hf) as [Hlen Hall].
  split; [cbn; by rewrite Hlen|]. intros d [->|Hin]%elem_of_cons; [|by apply Hall].
  unfold verify_one in Hone. destruct (purpose_parse (proof_purpose di)) as [p|] eqn:Hp; [|done]. cbn [map_err] in Hone.
  case_bool_decide as Hpe; [done|]. subst p.
  destruct (di_verify _ di doc s) as [[[]|] s3] eqn:Hdv; [|done].
  split; [by rewrite <- Hd|done|by eapply verified_key].
Qed.

(** A document with several proofs has one signer: if a proof set
    verifies, its document is an object with a proof; every proof of it in a
    suite this build knows is a good signature, over the received members but
    [proof], for the expected purpose, by a key its signer authorised for that
    purpose; there is one at least; and all name the one signer returned.
    Nothing else of the set was accepted: what was set aside names a suite
    this build does not know. *)
Theorem proof_set_sound signed expected s set s'
    (Hv : verify_proof_set signed expected s = (Ok set, s')) :
  ∃ ms proof_value,
    signed = VObj ms
    ∧ json_get signed "proof" = Some proof_value
    ∧ vp_proofs set ≠ []
    ∧ (∀ di, di ∈ vp_proofs set → signed_by (vp_signer set) di expected (VObj (remove_member "proof" ms)))
    ∧ ∀ v, v ∈ raw_proofs proof_value →
        unsupported_suite v = true ∨ ∃ di, di ∈ vp_proofs set ∧ proof_from_value v = Ok di.
Proof.
  unfold verify_proof_set in Hv. destruct signed as [| | | | | |ms]; try done.
  destruct (_ ≫= _) as [proofs|] eqn:Hp; [|done].
  apply bind_ok in Hp as (pv & Hpv%ok_or_ok & Hps%map_err_ok).
  destruct (verify_each proofs _ expected s) as [outcomes s1] eqn:He.
  destruct (map_err NotVerified (accept_all outcomes)) as [signer|] eqn:Ha; [|done].
  injection Hv as <- _. apply map_err_ok, accept_all_ok in Ha as [Hne Hf].
  destruct (verify_each_sound _ _ _ _ _ _ _ He Hf) as [Hlen Hall].
  exists ms, pv. split; [done|]. split; [done|]. cbn [vp_proofs vp_signer].
  split; [intros ->; by destruct outcomes|]. split; [done|].
  unfold proof_set in Hps. apply bind_ok in Hps as (u & _ & (ps & Hpp & Hps)%bind_ok).
  assert (ps = proofs) as -> by by destruct ps; [done|injection Hps].
  apply parse_proofs_ok in Hpp as [_ Hcov]. intros v Hin. destruct (unsupported_suite v) eqn:Hu; [by left|right].
  by apply Hcov.
Qed.
End TaskProof.

(** ** A small proof system, for the witnesses *)
Module ToyProof.

(** A proof is its JSON; its value repeats the key and names the document's
    type. *)
Definition says (key : ResolvedKey) (di doc : Value) : bool :=
  bool_decide (get_str di "proofValue"
    = Some (String.string_of_list_byte (rk_bytes key) +:+ " " +:+ default "" (get_str doc "type"))).
Definition key_text (m : VerificationMethod) : result string bytes :=
  ok_or (as_bytes <$> (vm_properties m !! "publicKeyMultibase"%string ≫= as_str)) "no key".

#[export] Instance integrity : DataIntegrity := {|
  Proof := Value;
  Suite := string;
  proof_from_value := λ v, match v with VObj _ => Ok v | _ => Err "not a proof" end;
  proof_to_value := Ok;
  proof_vm := λ di, default "" (get_str di "verificationMethod");
  proof_purpose := λ di, default "" (get_str di "proofPurpose");
  proof_suite := λ di, default "" (get_str di "cryptosuite");
  suite_of := λ s, if bool_decide (s = "toy") then Some s else None;
  suite_text := λ s, s;
  di_display := λ e, match e with MalformedProof w | ResolverError w | OtherError w => w end;
  di_verify := λ S res di doc s,
    match res (default "" (get_str di "verificationMethod")) s with
    | (Ok key, s) => (if says key di doc then Ok () else Err (OtherError "bad signature"), s)
    | (Err e, s) => (Err e, s)
    end;
  resolve_did_key := λ vm, Ok (mk_key Ed25519 (as_bytes (default "" (snd <$> split_once "#" vm))));
  parse_did := Ok;
  resolve_peer := λ _, None;
  get_public_key_bytes := key_text;
  decode_public_key := key_text;
  decode_multibase := λ s, Ok [xed; x01];
  jwk_key_type_of := λ _, Ok None;
|}.

#[export] Instance integrity_laws : DataIntegrityLaws.
Proof.
  refine {| signature_ok := says : ResolvedKey → Proof → Value → bool |}.
  - intros S res di doc s s'. cbn. destruct (res _ s) as [[key|] s1] eqn:Hr; [|done].
    destruct (says key di doc) eqn:Hk; [|done]. intros _. by exists key, s, s1.
  - intros S R HR res di doc s r s' Hres. cbn. destruct (res _ s) as [[key|] s1] eqn:Hr; intros [= _ <-]; by eapply Hres.
Defined.

(** One document, of a community whose key signs for authentication only. *)
Definition club_key : VerificationMethod :=
  mk_vm "#key-0" "did:web:club" {[ "publicKeyMultibase" := VStr "zClub" ]}.
Definition club_document : Document :=
  mk_document "did:web:club" [club_key] [] [Reference "did:web:club#key-0"] [] [].

#[export] Instance client : DidClient := {|
  ClientState := unit;
  client_resolve := λ did s,
    (if bool_decide (did = "did:web:club") then Ok (mk_response club_document false) else Err "unknown", s);
  client_holds := λ _ _, false;
  client_remove := λ _ s, s;
  instant_now := λ _, 0;
|}.
#[export] Instance order : HashOrder := λ V m, map_to_list m.

Definition start : VmState := mk_vm_state (tt, ∅) ∅.
Definition proof_of (vm purpose value : string) : Value :=
  mk_obj {[ "type" := VStr "DataIntegrityProof"; "cryptosuite" := VStr "toy"; "verificationMethod" := VStr vm;
            "proofPurpose" := VStr purpose; "proofValue" := VStr value ]}.
Definition signed_club (purpose : string) : Value :=
  mk_obj {[ "type" := VStr "a"; "proof" := proof_of "did:web:club#key-0" purpose "zClub a" ]}.

(** The key signs for [authentication], and for nothing else. *)
Lemma task_proof_sound_witness :
  fst (verify_trust_task_proof_value true (signed_club "authentication") start) = Ok "did:web:club"%string
  ∧ fst (verify_trust_task_proof_value true (signed_club "assertionMethod") start)
    = Err (VerifyFailed "verificationMethod is not listed under assertionMethod in its DID document")
  ∧ ∃ di p, signed_by true "did:web:club" di p (VObj (remove_member "proof" [("proof", VNull); ("type", VStr "a")])).
Proof.
  split; [vm_compute; reflexivity|]. split; [vm_compute; reflexivity|].
  destruct (task_proof_sound true (signed_club "authentication") start "did:web:club"
              (snd (verify_trust_task_proof_value true (signed_club "authentication") start)))
    as (ms & proof & di & p & Hms & _ & _ & _ & _ & Hs).
  - vm_compute. reflexivity.
  - exists di, p.
    assert (VObj (remove_member "proof" ms) = VObj (remove_member "proof" [("proof", VNull); ("type", VStr "a")])) as <-.
    { assert (signed_club "authentication"
              = VObj [("proof", proof_of "did:web:club#key-0" "authentication" "zClub a"); ("type", VStr "a")]) as Hobj
        by (vm_compute; reflexivity).
      rewrite Hobj in Hms. injection Hms as <-. vm_compute. reflexivity. }
    exact Hs.
Defined.

Definition two_proofs : Value :=
  mk_obj {[ "type" := VStr "a";
            "proof" := VArr [proof_of "did:web:club#key-0" "authentication" "zClub a";
                             mk_obj {[ "type" := VStr "DataIntegrityProof"; "cryptosuite" := VStr "unknown" ]}] ]}.

Lemma proof_set_sound_witness :
  ∃ set, verify_proof_set true two_proofs Authentication start = (Ok set, start)
    ∧ vp_signer set = "did:web:club"%string ∧ vp_proofs set ≠ [].
Proof.
  assert (∃ set, verify_proof_set true two_proofs Authentication start = (Ok set, start)
                 ∧ vp_signer set = "did:web:club"%string) as (set & Hset & Hs).
  { eexists. split; vm_compute; reflexivity. }
  exists set. split; [exact Hset|]. split; [exact Hs|].
  destruct (proof_set_sound true two_proofs Authentication start set start Hset) as (ms & pv & _ & _ & Hne & _).
  exact Hne.
Defined.
End ToyProof.
