(* ===== verification/FileJournal.v ===== *)
(** * The journal on disk

    [vti-voting-service/src/journal.rs]: one directory per election, an
    append-only log of board entries and one of receipt tokens, and the
    registration. Proved: the journal keeps [Host.JournalLaws], so what a
    restart needs of a journal holds of this one; a crash in the middle of any
    write loses nothing that was answered; and two ways a write that fails
    without a crash does.

    The operating system may fail any call ([Call]); a failed write may have
    written a part. [read_dir]'s order is [hash_iter]'s. The files' own names
    are not the callers': a directory is named by a digest. *)

From S2P Require Import Prelude Json Election Host.

(** [serde_json::to_vec] and [from_slice] of a [StoredElection], whose
    implementations are derived. *)
Class StoredSerde := {
  stored_to_vec : StoredElection → result string bytes;
  stored_from_slice : bytes → result string StoredElection;
}.
Class StoredSerdeLaws `{StoredSerde} := {
  stored_roundtrip e b : stored_to_vec e = Ok b → stored_from_slice b = Ok e;
}.

(** ** The disk *)

(** One election's directory: its files' contents, where they exist. *)
Record ElectionFiles := mk_files {
  ef_election : option bytes;
  ef_tmp : option bytes;
  ef_entries : option bytes;
  ef_receipts : option bytes;
}.
Definition no_files : ElectionFiles := mk_files None None None None.

Abbreviation Disk := (gmap string ElectionFiles).

(** What the system did with a call: all of it, or a part and an error. *)
Inductive Call := Done | Failed (reason : string) (kept : nat).
Definition Os : Type := Disk * list Call.

(** A computation over the disk. *)
Definition D (A : Type) : Type := Os → result string A * Os.
#[export] Instance D_ret : MRet D := λ A a s, (Ok a, s).
#[export] Instance D_bind : MBind D := λ A B f m s,
  match m s with
  | (Ok a, s') => f a s'
  | (Err e, s') => (Err e, s')
  end.
Definition d_try {A} (r : result string A) : D A := λ s, (r, s).
Definition d_gets {A} (f : Disk → A) : D A := λ s, (Ok (f s.1), s).

(** A system call: its effect, and its effect when it fails. *)
Definition call (f : Disk → Disk) (partial : nat → Disk → Disk) : D unit := λ '(d, t),
  match t with
  | Failed r n :: t => (Err r, (partial n d, t))
  | Done :: t => (Ok (), (f d, t))
  | [] => (Ok (), (f d, []))
  end.
Definition nothing (_ : nat) (d : Disk) : Disk := d.

Definition on_dir (name : string) (g : ElectionFiles → ElectionFiles) (d : Disk) : Disk :=
  <[name := g (default no_files (d !! name))]> d.

(** The two logs. *)
Inductive Log := EntriesLog | ReceiptsLog.
Definition get_log (l : Log) (f : ElectionFiles) : option bytes :=
  match l with EntriesLog => ef_entries f | ReceiptsLog => ef_receipts f end.
Definition set_log (l : Log) (b : bytes) (f : ElectionFiles) : ElectionFiles :=
  match l with
  | EntriesLog => mk_files (ef_election f) (ef_tmp f) (Some b) (ef_receipts f)
  | ReceiptsLog => mk_files (ef_election f) (ef_tmp f) (ef_entries f) (Some b)
  end.
Definition append_log (l : Log) (b : bytes) (f : ElectionFiles) : ElectionFiles :=
  set_log l (default [] (get_log l f) ++ b) f.

Section FileJournal.
Context `{Sha256, StoredSerde, HashOrder}.

(** ** Writing *)

Definition hex_digit (z : Z) : byte := byte_of_Z (if z <? 10 then 48 + z else 87 + z).
Definition hex (b : byte) : bytes := [hex_digit (Z_of_byte b / 16); hex_digit (Z_of_byte b mod 16)].

(** The directory of an election. *)
Definition dir_name (c i : string) : string :=
  String.string_of_list_byte
    (concat (hex <$> vec_to_list (sha256 (frames [as_bytes c; as_bytes i])))).

(** [append_record]: open for append, write, [sync_data]. A write that fails
    has not written the whole record. *)
Definition append_record (l : Log) (name : string) (record : bytes) : D unit :=
  _ ← call (on_dir name (append_log l [])) nothing;
  _ ← call (on_dir name (append_log l record))
        (λ n, on_dir name (append_log l (take (Nat.min n (length record - 1)) record)));
  call id nothing.

(** [FileJournal::dir]: the directory, created where it is missing. *)
Definition dir (c i : string) : D string :=
  let name := dir_name c i in
  _ ← call (on_dir name id) nothing;
  mret name.

Definition entry_record (b : bytes) : bytes := to_be_bytes 4 (Z.of_nat (length b)) ++ b.
Definition receipt_record (leaf : Z) (token : string) : bytes :=
  to_be_bytes 8 leaf ++ to_be_bytes 4 (Z.of_nat (length (as_bytes token))) ++ as_bytes token.

Definition file_election (c i : string) (e : StoredElection) : D unit :=
  name ← dir c i;
  b ← d_try (stored_to_vec e);
  let put b f := mk_files (ef_election f) (Some b) (ef_entries f) (ef_receipts f) in
  _ ← call (on_dir name (put [])) nothing;
  _ ← call (on_dir name (put b)) (λ n, on_dir name (put (take (Nat.min n (length b - 1)) b)));
  _ ← call id nothing;
  call (on_dir name (λ f, mk_files (ef_tmp f) None (ef_entries f) (ef_receipts f))) nothing.

Definition file_entry (c i : string) (index : Z) (b : bytes) : D unit :=
  name ← dir c i;
  _ ← d_try (ok_or (u32_try_from (Z.of_nat (length b))) "entry too large");
  append_record EntriesLog name (entry_record b).

Definition file_receipt (c i : string) (leaf : Z) (token : string) : D unit :=
  name ← dir c i;
  _ ← d_try (ok_or (u32_try_from (Z.of_nat (length (as_bytes token)))) "token too large");
  append_record ReceiptsLog name (receipt_record leaf token).

Definition FileJournal : Journal := {|
  JState := Os;
  journal_election := file_election;
  journal_entry := file_entry;
  journal_receipt := file_receipt;
|}.

(** ** Reading *)

Definition slice (b : bytes) (at_ len : Z) : bytes := take (Z.to_nat len) (drop (Z.to_nat at_) b).

(** The loop of [read_entries], from [at_]; a round consumes four bytes at
    least. *)
Fixpoint entries_loop (fuel : nat) (b : bytes) (at_ : Z) (out : list bytes) : list bytes * Z :=
  match fuel with
  | O => (out, at_)
  | S fuel =>
      let size := Z.of_nat (length b) in
      if size <? at_ + 4 then (out, at_)
      else
        let len := of_be_bytes (slice b at_ 4) in
        if size <? at_ + 4 + len then (out, at_)
        else entries_loop fuel b (at_ + 4 + len) (out ++ [slice b (at_ + 4) len])
  end.
Definition entries_of (b : bytes) : list bytes * Z := entries_loop (S (length b)) b 0 [].

(** The loop of [read_receipts]. *)
Fixpoint receipts_loop (fuel : nat) (b : bytes) (at_ : Z) (out : gmap Z string)
  : gmap Z string * Z :=
  match fuel with
  | O => (out, at_)
  | S fuel =>
      let size := Z.of_nat (length b) in
      if size <? at_ + 12 then (out, at_)
      else
        let leaf := of_be_bytes (slice b at_ 8) in
        let len := of_be_bytes (slice b (at_ + 8) 4) in
        if size <? at_ + 12 + len then (out, at_)
        else receipts_loop fuel b (at_ + 12 + len)
               (<[leaf := utf8_lossy (slice b (at_ + 12) len)]> out)
  end.
Definition receipts_of (b : bytes) : gmap Z string * Z := receipts_loop (S (length b)) b 0 ∅.

(** A log read and its torn tail cut off. *)
Definition read_log {A} (l : Log) (name : string) (parse : bytes → A * Z) (none : A) : D A :=
  o ← d_gets (λ d, get_log l (default no_files (d !! name)));
  match o with
  | None => mret none
  | Some b =>
      _ ← call id nothing;
      let '(out, at_) := parse b in
      _ ← if bool_decide (at_ ≠ Z.of_nat (length b))
          then call (on_dir name (set_log l (take (Z.to_nat at_) b))) nothing else mret ();
      mret out
  end.
Definition read_entries (name : string) : D (list bytes) := read_log EntriesLog name entries_of [].
Definition read_receipts (name : string) : D (gmap Z string) := read_log ReceiptsLog name receipts_of ∅.

(** One directory of [FileJournal::load], whose entry may not be read. *)
Definition load_dir (name : string) (out : list Restored) : D (list Restored) :=
  _ ← call id nothing;
  o ← d_gets (λ d, ef_election (default no_files (d !! name)));
  match o with
  | None => mret out
  | Some b =>
      _ ← call id nothing;
      election ← d_try (stored_from_slice b);
      entries ← read_entries name;
      receipts ← read_receipts name;
      mret (out ++ [mk_restored (Some election) entries receipts])
  end.

Fixpoint load_dirs (names : list string) (out : list Restored) : D (list Restored) :=
  match names with
  | [] => mret out
  | name :: names => out ← load_dir name out; load_dirs names out
  end.

(** [FileJournal::load]. *)
Definition load : D (list Restored) :=
  _ ← call id nothing;
  names ← d_gets (λ d, (hash_iter d).*1);
  load_dirs names [].

(** ** Whole logs read back *)

(** A record's content that its length field can carry. *)
Definition fits_u32 (b : bytes) : Prop := Z.of_nat (length b) ≤ u32_max.
Definition fits_receipt (x : Z * string) : Prop :=
  0 ≤ x.1 ≤ u64_max ∧ fits_u32 (as_bytes x.2) ∧ is_utf8 x.2 = true.

Definition entries_log (bs : list bytes) : bytes := concat (entry_record <$> bs).
Definition receipts_log (rs : list (Z * string)) : bytes := concat ((λ x, receipt_record x.1 x.2) <$> rs).
Definition receipts_map (rs : list (Z * string)) : gmap Z string :=
  fold_left (λ m x, <[x.1 := x.2]> m) rs ∅.

Lemma slice_app pre b rest :
  slice (pre ++ b ++ rest) (Z.of_nat (length pre)) (Z.of_nat (length b)) = b.
Proof. unfold slice. by rewrite !Nat2Z.id, drop_app_length, take_app_length. Qed.

Lemma slice_at pre b rest at_ len :
  at_ = Z.of_nat (length pre) → len = Z.of_nat (length b) → slice (pre ++ b ++ rest) at_ len = b.
Proof. intros -> ->. apply slice_app. Qed.

Lemma of_be_u32 z : 0 ≤ z ≤ u32_max → of_be_bytes (to_be_bytes 4 z) = z.
Proof. intros Hz. apply of_be_to_be. unfold u32_max in Hz. simpl. lia. Qed.
Lemma of_be_u64 z : 0 ≤ z ≤ u64_max → of_be_bytes (to_be_bytes 8 z) = z.
Proof. intros Hz. apply of_be_to_be. unfold u64_max in Hz. simpl. lia. Qed.

(** What a torn record leaves: fewer bytes than one record. *)
Definition torn_entry (tail : bytes) : Prop :=
  ∃ b n, fits_u32 b ∧ (n < length (entry_record b))%nat ∧ tail = take n (entry_record b).
Definition torn_receipt (tail : bytes) : Prop :=
  ∃ x n, fits_receipt x ∧ (n < length (receipt_record x.1 x.2))%nat
    ∧ tail = take n (receipt_record x.1 x.2).

Lemma torn_entry_nil : torn_entry [].
Proof. exists [], 0%nat. split; [done|]. split; [simpl; lia|done]. Qed.
Lemma torn_receipt_nil : torn_receipt [].
Proof. exists (0, ""), 0%nat. split; [done|]. split; [simpl; lia|done]. Qed.

Lemma length_entry_record b : length (entry_record b) = (4 + length b)%nat.
Proof. unfold entry_record. by rewrite length_app, length_to_be_bytes. Qed.
Lemma length_receipt_record leaf token :
  length (receipt_record leaf token) = (12 + length (as_bytes token))%nat.
Proof. unfold receipt_record. rewrite !length_app, !length_to_be_bytes. lia. Qed.

(** The loop stops at a torn record. *)
Lemma entries_loop_torn fuel pre tail out :
  torn_entry tail →
  entries_loop fuel (pre ++ tail) (Z.of_nat (length pre)) out = (out, Z.of_nat (length pre)).
Proof.
  intros (b & n & Hb & Hn & ->). rewrite length_entry_record in Hn.
  destruct fuel as [|fuel]; [done|]. cbn [entries_loop]. rewrite length_app, length_take, length_entry_record.
  destruct (Z.ltb_spec (Z.of_nat (length pre + Nat.min n (4 + length b))) (Z.of_nat (length pre) + 4)) as [?|H4];
    [done|].
  assert (slice (pre ++ take n (entry_record b)) (Z.of_nat (length pre)) 4
          = to_be_bytes 4 (Z.of_nat (length b))) as ->.
  { unfold entry_record. rewrite take_app, length_to_be_bytes, take_ge by (rewrite length_to_be_bytes; lia).
    apply slice_at; [done|by rewrite length_to_be_bytes]. }
  rewrite of_be_u32 by (unfold fits_u32 in Hb; lia).
  by rewrite (proj2 (Z.ltb_lt _ _)) by lia.
Qed.

Lemma entries_loop_whole fuel pre bs tail out :
  Forall fits_u32 bs → torn_entry tail → (length bs < fuel)%nat →
  entries_loop fuel (pre ++ entries_log bs ++ tail) (Z.of_nat (length pre)) out
  = (out ++ bs, Z.of_nat (length (pre ++ entries_log bs))).
Proof.
  intros Hbs Ht. revert fuel pre out. induction Hbs as [|b bs Hb Hbs IH]; intros fuel pre out Hf.
  { unfold entries_log. simpl. rewrite !app_nil_r. by apply entries_loop_torn. }
  destruct fuel as [|fuel]; [simpl in Hf; lia|]. simpl in Hf.
  unfold entries_log. cbn [fmap list_fmap concat]. fold (entries_log bs).
  assert (pre ++ (entry_record b ++ entries_log bs) ++ tail
          = (pre ++ entry_record b) ++ entries_log bs ++ tail) as Heq by by rewrite <- !app_assoc.
  rewrite Heq. cbn [entries_loop].
  assert (slice ((pre ++ entry_record b) ++ entries_log bs ++ tail) (Z.of_nat (length pre)) 4
          = to_be_bytes 4 (Z.of_nat (length b))) as ->.
  { unfold entry_record. rewrite <- !app_assoc. apply slice_at; [done|by rewrite length_to_be_bytes]. }
  assert (slice ((pre ++ entry_record b) ++ entries_log bs ++ tail) (Z.of_nat (length pre) + 4)
            (Z.of_nat (length b)) = b) as Hs.
  { unfold entry_record. rewrite (app_assoc pre), <- (app_assoc (pre ++ _)). apply slice_at; [|done].
    rewrite length_app, length_to_be_bytes. lia. }
  rewrite of_be_u32 by (unfold fits_u32 in Hb; lia). rewrite Hs.
  rewrite !length_app, length_entry_record.
  rewrite !(proj2 (Z.ltb_ge _ _)) by lia.
  replace (Z.of_nat (length pre) + 4 + Z.of_nat (length b))
    with (Z.of_nat (length (pre ++ entry_record b))) by (rewrite length_app, length_entry_record; lia).
  rewrite IH by (done || lia). rewrite <- !app_assoc. f_equal. f_equal.
  by rewrite !length_app, length_entry_record.
Qed.

Lemma entries_log_length bs : (length bs ≤ length (entries_log bs))%nat.
Proof.
  unfold entries_log. induction bs as [|b bs IH]; [simpl; lia|]. cbn [fmap list_fmap concat].
  rewrite length_app, length_entry_record. cbn [length]. lia.
Qed.

(** A log of whole records and a torn one reads as the whole ones. *)
Lemma entries_of_log bs tail :
  Forall fits_u32 bs → torn_entry tail →
  entries_of (entries_log bs ++ tail) = (bs, Z.of_nat (length (entries_log bs))).
Proof.
  intros Hbs Ht. unfold entries_of. rewrite (entries_loop_whole _ [] bs tail []); [done..|].
  pose proof (entries_log_length bs). rewrite length_app. lia.
Qed.
(** The same of receipts. *)
Lemma receipts_loop_torn fuel pre tail out :
  torn_receipt tail →
  receipts_loop fuel (pre ++ tail) (Z.of_nat (length pre)) out = (out, Z.of_nat (length pre)).
Proof.
  intros ([leaf token] & n & (Hl & Hb & _) & Hn & ->). cbn [fst snd] in *. rewrite length_receipt_record in Hn.
  destruct fuel as [|fuel]; [done|]. cbn [receipts_loop].
  rewrite length_app, length_take, length_receipt_record.
  destruct (Z.ltb_spec (Z.of_nat (length pre + Nat.min n (12 + length (as_bytes token))))
              (Z.of_nat (length pre) + 12)) as [?|H12]; [done|].
  assert (slice (pre ++ take n (receipt_record leaf token)) (Z.of_nat (length pre) + 8) 4
          = to_be_bytes 4 (Z.of_nat (length (as_bytes token)))) as ->.
  { unfold receipt_record. rewrite !take_app, !length_to_be_bytes.
    rewrite (take_ge (to_be_bytes 8 _)) by (rewrite length_to_be_bytes; lia).
    rewrite (take_ge (to_be_bytes 4 _)) by (rewrite length_to_be_bytes; lia).
    rewrite (app_assoc pre). apply slice_at; rewrite ?length_app, !length_to_be_bytes; lia. }
  rewrite of_be_u32 by (unfold fits_u32 in Hb; lia).
  by rewrite (proj2 (Z.ltb_lt _ _)) by lia.
Qed.

Lemma receipts_loop_whole fuel pre rs tail out :
  Forall fits_receipt rs → torn_receipt tail → (length rs < fuel)%nat →
  receipts_loop fuel (pre ++ receipts_log rs ++ tail) (Z.of_nat (length pre)) out
  = (fold_left (λ m x, <[x.1 := x.2]> m) rs out, Z.of_nat (length (pre ++ receipts_log rs))).
Proof.
  intros Hrs Ht. revert fuel pre out.
  induction Hrs as [|[leaf token] rs (Hl & Hb & Hu) Hrs IH]; intros fuel pre out Hf.
  { unfold receipts_log. simpl. rewrite !app_nil_r. by apply receipts_loop_torn. }
  destruct fuel as [|fuel]; [simpl in Hf; lia|]. simpl in Hf, Hl, Hb, Hu.
  unfold receipts_log. cbn [fmap list_fmap concat fst snd]. fold (receipts_log rs).
  assert (pre ++ (receipt_record leaf token ++ receipts_log rs) ++ tail
          = (pre ++ receipt_record leaf token) ++ receipts_log rs ++ tail) as Heq by by rewrite <- !app_assoc.
  rewrite Heq. cbn [receipts_loop].
  set (whole := (pre ++ receipt_record leaf token) ++ receipts_log rs ++ tail).
  assert (slice whole (Z.of_nat (length pre)) 8 = to_be_bytes 8 leaf) as ->.
  { unfold whole, receipt_record. rewrite <- !app_assoc.
    apply slice_at; [done|by rewrite length_to_be_bytes]. }
  assert (slice whole (Z.of_nat (length pre) + 8) 4
          = to_be_bytes 4 (Z.of_nat (length (as_bytes token)))) as ->.
  { unfold whole, receipt_record. rewrite (app_assoc pre), <- (app_assoc (pre ++ _)), <- (app_assoc (to_be_bytes 4 _)).
    apply slice_at; [rewrite length_app|]; rewrite length_to_be_bytes; lia. }
  rewrite of_be_u64, of_be_u32 by (unfold fits_u32 in Hb; lia).
  assert (slice whole (Z.of_nat (length pre) + 12) (Z.of_nat (length (as_bytes token)))
          = as_bytes token) as ->.
  { unfold whole, receipt_record. rewrite !(app_assoc pre), (app_assoc (pre ++ _)), <- (app_assoc ((pre ++ _) ++ _)).
    apply slice_at; [rewrite !length_app, !length_to_be_bytes; lia|done]. }
  rewrite utf8_lossy_valid by done. unfold whole at 1 2.
  rewrite !length_app, length_receipt_record, !(proj2 (Z.ltb_ge _ _)) by lia.
  replace (Z.of_nat (length pre) + 12 + Z.of_nat (length (as_bytes token)))
    with (Z.of_nat (length (pre ++ receipt_record leaf token)))
    by (rewrite length_app, length_receipt_record; lia).
  unfold whole. rewrite IH by (done || lia). cbn [fold_left fst snd]. f_equal. f_equal.
  rewrite !length_app, length_receipt_record. lia.
Qed.

Lemma receipts_log_length rs : (length rs ≤ length (receipts_log rs))%nat.
Proof.
  unfold receipts_log. induction rs as [|x rs IH]; [simpl; lia|]. cbn [fmap list_fmap concat].
  rewrite length_app, length_receipt_record. cbn [length]. lia.
Qed.

Lemma receipts_of_log rs tail :
  Forall fits_receipt rs → torn_receipt tail →
  receipts_of (receipts_log rs ++ tail) = (receipts_map rs, Z.of_nat (length (receipts_log rs))).
Proof.
  intros Hrs Ht. unfold receipts_of. rewrite (receipts_loop_whole _ [] rs tail ∅); [done..|].
  pose proof (receipts_log_length rs). rewrite length_app. lia.
Qed.
(** ** Writing, when every call was done *)

(** A directory with nothing half-written in it. *)
Record whole_files (f : ElectionFiles) : Prop := {
  whole_election b : ef_election f = Some b → ∃ e, stored_from_slice b = Ok e;
  whole_entries : ∃ bs, Forall fits_u32 bs ∧ default [] (ef_entries f) = entries_log bs;
  whole_receipts : ∃ rs, Forall fits_receipt rs ∧ default [] (ef_receipts f) = receipts_log rs;
}.
Definition whole_disk (d : Disk) : Prop := map_Forall (λ _, whole_files) d.

(** What the files say. *)
Definition files_restored (f : ElectionFiles) : Restored :=
  mk_restored (ef_election f ≫= λ b, ok (stored_from_slice b))
    (entries_of (default [] (ef_entries f))).1 (receipts_of (default [] (ef_receipts f))).1.
Definition file_of (s : Os) (c i : string) : Restored :=
  files_restored (default no_files (s.1 !! dir_name c i)).

Lemma d_bind_inv {A B} (m : D A) (f : A → D B) s b s' :
  (m ≫= f) s = (Ok b, s') → ∃ a s1, m s = (Ok a, s1) ∧ f a s1 = (Ok b, s').
Proof. unfold mbind, D_bind. destruct (m s) as [[a|] s1]; [|done]. intros Hf. by exists a, s1. Qed.

Lemma call_done f p d t u d' t' : call f p (d, t) = (Ok u, (d', t')) → d' = f d.
Proof. unfold call. destruct t as [|[|] t]; by intros [= _ <- _]. Qed.

Lemma on_dir_twice name g h d : on_dir name g (on_dir name h d) = on_dir name (g ∘ h) d.
Proof. unfold on_dir. by rewrite lookup_insert_eq, insert_insert_eq. Qed.

Lemma append_log_touched l b f : append_log l b (append_log l [] f) = append_log l b f.
Proof. destruct l, f; unfold append_log; simpl; by rewrite app_nil_r. Qed.

Lemma append_record_done l name r d t d' t' :
  append_record l name r (d, t) = (Ok (), (d', t')) → d' = on_dir name (append_log l r) d.
Proof.
  unfold append_record. intros (u & [d1 t1] & Hc1%call_done & Hr)%d_bind_inv.
  apply d_bind_inv in Hr as (u2 & [d2 t2] & Hc2%call_done & Hc3%call_done). subst.
  unfold id. rewrite on_dir_twice. unfold on_dir, compose. by rewrite append_log_touched.
Qed.

Lemma dir_done c i d t name d' t' :
  dir c i (d, t) = (Ok name, (d', t')) → name = dir_name c i ∧ d' = on_dir name id d.
Proof. unfold dir. by intros (u & [d1 t1] & ->%call_done & [= <- <- <-])%d_bind_inv. Qed.

Lemma file_entry_done c i n b d t d' t' :
  file_entry c i n b (d, t) = (Ok (), (d', t')) →
  fits_u32 b ∧ d' = on_dir (dir_name c i) (append_log EntriesLog (entry_record b)) d.
Proof.
  unfold file_entry. intros (name & [d1 t1] & [-> ->]%dir_done & Hr)%d_bind_inv.
  apply d_bind_inv in Hr as (len & s1 & [= Hl <-] & ->%append_record_done).
  split; [|by rewrite on_dir_twice]. apply ok_or_ok in Hl. unfold u32_try_from in Hl.
  case_bool_decide; [|done]. unfold fits_u32. lia.
Qed.

Lemma file_receipt_done c i leaf token d t d' t' :
  file_receipt c i leaf token (d, t) = (Ok (), (d', t')) →
  fits_u32 (as_bytes token)
  ∧ d' = on_dir (dir_name c i) (append_log ReceiptsLog (receipt_record leaf token)) d.
Proof.
  unfold file_receipt. intros (name & [d1 t1] & [-> ->]%dir_done & Hr)%d_bind_inv.
  apply d_bind_inv in Hr as (len & s1 & [= Hl <-] & ->%append_record_done).
  split; [|by rewrite on_dir_twice]. apply ok_or_ok in Hl. unfold u32_try_from in Hl.
  case_bool_decide; [|done]. unfold fits_u32. lia.
Qed.

Lemma entries_log_snoc bs b : entries_log (bs ++ [b]) = entries_log bs ++ entry_record b.
Proof. unfold entries_log. rewrite fmap_app, concat_app. simpl. by rewrite app_nil_r. Qed.
Lemma receipts_log_snoc rs x :
  receipts_log (rs ++ [x]) = receipts_log rs ++ receipt_record x.1 x.2.
Proof. unfold receipts_log. rewrite fmap_app, concat_app. simpl. by rewrite app_nil_r. Qed.

Lemma entries_of_whole bs : Forall fits_u32 bs → (entries_of (entries_log bs)).1 = bs.
Proof.
  intros Hbs. rewrite <- (app_nil_r (entries_log bs)), entries_of_log; [done..|apply torn_entry_nil].
Qed.
Lemma receipts_of_whole rs : Forall fits_receipt rs → (receipts_of (receipts_log rs)).1 = receipts_map rs.
Proof.
  intros Hrs. rewrite <- (app_nil_r (receipts_log rs)), receipts_of_log; [done..|apply torn_receipt_nil].
Qed.

Lemma whole_no_files : whole_files no_files.
Proof. split; [done|exists []; by split; [constructor|]|exists []; by split; [constructor|]]. Qed.

Lemma whole_lookup d name : whole_disk d → whole_files (default no_files (d !! name)).
Proof. intros Hd. destruct (d !! name) as [f|] eqn:Hf; [by eapply Hd|apply whole_no_files]. Qed.

Lemma whole_on_dir name g d :
  whole_disk d → whole_files (g (default no_files (d !! name))) → whole_disk (on_dir name g d).
Proof. intros Hd Hg. by apply map_Forall_insert_2. Qed.

Lemma append_entry_whole f b :
  whole_files f → fits_u32 b →
  whole_files (append_log EntriesLog (entry_record b) f)
  ∧ files_restored (append_log EntriesLog (entry_record b) f)
    = mk_restored (re_election (files_restored f)) (re_entries (files_restored f) ++ [b])
        (re_receipts (files_restored f)).
Proof.
  intros [We (bs & Hbs & Hlog) Wr] Hb.
  assert (Forall fits_u32 (bs ++ [b])) as Hbs' by (apply Forall_app; by rewrite Forall_singleton).
  split; [split|]; [done| |done|].
  - exists (bs ++ [b]). split; [done|]. simpl. by rewrite Hlog, entries_log_snoc.
  - unfold files_restored. simpl. f_equal. by rewrite Hlog, <- entries_log_snoc, !entries_of_whole.
Qed.

Lemma append_receipt_whole f leaf token :
  whole_files f → fits_receipt (leaf, token) →
  whole_files (append_log ReceiptsLog (receipt_record leaf token) f)
  ∧ files_restored (append_log ReceiptsLog (receipt_record leaf token) f)
    = mk_restored (re_election (files_restored f)) (re_entries (files_restored f))
        (<[leaf := token]> (re_receipts (files_restored f))).
Proof.
  intros [We Wb (rs & Hrs & Hlog)] Hx.
  assert (Forall fits_receipt (rs ++ [(leaf, token)])) as Hrs' by (apply Forall_app; by rewrite Forall_singleton).
  split; [split|]; [done|done| |].
  - exists (rs ++ [(leaf, token)]). split; [done|]. simpl. by rewrite Hlog, receipts_log_snoc.
  - unfold files_restored. simpl. f_equal.
    pose proof (receipts_log_snoc rs (leaf, token)) as Hs. cbn [fst snd] in Hs.
    rewrite Hlog, <- Hs, !receipts_of_whole by done. unfold receipts_map. by rewrite fold_left_app.
Qed.

Lemma file_of_on_dir c i g d t :
  file_of (on_dir (dir_name c i) g d, t) c i = files_restored (g (default no_files (d !! dir_name c i))).
Proof. unfold file_of, on_dir. simpl. by rewrite lookup_insert_eq. Qed.

(** The file journal keeps the laws a restart needs. *)
#[export] Instance file_journal_laws : @JournalLaws FileJournal.
Proof.
  refine {| journal_of := file_of : @JState FileJournal → _;
            journal_whole := λ s : @JState FileJournal, whole_disk s.1 |}.
  - intros c i n b [d t] [d' t'] Hd [Hb ->]%file_entry_done.
    destruct (append_entry_whole _ b (whole_lookup d (dir_name c i) Hd) Hb) as [Hw Hr].
    split; [by apply whole_on_dir|]. by rewrite file_of_on_dir.
  - intros c i n token [d t] [d' t'] Hd Hn Hu [Hb ->]%file_receipt_done.
    destruct (append_receipt_whole _ n token (whole_lookup d (dir_name c i) Hd)) as [Hw Hr];
      [by split|]. split; [by apply whole_on_dir|]. by rewrite file_of_on_dir.
Defined.

(** ** Reading back after a crash

    An operation cut short at any of its calls: the process ends there, so
    what is left is the disk, and the next process starts by [load]. *)

(** A directory a crash may have left: a log's last record may be torn. *)
Record torn_files (f : ElectionFiles) : Prop := {
  torn_election b : ef_election f = Some b → ∃ e, stored_from_slice b = Ok e;
  torn_entries : ∃ bs tail, Forall fits_u32 bs ∧ torn_entry tail
    ∧ default [] (ef_entries f) = entries_log bs ++ tail ∧ (ef_election f = None → tail = []);
  torn_receipts : ∃ rs tail, Forall fits_receipt rs ∧ torn_receipt tail
    ∧ default [] (ef_receipts f) = receipts_log rs ++ tail ∧ (ef_election f = None → tail = []);
}.
Definition torn_disk (d : Disk) : Prop := map_Forall (λ _, torn_files) d.

(** What [load] leaves of a log and of a directory. *)
Definition cut {A} (parse : bytes → A * Z) (b : bytes) : bytes := take (Z.to_nat (parse b).2) b.
Definition mend (f : ElectionFiles) : ElectionFiles :=
  match ef_election f with
  | None => f
  | Some _ => mk_files (ef_election f) (ef_tmp f) (cut entries_of <$> ef_entries f)
                (cut receipts_of <$> ef_receipts f)
  end.

(** What a directory gives [load], and the disk. *)
Definition loaded (f : ElectionFiles) : list Restored :=
  match ef_election f with None => [] | Some _ => [files_restored f] end.
Definition held_in (d : Disk) : list Restored := (hash_iter d).*2 ≫= loaded.

Lemma whole_torn f : whole_files f → torn_files f.
Proof.
  intros [We (bs & Hbs & Hb) (rs & Hrs & Hr)]. split; [done| |].
  - exists bs, []. rewrite app_nil_r. split_and!; [done|apply torn_entry_nil|done|done].
  - exists rs, []. rewrite app_nil_r. split_and!; [done|apply torn_receipt_nil|done|done].
Qed.

Lemma cut_log {A} (parse : bytes → A * Z) x log tail o :
  default [] o = log ++ tail → parse (log ++ tail) = (x, Z.of_nat (length log)) →
  default [] (cut parse <$> o) = log.
Proof.
  destruct o as [b|]; simpl.
  - intros -> Hp. unfold cut. rewrite Hp. cbn [snd]. by rewrite Nat2Z.id, take_app_length.
  - by intros [-> _]%eq_sym%app_eq_nil _.
Qed.

(** Mending a torn directory leaves it whole, and saying what it said. *)
Lemma mend_whole f : torn_files f → whole_files (mend f) ∧ files_restored (mend f) = files_restored f.
Proof.
  intros [Te (bs & tb & Hbs & Htb & Hb & Nb) (rs & tr & Hrs & Htr & Hr & Nr)].
  unfold mend. destruct (ef_election f) as [e|] eqn:He.
  - pose proof (entries_of_log bs tb Hbs Htb) as Pb. pose proof (receipts_of_log rs tr Hrs Htr) as Pr.
    pose proof (cut_log _ _ _ _ _ Hb Pb) as Cb. pose proof (cut_log _ _ _ _ _ Hr Pr) as Cr.
    split; [split|].
    + simpl. intros b Hb'. apply Te. congruence.
    + by exists bs.
    + by exists rs.
    + unfold files_restored. cbn [ef_election ef_entries ef_receipts].
      rewrite Cb, Cr, Hb, Hr, Pb, Pr, entries_of_whole, receipts_of_whole by done. by rewrite He.
  - rewrite (Nb eq_refl), app_nil_r in Hb. rewrite (Nr eq_refl), app_nil_r in Hr.
    split; [|done]. split; [|by exists bs|by exists rs]. intros b Hb'. congruence.
Qed.

(** [read_log] reads a log and cuts it. *)
Lemma read_log_cut {A} l name (parse : bytes → A * Z) none d f :
  d !! name = Some f → parse [] = (none, 0) →
  (∀ b, get_log l f = Some b → 0 ≤ (parse b).2 ≤ Z.of_nat (length b)) →
  read_log l name parse none (d, [])
  = (Ok (parse (default [] (get_log l f))).1,
     (<[name := match get_log l f with Some b => set_log l (cut parse b) f | None => f end]> d, [])).
Proof.
  intros Hf Hnil Hp. unfold read_log, mbind, D_bind, d_gets, mret, D_ret. simpl. rewrite Hf. simpl.
  destruct (get_log l f) as [b|] eqn:Hl; simpl.
  - specialize (Hp b eq_refl). unfold cut. destruct (parse b) as [out at_]. simpl in *.
    case_bool_decide as Hat; simpl.
    + unfold on_dir, id. by rewrite Hf.
    + rewrite take_ge by lia. unfold id. rewrite insert_id; [done|].
      rewrite Hf. f_equal. destruct l, f; simpl in *; congruence.
  - by rewrite Hnil, insert_id.
Qed.

Lemma load_dir_mends name out d f :
  d !! name = Some f → torn_files f →
  load_dir name out (d, []) = (Ok (out ++ loaded f), (<[name := mend f]> d, [])).
Proof.
  intros Hf [Te (bs & tb & Hbs & Htb & Hb & Nb) (rs & tr & Hrs & Htr & Hr & Nr)].
  unfold load_dir, mbind, D_bind, d_gets, mret, D_ret. cbn [call fst id]. rewrite Hf. cbn [default from_option id].
  unfold loaded, mend. destruct (ef_election f) as [e|] eqn:He.
  - destruct (Te e eq_refl) as [el Hel]. cbn [call id]. unfold d_try. rewrite Hel.
    pose proof (entries_of_log bs tb Hbs Htb) as Pb. pose proof (receipts_of_log rs tr Hrs Htr) as Pr.
    unfold read_entries. rewrite (read_log_cut EntriesLog name entries_of [] d f Hf eq_refl).
    2:{ intros b Hg. simpl in Hg. rewrite Hg in Hb. simpl in Hb. rewrite Hb, Pb, length_app. simpl. lia. }
    set (f1 := match get_log EntriesLog f with Some b => _ | None => f end).
    assert (ef_receipts f1 = ef_receipts f) as Hf1 by (unfold f1; by destruct (get_log EntriesLog f)).
    unfold read_receipts. rewrite (read_log_cut ReceiptsLog name receipts_of ∅ _ f1 (lookup_insert_eq _ _ _) eq_refl).
    2:{ intros b Hg. simpl in Hg. rewrite Hf1 in Hg. rewrite Hg in Hr. simpl in Hr.
        rewrite Hr, Pr, length_app. simpl. lia. }
    rewrite insert_insert_eq. cbn [get_log]. rewrite Hf1. f_equal; [|f_equal; f_equal].
    + unfold files_restored. rewrite He. simpl. by rewrite Hel.
    + unfold f1. rewrite <- He. destruct f as [fe ft fb fr]. simpl. by destruct fb, fr.
  - by rewrite app_nil_r, insert_id.
Qed.

Lemma bind_ext_in {A B} (f g : A → list B) l :
  (∀ x, x ∈ l → f x = g x) → l ≫= f = l ≫= g.
Proof.
  induction l as [|x l IH]; intros Hfg; [done|]. cbn [mbind list_bind]. rewrite Hfg by apply list_elem_of_here.
  f_equal. apply IH. intros y Hy. by apply Hfg, list_elem_of_further.
Qed.

Lemma load_dirs_mends names out d :
  NoDup names → (∀ name, name ∈ names → is_Some (d !! name)) → torn_disk d →
  load_dirs names out (d, [])
  = (Ok (out ++ (names ≫= λ name, loaded (default no_files (d !! name)))),
     (map_imap (λ name f, Some (if bool_decide (name ∈ names) then mend f else f)) d, [])).
Proof.
  intros Hnd. revert out d. induction Hnd as [|name names Hni Hnd IH]; intros out d Hin Hd.
  - cbn [load_dirs]. unfold mret, D_ret. simpl. rewrite app_nil_r. f_equal. f_equal.
    apply map_eq. intros name. rewrite map_lookup_imap. by destruct (d !! name).
  - cbn [load_dirs]. destruct (Hin name) as [f Hf]; [apply list_elem_of_here|].
    unfold mbind at 1, D_bind. rewrite (load_dir_mends name out d f Hf (Hd _ _ Hf)).
    rewrite IH.
    + cbn [mbind list_bind]. rewrite Hf. cbn [default from_option id]. rewrite <- app_assoc. f_equal.
      * f_equal. f_equal. f_equal. apply bind_ext_in. intros x Hx.
        rewrite lookup_insert_ne; [done|]. by intros ->.
      * f_equal. apply map_eq. intros x. rewrite !map_lookup_imap. destruct (decide (x = name)) as [->|Hne].
        -- rewrite lookup_insert_eq, Hf. simpl. rewrite (bool_decide_false (name ∈ names)) by done.
           by rewrite bool_decide_true by apply list_elem_of_here.
        -- rewrite lookup_insert_ne by done. destruct (d !! x); [|done]. simpl. f_equal.
           erewrite bool_decide_ext; [done|]. rewrite elem_of_cons. naive_solver.
    + intros x Hx. destruct (decide (x = name)) as [->|Hne]; [by rewrite lookup_insert_eq|].
      rewrite lookup_insert_ne by done. apply Hin. by apply list_elem_of_further.
    + apply map_Forall_insert_2; [|done]. apply whole_torn, mend_whole. by apply (Hd name).
Qed.

(** ** Operations cut short *)

Inductive JournalOp :=
| RegisterOp (e : StoredElection)
| EntryOp (index : Z) (b : bytes)
| ReceiptOp (leaf : Z) (token : string).

Definition journal_op (c i : string) (op : JournalOp) : D unit :=
  match op with
  | RegisterOp e => file_election c i e
  | EntryOp index b => file_entry c i index b
  | ReceiptOp leaf token => file_receipt c i leaf token
  end.

(** What an operation adds to what is held. *)
Definition after_op (op : JournalOp) (r : Restored) : Restored :=
  match op with
  | RegisterOp e => mk_restored (Some e) (re_entries r) (re_receipts r)
  | EntryOp _ b => mk_restored (re_election r) (re_entries r ++ [b]) (re_receipts r)
  | ReceiptOp leaf token => mk_restored (re_election r) (re_entries r) (<[leaf := token]> (re_receipts r))
  end.

(** A receipt's index is a [u64] and its token a string; entries and
    receipts are of a registered election. *)
Definition op_allowed (op : JournalOp) (f : ElectionFiles) : Prop :=
  match op with
  | RegisterOp _ => True
  | EntryOp _ _ => ef_election f ≠ None
  | ReceiptOp leaf token => ef_election f ≠ None ∧ 0 ≤ leaf ≤ u64_max ∧ is_utf8 token = true
  end.

(** A directory after an operation that may have been cut short: it may be
    torn, and says what it said or what the operation adds to it — the latter,
    if the operation returned. *)
Definition after_files (op : JournalOp) (res : result string unit) (f f' : ElectionFiles) : Prop :=
  torn_files f'
  ∧ (is_ok res = true → whole_files f')
  ∧ (files_restored f' = after_op op (files_restored f)
     ∨ files_restored f' = files_restored f ∧ is_ok res = false).

Lemma d_bind_any {A B} (m : D A) (f : A → D B) s res s' :
  (m ≫= f) s = (res, s') →
  (∃ e, m s = (Err e, s') ∧ res = Err e) ∨ ∃ a s1, m s = (Ok a, s1) ∧ f a s1 = (res, s').
Proof.
  unfold mbind, D_bind. destruct (m s) as [[a|e] s1]; intros Hf; [right; by exists a, s1|].
  injection Hf as <- <-. left. by exists e.
Qed.

Lemma call_any f p d t res d' t' :
  call f p (d, t) = (res, (d', t')) →
  (∃ e n, res = Err e ∧ d' = p n d) ∨ res = Ok () ∧ d' = f d.
Proof.
  unfold call. destruct t as [|[|e n] t]; intros [= <- <- <-]; [by right|by right|].
  left. by exists e, n.
Qed.

Lemma append_record_any l name r d t res d' t' :
  append_record l name r (d, t) = (res, (d', t')) →
  d' = d ∧ is_ok res = false
  ∨ ∃ n, d' = on_dir name (append_log l (take n r)) d ∧ ((length r ≤ n)%nat ∨ is_ok res = false).
Proof.
  unfold append_record.
  intros [(e & Hc & ->)|(u & [d1 t1] & Hc & Hr)]%d_bind_any; apply call_any in Hc.
  { left. destruct Hc as [(? & ? & _ & ->)|[? _]]; [by split|done]. }
  destruct Hc as [(? & ? & ? & _)|[_ ->]]; [done|]. right.
  apply d_bind_any in Hr as [(e & Hc & ->)|(u2 & [d2 t2] & Hc & Hr)]; apply call_any in Hc.
  { destruct Hc as [(? & n & _ & ->)|[? _]]; [|done]. rewrite on_dir_twice.
    exists (Nat.min n (length r - 1)). split; [|by right]. unfold on_dir, compose.
    by rewrite append_log_touched. }
  destruct Hc as [(? & ? & ? & _)|[_ ->]]; [done|]. rewrite on_dir_twice in Hr.
  exists (length r). rewrite take_ge by lia. split; [|by left].
  assert (d' = on_dir name (append_log l r ∘ append_log l []) d) as ->.
  { apply call_any in Hr as [(? & ? & _ & ->)|[_ ->]]; done. }
  unfold on_dir, compose. by rewrite append_log_touched.
Qed.

(** A record appended, wholly or not. *)
Lemma append_entry_cut f b n res index :
  whole_files f → fits_u32 b → ef_election f ≠ None →
  (length (entry_record b) ≤ n)%nat ∨ is_ok res = false →
  after_files (EntryOp index b) res f (append_log EntriesLog (take n (entry_record b)) f).
Proof.
  intros Hw Hb He Hn. destruct (decide (length (entry_record b) ≤ n)%nat) as [Hle|Hlt].
  { rewrite take_ge by lia. destruct (append_entry_whole f b Hw Hb) as [Hw' Hr].
    split_and!; [by apply whole_torn|done|by left]. }
  destruct Hn as [?|Hres]; [lia|].
  assert (torn_entry (take n (entry_record b))) as Ht by (exists b, n; split_and!; [done|lia|done]).
  destruct Hw as [We (bs & Hbs & Hlog) (rs & Hrs & Hrl)]. split.
  - split; [done| |].
    + exists bs, (take n (entry_record b)). simpl. by rewrite Hlog.
    + exists rs, []. rewrite app_nil_r. split_and!; [done|apply torn_receipt_nil|done|done].
  - split; [by rewrite Hres|]. right. split; [|done]. unfold files_restored. simpl. f_equal.
    by rewrite Hlog, entries_of_log, entries_of_whole.
Qed.

Lemma append_receipt_cut f leaf token n res :
  whole_files f → fits_receipt (leaf, token) → ef_election f ≠ None →
  (length (receipt_record leaf token) ≤ n)%nat ∨ is_ok res = false →
  after_files (ReceiptOp leaf token) res f (append_log ReceiptsLog (take n (receipt_record leaf token)) f).
Proof.
  intros Hw Hx He Hn. destruct (decide (length (receipt_record leaf token) ≤ n)%nat) as [Hle|Hlt].
  { rewrite take_ge by lia. destruct (append_receipt_whole f leaf token Hw Hx) as [Hw' Hr].
    split_and!; [by apply whole_torn|done|by left]. }
  destruct Hn as [?|Hres]; [lia|].
  assert (torn_receipt (take n (receipt_record leaf token))) as Ht
    by (exists (leaf, token), n; split_and!; [done|cbn [fst snd]; lia|done]).
  destruct Hw as [We (bs & Hbs & Hlog) (rs & Hrs & Hrl)]. split.
  - split; [done| |].
    + exists bs, []. rewrite app_nil_r. split_and!; [done|apply torn_entry_nil|done|done].
    + exists rs, (take n (receipt_record leaf token)). simpl. by rewrite Hrl.
  - split; [by rewrite Hres|]. right. split; [|done]. unfold files_restored. simpl. f_equal.
    by rewrite Hrl, receipts_of_log, receipts_of_whole.
Qed.

Lemma after_files_same op res f : whole_files f → is_ok res = false → after_files op res f f.
Proof. intros Hf Hres. split_and!; [by apply whole_torn|by rewrite Hres|by right]. Qed.

(** The disk after an operation that may have been cut short. *)
Definition after_disk (c i : string) (op : JournalOp) (res : result string unit) (d d' : Disk) : Prop :=
  d' = d ∧ is_ok res = false
  ∨ ∃ f', d' = <[dir_name c i := f']> d
      ∧ after_files op res (default no_files (d !! dir_name c i)) f'.

Lemma after_disk_touched c i op res d d' :
  whole_disk d → is_ok res = false →
  d' = on_dir (dir_name c i) id d → after_disk c i op res d d'.
Proof.
  intros Hd Hres ->. right. eexists. split; [done|]. apply after_files_same; [|done].
  by apply whole_lookup.
Qed.

Lemma dir_any c i d t res d' t' :
  dir c i (d, t) = (res, (d', t')) →
  d' = d ∧ is_ok res = false ∨ res = Ok (dir_name c i) ∧ d' = on_dir (dir_name c i) id d.
Proof.
  unfold dir. intros [(e & Hc & ->)|(u & [d1 t1] & Hc & [= <- <- <-])]%d_bind_any.
  - left. apply call_any in Hc as [(? & ? & _ & ->)|[? _]]; [by split|done].
  - right. apply call_done in Hc. by subst.
Qed.

Context `{!StoredSerdeLaws}.

Lemma register_any c i e d t res d' t' :
  whole_disk d → file_election c i e (d, t) = (res, (d', t')) → after_disk c i (RegisterOp e) res d d'.
Proof.
  intros Hd Hr. pose proof (whole_lookup d (dir_name c i) Hd) as Hf.
  (* A directory that differs in its temporary file says the same. *)
  assert (∀ res' x, is_ok res' = false →
    after_disk c i (RegisterOp e) res' d
      (on_dir (dir_name c i) (λ f, mk_files (ef_election f) x (ef_entries f) (ef_receipts f)) d)) as Htmp.
  { intros res' x Hres. right. eexists. split; [done|]. destruct Hf as [We Wb Wr].
    split_and!; [apply whole_torn; by split|by rewrite Hres|by right]. }
  unfold file_election in Hr.
  apply d_bind_any in Hr as [(? & Hc & ->)|(? & [d1 t1] & Hc & Hr)]; apply dir_any in Hc.
  { destruct Hc as [[-> _]|[? _]]; [by left|done]. }
  destruct Hc as [[_ ?]|[[= ->] ->]]; [done|].
  apply d_bind_any in Hr as [(? & Hc & ->)|(b & [d2 t2] & Hc & Hr)]; unfold d_try in Hc; injection Hc as Hb <- <-.
  { by apply after_disk_touched. }
  apply d_bind_any in Hr as [(? & Hc & ->)|(? & [d3 t3] & Hc & Hr)]; apply call_any in Hc.
  { destruct Hc as [(? & ? & _ & ->)|[? _]]; [|done]. by apply after_disk_touched. }
  destruct Hc as [(? & ? & ? & _)|[_ ->]]; [done|].
  apply d_bind_any in Hr as [(? & Hc & ->)|(? & [d4 t4] & Hc & Hr)]; apply call_any in Hc.
  { destruct Hc as [(? & ? & _ & ->)|[? _]]; [|done]. rewrite !on_dir_twice. by apply Htmp. }
  destruct Hc as [(? & ? & ? & _)|[_ ->]]; [done|].
  apply d_bind_any in Hr as [(? & Hc & ->)|(? & [d5 t5] & Hc & Hr)]; apply call_any in Hc; unfold id in Hc.
  { destruct Hc as [(? & ? & _ & ->)|[? _]]; [|done]. unfold nothing. rewrite !on_dir_twice. by apply Htmp. }
  destruct Hc as [(? & ? & ? & _)|[_ ->]]; [done|]. rewrite !on_dir_twice in Hr.
  apply call_any in Hr as [(? & ? & -> & ->)|[-> ->]]; [by apply Htmp|].
  right. eexists. split; [by rewrite on_dir_twice|]. apply stored_roundtrip in Hb.
  destruct Hf as [We Wb Wr].
  assert (∀ f, ef_election f = Some b → whole_files (mk_files (ef_election f) None
            (ef_entries (default no_files (d !! dir_name c i))) (ef_receipts (default no_files (d !! dir_name c i)))))
    as Hw.
  { intros f Hf. split; [|done|done]. simpl. intros b' Hb'. exists e. congruence. }
  split_and!.
  - by apply whole_torn, (Hw (mk_files (Some b) None None None)).
  - intros _. by apply (Hw (mk_files (Some b) None None None)).
  - left. unfold files_restored, after_op. simpl. by rewrite Hb.
Qed.

Lemma append_any c i op l r g d t res d' t' :
  whole_disk d → (∀ n res, (length r ≤ n)%nat ∨ is_ok res = false →
    after_files op res (default no_files (d !! dir_name c i))
      (append_log l (take n r) (default no_files (d !! dir_name c i)))) →
  g = on_dir (dir_name c i) id d →
  append_record l (dir_name c i) r (g, t) = (res, (d', t')) → after_disk c i op res d d'.
Proof.
  intros Hd Hcut -> [[-> Hres]|(n & -> & Hn)]%append_record_any; [by apply after_disk_touched|].
  right. eexists. split; [by rewrite on_dir_twice|]. by apply Hcut.
Qed.

(** Any operation, cut short at any of its calls or not. *)
Lemma journal_op_any c i op d t res d' t' :
  whole_disk d → op_allowed op (default no_files (d !! dir_name c i)) →
  journal_op c i op (d, t) = (res, (d', t')) → after_disk c i op res d d'.
Proof.
  intros Hd Hop Hr. pose proof (whole_lookup d (dir_name c i) Hd) as Hf. destruct op as [e|n b|leaf token].
  { by eapply register_any. }
  all: simpl in Hr.
  - unfold file_entry in Hr.
    apply d_bind_any in Hr as [(? & Hc & ->)|(? & [d1 t1] & Hc & Hr)]; apply dir_any in Hc.
    { destruct Hc as [[-> _]|[? _]]; [by left|done]. }
    destruct Hc as [[_ ?]|[[= ->] ->]]; [done|].
    apply d_bind_any in Hr as [(? & Hc & ->)|(? & [d2 t2] & Hc & Hr)]; unfold d_try in Hc; injection Hc as Hl <- <-.
    { by apply after_disk_touched. }
    eapply append_any; [done| |done|done]. intros k res' Hk. apply append_entry_cut; [done| |done|done].
    apply ok_or_ok in Hl. unfold u32_try_from in Hl. case_bool_decide; [|done]. unfold fits_u32. lia.
  - unfold file_receipt in Hr. destruct Hop as (He & Hleaf & Hu).
    apply d_bind_any in Hr as [(? & Hc & ->)|(? & [d1 t1] & Hc & Hr)]; apply dir_any in Hc.
    { destruct Hc as [[-> _]|[? _]]; [by left|done]. }
    destruct Hc as [[_ ?]|[[= ->] ->]]; [done|].
    apply d_bind_any in Hr as [(? & Hc & ->)|(? & [d2 t2] & Hc & Hr)]; unfold d_try in Hc; injection Hc as Hl <- <-.
    { by apply after_disk_touched. }
    eapply append_any; [done| |done|done]. intros k res' Hk. apply append_receipt_cut; [done| |done|done].
    apply ok_or_ok in Hl. unfold u32_try_from in Hl. case_bool_decide; [|done].
    split_and!; [simpl; lia|simpl; lia|unfold fits_u32; simpl; lia|done].
Qed.

(** A registration that returned leaves the disk whole. *)
Lemma registered_whole c i e d t d' t' :
  whole_disk d → file_election c i e (d, t) = (Ok (), (d', t')) → whole_disk d'.
Proof.
  intros Hd [[_ ?]|(f' & -> & _ & Hw & _)]%register_any; [done| |done].
  by apply map_Forall_insert_2; [apply Hw|].
Qed.

Context `{!HashOrderLaws}.

(** [load] returns what every directory says, and mends them. *)
Lemma load_mends d : torn_disk d → load (d, []) = (Ok (held_in d), (mend <$> d, [])).
Proof.
  intros Hd. pose proof (hash_iter_perm d) as Hperm. unfold load, mbind at 1 2, D_bind.
  cbn [call id d_gets fst].
  assert (∀ name f, (name, f) ∈ hash_iter d ↔ d !! name = Some f) as Hin.
  { intros name f. by rewrite Hperm, elem_of_map_to_list. }
  rewrite load_dirs_mends; [|by rewrite Hperm; apply NoDup_fst_map_to_list| |done].
  - f_equal; [|f_equal].
    + unfold held_in. f_equal. simpl.
      assert (∀ names : list (string * ElectionFiles), (∀ p, p ∈ names → d !! p.1 = Some p.2) →
        names.*1 ≫= (λ name, loaded (default no_files (d !! name))) = names.*2 ≫= loaded) as Hgen.
      { induction names as [|[name f] names IH]; intros Hn; [done|]. simpl.
        pose proof (Hn (name, f) (list_elem_of_here _ _)) as Hf. cbn [fst snd] in Hf. rewrite Hf.
        simpl. f_equal. apply IH. intros p Hp. by apply Hn, list_elem_of_further. }
      apply Hgen. intros [name f] Hp. by apply Hin.
    + apply map_eq. intros name. rewrite map_lookup_imap, lookup_fmap. destruct (d !! name) as [f|] eqn:Hf; [|done].
      simpl. rewrite bool_decide_true; [done|]. apply list_elem_of_fmap. exists (name, f). by rewrite Hin.
  - intros name (p & -> & Hp)%list_elem_of_fmap. destruct p as [name f]. apply Hin in Hp. by exists f.
Qed.

Lemma file_of_mend d t c i : torn_disk d → file_of (mend <$> d, t) c i = file_of (d, t) c i.
Proof.
  intros Hd. unfold file_of. cbn [fst]. rewrite lookup_fmap.
  destruct (d !! dir_name c i) as [f|] eqn:Hf; [|done]. simpl. by apply mend_whole, (Hd _ _ Hf).
Qed.

Lemma loaded_mend f : torn_files f → loaded (mend f) = loaded f.
Proof.
  intros Hf. destruct (mend_whole f Hf) as [_ Hr]. unfold loaded at 1. rewrite Hr.
  unfold mend, loaded. destruct (ef_election f) eqn:He; cbn [ef_election]; by rewrite ?He.
Qed.

Lemma held_mend d : torn_disk d → held_in d ≡ₚ held_in (mend <$> d).
Proof.
  intros Hd. unfold held_in. rewrite !hash_iter_perm.
  unfold torn_disk in Hd. rewrite map_Forall_to_list, Forall_forall in Hd.
  rewrite map_to_list_fmap. induction (map_to_list d) as [|[name f] l IH]; [done|].
  cbn [fmap list_fmap mbind list_bind prod_map snd]. rewrite loaded_mend by apply (Hd (name, f)), list_elem_of_here.
  apply Permutation_app_head, IH. intros p Hp. by apply Hd, list_elem_of_further.
Qed.

Lemma after_torn c i op res d d' : whole_disk d → after_disk c i op res d d' → torn_disk d'.
Proof.
  intros Hd [[-> _]|(f' & -> & Hf' & _)].
  - intros name f Hf. by eapply whole_torn, Hd.
  - apply map_Forall_insert_2; [done|]. intros name f Hf. by eapply whole_torn, Hd.
Qed.

(** What a process that died inside an operation leaves, and what [load] in
    the next one makes of it. *)
Lemma crash_cut c i op d t res d' t' :
  whole_disk d →
  op_allowed op (default no_files (d !! dir_name c i)) →
  journal_op c i op (d, t) = (res, (d', t')) →
  ∃ (l : list Restored) (d'' : Disk),
    load (d', []) = (Ok l, (d'', []))
    ∧ l ≡ₚ held_in d''
    ∧ whole_disk d''
    ∧ (file_of (d'', []) c i = after_op op (file_of (d, []) c i)
       ∨ file_of (d'', []) c i = file_of (d, []) c i ∧ is_ok res = false)
    ∧ ∀ c' i', dir_name c' i' ≠ dir_name c i → file_of (d'', []) c' i' = file_of (d, []) c' i'.
Proof.
  intros Hd Hop Hrun.
  pose proof (journal_op_any c i op d t res d' t' Hd Hop Hrun) as Hany.
  pose proof (after_torn _ _ _ _ _ _ Hd Hany) as Htorn.
  exists (held_in d'), (mend <$> d'). split_and!.
  - by apply load_mends.
  - by apply held_mend.
  - intros name f Hf. rewrite lookup_fmap in Hf. apply fmap_Some in Hf as (g & Hg & ->). by eapply mend_whole, Htorn.
  - rewrite file_of_mend by done. destruct Hany as [[-> Hres]|(f' & -> & _ & _ & Hf')]; [by right|].
    unfold file_of. cbn [fst]. rewrite lookup_insert_eq. exact Hf'.
  - intros c' i' Hne. rewrite file_of_mend by done.
    destruct Hany as [[-> Hres]|(f' & -> & _)]; [done|]. unfold file_of. cbn [fst].
    by rewrite lookup_insert_ne.
Qed.

(** A crash at any call of any journal operation, and [load] in the next
    process. [load] returns what every registered election's directory holds;
    the disk is whole again, so that what is appended next is read back; of
    the operation's election it holds what it held, with the operation's own
    record or without it, and with it if the operation returned; no other
    election is touched. *)
Theorem crash_restored c i op d t res d' t'
    (Hd : whole_disk d)
    (Hop : op_allowed op (default no_files (d !! dir_name c i)))
    (Hrun : journal_op c i op (d, t) = (res, (d', t'))) :
  ∃ (l : list Restored) (d'' : Disk),
    load (d', []) = (Ok l, (d'', []))
    ∧ l ≡ₚ held_in d''
    ∧ whole_disk d''
    ∧ (file_of (d'', []) c i = after_op op (file_of (d, []) c i)
       ∨ file_of (d'', []) c i = file_of (d, []) c i ∧ is_ok res = false)
    ∧ ∀ c' i', dir_name c' i' ≠ dir_name c i → file_of (d'', []) c' i' = file_of (d, []) c' i'.
Proof. by eapply crash_cut. Qed.

(** ** Writes that fail without a crash

    The ballot box answers an error and goes on with the same process, so
    nothing is read back, and nothing cut, before the next append. *)

(** The part of a record a failed write leaves stands before the next one,
    which was answered; the log reads as neither. *)
Lemma failed_write_misread c i : ∃ d1 d2 : Disk,
  file_entry c i 0 ["a"%byte] (∅, [Done; Done; Failed "no space" 2]) = (Err "no space", (d1, []))
  ∧ file_entry c i 0 ["b"%byte] (d1, []) = (Ok (), (d2, []))
  ∧ re_entries (file_of (d2, []) c i) = [[]].
Proof.
  eexists _, _. split; [reflexivity|]. split; [reflexivity|]. unfold file_of, on_dir, id. cbn [fst].
  by rewrite !lookup_insert_eq.
Qed.

(** A record whose [sync_data] failed was answered with an error and is in
    the log; the retry writes it again. *)
Lemma failed_sync_repeats c i b : fits_u32 b → ∃ d1 d2 : Disk,
  file_entry c i 0 b (∅, [Done; Done; Done; Failed "input/output error" 0])
  = (Err "input/output error", (d1, []))
  ∧ file_entry c i 0 b (d1, []) = (Ok (), (d2, []))
  ∧ re_entries (file_of (d2, []) c i) = [b; b].
Proof.
  intros Hb. assert (u32_try_from (Z.of_nat (length b)) = Some (Z.of_nat (length b))) as Hl.
  { unfold u32_try_from. rewrite bool_decide_true; [done|]. unfold fits_u32 in Hb. lia. }
  eexists _, _. split; [|split].
  - unfold file_entry. rewrite Hl. reflexivity.
  - unfold file_entry. rewrite Hl. reflexivity.
  - unfold file_of, on_dir, nothing, id. cbn [fst]. rewrite !lookup_insert_eq. cbn [default from_option id].
    unfold files_restored. cbn [re_entries append_log set_log get_log ef_entries default from_option no_files id].
    rewrite <- (entries_of_whole [b; b]) at 1 by by repeat constructor.
    unfold entries_log. cbn [fmap list_fmap concat]. by rewrite !app_nil_l, !app_nil_r.
Qed.
End FileJournal.
