(* ===== verification/Record.v ===== *)
(** * One election of the ballot box

    [ElectionRecord] of [vti-voting/src/service/mod.rs] and its methods there
    and in [service/encrypted.rs]: the board and what is rebuilt from it, the
    checks of a cast, the election's clock, its closing and its decryption.

    A method on [&mut self] runs in [M (ElectionRecord * World)]; a method on
    [&self] is a function. The [journal] handle a record shares with its
    ballot box is the world's. *)

From S2P Require Import Prelude Json Election Board BallotBox Rules Tally Group Trustees Ceremony.
From S2P Require Import Wire Steps Host.

(** [ElectionVersion]. *)
Inductive ElectionVersion := V0_2 | V0_3 | V0_4.

Definition least_text_release_threshold (v : ElectionVersion) : Z :=
  match v with V0_2 => 10 | V0_3 | V0_4 => 1 end.
Definition carries_credential_roll (v : ElectionVersion) : bool :=
  match v with V0_4 => true | _ => false end.
Definition version_text (v : ElectionVersion) : string :=
  match v with V0_2 => "0.2" | V0_3 => "0.3" | V0_4 => "0.4" end.

(** Who asked. *)
Inductive Caller := Anonymous | Did (d : string).
Definition caller_did (c : Caller) : option string :=
  match c with Anonymous => None | Did d => Some d end.

Inductive State := Registered | Registration | Voting | Closed | Tallied | Cancelled.
#[export] Instance State_eq_dec : EqDecision State.
Proof. solve_decision. Defined.

Definition state_wire (s : State) : string :=
  match s with
  | Registered => "registered"
  | Registration => "registration"
  | Voting => "voting"
  | Closed => "closed"
  | Tallied => "tallied"
  | Cancelled => "cancelled"
  end.

(** The derived order. *)
Definition state_rank (s : State) : Z :=
  match s with
  | Registered => 0 | Registration => 1 | Voting => 2 | Closed => 3 | Tallied => 4 | Cancelled => 5
  end.

(** One cast as admitted. *)
Record AdmittedCast := mk_admitted { ad_leaf : Z; ad_digest : Hash; ad_token : string }.

Section ElectionRecord.
Context `{Sha256, PCS, Multibase, Jcs, ManifestWire, ResultWire, Dalek, Sha512, Random, Aead}.
Context `{StepTasks, Journal, OsRng, Chrono, Serde, HashOrder, !Tasks}.

(** A counted encrypted cast's ballot. *)
Inductive Encrypted :=
| ESealed (s : Trustees.Sealed)
| ETallied (qs : list EncryptedQuestion).

Record ElectionRecord := mk_er {
  er_community : string;
  er_manifest : Manifest;
  er_manifest_value : Value;
  er_digest : Hash;
  er_parameters : Value;
  (** Checks a cast's attestation. *)
  er_verifier : BallotBox.BallotBox MemoryNullifiers;
  er_state : State;
  er_board : Board;
  er_entries : list bytes;
  (** Casts on the board, by the digest of the cast's canonical form. *)
  er_exact : gmap Hash AdmittedCast;
  (** The counted cast under each tag. *)
  er_counted : gmap string (AdmittedCast * Ballot);
  (** The counted encrypted cast under each tag. *)
  er_encrypted : gmap string (AdmittedCast * Encrypted);
  (** The ciphertexts on the board, with the tag each was cast under. *)
  er_seen : gmap Hash string;
  (** The trustees' requests, in board order. *)
  er_steps : list Value;
  (** The closing entry's leaf and time. *)
  er_closing : option (Z * string);
  er_authorization : option Value;
  (** The [unsealed] and [spoiled] entries, by leaf. *)
  er_settled : gmap Z (option Value);
  er_ctx : bytes;
  er_ceremony : option Ceremony;
  er_decryption : option (Decryption Target);
  er_result : option Value;
}.

Definition set_state (x : State) (e : ElectionRecord) : ElectionRecord :=
  mk_er (er_community e) (er_manifest e) (er_manifest_value e) (er_digest e) (er_parameters e)
    (er_verifier e) x (er_board e) (er_entries e) (er_exact e) (er_counted e) (er_encrypted e)
    (er_seen e) (er_steps e) (er_closing e) (er_authorization e) (er_settled e) (er_ctx e)
    (er_ceremony e) (er_decryption e) (er_result e).
Definition set_board (x : Board) (e : ElectionRecord) : ElectionRecord :=
  mk_er (er_community e) (er_manifest e) (er_manifest_value e) (er_digest e) (er_parameters e)
    (er_verifier e) (er_state e) x (er_entries e) (er_exact e) (er_counted e) (er_encrypted e)
    (er_seen e) (er_steps e) (er_closing e) (er_authorization e) (er_settled e) (er_ctx e)
    (er_ceremony e) (er_decryption e) (er_result e).
Definition set_entries (x : list bytes) (e : ElectionRecord) : ElectionRecord :=
  mk_er (er_community e) (er_manifest e) (er_manifest_value e) (er_digest e) (er_parameters e)
    (er_verifier e) (er_state e) (er_board e) x (er_exact e) (er_counted e) (er_encrypted e)
    (er_seen e) (er_steps e) (er_closing e) (er_authorization e) (er_settled e) (er_ctx e)
    (er_ceremony e) (er_decryption e) (er_result e).
Definition set_exact (x : gmap Hash AdmittedCast) (e : ElectionRecord) : ElectionRecord :=
  mk_er (er_community e) (er_manifest e) (er_manifest_value e) (er_digest e) (er_parameters e)
    (er_verifier e) (er_state e) (er_board e) (er_entries e) x (er_counted e) (er_encrypted e)
    (er_seen e) (er_steps e) (er_closing e) (er_authorization e) (er_settled e) (er_ctx e)
    (er_ceremony e) (er_decryption e) (er_result e).
Definition set_counted (x : gmap string (AdmittedCast * Ballot)) (e : ElectionRecord) : ElectionRecord :=
  mk_er (er_community e) (er_manifest e) (er_manifest_value e) (er_digest e) (er_parameters e)
    (er_verifier e) (er_state e) (er_board e) (er_entries e) (er_exact e) x (er_encrypted e)
    (er_seen e) (er_steps e) (er_closing e) (er_authorization e) (er_settled e) (er_ctx e)
    (er_ceremony e) (er_decryption e) (er_result e).
Definition set_encrypted (x : gmap string (AdmittedCast * Encrypted)) (e : ElectionRecord) : ElectionRecord :=
  mk_er (er_community e) (er_manifest e) (er_manifest_value e) (er_digest e) (er_parameters e)
    (er_verifier e) (er_state e) (er_board e) (er_entries e) (er_exact e) (er_counted e) x
    (er_seen e) (er_steps e) (er_closing e) (er_authorization e) (er_settled e) (er_ctx e)
    (er_ceremony e) (er_decryption e) (er_result e).
Definition set_seen (x : gmap Hash string) (e : ElectionRecord) : ElectionRecord :=
  mk_er (er_community e) (er_manifest e) (er_manifest_value e) (er_digest e) (er_parameters e)
    (er_verifier e) (er_state e) (er_board e) (er_entries e) (er_exact e) (er_counted e)
    (er_encrypted e) x (er_steps e) (er_closing e) (er_authorization e) (er_settled e) (er_ctx
    e) (er_ceremony e) (er_decryption e) (er_result e).
Definition set_steps (x : list Value) (e : ElectionRecord) : ElectionRecord :=
  mk_er (er_community e) (er_manifest e) (er_manifest_value e) (er_digest e) (er_parameters e)
    (er_verifier e) (er_state e) (er_board e) (er_entries e) (er_exact e) (er_counted e)
    (er_encrypted e) (er_seen e) x (er_closing e) (er_authorization e) (er_settled e) (er_ctx e)
    (er_ceremony e) (er_decryption e) (er_result e).
Definition set_closing (x : option (Z * string)) (e : ElectionRecord) : ElectionRecord :=
  mk_er (er_community e) (er_manifest e) (er_manifest_value e) (er_digest e) (er_parameters e)
    (er_verifier e) (er_state e) (er_board e) (er_entries e) (er_exact e) (er_counted e)
    (er_encrypted e) (er_seen e) (er_steps e) x (er_authorization e) (er_settled e) (er_ctx e)
    (er_ceremony e) (er_decryption e) (er_result e).
Definition set_authorization (x : option Value) (e : ElectionRecord) : ElectionRecord :=
  mk_er (er_community e) (er_manifest e) (er_manifest_value e) (er_digest e) (er_parameters e)
    (er_verifier e) (er_state e) (er_board e) (er_entries e) (er_exact e) (er_counted e)
    (er_encrypted e) (er_seen e) (er_steps e) (er_closing e) x (er_settled e) (er_ctx e)
    (er_ceremony e) (er_decryption e) (er_result e).
Definition set_settled (x : gmap Z (option Value)) (e : ElectionRecord) : ElectionRecord :=
  mk_er (er_community e) (er_manifest e) (er_manifest_value e) (er_digest e) (er_parameters e)
    (er_verifier e) (er_state e) (er_board e) (er_entries e) (er_exact e) (er_counted e)
    (er_encrypted e) (er_seen e) (er_steps e) (er_closing e) (er_authorization e) x (er_ctx e)
    (er_ceremony e) (er_decryption e) (er_result e).
Definition set_ceremony (x : option Ceremony) (e : ElectionRecord) : ElectionRecord :=
  mk_er (er_community e) (er_manifest e) (er_manifest_value e) (er_digest e) (er_parameters e)
    (er_verifier e) (er_state e) (er_board e) (er_entries e) (er_exact e) (er_counted e)
    (er_encrypted e) (er_seen e) (er_steps e) (er_closing e) (er_authorization e) (er_settled e)
    (er_ctx e) x (er_decryption e) (er_result e).
Definition set_decryption (x : option (Decryption Target)) (e : ElectionRecord) : ElectionRecord :=
  mk_er (er_community e) (er_manifest e) (er_manifest_value e) (er_digest e) (er_parameters e)
    (er_verifier e) (er_state e) (er_board e) (er_entries e) (er_exact e) (er_counted e)
    (er_encrypted e) (er_seen e) (er_steps e) (er_closing e) (er_authorization e) (er_settled e)
    (er_ctx e) (er_ceremony e) x (er_result e).
Definition set_result (x : option Value) (e : ElectionRecord) : ElectionRecord :=
  mk_er (er_community e) (er_manifest e) (er_manifest_value e) (er_digest e) (er_parameters e)
    (er_verifier e) (er_state e) (er_board e) (er_entries e) (er_exact e) (er_counted e)
    (er_encrypted e) (er_seen e) (er_steps e) (er_closing e) (er_authorization e) (er_settled e)
    (er_ctx e) (er_ceremony e) (er_decryption e) x.

(** A tallied-encrypted ballot's proofs, checked without the ballot box. *)
Record TalliedCheck := mk_tallied_check {
  tc_key : ElectionKey;
  tc_election_id : string;
  tc_digest : Hash;
  tc_questions : list Question;
  tc_ctx : bytes;
  tc_enc : Value;
}.

(** A cast's costly checks, taken out of the ballot box. *)
Record CastCheck := mk_cast_check {
  cc_election : string * string;
  cc_digest : Hash;
  cc_verifier : BallotBox.BallotBox MemoryNullifiers;
  cc_attestation : Cast;
  cc_bound : bytes;
  cc_open : bool;
  cc_tallied : option TalliedCheck;
}.

(** A cast whose costly checks passed. *)
Record VerifiedCast := mk_verified_cast { vc_election : string * string; vc_digest : Hash }.

Definition covers (v : VerifiedCast) (election : string * string) (cast_digest : Hash) : bool :=
  bool_decide (vc_election v = election) && bool_decide (vc_digest v = cast_digest).

Definition invalid_ballot {A} (why : string) : result Failure A := Err (f_task "ballotInvalid" why).

Definition ballot_err {A} (r : tresult A) : result Failure A :=
  map_err (λ e, f_task "ballotInvalid" (trustee_error_text e)) r.

(** One question of [TalliedCheck::run] with its encryption. *)
Definition check_tallied_question (t : TalliedCheck) (q : Question) (v : Value)
  : result Failure unit :=
  match q with
  | Choice _ options min max optional =>
      let qkey := default "" (Rules.key q) in
      '(named, eq) ← ballot_err (encrypted_question v);
      _ ← guard_err (bool_decide (named ≠ qkey))
            (f_task "ballotInvalid" ("question " +:+ named +:+ " is not " +:+ qkey));
      counts ← ballot_err (admitted_counts (length options) min max optional);
      ballot_err (verify_vote (tc_key t) eq (length options) counts (question_ctx (tc_ctx t) qkey))
  | _ => invalid_ballot "a tallied-encrypted election asks choices only"
  end.

Fixpoint check_tallied_questions (t : TalliedCheck) (qs : list Question) (vs : list Value)
  : result Failure unit :=
  match qs, vs with
  | q :: qs', v :: vs' =>
      _ ← check_tallied_question t q v;
      check_tallied_questions t qs' vs'
  | _, _ => Ok ()
  end.

(** [TalliedCheck::run]. *)
Definition tallied_run (t : TalliedCheck) : result Failure unit :=
  let enc := tc_enc t in
  let given := default [] (as_array (json_index enc "questions")) in
  _ ← guard_err
        (bool_decide (as_str (json_index enc "electionId") ≠ Some (tc_election_id t))
         || bool_decide (digest_from_multibase
                           (default "" (as_str (json_index enc "manifestDigest")))
                         ≠ Some (tc_digest t)))
        (f_task "ballotInvalid" "another election's ballot");
  _ ← guard_err (bool_decide (length given ≠ length (tc_questions t)))
        (f_task "ballotInvalid" "not one encrypted question per manifest question");
  check_tallied_questions t (tc_questions t) given.

(** [CastCheck::run]. *)
Definition cast_check_run (c : CastCheck) : result Failure VerifiedCast :=
  _ ← match cc_tallied c with Some t => tallied_run t | None => Ok () end;
  _ ← map_err (λ err,
        match err with
        | WrongClass =>
            if cc_open c then f_task "classMismatch" (voting_error_text err)
            else f_task "castInvalid" (voting_error_text err)
        | _ => f_task "castInvalid" (voting_error_text err)
        end) (verify (cc_verifier c) (cc_attestation c) (cc_bound c));
  Ok (mk_verified_cast (cc_election c) (cc_digest c)).

(** What the cheap checks of an open cast found. *)
Inductive OpenCast :=
| Resend (a : AdmittedCast)
| NewCast (cast_digest ballot_digest : Hash) (ballot_jcs : bytes) (tag : string)
    (held : option AdmittedCast) (attestation : Cast).

(** What the cheap checks of an encrypted cast found. *)
Inductive EncryptedCast :=
| EResend (a : AdmittedCast)
| ENewCast (cast_digest ballot_digest : Hash) (tag : string) (form : Encrypted)
    (held : option AdmittedCast) (check : CastCheck).

(** ** Reading a record *)

Definition er_id (e : ElectionRecord) : string := election_id (er_manifest e).
Definition er_key (e : ElectionRecord) : string * string := (er_community e, er_id e).

(** [hash_text] of the board's root at [size]; [None] beyond the board. *)
Definition er_head (e : ElectionRecord) (size : nat) (now : Z) : option Value :=
  root ← ok (board_root (er_board e) size);
  Some (mk_obj {[ "electionId" := VStr (er_id e); "treeSize" := VNum (Z.of_nat size);
                  "rootHash" := VStr (digest_multibase root); "issuedAt" := VStr (time now) ]}).

Definition ballots_admitted (e : ElectionRecord) : nat := size (er_counted e) + size (er_encrypted e).

Definition summary (e : ElectionRecord) (now : Z) : option Value :=
  head ← er_head e (board_len (er_board e)) now;
  Some (mk_obj {[ "electionId" := VStr (er_id e);
                  "community" := VStr (community (er_manifest e));
                  "manifestDigest" := VStr (digest_multibase (er_digest e));
                  "state" := VStr (state_wire (er_state e));
                  "ballotsAdmitted" := VNum (Z.of_nat (ballots_admitted e));
                  "head" := head ]}).

(** May [caller] read this election's board? *)
Definition readable_by (e : ElectionRecord) (caller : Caller) : bool :=
  board_public (er_manifest e)
  || match caller_did caller with
     | Some d => String.eqb d (community (er_manifest e))
                 || existsb (λ a, String.eqb a d) (auditors (er_manifest e))
     | None => false
     end.

Definition trustee_dids (e : ElectionRecord) : list string :=
  match trustees (er_manifest e) with Some t => t_dids t | None => [] end.

(** Only the trustee the manifest names at [index] acts as it. *)
Definition require_trustee (e : ElectionRecord) (signer : string) (index : Z) : result Failure unit :=
  match named_trustee (trustee_dids e) index with
  | Some d => if String.eqb d signer then Ok () else Err f_denied
  | None => Err f_denied
  end.

Definition is_trustee (e : ElectionRecord) (caller : Caller) : bool :=
  match caller with
  | Did did => existsb (λ d, String.eqb d did) (trustee_dids e)
  | Anonymous => false
  end.

Definition step_election (e : ElectionRecord) : StepElection :=
  mk_step_election (er_community e) (er_id e) (trustee_dids e).

(** The [TrusteePhase] on the wire. *)
Definition trustee_phase (e : ElectionRecord) : string :=
  match er_ceremony e with
  | None => phase_wire Failed
  | Some c =>
      if bool_decide (phase c ≠ Keyed) then phase_wire (phase c)
      else match er_state e with
           | Closed => "decrypting"
           | Tallied => "done"
           | _ => phase_wire (phase c)
           end
  end.

Definition rule_err {A} (r : result RuleError A) : result Failure A := map_err rule_failure r.

(** Every check of an open cast but the pairing, cheapest first. *)
Definition open_cast (e : ElectionRecord) (p : CastPayload) (payload : Value)
  : result Failure OpenCast :=
  _ ← guard_err (bool_decide (is_Some (er_ceremony e)))
        (f_malformed "a sealed or tallied-encrypted election is cast with voting/ballot/cast-encrypted");
  _ ← guard_err (bool_decide (er_state e ≠ Voting)) (f_task "notOpen" "voting is not open");
  _ ← rule_err (check_ballot (er_manifest e) (er_digest e) (wc_ballot (p_cast p)));
  let cast_value := json_index payload "cast" in
  cast_jcs ← jcs cast_value;
  let cast_digest := sha256 cast_jcs in
  ballot_jcs ← jcs (json_index cast_value "ballot");
  let ballot_digest := sha256 ballot_jcs in
  let tag := wc_tag (p_cast p) in
  match er_exact e !! cast_digest with
  | Some a => Ok (Resend a)
  | None =>
      let held := fst <$> er_counted e !! tag in
      _ ← guard_err (bool_decide (revote (er_manifest e) ≠ RevoteReplace)
                     && match held with
                        | Some a => bool_decide (ad_digest a ≠ ballot_digest)
                        | None => false
                        end)
            (f_task "alreadyVoted" "a different ballot is counted");
      att ← map_err (λ _, f_task "castInvalid" "the attestation cannot be decoded")
              (dec_attestation (wc_attestation (p_cast p)));
      t ← map_err (λ e, f_malformed (voting_error_text e)) (cast_tag (mk_cast att));
      _ ← guard_err (bool_decide (t ≠ tag))
            (f_task "castInvalid" "tag differs from the attestation's");
      Ok (NewCast cast_digest ballot_digest ballot_jcs tag held (mk_cast att))
  end.

(** The compressed [a] of every ciphertext in a form. *)
Definition ciphertext_keys (form : Encrypted) : list Hash :=
  match form with
  | ESealed s => [compress (ct_a (kem s))]
  | ETallied qs => concat ((λ q, (λ o, compress (ct_a o.1)) <$> eq_options q) <$> qs)
  end.

Definition wire_failure {A} (r : tresult A) : result Failure A :=
  map_err (λ e, f_malformed (trustee_error_text e)) r.

(** An [EncryptedCast] as received: its tag, its form's digest, its form. *)
Definition read_encrypted (cast_value : Value) : result Failure (string * Hash * Encrypted) :=
  let tag := default "" (as_str (json_index cast_value "tag")) in
  match json_get cast_value "sealed" with
  | Some s =>
      form ← wire_failure (sealed s);
      b ← jcs s;
      Ok (tag, sha256 b, ESealed form)
  | None =>
      let enc := json_index cast_value "encrypted" in
      l ← ok_or (as_array (json_index enc "questions")) (f_malformed "questions");
      questions ← wire_failure (try_map (λ q, '(_, q) ← encrypted_question q; Ok q) l);
      b ← jcs enc;
      Ok (tag, sha256 b, ETallied questions)
  end.

(** A form whose ciphertexts are on the board under another tag is a copy. *)
Definition refuse_copy (e : ElectionRecord) (form : Encrypted) (tag : string) : result Failure unit :=
  guard_err (existsb (λ a, match er_seen e !! a with
                           | Some t => negb (String.eqb t tag)
                           | None => false
                           end) (ciphertext_keys form))
    (f_task "ballotInvalid" "its ciphertexts are already on the board in another cast").

Definition er_election_key (e : ElectionRecord) : option ElectionKey :=
  er_ceremony e ≫= Ceremony.key.

Definition tallied_check (e : ElectionRecord) (enc : Value) (tag : string)
  : result Failure TalliedCheck :=
  k ← ok_or (er_election_key e) (f_task "notOpen" "the election key is not formed");
  Ok (mk_tallied_check k (er_id e) (er_digest e) (questions (er_manifest e))
        (cast_ctx (er_ctx e) tag) enc).

(** Every check of an encrypted cast but the costly ones, cheapest first. *)
Definition encrypted_cast (e : ElectionRecord) (cast_value : Value) : result Failure EncryptedCast :=
  let sealed_level := bool_decide (secrecy (er_manifest e) = Rules.Sealed) in
  let tallied_level := bool_decide (secrecy (er_manifest e) = TalliedEncrypted) in
  _ ← guard_err (negb ((sealed_level && bool_decide (is_Some (json_get cast_value "sealed")))
                       || (tallied_level && bool_decide (is_Some (json_get cast_value "encrypted")))))
        (f_task "wrongLevel" "not this election's form of cast");
  _ ← guard_err (bool_decide (er_state e ≠ Voting) || bool_decide (er_election_key e = None))
        (f_task "notOpen" "voting is not open, or the election key is not formed");
  cast_jcs ← jcs cast_value;
  let cast_digest := sha256 cast_jcs in
  match er_exact e !! cast_digest with
  | Some a => Ok (EResend a)
  | None =>
      '(tag, ballot_digest, form) ← read_encrypted cast_value;
      _ ← refuse_copy e form tag;
      tallied ← if tallied_level
                then t ← tallied_check e (json_index cast_value "encrypted") tag; Ok (Some t)
                else Ok None;
      let held := fst <$> er_encrypted e !! tag in
      _ ← guard_err (bool_decide (revote (er_manifest e) ≠ RevoteReplace)
                     && match held with
                        | Some a => bool_decide (ad_digest a ≠ ballot_digest)
                        | None => false
                        end)
            (f_task "alreadyVoted" "a different ballot is counted");
      bound ← jcs (default (json_index cast_value "encrypted") (json_get cast_value "sealed"));
      att ← map_err (λ _, f_task "castInvalid" "the attestation cannot be decoded")
              (dec_attestation (default "" (as_str (json_index cast_value "attestation"))));
      t ← map_err (λ e, f_malformed (voting_error_text e)) (cast_tag (mk_cast att));
      _ ← guard_err (bool_decide (t ≠ tag))
            (f_task "castInvalid" "tag differs from the attestation's");
      Ok (ENewCast cast_digest ballot_digest tag form held
            (mk_cast_check (er_key e) cast_digest (er_verifier e) (mk_cast att) bound false tallied))
  end.

(** ** Tallying and the decryption round *)

(** The result object; [None] is a panic. *)
Definition result_value (e : ElectionRecord) (counted : Z) (qs : Value) (now : Z) : option Value :=
  head ← er_head e (board_len (er_board e)) now;
  Some (mk_obj {[ "electionId" := VStr (er_id e);
                  "manifestDigest" := VStr (digest_multibase (er_digest e));
                  "ballotsCounted" := VNum counted; "questions" := qs; "head" := head ]}).

Definition tally_now (e : ElectionRecord) (provisional : bool) (now : Z)
  : option (result Failure Value) :=
  let ballots := snd <$> hash_values (er_counted e) in
  r ← tally (er_manifest e) ballots provisional;
  match r with
  | Err err => Some (Err (rule_failure err))
  | Ok (n, qs) =>
      qv ← ok (question_results_to_value qs);
      v ← result_value e n qv now;
      Some (Ok v)
  end.

Definition leaf_le (x y : AdmittedCast * Encrypted) : Prop := ad_leaf x.1 ≤ ad_leaf y.1.
#[export] Instance leaf_le_dec : RelDecision leaf_le.
Proof. intros x y. unfold leaf_le. apply _. Defined.

(** The counted encrypted casts in board order. *)
Definition by_leaf (e : ElectionRecord) : list (AdmittedCast * Encrypted) :=
  merge_sort leaf_le (hash_values (er_encrypted e)).

(** The encryption of option [oi] of question [qi] in a form. *)
Definition form_option (qi oi : nat) (form : Encrypted) : option Ciphertext :=
  match form with
  | ETallied qs => q ← qs !! qi; o ← eq_options q !! oi; Some o.1
  | ESealed _ => None
  end.

(** The targets a question contributes at the tallied-encrypted level. *)
Definition question_targets (casts : list (AdmittedCast * Encrypted)) (qi : nat) (q : Question)
  : list (Target * Ciphertext) :=
  match Rules.key q with
  | None => []
  | Some qkey =>
      imap (λ oi okey,
        (OptionTotal qkey okey, total (omap (λ x, form_option qi oi x.2) casts))) (option_keys q)
  end.

Definition decryption_targets (e : ElectionRecord) : list (Target * Ciphertext) :=
  let casts := by_leaf e in
  match casts with
  | [] => []
  | _ =>
      if bool_decide (secrecy (er_manifest e) = Rules.Sealed) then
        omap (λ x, match x.2 with
                   | ESealed s => Some (Leaf (ad_leaf x.1), kem s)
                   | ETallied _ => None
                   end) casts
      else concat (imap (question_targets casts) (questions (er_manifest e)))
  end.

(** Set up the decryption round on close, if the key formed. *)
Definition start_decryption (e : ElectionRecord) : ElectionRecord :=
  match er_election_key e with
  | None => e
  | Some k => set_decryption (Some (decryption_new k (er_ctx e) (decryption_targets e))) e
  end.

(** The sealed forms by leaf, each with its tag. *)
Definition sealed_by_leaf (e : ElectionRecord) : gmap Z (Trustees.Sealed * string) :=
  fold_left (λ m '(tag, (a, form)),
    match form with
    | ESealed s => <[ad_leaf a := (s, tag)]> m
    | ETallied _ => m
    end) (hash_iter (er_encrypted e)) ∅.

(** A sealed ballot opened and checked against the manifest. *)
Definition open_sealed (e : ElectionRecord) (r_elem : Point) (s : Trustees.Sealed) (tag : string)
  : option (Value * Ballot) :=
  b ← ok (open_with r_elem s (cast_ctx (er_ctx e) tag));
  v ← ok (from_slice b);
  bal ← ok (parse_ballot v);
  _ ← ok (check_ballot (er_manifest e) (er_digest e) bal);
  Some (v, bal).

(** Each option's total, read from the plaintext elements. *)
Definition read_totals (n : Z) (pts : list (Target * Point))
  : option (result Failure (gmap (string * string) Z)) :=
  fold_left (λ acc tp,
    r ← acc;
    match r, tp with
    | Ok m, (OptionTotal q o, p) =>
        t ← bsgs p n;
        Some (match t with
              | Ok c => Ok (<[(q, o) := c]> m)
              | Err err => Err (f_std "internalError" (q +:+ "/" +:+ o +:+ ": " +:+ trustee_error_text err))
              end)
    | _, _ => Some r
    end) pts (Some (Ok ∅)).

(** ** Methods that change the record *)

Abbreviation EM := (M (ElectionRecord * World)).

Definition self : EM ElectionRecord := gets fst.
Definition update (f : ElectionRecord → ElectionRecord) : EM unit := modify (λ '(e, w), (f e, w)).

(** Journal an entry, then append it to the board. *)
Definition append (entry : Value) : EM Z :=
  b ← try (jcs entry);
  e ← self;
  let index := Z.of_nat (board_len (er_board e)) in
  _ ← on_journal (journal_entry (er_community e) (er_id e) index b);
  _ ← update (λ e, set_entries (er_entries e ++ [b]) (set_board (board_append (er_board e) b).2 e));
  mret index.

Definition append_step (request : Value) : EM unit :=
  _ ← append (Steps.entry request);
  update (λ e, set_steps (er_steps e ++ [request]) e).

(** Record a result on the board and end the election. *)
Definition set_tallied (r : Value) : EM unit :=
  _ ← append (mk_obj {[ "kind" := VStr "result"; "result" := r ]});
  update (λ e, set_state Tallied (set_result (Some r) e)).

Definition publish (counted : Z) (qs : Value) (now : Z) : EM unit :=
  e ← self;
  r ← expect (result_value e counted qs now);
  set_tallied r.

(** The sealed casts' ballots: opened and appended, or as already settled. *)
Fixpoint open_ballots (forms : gmap Z (Trustees.Sealed * string)) (pts : list (Target * Point))
    (ballots : list Ballot) : EM (list Ballot) :=
  match pts with
  | [] => mret ballots
  | (OptionTotal _ _, _) :: rest => open_ballots forms rest ballots
  | (Leaf leaf, r_elem) :: rest =>
      e ← self;
      match forms !! leaf with
      | None => open_ballots forms rest ballots
      | Some (s, tag) =>
          match er_settled e !! leaf with
          | Some said =>
              open_ballots forms rest
                (ballots ++ match said ≫= λ v, ok (parse_ballot v) with
                            | Some b => [b]
                            | None => []
                            end)
          | None =>
              match open_sealed e r_elem s tag with
              | Some (v, b) =>
                  _ ← append (mk_obj {[ "kind" := VStr "unsealed"; "leafIndex" := VNum leaf;
                                        "ballot" := v ]});
                  open_ballots forms rest (ballots ++ [b])
              | None =>
                  _ ← append (mk_obj {[ "kind" := VStr "spoiled"; "leafIndex" := VNum leaf ]});
                  open_ballots forms rest ballots
              end
          end
      end
  end.

(** [From<CeremonyError> for Failure]. *)
Definition ceremony_failure (e : CeremonyError) : Failure :=
  let reason := ceremony_error_text e in
  match e with
  | NotEnrolling => f_task "notEnrolling" reason
  | AlreadyEnrolled => f_task "alreadyEnrolled" reason
  | TransportKeyInvalid => f_task "transportKeyInvalid" reason
  | NotDealing => f_task "notDealing" reason
  | AlreadyDealt => f_task "alreadyDealt" reason
  | CeremonyDealingInvalid _ => f_task "dealingInvalid" reason
  | NotConfirming => f_task "notConfirming" reason
  | AlreadyConfirmed => f_task "alreadyConfirmed" reason
  | NoComplaint => f_task "noComplaint" reason
  | CeremonyShareInvalid => f_task "shareInvalid" reason
  | NotDecrypting => f_task "notDecrypting" reason
  | CeremonyPartialInvalid _ => f_task "partialInvalid" reason
  | Malformed _ => f_malformed reason
  end.

(** Publish a tally of opened ballots. *)
Definition publish_sealed (pts : list (Target * Point)) (now : Z) : EM unit :=
  e ← self;
  ballots ← open_ballots (sealed_by_leaf e) pts [];
  r ← try_or_panic (tally (er_manifest e) ballots false ≫= λ r, Some (rule_err r));
  qs ← try (map_err (f_std "internalError") (question_results_to_value r.2));
  publish r.1 qs now.

Definition publish_tallied (pts : list (Target * Point)) (now : Z) : EM unit :=
  e ← self;
  let n := Z.of_nat (size (er_encrypted e)) in
  totals ← try_or_panic (read_totals n pts);
  rows ← try (rule_err (tallied_rows (er_manifest e)
           (λ q o, match totals !! (q, o) with
                   | Some c => Some c
                   | None => if bool_decide (n = 0) then Some 0 else None
                   end) n));
  publish n (VArr rows) now.

(** Once [t] trustees have decrypted every target: open or read, append,
    tally. *)
Definition finish_if_decrypted (now : Z) : EM unit :=
  e ← self;
  match er_decryption e with
  | None => mret ()
  | Some d =>
      let nothing := match targets d with [] => true | _ => false end in
      if bool_decide (er_state e ≠ Closed) || negb (Ceremony.complete d || nothing) then mret ()
      else
        pts ← if nothing then mret []
              else try_or_panic (plaintexts d ≫= λ r, Some (map_err ceremony_failure r));
        if bool_decide (secrecy (er_manifest e) = Rules.Sealed)
        then publish_sealed pts now
        else publish_tallied pts now
  end.

(** Append the election key once a step has formed it. *)
Definition key_entry_if_formed (was : Phase) : EM unit :=
  e ← self;
  match er_election_key e with
  | Some k =>
      if bool_decide (was ≠ Keyed) then
        _ ← append (mk_obj {[ "kind" := VStr "electionKey"; "electionKey" := election_key_value k ]});
        mret ()
      else mret ()
  | None => mret ()
  end.

(** [votingOpensAt]: the ceremony forms its key from whoever qualifies, or
    fails. *)
Definition ceremony_deadline : EM unit :=
  e ← self;
  match er_ceremony e with
  | None => mret ()
  | Some c =>
      r ← expect (deadline c);
      _ ← update (set_ceremony (Some r.2));
      key_entry_if_formed (phase c)
  end.

(** Close at [at_] and publish the result; at the encrypted levels, once the
    trustees have decrypted it. *)
Definition close (kind : string) (at_ : Z) : EM unit :=
  leaf ← append (mk_obj {[ "kind" := VStr kind; "occurredAt" := VStr (time at_) ]});
  _ ← update (set_closing (Some (leaf, time at_)));
  e ← self;
  _ ← update (set_state Closed);
  match er_ceremony e with
  | Some _ =>
      _ ← update start_decryption;
      finish_if_decrypted at_
  | None =>
      e ← self;
      r ← try_or_panic (tally_now e false at_);
      set_tallied r
  end.

(** Run the election's clock up to [now]. *)
Definition advance (now : Z) : EM unit :=
  e ← self;
  _ ← when (bool_decide (er_state e = Registered)
            && (registration_opens_at (er_manifest e) <=? now))
        (update (set_state Registration));
  e ← self;
  _ ← when ((state_rank (er_state e) <=? state_rank Registration)
            && (voting_opens_at (er_manifest e) <=? now))
        (_ ← ceremony_deadline;
         _ ← append (mk_obj {[ "kind" := VStr "opened";
                               "occurredAt" := VStr (time (voting_opens_at (er_manifest e))) ]});
         update (set_state Voting));
  e ← self;
  when (bool_decide (er_state e = Voting) && (voting_closes_at (er_manifest e) <=? now))
    (close "closed" (voting_closes_at (er_manifest e))).

(** A close or a last partial whose result never reached the board, finished;
    [utc_now] is the clock where the closing time does not parse. *)
Definition resume (utc_now : Z) : EM unit :=
  e ← self;
  if bool_decide (er_state e ≠ Closed) || bool_decide (is_Some (er_result e)) then mret ()
  else
    let at_ := default utc_now (er_closing e ≫= λ c, rfc3339_parse c.2) in
    match er_ceremony e with
    | Some _ => finish_if_decrypted at_
    | None =>
        r ← try_or_panic (tally_now e false at_);
        set_tallied r
    end.

Definition ceremony_or (not_now : string) : EM Ceremony :=
  e ← self;
  try (ok_or (er_ceremony e) (f_task not_now "an open election has no trustees")).

(** Run a step of the ceremony, keeping the ceremony it leaves. *)
Definition on_ceremony {A} (o : option (result CeremonyError A * Ceremony))
    (refused : CeremonyError → Failure) : EM A :=
  r ← expect o;
  _ ← update (set_ceremony (Some r.2));
  try (map_err refused r.1).

(** ** Replaying the board *)

Definition svc_index (v : Value) : result Failure Z :=
  ok_or (as_u64 v ≫= u32_try_from) (f_malformed "a trustee index").

Definition entry_failure (leaf : Z) (what why : string) : Failure :=
  journal_failure ("entry " +:+ pretty leaf +:+ " (" +:+ what +:+ "): " +:+ why).

(** An encrypted-level entry, re-run; whether it was one. *)
Definition replay_encrypted (entry : Value) (leaf : Z) (receipts : gmap Z string) : EM bool :=
  let kind := as_str (json_index entry "kind") in
  match kind with
  | None => mret false
  | Some k =>
      if String.eqb k KIND then
        let request := json_index entry "request" in
        let signer := default "" (as_str (json_index request "issuer")) in
        e ← self;
        step ← try (map_err (λ err, entry_failure leaf "trusteeStep" (step_error_text err))
                      (read request (step_election e) signer));
        c ← ceremony_or "notEnrolling";
        _ ← on_ceremony (apply_step step c)
              (λ err, entry_failure leaf "trusteeStep" (ceremony_error_text err));
        _ ← update (λ e, set_steps (er_steps e ++ [request]) e);
        mret true
      else if String.eqb k "decryptionAuthorized" then
        _ ← update (set_authorization (Some (json_index entry "request")));
        mret true
      else if existsb (String.eqb k) RETIRED_KINDS then
        fail (entry_failure leaf k "a retired entry kind")
      else if String.eqb k "electionKey" then
        c ← ceremony_or "notConfirming";
        _ ← when (bool_decide (phase c ≠ Keyed))
              (r ← expect (deadline c); update (set_ceremony (Some r.2)));
        e ← self;
        _ ← refuse_if (bool_decide (election_key_value <$> er_election_key e
                                    ≠ Some (json_index entry "electionKey")))
              (entry_failure leaf "electionKey" "not the key the board's ceremony forms");
        mret true
      else if String.eqb k "encryptedCast" then
        let cast_value := json_index entry "cast" in
        e ← self;
        r ← try (read_encrypted cast_value);
        let '(tag, ballot_digest, form) := r in
        _ ← update (λ e, set_seen (fold_left (λ m a, <[a := tag]> m) (ciphertext_keys form)
                                     (er_seen e)) e);
        let admitted := mk_admitted leaf ballot_digest (default "" (receipts !! leaf)) in
        b ← try (jcs cast_value);
        _ ← update (λ e, set_exact (<[sha256 b := admitted]> (er_exact e)) e);
        _ ← update (λ e, set_encrypted (<[tag := (admitted, form)]> (er_encrypted e)) e);
        mret true
      else if String.eqb k "partials" then
        trustee ← try (svc_index (json_index entry "trustee"));
        l ← try (ok_or (as_array (json_index entry "partials"))
                   (entry_failure leaf "partials" "not a list"));
        parts ← try (map_err (λ err, entry_failure leaf "partials" (trustee_error_text err))
                       (try_map (λ p, partial p trustee) l));
        e ← self;
        match er_decryption e with
        | None => mret true
        | Some d =>
            let '(r, d') := accept d trustee parts in
            _ ← update (set_decryption (Some d'));
            _ ← try (map_err (λ err, entry_failure leaf "partials" (ceremony_error_text err)) r);
            mret true
        end
      else if String.eqb k "unsealed" then
        _ ← update (λ e, set_settled (<[default u64_max (as_u64 (json_index entry "leafIndex"))
                                        := Some (json_index entry "ballot")]> (er_settled e)) e);
        mret true
      else if String.eqb k "spoiled" then
        _ ← update (λ e, set_settled (<[default u64_max (as_u64 (json_index entry "leafIndex"))
                                        := None]> (er_settled e)) e);
        mret true
      else mret false
  end.

(** An open or lifecycle entry, re-run. *)
Definition replay_lifecycle (entry : Value) (leaf : Z) (receipts : gmap Z string) : EM unit :=
  match as_str (json_index entry "kind") with
  | None => mret ()
  | Some k =>
      if String.eqb k "opened" then
        e ← self;
        _ ← match er_ceremony e with
            | Some c => r ← expect (deadline c); update (set_ceremony (Some r.2))
            | None => mret ()
            end;
        update (set_state Voting)
      else if String.eqb k "cast" then
        let cast_value := json_index entry "cast" in
        cast_jcs ← try (jcs cast_value);
        ballot_jcs ← try (jcs (json_index cast_value "ballot"));
        typed ← try (parse (parse_wire_cast cast_value));
        let admitted := mk_admitted leaf (sha256 ballot_jcs) (default "" (receipts !! leaf)) in
        _ ← update (λ e, set_exact (<[sha256 cast_jcs := admitted]> (er_exact e)) e);
        update (λ e, set_counted (<[wc_tag typed := (admitted, wc_ballot typed)]> (er_counted e)) e)
      else if String.eqb k "closed" || String.eqb k "closedEarly" then
        _ ← update (set_state Closed);
        _ ← update (set_closing (Some (leaf, default "" (as_str (json_index entry "occurredAt")))));
        update start_decryption
      else if String.eqb k "result" then
        update (λ e, set_state Tallied (set_result (Some (json_index entry "result")) e))
      else if String.eqb k "cancelled" then update (set_state Cancelled)
      else mret ()
  end.

(** One journalled entry. *)
Definition replay_entry (receipts : gmap Z string) (b : bytes) : EM unit :=
  e ← self;
  let '(index, board) := board_append (er_board e) b in
  _ ← update (set_board board);
  let leaf := Z.of_nat index in
  entry ← try (map_err (λ err, journal_failure ("entry " +:+ pretty leaf +:+ ": " +:+ err))
                 (from_slice b));
  _ ← match v0_1_lifecycle_entry leaf entry with
      | Some why => fail (journal_failure why)
      | None => mret ()
      end;
  was ← replay_encrypted entry leaf receipts;
  _ ← if was : bool then mret () else replay_lifecycle entry leaf receipts;
  update (λ e, set_entries (er_entries e ++ [b]) e).

(** Rebuild state from entries already journalled, journalling nothing. *)
Definition replay (entries : list bytes) (receipts : gmap Z string) : EM unit :=
  for_each entries (replay_entry receipts).
End ElectionRecord.
