(* ===== verification/VoterClient.v ===== *)
(** * The voter's client

    The rest of [vti-voting/src/voter.rs]: a ticket's text, the wire form of
    an open cast, and the encrypted form of a ballot with the cast that
    carries it. That the ballot box takes what the client makes is
    [HonestVoter]'s. *)

From S2P Require Import Prelude Election Board BallotBox Json Rules Tally Group Trustees Ceremony.
From S2P Require Import Wire Steps Host Record.

Section VoterClient.
Context `{Sha256, PCS, Multibase, Jcs, Dalek, Sha512, Random, Aead}.

(** ** Tickets as text *)

Definition ticket_to_text (t : Ticket) : result VotingError string :=
  map_err (λ e, Serialization (proto_error_text e)) (scheme_enc credential_to_bytes (t_cred t)).

Definition ticket_from_text (el : Election) (text : string) : result VotingError Ticket :=
  cred ← map_err (λ e, Serialization (proto_error_text e)) (scheme_dec credential_from_bytes text);
  Ok (mk_ticket el cred).

(** ** Casts on the wire *)

Definition attestation_text (c : Cast) : result VotingError string :=
  map_err (λ e, Serialization (proto_error_text e))
    (scheme_enc attestation_to_bytes (attestation c)).

(** The attestation over the value's canonical bytes, with its texts. *)
Definition attest_value (v : Voter) (params : VotingParams) (t : Ticket) (value : Value) (rng : Rng)
  : result VotingError (string * string * Rng) :=
  bytes ← map_err Serialization (jcs_to_vec value);
  '(c, rng') ← BallotBox.cast v params t bytes rng;
  att ← attestation_text c;
  tag ← cast_tag c;
  Ok (tag, att, rng').

Definition cast_wire (v : Voter) (params : VotingParams) (t : Ticket) (ballot : Value) (rng : Rng)
  : result VotingError (Value * Rng) :=
  '(tag, att, rng') ← attest_value v params t ballot rng;
  Ok (mk_obj {[ "ballot" := ballot; "tag" := VStr tag; "attestation" := VStr att ]}, rng').

(** A ballot in the form its election's level casts it. *)
Inductive EncryptedForm :=
| FormSealed (v : Value)
| FormEncrypted (v : Value).

Definition cast_encrypted_wire (v : Voter) (params : VotingParams) (t : Ticket)
    (form : EncryptedForm) (rng : Rng) : result VotingError (Value * Rng) :=
  let '(field, value) :=
    match form with FormSealed x => ("sealed", x) | FormEncrypted x => ("encrypted", x) end in
  '(tag, att, rng') ← attest_value v params t value rng;
  Ok (mk_obj {[ field := value; "tag" := VStr tag; "attestation" := VStr att ]}, rng').

(** ** The encrypted form of a ballot *)

(** The answer to a question in a ballot's JSON. *)
Definition json_answer (ballot : Value) (qkey : string) : option Value :=
  l ← as_array (json_index ballot "answers");
  find (λ a, bool_decide (json_index a "question" = VStr qkey)) l.

(** Whether each option is selected. *)
Definition chosen_options (ballot : Value) (qkey : string) (options : list QuestionOption)
  : list bool :=
  let answer := json_answer ballot qkey in
  (λ o, match answer ≫= λ a, as_array (json_index a "choice") with
        | Some c => existsb (λ k, bool_decide (k = VStr (opt_key o))) c
        | None => false
        end) <$> options.

Definition form_error {A} (r : tresult A) : result VotingError A :=
  map_err (λ e, Serialization (trustee_error_text e)) r.

(** One question encrypted. *)
Definition encrypt_question (key : ElectionKey) (ctx : bytes) (ballot : Value) (q : Question)
    (rng : RngState) : result VotingError (Value * RngState) :=
  match q with
  | Choice qkey options min max optional =>
      let chosen := chosen_options ballot qkey options in
      counts ← form_error (admitted_counts (length options) min max optional);
      '(eq, rng) ← form_error (encrypt_vote key chosen counts (question_ctx ctx qkey) rng);
      Ok (encrypted_question_value qkey eq, rng)
  | _ => Err (Serialization "a tallied-encrypted election asks choices only")
  end.

Fixpoint encrypt_questions (key : ElectionKey) (ctx : bytes) (ballot : Value)
    (qs : list Question) (rng : RngState) : result VotingError (list Value * RngState) :=
  match qs with
  | [] => Ok ([], rng)
  | q :: rest =>
      '(v, rng) ← encrypt_question key ctx ballot q rng;
      '(vs, rng) ← encrypt_questions key ctx ballot rest rng;
      Ok (v :: vs, rng)
  end.

(** [encrypted_form]: bound to the cast's [tag], a vote only in that cast. *)
Definition encrypted_form (m : Manifest) (el : Election) (key : ElectionKey) (ballot : Value)
    (tag : string) (rng : RngState) : result VotingError (EncryptedForm * RngState) :=
  let ctx := cast_ctx (trustee_context el) tag in
  match secrecy m with
  | Rules.Sealed =>
      bytes ← map_err Serialization (jcs_to_vec ballot);
      '(s, rng) ← form_error (seal key bytes ctx rng);
      Ok (FormSealed (sealed_value s), rng)
  | TalliedEncrypted =>
      '(qs, rng) ← encrypt_questions key ctx ballot (questions m) rng;
      Ok (FormEncrypted (mk_obj {[ "electionId" := VStr (id_str (e_id el));
                                   "manifestDigest" := VStr (digest_multibase (e_digest el));
                                   "questions" := VArr qs ]}), rng)
  | Rules.Open => Err (Serialization "an open election is cast in the clear")
  end.
End VoterClient.
