(* ===== verification/Scene.v ===== *)
(** * A small community, for the witnesses

    Concrete functions for everything the model takes as an argument: the
    credential system of [Election.Toy], the group of [Group.ToyGroup], a
    canonical JSON encoding with its inverse, whole-second times and parsers
    of three JSON shapes. Nothing here models code; the theorems' witnesses
    run the ballot box on it. *)

From S2P Require Import Prelude Json Election Board BallotBox Rules Tally Group Trustees Ceremony.
From S2P Require Import Wire Steps Host FileJournal Record.

(** ** JSON as bytes *)

(** A tag, then the content; each element follows a 1, and 0 ends. *)
Fixpoint json_bytes (v : Value) : bytes :=
  match v with
  | VNull => [x00]
  | VBool b => [if b then x02 else x01]
  | VNum z => x03 :: toy_put_Z z
  | VFloat t => x04 :: toy_put (as_bytes t)
  | VStr s => x05 :: toy_put (as_bytes s)
  | VArr l => x06 :: concat (map (λ v, x01 :: json_bytes v) l) ++ [x00]
  | VObj ms =>
      x07 :: concat (map (λ m, x01 :: toy_put (as_bytes m.1) ++ json_bytes m.2) ms) ++ [x00]
  end.

Definition to_string (b : bytes) : string := String.string_of_list_byte b.

(** Elements, each read by [f], up to a 0. *)
Fixpoint parse_many {A} (f : bytes → option (A * bytes)) (fuel : nat) (l : bytes)
  : option (list A * bytes) :=
  match fuel, l with
  | S fuel, x00 :: l => Some ([], l)
  | S fuel, x01 :: l => '(x, l) ← f l; '(xs, l) ← parse_many f fuel l; Some (x :: xs, l)
  | _, _ => None
  end.

Fixpoint parse_json (fuel : nat) (l : bytes) : option (Value * bytes) :=
  match fuel with
  | O => None
  | S fuel =>
      match l with
      | x00 :: l => Some (VNull, l)
      | x01 :: l => Some (VBool false, l)
      | x02 :: l => Some (VBool true, l)
      | x03 :: l => '(z, l) ← toy_get_Z l; Some (VNum z, l)
      | x04 :: l => '(b, l) ← toy_get l; Some (VFloat (to_string b), l)
      | x05 :: l => '(b, l) ← toy_get l; Some (VStr (to_string b), l)
      | x06 :: l => '(vs, l) ← parse_many (parse_json fuel) (length l) l; Some (VArr vs, l)
      | x07 :: l =>
          '(ms, l) ← parse_many (λ l, '(k, l) ← toy_get l; '(v, l) ← parse_json fuel l;
                                      Some ((to_string k, v), l)) (length l) l;
          Some (VObj ms, l)
      | _ => None
      end
  end.

Lemma to_string_as_bytes s : to_string (as_bytes s) = s.
Proof. apply String.string_of_list_byte_of_string. Qed.

Lemma parse_many_spec {A} (f : bytes → option (A * bytes)) (enc : A → bytes) l rest fuel :
  (∀ x rest, x ∈ l → f (enc x ++ rest) = Some (x, rest)) → (length l < fuel)%nat →
  parse_many f fuel (concat (map (λ x, x01 :: enc x) l) ++ x00 :: rest) = Some (l, rest).
Proof.
  revert fuel. induction l as [|x l IH]; intros [|fuel] Hf Hlen; simpl in *; try lia; [done|].
  rewrite <- app_assoc, Hf by apply list_elem_of_here. simpl.
  rewrite IH; [done| |lia]. intros y r Hy. apply Hf. by apply list_elem_of_further.
Qed.

Lemma length_concat_marks {A} (enc : A → bytes) l rest :
  (length l < length (concat (map (λ x, x01 :: enc x) l) ++ x00 :: rest))%nat.
Proof. induction l as [|x l IH]; simpl; [lia|]. rewrite <- app_assoc, length_app. lia. Qed.

(** The nesting of a value. *)
Fixpoint depth (v : Value) : nat :=
  match v with
  | VArr l => S (max_list (map depth l))
  | VObj ms => S (max_list (map (λ m, depth m.2) ms))
  | _ => 1
  end.

Lemma elem_max_list n l : n ∈ l → (n ≤ max_list l)%nat.
Proof. induction l; intros Hn; [by apply elem_of_nil in Hn|]. simpl. apply elem_of_cons in Hn as [->|?]; lia || (specialize (IHl ltac:(done)); lia). Qed.

Lemma parse_json_spec fuel : ∀ v rest,
  (depth v ≤ fuel)%nat → parse_json fuel (json_bytes v ++ rest) = Some (v, rest).
Proof.
  induction fuel as [|fuel IH]; intros v rest Hd; [destruct v; simpl in Hd; lia|].
  destruct v as [|b|z|t|s|l|ms]; cbn [json_bytes depth] in *.
  - done.
  - by destruct b.
  - change (toy_get_Z (toy_put_Z z ++ rest) ≫= (λ '(z, l), Some (VNum z, l)) = Some (VNum z, rest)).
    by rewrite toy_get_put_Z.
  - simpl. rewrite toy_get_put. simpl. by rewrite to_string_as_bytes.
  - simpl. rewrite toy_get_put. simpl. by rewrite to_string_as_bytes.
  - simpl. rewrite <- app_assoc. simpl.
    rewrite (parse_many_spec _ json_bytes); [done| |apply length_concat_marks].
    intros x r Hx. apply IH. assert (depth x ≤ max_list (map depth l))%nat; [|lia].
    apply elem_max_list. apply list_elem_of_fmap. by exists x.
  - simpl. rewrite <- app_assoc. simpl.
    rewrite (parse_many_spec _ (λ m, toy_put (as_bytes m.1) ++ json_bytes m.2));
      [done| |apply length_concat_marks].
    intros [k v] r Hx. simpl. rewrite <- app_assoc, toy_get_put. simpl. rewrite IH.
    + simpl. by rewrite to_string_as_bytes.
    + assert (depth v ≤ max_list (map (λ m, depth m.2) ms))%nat; [|lia].
      apply elem_max_list. apply list_elem_of_fmap. by exists (k, v).
Qed.

Lemma depth_bytes v : (depth v ≤ length (json_bytes v))%nat.
Proof.
  revert v. fix go 1. intros [|b|z|t|s|l|ms]; simpl; try lia; apply le_n_S.
  - induction l as [|v l IH]; simpl; [lia|]. rewrite !length_app in *.
    pose proof (go v). simpl in *. lia.
  - induction ms as [|[k v] ms IH]; simpl; [lia|]. rewrite !length_app in *.
    pose proof (go v). simpl in *. lia.
Qed.

#[export] Instance scene_jcs : Jcs := λ v, Ok (json_bytes v).
#[export] Instance scene_serde : Serde := {|
  from_slice := λ b, ok_or (fst <$> parse_json (length b) b) "not JSON";
  json_display := λ _, "a value";
  str_debug := λ s, s;
|}.
#[export] Instance scene_serde_laws : SerdeLaws.
Proof.
  intros v b _ Hb. unfold jcs_to_vec, scene_jcs in Hb. injection Hb as <-.
  cbn [from_slice scene_serde]. rewrite <- (app_nil_r (json_bytes v)) at 2.
  rewrite parse_json_spec; [done|]. apply depth_bytes.
Qed.

#[export] Instance scene_stored : StoredSerde := {|
  stored_to_vec := λ e, Ok (json_bytes (VArr [st_manifest e; st_parameters e]));
  stored_from_slice := λ b,
    match parse_json (length b) b with
    | Some (VArr [m; p], _) => Ok (mk_stored m p)
    | _ => Err "not an election"
    end;
|}.
#[export] Instance scene_stored_laws : StoredSerdeLaws.
Proof.
  split. intros [m p] b [= <-]. cbn [stored_from_slice scene_stored st_manifest st_parameters].
  pose proof (parse_json_spec _ (VArr [m; p]) [] (depth_bytes _)) as Hp. rewrite app_nil_r in Hp.
  cbn in Hp |- *. by rewrite Hp.
Qed.

(** ** Times *)

#[export] Instance scene_chrono : Chrono := {|
  rfc3339_secs := λ t, String.string_of_list_byte (toy_put_Z (t / NANOS));
  rfc3339_parse := λ s, (λ n, n.1 * NANOS) <$> toy_get_Z (as_bytes s);
|}.

Lemma as_bytes_of_list b : as_bytes (String.string_of_list_byte b) = b.
Proof. apply String.list_byte_of_string_of_list_byte. Qed.

#[export] Instance scene_chrono_laws : ChronoLaws.
Proof.
  split. intros t _. cbn [rfc3339_parse rfc3339_secs scene_chrono].
  rewrite as_bytes_of_list, <- (app_nil_r (toy_put_Z _)), toy_get_put_Z. cbn [fmap option_fmap option_map fst].
  f_equal. pose proof (Z.div_mod t NANOS). unfold NANOS in *. lia.
Qed.

(** ** Maps, randomness, keys *)

#[export] Instance scene_order : HashOrder := λ V m, map_to_list m.
#[export] Instance scene_order_laws : HashOrderLaws.
Proof. intros V m. reflexivity. Qed.

#[export] Instance scene_rng : OsRng := {|
  OsState := Z;
  os_fill := λ n, (vec_pad 32 (to_be_bytes 32 n), n + 1);
|}.

#[export] Existing Instances Toy.pcs Toy.multibase Toy.multibase_laws.
#[export] Existing Instances ToyGroup.dalek ToyGroup.laws ToyGroup.random toy_sha256.
#[export] Existing Instances ToyTrustees.sha512_const ToyTrustees.aead ToySteps.tasks.

(** ** The election *)

(** One yes-or-no question, open, with revotes; instants on whole seconds. *)
Definition club : Manifest := {|
  election_id := "e1";
  community := "did:web:club";
  questions := [Choice "motion" [mk_option "yes"; mk_option "no"] 1 1 false];
  secrecy := Rules.Open;
  roll := mk_roll Members None None;
  registration_opens_at := 0;
  voting_opens_at := 10 * NANOS;
  voting_closes_at := 20 * NANOS;
  revote := RevoteReplace;
  board_public := true;
  auditors := [];
  ballot_box := "did:web:box";
  binding := false;
  allow_early_close := true;
  results_before_close := true;
  text_release_threshold := 1;
  trustees := None;
|}.
Definition club_value : Value := mk_obj {[ "electionId" := VStr "e1" ]}.
Definition club_digest : Hash := sha256 (json_bytes club_value).
Definition club_election : Election :=
  mk_election "did:web:club" (mk_election_id "e1") club_digest.

(** ** The generated types *)

Definition club_ballot (choice : string) : Ballot :=
  mk_ballot "e1" (digest_multibase club_digest) [mk_answer "motion" (Some [choice]) None ∅ None None].

(** A ballot's JSON is its choice. *)
Definition read_ballot (v : Value) : result string Ballot :=
  match v with VStr c => Ok (club_ballot c) | _ => Err "a ballot" end.
Definition write_ballot (b : Ballot) : result string Value :=
  match b_answers b with
  | [a] => ok_or (VStr <$> (a_choice a ≫= head)) "a choice"
  | _ => Err "one answer"
  end.

Definition read_str (v : Value) (k : string) : result string string := ok_or (get_str v k) k.

Definition read_cast (v : Value) : result string WireCast :=
  b ← read_ballot (json_index v "ballot");
  t ← read_str v "tag";
  a ← read_str v "attestation";
  Ok (mk_wire_cast b t a).

Definition read_names (v : Value) : result string (string * string) :=
  c ← read_str v "community"; i ← read_str v "electionId"; Ok (c, i).

(** The values canonicalization keeps, decided. *)
Fixpoint keeps (v : Value) : bool :=
  match v with
  | VNull | VBool _ | VStr _ => true
  | VNum z => bool_decide (Z.abs z ≤ 2 ^ 53)
  | VFloat _ => false
  | VArr l => forallb keeps l
  | VObj ms => bool_decide (VObj ms = mk_obj (list_to_map ms)) && forallb (λ m, keeps m.2) ms
  end.

Lemma keeps_canonical : ∀ v, keeps v = true → canonical_value v.
Proof.
  fix go 1. intros [| | | | |l|ms]; simpl; try done; try (by constructor).
  - intros Hz%bool_decide_eq_true. by constructor.
  - intros Hl. apply can_arr. induction l as [|v l IH]; [by intros w ?%elem_of_nil|].
    simpl in Hl. apply andb_true_iff in Hl as [Hv Hl]. intros w [->|Hw]%elem_of_cons.
    + by apply go.
    + by apply IH.
  - intros [He%bool_decide_eq_true Hl]%andb_true_iff. rewrite He. apply can_obj.
    intros k v Hv%elem_of_list_to_map_2. clear He.
    induction ms as [|[j w] ms IH]; [by apply elem_of_nil in Hv|].
    simpl in Hl. apply andb_true_iff in Hl as [Hw Hl].
    apply elem_of_cons in Hv as [[= -> ->]|Hv]; [by apply go|by apply IH].
Qed.

Definition names_question (v : Value) : bool :=
  bool_decide (is_Some (as_str (json_index v "question"))).

#[export] Instance scene_results : ResultWire := {|
  QuestionResult := Value; question_result_from_value := Ok;
|}.
#[export] Instance scene_manifest : ManifestWire := λ v,
  if bool_decide (v = club_value) then Ok club else Err "another manifest".

#[export] Instance scene_tasks : Tasks := {|
  parse_register := λ v,
    c ← read_str v "community"; d ← read_str v "manifestDigest";
    m ← manifest_from_value (json_index v "manifest");
    Ok (mk_register_payload c m d);
  validate_register_v0_2 := λ _, Ok ();
  validate_register_v0_3 := λ _, Ok ();
  parse_named := λ _ v, read_names v;
  parse_cast := λ v,
    n ← read_names v; c ← read_cast (json_index v "cast"); Ok (mk_cast_payload n.1 n.2 c);
  parse_wire_cast := read_cast;
  parse_ballot := read_ballot;
  ballot_to_value := write_ballot;
  parse_read := λ v, n ← read_names v; Ok (mk_read_payload n.1 n.2 None 0 100);
  parse_inclusion := λ v, n ← read_names v; Ok (mk_inclusion_payload n.1 n.2 0 1 None);
  parse_consistency := λ v, n ← read_names v; Ok (mk_consistency_payload n.1 n.2 1 2);
  parse_task := λ _ _, Ok ();
  parse_parameters := λ v, read_str v "votingKey";
  question_results_to_value := λ rs,
    if forallb names_question rs then Ok (VArr rs) else Err "not rows";
  Response := Value;
  response_from_value := λ _ v, Ok v;
  response_to_value := Ok;
|}.
