(* ===== verification/AuditEncrypted.v ===== *)
(** * Certifying a sealed or tallied-encrypted board

    [vti-voting/src/audit_encrypted.rs], with the failures and the digests of
    [audit.rs] it shares: the trustees' ceremony re-run from its signed steps,
    every encrypted cast re-admitted, every partial decryption re-verified and
    the totals recounted from what they decrypt. *)

From S2P Require Import Prelude Json Election Board BallotBox Rules Tally Group Trustees Ceremony.
From S2P Require Import Wire Steps Host.

(** What a certification found wrong. *)
Inductive AuditFailure :=
| RootMismatch
| CheckpointInconsistent (tree_size : Z)
| CastInvalid (index : Z) (reason : string)
| TagRepeated (index : Z)
| ReplacementInvalid (index : Z) (reason : string)
| ResultMismatch (why : string)
| CountExceedsTickets (counted issued : Z)
| Unreadable (why : string)
| CeremonyInvalid (index : Z) (reason : string)
| OrderInvalid (index : Z) (reason : string).

Definition audit_failure_text (f : AuditFailure) : string :=
  match f with
  | RootMismatch => "the entries do not hash to the head's root"
  | CheckpointInconsistent n =>
      "the board is not consistent with the checkpoint at tree size " +:+ pretty n
  | CastInvalid i r =>
      "the cast at index " +:+ pretty i +:+ " would not have been admitted: " +:+ r
  | TagRepeated i => "the tag at index " +:+ pretty i +:+ " is already on the board"
  | ReplacementInvalid i r => "the replacement at index " +:+ pretty i +:+ " is not valid: " +:+ r
  | ResultMismatch why => "the published result is not the board's: " +:+ why
  | CountExceedsTickets c t =>
      pretty c +:+ " ballots counted, but only " +:+ pretty t +:+ " tickets were issued"
  | Unreadable why => why
  | CeremonyInvalid i r => "the trustee entry at index " +:+ pretty i +:+ " does not hold: " +:+ r
  | OrderInvalid i r =>
      "the entry at index " +:+ pretty i +:+ " is out of the election's order: " +:+ r
  end.

Abbreviation aresult := (result AuditFailure).

Section AuditEncrypted.
Context `{Sha256, PCS, Multibase, Jcs, ResultWire, Dalek, Sha512, Random, Aead}.
Context `{StepTasks, Serde, HashOrder, !Tasks}.

Definition canonical (v : Value) : aresult bytes :=
  map_err (λ e, Unreadable ("canonicalize: " +:+ e)) (jcs_to_vec v).

(** SHA-256 over the canonical form of a target list. *)
Definition targets_digest (targets : list Value) : aresult string :=
  b ← canonical (VArr targets); Ok (digest_multibase (sha256 b)).

Inductive Form :=
| SealedForm (s : Trustees.Sealed)
| TalliedForm (qs : list EncryptedQuestion).

Definition bad_step {A} (index : Z) (e : string) : aresult A := Err (CeremonyInvalid index e).

Definition idx (v : Value) (index : Z) : aresult Z :=
  ok_or (as_u64 v ≫= u32_try_from) (CeremonyInvalid index "a trustee index").

(** What the ceremony's steps are read against. *)
Record AuditSteps := mk_audit_steps {
  as_community : string; as_ctx : bytes; as_proven : ProvenRequests;
}.

(** A ceremony replayed from the board's entries, one at a time. *)
Record Replay := mk_replay {
  rp_ceremony : Ceremony; rp_election : StepElection; rp_proven : ProvenRequests;
}.

Definition set_rp_ceremony (c : Ceremony) (r : Replay) : Replay :=
  mk_replay c (rp_election r) (rp_proven r).

Definition unreadable {A} (r : tresult A) : aresult A :=
  map_err (λ e, Unreadable (trustee_error_text e)) r.

Definition replay_new (m : Manifest) (s : AuditSteps) : aresult Replay :=
  t ← ok_or (trustees m) (Unreadable "no trustees");
  th ← unreadable (threshold_new (default 0 (u32_try_from (t_threshold t)))
                     (default 0 (u32_try_from (Z.of_nat (length (t_dids t))))));
  Ok (mk_replay (ceremony_new th (as_ctx s))
        (mk_step_election (as_community s) (election_id m) (t_dids t)) (as_proven s)).

Definition replay_deadline (r : Replay) : attempt AuditFailure Replay :=
  d ← expected (deadline (rp_ceremony r)); mret (set_rp_ceremony d.2 r).

(** Take [entry] if it is the ceremony's; whether it was. *)
Definition replay_take (r : Replay) (index : Z) (entry : Value)
  : attempt AuditFailure (bool * Replay) :=
  match as_str (json_index entry "kind") with
  | None => mret (false, r)
  | Some k =>
      if String.eqb k KIND then
        let request := json_index entry "request" in
        who ← tried (ok_or (signer (rp_proven r) request)
                       (CeremonyInvalid index (step_error_text Unproven)));
        step ← tried (map_err (λ e, CeremonyInvalid index (step_error_text e))
                        (read request (rp_election r) who));
        o ← expected (apply_step step (rp_ceremony r));
        _ ← tried (map_err (λ e, CeremonyInvalid index (ceremony_error_text e)) o.1);
        mret (true, set_rp_ceremony o.2 r)
      else if existsb (String.eqb k) RETIRED_KINDS then
        tried (bad_step index "a retired entry kind, which carries no proof")
      else if String.eqb k "electionKey" then
        r ← if bool_decide (phase (rp_ceremony r) ≠ Keyed) then replay_deadline r else mret r;
        if bool_decide (election_key_value <$> Ceremony.key (rp_ceremony r)
                        ≠ Some (json_index entry "electionKey"))
        then tried (bad_step index "not the key the board's ceremony forms")
        else mret (true, r)
      else if String.eqb k "opened" then r ← replay_deadline r; mret (true, r)
      else mret (false, r)
  end.

(** The key the board's ceremony formed, through its [electionKey] entry. *)
Fixpoint formed_key_from (r : Replay) (index : Z) (entries : list Value)
  : attempt AuditFailure (option Value) :=
  match entries with
  | [] => mret None
  | entry :: rest =>
      x ← replay_take r index entry;
      if bool_decide (json_index entry "kind" = VStr "electionKey")
      then mret (Some (json_index entry "electionKey"))
      else formed_key_from x.2 (index + 1) rest
  end.

Definition formed_key (m : Manifest) (s : AuditSteps) (entries : list Value)
  : attempt AuditFailure (option Value) :=
  r ← tried (replay_new m s); formed_key_from r 0 entries.

(** The decryption a closed board calls for. *)
Record Closing := mk_closing {
  cl_index : Z; cl_at : string; cl_targets : list (Target * Ciphertext);
}.

Definition target_values (c : Closing) : list Value :=
  (λ x, target_value x.1 x.2) <$> cl_targets c.

(** The counted casts: tag → (index, form, the form's digest). *)
Abbreviation Counted_ := (gmap string (Z * Form * Hash)).

(** One pass over an encrypted board. *)
Record Recount := mk_recount {
  rc_ctx : bytes;
  rc_replay : Replay;
  rc_counted : Counted_;
  (** A later cast under a counted tag, still owed its [replaced] entry. *)
  rc_owed : option (string * Z * Z);
  rc_seen : gmap Hash string;
  rc_closing : option Closing;
  rc_authorized : bool;
  rc_round : option (Decryption Target);
  rc_opened : gmap Z (option Value);
}.

Definition recount_new (m : Manifest) (s : AuditSteps) : aresult Recount :=
  r ← replay_new m s;
  Ok (mk_recount (as_ctx s) r ∅ None ∅ None false None ∅).

Definition set_rc_replay (x : Replay) (r : Recount) : Recount :=
  mk_recount (rc_ctx r) x (rc_counted r) (rc_owed r) (rc_seen r) (rc_closing r)
    (rc_authorized r) (rc_round r) (rc_opened r).
Definition set_rc_casts (c : Counted_) (o : option (string * Z * Z)) (s : gmap Hash string)
    (r : Recount) : Recount :=
  mk_recount (rc_ctx r) (rc_replay r) c o s (rc_closing r) (rc_authorized r) (rc_round r) (rc_opened r).
Definition set_rc_closing (c : option Closing) (d : option (Decryption Target)) (r : Recount) : Recount :=
  mk_recount (rc_ctx r) (rc_replay r) (rc_counted r) (rc_owed r) (rc_seen r) c
    (rc_authorized r) d (rc_opened r).
Definition set_rc_authorized (r : Recount) : Recount :=
  mk_recount (rc_ctx r) (rc_replay r) (rc_counted r) (rc_owed r) (rc_seen r) (rc_closing r)
    true (rc_round r) (rc_opened r).
Definition set_rc_opened (o : gmap Z (option Value)) (r : Recount) : Recount :=
  mk_recount (rc_ctx r) (rc_replay r) (rc_counted r) (rc_owed r) (rc_seen r) (rc_closing r)
    (rc_authorized r) (rc_round r) o.

Definition owed_failure (by_ : Z) : AuditFailure :=
  ReplacementInvalid by_ "a later cast under a counted tag is not followed by its replacement".

Definition form_keys (f : Form) : list Hash :=
  match f with
  | SealedForm s => [compress (ct_a (kem s))]
  | TalliedForm qs => concat ((λ q, (λ o, compress (ct_a o.1)) <$> eq_options q) <$> qs)
  end.

Definition index_le (x y : Z * Form * Hash) : Prop := x.1.1 ≤ y.1.1.
#[export] Instance index_le_dec : RelDecision index_le.
Proof. intros x y. unfold index_le. apply _. Defined.

Definition tallied_option (qi oi : nat) (f : Form) : option Ciphertext :=
  match f with
  | TalliedForm qs => q ← qs !! qi; o ← eq_options q !! oi; Some o.1
  | SealedForm _ => None
  end.

Definition audit_question_targets (casts : list (Z * Form * Hash)) (qi : nat) (q : Question)
  : list (Target * Ciphertext) :=
  match Rules.key q with
  | None => []
  | Some qkey =>
      imap (λ oi okey,
        (OptionTotal qkey okey, total (omap (λ x, tallied_option qi oi x.1.2) casts))) (option_keys q)
  end.

(** The decryption targets once voting closes, as the ballot box fixes
    them. *)
Definition audit_targets (m : Manifest) (counted : Counted_) : list (Target * Ciphertext) :=
  if bool_decide (counted = ∅) then []
  else
    let casts := merge_sort index_le (hash_values counted) in
    if bool_decide (secrecy m = Rules.Sealed) then
      omap (λ x, match x.1.2 with
                 | SealedForm s => Some (Leaf x.1.1, kem s)
                 | TalliedForm _ => None
                 end) casts
    else concat (imap (audit_question_targets casts) (questions m)).

Definition ballot_reason {A} (r : tresult A) : result string A := map_err trustee_error_text r.

Definition check_audit_question (ek : ElectionKey) (ctx : bytes) (q : Question) (v : Value)
  : result string EncryptedQuestion :=
  match q with
  | Choice _ options min max optional =>
      let qkey := default "" (Rules.key q) in
      '(named, eq) ← ballot_reason (encrypted_question v);
      _ ← guard_err (bool_decide (named ≠ qkey)) ("question " +:+ named +:+ " is not " +:+ qkey);
      counts ← ballot_reason (admitted_counts (length options) min max optional);
      _ ← ballot_reason (verify_vote ek eq (length options) counts (question_ctx ctx qkey));
      Ok eq
  | _ => Err "a tallied-encrypted election asks choices only"
  end.

Fixpoint check_audit_questions (ek : ElectionKey) (ctx : bytes) (qs : list Question)
    (vs : list Value) : result string (list EncryptedQuestion) :=
  match qs, vs with
  | q :: qs', v :: vs' =>
      eq ← check_audit_question ek ctx q v;
      rest ← check_audit_questions ek ctx qs' vs';
      Ok (eq :: rest)
  | _, _ => Ok []
  end.

(** A tallied-encrypted ballot's proofs, as the ballot box checks them. *)
Definition check_tallied (m : Manifest) (digest : Hash) (ctx : bytes) (ek : ElectionKey)
    (enc : Value) : result string (list EncryptedQuestion) :=
  let given := default [] (as_array (json_index enc "questions")) in
  _ ← guard_err
        (bool_decide (as_str (json_index enc "electionId") ≠ Some (election_id m))
         || bool_decide (digest_from_multibase
                           (default "" (as_str (json_index enc "manifestDigest"))) ≠ Some digest))
        "another election's ballot";
  _ ← guard_err (bool_decide (length given ≠ length (questions m)))
        "not one encrypted question per manifest question";
  check_audit_questions ek ctx (questions m) given.

(** An encrypted cast, re-admitted as the ballot box must have admitted it. *)
Definition recount_cast (m : Manifest) (digest : Hash) (verifier : BallotBox.BallotBox MemoryNullifiers)
    (rv : BallotBox.Revote) (r : Recount) (index : Z) (c : Value) : aresult Recount :=
  let invalid {A} (x : result string A) : aresult A := map_err (CastInvalid index) x in
  _ ← match rc_owed r with Some (_, _, by_) => Err (owed_failure by_) | None => Ok () end;
  _ ← guard_err (bool_decide (is_Some (rc_closing r))) (CastInvalid index "cast after voting closed");
  ek ← ok_or (Ceremony.key (rp_ceremony (rc_replay r)))
         (CastInvalid index "cast before the election key formed");
  bound ← match secrecy m, json_get c "sealed", json_get c "encrypted" with
          | Rules.Sealed, Some s, None => Ok s
          | TalliedEncrypted, None, Some enc => Ok enc
          | _, _, _ => Err (CastInvalid index "not this election's form of cast")
          end;
  bound_bytes ← canonical bound;
  att ← map_err (λ e, CastInvalid index ("attestation: " +:+ e))
          (dec_attestation (default "" (as_str (json_index c "attestation"))));
  tag ← map_err (λ e, CastInvalid index (voting_error_text e))
          (verify verifier (mk_cast att) bound_bytes);
  _ ← guard_err (bool_decide (as_str (json_index c "tag") ≠ Some tag))
        (CastInvalid index "the tag is not the attestation's");
  form ← match secrecy m with
         | Rules.Sealed => s ← invalid (ballot_reason (sealed bound)); Ok (SealedForm s)
         | _ => qs ← invalid (check_tallied m digest (cast_ctx (rc_ctx r) tag) ek bound);
                Ok (TalliedForm qs)
         end;
  let keys := form_keys form in
  _ ← guard_err (existsb (λ a, match rc_seen r !! a with
                               | Some t => negb (String.eqb t tag)
                               | None => false
                               end) keys)
        (CastInvalid index "its ciphertexts are another cast's: a copied ballot");
  let seen := fold_left (λ s a, <[a := tag]> s) keys (rc_seen r) in
  let form_digest := sha256 bound_bytes in
  let counted := <[tag := (index, form, form_digest)]> (rc_counted r) in
  match rc_counted r !! tag with
  | None => Ok (set_rc_casts counted (rc_owed r) seen r)
  | Some (earlier, _, held) =>
      _ ← guard_err (bool_decide (rv = BallotBox.Refuse)) (TagRepeated index);
      _ ← guard_err (bool_decide (held = form_digest))
            (ReplacementInvalid index "a replacement must carry another ballot");
      Ok (set_rc_casts counted (Some (tag, earlier, index)) seen r)
  end.

(** The [replaced] entry a later cast is owed. *)
Definition check_replaced (owed : option (string * Z * Z)) (index : Z) (entry : Value) : aresult unit :=
  match owed with
  | None => Err (ReplacementInvalid index "no cast is waiting to be replaced")
  | Some (tag, earlier, by_) =>
      guard_err (bool_decide (as_str (json_index entry "tag") ≠ Some tag)
                 || bool_decide (as_u64 (json_index entry "replaces") ≠ Some earlier)
                 || bool_decide (as_u64 (json_index entry "by") ≠ Some by_))
        (ReplacementInvalid index "it names other casts than the two under its tag")
  end.

(** The community's [decryptionAuthorized] entry. *)
Definition authorization (m : Manifest) (digest : Hash) (r : Recount) (index : Z) (request : Value)
    (b : Board) : aresult Recount :=
  let bad why := CeremonyInvalid index ("decryption authorization: " +:+ why) in
  _ ← guard_err (bool_decide (signer (rp_proven (rc_replay r)) request ≠ Some (community m))
                 || bool_decide (as_str (json_index request "issuer") ≠ Some (community m)))
        (bad "not the community's");
  c ← ok_or (rc_closing r) (bad "before voting closed");
  let p := json_index request "payload" in
  let size := cl_index c + 1 in
  let root := digest_multibase <$> ok (board_root b (Z.to_nat size)) in
  let values := target_values c in
  holds ←
    if bool_decide (as_str (json_index p "community") = Some (community m))
       && bool_decide (as_str (json_index p "electionId") = Some (election_id m))
       && bool_decide (as_str (json_index p "manifestDigest") = Some (digest_multibase digest))
       && bool_decide (as_u64 (json_index (json_index p "head") "treeSize") = Some size)
       && bool_decide (as_str (json_index (json_index p "head") "rootHash") = root)
       && bool_decide (as_str (json_index p "closedAt") = Some (cl_at c))
       && bool_decide (as_u64 (json_index p "targetCount") = Some (Z.of_nat (length values)))
    then d ← targets_digest values;
         Ok (bool_decide (as_str (json_index p "targetsDigest") = Some d))
    else Ok false;
  _ ← guard_err (negb holds) (bad "it does not pin the targets the closed board gives");
  _ ← guard_err (rc_authorized r) (bad "a second authorization");
  Ok (set_rc_authorized r).

(** One entry that is not the ceremony's. *)
Definition recount_entry (m : Manifest) (digest : Hash)
    (verifier : BallotBox.BallotBox MemoryNullifiers) (rv : BallotBox.Revote)
    (r : Recount) (index : Z) (entry : Value) (b : Board) : aresult Recount :=
  match as_str (json_index entry "kind") with
  | None => Ok r
  | Some k =>
      if String.eqb k "encryptedCast" then
        recount_cast m digest verifier rv r index (json_index entry "cast")
      else if String.eqb k "replaced" then
        _ ← check_replaced (rc_owed r) index entry;
        Ok (set_rc_casts (rc_counted r) None (rc_seen r) r)
      else if String.eqb k "closed" || String.eqb k "closedEarly" then
        _ ← match rc_owed r with Some (_, _, by_) => Err (owed_failure by_) | None => Ok () end;
        let ts := audit_targets m (rc_counted r) in
        let round :=
          match Ceremony.key (rp_ceremony (rc_replay r)) with
          | Some ek => Some (decryption_new ek (rc_ctx r) ts)
          | None => rc_round r
          end in
        Ok (set_rc_closing
              (Some (mk_closing index (default "" (as_str (json_index entry "occurredAt"))) ts)) round r)
      else if String.eqb k "decryptionAuthorized" then
        authorization m digest r index (json_index entry "request") b
      else if String.eqb k "partials" then
        _ ← guard_err (negb (rc_authorized r))
              (CeremonyInvalid index "partials before the community authorized the decryption");
        trustee ← idx (json_index entry "trustee") index;
        l ← ok_or (as_array (json_index entry "partials")) (CeremonyInvalid index "partials");
        parts ← map_err (λ e, CeremonyInvalid index (trustee_error_text e))
                  (try_map (λ p, partial p trustee) l);
        d ← ok_or (rc_round r) (CeremonyInvalid index "partials before close");
        let '(o, d') := accept d trustee parts in
        _ ← map_err (λ e, CeremonyInvalid index (ceremony_error_text e)) o;
        Ok (set_rc_closing (rc_closing r) (Some d') r)
      else if String.eqb k "unsealed" then
        Ok (set_rc_opened (<[default u64_max (as_u64 (json_index entry "leafIndex"))
                             := Some (json_index entry "ballot")]> (rc_opened r)) r)
      else if String.eqb k "spoiled" then
        Ok (set_rc_opened (<[default u64_max (as_u64 (json_index entry "leafIndex")) := None]>
              (rc_opened r)) r)
      else Ok r
  end.

(** [Recount::take]. *)
Definition recount_take (m : Manifest) (digest : Hash)
    (verifier : BallotBox.BallotBox MemoryNullifiers) (rv : BallotBox.Revote)
    (r : Recount) (index : Z) (entry : Value) (b : Board) : attempt AuditFailure Recount :=
  x ← replay_take (rc_replay r) index entry;
  let r := set_rc_replay x.2 r in
  if (x.1 : bool) then mret r else tried (recount_entry m digest verifier rv r index entry b).

(** The closed board's decryption; [None] while it has not closed. *)
Fixpoint closing_from (m : Manifest) (digest : Hash)
    (verifier : BallotBox.BallotBox MemoryNullifiers) (rv : BallotBox.Revote)
    (r : Recount) (index : Z) (entries : list Value) (b : Board)
  : attempt AuditFailure (option Closing) :=
  match entries with
  | [] => mret None
  | entry :: rest =>
      r ← recount_take m digest verifier rv r index entry b;
      match rc_closing r with
      | Some c => mret (Some c)
      | None => closing_from m digest verifier rv r (index + 1) rest b
      end
  end.

Definition closing (m : Manifest) (digest : Hash) (s : AuditSteps)
    (verifier : BallotBox.BallotBox MemoryNullifiers) (rv : BallotBox.Revote)
    (entries : list Value) (b : Board) : attempt AuditFailure (option Closing) :=
  r ← tried (recount_new m s); closing_from m digest verifier rv r 0 entries b.

Fixpoint recount_all (m : Manifest) (digest : Hash)
    (verifier : BallotBox.BallotBox MemoryNullifiers) (rv : BallotBox.Revote)
    (r : Recount) (index : Z) (entries : list Value) (b : Board) : attempt AuditFailure Recount :=
  match entries with
  | [] => mret r
  | entry :: rest =>
      r ← recount_take m digest verifier rv r index entry b;
      recount_all m digest verifier rv r (index + 1) rest b
  end.

(** The counted sealed casts by leaf, each with its tag. *)
Definition recount_by_leaf (counted : Counted_) : gmap Z (Trustees.Sealed * string) :=
  fold_left (λ l '(tag, (i, f, _)),
    match f with SealedForm s => <[i := (s, tag)]> l | TalliedForm _ => l end)
    (hash_iter counted) ∅.

(** Each sealed ballot, which the board's opening must be. *)
Fixpoint recount_ballots (m : Manifest) (digest : Hash) (ctx : bytes)
    (forms : gmap Z (Trustees.Sealed * string)) (opened : gmap Z (option Value))
    (pts : list (Target * Point)) : aresult (list Ballot) :=
  match pts with
  | [] => Ok []
  | (OptionTotal _ _, _) :: rest => recount_ballots m digest ctx forms opened rest
  | (Leaf leaf, r_elem) :: rest =>
      '(s, tag) ← ok_or (forms !! leaf) (ResultMismatch ("no counted cast at " +:+ pretty leaf));
      let valid :=
        b ← ok (open_with r_elem s (cast_ctx ctx tag));
        v ← ok (from_slice b);
        bal ← ok (parse_ballot v);
        _ ← ok (check_ballot m digest bal);
        Some (v, bal) in
      match valid, opened !! leaf with
      | Some (v, bal), Some (Some said) =>
          if bool_decide (said = v)
          then bs ← recount_ballots m digest ctx forms opened rest; Ok (bal :: bs)
          else Err (ResultMismatch ("the board's opening of the cast at " +:+ pretty leaf
                                    +:+ " is not what its partials give"))
      | None, Some None => recount_ballots m digest ctx forms opened rest
      | _, _ => Err (ResultMismatch ("the board's opening of the cast at " +:+ pretty leaf
                                     +:+ " is not what its partials give"))
      end
  end.

Definition recount_totals (n : Z) (pts : list (Target * Point))
  : attempt AuditFailure (gmap (string * string) Z) :=
  fold_left (λ acc tp,
    tot ← acc;
    match tp with
    | (OptionTotal q o, p) =>
        t ← expected (bsgs p n);
        c ← tried (map_err (λ e, ResultMismatch (trustee_error_text e)) t);
        mret (<[(q, o) := c]> tot)
    | _ => mret tot
    end) pts (mret ∅).

(** The totals the decrypted board gives. *)
Definition recount_result (m : Manifest) (digest : Hash) (r : Recount)
    (pts : list (Target * Point)) : attempt AuditFailure (Z * Value) :=
  let n := Z.of_nat (size (rc_counted r)) in
  if bool_decide (secrecy m = Rules.Sealed) then
    ballots ← tried (recount_ballots m digest (rc_ctx r) (recount_by_leaf (rc_counted r))
                       (rc_opened r) pts);
    t ← expected (tally m ballots false);
    t ← tried (map_err (λ e, Unreadable (rule_error_text e)) t);
    rows ← tried (map_err Unreadable (question_results_to_value t.2));
    mret (t.1, rows)
  else
    totals ← recount_totals n pts;
    rows ← tried (map_err (λ e, Unreadable (rule_error_text e))
             (tallied_rows m (λ q o, match totals !! (q, o) with
                                     | Some c => Some c
                                     | None => if bool_decide (n = 0) then Some 0 else None
                                     end) n));
    mret (n, VArr rows).

(** The counted ballots and their totals, from the board alone. *)
Definition recount (m : Manifest) (digest : Hash) (s : AuditSteps)
    (verifier : BallotBox.BallotBox MemoryNullifiers) (rv : BallotBox.Revote)
    (entries : list Value) (b : Board) : attempt AuditFailure (Z * Value) :=
  r ← tried (recount_new m s);
  r ← recount_all m digest verifier rv r 0 entries b;
  _ ← tried (match rc_owed r with Some (_, _, by_) => Err (owed_failure by_) | None => Ok () end);
  let none (d : Decryption Target) := match targets d with [] => true | _ => false end in
  round ← tried (ok_or (d ← rc_round r; if Ceremony.complete d || none d then Some d else None)
                   (ResultMismatch "the board holds no complete decryption"));
  _ ← tried (guard_err (negb (none round) && negb (rc_authorized r))
               (ResultMismatch "the community never authorized the decryption"));
  pts ← if none round then mret []
        else p ← expected (plaintexts round);
             tried (map_err (λ e, ResultMismatch (ceremony_error_text e)) p);
  recount_result m digest r pts.
End AuditEncrypted.
