(* ===== verification/BoardAudit.v ===== *)
(** * Certifying a whole board

    [vti-voting/src/audit.rs]: what a community or an auditor re-verifies from
    the manifest, the published parameters and the board's entries: the root
    and the checkpoints, the lifecycle's order, every cast, every tag's one
    count, the result and the number of tickets. *)

From S2P Require Import Prelude Json Election Board BallotBox Rules Tally Group Trustees Ceremony.
From S2P Require Import Wire Steps Host AuditEncrypted.

(** A board head: its size and root. *)
Record HeadRef := mk_head_ref { hr_tree_size : Z; hr_root : Hash }.

Section Audit.
Context `{Sha256, PCS, Multibase, Jcs, ManifestWire, ResultWire, Dalek, Sha512, Random, Aead}.
Context `{StepTasks, Chrono, Serde, HashOrder, !Tasks}.

(** From a [BoardHead] as the wire carries it. *)
Definition head_from_wire (head : Value) : aresult HeadRef :=
  n ← ok_or (as_u64 (json_index head "treeSize")) (Unreadable "a head without treeSize");
  root ← ok_or (as_str (json_index head "rootHash") ≫= digest_from_multibase)
           (Unreadable "a head without a rootHash");
  Ok (mk_head_ref n root).

(** Everything a certification checks, as received. *)
Record Evidence := mk_evidence {
  ev_manifest : Value;
  ev_params : VotingParams;
  ev_entries : list Value;
  ev_head : HeadRef;
  ev_checkpoints : list HeadRef;
  ev_result : Value;
  ev_tickets_issued : Z;
  ev_proven : ProvenRequests;
}.

Record Verified := mk_verified { v_ballots_counted : Z; v_questions : Value }.

(** ** The lifecycle's order *)

Definition occurred_at (e : Value) : option Z :=
  as_str (json_index e "occurredAt") ≫= rfc3339_parse.

(** The entry's instant is missing, unreadable or before [t]. *)
Definition before (e : Value) (t : Z) : bool :=
  match occurred_at e with Some u => u <? t | None => true end.

Record Order := mk_order {
  o_opened : bool; o_key : bool; o_closing : bool; o_authorized : bool; o_result : option nat;
}.
Definition order_new : Order := mk_order false false false false None.

(** One entry of [check_order]'s loop, the [i]-th. *)
Definition order_entry (m : Manifest) (i : nat) (o : Order) (e : Value) : aresult Order :=
  let bad reason : aresult Order := Err (OrderInvalid (Z.of_nat i) reason) in
  if bool_decide (is_Some (o_result o)) then bad "an entry after the result"
  else
    match v0_1_lifecycle_entry (Z.of_nat i) e with
    | Some why => Err (Unreadable why)
    | None =>
        match as_str (json_index e "kind") with
        | None => Ok o
        | Some k =>
            if String.eqb k KIND && o_key o then bad "a trustee step after the election key"
            else if String.eqb k "electionKey" then
              if o_key o || o_opened o then bad "the election key after voting opened, or twice"
              else Ok (mk_order (o_opened o) true (o_closing o) (o_authorized o) (o_result o))
            else if String.eqb k "opened" then
              if o_opened o || o_closing o then bad "voting opened twice, or after it ended"
              else if before e (voting_opens_at m) then bad "voting opened before votingOpensAt"
              else Ok (mk_order true (o_key o) (o_closing o) (o_authorized o) (o_result o))
            else if String.eqb k "cast" || String.eqb k "encryptedCast" then
              if negb (o_opened o) || o_closing o then bad "a cast outside the voting window"
              else Ok o
            else if String.eqb k "closed" || String.eqb k "closedEarly" || String.eqb k "cancelled"
            then
              if o_closing o then bad "the election ended twice"
              else if String.eqb k "closedEarly" && negb (allow_early_close m) then
                bad "closed early where the manifest allows no early close"
              else if String.eqb k "closed" && before e (voting_closes_at m) then
                bad "closed before votingClosesAt"
              else if negb (String.eqb k "cancelled") && negb (o_opened o) then
                bad "closed before it opened"
              else Ok (mk_order (o_opened o) (o_key o) true (o_authorized o) (o_result o))
            else if String.eqb k "decryptionAuthorized" then
              if negb (o_closing o) || o_authorized o then
                bad "a decryption authorized before the close, or twice"
              else Ok (mk_order (o_opened o) (o_key o) (o_closing o) true (o_result o))
            else if String.eqb k "partials" || String.eqb k "unsealed" || String.eqb k "spoiled"
            then
              if negb (o_authorized o) then bad "a decryption the community did not authorize"
              else Ok o
            else if String.eqb k "result" then
              if negb (o_closing o) then bad "a result before the close"
              else Ok (mk_order (o_opened o) (o_key o) (o_closing o) (o_authorized o) (Some i))
            else Ok o
        end
    end.

Fixpoint order_from (m : Manifest) (i : nat) (o : Order) (entries : list Value) : aresult Order :=
  match entries with
  | [] => Ok o
  | e :: rest => o ← order_entry m i o e; order_from m (S i) o rest
  end.

(** The board is the election's lifecycle in order; the index of its one
    [result] entry. *)
Definition check_order (m : Manifest) (entries : list Value) : aresult nat :=
  o ← order_from m 0 order_new entries;
  ok_or (o_result o) (ResultMismatch "the board records no result").

(** ** The result *)

(** Rows by question; [None] where one has no name. *)
Definition rows_by_question (v : Value) : option (gmap string Value) :=
  l ← as_array v;
  ps ← mapM (λ q, k ← as_str (json_index q "question"); Some (k, q)) l;
  Some (fold_left (λ m '(k, q), <[k := q]> m) ps ∅).

(** Totals compared as values, question by question, in any order. *)
Definition same_questions (a b : Value) : bool :=
  let rows v := match as_array v with Some l => length l | None => 0%nat end in
  if bool_decide (rows a ≠ rows b) then false
  else match rows_by_question a, rows_by_question b with
       | Some x, Some y => bool_decide (x = y)
       | _, _ => false
       end.

(** [issuedAt] removed from an object's head. *)
Definition strip (v : Value) : Value :=
  match v with
  | VObj ms =>
      VObj ((λ '(k, x),
        (k, if String.eqb k "head"
            then match x with VObj hs => VObj (filter (λ h, h.1 ≠ "issuedAt") hs) | _ => x end
            else x)) <$> ms)
  | _ => v
  end.

(** The same result, whatever the time its head was read at. *)
Definition same_result (a b : Value) : bool := bool_decide (strip a = strip b).

(** A digest of a result, for the audit row. *)
Definition result_digest (r : Value) : aresult string :=
  b ← canonical r; Ok (digest_multibase (sha256 b)).

(** Checks 5 and 6, on the totals the board gives. *)
Definition finish (e : Evidence) (b : Board) (digest : Hash) (n : Z) (qs : Value)
    (result_entry : option Value) (result_index : nat) : aresult Verified :=
  let published := ev_result e in
  _ ← guard_err (bool_decide (as_u64 (json_index published "ballotsCounted") ≠ Some n))
        (ResultMismatch ("it counts " +:+ json_display (json_index published "ballotsCounted")
                         +:+ ", the board " +:+ pretty n));
  _ ← guard_err (negb (same_questions (json_index published "questions") qs))
        (ResultMismatch "the totals differ from the counted ballots'");
  _ ← guard_err (bool_decide ((as_str (json_index published "manifestDigest") ≫= digest_from_multibase)
                              ≠ Some digest))
        (ResultMismatch "it names another manifest");
  at_ ← head_from_wire (json_index published "head");
  _ ← guard_err (bool_decide (hr_tree_size at_ ≠ Z.of_nat result_index)
                 || bool_decide (ok (board_root b result_index) ≠ Some (hr_root at_)))
        (ResultMismatch "its head is not the board the result was published on");
  _ ← match result_entry with
      | Some entry => guard_err (negb (same_result (json_index entry "result") published))
                        (ResultMismatch "it is not the result the board records")
      | None => Ok ()
      end;
  _ ← guard_err (ev_tickets_issued e <? n) (CountExceedsTickets n (ev_tickets_issued e));
  Ok (mk_verified n qs).

(** ** The open board's casts *)

(** The counted casts and a later cast still owed its [replaced] entry. *)
Record Counting := mk_counting {
  ct_counted : gmap string (Z * Ballot);
  ct_owed : option (string * Z * Z);
}.

(** A cast, re-admitted. *)
Definition audit_cast (m : Manifest) (digest : Hash) (verifier : BallotBox.BallotBox MemoryNullifiers)
    (rv : BallotBox.Revote) (c : Counting) (index : Z) (entry : Value) : aresult Counting :=
  _ ← match ct_owed c with Some (_, _, by_) => Err (owed_failure by_) | None => Ok () end;
  let cast_value := json_index entry "cast" in
  wire ← map_err (λ e, CastInvalid index ("unreadable: " +:+ e)) (parse_wire_cast cast_value);
  _ ← map_err (λ e, CastInvalid index (rule_error_text e)) (check_ballot m digest (wc_ballot wire));
  att ← map_err (λ e, CastInvalid index ("attestation: " +:+ e))
          (dec_attestation (wc_attestation wire));
  ballot ← canonical (json_index cast_value "ballot");
  tag ← map_err (λ e, CastInvalid index (voting_error_text e))
          (verify verifier (mk_cast att) ballot);
  _ ← guard_err (bool_decide (tag ≠ wc_tag wire))
        (CastInvalid index "the tag is not the attestation's");
  let counted := <[tag := (index, wc_ballot wire)]> (ct_counted c) in
  match ct_counted c !! tag with
  | None => Ok (mk_counting counted (ct_owed c))
  | Some (earlier, held) =>
      _ ← guard_err (bool_decide (rv = BallotBox.Refuse)) (TagRepeated index);
      held_bytes ← canonical (unwrap_or (ballot_to_value held) VNull);
      ballot_bytes ← canonical (json_index cast_value "ballot");
      _ ← guard_err (bool_decide (held_bytes = ballot_bytes))
            (ReplacementInvalid index "a replacement must carry another ballot");
      Ok (mk_counting counted (Some (tag, earlier, index)))
  end.

(** One entry of the audit's loop. *)
Definition audit_entry (m : Manifest) (digest : Hash) (verifier : BallotBox.BallotBox MemoryNullifiers)
    (rv : BallotBox.Revote) (c : Counting) (index : Z) (entry : Value) : aresult Counting :=
  match as_str (json_index entry "kind") with
  | None => Ok c
  | Some k =>
      if String.eqb k "cast" then audit_cast m digest verifier rv c index entry
      else if String.eqb k "replaced" then
        _ ← check_replaced (ct_owed c) index entry;
        Ok (mk_counting (ct_counted c) None)
      else Ok c
  end.

Fixpoint audit_entries (m : Manifest) (digest : Hash)
    (verifier : BallotBox.BallotBox MemoryNullifiers) (rv : BallotBox.Revote)
    (c : Counting) (index : Z) (entries : list Value) : aresult Counting :=
  match entries with
  | [] => Ok c
  | e :: rest =>
      c ← audit_entry m digest verifier rv c index e;
      audit_entries m digest verifier rv c (index + 1) rest
  end.

(** ** The whole *)

Definition unreadable_rule {A} (r : result RuleError A) : aresult A :=
  map_err (λ e, Unreadable (rule_error_text e)) r.
Definition unreadable_voting {A} (r : result VotingError A) : aresult A :=
  map_err (λ e, Unreadable (voting_error_text e)) r.

(** The manifest, its digest and the election it and [c] make. *)
Definition read_manifest (manifest : Value) (c : string) : aresult (Manifest * Hash * Election) :=
  _ ← unreadable_rule (require_current_manifest manifest);
  m ← map_err (λ e, Unreadable ("manifest: " +:+ e)) (manifest_from_value manifest);
  digest ← unreadable_rule (manifest_digest manifest);
  i ← unreadable_voting (election_id_new (election_id m));
  el ← unreadable_voting (election_new c i digest);
  Ok (m, digest, el).

Definition audit_revote (m : Manifest) : BallotBox.Revote :=
  if bool_decide (revote m = RevoteReplace) then BallotBox.Replace else BallotBox.Refuse.

(** The board of the entries' canonical bytes. *)
Definition audit_board (entries : list Value) : aresult Board :=
  try_fold (λ b entry, bytes ← canonical entry; Ok (board_append b bytes).2) board_new entries.

Definition audit_checkpoint (b : Board) (c : HeadRef) : aresult unit :=
  guard_err (bool_decide (ok (board_root b (Z.to_nat (hr_tree_size c))) ≠ Some (hr_root c)))
    (CheckpointInconsistent (hr_tree_size c)).

(** Run every check. *)
Definition audit (e : Evidence) : attempt AuditFailure Verified :=
  x ← tried (read_manifest (ev_manifest e) (vp_community (ev_params e)));
  let '(m, digest, el) := x in
  b ← tried (audit_board (ev_entries e));
  _ ← tried (guard_err (bool_decide (Z.of_nat (board_len b) ≠ hr_tree_size (ev_head e))
                        || bool_decide (ok (board_root b (board_len b)) ≠ Some (hr_root (ev_head e))))
               RootMismatch);
  _ ← tried (try_map (audit_checkpoint b) (ev_checkpoints e));
  result_index ← tried (check_order m (ev_entries e));
  result_entry ← expected (ev_entries e !! result_index);
  let rv := audit_revote m in
  verifier ← tried (unreadable_voting (ballot_box_new (ev_params e) el rv (mk_nullifiers ∅)));
  match trustees m with
  | Some _ =>
      r ← recount m digest
            (mk_audit_steps (vp_community (ev_params e)) (trustee_context el) (ev_proven e))
            verifier rv (ev_entries e) b;
      tried (finish e b digest r.1 r.2 (Some result_entry) result_index)
  | None =>
      c ← tried (audit_entries m digest verifier rv (mk_counting ∅ None) 0 (ev_entries e));
      _ ← tried (match ct_owed c with Some (_, _, by_) => Err (owed_failure by_) | None => Ok () end);
      t ← expected (tally m (snd <$> hash_values (ct_counted c)) false);
      t ← tried (unreadable_rule t);
      qs ← tried (map_err Unreadable (question_results_to_value t.2));
      tried (finish e b digest t.1 qs (Some result_entry) result_index)
  end.

(** The decryption a closed sealed or tallied-encrypted board calls for. *)
Definition audit_decryption (manifest : Value) (params : VotingParams) (entries : list Value)
    (proven : ProvenRequests) : attempt AuditFailure (option Closing) :=
  x ← tried (read_manifest manifest (vp_community params));
  let '(m, digest, el) := x in
  let rv := audit_revote m in
  b ← tried (audit_board entries);
  verifier ← tried (unreadable_voting (ballot_box_new params el rv (mk_nullifiers ∅)));
  closing m digest (mk_audit_steps (vp_community params) (trustee_context el) proven) verifier rv
    entries b.

(** The election key the board's ceremony formed. *)
Definition audit_election_key (manifest : Value) (c : string) (entries : list Value)
    (proven : ProvenRequests) : attempt AuditFailure (option Value) :=
  x ← tried (read_manifest manifest c);
  let '(m, _, el) := x in
  formed_key m (mk_audit_steps c (trustee_context el) proven) entries.
End Audit.
