(* ===== verification/Service.v ===== *)
(** * The ballot box

    [BallotBox] of [vti-voting/src/service/mod.rs] and the trustees' and
    encrypted casts' handlers of [service/encrypted.rs]: every task as a
    computation over the elections held. Each handler parses its payload,
    finds the election, advances its clock and acts. *)

From S2P Require Import Prelude Json Election Board BallotBox Rules Tally Group Trustees Ceremony.
From S2P Require Import Wire Steps Host AuditEncrypted Record.

Section Service.
Context `{Sha256, PCS, Multibase, Jcs, ManifestWire, ResultWire, Dalek, Sha512, Random, Aead}.
Context `{StepTasks, Journal, OsRng, Chrono, Serde, HashOrder, !Tasks}.

(** ** Pages *)

Definition READ_PAGE_BYTES : Z := 256 * 1024.

(** The loop of [page_end] from [(end, bytes)], [fuel] turns at most: each
    turn passes one entry, so [last - from] are enough. *)
Fixpoint page_loop (entries : list bytes) (from last budget : Z) (fuel : nat) (size end_ : Z)
  : option Z :=
  match fuel with
  | O => Some end_
  | S fuel' =>
      if end_ <? last then
        b ← entries !! Z.to_nat end_;
        let len := Z.of_nat (length b) in
        if (from <? end_) && (budget <? size + len) then Some end_
        else page_loop entries from last budget fuel' (size + len) (end_ + 1)
      else Some end_
  end.

(** Where a page from [from] ends; [None] is an entry out of range. *)
Definition page_end (entries : list bytes) (from last budget : Z) : option Z :=
  page_loop entries from last budget (Z.to_nat (last - from)) 0 from.

(** ** State *)

Record Service := mk_service {
  sv_did : string;
  sv_elections : gmap (string * string) ElectionRecord;
}.

Definition service_new (did : string) : Service := mk_service did ∅.

Definition set_election (k : string * string) (e : ElectionRecord) (s : Service) : Service :=
  mk_service (sv_did s) (<[k := e]> (sv_elections s)).

Abbreviation BM := (M (Service * World)).
Abbreviation EM := (M (ElectionRecord * World)).

(** A computation on the election held under a key. *)
Definition on_election {A} (k : string * string) (m : EM A) : BM A := λ '(s, w),
  match sv_elections s !! k with
  | None => Some (Err f_unknown, (s, w))
  | Some e =>
      match m (e, w) with
      | None => None
      | Some (r, (e', w')) => Some (r, (set_election k e' s, w'))
      end
  end.

(** [BallotBox::election]: the election, its clock advanced first. *)
Definition election {A} (c i : string) (now : Z) (m : EM A) : BM A :=
  on_election (c, i) (_ ← advance now; m).

(** Whether an election is registered here. *)
Definition holds (s : Service) (c i : string) : bool :=
  bool_decide (is_Some (sv_elections s !! (c, i))).

(** How many of a community's elections are neither tallied nor cancelled. *)
Definition unfinished (s : Service) (c : string) : nat :=
  size (filter (λ x, x.1.1 = c ∧ er_state x.2 ≠ Tallied ∧ er_state x.2 ≠ Cancelled)
          (sv_elections s)).

(** ** Registering *)

Definition malformed_voting {A} (r : result VotingError A) : result Failure A :=
  map_err (λ e, f_malformed (voting_error_text e)) r.

Definition build_record (manifest_value parameters : Value) : result Failure ElectionRecord :=
  _ ← map_err (λ e, f_malformed (rule_error_text e)) (require_current_manifest manifest_value);
  m ← parse (manifest_from_value manifest_value);
  voting_key ← parse (parse_parameters parameters);
  let c := community m in
  digest ← rule_err (manifest_digest manifest_value);
  hvk ← map_err (λ e, f_malformed ("votingKey: " +:+ e)) (dec_hvk voting_key);
  params ← malformed_voting (voting_params_new c hvk);
  i ← malformed_voting (election_id_new (election_id m));
  el ← malformed_voting (election_new c i digest);
  let cx := trustee_context el in
  ceremony ← match trustees m with
             | Some t =>
                 th ← wire_failure (threshold_new (default 0 (u32_try_from (t_threshold t)))
                        (default 0 (u32_try_from (Z.of_nat (length (t_dids t))))));
                 Ok (Some (ceremony_new th cx))
             | None => Ok None
             end;
  let rv := match revote m with
            | RevoteReplace => BallotBox.Replace
            | RevoteRefuse => BallotBox.Refuse
            end in
  verifier ← malformed_voting (ballot_box_new params el rv (mk_nullifiers ∅));
  Ok (mk_er c m manifest_value digest parameters verifier Registered board_new [] ∅ ∅ ∅ ∅ [] None
        None ∅ cx ceremony None None).

(** A response carrying an election's summary. *)
Definition summary_answer (task : string) (now : Z) : EM Value :=
  e ← self;
  v ← expect (summary e now);
  try (respond task (mk_obj {[ "election" := v ]})).

(** Insert a record built apart from the ballot box, run on its own. *)
Definition on_new_record {A} (k : string * string) (e : ElectionRecord) (m : EM unit) (m' : EM A)
  : BM A := λ '(s, w),
  match m (e, w) with
  | None => None
  | Some (Err f, (_, w')) => Some (Err f, (s, w'))
  | Some (Ok _, (e', w')) =>
      match m' (e', w') with
      | None => None
      | Some (r, (_, w'')) => Some (r, (set_election k e' s, w''))
      end
  end.

(** [register_at]. *)
Definition register_at (version : ElectionVersion) (signer : string) (payload : Value) (now : Z)
  : BM Value :=
  _ ← try (match version with
           | V0_2 => parse (validate_register_v0_2 payload)
           | V0_3 => parse (validate_register_v0_3 payload)
           | V0_4 => Ok ()
           end);
  p ← try (parse (parse_register payload));
  let c := rg_community p in
  _ ← refuse_if (bool_decide (signer ≠ c) || bool_decide (community (rg_manifest p) ≠ c)) f_denied;
  let manifest_value := json_index payload "manifest" in
  digest ← try (rule_err (manifest_digest manifest_value));
  _ ← refuse_if (bool_decide (digest_from_multibase (rg_manifest_digest p) ≠ Some digest))
        (rule_failure ManifestMismatch);
  did ← gets (λ x, sv_did x.1);
  _ ← try (rule_err (check_manifest (rg_manifest p) (Some did)));
  let parameters := json_index payload "parameters" in
  let k := (c, election_id (rg_manifest p)) in
  existing ← gets (λ x, sv_elections x.1 !! k);
  match existing with
  | Some e =>
      if bool_decide (er_digest e = digest) && bool_decide (er_parameters e = parameters) then
        on_election k (_ ← advance now; summary_answer "register" now)
      else fail (f_task "alreadyRegistered"
                   "this election is registered with another manifest or key (VTI-VOT-013)")
  | None =>
      record ← try (build_record manifest_value parameters);
      _ ← on_journal (journal_election c k.2 (mk_stored manifest_value parameters));
      on_new_record k record (advance now) (summary_answer "register" now)
  end.

Definition register (signer : string) (payload : Value) (now : Z) : BM Value :=
  register_at V0_4 signer payload now.

(** [BallotBox::restore]: each election rebuilt and its board replayed. *)
Definition restore_one (utc_now : Z) (r : Restored) : BM unit :=
  match re_election r with
  | None => mret ()
  | Some stored =>
      record ← try (build_record (st_manifest stored) (st_parameters stored));
      on_new_record (er_key record) record
        (_ ← replay (re_entries r) (re_receipts r); resume utc_now) (mret ())
  end.

Definition restore (did : string) (utc_now : Z) (restored : list Restored) (w : World)
  : option (result Failure unit * (Service * World)) :=
  for_each restored (restore_one utc_now) (service_new did, w).

(** ** Showing, closing, cancelling *)

Definition named (task : string) (payload : Value) : result Failure (string * string) :=
  parse (parse_named task payload).

(** [show_at]. *)
Definition show_at (version : ElectionVersion) (caller : Caller) (payload : Value) (now : Z)
  : BM Value :=
  p ← try (named "show" payload);
  election p.1 p.2 now
    (e ← self;
     _ ← refuse_if (negb (readable_by e caller || is_trustee e caller)) f_unknown;
     _ ← refuse_if (bool_decide (roll_rule (roll (er_manifest e)) = CredentialRoll)
                    && negb (carries_credential_roll version))
           (f_std "unsupportedVersion"
              ("this election's roll is the holders of a membership credential, which "
               +:+ "voting/election/show/" +:+ version_text version
               +:+ " cannot carry; read it with voting/election/show/0.4"));
     _ ← refuse_if (text_release_threshold (er_manifest e) <? least_text_release_threshold version)
           (f_std "unsupportedVersion"
              ("this election releases written answers after fewer than 10 ballots, which "
               +:+ "voting/election/show/0.2 cannot carry; read it with voting/election/show/0.3"));
     v ← expect (summary e now);
     try (respond "show" (mk_obj {[ "election" := v; "manifest" := er_manifest_value e ]}))).

Definition show (caller : Caller) (payload : Value) (now : Z) : BM Value :=
  show_at V0_4 caller payload now.

(** [BallotBox::close]: early close, where the manifest allows it. *)
Definition close_early (signer : string) (payload : Value) (now : Z) : BM Value :=
  p ← try (named "close" payload);
  _ ← refuse_if (bool_decide (signer ≠ p.1)) f_denied;
  election p.1 p.2 now
    (e ← self;
     _ ← refuse_if (bool_decide (er_state e ≠ Voting)) (f_task "notOpen" "voting is not open");
     _ ← refuse_if (negb (allow_early_close (er_manifest e)))
           (f_task "earlyCloseNotAllowed" "the manifest does not allow closing early");
     _ ← Record.close "closedEarly" now;
     summary_answer "close" now).

(** [BallotBox::cancel]: before the election closes. *)
Definition cancel (signer : string) (payload : Value) (now : Z) : BM Value :=
  p ← try (named "cancel" payload);
  _ ← refuse_if (bool_decide (signer ≠ p.1)) f_denied;
  election p.1 p.2 now
    (e ← self;
     _ ← refuse_if (state_rank Closed <=? state_rank (er_state e))
           (f_task "notOpen" "the election has closed or was cancelled");
     _ ← append (mk_obj {[ "kind" := VStr "cancelled"; "occurredAt" := VStr (time now) ]});
     _ ← update (set_state Cancelled);
     summary_answer "cancel" now).

(** ** Casting *)

(** A cast's receipt: the answer the host signs. *)
Definition receipt (task : string) (a : AdmittedCast) (outcome : string) (now : Z) : EM Value :=
  e ← self;
  leaf ← expect (board_leaf (er_board e) (Z.to_nat (ad_leaf a)));
  head ← expect (er_head e (board_len (er_board e)) now);
  try (respond task (mk_obj {[ "electionId" := VStr (er_id e); "outcome" := VStr outcome;
                               "leafIndex" := VNum (ad_leaf a);
                               "entryHash" := VStr (digest_multibase leaf);
                               "head" := head; "receiptToken" := VStr (ad_token a) ]})).

(** Whether a proof run apart from the ballot box covers this cast. *)
Definition covered (verified : option VerifiedCast) (k : string * string) (digest : Hash) : bool :=
  match verified with Some v => covers v k digest | None => false end.

(** The part of admission the two cast handlers share: the receipt token and
    the cast's entry journalled, and the [replaced] entry where a cast is
    counted under the tag already. *)
Definition admit_cast (kind : string) (cast_value : Value) (ballot_digest : Hash) (tag : string)
    (held : option AdmittedCast) : EM (AdmittedCast * string) :=
  token ← fill_bytes;
  let receipt_token := multibase_encode (vec_to_list token) in
  e ← self;
  _ ← on_journal (journal_receipt (er_community e) (er_id e) (Z.of_nat (board_len (er_board e)))
                    receipt_token);
  leaf ← append (mk_obj {[ "kind" := VStr kind; "cast" := cast_value ]});
  let admitted := mk_admitted leaf ballot_digest receipt_token in
  match held with
  | Some prev =>
      _ ← append (mk_obj {[ "kind" := VStr "replaced"; "tag" := VStr tag;
                            "replaces" := VNum (ad_leaf prev); "by" := VNum leaf ]});
      mret (admitted, "replaced")
  | None => mret (admitted, "counted")
  end.

(** The costly checks of an open cast. *)
Definition open_check (e : ElectionRecord) (cast_digest : Hash) (ballot_jcs : bytes) (att : Cast)
  : CastCheck :=
  mk_cast_check (er_key e) cast_digest (er_verifier e) att ballot_jcs true None.

Definition cast_check (payload : Value) (now : Z) : BM (option CastCheck) :=
  p ← try (parse (parse_cast payload));
  election (p_community p) (p_election p) now
    (e ← self;
     o ← try (open_cast e p payload);
     mret (match o with
           | Resend _ => None
           | NewCast cd _ bj _ _ att => Some (open_check e cd bj att)
           end)).

(** The election's part of [cast_with], after its clock advanced. *)
Definition cast_election (p : CastPayload) (payload : Value) (verified : option VerifiedCast)
    (now : Z) : EM Value :=
  e ← self;
  o ← try (open_cast e p payload);
  match o with
  | Resend a => receipt "cast" a "alreadyCounted" now
  | NewCast cast_digest ballot_digest ballot_jcs tag held att =>
      _ ← (if covered verified (er_key e) cast_digest then mret ()
           else _ ← try (cast_check_run (open_check e cast_digest ballot_jcs att)); mret ());
      match held with
      | Some a =>
          if bool_decide (ad_digest a = ballot_digest) then receipt "cast" a "alreadyCounted" now
          else
            r ← admit_cast "cast" (json_index payload "cast") ballot_digest tag held;
            _ ← update (λ e, set_exact (<[cast_digest := r.1]> (er_exact e)) e);
            _ ← update (λ e, set_counted (<[tag := (r.1, wc_ballot (p_cast p))]> (er_counted e)) e);
            receipt "cast" r.1 r.2 now
      | None =>
          r ← admit_cast "cast" (json_index payload "cast") ballot_digest tag held;
          _ ← update (λ e, set_exact (<[cast_digest := r.1]> (er_exact e)) e);
          _ ← update (λ e, set_counted (<[tag := (r.1, wc_ballot (p_cast p))]> (er_counted e)) e);
          receipt "cast" r.1 r.2 now
      end
  end.

Definition cast_with (payload : Value) (verified : option VerifiedCast) (now : Z) : BM Value :=
  p ← try (parse (parse_cast payload));
  election (p_community p) (p_election p) now (cast_election p payload verified now).

Definition cast (payload : Value) (now : Z) : BM Value := cast_with payload None now.
Definition cast_verified (payload : Value) (verified : VerifiedCast) (now : Z) : BM Value :=
  cast_with payload (Some verified) now.

(** ** Reading the board *)

Definition board_head (caller : Caller) (payload : Value) (now : Z) : BM Value :=
  p ← try (named "head" payload);
  election p.1 p.2 now
    (e ← self;
     _ ← refuse_if (negb (readable_by e caller)) f_unknown;
     head ← expect (er_head e (board_len (er_board e)) now);
     try (respond "head" (mk_obj {[ "head" := head ]}))).

(** One entry of a page, as the wire has it. *)
Definition page_entry (entries : list bytes) (i : Z) : option Value :=
  b ← entries !! Z.to_nat i;
  v ← ok (from_slice b);
  Some (mk_obj {[ "index" := VNum i; "entry" := v ]}).

Definition board_read (caller : Caller) (payload : Value) (now : Z) : BM Value :=
  p ← try (parse (parse_read payload));
  election (rd_community p) (rd_election p) now
    (e ← self;
     _ ← refuse_if (negb (readable_by e caller)) f_unknown;
     let len := Z.of_nat (board_len (er_board e)) in
     let size := default len (rd_tree_size p) in
     _ ← refuse_if ((len <? size) || (size <? rd_from p)) (f_task "outOfRange" "beyond the board");
     let last := Z.min size (Z.min u64_max (rd_from p + rd_limit p)) in
     end_ ← expect (page_end (er_entries e) (rd_from p) last READ_PAGE_BYTES);
     entries ← expect (mapM (page_entry (er_entries e)) (seqZ (rd_from p) (end_ - rd_from p)));
     let answer : gmap string Value := {[ "treeSize" := VNum size; "entries" := VArr entries ]} in
     try (respond "read"
            (mk_obj (if end_ <? size then <["next" := VNum end_]> answer else answer)))).

(** On a private board, the receipt token admits exactly its leaf. *)
Definition by_receipt (e : ElectionRecord) (leaf : Z) (token : option string) : bool :=
  match token with
  | Some t =>
      existsb (λ a, bool_decide (ad_leaf a = leaf) && same (ad_token a) t)
        (map_to_list (er_exact e)).*2
  | None => false
  end.

Definition hash_values_json (l : list Hash) : Value := VArr ((λ h, VStr (digest_multibase h)) <$> l).

Definition board_inclusion (caller : Caller) (payload : Value) (now : Z) : BM Value :=
  p ← try (parse (parse_inclusion payload));
  election (in_community p) (in_election p) now
    (e ← self;
     _ ← refuse_if (negb (readable_by e caller || by_receipt e (in_leaf_index p) (in_receipt_token p)))
           f_unknown;
     let index := Z.to_nat (in_leaf_index p) in
     let size := Z.to_nat (in_tree_size p) in
     path ← try (map_err (λ err, f_task "outOfRange" (board_error_text err))
                   (inclusion_proof (er_board e) index size));
     leaf ← expect (board_leaf (er_board e) index);
     try (respond "inclusion"
            (mk_obj {[ "leafIndex" := VNum (in_leaf_index p); "treeSize" := VNum (in_tree_size p);
                       "entryHash" := VStr (digest_multibase leaf);
                       "path" := hash_values_json path ]}))).

Definition board_consistency (caller : Caller) (payload : Value) (now : Z) : BM Value :=
  p ← try (parse (parse_consistency payload));
  election (cn_community p) (cn_election p) now
    (e ← self;
     _ ← refuse_if (negb (readable_by e caller)) f_unknown;
     path ← try (map_err (λ err, f_task "outOfRange" (board_error_text err))
                   (consistency_proof (er_board e) (Z.to_nat (cn_first_size p))
                      (Z.to_nat (cn_second_size p))));
     try (respond "consistency"
            (mk_obj {[ "firstSize" := VNum (cn_first_size p);
                       "secondSize" := VNum (cn_second_size p);
                       "path" := hash_values_json path ]}))).

(** The result once tallied, or running totals where the manifest allows. *)
Definition result_show (caller : Caller) (payload : Value) (now : Z) : BM Value :=
  p ← try (named "result" payload);
  election p.1 p.2 now
    (e ← self;
     _ ← refuse_if (negb (readable_by e caller)) f_unknown;
     r ← match er_result e, er_state e with
         | Some r, Tallied => mret (r, false)
         | _, Voting =>
             if results_before_close (er_manifest e) then
               r ← try_or_panic (tally_now e true now); mret (r, true)
             else fail (f_task "notTallied" "no result yet")
         | _, _ => fail (f_task "notTallied" "no result yet")
         end;
     try (respond "result"
            (mk_obj {[ "result" := r.1; "provisional" := VBool r.2;
                       "state" := VStr (state_wire (er_state e)) ]}))).
End Service.

(** ** Pages, proved *)

(** The bytes of the entries from [from] up to [e]. *)
Definition bytes_between (entries : list bytes) (from e : Z) : Z :=
  Z.of_nat (sum_list_with length (take (Z.to_nat (e - from)) (drop (Z.to_nat from) entries))).

Lemma bytes_between_succ entries from e b :
  0 ≤ from ≤ e → entries !! Z.to_nat e = Some b →
  bytes_between entries from (e + 1) = bytes_between entries from e + Z.of_nat (length b).
Proof.
  intros Hf Hb. unfold bytes_between.
  replace (Z.to_nat (e + 1 - from)) with (S (Z.to_nat (e - from))) by lia.
  rewrite (take_S_r _ _ b); [rewrite sum_list_with_app; simpl; lia|].
  rewrite lookup_drop. by replace (Z.to_nat from + Z.to_nat (e - from))%nat with (Z.to_nat e) by lia.
Qed.

(** What a page is: within its bounds, one entry at least, within the budget
    unless it is one entry, and no shorter than the budget makes it. *)
Record is_page (entries : list bytes) (from last budget e : Z) : Prop := {
  page_within : from ≤ e ≤ last;
  page_progress : from < last → from < e;
  page_fits : e ≤ from + 1 ∨ bytes_between entries from e ≤ budget;
  page_full : e < last → budget < bytes_between entries from (e + 1);
}.

Lemma page_loop_spec entries from last budget fuel e :
  0 ≤ from ≤ e → e ≤ last ≤ Z.of_nat (length entries) → last - e ≤ Z.of_nat fuel →
  e ≤ from + 1 ∨ bytes_between entries from e ≤ budget →
  ∃ e', page_loop entries from last budget fuel (bytes_between entries from e) e = Some e'
        ∧ is_page entries from last budget e'.
Proof.
  revert e. induction fuel as [|fuel IH]; intros e Hf Hl Hfuel Hfit; simpl.
  { exists e. split; [done|]. split; [lia|lia|done|lia]. }
  destruct (Z.ltb_spec e last) as [Hlt|]; [|exists e; split; [done|split; [lia|lia|done|lia]]].
  destruct (lookup_lt_is_Some_2 entries (Z.to_nat e)) as [b Hb]; [lia|]. rewrite Hb. simpl.
  pose proof (bytes_between_succ _ from e b ltac:(lia) Hb) as Hsucc.
  destruct ((from <? e) && (budget <? bytes_between entries from e + Z.of_nat (length b))) eqn:Hstop.
  - apply andb_true_iff in Hstop as [?%Z.ltb_lt ?%Z.ltb_lt]. exists e.
    split; [done|]. split; [lia|lia|done|]. intros _. by rewrite Hsucc.
  - rewrite <- Hsucc. apply IH; [lia|lia|lia|].
    apply andb_false_iff in Hstop as [?%Z.ltb_ge|?%Z.ltb_ge]; [left; lia|right; lia].
Qed.

(** A page always ends, within its budget and with progress. For a page
    of entries that exist, [page_end] never reads out of range, ends no
    further than asked, carries at least one entry when there is one, stays
    within the byte budget unless it is that one entry, and only stops short
    where the next entry would exceed the budget: a reader that follows
    [next] reads the whole board. *)
Theorem page_end_spec entries from last budget :
  0 ≤ from ≤ last → last ≤ Z.of_nat (length entries) →
  ∃ e, page_end entries from last budget = Some e ∧ is_page entries from last budget e.
Proof.
  intros Hf Hl. unfold page_end.
  assert (bytes_between entries from from = 0) as H0.
  { unfold bytes_between. by replace (from - from) with 0 by lia. }
  destruct (page_loop_spec entries from last budget (Z.to_nat (last - from)) from)
    as (e & He & Hp); [lia..|]. rewrite H0 in He. by exists e.
Qed.

Lemma page_end_spec_witness :
  ∃ e, page_end [[x00; x01]; [x02; x03]; [x04]] 0 3 4 = Some e
       ∧ is_page [[x00; x01]; [x02; x03]; [x04]] 0 3 4 e.
Proof. apply (page_end_spec [[x00; x01]; [x02; x03]; [x04]] 0 3 4); simpl; lia. Defined.
