(* ===== verification/ServiceEncrypted.v ===== *)
(** * The ballot box's encrypted levels

    The handlers of [vti-voting/src/service/encrypted.rs]: the trustees'
    tasks and the encrypted cast. A trustee's handler takes the whole signed
    request, whose payload is the task's. *)

From S2P Require Import Prelude Json Election Board BallotBox Rules Tally Group Trustees Ceremony.
From S2P Require Import Wire Steps Host AuditEncrypted Record Service.

Section ServiceEncrypted.
Context `{Sha256, PCS, Multibase, Jcs, ManifestWire, ResultWire, Dalek, Sha512, Random, Aead}.
Context `{StepTasks, Journal, OsRng, Chrono, Serde, HashOrder, !Tasks}.

Abbreviation BM := (M (Service * World)).
Abbreviation EM := (M (ElectionRecord * World)).

(** [Value::pointer] through object members. *)
Definition pointer (v : Value) (path : list string) : option Value :=
  fold_left (λ o k, o ≫= λ v, json_get v k) path (Some v).

(** [trustee_election]: the election a trustee's payload names, advanced, and
    the index the signer is the trustee of. *)
Definition trustee_election {A} (signer : string) (payload : Value) (index_field : list string)
    (now : Z) (m : Z → EM A) : BM A :=
  let c := default "" (as_str (json_index payload "community")) in
  let i := default "" (as_str (json_index payload "electionId")) in
  index ← try (svc_index (default VNull (pointer payload index_field)));
  election c i now
    (e ← self;
     _ ← try (require_trustee e signer index);
     m index).

Definition trustee_answer (task : string) (now : Z) : EM Value :=
  e ← self;
  v ← expect (summary e now);
  try (respond task (mk_obj {[ "election" := v; "phase" := VStr (trustee_phase e) ]})).

(** A step taken: appended as the request, if it was accepted as new. *)
Definition accepted (s : Step) : bool := match s with Accepted => true | Repeat => false end.

Definition trustees_enrol (signer : string) (request : Value) (now : Z) : BM Value :=
  let payload := json_index request "payload" in
  _ ← try (parse (parse_task "enrol" payload));
  trustee_election signer payload ["transportKey"; "trustee"] now (λ _,
    tk ← try (map_err (λ _, f_task "transportKeyInvalid" "the transport key does not decode")
                (transport_key (json_index payload "transportKey")));
    c ← ceremony_or "notEnrolling";
    s ← on_ceremony (Some (enrol c tk)) ceremony_failure;
    _ ← when (accepted s) (append_step request);
    trustee_answer "enrol" now).

Definition trustees_deal (signer : string) (request : Value) (now : Z) : BM Value :=
  let payload := json_index request "payload" in
  _ ← try (parse (parse_task "deal" payload));
  trustee_election signer payload ["dealing"; "dealer"] now (λ _,
    d ← try (map_err (λ e, f_task "dealingInvalid" (trustee_error_text e))
               (dealing (json_index payload "dealing")));
    c ← ceremony_or "notDealing";
    s ← on_ceremony (Some (deal_step c d)) ceremony_failure;
    _ ← when (accepted s) (append_step request);
    trustee_answer "deal" now).

Definition trustees_confirm (signer : string) (request : Value) (now : Z) : BM Value :=
  let payload := json_index request "payload" in
  _ ← try (parse (parse_task "confirm" payload));
  trustee_election signer payload ["trustee"] now (λ trustee,
    against ← try (match as_array (json_index payload "complaints") with
                   | None => Ok []
                   | Some a => try_map svc_index a
                   end);
    c ← ceremony_or "notConfirming";
    s ← on_ceremony (confirm c trustee (list_to_set against)) ceremony_failure;
    _ ← when (accepted s) (_ ← append_step request; key_entry_if_formed (phase c));
    trustee_answer "confirm" now).

Definition trustees_justify (signer : string) (request : Value) (now : Z) : BM Value :=
  let payload := json_index request "payload" in
  _ ← try (parse (parse_task "justify" payload));
  trustee_election signer payload ["dealer"] now (λ d,
    recipient ← try (svc_index (json_index payload "recipient"));
    share ← try (map_err (λ _, f_task "shareInvalid" "the share does not decode")
                   (scalar_from_text (default "" (as_str (json_index payload "share")))));
    c ← ceremony_or "notConfirming";
    s ← on_ceremony (justify c d recipient share) ceremony_failure;
    _ ← when (accepted s) (_ ← append_step request; key_entry_if_formed (phase c));
    trustee_answer "justify" now).

Definition partials_entry (trustee : Z) (parts : list (Target * Ciphertext * PartialDecryption)) : Value :=
  mk_obj {[ "kind" := VStr "partials"; "trustee" := VNum trustee;
            "partials" := VArr ((λ '(t, ct, p), partial_value t ct p) <$> parts) ]}.

Definition trustees_decrypt (signer : string) (request : Value) (now : Z) : BM Value :=
  let payload := json_index request "payload" in
  _ ← try (parse (parse_task "decrypt" payload));
  trustee_election signer payload ["trustee"] now (λ trustee,
    parts ← try (map_err (λ e, f_task "partialInvalid" (trustee_error_text e))
                   (try_map (λ p, partial p trustee)
                      (default [] (as_array (json_index payload "partials")))));
    e ← self;
    _ ← refuse_if (bool_decide (er_state e ≠ Closed))
          (f_task "notDecrypting" "voting has not closed, or the result is out");
    _ ← refuse_if (bool_decide (er_authorization e = None))
          (f_task "notDecrypting" "the community has not authorized the decryption");
    d ← try (ok_or (er_decryption e) (f_task "notDecrypting" "the election key never formed"));
    let '(r, d') := accept d trustee parts in
    _ ← update (set_decryption (Some d'));
    s ← try (map_err ceremony_failure r);
    _ ← when (accepted s)
          (_ ← append (partials_entry trustee parts); finish_if_decrypted now);
    trustee_answer "decrypt" now).

Definition complaint_value (k : Complaint) : Value :=
  let v : gmap string Value :=
    {[ "dealer" := VNum (c_dealer k); "recipient" := VNum (c_recipient k);
       "justified" := VBool (bool_decide (is_Some (c_justified k))) ]} in
  mk_obj (match c_justified k with
          | Some s => <["share" := VStr (scalar_text s)]> v
          | None => v
          end).

(** What a trustee reads of the ceremony. *)
Definition trustees_status (caller : Caller) (payload : Value) (now : Z) : BM Value :=
  p ← try (named "status" payload);
  election p.1 p.2 now
    (e ← self;
     _ ← refuse_if (negb (readable_by e caller || is_trustee e caller)) f_unknown;
     c ← try (ok_or (er_ceremony e) f_unknown);
     let '(ts, decrypted) :=
       match er_decryption e with
       | Some d =>
           (if bool_decide (er_state e = Closed)
            then (λ x, target_value x.1 x.2) <$> targets d else [],
            bt_keys (partials d))
       | None => ([], [])
       end in
     let answer : gmap string Value :=
       {[ "phase" := VStr (trustee_phase e);
          "threshold" := VNum (th_t (threshold c));
          "transportKeys" := VArr (transport_key_value <$> bt_values (transport c));
          "dealings" := VArr (dealing_value <$> bt_values (dealings c));
          "complaints" := VArr (complaint_value <$> complaints c);
          "confirmed" := VArr (VNum <$> bt_keys (confirmed c));
          "targets" := VArr ts;
          "decrypted" := VArr (VNum <$> decrypted) ]} in
     let answer := match Ceremony.key c with
                   | Some k => <["electionKey" := election_key_value k]> answer
                   | None => answer
                   end in
     let answer := match er_steps e with
                   | [] => answer
                   | l => <["steps" := VArr l]> answer
                   end in
     let answer := match er_authorization e with
                   | Some a => <["authorization" := a]> answer
                   | None => answer
                   end in
     try (respond "status" (mk_obj answer))).

(** Whether an authorization's payload pins the targets this board gives. *)
Definition authorizes (e : ElectionRecord) (closing_leaf : Z) (closed_at : string)
    (ts : list Value) (digest : string) (payload : Value) : bool :=
  let size := closing_leaf + 1 in
  let root := digest_multibase <$> ok (board_root (er_board e) (Z.to_nat size)) in
  let head := json_index payload "head" in
  bool_decide (as_str (json_index payload "manifestDigest") = Some (digest_multibase (er_digest e)))
  && bool_decide (as_u64 (json_index head "treeSize") = Some size)
  && bool_decide (as_str (json_index head "rootHash") = root)
  && bool_decide (as_str (json_index payload "closedAt") = Some closed_at)
  && bool_decide (as_u64 (json_index payload "targetCount") = Some (Z.of_nat (length ts)))
  && bool_decide (as_str (json_index payload "targetsDigest") = Some digest).

(** The community pins the decryption targets. *)
Definition trustees_authorize (signer : string) (request : Value) (now : Z) : BM Value :=
  let payload := json_index request "payload" in
  p ← try (named "authorize" payload);
  election p.1 p.2 now
    (e ← self;
     _ ← refuse_if (bool_decide (signer ≠ er_community e)) f_denied;
     cl ← try (ok_or (er_closing e) (f_task "notClosed" "voting has not closed"));
     d ← try (ok_or (er_decryption e)
                (f_task "notClosed" "not an encrypted election, or its key never formed"));
     match er_authorization e with
     | Some held =>
         if bool_decide (json_index held "payload" = payload) then trustee_answer "authorize" now
         else fail (f_task "alreadyAuthorized" "another set of targets is already authorized")
     | None =>
         let ts := (λ x, target_value x.1 x.2) <$> targets d in
         digest ← try (map_err (λ e, f_std "internalError" (audit_failure_text e)) (targets_digest ts));
         _ ← refuse_if (negb (authorizes e cl.1 cl.2 ts digest payload))
               (f_task "targetsMismatch"
                  "these are not the targets this board gives under its closing head");
         _ ← append (mk_obj {[ "kind" := VStr "decryptionAuthorized"; "request" := request ]});
         _ ← update (set_authorization (Some request));
         trustee_answer "authorize" now
     end).

(** ** The encrypted cast *)

Definition cast_encrypted_check (payload : Value) (now : Z) : BM (option CastCheck) :=
  p ← try (named "cast-encrypted" payload);
  election p.1 p.2 now
    (e ← self;
     o ← try (encrypted_cast e (json_index payload "cast"));
     mret (match o with EResend _ => None | ENewCast _ _ _ _ _ check => Some check end)).

(** Record an admitted encrypted cast. *)
Definition count_encrypted (cast_digest : Hash) (tag : string) (form : Encrypted) (a : AdmittedCast)
  : EM unit :=
  _ ← update (λ e, set_exact (<[cast_digest := a]> (er_exact e)) e);
  _ ← update (λ e, set_seen (fold_left (λ m k, <[k := tag]> m) (ciphertext_keys form) (er_seen e)) e);
  update (λ e, set_encrypted (<[tag := (a, form)]> (er_encrypted e)) e).

(** The election's part of [cast_encrypted_with], after its clock advanced. *)
Definition cast_encrypted_election (payload : Value) (verified : option VerifiedCast) (now : Z)
  : EM Value :=
  let cast_value := json_index payload "cast" in
  e ← self;
  o ← try (encrypted_cast e cast_value);
  match o with
  | EResend a => receipt "cast-encrypted" a "alreadyCounted" now
  | ENewCast cast_digest ballot_digest tag form held check =>
      _ ← (if covered verified (er_key e) cast_digest then mret ()
           else _ ← try (cast_check_run check); mret ());
      match held with
      | Some a =>
          if bool_decide (ad_digest a = ballot_digest)
          then receipt "cast-encrypted" a "alreadyCounted" now
          else
            r ← admit_cast "encryptedCast" cast_value ballot_digest tag held;
            _ ← count_encrypted cast_digest tag form r.1;
            receipt "cast-encrypted" r.1 r.2 now
      | None =>
          r ← admit_cast "encryptedCast" cast_value ballot_digest tag held;
          _ ← count_encrypted cast_digest tag form r.1;
          receipt "cast-encrypted" r.1 r.2 now
      end
  end.

Definition cast_encrypted_with (payload : Value) (verified : option VerifiedCast) (now : Z)
  : BM Value :=
  p ← try (named "cast-encrypted" payload);
  election p.1 p.2 now (cast_encrypted_election payload verified now).

Definition cast_encrypted (payload : Value) (now : Z) : BM Value :=
  cast_encrypted_with payload None now.
Definition cast_encrypted_verified (payload : Value) (verified : VerifiedCast) (now : Z) : BM Value :=
  cast_encrypted_with payload (Some verified) now.
End ServiceEncrypted.
