(* ===== verification/Requests.v ===== *)
(** * The ballot box over its requests

    Every task the ballot box serves as one [handle], the states it reaches,
    and what no request can do: shorten or rewrite a board, change what an
    election was registered with, or take an election back to an earlier
    state. *)

From S2P Require Import Prelude Json Election Board BallotBox Rules Tally Group Trustees Ceremony.
From S2P Require Import Wire Steps Host AuditEncrypted Record Service ServiceEncrypted.

Section Requests.
Context `{Sha256, PCS, Multibase, Jcs, ManifestWire, ResultWire, Dalek, Sha512, Random, Aead}.
Context `{StepTasks, Journal, OsRng, Chrono, Serde, HashOrder, !Tasks}.

Inductive Request :=
| RqRegister (version : ElectionVersion) (signer : string) (payload : Value)
| RqShow (version : ElectionVersion) (caller : Caller) (payload : Value)
| RqClose (signer : string) (payload : Value)
| RqCancel (signer : string) (payload : Value)
| RqCast (payload : Value) (verified : option VerifiedCast)
| RqCastCheck (payload : Value)
| RqHead (caller : Caller) (payload : Value)
| RqRead (caller : Caller) (payload : Value)
| RqInclusion (caller : Caller) (payload : Value)
| RqConsistency (caller : Caller) (payload : Value)
| RqResult (caller : Caller) (payload : Value)
| RqEnrol (signer : string) (request : Value)
| RqDeal (signer : string) (request : Value)
| RqConfirm (signer : string) (request : Value)
| RqJustify (signer : string) (request : Value)
| RqDecrypt (signer : string) (request : Value)
| RqStatus (caller : Caller) (payload : Value)
| RqAuthorize (signer : string) (request : Value)
| RqCastEncrypted (payload : Value) (verified : option VerifiedCast)
| RqCastEncryptedCheck (payload : Value).

(** A request's answer; a check's is for the host, not the wire. *)
Definition handle (rq : Request) (now : Z) : M (Service * World) Value :=
  match rq with
  | RqRegister v s p => register_at v s p now
  | RqShow v c p => show_at v c p now
  | RqClose s p => close_early s p now
  | RqCancel s p => cancel s p now
  | RqCast p v => cast_with p v now
  | RqCastCheck p => _ ← cast_check p now; mret VNull
  | RqHead c p => board_head c p now
  | RqRead c p => board_read c p now
  | RqInclusion c p => board_inclusion c p now
  | RqConsistency c p => board_consistency c p now
  | RqResult c p => result_show c p now
  | RqEnrol s r => trustees_enrol s r now
  | RqDeal s r => trustees_deal s r now
  | RqConfirm s r => trustees_confirm s r now
  | RqJustify s r => trustees_justify s r now
  | RqDecrypt s r => trustees_decrypt s r now
  | RqStatus c p => trustees_status c p now
  | RqAuthorize s r => trustees_authorize s r now
  | RqCastEncrypted p v => cast_encrypted_with p v now
  | RqCastEncryptedCheck p => _ ← cast_encrypted_check p now; mret VNull
  end.

(** One request served, whatever it answers. *)
Definition served (x x' : Service * World) : Prop :=
  ∃ rq now r, handle rq now x = Some (r, x').

(** The states a ballot box reaches from a fresh one. *)
Definition sv_reachable (did : string) (x : Service * World) : Prop :=
  ∃ w, rtc served (service_new did, w) x.

(** ** How a record changes *)

Definition same_config (e e' : ElectionRecord) : Prop :=
  er_community e' = er_community e ∧ er_manifest e' = er_manifest e
  ∧ er_manifest_value e' = er_manifest_value e ∧ er_digest e' = er_digest e
  ∧ er_parameters e' = er_parameters e ∧ er_verifier e' = er_verifier e ∧ er_ctx e' = er_ctx e.

(** The board is the entries' tree. *)
Definition log_ok (e : ElectionRecord) : Prop :=
  er_board e = from_leaves (leaf_hash <$> er_entries e).

(** Configuration, board, entries and state as they were. *)
Definition quiet (e e' : ElectionRecord) : Prop :=
  same_config e e' ∧ er_board e' = er_board e ∧ er_entries e' = er_entries e
  ∧ er_state e' = er_state e.

Definition appended (b : bytes) (e : ElectionRecord) : ElectionRecord :=
  set_entries (er_entries e ++ [b]) (set_board (board_append (er_board e) b).2 e).

(** A relation that quiet changes and appends are within. *)
Class Follows (R : ElectionRecord → ElectionRecord → Prop) := {
  follows_pre :: PreOrder R;
  follows_quiet e e' : quiet e e' → R e e';
  follows_append e b : R e (appended b e);
}.

(** A relation that ending an election is within too. *)
Class FollowsEnd (R : ElectionRecord → ElectionRecord → Prop) := {
  follows_follows :: Follows R;
  follows_closed e : R e (set_state Closed e);
  follows_tallied e : R e (set_state Tallied e);
}.

Definition fst_rel {A B} (R : A → A → Prop) (x y : A * B) : Prop := R x.1 y.1.
#[export] Instance fst_rel_pre {A B} (R : A → A → Prop) `{!PreOrder R} : PreOrder (@fst_rel A B R).
Proof.
  split; [intros x; unfold fst_rel; reflexivity|].
  intros x y z. unfold fst_rel. intros. by etrans.
Qed.

Section Follow.
Context (R : ElectionRecord → ElectionRecord → Prop) `{!Follows R}.

Lemma quiet_refl e : quiet e e.
Proof. by repeat split. Qed.

Lemma steps_update f : (∀ e, R e (f e)) → steps_by (fst_rel (B := World) R) (update f).
Proof. intros Hf. apply steps_modify. intros [e w]. apply Hf. Qed.

Lemma steps_quiet f : (∀ e, quiet e (f e)) → steps_by (fst_rel (B := World) R) (update f).
Proof. intros Hf. apply steps_update. intros e. apply follows_quiet, Hf. Qed.

Lemma steps_self : steps_by (fst_rel (B := World) R) self.
Proof. apply steps_gets. apply _. Qed.

Lemma steps_on_journal f : steps_by (fst_rel R) (on_journal (S := ElectionRecord) f).
Proof.
  intros [e w] r [e' w']. unfold on_journal. destruct (f _). intros [= _ <- _].
  unfold fst_rel. simpl. reflexivity.
Qed.

Lemma steps_fill_bytes : steps_by (fst_rel R) (fill_bytes (S := ElectionRecord)).
Proof.
  intros [e w] r [e' w']. unfold fill_bytes. destruct (os_fill _). intros [= _ <- _].
  unfold fst_rel. simpl. reflexivity.
Qed.
End Follow.

#[local] Hint Resolve steps_self steps_on_journal steps_fill_bytes : steps.
#[local] Hint Extern 1 (quiet _ _) => (by repeat split) : steps.
#[local] Hint Extern 2 (steps_by _ (update _)) => (apply steps_quiet; [apply _|by intros ?; repeat split]) : steps.

Section FollowMethods.
Context (R : ElectionRecord → ElectionRecord → Prop) `{!Follows R}.

Abbreviation stepsR m := (steps_by (fst_rel (B := World) R) m).

Lemma append_steps entry : stepsR (append entry).
Proof.
  unfold append. steps. apply steps_update. intros e. apply follows_append.
Qed.
#[local] Hint Resolve append_steps : steps.

Lemma append_step_steps r : stepsR (append_step r).
Proof. unfold append_step. steps. Qed.

Lemma key_entry_steps was : stepsR (key_entry_if_formed was).
Proof. unfold key_entry_if_formed. steps. Qed.
#[local] Hint Resolve key_entry_steps append_step_steps : steps.

Lemma ceremony_deadline_steps : stepsR ceremony_deadline.
Proof. unfold ceremony_deadline. steps. Qed.

Lemma open_ballots_steps forms pts ballots : stepsR (open_ballots forms pts ballots).
Proof.
  revert ballots. induction pts as [|[[l|q o] r] pts IH]; intros ballots; simpl; steps.
Qed.

Lemma ceremony_or_steps n : stepsR (ceremony_or n).
Proof. unfold ceremony_or. steps. Qed.

Lemma on_ceremony_steps {A} (o : option (result CeremonyError A * Ceremony)) f : stepsR (on_ceremony o f).
Proof. unfold on_ceremony. steps. Qed.

Lemma admit_cast_steps k v d t h : stepsR (admit_cast k v d t h).
Proof. unfold admit_cast. steps. Qed.

Lemma receipt_steps t a o now : stepsR (receipt t a o now).
Proof. unfold receipt. steps. Qed.

Lemma summary_answer_steps t now : stepsR (summary_answer t now).
Proof. unfold summary_answer. steps. Qed.

Lemma trustee_answer_steps t now : stepsR (trustee_answer t now).
Proof. unfold trustee_answer. steps. Qed.

Lemma count_encrypted_steps d t f a : stepsR (count_encrypted d t f a).
Proof. unfold count_encrypted. steps. Qed.
End FollowMethods.

#[local] Hint Resolve append_steps append_step_steps key_entry_steps ceremony_deadline_steps
  open_ballots_steps ceremony_or_steps on_ceremony_steps admit_cast_steps receipt_steps
  summary_answer_steps trustee_answer_steps count_encrypted_steps : steps.

Section FollowEndMethods.
Context (R : ElectionRecord → ElectionRecord → Prop) `{!FollowsEnd R}.

Abbreviation stepsR m := (steps_by (fst_rel (B := World) R) m).

Lemma set_tallied_steps r : stepsR (set_tallied r).
Proof.
  unfold set_tallied. steps. apply steps_update. intros e.
  etrans; [apply (follows_quiet e (set_result (Some r) e)); by repeat split|apply follows_tallied].
Qed.
#[local] Hint Resolve set_tallied_steps : steps.

Lemma publish_steps n qs now : stepsR (publish n qs now).
Proof. unfold publish. steps. Qed.
#[local] Hint Resolve publish_steps : steps.

Lemma finish_steps now : stepsR (finish_if_decrypted now).
Proof. unfold finish_if_decrypted, publish_sealed, publish_tallied. steps. Qed.
#[local] Hint Resolve finish_steps : steps.

Lemma start_decryption_quiet e : quiet e (start_decryption e).
Proof. unfold start_decryption. by destruct (er_election_key e). Qed.

Lemma close_steps k t : stepsR (Record.close k t).
Proof.
  unfold Record.close. steps.
  - apply steps_update. intros e. apply follows_closed.
  - apply steps_quiet; [apply _|]. apply start_decryption_quiet.
Qed.
End FollowEndMethods.
#[local] Hint Resolve set_tallied_steps publish_steps finish_steps close_steps : steps.

(** ** Append-only *)

(** The configuration is kept, the entries are extended, and the board stays
    their tree. *)
Record extends (e e' : ElectionRecord) : Prop := {
  ext_config : same_config e e';
  ext_entries : er_entries e `prefix_of` er_entries e';
  ext_log : log_ok e → log_ok e';
}.

#[export] Instance extends_pre : PreOrder extends.
Proof.
  split.
  - intros e. by split; [repeat split| |].
  - intros e1 e2 e3 [(?&?&?&?&?&?&?) ? ?] [(?&?&?&?&?&?&?) ? ?].
    split; [repeat split; congruence|by etrans|auto].
Qed.

#[export] Instance extends_follows : Follows extends.
Proof.
  split; [apply _| |].
  - intros e e' (Hc & Hb & He & _). split; [done|by rewrite He|]. unfold log_ok. by rewrite Hb, He.
  - intros e b. split; [by repeat split|by exists [b]|]. unfold log_ok. simpl. intros ->.
    unfold from_leaves. simpl. by rewrite fmap_app.
Qed.

#[export] Instance extends_follows_end : FollowsEnd extends.
Proof. split; [apply _|..]; intros e; (split; [by repeat split|done|done]). Qed.

(** ** Forward only *)

Definition forward (e e' : ElectionRecord) : Prop := state_rank (er_state e) ≤ state_rank (er_state e').
#[export] Instance forward_pre : PreOrder forward.
Proof. split; [intros e; unfold forward; lia|intros e1 e2 e3; unfold forward; lia]. Qed.
#[export] Instance forward_follows : Follows forward.
Proof.
  split; [apply _| |].
  - intros e e' (_ & _ & _ & Hs). unfold forward. rewrite Hs. lia.
  - intros e b. unfold forward. simpl. lia.
Qed.

(** The state is as it was, or one of [ss]. *)
Definition ends_in (ss : list State) (e e' : ElectionRecord) : Prop :=
  er_state e' = er_state e ∨ er_state e' ∈ ss.
#[export] Instance ends_in_pre ss : PreOrder (ends_in ss).
Proof.
  split; [by left|]. intros e1 e2 e3 [E1|E1] [E2|E2]; unfold ends_in; rewrite ?E2; auto.
Qed.
#[export] Instance ends_in_follows ss : Follows (ends_in ss).
Proof. split; [apply _| |by left]. intros e e' (_ & _ & _ & Hs). by left. Qed.
#[export] Instance ends_in_follows_end : FollowsEnd (ends_in [Closed; Tallied]).
Proof. split; [apply _|..]; intros e; right; simpl; set_solver. Qed.

Lemma forward_from {A} (m : M (ElectionRecord * World) A) x r x' :
  steps_by (fst_rel (ends_in [Closed; Tallied])) m → state_rank (er_state x.1) ≤ 3 →
  m x = Some (r, x') → fst_rel forward x x'.
Proof.
  intros Hm Hv Hr%Hm. unfold fst_rel, forward in *. destruct Hr as [->|Hin]; [done|].
  set_unfold in Hin. destruct Hin as [->|[->|[]]]; simpl; lia.
Qed.

(** A step that first reads the record, then continues whatever it did. *)
Lemma steps_self_then {A B} R `{!PreOrder R} (m : ElectionRecord → M (ElectionRecord * World) A)
    (rest : A → M (ElectionRecord * World) B) :
  (∀ e w r x', m e (e, w) = Some (r, x') → R (e, w) x') →
  (∀ a, steps_by R (rest a)) →
  steps_by R (e ← self; a ← m e; rest a).
Proof.
  intros Hm Hrest [e w] r x'. unfold self, gets, mbind, M_bind. simpl.
  destruct (m e (e, w)) as [[[a|f] x1]|] eqn:E; [| |done].
  - intros Hx. etrans; [by eapply Hm|by eapply Hrest].
  - intros [= _ <-]. by eapply Hm.
Qed.

Lemma finish_forward now : steps_by (fst_rel (B := World) forward) (finish_if_decrypted now).
Proof.
  intros x r x' Hm. destruct (decide (state_rank (er_state x.1) ≤ 3)) as [Hle|Hgt].
  - eapply forward_from; [|done|done]. steps.
  - destruct x as [e w]. unfold finish_if_decrypted, self, gets, mbind, M_bind in Hm. simpl in Hm.
    destruct (er_decryption e); [|by apply (steps_ret (fst_rel forward)) in Hm].
    rewrite bool_decide_eq_true_2 in Hm by (intros E; simpl in Hgt; rewrite E in Hgt; simpl in Hgt; lia).
    by apply (steps_ret (fst_rel forward)) in Hm.
Qed.

Lemma advance_forward now : steps_by (fst_rel (B := World) forward) (advance now).
Proof.
  unfold advance. apply steps_self_then; [apply _| |intros _; apply steps_self_then; [apply _| |]].
  - intros e w r x'. unfold when. case_match eqn:Hc; [|by intros Hx%(steps_ret (fst_rel forward))].
    apply andb_true_iff in Hc as [Hs%bool_decide_eq_true _]. intros [= _ <-].
    unfold fst_rel, forward. simpl. rewrite Hs. simpl. lia.
  - intros e w r x'. unfold when. case_match eqn:Hc; [|by intros Hx%(steps_ret (fst_rel forward))].
    apply andb_true_iff in Hc as [Hs%Z.leb_le _]. intros Hx.
    assert (steps_by (fst_rel (B := World) (ends_in [Voting]))
              (_ ← ceremony_deadline;
               _ ← append (mk_obj {[ "kind" := VStr "opened";
                                     "occurredAt" := VStr (time (voting_opens_at (er_manifest e))) ]});
               update (set_state Voting))) as Hm.
    { steps. apply steps_update. intros e'. right. simpl. set_solver. }
    specialize (Hm _ _ _ Hx). unfold fst_rel, forward in *. simpl in *.
    destruct Hm as [Hm|Hm]; [by rewrite Hm|]. apply list_elem_of_singleton in Hm. rewrite Hm. simpl. lia.
  - intros _. intros [e w] r x'. unfold self, gets, mbind, M_bind, when. simpl.
    case_match eqn:Hc; [|by intros Hx%(steps_ret (fst_rel forward))].
    apply andb_true_iff in Hc as [Hs%bool_decide_eq_true _]. intros Hx.
    eapply (forward_from (Record.close _ _)); [steps| |done]. simpl. by rewrite Hs.
Qed.

Lemma advance_extends now : steps_by (fst_rel (B := World) extends) (advance now).
Proof.
  unfold advance. steps.
  all: apply steps_update; intros e; (split; [by repeat split|done|done]).
Qed.

(** ** Every handler, on one election *)

Definition evolves (e e' : ElectionRecord) : Prop := extends e e' ∧ forward e e'.
#[export] Instance evolves_pre : PreOrder evolves.
Proof.
  split; [intros e; split; reflexivity|]. intros e1 e2 e3 [E1 F1] [E2 F2].
  split; by etrans.
Qed.
#[export] Instance evolves_follows : Follows evolves.
Proof.
  split; [apply _| |].
  - intros e e' Hq. split; by apply follows_quiet.
  - intros e b. split; apply follows_append.
Qed.

Lemma steps_both {A} (m : M (ElectionRecord * World) A) :
  steps_by (fst_rel extends) m → steps_by (fst_rel forward) m → steps_by (fst_rel evolves) m.
Proof. intros He Hf x r x' Hm. split; [by eapply He|by eapply Hf]. Qed.

Lemma advance_evolves now : steps_by (fst_rel (B := World) evolves) (advance now).
Proof. apply steps_both; [apply advance_extends|apply advance_forward]. Qed.

Lemma finish_evolves now : steps_by (fst_rel (B := World) evolves) (finish_if_decrypted now).
Proof. apply steps_both; [apply finish_steps, _|apply finish_forward]. Qed.
#[local] Hint Resolve advance_evolves finish_evolves : steps.

(** ** Every handler, on the ballot box *)

Definition sv_ok (s : Service) : Prop := map_Forall (λ _, log_ok) (sv_elections s).

Record sv_evolves (s s' : Service) : Prop := {
  sve_elections k e :
    sv_elections s !! k = Some e → ∃ e', sv_elections s' !! k = Some e' ∧ evolves e e';
  sve_ok : sv_ok s → sv_ok s';
}.

#[export] Instance sv_evolves_pre : PreOrder sv_evolves.
Proof.
  split; [intros s; split; [intros k e He; exists e; split; [done|reflexivity]|done]|].
  intros s1 s2 s3 [E1 O1] [E2 O2]. split; [|by auto]. intros k e He.
  destruct (E1 k e He) as (e' & He' & Hv). destruct (E2 k e' He') as (e'' & He'' & Hv').
  exists e''. split; [done|by etrans].
Qed.

Abbreviation serves m := (steps_by (fst_rel (B := World) sv_evolves) m).

Lemma set_election_evolves k e e' s :
  sv_elections s !! k = Some e → evolves e e' → sv_evolves s (set_election k e' s).
Proof.
  intros He Hv. split.
  - intros k' e0 H0'. simpl. destruct (decide (k' = k)) as [->|Hne].
    + simplify_eq. exists e'. by rewrite lookup_insert_eq.
    + exists e0. rewrite lookup_insert_ne by done. split; [done|reflexivity].
  - intros Hok. apply map_Forall_insert_2; [|done]. apply Hv, (Hok k e He).
Qed.

Lemma new_election_evolves k e s :
  sv_elections s !! k = None → log_ok e → sv_evolves s (set_election k e s).
Proof.
  intros Hk Hl. split; [|intros Hok; by apply map_Forall_insert_2].
  intros k' e0 H0'. exists e0. simpl. rewrite lookup_insert_ne by congruence. split; [done|reflexivity].
Qed.

Lemma on_election_serves {A} k (m : M (ElectionRecord * World) A) :
  steps_by (fst_rel evolves) m → serves (on_election k m).
Proof.
  intros Hm [s w] r x'. unfold on_election.
  destruct (sv_elections s !! k) as [e|] eqn:He; [|intros [= _ <-]; unfold fst_rel; reflexivity].
  destruct (m (e, w)) as [[r' [e' w']]|] eqn:Hr; [|done]. intros [= _ <-].
  apply Hm in Hr. by eapply set_election_evolves.
Qed.

Lemma election_serves {A} c i now (m : M (ElectionRecord * World) A) :
  steps_by (fst_rel evolves) m → serves (election c i now m).
Proof. intros Hm. apply on_election_serves. steps. Qed.

Lemma trustee_election_serves {A} s p f now (m : Z → M (ElectionRecord * World) A) :
  (∀ i, steps_by (fst_rel evolves) (m i)) → serves (trustee_election s p f now m).
Proof.
  intros Hm. unfold trustee_election. steps. apply election_serves. steps.
Qed.

#[local] Hint Extern 1 (steps_by _ (election _ _ _ _)) => (apply election_serves; steps) : steps.

Lemma close_early_body_evolves now :
  steps_by (fst_rel (B := World) evolves)
    (e ← self;
     _ ← refuse_if (bool_decide (er_state e ≠ Voting)) (f_task "notOpen" "voting is not open");
     _ ← refuse_if (negb (allow_early_close (er_manifest e)))
           (f_task "earlyCloseNotAllowed" "the manifest does not allow closing early");
     _ ← Record.close "closedEarly" now;
     summary_answer "close" now).
Proof.
  apply steps_both; [steps|]. intros [e w] r x' Hx.
  destruct (decide (er_state e = Voting)) as [Hv|Hv].
  - eapply forward_from; [|by simpl; rewrite Hv|exact Hx]. steps.
  - unfold self, gets, mbind, M_bind in Hx. simpl in Hx. rewrite bool_decide_eq_true_2 in Hx by done.
    simpl in Hx. simplify_eq. unfold fst_rel. reflexivity.
Qed.

Lemma cancel_evolves : steps_by (fst_rel (B := World) evolves) (update (set_state Cancelled)).
Proof.
  apply steps_update. intros e. split; [by split|]. unfold forward. simpl.
  destruct (er_state e); simpl; lia.
Qed.

Lemma cast_election_evolves p payload v now :
  steps_by (fst_rel (B := World) evolves) (cast_election p payload v now).
Proof. unfold cast_election. steps. Qed.

Lemma cast_encrypted_election_evolves payload v now :
  steps_by (fst_rel (B := World) evolves) (cast_encrypted_election payload v now).
Proof. unfold cast_encrypted_election. steps. Qed.

#[local] Hint Resolve close_early_body_evolves cancel_evolves cast_election_evolves
  cast_encrypted_election_evolves : steps.

(** ** Registration *)

Lemma build_record_log mv ps e : build_record mv ps = Ok e → log_ok e.
Proof.
  unfold build_record. repeat setoid_rewrite bind_ok.
  intros (? & _ & m & _ & ? & _ & ? & _ & ? & _ & ? & _ & ? & _ & ? & _ & c & _ & v & _ & [= <-]).
  done.
Qed.

Lemma on_new_record_serves {A} k e (m : M (ElectionRecord * World) unit)
    (m' : M (ElectionRecord * World) A) x r x' :
  steps_by (fst_rel evolves) m → log_ok e → sv_elections x.1 !! k = None →
  on_new_record k e m m' x = Some (r, x') → fst_rel sv_evolves x x'.
Proof.
  intros Hm Hl Hk. destruct x as [s w]. unfold on_new_record.
  destruct (m (e, w)) as [[[u|f] [e' w']]|] eqn:Hr; [|by intros [= _ <-]; unfold fst_rel; reflexivity|done].
  destruct (m' (e', w')) as [[? [? ?]]|]; [|done]. intros [= _ <-].
  apply Hm in Hr as [Hr _]. apply new_election_evolves; [done|]. by apply Hr.
Qed.

(** Reading the state first, then a step that may use what it read. *)
Lemma steps_gets_dep {S A B} (R : S → S → Prop) (f : S → B) (m : B → M S A) :
  (∀ x r x', m (f x) x = Some (r, x') → R x x') → steps_by R (b ← gets f; m b).
Proof. intros Hm x r x'. unfold gets, mbind, M_bind. apply Hm. Qed.

Lemma on_journal_keeps {S} f (x : S * World) r x' : on_journal f x = Some (r, x') → x'.1 = x.1.
Proof. destruct x as [s w]. unfold on_journal. destruct (f _). by intros [= _ <-]. Qed.

Lemma register_new_serves c k mv ps now x r x' :
  sv_elections x.1 !! k = None →
  (record ← try (build_record mv ps);
   _ ← on_journal (journal_election c k.2 (mk_stored mv ps));
   on_new_record k record (advance now) (summary_answer "register" now)) x = Some (r, x') →
  fst_rel sv_evolves x x'.
Proof.
  intros Hk. unfold try, mbind, M_bind.
  destruct (build_record mv ps) as [e|f] eqn:Hb; [|by intros [= _ <-]; unfold fst_rel; reflexivity].
  destruct (on_journal _ x) as [[[u|f] x1]|] eqn:Hj; [| |done]; apply on_journal_keeps in Hj.
  - intros Hx. unfold fst_rel. rewrite <- Hj. rewrite <- Hj in Hk. revert Hx Hk.
    intros. eapply on_new_record_serves; [apply advance_evolves|by eapply build_record_log|done|done].
  - intros [= _ <-]. unfold fst_rel. rewrite Hj. reflexivity.
Qed.

Lemma register_found_serves c k digest mv ps now :
  serves
    (existing ← gets (λ x, sv_elections x.1 !! k);
     match existing with
     | Some e =>
         if bool_decide (er_digest e = digest) && bool_decide (er_parameters e = ps) then
           on_election k (_ ← advance now; summary_answer "register" now)
         else fail (f_task "alreadyRegistered"
                      "this election is registered with another manifest or key (VTI-VOT-013)")
     | None =>
         record ← try (build_record mv ps);
         _ ← on_journal (journal_election c k.2 (mk_stored mv ps));
         on_new_record k record (advance now) (summary_answer "register" now)
     end).
Proof.
  apply steps_gets_dep. intros x r x'. destruct (sv_elections x.1 !! k) as [e|] eqn:He;
    [|by apply register_new_serves].
  case_match; [|apply steps_fail, _]. apply on_election_serves. steps.
Qed.
#[local] Hint Resolve register_found_serves : steps.

Lemma register_serves v signer payload now : serves (register_at v signer payload now).
Proof. unfold register_at. steps. Qed.
#[local] Hint Resolve register_serves : steps.
#[local] Hint Extern 1 (steps_by _ (trustee_election _ _ _ _ _)) =>
  (apply trustee_election_serves; steps) : steps.

Lemma handle_serves rq now : serves (handle rq now).
Proof.
  destruct rq; simpl.
  - apply register_serves.
  - unfold show_at. steps.
  - unfold close_early. steps.
  - unfold cancel. steps.
  - unfold cast_with. steps.
  - unfold cast_check. steps.
  - unfold board_head. steps.
  - unfold board_read. steps.
  - unfold board_inclusion. steps.
  - unfold board_consistency. steps.
  - unfold result_show. steps.
  - unfold trustees_enrol. steps.
  - unfold trustees_deal. steps.
  - unfold trustees_confirm. steps.
  - unfold trustees_justify. steps.
  - unfold trustees_decrypt. steps.
  - unfold trustees_status. steps.
  - unfold trustees_authorize. steps.
  - unfold cast_encrypted_with. steps.
  - unfold cast_encrypted_check. steps.
Qed.

Lemma rtc_served_evolves x x' : rtc served x x' → sv_evolves x.1 x'.1.
Proof.
  induction 1 as [x|x y z (rq & now & r & Hs) _ IH]; [reflexivity|].
  etrans; [by eapply handle_serves|done].
Qed.

Lemma reachable_ok did x : sv_reachable did x → sv_ok x.1.
Proof.
  intros (w & Hx%rtc_served_evolves). apply Hx. unfold sv_ok. simpl. apply map_Forall_empty.
Qed.

(** A root once served stays the root at its size. *)
Lemma root_kept e e' n root :
  log_ok e → log_ok e' → er_entries e `prefix_of` er_entries e' →
  board_root (er_board e) n = Ok root → board_root (er_board e') n = Ok root.
Proof.
  unfold log_ok, board_root, check_size, from_leaves. intros -> -> [l ->].
  unfold board_len. cbn [board_leaves]. rewrite !length_fmap, length_app.
  destruct (Nat.ltb_spec (length (er_entries e)) n) as [?|Hle]; [done|].
  destruct (Nat.ltb_spec (length (er_entries e) + length l) n); [lia|].
  simpl. rewrite fmap_app, take_app_le by by rewrite length_fmap. done.
Qed.

(** C14 (the board is append-only, and an election only moves forward).
    Whatever requests a ballot box serves, in whatever order, with a journal
    and a random source that may do anything, and whether each is answered or
    refused: an election it holds stays held, under the manifest, parameters,
    digest and verifying key it was registered with; its entries are only
    appended to, its board stays the Merkle tree of its entries, so the root
    it ever had at a size is the root it has at that size for good; and its
    state never goes back. *)
Theorem board_append_only did x x' k e :
  sv_reachable did x → rtc served x x' → sv_elections x.1 !! k = Some e →
  ∃ e', sv_elections x'.1 !! k = Some e'
    ∧ same_config e e' ∧ er_entries e `prefix_of` er_entries e'
    ∧ er_board e' = from_leaves (leaf_hash <$> er_entries e')
    ∧ (∀ n root, board_root (er_board e) n = Ok root → board_root (er_board e') n = Ok root)
    ∧ state_rank (er_state e) ≤ state_rank (er_state e').
Proof.
  intros Hx Hs He. pose proof (reachable_ok _ _ Hx k e He) as Hl. simpl in Hl.
  destruct (sve_elections _ _ (rtc_served_evolves _ _ Hs) k e He) as (e' & He' & [Hc Hp Hl'] & Hf).
  exists e'. split_and!; try done; [by apply Hl'|]. intros n root. apply root_kept; auto.
Qed.
End Requests.
