(* ===== verification/Dispatch.v ===== *)
(** * The ballot box's dispatcher

    [vti-voting-service/src/dispatch.rs], with the communities it registers
    ([config.rs]): one document in, one signed answer out. A request is begun
    (screened, its proof verified, a cast's costly checks run) and then
    finished under the ballot box's lock; other requests may come between.
    The document type, its signing and its codes are the [trust_tasks_rs]
    crate's and the identity's key: arguments. *)

From S2P Require Import Prelude Text Json Election Board BallotBox Rules Tally Group Trustees Ceremony.
From S2P Require Import Wire Steps Host DidScid Refresh TaskProof AuditEncrypted Record Service.
From S2P Require Import ServiceEncrypted Requests.

(** ** Tasks *)

Module Task.
Inductive Task :=
| Register | Show | Close | Cancel | Cast | Head | Read | Inclusion | Consistency | Result
| CastEncrypted | Enrol | Deal | Confirm | Justify | Decrypt | TrusteeStatus | Authorize.
#[global] Instance Task_eq_dec : EqDecision Task.
Proof. solve_decision. Defined.

Definition all : list Task :=
  [Register; Show; Close; Cancel; Cast; Head; Read; Inclusion; Consistency; Result;
   CastEncrypted; Enrol; Deal; Confirm; Justify; Decrypt; TrusteeStatus; Authorize].

Definition slug (t : Task) : string :=
  match t with
  | Register => "voting/election/register"
  | Show => "voting/election/show"
  | Close => "voting/election/close"
  | Cancel => "voting/election/cancel"
  | Cast => "voting/ballot/cast"
  | Head => "voting/board/head"
  | Read => "voting/board/read"
  | Inclusion => "voting/board/inclusion"
  | Consistency => "voting/board/consistency"
  | Result => "voting/result/show"
  | CastEncrypted => "voting/ballot/cast-encrypted"
  | Enrol => "voting/trustees/enrol"
  | Deal => "voting/trustees/deal"
  | Confirm => "voting/trustees/confirm"
  | Justify => "voting/trustees/justify"
  | Decrypt => "voting/trustees/decrypt"
  | TrusteeStatus => "voting/trustees/status"
  | Authorize => "voting/trustees/authorize"
  end.

Definition from_slug (rest : string) : option Task :=
  if String.eqb rest "voting/election/register" then Some Register
  else if String.eqb rest "voting/election/show" then Some Show
  else if String.eqb rest "voting/election/close" then Some Close
  else if String.eqb rest "voting/election/cancel" then Some Cancel
  else if String.eqb rest "voting/ballot/cast" then Some Cast
  else if String.eqb rest "voting/board/head" then Some Head
  else if String.eqb rest "voting/board/read" then Some Read
  else if String.eqb rest "voting/board/inclusion" then Some Inclusion
  else if String.eqb rest "voting/board/consistency" then Some Consistency
  else if String.eqb rest "voting/result/show" then Some Result
  else if String.eqb rest "voting/ballot/cast-encrypted" then Some CastEncrypted
  else if String.eqb rest "voting/trustees/enrol" then Some Enrol
  else if String.eqb rest "voting/trustees/deal" then Some Deal
  else if String.eqb rest "voting/trustees/confirm" then Some Confirm
  else if String.eqb rest "voting/trustees/justify" then Some Justify
  else if String.eqb rest "voting/trustees/decrypt" then Some Decrypt
  else if String.eqb rest "voting/trustees/status" then Some TrusteeStatus
  else if String.eqb rest "voting/trustees/authorize" then Some Authorize
  else None.

Definition versions (t : Task) : list string :=
  match t with
  | Register | Show => ["0.4"; "0.3"; "0.2"]
  | Read => ["0.2"]
  | _ => ["0.1"]
  end.

Definition SPEC : string := "https://trusttasks.org/spec/".

(** The task and version served; the task at a version not served; neither. *)
Definition from_type (type_uri : string) : result (option Task) (Task * string) :=
  let bare := default type_uri (strip_suffix "#request" type_uri) in
  path ← ok_or (strip_prefix SPEC bare) None;
  p ← ok_or (rsplit_once "/" path) None;
  task ← ok_or (from_slug p.1) None;
  v ← ok_or (find (λ v, String.eqb v p.2) (versions task)) (Some task);
  Ok (task, v).

Definition needs_proof (t : Task) : bool :=
  match t with
  | Register | Close | Cancel | Cast | CastEncrypted | Enrol | Deal | Confirm | Justify | Decrypt
  | Authorize => true
  | _ => false
  end.

Definition is_cast (t : Task) : bool :=
  match t with Cast | CastEncrypted => true | _ => false end.

(** Each slug names its task, and each type its slug and a version served. *)
Lemma from_slug_slug t : from_slug (slug t) = Some t.
Proof. by destruct t. Qed.

Lemma from_slug_some s t : from_slug s = Some t → s = slug t.
Proof.
  unfold from_slug. repeat (match goal with |- context [String.eqb ?a ?b] =>
    destruct (String.eqb_spec a b) as [->|_]; [by intros [= <-]|] end). done.
Qed.

(** A type names one task at one version: a type is served exactly if,
    a [#request] fragment aside, it is the registry's prefix, a task's slug
    and one of the versions that task is served at. *)
Theorem from_type_served type_uri t v :
  from_type type_uri = Ok (t, v)
  ↔ v ∈ versions t
    ∧ default type_uri (strip_suffix "#request" type_uri) = SPEC +:+ slug t +:+ "/" +:+ v.
Proof.
  unfold from_type. set (bare := default _ _). split.
  - intros (path & Hp%ok_or_ok%strip_prefix_spec & ([s w] & Hs%ok_or_ok%rsplit_once_spec &
      (t' & Ht%ok_or_ok & (v' & Hv%ok_or_ok & [= <- <-])%bind_ok)%bind_ok)%bind_ok)%bind_ok.
    apply from_slug_some in Ht. cbn [fst snd] in *.
    apply find_some in Hv as [Hin%list_elem_of_In Heq%String.eqb_eq]. subst w.
    split; [done|]. rewrite Hp. destruct Hs as [-> _]. by rewrite Ht.
  - intros [Hv ->]. rewrite strip_prefix_app. cbn [ok_or mbind result_bind].
    assert (rsplit_once "/" (slug t +:+ "/" +:+ v) = Some (slug t, v)) as ->.
    { apply rsplit_once_spec. split; [done|]. destruct t; set_unfold in Hv; naive_solver. }
    cbn [ok_or mbind result_bind fst snd]. rewrite from_slug_slug. cbn [ok_or mbind result_bind].
    destruct (find _ (versions t)) as [v'|] eqn:Hf; cbn [ok_or mbind result_bind].
    + by apply find_some in Hf as [_ ->%String.eqb_eq].
    + exfalso. pose proof (find_none _ _ Hf v (proj1 (list_elem_of_In _ _) Hv)) as Hn.
      cbn beta in Hn. by rewrite String.eqb_refl in Hn.
Qed.
End Task.

(** ** Communities ([config.rs]) *)

Record CommunitiesConfig := mk_communities {
  allowed : list string;
  allow_any : bool;
  max_unfinished : nat;
}.
Definition DEFAULT_MAX_UNFINISHED : nat := 20.
Definition communities_default : CommunitiesConfig := mk_communities [] false DEFAULT_MAX_UNFINISHED.
Definition communities_any : CommunitiesConfig := mk_communities [] true DEFAULT_MAX_UNFINISHED.
Definition admits (c : CommunitiesConfig) (community : string) : bool :=
  allow_any c || existsb (λ d, bool_decide (d = community)) (allowed c).

(** ** Documents *)

(** [TrustTask<Value>] with the members read, its codes, and the signature. *)
Class TrustTasks := {
  Doc : Type;
  doc_from_value : Value → result string Doc;
  doc_to_value : Doc → result string Value;
  doc_type_uri : Doc → string;
  doc_issuer : Doc → option string;
  doc_recipient : Doc → option string;
  doc_issued_at : Doc → option Z;
  doc_expires_at : Doc → option Z;
  doc_proof : Doc → option Value;
  doc_payload : Doc → Value;
  Code : Type;
  code_text : Code → string;
  code_parse : string → option Code;
  code_extended : string → string → option Code;
  (** [reject_with] and [respond_with] an id, to JSON. *)
  reject_with : Doc → string → Code → string → result string Value;
  respond_with : Doc → string → Value → result string Value;
  (** [sign_in_place_with] this service's key. *)
  sign_in_place : Doc → result string Doc;
  (** [Uuid::new_v4]. *)
  UuidState : Type;
  new_uuid : UuidState → string * UuidState;
}.

Definition status_for_text (code : string) : Z :=
  if String.eqb code "malformedRequest" then 400
  else if String.eqb code "proofRequired" || String.eqb code "proofInvalid" then 401
  else if String.eqb code "permissionDenied" then 403
  else if String.eqb code "unsupportedType" || String.eqb code "unsupportedVersion" then 404
  else if String.eqb code "expired" then 400
  else if String.eqb code "internalError" then 500
  else if String.eqb code "unavailable" then 503
  else 422.

Record Answer := mk_answer { an_status : Z; an_doc : option Value }.
Definition answer_none (status : Z) : Answer := mk_answer status None.

Section Dispatch.
Context `{Sha256, PCS, Multibase, Jcs, ManifestWire, ResultWire, Dalek, Sha512, Random, Aead}.
Context `{StepTasks, Journal, OsRng, Chrono, Serde, HashOrder, !Tasks}.
Context `{DataIntegrity, DidClient, TT : TrustTasks}.

Definition status_for (code : Code) : Z := status_for_text (code_text code).

(** The service's configuration. *)
Record AppState := mk_app { as_did : string; as_communities : CommunitiesConfig }.
Variable app : AppState.

(** What the requests share: the ballot box behind its lock ([None] once a
    panic poisoned it), the resolver of proofs, and the source of ids. *)
Record HostState := mk_host {
  h_box : option (Service * World);
  h_vm : VmState;
  h_uuids : UuidState;
}.

Definition signed (status : Z) (doc : Value) : Answer :=
  match doc_from_value doc with
  | Err _ => answer_none 500
  | Ok typed =>
      match sign_in_place typed with
      | Err _ => answer_none 500
      | Ok typed => mk_answer status (ok (doc_to_value typed))
      end
  end.

(** A standard code; [None] is the panic of one that is not. *)
Definition standard (code : string) : option Code :=
  match code_parse code with Some c => Some c | None => code_parse "internalError" end.

Definition refuse (doc : Doc) (code : Code) (message : string) (h : HostState) : Answer * HostState :=
  let '(uuid, us) := new_uuid (h_uuids h) in
  (signed (status_for code) (unwrap_or (reject_with doc ("urn:uuid:" +:+ uuid) code message) VNull),
   mk_host (h_box h) (h_vm h) us).

(** An answer, or the panic that drops the request. *)
Definition refuse_standard (doc : Doc) (code message : string) (h : HostState) : option Answer * HostState :=
  match standard code with
  | None => (None, h)
  | Some c => let '(a, h) := refuse doc c message h in (Some a, h)
  end.

Definition box_unavailable : Failure := f_std "internalError" "ballot box unavailable".

Definition refuse_failure (doc : Doc) (task : Task.Task) (f : Failure) (h : HostState)
  : option Answer * HostState :=
  let code :=
    if f_standard f then standard (f_local f)
    else match code_extended (Task.slug task) (f_local f) with
         | Some c => Some c
         | None => standard "taskFailed"
         end in
  match code with
  | None => (None, h)
  | Some c => let '(a, h) := refuse doc c (f_reason f) h in (Some a, h)
  end.

(** ** Screening *)

Definition FIVE_MINUTES : Z := 300 * NANOS.

(** What is held against a document before its proof is looked at, in order:
    a code and its message, or the task and version served. *)
Definition screen (doc : Doc) (transport_sender : option string) (now : Z)
  : result (string * string) (Task.Task * string) :=
  _ ← guard_err (match transport_sender with
                 | Some s => bool_decide (doc_issuer doc ≠ Some s)
                 | None => false
                 end) ("permissionDenied", "the issuer is not the sender");
  tv ← map_err (λ e, match e with
                     | Some task =>
                         ("unsupportedVersion", "this ballot box serves " +:+ Task.slug task +:+ " at "
                            +:+ join " and " (Task.versions task) +:+ " only")
                     | None => ("unsupportedType", "not a task this service serves")
                     end) (Task.from_type (doc_type_uri doc));
  _ ← guard_err (match doc_expires_at doc with Some t => t <? now | None => false end)
        ("expired", "the document has expired");
  _ ← guard_err (match doc_recipient doc with Some r => bool_decide (r ≠ as_did app) | None => false end)
        ("wrongRecipient", "addressed to another party");
  _ ← guard_err (bool_decide (is_Some (doc_proof doc)) && bool_decide (doc_recipient doc = None))
        ("malformedRequest", "a signed request names its recipient");
  _ ← (if Task.needs_proof tv.1 then
         match doc_issued_at doc with
         | None => Err ("malformedRequest", "issuedAt is required")
         | Some at_ => guard_err (now + FIVE_MINUTES <? at_) ("malformedRequest", "issuedAt is in the future")
         end
       else Ok ());
  _ ← guard_err (Task.is_cast tv.1
                 && negb (match doc_issuer doc with Some i => starts_with "did:key:" i | None => false end))
        ("proofInvalid", "a cast is signed by a did:key made for it");
  Ok tv.

(** The signer the document's own proof proves, over the bytes received. *)
Definition prove (doc : Doc) (received : Value) (task : Task.Task) (vm : VmState)
  : result (string * string) (option string) * VmState :=
  match doc_proof doc with
  | Some _ =>
      match verify_trust_task_proof_value true received vm with
      | (Ok s, vm) =>
          (if bool_decide (doc_issuer doc = Some s) then Ok (Some s)
           else Err ("proofInvalid", "the proof is not the issuer's"), vm)
      | (Err _, vm) => (Err ("proofInvalid", "the proof does not verify"), vm)
      end
  | None =>
      (if Task.needs_proof task then Err ("proofRequired", "this task must be signed") else Ok None, vm)
  end.

(** A call under the lock: a panic in it poisons the lock. *)
Definition locked {A} (m : M (Service * World) A) (h : HostState)
  : option (result Failure A) * HostState :=
  match h_box h with
  | None => (Some (Err box_unavailable), h)
  | Some x =>
      match m x with
      | None => (None, mk_host None (h_vm h) (h_uuids h))
      | Some (r, x') => (Some r, mk_host (Some x') (h_vm h) (h_uuids h))
      end
  end.

(** A cast's cheap checks under the lock, then its costly ones without it;
    [None] for a resend, which needs none. *)
Definition check_cast (task : Task.Task) (payload : Value) (now : Z) (h : HostState)
  : option (result Failure (option VerifiedCast)) * HostState :=
  match locked (if bool_decide (task = Task.Cast) then cast_check payload now
                else cast_encrypted_check payload now) h with
  | (None, h) => (None, h)
  | (Some (Err f), h) => (Some (Err f), h)
  | (Some (Ok None), h) => (Some (Ok None), h)
  | (Some (Ok (Some check)), h) => (Some (map_ok Some (cast_check_run check)), h)
  end.

(** A request that passed: what finishes it under the lock. *)
Record Ready := mk_ready {
  rd_doc : Doc;
  rd_received : Value;
  rd_task : Task.Task;
  rd_version : string;
  rd_signer : option string;
  rd_verified : option VerifiedCast;
  rd_now : Z;
}.
Inductive Begun := Answered (a : option Answer) | Begun_ready (r : Ready).

Definition answered (x : option Answer * HostState) : Begun * HostState := (Answered x.1, x.2).

(** [answer], up to the ballot box's lock. *)
Definition begin_request (body : bytes) (transport_sender : option string) (now : Z) (h : HostState)
  : Begun * HostState :=
  match from_slice body with
  | Err _ => (Answered (Some (answer_none 400)), h)
  | Ok received =>
      match doc_from_value received with
      | Err _ => (Answered (Some (answer_none 400)), h)
      | Ok doc =>
          let type_uri := doc_type_uri doc in
          if ends_with "#response" type_uri || contains "/trust-task-error/" type_uri then
            (Answered (Some (answer_none 400)), h)
          else
            match screen doc transport_sender now with
            | Err e => answered (refuse_standard doc e.1 e.2 h)
            | Ok (task, version) =>
                let '(r, vm) := prove doc received task (h_vm h) in
                let h := mk_host (h_box h) vm (h_uuids h) in
                match r with
                | Err e => answered (refuse_standard doc e.1 e.2 h)
                | Ok signer =>
                    let ready v := Begun_ready (mk_ready doc received task version signer v now) in
                    if Task.is_cast task then
                      match check_cast task (doc_payload doc) now h with
                      | (None, h) => (Answered None, h)
                      | (Some (Err f), h) => answered (refuse_failure doc task f h)
                      | (Some (Ok v), h) => (ready v, h)
                      end
                    else (ready None, h)
                end
            end
      end
  end.

(** ** Under the lock *)

Definition election_version (version : string) : ElectionVersion :=
  if String.eqb version "0.2" then V0_2 else if String.eqb version "0.3" then V0_3 else V0_4.

Definition registration_refused (bb : Service) (signer : string) (payload : Value) : option Failure :=
  if negb (admits (as_communities app) signer) then
    Some (f_std "permissionDenied" "this ballot box does not register this community's elections")
  else
    let election_id := default "" (as_str (json_index (json_index payload "manifest") "electionId")) in
    if negb (holds bb signer election_id)
       && (max_unfinished (as_communities app) <=? unfinished bb signer)%nat
    then Some (f_std "unavailable" "this community holds as many unfinished elections here as it may")
    else None.

Definition caller_of (signer : option string) : Caller :=
  match signer with Some d => Did d | None => Anonymous end.

(** The ballot box's request for a task. *)
Definition request_of (r : Ready) : Request :=
  let caller := caller_of (rd_signer r) in
  let signer := default "" (rd_signer r) in
  let p := doc_payload (rd_doc r) in
  let received := rd_received r in
  match rd_task r with
  | Task.Register => RqRegister (election_version (rd_version r)) signer p
  | Task.Show => RqShow (election_version (rd_version r)) caller p
  | Task.Close => RqClose signer p
  | Task.Cancel => RqCancel signer p
  | Task.Cast => RqCast p (rd_verified r)
  | Task.Head => RqHead caller p
  | Task.Read => RqRead caller p
  | Task.Inclusion => RqInclusion caller p
  | Task.Consistency => RqConsistency caller p
  | Task.Result => RqResult caller p
  | Task.CastEncrypted => RqCastEncrypted p (rd_verified r)
  | Task.Enrol => RqEnrol signer received
  | Task.Deal => RqDeal signer received
  | Task.Confirm => RqConfirm signer received
  | Task.Justify => RqJustify signer received
  | Task.Decrypt => RqDecrypt signer received
  | Task.TrusteeStatus => RqStatus caller p
  | Task.Authorize => RqAuthorize signer received
  end.

Definition outcome (r : Ready) : M (Service * World) Value :=
  if bool_decide (rd_task r = Task.Register) then
    refused ← gets (λ x, registration_refused x.1 (default "" (rd_signer r)) (doc_payload (rd_doc r)));
    match refused with
    | Some f => fail f
    | None => handle (request_of r) (rd_now r)
    end
  else handle (request_of r) (rd_now r).

Definition finish_request (r : Ready) (h : HostState) : option Answer * HostState :=
  match locked (outcome r) h with
  | (None, h) => (None, h)
  | (Some (Ok payload), h) =>
      let '(uuid, us) := new_uuid (h_uuids h) in
      (Some (signed 200 (unwrap_or (respond_with (rd_doc r) ("urn:uuid:" +:+ uuid) payload) VNull)),
       mk_host (h_box h) (h_vm h) us)
  | (Some (Err f), h) => refuse_failure (rd_doc r) (rd_task r) f h
  end.

(** [answer], nothing coming between. *)
Definition answer (body : bytes) (transport_sender : option string) (now : Z) (h : HostState)
  : option Answer * HostState :=
  match begin_request body transport_sender now h with
  | (Answered a, h) => (a, h)
  | (Begun_ready r, h) => finish_request r h
  end.

(** ** The service, its requests interleaved *)

(** The service and the requests begun and not finished. *)
Inductive dispatched : HostState * list Ready → HostState * list Ready → Prop :=
| dispatch_answered body sender now h a h' rs :
    begin_request body sender now h = (Answered a, h') → dispatched (h, rs) (h', rs)
| dispatch_begun body sender now h r h' rs :
    begin_request body sender now h = (Begun_ready r, h') → dispatched (h, rs) (h', r :: rs)
| dispatch_finished r a h h' rs1 rs2 :
    finish_request r h = (a, h') → dispatched (h, rs1 ++ r :: rs2) (h', rs1 ++ rs2).

Definition host_start (x : Service * World) (vm : VmState) (us : UuidState) : HostState * list Ready :=
  (mk_host (Some x) vm us, []).

(** ** What reaches the ballot box *)

Context `{!DataIntegrityLaws}.

(** A request vouched for: a consequential one carries a signature of its
    issuer's over the document as received, by a key the issuer authorised
    for what the proof declares; it is addressed to this service, dated, and
    not past its expiry; and a cast is its one-time key's own. *)
Record vouched (r : Ready) : Prop := {
  vo_document : doc_from_value (rd_received r) = Ok (rd_doc r);
  vo_type : Task.from_type (doc_type_uri (rd_doc r)) = Ok (rd_task r, rd_version r);
  vo_signer s : rd_signer r = Some s →
    doc_issuer (rd_doc r) = Some s ∧ doc_recipient (rd_doc r) = Some (as_did app)
    ∧ ∃ ms di p, rd_received r = VObj ms ∧ signed_by true s di p (VObj (remove_member "proof" ms));
  vo_signed : Task.needs_proof (rd_task r) = true →
    is_Some (rd_signer r) ∧ ∃ at_, doc_issued_at (rd_doc r) = Some at_ ∧ at_ ≤ rd_now r + FIVE_MINUTES;
  vo_recipient did : doc_recipient (rd_doc r) = Some did → did = as_did app;
  vo_expiry t : doc_expires_at (rd_doc r) = Some t → rd_now r ≤ t;
  vo_cast : Task.is_cast (rd_task r) = true →
    ∃ i, doc_issuer (rd_doc r) = Some i ∧ starts_with "did:key:" i = true;
}.

Lemma screen_ok doc sender now task version :
  screen doc sender now = Ok (task, version) →
  Task.from_type (doc_type_uri doc) = Ok (task, version)
  ∧ (∀ s, sender = Some s → doc_issuer doc = Some s)
  ∧ (∀ t, doc_expires_at doc = Some t → now ≤ t)
  ∧ (∀ did, doc_recipient doc = Some did → did = as_did app)
  ∧ (is_Some (doc_proof doc) → is_Some (doc_recipient doc))
  ∧ (Task.needs_proof task = true → ∃ at_, doc_issued_at doc = Some at_ ∧ at_ ≤ now + FIVE_MINUTES)
  ∧ (Task.is_cast task = true → ∃ i, doc_issuer doc = Some i ∧ starts_with "did:key:" i = true).
Proof.
  unfold screen. intros (u1 & Hg1%guard_ok & ([t v] & Hg2%map_err_ok & (u3 & Hg3%guard_ok & (u4 & Hg4%guard_ok &
    (u5 & Hg5%guard_ok & (u6 & Hg6 & (u7 & Hg7%guard_ok & [= -> ->])%bind_ok)%bind_ok)%bind_ok)%bind_ok)%bind_ok)%bind_ok)%bind_ok.
  cbn [fst] in *. split_and!.
  - done.
  - intros s ->. by apply bool_decide_eq_false, dec_stable in Hg1.
  - intros e He. rewrite He in Hg3. by apply Z.ltb_ge in Hg3.
  - intros did Hd. rewrite Hd in Hg4. by apply bool_decide_eq_false, dec_stable in Hg4.
  - intros Hp. rewrite (bool_decide_eq_true_2 _ Hp) in Hg5. apply bool_decide_eq_false in Hg5.
    by apply not_eq_None_Some.
  - intros Hn. rewrite Hn in Hg6. destruct (doc_issued_at doc) as [at_|]; [|done].
    apply guard_ok, Z.ltb_ge in Hg6. by exists at_.
  - intros Hc. rewrite Hc in Hg7. apply negb_false_iff in Hg7. destruct (doc_issuer doc) as [i|]; [|done].
    by exists i.
Qed.

Lemma prove_ok doc received task vm signer vm' :
  prove doc received task vm = (Ok signer, vm') →
  (Task.needs_proof task = true → is_Some signer)
  ∧ ∀ s, signer = Some s → is_Some (doc_proof doc) ∧ doc_issuer doc = Some s
      ∧ ∃ ms di p, received = VObj ms ∧ signed_by true s di p (VObj (remove_member "proof" ms)).
Proof.
  unfold prove. destruct (doc_proof doc) as [pf|].
  - destruct (verify_trust_task_proof_value true received vm) as [[s|] vm1] eqn:Hv; [|done].
    case_bool_decide as Hi; [|done]. intros [= <- _]. split; [by eexists|]. intros s' [= <-].
    pose proof (received_signed_by true _ _ _ _ Hv) as (ms & proof & di & p & -> & _ & _ & _ & _ & Hs).
    split; [by eexists|]. split; [done|]. by exists ms, di, p.
  - destruct (Task.needs_proof task); [done|]. intros [= <- _]. by split.
Qed.

(** What beginning a request does: the ballot box is left alone, or a cast's
    cheap checks ran on it. *)
Inductive box_checked (payload : Value) (now : Z) (h h' : HostState) : Prop :=
| checked_not : h_box h' = h_box h → box_checked payload now h h'
| checked_box rq r x x' :
    rq = RqCastCheck payload ∨ rq = RqCastEncryptedCheck payload →
    h_box h = Some x → handle rq now x = Some (r, x') → h_box h' = Some x' → box_checked payload now h h'
| checked_panicked x : h_box h = Some x → h_box h' = None → box_checked payload now h h'.

Lemma refuse_standard_box doc c m h o h' : refuse_standard doc c m h = (o, h') → h_box h' = h_box h.
Proof.
  unfold refuse_standard, refuse. destruct (standard c); [|by intros [= _ <-]].
  destruct (new_uuid _). by intros [= _ <-].
Qed.
Lemma refuse_failure_box doc t f h o h' : refuse_failure doc t f h = (o, h') → h_box h' = h_box h.
Proof.
  unfold refuse_failure, refuse. destruct (if f_standard f then _ else _); [|by intros [= _ <-]].
  destruct (new_uuid _). by intros [= _ <-].
Qed.
Lemma answered_box x b h' : answered x = (b, h') → h' = x.2.
Proof. by intros [= _ <-]. Qed.

Lemma then_vnull {A} (m : M (Service * World) A) x r x' :
  m x = Some (r, x') → ∃ r', (_ ← m; mret VNull) x = Some (r', x').
Proof. intros Hm. unfold mbind, M_bind. rewrite Hm. destruct r; by eexists. Qed.

Lemma check_cast_box task payload now h o h' :
  check_cast task payload now h = (o, h') → box_checked payload now h h'.
Proof.
  unfold check_cast, locked. destruct (h_box h) as [x|] eqn:Hx; [|intros [= _ <-]; by apply checked_not].
  set (m := if bool_decide (task = Task.Cast) then _ else _).
  destruct (m x) as [[r x']|] eqn:Hm; [|intros [= _ <-]; by apply (checked_panicked _ _ _ _ x)].
  assert (∃ r', handle (if bool_decide (task = Task.Cast) then RqCastCheck payload else RqCastEncryptedCheck payload)
                  now x = Some (r', x')) as [r' Hr'].
  { unfold m in Hm. case_bool_decide; by eapply then_vnull. }
  intros Ho. assert (h_box h' = Some x') as Hh'.
  { by destruct r as [[chk|]|f]; injection Ho as _ <-. }
  eapply (checked_box _ _ _ _ _ r' x x'); [|done|exact Hr'|done]. case_bool_decide; [by left|by right].
Qed.

Lemma box_checked_via payload now h h1 h2 h' :
  h_box h1 = h_box h → h_box h' = h_box h2 → box_checked payload now h1 h2 → box_checked payload now h h'.
Proof.
  intros E1 E2 [Hb|rq r x x' Hrq Hx Hh Hb|x Hx Hb].
  - apply checked_not. congruence.
  - eapply checked_box; [exact Hrq| |exact Hh|]; congruence.
  - apply (checked_panicked _ _ _ _ x); congruence.
Qed.

Lemma begin_inv body sender now h b h' :
  begin_request body sender now h = (b, h') →
  (∃ a payload, b = Answered a ∧ box_checked payload now h h')
  ∨ ∃ r, b = Begun_ready r ∧ vouched r ∧ rd_now r = now
      ∧ (∀ s, sender = Some s → doc_issuer (rd_doc r) = Some s)
      ∧ (Task.is_cast (rd_task r) = false ∧ h_box h' = h_box h
         ∨ ∃ h1, h_box h1 = h_box h
             ∧ check_cast (rd_task r) (doc_payload (rd_doc r)) now h1 = (Some (Ok (rd_verified r)), h')).
Proof.
  assert (∀ a payload h', h_box h' = h_box h → ∃ a' payload', Answered a = Answered a' ∧ box_checked payload' now h h')
    as Hplain by (intros a payload h2 Hb; exists a, payload; split; [done|by apply checked_not]).
  unfold begin_request. destruct (from_slice body) as [received|]; [|intros [= <- <-]; left; by apply (Hplain _ VNull)].
  destruct (doc_from_value received) as [doc|] eqn:Hdoc; [|intros [= <- <-]; left; by apply (Hplain _ VNull)].
  destruct (_ || _); [intros [= <- <-]; left; by apply (Hplain _ VNull)|].
  destruct (screen doc sender now) as [[task version]|e] eqn:Hs.
  2:{ intros [= <- <-]. left. apply (Hplain _ VNull).
      destruct (refuse_standard _ _ _ _) as [o h2] eqn:Hr. by apply refuse_standard_box in Hr. }
  destruct (prove doc received task (h_vm h)) as [[signer|e] vm] eqn:Hp.
  2:{ intros [= <- <-]. left. apply (Hplain _ VNull).
      destruct (refuse_standard _ _ _ _) as [o h2] eqn:Hr. by apply refuse_standard_box in Hr. }
  apply screen_ok in Hs as (Ht & Hsend & Hexp & Hrec & Hpr & Hat & Hcast).
  apply prove_ok in Hp as (Hneed & Hsig).
  assert (∀ v, vouched (mk_ready doc received task version signer v now)) as Hv.
  { intros v. split; cbn [rd_doc rd_received rd_task rd_version rd_signer rd_now]; try done.
    - intros s Hsig'. destruct (Hsig s Hsig') as ([pf Hpf] & Hi & Hms). split; [done|]. split; [|done].
      destruct (Hpr ltac:(by eexists)) as [did Hd]. rewrite Hd. by rewrite (Hrec did Hd).
    - intros Hn. split; [by apply Hneed|by apply Hat]. }
  destruct (Task.is_cast task) eqn:Hc.
  - destruct (check_cast task (doc_payload doc) now _) as [[[v|f]|] h2] eqn:Hck; intros [= <- <-].
    + right. eexists. split; [done|]. split; [apply Hv|]. split; [done|]. split; [done|]. right.
      eexists. split; [|exact Hck]. done.
    + left. apply check_cast_box in Hck. destruct (refuse_failure _ _ _ _) as [o h3] eqn:Hr.
      apply refuse_failure_box in Hr. eexists _, _. split; [done|]. cbn [fst snd].
      eapply box_checked_via; [|exact Hr|exact Hck]. done.
    + left. apply check_cast_box in Hck. eexists _, _. split; [done|].
      eapply box_checked_via; [| |exact Hck]; done.
  - intros [= <- <-]. right. eexists. split; [done|]. split; [apply Hv|]. split; [done|]. split; [done|]. by left.
Qed.

(** One step of the ballot box: a cast's checks, or a vouched request, whole. *)
Inductive box_step (x x' : Service * World) : Prop :=
| step_check payload now r rq :
    rq = RqCastCheck payload ∨ rq = RqCastEncryptedCheck payload →
    handle rq now x = Some (r, x') → box_step x x'
| step_request r a : vouched r → outcome r x = Some (a, x') → box_step x x'.

Lemma finish_box r h a h' :
  finish_request r h = (a, h') →
  h_box h' = h_box h
  ∨ ∃ x, h_box h = Some x ∧ (h_box h' = None ∨ ∃ o x', outcome r x = Some (o, x') ∧ h_box h' = Some x').
Proof.
  unfold finish_request, locked. destruct (h_box h) as [x|] eqn:Hx.
  - destruct (outcome r x) as [[[payload|f] x']|] eqn:Ho.
    + destruct (new_uuid _). intros [= _ <-]. right. exists x. split; [done|]. right. by eexists _, x'.
    + intros Hr%refuse_failure_box. right. exists x. split; [done|]. right. by eexists _, x'.
    + intros [= _ <-]. right. exists x. split; [done|]. by left.
  - intros Hr%refuse_failure_box. left. congruence.
Qed.

Lemma reaches_box x vm us h rs :
  rtc dispatched (host_start x vm us) (h, rs) →
  Forall vouched rs ∧ ∀ x', h_box h = Some x' → rtc box_step x x'.
Proof.
  intros Hrun.
  assert (∀ s s', rtc dispatched s s' →
    Forall vouched s.2 ∧ (∀ x', h_box s.1 = Some x' → rtc box_step x x') →
    Forall vouched s'.2 ∧ (∀ x', h_box s'.1 = Some x' → rtc box_step x x')) as Hinv.
  { clear. intros s s'. induction 1 as [s|s1 s2 s3 Hs _ IH]; [done|]. intros [Hf Hb]. apply IH. clear IH s3.
    destruct Hs as [body sender now h a h' rs Hbeg|body sender now h r h' rs Hbeg|r a h h' rs1 rs2 Hfin]; cbn [fst snd] in *.
    - split; [done|]. apply begin_inv in Hbeg as [(? & payload & _ & Hc)|(? & ? & _)]; [|done].
      intros x'. destruct Hc as [->|rq r xa xb Hrq Hx Hh ->|xa _ ->]; [by apply Hb| |done].
      intros [= <-]. eapply rtc_r; [by apply Hb|]. by eapply step_check.
    - apply begin_inv in Hbeg as [(? & ? & ? & _)|(r' & [= <-] & Hv & _ & _ & Hck)]; [done|].
      split; [by constructor|]. intros x'.
      destruct Hck as [[_ ->]|(h1 & Hh1 & Hck%check_cast_box)]; [by apply Hb|].
      destruct Hck as [->|rq r1 xa xb Hrq Hx Hh ->|xa _ ->]; [rewrite Hh1; by apply Hb| |done].
      intros [= <-]. rewrite Hh1 in Hx. eapply rtc_r; [by apply Hb|]. by eapply step_check.
    - apply Forall_app in Hf as [Hf1 Hf2]. apply Forall_cons in Hf2 as [Hr Hf2].
      split; [by apply Forall_app|]. intros x'.
      apply finish_box in Hfin as [->|(xa & Hx & [->|(o & xb & Ho & ->)])]; [by apply Hb|done|].
      intros [= <-]. eapply rtc_r; [by apply Hb|]. by eapply step_request. }
  apply (Hinv _ _ Hrun). split; [constructor|]. intros x' [= <-]. apply rtc_refl.
Qed.

(** C2 (what reaches the ballot box). However the service's requests are
    interleaved — each begun, its proof and a cast's costly checks done
    without the lock, and finished when the lock is free — the ballot box only
    ever takes whole steps: a cast's cheap checks, or one request vouched for.
    A registration, a close, a cancellation, a cast, a trustee's step or an
    authorization is thus never acted on unless its issuer signed it as
    received, for this service, under a key authorised for that. Nothing else
    changes the ballot box; a panic stops it for good. *)
Theorem dispatch_authorised x vm us h rs
    (Hrun : rtc dispatched (host_start x vm us) (h, rs)) :
  Forall vouched rs ∧ ∀ x', h_box h = Some x' → rtc box_step x x'.
Proof. by apply reaches_box in Hrun. Qed.

(** ** The quota *)

(** The elections held under the same keys. *)
Definition same_keys (s s' : Service) : Prop := dom (sv_elections s') = dom (sv_elections s).
#[local] Instance same_keys_pre : PreOrder same_keys.
Proof. split; [done|intros s1 s2 s3; unfold same_keys; congruence]. Qed.

Abbreviation keeps m := (steps_by (fst_rel (B := World) same_keys) m).

Lemma on_election_keys {A} k (m : M (ElectionRecord * World) A) : keeps (on_election k m).
Proof.
  intros [s w] r x'. unfold on_election. destruct (sv_elections s !! k) as [e|] eqn:He.
  - destruct (m (e, w)) as [[r' [e' w']]|]; [|done]. intros [= _ <-]. unfold fst_rel, same_keys. cbn.
    apply dom_insert_lookup_L. by eexists.
  - intros [= _ <-]. unfold fst_rel. reflexivity.
Qed.
Lemma election_keys {A} c i now (m : M (ElectionRecord * World) A) : keeps (election c i now m).
Proof. apply on_election_keys. Qed.
Lemma trustee_election_keys {A} s p f now (m : Z → M (ElectionRecord * World) A) :
  keeps (trustee_election s p f now m).
Proof. unfold trustee_election. steps. apply on_election_keys. Qed.
#[local] Hint Resolve election_keys trustee_election_keys : steps.

(** No task but a registration adds an election. *)
Lemma handle_keys rq now :
  match rq with RqRegister _ _ _ => True | _ => keeps (handle rq now) end.
Proof.
  destruct rq; simpl; [done|..];
    unfold show_at, close_early, cancel, cast_with, cast_check, board_head, board_read, board_inclusion,
      board_consistency, result_show, trustees_enrol, trustees_deal, trustees_confirm, trustees_justify,
      trustees_decrypt, trustees_status, trustees_authorize, cast_encrypted_with, cast_encrypted_check; steps.
Qed.

(** Steps that use what a result or a guard said. *)
Lemma steps_try_dep {S A B} (R : S → S → Prop) `{!PreOrder R} (r : result Failure A) (f : A → M S B) :
  (∀ a, r = Ok a → steps_by R (f a)) → steps_by R (a ← try r; f a).
Proof.
  intros Hf s o s'. unfold try, mbind, M_bind. destruct r as [a|e]; [by apply Hf|]. by intros [= _ <-].
Qed.
Lemma steps_refuse_dep {S B} (R : S → S → Prop) `{!PreOrder R} c e (m : M S B) :
  (c = false → steps_by R m) → steps_by R (_ ← refuse_if c e; m).
Proof.
  intros Hm s o s'. unfold refuse_if, fail, mret, M_ret, mbind, M_bind. destruct c; [by intros [= _ <-]|].
  by apply Hm.
Qed.

(** No election but a registration's own is added. *)
Definition adds_own (signer : string) (payload : Value) (s s' : Service) : Prop :=
  dom (sv_elections s) ⊆ dom (sv_elections s')
  ∧ ∀ k, k ∈ dom (sv_elections s') → k ∈ dom (sv_elections s)
      ∨ ∃ p, parse_register payload = Ok p ∧ k = (signer, election_id (rg_manifest p)).
#[local] Instance adds_own_pre signer payload : PreOrder (adds_own signer payload).
Proof.
  split; [intros s; split; [done|by left]|]. intros s1 s2 s3 [D1 K1] [D2 K2].
  split; [by etrans|]. intros k [Hk|Hk]%K2; [by apply K1|by right].
Qed.
Lemma same_adds signer payload s s' : same_keys s s' → adds_own signer payload s s'.
Proof. intros Hk. unfold adds_own. rewrite Hk. split; [done|by left]. Qed.

Lemma register_keys v signer payload now :
  steps_by (fst_rel (adds_own signer payload)) (register_at v signer payload now).
Proof.
  assert (∀ A (m : M (Service * World) A), keeps m → steps_by (fst_rel (adds_own signer payload)) m) as Hk.
  { intros A m Hm x r x' Hx%Hm. by apply same_adds. }
  unfold register_at. apply steps_bind; [apply _|destruct v; steps|intros _].
  apply steps_try_dep; [apply _|intros p Hp%map_err_ok].
  apply steps_refuse_dep; [apply _|intros Hden].
  apply orb_false_iff in Hden as [Hs%bool_decide_eq_false%dec_stable _].
  apply steps_bind; [apply _|steps|intros digest]. apply steps_bind; [apply _|steps|intros _].
  apply steps_bind; [apply _|steps|intros did]. apply steps_bind; [apply _|steps|intros _].
  apply steps_gets_dep. intros x r x' Hx.
  set (k := (rg_community p, election_id (rg_manifest p))) in *.
  destruct (sv_elections x.1 !! k) as [e|] eqn:He.
  - revert Hx. case_match; intros Hx.
    + revert Hx. by apply Hk, on_election_keys.
    + by injection Hx as _ <-.
  - unfold try, mbind at 1, M_bind in Hx. destruct (build_record _ _) as [record|f]; [|by injection Hx as _ <-].
    unfold mbind, M_bind in Hx.
    destruct (on_journal _ x) as [[[u|f] x1]|] eqn:Hj; [| |done]; apply on_journal_keeps in Hj.
    + unfold fst_rel. destruct x1 as [s1 w1]. cbn in Hj. subst s1. unfold on_new_record in Hx.
      destruct (advance now (record, w1)) as [[[u'|f] [e' w']]|]; [|injection Hx as _ <-; reflexivity|done].
      destruct (summary_answer _ _ _) as [[r' [e'' w'']]|]; [|done]. injection Hx as _ <-.
      split; cbn; rewrite dom_insert_L; [set_solver|]. intros k' [->%elem_of_singleton|Hk']%elem_of_union; [|by left].
      right. exists p. split; [done|]. unfold k. by rewrite Hs.
    + injection Hx as _ <-. unfold fst_rel. rewrite Hj. reflexivity.
Qed.

(** The member the quota looks at is the one the registration's parser
    reads. *)
Class DispatchLaws := {
  registered_id payload p :
    parse_register payload = Ok p →
    as_str (json_index (json_index payload "manifest") "electionId") = Some (election_id (rg_manifest p));
}.
Context `{!DispatchLaws}.

(** Whether an election counts against its community's quota. *)
Definition counts (c : string) (x : (string * string) * ElectionRecord) : Prop :=
  x.1.1 = c ∧ er_state x.2 ≠ Tallied ∧ er_state x.2 ≠ Cancelled.

Lemma unfinished_dom s c :
  unfinished s c = size (dom (filter (λ x, counts c x) (sv_elections s))).
Proof. unfold unfinished. by rewrite size_dom. Qed.

(** Elections finish and stay finished; what is added is in [K]. *)
Lemma unfinished_within (s s' : Service) (c : string) (K : gset (string * string)) :
  sv_evolves s s' →
  (∀ k, k ∈ dom (sv_elections s') → k.1 = c → k ∈ dom (sv_elections s) ∨ k ∈ K) →
  (unfinished s' c ≤ unfinished s c + size K)%nat.
Proof.
  intros Hev Hadd. rewrite !unfinished_dom.
  transitivity (size (dom (filter (λ x, counts c x) (sv_elections s)) ∪ K)).
  2:{ rewrite size_union_alt. apply Nat.add_le_mono_l, subseteq_size. set_solver. }
  apply subseteq_size. intros k Hk. apply elem_of_dom in Hk as [e' He'].
  apply map_lookup_filter_Some in He' as [He' (Hc & Ht & Hx)]. cbn in *. apply elem_of_union.
  destruct (Hadd k ltac:(apply elem_of_dom; by eexists) Hc) as [Hin|]; [left|by right].
  apply elem_of_dom in Hin as [e He]. destruct (sve_elections _ _ Hev k e He) as (e2 & He2 & _ & Hf).
  rewrite He' in He2. injection He2 as <-. apply elem_of_dom. exists e.
  apply map_lookup_filter_Some. split; [done|]. unfold counts. cbn. unfold forward in Hf.
  split; [done|]. split; intros Hs; rewrite Hs in Hf; cbn in Hf; destruct (er_state e'); cbn in Hf; done || lia.
Qed.

(** The quota, and whose elections are held. *)
Definition within_quota (x : Service * World) (s : Service) : Prop :=
  (∀ c, (unfinished s c ≤ Nat.max (unfinished x.1 c) (max_unfinished (as_communities app)))%nat)
  ∧ ∀ k, k ∈ dom (sv_elections s) → k ∈ dom (sv_elections x.1) ∨ admits (as_communities app) k.1 = true.

Lemma keeps_quota (x y y' : Service * World) :
  sv_evolves y.1 y'.1 → same_keys y.1 y'.1 → within_quota x y.1 → within_quota x y'.1.
Proof.
  intros Hev Hk [Hq Ha]. split.
  - intros c. pose proof (unfinished_within y.1 y'.1 c ∅ Hev) as Hle. rewrite size_empty in Hle.
    specialize (Hle ltac:(rewrite Hk; by left)). specialize (Hq c). lia.
  - intros k. rewrite Hk. apply Ha.
Qed.

Lemma refused_none s signer payload :
  registration_refused s signer payload = None →
  admits (as_communities app) signer = true
  ∧ (is_Some (sv_elections s !! (signer, default "" (as_str (json_index (json_index payload "manifest") "electionId"))))
     ∨ (unfinished s signer < max_unfinished (as_communities app))%nat).
Proof.
  unfold registration_refused. destruct (admits _ _); [|done]. cbn [negb].
  unfold holds. case_bool_decide as Hh; [by split; [|left]|]. cbn [negb andb].
  destruct (Nat.leb_spec (max_unfinished (as_communities app)) (unfinished s signer)); [done|].
  intros _. by split; [|right].
Qed.

Lemma outcome_evolves r (y : Service * World) o y' : outcome r y = Some (o, y') → sv_evolves y.1 y'.1.
Proof.
  unfold outcome. case_bool_decide; [|by intros Ho%handle_serves].
  unfold gets, mbind, M_bind. cbn. destruct (registration_refused _ _ _).
  - intros [= _ <-]. reflexivity.
  - by intros Ho%handle_serves.
Qed.

Lemma register_quota (x : Service * World) v signer payload now (y : Service * World) r y' :
  registration_refused y.1 signer payload = None →
  register_at v signer payload now y = Some (r, y') → within_quota x y.1 → within_quota x y'.1.
Proof.
  intros [Hadm Hroom]%refused_none Hr [Hq Ha]. pose proof (register_serves v signer payload now _ _ _ Hr) as Hev.
  apply register_keys in Hr as [Hsub Hnew]. unfold fst_rel in Hev. split.
  - intros c. specialize (Hq c).
    assert (∀ k p, parse_register payload = Ok p → k = (signer, election_id (rg_manifest p)) →
      k = (signer, default "" (as_str (json_index (json_index payload "manifest") "electionId")))) as Hid.
    { intros k p Hp%registered_id ->. by rewrite Hp. }
    destruct Hroom as [Hheld|Hroom].
    + pose proof (unfinished_within y.1 y'.1 c ∅ Hev) as Hle. rewrite size_empty in Hle.
      enough (unfinished y'.1 c ≤ unfinished y.1 c + 0)%nat by lia. apply Hle. intros k [Hk|(p & Hp & Hk)]%Hnew _; left; [done|].
      rewrite (Hid _ _ Hp Hk). by apply elem_of_dom.
    + destruct (decide (c = signer)) as [->|Hne].
      * pose proof (unfinished_within y.1 y'.1 signer
          {[ (signer, default "" (as_str (json_index (json_index payload "manifest") "electionId"))) ]} Hev) as Hle.
        rewrite size_singleton in Hle.
        enough (unfinished y'.1 signer ≤ unfinished y.1 signer + 1)%nat by lia. apply Hle.
        intros k [Hk|(p & Hp & Hk)]%Hnew _; [by left|right]. apply elem_of_singleton. by eapply Hid.
      * pose proof (unfinished_within y.1 y'.1 c ∅ Hev) as Hle. rewrite size_empty in Hle.
        enough (unfinished y'.1 c ≤ unfinished y.1 c + 0)%nat by lia. apply Hle.
        intros k [Hk|(p & _ & ->)]%Hnew Hc; [by left|]. by destruct Hne.
  - intros k [Hk|(p & _ & ->)]%Hnew; [by apply Ha|by right].
Qed.

(** C29 (no community holds more than its quota, and none but those served
    holds any). However requests are interleaved and whatever they say, the
    elections of a community that are neither tallied nor cancelled are never
    more than the configured maximum, or than it held when the service
    started; and no election is ever added for a community the configuration
    does not admit. *)
Theorem quota_kept x vm us h rs x'
    (Hrun : rtc dispatched (host_start x vm us) (h, rs))
    (Hbox : h_box h = Some x') :
  (∀ c, (unfinished x'.1 c ≤ Nat.max (unfinished x.1 c) (max_unfinished (as_communities app)))%nat)
  ∧ ∀ k, k ∈ dom (sv_elections x'.1) → k ∈ dom (sv_elections x.1) ∨ admits (as_communities app) k.1 = true.
Proof.
  destruct (reaches_box _ _ _ _ _ Hrun) as [_ Hb]. specialize (Hb _ Hbox). change (within_quota x x'.1).
  clear Hbox Hrun. revert x' Hb.
  refine (rtc_ind_r (λ y : Service * World, within_quota x y.1) x _ _); [split; [intros c; lia|by left]|].
  intros y y' _ Hs IH.
  destruct Hs as [payload now r rq Hrq Hr|r o _ Ho].
  - eapply keeps_quota; [by eapply handle_serves| |exact IH].
    destruct Hrq as [->| ->]; [by apply (handle_keys (RqCastCheck payload)) in Hr
                              |by apply (handle_keys (RqCastEncryptedCheck payload)) in Hr].
  - pose proof (outcome_evolves _ _ _ _ Ho) as Hev. unfold outcome in Ho. case_bool_decide as Ht.
    + unfold gets, mbind, M_bind in Ho. cbn in Ho.
      destruct (registration_refused _ _ _) eqn:Href; [by injection Ho as _ <-|].
      unfold request_of in Ho. rewrite Ht in Ho. by eapply register_quota.
    + eapply keeps_quota; [exact Hev| |exact IH].
      pose proof (handle_keys (request_of r) (rd_now r)) as Hk. unfold request_of in Ho, Hk.
      destruct (rd_task r); try done; by apply Hk in Ho.
Qed.

(** ** A cast's checks, made apart *)

(** A check made for this payload, of the election it names as registered. *)
Definition proven (payload : Value) (v : VerifiedCast) (s : Service) : Prop :=
  ∃ p e0 e cd bd bj tag held att,
    parse_cast payload = Ok p
    ∧ sv_elections s !! (p_community p, p_election p) = Some e
    ∧ same_config e0 e
    ∧ open_cast e0 p payload = Ok (NewCast cd bd bj tag held att)
    ∧ cast_check_run (open_check e0 cd bj att) = Ok v.

Lemma proven_evolves payload v s s' : sv_evolves s s' → proven payload v s → proven payload v s'.
Proof.
  intros Hev (p & e0 & e & cd & bd & bj & tag & held & att & Hp & He & Hc & Ho & Hr).
  destruct (sve_elections _ _ Hev _ _ He) as (e' & He' & [Hc' _ _] & _).
  exists p, e0, e', cd, bd, bj, tag, held, att. split_and!; try done.
  destruct Hc as (?&?&?&?&?&?&?), Hc' as (?&?&?&?&?&?&?). repeat split; congruence.
Qed.

Lemma cast_check_proven payload now x check v x' :
  cast_check payload now x = Some (Ok (Some check), x') → cast_check_run check = Ok v →
  proven payload v x'.1.
Proof.
  unfold cast_check. intros (p & y & [Hp%map_err_ok ->]%try_inv & Hr)%bind_run_inv Hv.
  destruct x as [s w]. unfold election, on_election in Hr.
  destruct (sv_elections s !! _) as [e|] eqn:He; [|done].
  destruct ((advance now ≫= _) (e, w)) as [[r0 [e' w']]|] eqn:Hm; [|done]. injection Hr as -> <-.
  apply bind_run_inv in Hm as (u & [e1 w1] & Ha & Hm).
  apply bind_run_inv in Hm as (e2 & y & [= <- <-] & Hm). cbn [fst] in Hm.
  apply bind_run_inv in Hm as (o & y & [Ho ->]%try_inv & [= Hchk <- <-]).
  destruct o as [a|cd bd bj tag held att]; [done|]. injection Hchk as <-.
  exists p, e1, e1, cd, bd, bj, tag, held, att. cbn [fst set_election sv_elections].
  split_and!; try done. by rewrite lookup_insert_eq.
Qed.

(** What the checks are of depends on the payload and the registration. *)
Lemma open_cast_fixed e0 e1 p payload cd bd bj tag held att cd' bd' bj' tag' held' att' :
  open_cast e0 p payload = Ok (NewCast cd bd bj tag held att) →
  open_cast e1 p payload = Ok (NewCast cd' bd' bj' tag' held' att') →
  cd' = cd ∧ bj' = bj ∧ att' = att.
Proof.
  assert (∀ e cd bd bj tag held att, open_cast e p payload = Ok (NewCast cd bd bj tag held att) →
    ∃ cj a, jcs (json_index payload "cast") = Ok cj ∧ cd = sha256 cj
      ∧ jcs (json_index (json_index payload "cast") "ballot") = Ok bj
      ∧ dec_attestation (wc_attestation (p_cast p)) = Ok a ∧ att = mk_cast a) as Hinv.
  { clear. intros e cd bd bj tag held att. unfold open_cast.
    intros (? & _ & (? & _ & (? & _ & (cj & Hcj & (bj' & Hbj & Ho)%bind_ok)%bind_ok)%bind_ok)%bind_ok)%bind_ok.
    destruct (er_exact e !! sha256 cj); [done|].
    apply bind_ok in Ho as (? & _ & (a & Ha%map_err_ok & (t & _ & (? & _ & Heq)%bind_ok)%bind_ok)%bind_ok).
    injection Heq. intros. subst. by exists cj, a. }
  intros (cj & a & E1 & -> & E2 & E3 & ->)%Hinv (cj' & a' & E1' & -> & E2' & E3' & ->)%Hinv.
  rewrite E1 in E1'. rewrite E2 in E2'. rewrite E3 in E3'.
  injection E1' as ->. injection E2' as ->. injection E3' as ->. done.
Qed.

Lemma cast_election_apart e0 e p payload v now w cd bd bj tag held att :
  same_config e0 e → open_cast e0 p payload = Ok (NewCast cd bd bj tag held att) →
  cast_check_run (open_check e0 cd bj att) = Ok v →
  cast_election p payload (Some v) now (e, w) = cast_election p payload None now (e, w).
Proof.
  intros (Hcm & Hmf & _ & _ & _ & Hvf & _) Ho Hr. unfold cast_election.
  rewrite !(bind_run self _ (e, w) e (e, w)) by done.
  destruct (open_cast e p payload) as [[a|cd' bd' bj' tag' held' att']|f] eqn:Hoc; [done| |done].
  destruct (open_cast_fixed _ _ _ _ _ _ _ _ _ _ _ _ _ _ _ _ Ho Hoc) as (-> & -> & ->).
  assert (cast_check_run (open_check e cd bj att) = Ok v) as Hre.
  { rewrite <- Hr. unfold open_check, er_key, er_id. by rewrite Hcm, Hmf, Hvf. }
  rewrite !(bind_run (try (Ok (NewCast cd bd' bj tag' held' att))) _ (e, w) _ (e, w) eq_refl). cbv beta.
  rewrite Hre. rewrite !(bind_run _ _ (e, w) () (e, w)); [done|by destruct (covered _ _ _)|by destruct (covered _ _ _)].
Qed.

Lemma cast_apart payload v now x :
  proven payload v x.1 → cast_with payload (Some v) now x = cast_with payload None now x.
Proof.
  intros (p & e0 & e & cd & bd & bj & tag & held & att & Hp & He & Hc & Ho & Hr). destruct x as [s w].
  unfold cast_with. rewrite !(bind_run _ _ (s, w) p (s, w)) by (unfold try; by rewrite Hp).
  unfold election, on_election. cbn [fst] in He. rewrite He.
  assert ((_ ← advance now; cast_election p payload (Some v) now) (e, w)
          = (_ ← advance now; cast_election p payload None now) (e, w)) as ->; [|done].
  unfold mbind, M_bind. destruct (advance now (e, w)) as [[[u|f] [e1 w1]]|] eqn:Ha; [|done..].
  apply advance_evolves in Ha as [[Hc1 _ _] _]. cbn [fst] in Hc1.
  eapply cast_election_apart; [|exact Ho|exact Hr].
  destruct Hc as (?&?&?&?&?&?&?), Hc1 as (?&?&?&?&?&?&?). repeat split; congruence.
Qed.

(** Every open cast waiting to be finished carries a check that stands. *)
Definition checks_stand (h : HostState) (r : Ready) : Prop :=
  ∀ x v, h_box h = Some x → rd_task r = Task.Cast → rd_verified r = Some v →
    proven (doc_payload (rd_doc r)) v x.1.

Lemma checks_stand_evolves h h' r :
  (∀ x', h_box h' = Some x' → ∃ x, h_box h = Some x ∧ sv_evolves x.1 x'.1) →
  checks_stand h r → checks_stand h' r.
Proof.
  intros Hev Hc x' v Hx' Ht Hv. destruct (Hev x' Hx') as (x & Hx & He). eapply proven_evolves; [exact He|].
  by apply Hc.
Qed.

Lemma checked_evolves payload now h h' :
  box_checked payload now h h' → ∀ x', h_box h' = Some x' → ∃ x, h_box h = Some x ∧ sv_evolves x.1 x'.1.
Proof.
  intros [Hb|rq r x x1 _ Hx Hh Hb|x Hx Hb] x' Hx'; rewrite Hb in Hx'.
  - exists x'. split; [done|reflexivity].
  - injection Hx' as <-. exists x. split; [done|]. by eapply handle_serves.
  - done.
Qed.

Lemma check_cast_stands h h' doc received version signer now v task :
  check_cast task (doc_payload doc) now h = (Some (Ok v), h') →
  checks_stand h' (mk_ready doc received task version signer v now).
Proof.
  unfold check_cast, locked. intros Hck x v' Hx Ht Hv. cbn in Ht, Hv. subst task v.
  rewrite bool_decide_eq_true_2 in Hck by done.
  destruct (h_box h) as [y|]; [|done]. destruct (cast_check _ now y) as [[[[chk|]|f] y']|] eqn:Hc; try done.
  injection Hck as Hrun <-. cbn in Hx. injection Hx as <-.
  eapply cast_check_proven; [exact Hc|]. destruct (cast_check_run chk); [|done]. by injection Hrun as ->.
Qed.

Lemma stand_all s s' : dispatched s s' → Forall (checks_stand s.1) s.2 → Forall (checks_stand s'.1) s'.2.
Proof.
  intros Hs Hf.
  assert (∀ l, (∀ x', h_box s'.1 = Some x' → ∃ x, h_box s.1 = Some x ∧ sv_evolves x.1 x'.1) →
    Forall (checks_stand s.1) l → Forall (checks_stand s'.1) l) as Hmono.
  { intros l Hev Hl. eapply Forall_impl; [exact Hl|]. intros r. by apply checks_stand_evolves. }
  destruct Hs as [body sender now h a h' rs Hbeg|body sender now h r h' rs Hbeg|r a h h' rs1 rs2 Hfin]; cbn [fst snd] in *.
  - apply begin_inv in Hbeg as [(? & payload & _ & Hc)|(? & ? & _)]; [|done].
    apply Hmono; [|done]. by eapply checked_evolves.
  - apply begin_inv in Hbeg as [(? & ? & ? & _)|(r' & [= <-] & _ & Hnow & _ & Hck)]; [done|].
    destruct Hck as [[Hnc Hb]|(h1 & Hh1 & Hck)].
    + constructor.
      * intros x v _ Ht _. by rewrite Ht in Hnc.
      * apply Hmono; [|done]. intros x'. rewrite Hb. intros Hx. exists x'. split; [done|reflexivity].
    + constructor.
      * destruct r. cbn in Hnow. subst. by eapply check_cast_stands.
      * apply Hmono; [|done]. rewrite <- Hh1. by eapply checked_evolves, check_cast_box.
  - apply Forall_app in Hf as [Hf1 Hf2]. apply Forall_cons in Hf2 as [_ Hf2].
    apply Hmono; [|by apply Forall_app]. intros x' Hx'.
    apply finish_box in Hfin as [Hb|(y & Hy & [Hb|(o & y' & Ho & Hb)])]; rewrite Hb in Hx'.
    + exists x'. split; [done|reflexivity].
    + done.
    + injection Hx' as <-. exists y. split; [done|]. by eapply outcome_evolves.
Qed.

(** C30 (checking an open election's cast without the lock changes nothing).
    The costly checks of a cast at the open level (the attestation over the
    plain ballot) run while other requests are served, and the lock is taken
    again to count it. Whatever was served in between, from whatever ballot
    box the service started on, finishing such a cast with its checks made
    apart does exactly what it would do were they made under the lock: same
    answer, same board, same record. The encrypted levels' cast, whose checks
    also read the election key, is not covered. *)
Theorem checked_apart x vm us h rs r x'
    (Hrun : rtc dispatched (host_start x vm us) (h, rs))
    (Hin : r ∈ rs)
    (Hcast : rd_task r = Task.Cast)
    (Hbox : h_box h = Some x') :
  outcome r x' = cast_with (doc_payload (rd_doc r)) None (rd_now r) x'.
Proof.
  assert (∀ s s', rtc dispatched s s' → Forall (checks_stand s.1) s.2 → Forall (checks_stand s'.1) s'.2) as Hall.
  { intros s s'. induction 1 as [|? ? ? Hs _ IH]; [done|]. intros Hf. by apply IH, (stand_all _ _ Hs). }
  specialize (Hall _ _ Hrun (Forall_nil_2 _)). rewrite Forall_forall in Hall. specialize (Hall r Hin).
  unfold outcome, request_of. rewrite Hcast. rewrite bool_decide_eq_false_2 by done. cbn [handle].
  destruct (rd_verified r) as [v|] eqn:Hv; [|done]. apply cast_apart. by apply Hall.
Qed.
End Dispatch.
