(* ===== verification/HonestVoter.v ===== *)
(** * What the client makes, the ballot box takes

    The voter's client and the ballot box are two programs that share a wire:
    these theorems take a value from the first to the second. *)

From S2P Require Import Prelude Election Board BallotBox Json Rules Tally Group Trustees Ceremony.
From S2P Require Import Wire Steps Host Record VoterClient Service.

(** What the generated cast type promises: its texts are the members it was
    read from. *)
Class CastLaws `{TK : Tasks} := {
  cast_texts payload p : parse_cast payload = Ok p →
    as_str (json_index (json_index payload "cast") "tag") = Some (wc_tag (p_cast p))
    ∧ as_str (json_index (json_index payload "cast") "attestation")
      = Some (wc_attestation (p_cast p));
}.

Section HonestVoter.
Context `{Sha256, PCS, !PCSLaws, !PCSTextLaws, Multibase, !MultibaseLaws, Jcs, ManifestWire}.
Context `{ResultWire, Dalek, !DalekLaws, Sha512, Random, Aead, Chrono, Serde, !Tasks, !CastLaws}.

(** ** Texts *)

Lemma scheme_roundtrip {A} (enc : A → result PcsError bytes) dec v s :
  (∀ b, enc v = Ok b → dec b = Ok v) → scheme_enc enc v = Ok s → scheme_dec dec s = Ok v.
Proof.
  unfold scheme_enc, scheme_dec. intros Hv (b & Hb & [= <-])%bind_ok.
  rewrite multibase_text. simpl. by apply Hv.
Qed.

Lemma ticket_text_roundtrip t s :
  ticket_to_text t = Ok s → ticket_from_text (t_election t) s = Ok t.
Proof.
  unfold ticket_to_text, ticket_from_text. intros Hs%map_err_ok.
  rewrite (scheme_roundtrip _ credential_from_bytes _ _ (credential_text_bytes _) Hs). by destruct t.
Qed.
(** ** An open cast *)

Lemma cast_wire_inv v params t ballot rng cv rng' :
  cast_wire v params t ballot rng = Ok (cv, rng') →
  ∃ bj c att tag,
    jcs_to_vec ballot = Ok bj ∧ BallotBox.cast v params t bj rng = Ok (c, rng')
    ∧ scheme_enc attestation_to_bytes (attestation c) = Ok att ∧ cast_tag c = Ok tag
    ∧ json_index cv "ballot" = ballot ∧ json_index cv "tag" = VStr tag
    ∧ json_index cv "attestation" = VStr att.
Proof.
  unfold cast_wire, attest_value, attestation_text.
  intros ([[tag att] rng1] & (bj & Hbj%map_err_ok & ([c rng2] & Hc & (att' & Hatt%map_err_ok &
    (tag' & Htag & [= <- <- <-])%bind_ok)%bind_ok)%bind_ok)%bind_ok & [= <- <-])%bind_ok.
  exists bj, c, att', tag'. rewrite !json_index_obj. done.
Qed.

(** A cast is taken as a new one: it passes the cheap checks under its tag, in
    the place of what the tag counted before, and then the costly ones. *)
Record taken_as_new (e : ElectionRecord) (p : CastPayload) (payload : Value) (cj bj : bytes) (c : Cast)
  : Prop := {
  taken_cheap :
    open_cast e p payload
    = Ok (NewCast (sha256 cj) (sha256 bj) bj (wc_tag (p_cast p))
            (fst <$> er_counted e !! wc_tag (p_cast p)) c);
  taken_costly :
    cast_check_run (open_check e (sha256 cj) bj c) = Ok (mk_verified_cast (er_key e) (sha256 cj));
}.

(** The cast an honest voter's client puts on the wire passes every check
    of an open election that is voting, cheap and costly, and is a new cast
    under its own tag: it is refused only for a ballot the manifest does not
    permit, or for a second ballot where none may be replaced. *)
Theorem honest_cast_accepted r v params t rv e p payload ballot rng cv rng' cj :
  honest_ticket r v params t →
  ballot_box_new params (t_election t) rv (mk_nullifiers ∅) = Ok (er_verifier e) →
  er_ceremony e = None → er_state e = Voting →
  cast_wire v params t ballot rng = Ok (cv, rng') →
  json_index payload "cast" = cv → parse_cast payload = Ok p →
  check_ballot (er_manifest e) (er_digest e) (wc_ballot (p_cast p)) = Ok () →
  jcs_to_vec cv = Ok cj → er_exact e !! sha256 cj = None →
  revote (er_manifest e) = RevoteReplace ∨ er_counted e !! wc_tag (p_cast p) = None →
  ∃ bj c, jcs_to_vec ballot = Ok bj ∧ taken_as_new e p payload cj bj c.
Proof.
  intros Ht Hb Hopen Hs Hw Hpay Hp Hck Hcj Hex Hrv.
  destruct (cast_wire_inv _ _ _ _ _ _ _ Hw) as (bj & c & att & tag & Hbj & Hc & Hatt & Htag & Jb & Jt & Ja).
  destruct (cast_texts _ _ Hp) as [Jt' Ja']. rewrite Hpay, Jt in Jt'. rewrite Hpay, Ja in Ja'.
  injection Jt' as Jt'. injection Ja' as Ja'. subst att tag.
  destruct (honest_cast_spec _ _ _ _ _ _ _ _ _ _ _ Ht Hb Hc) as (Hv & _).
  exists bj, c. split; [done|]. split.
  - unfold open_cast. rewrite Hopen, Hs, Hck, Hpay. simpl. unfold jcs. rewrite Hcj. simpl.
    rewrite Jb, Hbj. simpl. rewrite Hex.
    assert (bool_decide (revote (er_manifest e) ≠ RevoteReplace)
      && match fst <$> er_counted e !! wc_tag (p_cast p) with
         | Some a => bool_decide (ad_digest a ≠ sha256 bj)
         | None => false
         end = false) as ->.
    { destruct Hrv as [->|Hn]; [done|]. rewrite Hn. apply andb_false_r. }
    simpl. unfold dec_attestation.
    rewrite (scheme_roundtrip _ attestation_from_bytes _ _ (attestation_text_bytes _) Hatt). simpl.
    destruct c as [a]. simpl. rewrite Htag. simpl.
    by rewrite bool_decide_same.
  - unfold cast_check_run. simpl. by rewrite Hv, Htag.
Qed.
(** ** An encrypted ballot *)

(** The options a ballot chooses of a question, as it is encrypted. *)
Definition chosen_of (ballot : Value) (q : Question) : list bool :=
  match q with
  | Choice qkey options _ _ _ => chosen_options ballot qkey options
  | _ => []
  end.

(** Question [q]'s encryption [x] on the wire, and what it encrypts. *)
Definition encrypts_choice (key : ElectionKey) (ballot : Value) (q : Question)
    (x : EncryptedQuestion) (v : Value) : Prop :=
  v = encrypted_question_value (default "" (Rules.key q)) x
  ∧ Forall2 (λ on o, encrypts key (if on : bool then 1 else 0) o.1) (chosen_of ballot q) (eq_options x).

Definition check_of (m : Manifest) (el : Election) (key : ElectionKey) (tag : string) (enc : Value)
  : TalliedCheck :=
  mk_tallied_check key (id_str (e_id el)) (e_digest el) (questions m)
    (cast_ctx (trustee_context el) tag) enc.

Lemma encrypt_question_spec t ballot q rng v rng' :
  encrypt_question (tc_key t) (tc_ctx t) ballot q rng = Ok (v, rng') →
  ∃ x, encrypts_choice (tc_key t) ballot q x v
    ∧ (wf_eq x → encrypted_question v = Ok (default "" (Rules.key q), x)
                 ∧ check_tallied_question t q v = Ok ()).
Proof.
  destruct q as [k os mn mx op| | | |]; simpl; try done. unfold form_error.
  intros (counts & Hcounts%map_err_ok & ([x rng1] & Hx%map_err_ok & [= <- <-])%bind_ok)%bind_ok.
  destruct (encrypted_vote_spec _ _ _ _ _ _ _ Hx) as [Hver Henc].
  exists x. split; [by split|]. intros Hwf.
  pose proof (encrypted_question_encode k x Hwf) as Hread. split; [exact Hread|].
  rewrite Hread. simpl. rewrite bool_decide_same. simpl.
  rewrite Hcounts. simpl. unfold chosen_options in Hver. rewrite length_fmap in Hver. by rewrite Hver.
Qed.

Lemma encrypt_questions_spec t ballot qs rng vs rng' :
  encrypt_questions (tc_key t) (tc_ctx t) ballot qs rng = Ok (vs, rng') →
  ∃ xs, Forall3 (encrypts_choice (tc_key t) ballot) qs xs vs
    ∧ (Forall wf_eq xs →
         try_map (λ q, '(_, q) ← encrypted_question q; Ok q) vs = Ok xs
         ∧ check_tallied_questions t qs vs = Ok ()).
Proof.
  revert rng vs rng'. induction qs as [|q qs IH]; intros rng vs rng'; simpl.
  { intros [= <- <-]. exists []. split; [constructor|]. done. }
  intros ([v rng1] & Hv & ([vs' rng2] & Hvs & [= <- <-])%bind_ok)%bind_ok.
  destruct (encrypt_question_spec _ _ _ _ _ _ Hv) as (x & Hx & Hok).
  destruct (IH _ _ _ Hvs) as (xs & Hxs & Hoks).
  exists (x :: xs). split; [by constructor|]. intros [Hw Hws]%Forall_cons.
  destruct (Hok Hw) as [Hr Hc]. destruct (Hoks Hws) as [Hrs Hcs].
  cbn [try_map check_tallied_questions]. rewrite Hr, Hc. simpl. by rewrite Hrs, Hcs.
Qed.

(** The ballot a voter's client encrypts for a tallied-encrypted election
    encrypts, question by question, a one for each option the ballot chose and
    a zero for every other; and unless an encryption drew the group's identity
    (which the wire does not carry), the ballot box reads those encryptions
    back and its proof check, bound to the cast's tag, accepts them. *)
Theorem encrypted_ballot_accepted m el key ballot tag rng v rng' :
  secrecy m = TalliedEncrypted →
  encrypted_form m el key ballot tag rng = Ok (FormEncrypted v, rng') →
  ∃ xs vs, as_array (json_index v "questions") = Some vs
    ∧ Forall3 (encrypts_choice key ballot) (questions m) xs vs
    ∧ (Forall wf_eq xs →
         try_map (λ q, '(_, q) ← encrypted_question q; Ok q) vs = Ok xs
         ∧ tallied_run (check_of m el key tag v) = Ok ()).
Proof.
  unfold encrypted_form. intros -> ([vs rng1] & Hvs & [= <- <-])%bind_ok.
  set (enc := mk_obj _).
  destruct (encrypt_questions_spec (check_of m el key tag enc) _ _ _ _ _ Hvs) as (xs & Hxs & Hok).
  simpl in Hxs.
  assert (json_index enc "questions" = VArr vs ∧ json_index enc "electionId" = VStr (id_str (e_id el))
    ∧ json_index enc "manifestDigest" = VStr (digest_multibase (e_digest el))) as (Hq & Hi & Hd)
    by (unfold enc; by rewrite !json_index_obj).
  exists xs, vs. rewrite Hq. split; [done|]. split; [done|].
  intros Hwf. destruct (Hok Hwf) as [Hread Hrun]. split; [done|].
  unfold tallied_run. simpl tc_enc. rewrite Hq, Hi, Hd. simpl. rewrite digest_multibase_decode.
  rewrite 2!bool_decide_same. simpl.
  assert (length vs = length (questions m)) as -> by (clear -Hxs; induction Hxs; simpl; congruence).
  rewrite bool_decide_same. simpl.
  exact Hrun.
Qed.
End HonestVoter.
