(* ===== verification/Restore.v ===== *)
(** * A restart reproduces the ballot box

    Replaying an open election's journalled entries gives back the record
    that wrote them: its board, its tag record, its receipts, its closing and
    its result. *)

From S2P Require Import Prelude Json Election Board BallotBox Rules Tally Group Trustees Ceremony.
From S2P Require Import Wire Steps Host AuditEncrypted Record Service ServiceEncrypted Requests.

(** What the generated types promise: a cast parses alike inside its payload
    and alone. *)
Class TasksLaws `{TK : Tasks} :=
  wire_cast_nested payload p :
    parse_cast payload = Ok p → parse_wire_cast (json_index payload "cast") = Ok (p_cast p).

Section Restore.
Context `{J : Journal, !JournalLaws, Sha256, PCS, Multibase, !MultibaseLaws, Jcs, ManifestWire, ResultWire, Dalek, Sha512, Random, Aead}.
Context `{StepTasks, OsRng, Chrono, Serde, !SerdeLaws, HashOrder, HO : !HashOrderLaws}.
Context `{!Tasks, !TasksLaws}.

(** An election waiting to open is replayed as one just registered: its clock
    tells the two apart again. *)
Definition as_restored (e : ElectionRecord) : ElectionRecord :=
  if bool_decide (er_state e = Registration) then set_state Registered e else e.

(** What the journal holds of a record. *)
Definition journalled (x : ElectionRecord * World) : Restored :=
  journal_of (w_journal x.2) (er_community x.1) (er_id x.1).

(** Canonicalization keeps its numbers: they are [f64]s there, exact up to
    [2 ^ 53]. A board with no more leaves than that, and a published result
    with no greater number; nothing in the code bounds a sum of scores by it
    ([Tally.saturating_sum]). *)
Record exact_numbers (e : ElectionRecord) : Prop := {
  exact_board : Z.of_nat (length (er_entries e)) ≤ 2 ^ 53;
  exact_result r : er_result e = Some r → canonical_value r;
}.

Definition runs {A} (m : M (ElectionRecord * World) A) (x x' : ElectionRecord * World) : Prop :=
  ∃ a, m x = Some (Ok a, x').

(** What the journal stored of the election when it was registered. *)
Variable stored : StoredElection.

(** The life of an open election from a record just built: its clock, the
    casts it accepts, an early close, a cancellation, each having
    succeeded, and requests refused before they wrote anything. *)
Inductive open_life (e0 : ElectionRecord) : ElectionRecord * World → Prop :=
| life_start w :
    journal_whole (w_journal w) → re_election (journalled (e0, w)) = Some stored → re_entries (journalled (e0, w)) = [] →
    open_life e0 (e0, w)
| life_advance now x x' :
    open_life e0 x → runs (advance now) x x' → exact_numbers x'.1 → open_life e0 x'
| life_cast payload p verified now x x' :
    open_life e0 x → parse_cast payload = Ok p →
    canonical_value (json_index payload "cast") →
    runs (cast_election p payload verified now) x x' → exact_numbers x'.1 → open_life e0 x'
| life_close now x x' :
    open_life e0 x → er_state x.1 = Voting → runs (Record.close "closedEarly" now) x x' →
    exact_numbers x'.1 → open_life e0 x'
| life_cancel now x x' :
    open_life e0 x →
    runs (_ ← append (mk_obj {[ "kind" := VStr "cancelled"; "occurredAt" := VStr (time now) ]});
          update (set_state Cancelled)) x x' →
    exact_numbers x'.1 → open_life e0 x'
| life_refused x w' :
    open_life e0 x → journal_whole (w_journal w') → journalled (x.1, w') = journalled x → open_life e0 (x.1, w').

(** ** Appending and its replay *)

Lemma append_inv v e w i x' :
  append v (e, w) = Some (Ok i, x') →
  ∃ b, jcs_to_vec v = Ok b ∧ i = Z.of_nat (board_len (er_board e)) ∧ x'.1 = appended b e
    ∧ journal_entry (er_community e) (er_id e) i b (w_journal w) = (Ok (), w_journal x'.2)
    ∧ w_os x'.2 = w_os w.
Proof.
  unfold append. intros (b & y & [Hb ->]%try_inv & Hr)%bind_run_inv.
  apply bind_run_inv in Hr as (e1 & y & [= <- <-] & Hr). simpl in Hr.
  apply bind_run_inv in Hr as (u & [e2 w2] & Hj & Hr).
  unfold on_journal in Hj.
  destruct (journal_entry _ _ _ _ _) as [[u'|?] j] eqn:Hm; simplify_eq/=.
  apply bind_run_inv in Hr as (u2 & y & [= <- <-] & [= <- <-]).
  exists b. unfold jcs in Hb. destruct (jcs_to_vec v); simplify_eq/=. split_and!; try done.
  rewrite Hm. by destruct u.
Qed.

Definition agree (n : nat) (r r' : gmap Z string) : Prop :=
  ∀ i, 0 ≤ i < Z.of_nat n → r !! i = r' !! i.

(** What holds of a record in its life: the journal has its entries, and
    replaying them rebuilds it from the record it started as. *)
Record durable (e0 : ElectionRecord) (x : ElectionRecord * World) : Prop := {
  dur_open : er_ceremony x.1 = None;
  dur_whole : journal_whole (w_journal x.2);
  dur_stored : re_election (journalled x) = Some stored;
  dur_log : log_ok x.1;
  dur_journal : re_entries (journalled x) = er_entries x.1;
  dur_count : (size (er_counted x.1) ≤ length (er_entries x.1))%nat;
  dur_leaves t a b :
    er_counted x.1 !! t = Some (a, b) → 0 ≤ ad_leaf a < Z.of_nat (length (er_entries x.1));
  dur_replay r w :
    agree (length (er_entries x.1)) r (re_receipts (journalled x)) →
    replay (er_entries x.1) r (e0, w) = Some (Ok (), (as_restored x.1, w));
}.

Lemma board_len_ok e : log_ok e → board_len (er_board e) = length (er_entries e).
Proof. intros ->. unfold board_len, from_leaves. simpl. by rewrite length_fmap. Qed.

Lemma agree_le n n' r r' : (n ≤ n')%nat → agree n' r r' → agree n r r'.
Proof. intros Hn Ha i Hi. apply Ha. lia. Qed.

Lemma agree_last n r r' : agree (S n) r r' → r !! Z.of_nat n = r' !! Z.of_nat n.
Proof. intros Ha. apply Ha. lia. Qed.

(** An entry that is not of the encrypted levels. *)
Definition lifecycle_kinds : list string :=
  ["opened"; "cast"; "replaced"; "closed"; "closedEarly"; "result"; "cancelled"].

Lemma in_lifecycle k : bool_decide (k ∈ lifecycle_kinds) = true → k ∈ lifecycle_kinds.
Proof. apply bool_decide_eq_true. Qed.

Definition on_board (b : bytes) (e : ElectionRecord) : ElectionRecord :=
  set_board (board_append (er_board e) b).2 e.

Lemma no_0_1_entry i v : json_get v "at" = None → v0_1_lifecycle_entry i v = None.
Proof. unfold v0_1_lifecycle_entry. intros ->. by rewrite andb_false_r. Qed.

Lemma replay_entry_open r v b k e w x :
  canonical_value v → jcs_to_vec v = Ok b →
  as_str (json_index v "kind") = Some k → k ∈ lifecycle_kinds → json_get v "at" = None →
  log_ok e →
  replay_lifecycle v (Z.of_nat (length (er_entries e))) r (on_board b e, w) = Some (Ok (), x) →
  replay_entry r b (e, w)
  = Some (Ok (), (set_entries (er_entries x.1 ++ [b]) x.1, x.2)).
Proof.
  intros Hcan Hb Hk Hin Hat Hlog Hl. unfold replay_entry.
  rewrite (bind_run _ _ _ e (e, w)) by done.
  replace (board_append (er_board e) b) with (board_len (er_board e), (board_append (er_board e) b).2).
  2:{ unfold board_append, board_len. cbn [board_leaves]. rewrite length_app. simpl. f_equal. lia. }
  rewrite (bind_run _ _ _ () (on_board b e, w)) by done. rewrite board_len_ok by done.
  rewrite (from_slice_jcs v b Hcan Hb). rewrite (bind_run _ _ _ v (on_board b e, w)) by done.
  rewrite (no_0_1_entry _ _ Hat).
  rewrite (bind_run _ _ _ () (on_board b e, w)) by done.
  assert (replay_encrypted v (Z.of_nat (length (er_entries e))) r (on_board b e, w)
          = Some (Ok false, (on_board b e, w))) as Henc.
  { unfold replay_encrypted. rewrite Hk. unfold lifecycle_kinds in Hin. set_unfold in Hin.
    by destruct_or! Hin; subst k. }
  rewrite (bind_run _ _ _ _ _ Henc). rewrite (bind_run _ _ _ _ _ Hl). destruct x as [e' w'].
  unfold update, modify. done.
Qed.

Lemma as_restored_fields e :
  er_entries (as_restored e) = er_entries e ∧ er_board (as_restored e) = er_board e
  ∧ er_ceremony (as_restored e) = er_ceremony e ∧ (log_ok e → log_ok (as_restored e)).
Proof. unfold as_restored. by case_bool_decide. Qed.

(** One entry appended and replayed: [e2] is what the operation leaves once it
    has appended [v], [e3] what replaying [v] makes of the record before. *)
Lemma durable_entry e0 e w v k i e1 w1 b e2 e3 :
  durable e0 (e, w) → append v (e, w) = Some (Ok i, (e1, w1)) → jcs_to_vec v = Ok b →
  canonical_value v → as_str (json_index v "kind") = Some k → k ∈ lifecycle_kinds →
  json_get v "at" = None →
  (∀ r w2, agree (S (length (er_entries e))) r (re_receipts (journalled (e, w))) →
    replay_lifecycle v (Z.of_nat (length (er_entries e))) r (on_board b (as_restored e), w2)
    = Some (Ok (), (e3, w2))) →
  as_restored e2 = set_entries (er_entries e ++ [b]) e3 → er_entries e3 = er_entries e →
  er_entries e2 = er_entries e ++ [b] → er_board e2 = (board_append (er_board e) b).2 →
  er_ceremony e2 = None → same_config e e2 →
  (size (er_counted e2) ≤ S (size (er_counted e)))%nat →
  (∀ t a bl, er_counted e2 !! t = Some (a, bl) →
     er_counted e !! t = Some (a, bl) ∨ ad_leaf a = Z.of_nat (length (er_entries e))) →
  durable e0 (e2, w1).
Proof.
  intros [Do Dw Ds Dl Dj Dc Dv Dr] Ha Hb Hcan Hk Hin Hat Hrep Hres He3 He2 Hbd Hcer (Hc1 & Hc2 & _) Hsz Hlv.
  destruct (append_inv _ _ _ _ _ Ha) as (b' & Hb' & _ & He1 & Hm & _). simpl in Hm.
  assert (b' = b) as -> by congruence.
  destruct (journal_entry_law _ _ _ _ _ _ Dw Hm) as [Dw' Hm'].
  assert (journalled (e2, w1) = mk_restored (re_election (journalled (e, w)))
            (re_entries (journalled (e, w)) ++ [b]) (re_receipts (journalled (e, w)))) as Hj.
  { unfold journalled, er_id in *. simpl in *. by rewrite Hc1, Hc2. }
  split; simpl.
  - done.
  - exact Dw'.
  - by rewrite Hj.
  - unfold log_ok in *. simpl in Dl. rewrite Hbd, He2, Dl. unfold board_append, from_leaves. simpl.
    by rewrite fmap_app.
  - rewrite Hj. simpl in *. by rewrite Dj, He2.
  - rewrite He2, length_app. simpl in *. lia.
  - intros t a bl Ht. rewrite He2, length_app. simpl. destruct (Hlv t a bl Ht) as [Hold| ->]; [|lia].
    specialize (Dv t a bl Hold). simpl in Dv. lia.
  - intros r w2 Hag. rewrite Hj in Hag. simpl in Hag. rewrite He2, length_app in *. simpl in Hag.
    replace (length (er_entries e) + 1)%nat with (S (length (er_entries e))) in Hag by lia.
    unfold replay. rewrite (for_each_app _ _ _ _ (as_restored e, w2)).
    2:{ apply (Dr r w2). eapply agree_le; [|exact Hag]. simpl. lia. }
    destruct (as_restored_fields e) as (Fe & Fb & Fc & Fl). simpl.
    rewrite (bind_run _ _ _ () (as_restored e2, w2)); [done|].
    rewrite (replay_entry_open r v b k (as_restored e) w2 (e3, w2)); try done.
    + simpl. by rewrite He3, Hres.
    + by apply Fl.
    + rewrite Fe. by apply Hrep.
Qed.

(** ** The clock *)

Lemma can_str_obj k s : canonical_value (mk_obj {[ "kind" := VStr k; "occurredAt" := VStr s ]}).
Proof.
  apply can_obj. intros j v Hv. apply lookup_insert_Some in Hv as [[_ <-]|[_ Hv]]; [constructor|].
  apply lookup_singleton_Some in Hv as [_ <-]. constructor.
Qed.

Lemma kind_of_lifecycle k s :
  as_str (json_index (mk_obj {[ "kind" := VStr k; "occurredAt" := VStr s ]}) "kind") = Some k
  ∧ json_index (mk_obj {[ "kind" := VStr k; "occurredAt" := VStr s ]}) "occurredAt" = VStr s
  ∧ json_get (mk_obj {[ "kind" := VStr k; "occurredAt" := VStr s ]}) "at" = None.
Proof. by rewrite !json_index_obj, json_get_mk_obj. Qed.

(** What replaying a lifecycle entry does to an open election's record. *)
Definition lifecycle_effect (k t : string) (leaf : Z) (e : ElectionRecord) : ElectionRecord :=
  if String.eqb k "opened" then set_state Voting e
  else if String.eqb k "cancelled" then set_state Cancelled e
  else set_state Closed (set_closing (Some (leaf, t)) e).

Lemma start_decryption_open e : er_ceremony e = None → start_decryption e = e.
Proof. unfold start_decryption, er_election_key. by intros ->. Qed.

Lemma update_run f (e : ElectionRecord) (w : World) : update f (e, w) = Some (Ok (), (f e, w)).
Proof. done. Qed.

Lemma replay_lifecycle_effect k t leaf r e w :
  k ∈ ["opened"; "closed"; "closedEarly"; "cancelled"] → er_ceremony e = None →
  replay_lifecycle (mk_obj {[ "kind" := VStr k; "occurredAt" := VStr t ]}) leaf r (e, w)
  = Some (Ok (), (lifecycle_effect k t leaf e, w)).
Proof.
  intros Hk Hc. unfold replay_lifecycle. destruct (kind_of_lifecycle k t) as (-> & -> & _).
  unfold lifecycle_effect. set_unfold in Hk. destruct_or! Hk; subst k.
  - cbn -[update]. unfold self, gets, mbind, M_bind. cbn -[update]. rewrite Hc. exact eq_refl.
  - cbn -[update mbind]. rewrite (bind_run _ _ _ _ _ (update_run _ e w)).
    rewrite (bind_run _ _ _ _ _ (update_run _ _ w)), update_run. by rewrite start_decryption_open.
  - cbn -[update mbind]. rewrite (bind_run _ _ _ _ _ (update_run _ e w)).
    rewrite (bind_run _ _ _ _ _ (update_run _ _ w)), update_run. by rewrite start_decryption_open.
  - done.
Qed.

Lemma lifecycle_effect_fields k t leaf e :
  same_config e (lifecycle_effect k t leaf e)
  ∧ er_entries (lifecycle_effect k t leaf e) = er_entries e
  ∧ er_board (lifecycle_effect k t leaf e) = er_board e
  ∧ er_ceremony (lifecycle_effect k t leaf e) = er_ceremony e
  ∧ er_counted (lifecycle_effect k t leaf e) = er_counted e.
Proof.
  unfold lifecycle_effect. destruct (String.eqb k _); [|destruct (String.eqb k _)]; repeat split.
Qed.

Lemma lifecycle_effect_restored k t leaf b e :
  k ∈ ["opened"; "closed"; "closedEarly"; "cancelled"] →
  as_restored (lifecycle_effect k t leaf (appended b e))
  = set_entries (er_entries e ++ [b]) (lifecycle_effect k t leaf (on_board b (as_restored e))).
Proof.
  intros Hk. unfold as_restored at 2. destruct (bool_decide (er_state e = Registration));
    set_unfold in Hk; destruct_or! Hk; subst k; reflexivity.
Qed.

Lemma lifecycle_kinds_in k :
  k ∈ ["opened"; "closed"; "closedEarly"; "cancelled"] → k ∈ lifecycle_kinds.
Proof. unfold lifecycle_kinds. set_solver. Qed.

Lemma durable_lifecycle e0 e w k t i e1 w1 :
  durable e0 (e, w) → k ∈ ["opened"; "closed"; "closedEarly"; "cancelled"] →
  append (mk_obj {[ "kind" := VStr k; "occurredAt" := VStr t ]}) (e, w) = Some (Ok i, (e1, w1)) →
  i = Z.of_nat (length (er_entries e)) ∧ durable e0 (lifecycle_effect k t i e1, w1).
Proof.
  intros Hd Hk Ha. pose proof (dur_open _ _ Hd) as Do. pose proof (dur_log _ _ Hd) as Dl.
  simpl in Do, Dl.
  destruct (append_inv _ _ _ _ _ Ha) as (b & Hb & Hi & He1 & _). simpl in He1.
  rewrite board_len_ok in Hi by exact Dl. subst i. split; [reflexivity|].
  destruct (kind_of_lifecycle k t) as (Hkind & _ & Hat).
  destruct (lifecycle_effect_fields k t (Z.of_nat (length (er_entries e))) e1)
    as (Hcfg & Hent & Hbd & Hcer & Hcnt).
  destruct (lifecycle_effect_fields k t (Z.of_nat (length (er_entries e))) (on_board b (as_restored e)))
    as (_ & Hent' & _).
  destruct (as_restored_fields e) as (Fe & _ & Fc & _).
  eapply (durable_entry e0 e w _ k _ e1 w1 b); [exact Hd|exact Ha|exact Hb|apply can_str_obj|exact Hkind
    | |exact Hat| | | | | | | | |].
  - by apply lifecycle_kinds_in.
  - intros r w2 _. apply replay_lifecycle_effect; [exact Hk|]. exact (eq_trans Fc Do).
  - rewrite He1. by apply lifecycle_effect_restored.
  - rewrite Hent'. exact Fe.
  - by rewrite Hent, He1.
  - by rewrite Hbd, He1.
  - by rewrite Hcer, He1.
  - by rewrite He1 in Hcfg |- *.
  - rewrite Hcnt, He1. simpl. lia.
  - intros tg a bl. rewrite Hcnt, He1. by left.
Qed.

Lemma durable_registration e0 e w :
  durable e0 (e, w) → er_state e = Registered → durable e0 (set_state Registration e, w).
Proof.
  intros [Do Dw Ds Dl Dj Dc Dv Dr] Hs. split; try done. intros r w2 Hag.
  assert (as_restored (set_state Registration e) = as_restored e) as Has;
    [|cbn [fst]; rewrite Has; exact (Dr r w2 Hag)].
  unfold as_restored. rewrite bool_decide_eq_true_2 by done.
  rewrite bool_decide_eq_false_2 by (by rewrite Hs). rewrite <- Hs. by destruct e.
Qed.

(** ** The result *)

Definition canonical_members (m : gmap string Value) : Prop :=
  ∀ k v, m !! k = Some v → canonical_value v.

Lemma can_members_insert k v m :
  canonical_value v → canonical_members m → canonical_members (<[k := v]> m).
Proof. intros Hv Hm j x [[_ <-]|[_ Hj]]%lookup_insert_Some; [done|by eapply Hm]. Qed.

Lemma can_members_singleton k v : canonical_value v → canonical_members {[ k := v ]}.
Proof. by intros Hv j x [_ <-]%lookup_singleton_Some. Qed.

Ltac canonical :=
  repeat first [ apply can_obj | apply can_members_insert | apply can_members_singleton ];
  try solve [constructor; lia | constructor | done].

(** An entry with its kind and one more member. *)
Lemma kind_of_entry k f v :
  f ≠ "kind" → f ≠ "at" →
  as_str (json_index (mk_obj {[ "kind" := VStr k; f := v ]}) "kind") = Some k
  ∧ json_index (mk_obj {[ "kind" := VStr k; f := v ]}) f = v
  ∧ json_get (mk_obj {[ "kind" := VStr k; f := v ]}) "at" = None.
Proof.
  intros Hk Ha. rewrite !json_index_obj, json_get_mk_obj, lookup_insert_eq.
  rewrite lookup_insert_ne, lookup_singleton_eq by done.
  rewrite lookup_insert_ne, lookup_singleton_ne by done. done.
Qed.

Lemma durable_result e0 e w r e1 w1 :
  durable e0 (e, w) → canonical_value r →
  set_tallied r (e, w) = Some (Ok (), (e1, w1)) → durable e0 (e1, w1).
Proof.
  intros Hd Hr (i & [e2 w2] & Ha & Hu)%bind_run_inv. rewrite update_run in Hu.
  injection Hu as <- <-.
  destruct (append_inv _ _ _ _ _ Ha) as (b & Hb & _ & He2 & _). simpl in He2. subst e2.
  destruct (as_restored_fields e) as (Fe & _).
  pose proof (dur_open _ _ Hd) as Do. simpl in Do.
  eapply (durable_entry e0 e w _ "result" i (appended b e) w2 b _
            (set_state Tallied (set_result (Some r) (on_board b (as_restored e)))));
    [exact Hd|exact Ha|exact Hb| | | | | | |exact Fe|done|done|exact Do|by repeat split|simpl; lia|by left].
  - canonical.
  - by apply (kind_of_entry "result" "result" r).
  - by apply in_lifecycle.
  - by apply (kind_of_entry "result" "result" r).
  - intros r' w3 _. unfold replay_lifecycle.
    destruct (kind_of_entry "result" "result" r) as (-> & -> & _); done.
  - unfold as_restored at 2. by destruct (bool_decide (er_state e = Registration)).
Qed.

Lemma set_tallied_result r x x' : set_tallied r x = Some (Ok (), x') → er_result x'.1 = Some r.
Proof.
  intros (i & [e2 w2] & _ & Hu)%bind_run_inv. rewrite update_run in Hu. by injection Hu as <-.
Qed.

Lemma durable_close e0 e w kind at_ e1 w1 :
  durable e0 (e, w) → kind ∈ ["closed"; "closedEarly"] →
  Record.close kind at_ (e, w) = Some (Ok (), (e1, w1)) → exact_numbers e1 → durable e0 (e1, w1).
Proof.
  intros Hd Hk (i & [e2 w2] & Ha & Hr)%bind_run_inv Hsmall.
  rewrite (bind_run _ _ _ _ _ (update_run _ _ _)) in Hr.
  apply bind_run_inv in Hr as (e3 & y & [= <- <-] & Hr).
  rewrite (bind_run _ _ _ _ _ (update_run _ _ _)) in Hr.
  assert (kind ∈ ["opened"; "closed"; "closedEarly"; "cancelled"]) as Hk' by set_solver.
  destruct (durable_lifecycle _ _ _ _ _ _ _ _ Hd Hk' Ha) as [-> Hd'].
  assert (er_ceremony e2 = None) as Hc.
  { destruct (lifecycle_effect_fields kind (time at_) (Z.of_nat (length (er_entries e))) e2)
      as (_ & _ & _ & <- & _). exact (dur_open _ _ Hd'). }
  simpl in Hr. rewrite Hc in Hr. apply bind_run_inv in Hr as (e3 & y & [= <- <-] & Hr).
  apply bind_run_inv in Hr as (r & y & Ht & Hr). simpl in Ht.
  unfold try_or_panic in Ht. destruct (tally_now _ _ _) as [r'|] eqn:Et; simplify_eq/=.
  assert (lifecycle_effect kind (time at_) (Z.of_nat (length (er_entries e))) e2
          = set_state Closed (set_closing (Some (Z.of_nat (length (er_entries e)), time at_)) e2)) as He.
  { set_unfold in Hk. by destruct_or! Hk; subst kind. }
  rewrite He in Hd'. eapply durable_result; [exact Hd'| |exact Hr].
  by apply (exact_result _ Hsmall), (set_tallied_result _ _ _ Hr).
Qed.

(** ** The clock's steps *)

Lemma when_inv {S} c (m : M S unit) s u s' :
  when c m s = Some (Ok u, s') → (c = true ∧ m s = Some (Ok (), s')) ∨ s' = s.
Proof. destruct u, c; [by left|]. intros [= <-]. by right. Qed.

(** An open election has no ceremony whose deadline could pass. *)
Lemma deadline_open x u x' :
  er_ceremony x.1 = None → ceremony_deadline x = Some (Ok u, x') → x' = x.
Proof.
  intros Ho Hc. unfold ceremony_deadline in Hc.
  apply bind_run_inv in Hc as (e3 & y & [= <- <-] & Hc). rewrite Ho in Hc. by injection Hc.
Qed.

Lemma durable_open_step e0 e w at_ e1 w1 :
  durable e0 (e, w) →
  (_ ← ceremony_deadline;
   _ ← append (mk_obj {[ "kind" := VStr "opened"; "occurredAt" := VStr (time at_) ]});
   update (set_state Voting)) (e, w) = Some (Ok (), (e1, w1)) →
  durable e0 (e1, w1).
Proof.
  intros Hd (u & y & Hc & Hr)%bind_run_inv.
  apply deadline_open in Hc; [|exact (dur_open _ _ Hd)]. subst y.
  apply bind_run_inv in Hr as (i & [e2 w2] & Ha & Hr). rewrite update_run in Hr.
  injection Hr as <- <-.
  assert ("opened" ∈ ["opened"; "closed"; "closedEarly"; "cancelled"]) as Hk by set_solver.
  by destruct (durable_lifecycle _ _ _ _ _ _ _ _ Hd Hk Ha) as [-> Hd'].
Qed.

Lemma durable_advance e0 e w now e1 w1 :
  durable e0 (e, w) → advance now (e, w) = Some (Ok (), (e1, w1)) → exact_numbers e1 →
  durable e0 (e1, w1).
Proof.
  intros Hd Hr Hsmall. unfold advance in Hr.
  apply bind_run_inv in Hr as (e' & y & [= <- <-] & Hr). simpl in Hr.
  apply bind_run_inv in Hr as (u & [e2 w2] & Hreg & Hr).
  assert (durable e0 (e2, w2)) as Hd2.
  { apply when_inv in Hreg as [[Hc Hu]| [= -> ->]]; [|done]. rewrite update_run in Hu.
    injection Hu as <- <-. apply andb_true_iff in Hc as [Hs%bool_decide_eq_true _].
    by apply durable_registration. }
  apply bind_run_inv in Hr as (e' & y & [= <- <-] & Hr). simpl in Hr.
  apply bind_run_inv in Hr as (u' & [e3 w3] & Hopn & Hr).
  assert (durable e0 (e3, w3)) as Hd3.
  { apply when_inv in Hopn as [[_ Hu]| [= -> ->]]; [|done]. by eapply durable_open_step. }
  apply bind_run_inv in Hr as (e' & y & [= <- <-] & Hr). simpl in Hr.
  apply when_inv in Hr as [[_ Hu]| [= -> ->]]; [|done].
  eapply durable_close; [exact Hd3| |exact Hu|exact Hsmall]. set_solver.
Qed.

(** ** Casts *)

Lemma append_run v e (w : World) b (j : JState) :
  jcs_to_vec v = Ok b →
  journal_entry (er_community e) (er_id e) (Z.of_nat (board_len (er_board e))) b (w_journal w)
    = (Ok (), j) →
  append v (e, w) = Some (Ok (Z.of_nat (board_len (er_board e))), (appended b e, mk_world j (w_os w))).
Proof.
  intros Hb Hj. unfold append, jcs. rewrite Hb.
  rewrite (bind_run _ _ _ b (e, w)) by done. rewrite (bind_run _ _ _ e (e, w)) by done.
  rewrite (bind_run _ _ _ () (e, mk_world j (w_os w))); [by rewrite (bind_run _ _ _ _ _ (update_run _ _ _))|].
  unfold on_journal. simpl. by rewrite Hj.
Qed.

(** A receipt's token is journalled beside the board, at the next leaf. *)
Lemma durable_receipt e0 e w token j os :
  durable e0 (e, w) → Z.of_nat (length (er_entries e)) ≤ u64_max → is_utf8 token = true →
  let n := Z.of_nat (length (er_entries e)) in
  journal_receipt (er_community e) (er_id e) n token (w_journal w) = (Ok (), j) →
  durable e0 (e, mk_world j os) ∧ re_receipts (journalled (e, mk_world j os)) !! n = Some token.
Proof.
  intros [Do Dw Ds Dl Dj Dc Dv Dr] Hn Ht n Hr.
  destruct (journal_receipt_law _ _ n token _ _ Dw ltac:(lia) Ht Hr) as [Dw' Hj].
  assert (journalled (e, mk_world j os) = mk_restored (re_election (journalled (e, w)))
            (re_entries (journalled (e, w))) (<[n := token]> (re_receipts (journalled (e, w))))) as Hj'
    by exact Hj.
  split; [|rewrite Hj'; cbn [re_receipts]; by rewrite lookup_insert_eq].
  split; rewrite ?Hj'; try done. intros r w2 Hag. apply Dr. intros i Hi.
  rewrite (Hag i Hi). simpl in *. rewrite lookup_insert_ne; [done|]. subst n. lia.
Qed.

Ltac by_state e :=
  unfold as_restored; destruct (decide (er_state e = Registration)) as [E|E];
  [rewrite !bool_decide_eq_true_2 by exact E | rewrite !bool_decide_eq_false_2 by exact E]; reflexivity.

(** What replaying a cast does to the record. *)
Definition cast_effect (cj bj : bytes) (wc : WireCast) (a : AdmittedCast) (e : ElectionRecord)
  : ElectionRecord :=
  set_counted (<[wc_tag wc := (a, wc_ballot wc)]> (er_counted e))
    (set_exact (<[sha256 cj := a]> (er_exact e)) e).

Lemma replay_cast v cv cj bj wc leaf r token e w :
  as_str (json_index v "kind") = Some "cast" → json_index v "cast" = cv →
  jcs_to_vec cv = Ok cj → jcs_to_vec (json_index cv "ballot") = Ok bj →
  parse_wire_cast cv = Ok wc → r !! leaf = Some token →
  replay_lifecycle v leaf r (e, w)
  = Some (Ok (), (cast_effect cj bj wc (mk_admitted leaf (sha256 bj) token) e, w)).
Proof.
  intros Hk Hc Hcj Hbj Hwc Hr. unfold replay_lifecycle. rewrite Hk, Hc.
  cbn -[mbind update]. unfold jcs, parse. rewrite Hcj, Hbj, Hwc, Hr.
  rewrite (bind_run _ _ _ cj (e, w)) by done. rewrite (bind_run _ _ _ bj (e, w)) by done.
  rewrite (bind_run _ _ _ wc (e, w)) by done.
  rewrite (bind_run _ _ _ _ _ (update_run _ _ _)), update_run. done.
Qed.

Lemma durable_cast_entry e0 e w cv cj bj wc token i e1 w1 :
  durable e0 (e, w) → re_receipts (journalled (e, w)) !! Z.of_nat (length (er_entries e)) = Some token →
  append (mk_obj {[ "kind" := VStr "cast"; "cast" := cv ]}) (e, w) = Some (Ok i, (e1, w1)) →
  canonical_value cv → jcs_to_vec cv = Ok cj → jcs_to_vec (json_index cv "ballot") = Ok bj →
  parse_wire_cast cv = Ok wc →
  durable e0 (cast_effect cj bj wc (mk_admitted i (sha256 bj) token) e1, w1).
Proof.
  intros Hd Htok Ha Hcan Hcj Hbj Hwc.
  destruct (append_inv _ _ _ _ _ Ha) as (b & Hb & Hi & He1 & _). simpl in He1. subst e1.
  destruct (as_restored_fields e) as (Fe & _).
  pose proof (dur_open _ _ Hd) as Do. pose proof (dur_log _ _ Hd) as Dl. simpl in Do, Dl.
  rewrite board_len_ok in Hi by exact Dl. subst i.
  destruct (kind_of_entry "cast" "cast" cv) as (Hk & Hc & Hat); [done..|].
  set (adm := mk_admitted _ _ _).
  eapply (durable_entry e0 e w _ "cast" _ (appended b e) w1 b _
            (cast_effect cj bj wc adm (on_board b (as_restored e))));
    [exact Hd|exact Ha|exact Hb| |exact Hk| |exact Hat| | |exact Fe|done|done|exact Do|by repeat split| |].
  - canonical.
  - by apply in_lifecycle.
  - intros r w2 Hag. eapply replay_cast; [exact Hk|exact Hc|exact Hcj|exact Hbj|exact Hwc|].
    exact (eq_trans (agree_last _ _ _ Hag) Htok).
  - by_state e.
  - simpl. rewrite map_size_insert. destruct (er_counted e !! wc_tag wc); simpl; lia.
  - intros t a bl Ht. simpl in Ht.
    apply lookup_insert_Some in Ht as [[_ [= <- <-]]|[_ Ht]]; [by right|by left].
Qed.

Lemma can_replaced tag from by_ :
  Z.abs from ≤ 2 ^ 53 → Z.abs by_ ≤ 2 ^ 53 →
  canonical_value (mk_obj {[ "kind" := VStr "replaced"; "tag" := VStr tag;
                             "replaces" := VNum from; "by" := VNum by_ ]}).
Proof. intros Hf Hb. canonical. Qed.

Lemma durable_replaced e0 e w tag from by_ i e1 w1 :
  durable e0 (e, w) → Z.abs from ≤ 2 ^ 53 → Z.abs by_ ≤ 2 ^ 53 →
  append (mk_obj {[ "kind" := VStr "replaced"; "tag" := VStr tag;
                    "replaces" := VNum from; "by" := VNum by_ ]}) (e, w) = Some (Ok i, (e1, w1)) →
  durable e0 (e1, w1).
Proof.
  intros Hd Hf Hby Ha.
  destruct (append_inv _ _ _ _ _ Ha) as (b & Hb & Hi & He1 & _). simpl in He1. subst e1.
  destruct (as_restored_fields e) as (Fe & _). pose proof (dur_open _ _ Hd) as Do. simpl in Do.
  assert (as_str (json_index (mk_obj {[ "kind" := VStr "replaced"; "tag" := VStr tag;
            "replaces" := VNum from; "by" := VNum by_ ]}) "kind") = Some "replaced") as Hk
    by by rewrite json_index_obj.
  eapply (durable_entry e0 e w _ "replaced" i (appended b e) w1 b _ (on_board b (as_restored e)));
    [exact Hd|exact Ha|exact Hb| |exact Hk| | | | |exact Fe|done|done|exact Do|by repeat split
    |simpl; lia|by left].
  - by apply can_replaced.
  - by apply in_lifecycle.
  - by rewrite json_get_mk_obj.
  - intros r w2 _. unfold replay_lifecycle. by rewrite Hk.
  - by_state e.
Qed.
(** An append succeeds alike whatever else the record holds. *)
Lemma append_same v e e' w i e1 w1 :
  append v (e, w) = Some (Ok i, (e1, w1)) → er_board e' = er_board e → same_config e e' →
  ∃ b, e1 = appended b e ∧ append v (e', w) = Some (Ok i, (appended b e', w1)).
Proof.
  intros Ha Hb (Hc1 & Hc2 & _). destruct (append_inv _ _ _ _ _ Ha) as (b & Hj & -> & He & Hm & Ho).
  simpl in He, Hm, Ho. exists b. split; [exact He|]. rewrite <- Hb.
  rewrite (append_run v e' w b (w_journal w1)); [|exact Hj|].
  - destruct w1. simpl in Ho. by rewrite <- Ho.
  - unfold er_id in *. by rewrite Hc1, Hc2, Hb.
Qed.

Lemma open_cast_new e p payload cd bd bj tag held att :
  open_cast e p payload = Ok (NewCast cd bd bj tag held att) →
  ∃ cj, jcs_to_vec (json_index payload "cast") = Ok cj ∧ cd = sha256 cj
    ∧ jcs_to_vec (json_index (json_index payload "cast") "ballot") = Ok bj ∧ bd = sha256 bj
    ∧ tag = wc_tag (p_cast p) ∧ held = fst <$> er_counted e !! tag.
Proof.
  unfold open_cast. intros (u1 & _ & (u2 & _ & (u3 & _ & (cj & Hcj & (bj' & Hbj & Ho)%bind_ok)
    %bind_ok)%bind_ok)%bind_ok)%bind_ok.
  destruct (er_exact e !! _); [done|].
  apply bind_ok in Ho as (u4 & _ & (a & _ & (t & _ & (u5 & _ & Ho)%bind_ok)%bind_ok)%bind_ok).
  injection Ho as <- <- <- <- <- <-. exists cj. unfold jcs in Hcj, Hbj.
  destruct (jcs_to_vec _); simplify_eq/=. destruct (jcs_to_vec _); simplify_eq/=. done.
Qed.

Lemma expect_inv {S A} (o : option A) (s : S) a s' : expect o s = Some (Ok a, s') → o = Some a ∧ s' = s.
Proof. unfold expect. destruct o; [|done]. by intros [= -> ->]. Qed.

Lemma receipt_keeps t a o now (x x' : ElectionRecord * World) v :
  receipt t a o now x = Some (Ok v, x') → x' = x.
Proof.
  unfold receipt. intros (e & y & [= <- <-] & Hr)%bind_run_inv.
  apply bind_run_inv in Hr as (l & y & [_ ->]%expect_inv & Hr).
  apply bind_run_inv in Hr as (h & y & [_ ->]%expect_inv & [_ ->]%try_inv). done.
Qed.

(** An admitted cast's entries keep the record durable once its two updates
    are made. *)
Lemma durable_admit e0 e w cv cj bj wc tag held a o e1 w1 :
  durable e0 (e, w) →
  admit_cast "cast" cv (sha256 bj) tag held (e, w) = Some (Ok (a, o), (e1, w1)) →
  held = fst <$> er_counted e !! tag → Z.of_nat (length (er_entries e1)) ≤ 2 ^ 53 →
  canonical_value cv → jcs_to_vec cv = Ok cj → jcs_to_vec (json_index cv "ballot") = Ok bj →
  parse_wire_cast cv = Ok wc →
  durable e0 (cast_effect cj bj wc a e1, w1).
Proof.
  intros Hd Hrun Hheld Hsmall Hcan Hcj Hbj Hwc.
  pose proof (ext_entries _ _ (admit_cast_steps extends _ _ _ _ _ _ _ _ Hrun)) as Hlen.
  apply prefix_length in Hlen. simpl in Hlen.
  apply bind_run_inv in Hrun as (token & [e' w'] & Hf & Hr). unfold fill_bytes in Hf. destruct (os_fill (w_os w)) as [t o'] eqn:Ho. injection Hf as <- <- <-.
  apply bind_run_inv in Hr as (e' & y & [= <- <-] & Hr).
  apply bind_run_inv in Hr as (u & [e2 w2] & Hj & Hr). unfold on_journal in Hj.
  set (tok := multibase_encode _) in *. simpl in Hj.
  pose proof (dur_log _ _ Hd) as Dl. simpl in Dl. rewrite board_len_ok in Hj by exact Dl.
  destruct (journal_receipt _ _ _ _ _) as [[[]|] j] eqn:Hjr; [|done]. injection Hj as <- <- <-.
  destruct (durable_receipt e0 e w tok j o' Hd) as [Hd1 Htok];
    [unfold u64_max; lia|apply multibase_utf8|exact Hjr|].
  apply bind_run_inv in Hr as (leaf & [e2 w3] & Ha & Hr).
  destruct (append_inv _ _ _ _ _ Ha) as (b & _ & Hleaf & He2 & _). simpl in He2. subst e2.
  pose proof (durable_cast_entry _ _ _ _ _ _ _ _ _ _ _ Hd1 Htok Ha Hcan Hcj Hbj Hwc) as Hd2.
  destruct held as [prev|]; [|by injection Hr as <- <- <- <-].
  apply bind_run_inv in Hr as (i & [e2 w4] & Ha2 & Hr). injection Hr as <- <- <- <-.
  destruct (append_same _ _ (cast_effect cj bj wc (mk_admitted leaf (sha256 bj) tok) (appended b e))
              _ _ _ _ Ha2) as (b2 & -> & Ha3); [done|by repeat split|].
  assert (0 ≤ leaf ≤ 2 ^ 53 ∧ 0 ≤ ad_leaf prev ≤ 2 ^ 53) as [Hl1 Hl2].
  { simpl in Hsmall. rewrite !length_app in Hsmall. simpl in Hsmall.
    rewrite board_len_ok in Hleaf by exact Dl. split; [lia|].
    destruct (er_counted e !! tag) as [[a bl]|] eqn:Hc; [|done]. injection Hheld as ->.
    pose proof (dur_leaves _ _ Hd _ _ _ Hc) as Hb. simpl in Hb. lia. }
  eapply (durable_replaced e0 _ w3 tag (ad_leaf prev) leaf); [exact Hd2|lia..|exact Ha3].
Qed.

(** An accepted cast either changes nothing or is admitted under its tag. *)
Lemma cast_election_inv e w p payload verified now v e1 w1 :
  cast_election p payload verified now (e, w) = Some (Ok v, (e1, w1)) →
  (e1, w1) = (e, w) ∨ ∃ cj bj held att a o e2,
    open_cast e p payload = Ok (NewCast (sha256 cj) (sha256 bj) bj (wc_tag (p_cast p)) held att)
    ∧ jcs_to_vec (json_index payload "cast") = Ok cj
    ∧ jcs_to_vec (json_index (json_index payload "cast") "ballot") = Ok bj
    ∧ held = fst <$> er_counted e !! wc_tag (p_cast p)
    ∧ (covered verified (er_key e) (sha256 cj) = true
       ∨ ∃ v, cast_check_run (open_check e (sha256 cj) bj att) = Ok v)
    ∧ (∀ a', held = Some a' → ad_digest a' ≠ sha256 bj)
    ∧ admit_cast "cast" (json_index payload "cast") (sha256 bj) (wc_tag (p_cast p)) held (e, w)
      = Some (Ok (a, o), (e2, w1))
    ∧ e1 = set_counted (<[wc_tag (p_cast p) := (a, wc_ballot (p_cast p))]> (er_counted e2))
             (set_exact (<[sha256 cj := a]> (er_exact e2)) e2).
Proof.
  intros (e' & y & [= <- <-] & Hr)%bind_run_inv.
  apply bind_run_inv in Hr as (o & y & [Ho ->]%try_inv & Hr).
  destruct o as [a|cd bd bj tag held att]; [left; by apply receipt_keeps in Hr|].
  destruct (open_cast_new _ _ _ _ _ _ _ _ _ Ho) as (cj & Hcj & -> & Hbj & -> & -> & Hheld).
  apply bind_run_inv in Hr as (u & y & Hc & Hr).
  assert (y = (e, w) ∧ (covered verified (er_key e) (sha256 cj) = true
            ∨ ∃ v, cast_check_run (open_check e (sha256 cj) bj att) = Ok v)) as [-> Hrun].
  { destruct (covered _ _ _); [split; [by injection Hc|by left]|].
    apply bind_run_inv in Hc as (v' & y' & [Hv ->]%try_inv & Hc).
    split; [by injection Hc|right; by exists v']. }
  assert ((∀ a', held = Some a' → ad_digest a' ≠ sha256 bj) →
    (r ← admit_cast "cast" (json_index payload "cast") (sha256 bj) (wc_tag (p_cast p)) held;
     _ ← update (λ e, set_exact (<[sha256 cj := r.1]> (er_exact e)) e);
     _ ← update (λ e, set_counted (<[wc_tag (p_cast p) := (r.1, wc_ballot (p_cast p))]> (er_counted e)) e);
     receipt "cast" r.1 r.2 now) (e, w) = Some (Ok v, (e1, w1)) →
    ∃ a o e2, admit_cast "cast" (json_index payload "cast") (sha256 bj) (wc_tag (p_cast p)) held (e, w)
        = Some (Ok (a, o), (e2, w1))
      ∧ e1 = set_counted (<[wc_tag (p_cast p) := (a, wc_ballot (p_cast p))]> (er_counted e2))
             (set_exact (<[sha256 cj := a]> (er_exact e2)) e2)) as Hgo.
  { intros _ Hm. apply bind_run_inv in Hm as ([a o] & [e2 w2] & Ha & Hm).
    rewrite (bind_run _ _ _ _ _ (update_run _ _ _)), (bind_run _ _ _ _ _ (update_run _ _ _)) in Hm.
    apply receipt_keeps in Hm. injection Hm as -> ->. by exists a, o, e2. }
  destruct held as [a|].
  - case_bool_decide as Hd; [left; by apply receipt_keeps in Hr|]. right.
    assert (∀ a', Some a = Some a' → ad_digest a' ≠ sha256 bj) as Hne by by intros a' [= <-].
    destruct (Hgo Hne Hr) as (a2 & o & e2 & Ha & He).
    by exists cj, bj, (Some a), att, a2, o, e2.
  - right. destruct (Hgo ltac:(done) Hr) as (a2 & o & e2 & Ha & He).
    by exists cj, bj, None, att, a2, o, e2.
Qed.

Lemma durable_cast e0 e w p payload verified now v e1 w1 :
  durable e0 (e, w) → parse_cast payload = Ok p → canonical_value (json_index payload "cast") →
  cast_election p payload verified now (e, w) = Some (Ok v, (e1, w1)) → exact_numbers e1 →
  durable e0 (e1, w1).
Proof.
  intros Hd Hp Hcan [[= -> ->]|(cj & bj & held & att & a & o & e2 & _ & Hcj & Hbj & Hheld & _ & _ & Ha & ->)]
    %cast_election_inv Hsmall; [done|].
  eapply (durable_admit e0 e w _ cj bj (p_cast p)); [exact Hd|exact Ha|exact Hheld|exact (exact_board _ Hsmall)|exact Hcan
    |exact Hcj|exact Hbj|by apply wire_cast_nested].
Qed.

Lemma durable_cancel e0 e w now e1 w1 :
  durable e0 (e, w) →
  (_ ← append (mk_obj {[ "kind" := VStr "cancelled"; "occurredAt" := VStr (time now) ]});
   update (set_state Cancelled)) (e, w) = Some (Ok (), (e1, w1)) →
  durable e0 (e1, w1).
Proof.
  intros Hd (i & [e2 w2] & Ha & Hr)%bind_run_inv. rewrite update_run in Hr. injection Hr as <- <-.
  assert ("cancelled" ∈ ["opened"; "closed"; "closedEarly"; "cancelled"]) as Hk by set_solver.
  by destruct (durable_lifecycle _ _ _ _ _ _ _ _ Hd Hk Ha) as [_ Hd'].
Qed.

(** A record just built has nothing but its configuration. *)
Lemma build_record_fresh mv ps e :
  build_record mv ps = Ok e →
  er_entries e = [] ∧ er_board e = from_leaves [] ∧ er_counted e = ∅ ∧ er_state e = Registered.
Proof.
  unfold build_record. repeat setoid_rewrite bind_ok.
  intros (? & _ & m & _ & ? & _ & ? & _ & ? & _ & ? & _ & ? & _ & ? & _ & c & _ & v & _ & [= <-]).
  done.
Qed.

(** The record the stored manifest and parameters build. *)
Context (e0 : ElectionRecord).
Hypothesis Hbuilt : build_record (st_manifest stored) (st_parameters stored) = Ok e0.
Hypothesis Hopen : er_ceremony e0 = None.

Lemma durable_start w :
  journal_whole (w_journal w) → re_election (journalled (e0, w)) = Some stored → re_entries (journalled (e0, w)) = [] →
  durable e0 (e0, w).
Proof.
  destruct (build_record_fresh _ _ _ Hbuilt) as (Je & Jb & Jc & Js). intros Hw Hs Hj. split; simpl.
  - done.
  - done.
  - done.
  - unfold log_ok. by rewrite Jb, Je.
  - by rewrite Hj, Je.
  - by rewrite Jc, map_size_empty, Je.
  - intros t a b. by rewrite Jc, lookup_empty.
  - intros r w' _. rewrite Je. unfold as_restored. by rewrite bool_decide_eq_false_2 by (by rewrite Js).
Qed.

Lemma durable_life x : open_life e0 x → durable e0 x.
Proof.
  induction 1 as
    [w Hw Hs Hj|now [e w] [e1 w1] _ IH [[] Hr] Hs|payload p verified now [e w] [e1 w1] _ IH Hp Hc [v Hr] Hs
    |now [e w] [e1 w1] _ IH Hv [[] Hr] Hs|now [e w] [e1 w1] _ IH [[] Hr] Hs|[e w] w1 _ IH Hw Hj].
  - by apply durable_start.
  - by eapply durable_advance.
  - by eapply durable_cast.
  - eapply durable_close; [exact IH| |exact Hr|exact Hs]. set_solver.
  - by eapply durable_cancel.
  - destruct IH as [? _ ? ? ? ? ? Hr]. split; rewrite ?Hj; try done.
Qed.

(** ** No step leaves an open election closed and uncounted *)

Lemma set_tallied_state r x x' : set_tallied r x = Some (Ok (), x') → er_state x'.1 = Tallied.
Proof.
  intros (i & [e2 w2] & _ & Hu)%bind_run_inv. rewrite update_run in Hu. by injection Hu as <-.
Qed.

Lemma close_state kind at_ x x' :
  er_ceremony x.1 = None → Record.close kind at_ x = Some (Ok (), x') → er_state x'.1 = Tallied.
Proof.
  destruct x as [e w]. simpl. intros Hc (i & [e2 w2] & Ha & Hr)%bind_run_inv.
  destruct (append_inv _ _ _ _ _ Ha) as (b & _ & _ & He & _). simpl in He. subst e2.
  rewrite (bind_run _ _ _ _ _ (update_run _ _ _)) in Hr.
  apply bind_run_inv in Hr as (e3 & y & [= <- <-] & Hr).
  rewrite (bind_run _ _ _ _ _ (update_run _ _ _)) in Hr. simpl in Hr. rewrite Hc in Hr.
  apply bind_run_inv in Hr as (e3 & y & _ & Hr). apply bind_run_inv in Hr as (r & y' & _ & Hr).
  by eapply set_tallied_state.
Qed.

Lemma cast_state p payload v now x r x' :
  cast_election p payload v now x = Some (r, x') → er_state x'.1 = er_state x.1.
Proof.
  assert (steps_by (fst_rel (B := World) (ends_in [])) (cast_election p payload v now)) as Hst.
  { unfold cast_election. steps; try apply steps_self; try apply receipt_steps; try apply admit_cast_steps;
      try apply steps_quiet; try apply _; by repeat split. }
  intros [Hx|Hx]%Hst; [exact Hx|by apply not_elem_of_nil in Hx].
Qed.
Lemma advance_settled now e w e1 w1 :
  er_ceremony e = None → er_state e ≠ Closed →
  advance now (e, w) = Some (Ok (), (e1, w1)) → er_state e1 ≠ Closed.
Proof.
  intros Hc Hs Hr. unfold advance in Hr.
  apply bind_run_inv in Hr as (e' & y & [= <- <-] & Hr). simpl in Hr.
  apply bind_run_inv in Hr as (u & [e2 w2] & Hreg & Hr).
  assert (er_ceremony e2 = None ∧ er_state e2 ≠ Closed) as [Hc2 Hs2].
  { apply when_inv in Hreg as [[_ Hu]| [= -> ->]]; [|done]. rewrite update_run in Hu.
    by injection Hu as <- <-. }
  apply bind_run_inv in Hr as (e' & y & [= <- <-] & Hr). simpl in Hr.
  apply bind_run_inv in Hr as (u' & [e3 w3] & Hopn & Hr).
  assert (er_ceremony e3 = None ∧ er_state e3 ≠ Closed) as [Hc3 Hs3].
  { apply when_inv in Hopn as [[_ Hu]| [= -> ->]]; [|done].
    apply bind_run_inv in Hu as (u'' & y & Hd & Hu). apply deadline_open in Hd; [|exact Hc2]. subst y.
    apply bind_run_inv in Hu as (i & [e4 w4] & Ha & Hu).
    destruct (append_inv _ _ _ _ _ Ha) as (b & _ & _ & He & _). simpl in He. subst e4.
    rewrite update_run in Hu. by injection Hu as <- <-. }
  apply bind_run_inv in Hr as (e' & y & [= <- <-] & Hr). simpl in Hr.
  apply when_inv in Hr as [[_ Hu]| [= -> ->]]; [|done].
  apply close_state in Hu; [|done]. simpl in Hu. by rewrite Hu.
Qed.

Lemma life_settled x : open_life e0 x → er_state x.1 ≠ Closed.
Proof.
  destruct (build_record_fresh _ _ _ Hbuilt) as (_ & _ & _ & Js).
  induction 1 as
    [w Hw Hs Hj|now [e w] [e1 w1] Hl IH [[] Hr] Hs|payload p verified now [e w] [e1 w1] Hl IH Hp Hc [v Hr] Hs
    |now [e w] [e1 w1] Hl IH Hv [[] Hr] Hs|now [e w] [e1 w1] Hl IH [[] Hr] Hs|[e w] w1 Hl IH Hw Hj];
    try pose proof (dur_open _ _ (durable_life _ Hl)) as Ho.
  - simpl. by rewrite Js.
  - by eapply advance_settled.
  - apply cast_state in Hr. by rewrite Hr.
  - apply close_state in Hr; [|done]. by rewrite Hr.
  - apply bind_run_inv in Hr as (i & [e2 w2] & _ & Hr). rewrite update_run in Hr. by injection Hr as <- <-.
  - exact IH.
Qed.

Lemma life_extends x : open_life e0 x → extends e0 x.1.
Proof.
  induction 1 as
    [w Hw Hs Hj|now [e w] [e1 w1] Hl IH [[] Hr] Hs|payload p verified now [e w] [e1 w1] Hl IH Hp Hc [v Hr] Hs
    |now [e w] [e1 w1] Hl IH Hv [[] Hr] Hs|now [e w] [e1 w1] Hl IH [[] Hr] Hs|[e w] w1 Hl IH Hw Hj]; [reflexivity|..|exact IH];
    (etrans; [exact IH|]).
  - exact (advance_extends now _ _ _ Hr).
  - by destruct (cast_election_evolves _ _ _ _ _ _ _ Hr) as [He _].
  - exact (close_steps extends _ _ _ _ _ Hr).
  - apply bind_run_inv in Hr as (i & [e2 w2] & Ha & Hr). rewrite update_run in Hr. injection Hr as <- <-.
    etrans; [exact (append_steps extends _ _ _ _ Ha)|]. by split; [repeat split| |].
Qed.

Lemma on_new_record_run k e (s : Service) (w : World) (m m' : M (ElectionRecord * World) unit) e' w' :
  m (e, w) = Some (Ok (), (e', w')) → m' (e', w') = Some (Ok (), (e', w')) →
  on_new_record k e m m' (s, w) = Some (Ok (), (set_election k e' s, w')).
Proof. intros Hm Hm'. unfold on_new_record. by rewrite Hm, Hm'. Qed.

Lemma resume_settled utc e w : er_state e ≠ Closed → resume utc (e, w) = Some (Ok (), (e, w)).
Proof.
  intros Hs. unfold resume. rewrite (bind_run _ _ _ e (e, w)) by done.
  by rewrite bool_decide_eq_true_2.
Qed.

Lemma as_restored_state e : er_state e ≠ Closed → er_state (as_restored e) ≠ Closed.
Proof. unfold as_restored. by case_bool_decide. Qed.

Lemma restart_record x utc s w :
  open_life e0 x →
  restore_one utc (journalled x) (s, w)
  = Some (Ok (), (set_election (er_key x.1) (as_restored x.1) s, w)).
Proof.
  intros Hl. pose proof (durable_life _ Hl) as Hd. unfold restore_one.
  rewrite (dur_stored _ _ Hd).
  rewrite (bind_run _ _ _ e0 (s, w)) by (by rewrite Hbuilt).
  assert (er_key e0 = er_key x.1) as <-.
  { destruct (ext_config _ _ (life_extends _ Hl)) as (Hc & Hm & _). unfold er_key, er_id.
    by rewrite Hc, Hm. }
  apply on_new_record_run; [|done].
  rewrite (bind_run _ _ _ () (as_restored x.1, w)).
  - apply resume_settled, as_restored_state, life_settled, Hl.
  - rewrite (dur_journal _ _ Hd). by apply (dur_replay _ _ Hd).
Qed.

(** C13 (a restart gives back the record): take any life of an open election -
    its clock advanced, ballots cast, replaced and resent, closed early,
    cancelled - each of whose requests succeeded, or was refused before it
    wrote, with casts, board and result whose integers canonicalization keeps
    (up to [2 ^ 53]). Restarting the ballot box from the election's journal
    gives back the very record it held: every field, among them the board, the
    tag record that counts one ballot per member, the receipts, the closing
    and the published result, with nothing appended anew. Only an election
    waiting to open is registered again until its clock next advances. A
    request that failed between two of its writes is not covered. *)
Theorem restart_reproduces x utc s w :
  open_life e0 x →
  restore_one utc (journalled x) (s, w)
  = Some (Ok (), (set_election (er_key x.1) (as_restored x.1) s, w)).
Proof. apply restart_record. Qed.
End Restore.
