(* ===== verification/Crash.v ===== *)
(** * A crash, and the restart after it

    The ballot box over the journal on disk: [Restore]'s theorem about any
    journal that keeps [Host.JournalLaws], and [FileJournal]'s about a
    process that dies inside a write, together. *)

From S2P Require Import Prelude Json Election Board BallotBox Rules Tally Group Trustees Ceremony.
From S2P Require Import Wire Steps Host FileJournal AuditEncrypted Record Service ServiceEncrypted Requests Restore.

Section Crash.
Context `{Sha256, PCS, Multibase, !MultibaseLaws, Jcs, ManifestWire, ResultWire, Dalek, Sha512, Random, Aead}.
Context `{StepTasks, OsRng, Chrono, Serde, !SerdeLaws, HashOrder, HO : !HashOrderLaws}.
Context `{!Tasks, !TasksLaws, StoredSerde, !StoredSerdeLaws}.
#[local] Existing Instance FileJournal.

(** The disk under a record. *)
Definition disk_of (x : ElectionRecord * World) : Disk := (w_journal x.2 : Os).1.
Definition dir_of (x : ElectionRecord * World) : string := dir_name (er_community x.1) (er_id x.1).

Lemma file_of_registered (s : Os) c i e :
  re_election (file_of s c i) = Some e → is_Some (ef_election (default no_files (s.1 !! dir_name c i))).
Proof. unfold file_of, files_restored. cbn [re_election]. destruct (ef_election _); [by eexists|done]. Qed.

Lemma held_registered (d : Disk) c i e :
  re_election (file_of (d, []) c i) = Some e → file_of (d, []) c i ∈ held_in d.
Proof.
  intros Hr. pose proof (file_of_registered _ _ _ _ Hr) as [b Hb]. unfold file_of in *. cbn [fst] in *.
  destruct (d !! dir_name c i) as [f|] eqn:Hf; [|done]. cbn [default from_option id] in *.
  unfold held_in. rewrite hash_iter_perm. apply list_elem_of_bind. exists f. split.
  - unfold loaded. rewrite Hb. apply list_elem_of_here.
  - apply list_elem_of_fmap. exists (dir_name c i, f). split; [done|]. by apply elem_of_map_to_list.
Qed.

Lemma journalled_file x : journalled x = file_of (disk_of x, []) (er_community x.1) (er_id x.1).
Proof. done. Qed.

Context (stored : StoredElection) (e0 : ElectionRecord).
Context (Hbuilt : build_record (st_manifest stored) (st_parameters stored) = Ok e0).
Context (Hopen : er_ceremony e0 = None).

(** C12 (a crash inside a journal write, and the restart): take any life of an
    open election with the journal on disk, each of whose requests succeeded,
    or was refused before it wrote, with casts and numbers that
    canonicalization keeps. Let the process then die in the middle of the
    first journal operation that follows, the registration of an election or
    the writing of an entry or a receipt, of this election or another: [load]
    in the next process returns; among what it returns is what the journal
    held of the election, but for the record of the very operation cut short,
    if that was of this election; and restoring from what it held gives back
    the record the ballot box held. A later write of a request that had
    written already (a [replaced] entry) is not covered. *)
Theorem crash_restart x utc s w c i op t res d' t'
    (Hlife : open_life stored e0 x)
    (Hop : op_allowed op (default no_files (disk_of x !! dir_name c i)))
    (Hrun : journal_op c i op (disk_of x, t) = (res, (d', t'))) :
  ∃ (l : list Restored) (r : Restored) (d'' : Disk),
    load (d', []) = (Ok l, (d'', []))
    ∧ whole_disk d''
    ∧ r ∈ l
    ∧ (r = journalled x ∨ dir_name c i = dir_of x ∧ r = after_op op (journalled x))
    ∧ (r = journalled x →
       restore_one utc r (s, w) = Some (Ok (), (set_election (er_key x.1) (as_restored x.1) s, w))).
Proof.
  pose proof (durable_life _ _ Hbuilt Hopen _ Hlife) as Hd.
  destruct (crash_cut c i op (disk_of x) t res d' t' (dur_whole _ _ _ Hd) Hop Hrun)
    as (l & d'' & Hload & Hl & Hw & Hown & Hother).
  exists l, (file_of (d'', []) (er_community x.1) (er_id x.1)), d''.
  assert (file_of (d'', []) (er_community x.1) (er_id x.1) = journalled x
          ∨ dir_name c i = dir_of x ∧ file_of (d'', []) (er_community x.1) (er_id x.1) = after_op op (journalled x))
    as Hr.
  { destruct (decide (dir_of x = dir_name c i)) as [Heq|Hne]; [|left; by apply Hother].
    rewrite journalled_file. unfold file_of in *. cbn [fst] in *. unfold dir_of in Heq. rewrite Heq.
    destruct Hown as [->|[-> _]]; [right; by split|by left]. }
  split_and!; [done|done| |done|].
  - assert (∃ e, re_election (file_of (d'', []) (er_community x.1) (er_id x.1)) = Some e) as [e He].
    { pose proof (dur_stored _ _ _ Hd). destruct Hr as [->|[_ ->]], op; by eexists. }
    rewrite Hl. by eapply held_registered.
  - intros ->. by apply (restart_record stored e0 Hbuilt Hopen).
Qed.
End Crash.
