(* ===== verification/Certify.v ===== *)
(** * The published result of an open election certifies

    The ballot box and the auditor are written apart: this file shows they
    agree. An open election that ran to its result leaves a board every check
    of [vti-voting/src/audit.rs] accepts, and the auditor's totals are the
    published ones. *)

From S2P Require Import Prelude Json Election Board BallotBox Rules Tally Group Trustees Ceremony.
From S2P Require Import Wire Steps Host AuditEncrypted BoardAudit Record Service ServiceEncrypted.
From S2P Require Import Requests Restore.

(** What the generated result type promises: a tally's rows serialize to an
    array of objects that name their question. *)
Class ResultLaws `{TK : Tasks} := {
  results_named rs qv : question_results_to_value rs = Ok qv →
    ∃ l, qv = VArr l ∧ Forall (λ v, is_Some (as_str (json_index v "question"))) l;
}.

Section Certify.
Context `{J : Journal, !JournalLaws, Sha256, PCS, Multibase, !MultibaseLaws, Jcs, ManifestWire, ResultWire, Dalek, Sha512}.
Context `{Random, Aead, StepTasks, OsRng, Chrono, !ChronoLaws, Serde, !SerdeLaws}.
Context `{HashOrder, HO : !HashOrderLaws, !Tasks, !TasksLaws, !ResultLaws}.

(** ** Audits of a board that grows *)

Lemma order_from_app m i o l1 l2 :
  order_from m i o (l1 ++ l2) = (o' ← order_from m i o l1; order_from m (i + length l1) o' l2).
Proof.
  revert i o. induction l1 as [|v l1 IH]; intros i o; simpl; [by rewrite Nat.add_0_r|].
  destruct (order_entry m i o v) as [o1|]; simpl; [|done]. rewrite IH.
  by rewrite Nat.add_succ_r.
Qed.

Lemma audit_entries_app m d ver rv c i l1 l2 :
  audit_entries m d ver rv c i (l1 ++ l2)
  = (c' ← audit_entries m d ver rv c i l1; audit_entries m d ver rv c' (i + Z.of_nat (length l1)) l2).
Proof.
  revert i c. induction l1 as [|v l1 IH]; intros i c; simpl; [by rewrite Z.add_0_r|].
  destruct (audit_entry m d ver rv c i v) as [c1|]; simpl; [|done]. rewrite IH.
  by replace (i + 1 + Z.of_nat (length l1)) with (i + Z.of_nat (S (length l1))) by lia.
Qed.

(** A board entry's value and its bytes. *)
Definition entry_of (v : Value) (b : bytes) : Prop := canonical_value v ∧ jcs_to_vec v = Ok b.

Lemma canonical_ok v b : jcs_to_vec v = Ok b → canonical v = Ok b.
Proof. unfold canonical. by intros ->. Qed.

Lemma audit_board_from vals bs ls :
  Forall2 entry_of vals bs →
  try_fold (λ b entry, bytes ← canonical entry; Ok (board_append b bytes).2) (from_leaves ls) vals
  = Ok (from_leaves (ls ++ (leaf_hash <$> bs))).
Proof.
  intros Hv. revert ls. induction Hv as [|v b vals bs [_ Hb] Hv IH]; intros ls; simpl.
  - by rewrite app_nil_r.
  - rewrite (canonical_ok _ _ Hb). simpl. unfold board_append, from_leaves in *. simpl.
    rewrite IH. by rewrite <- app_assoc.
Qed.

Lemma audit_board_ok e vals :
  log_ok e → Forall2 entry_of vals (er_entries e) → audit_board vals = Ok (er_board e).
Proof. intros -> Hv. exact (audit_board_from _ _ [] Hv). Qed.
(** ** The election and its audit *)

(** The record the stored manifest and parameters build, as registered: its
    manifest checked, its voting times whole seconds RFC 3339 writes. *)
Context (stored : StoredElection) (e0 : ElectionRecord).
Hypothesis Hbuilt : build_record (st_manifest stored) (st_parameters stored) = Ok e0.

Lemma build_record_manifest :
  manifest_from_value (st_manifest stored) = Ok (er_manifest e0)
  ∧ er_community e0 = community (er_manifest e0).
Proof.
  pose proof Hbuilt as Hb. unfold build_record in Hb. repeat setoid_rewrite bind_ok in Hb.
  destruct Hb as (u & _ & m & Hm1%map_err_ok & vk & _ & d & _ & hvk & _ & ps & _ & i & _ & el & _
    & c & _ & v & _ & He).
  injection He as <-. exact (conj Hm1 eq_refl).
Qed.

(** What registration read and the auditor reads again. *)
Lemma build_record_audited :
  ∃ params el,
    (∃ hvk, dec_hvk (default "" (ok (parse_parameters (st_parameters stored)))) = Ok hvk
            ∧ voting_params_new (er_community e0) hvk = Ok params)
    ∧ vp_community params = er_community e0
    ∧ read_manifest (st_manifest stored) (er_community e0) = Ok (er_manifest e0, er_digest e0, el)
    ∧ ballot_box_new params el (audit_revote (er_manifest e0)) (mk_nullifiers ∅) = Ok (er_verifier e0).
Proof.
  pose proof Hbuilt as Hb. unfold build_record in Hb. repeat setoid_rewrite bind_ok in Hb.
  destruct Hb as (u & Hcur & m & Hm1 & vk & Hvk & d & Hd & hvk & Hh & ps & Hps & i & Hi & el & Hel
    & c & _ & v & Hv & He).
  injection He as <-. simpl. unfold parse, malformed_voting, rule_err in *.
  apply map_err_ok in Hcur, Hm1, Hvk, Hd, Hh, Hps, Hi, Hel, Hv. rewrite Hvk. simpl.
  exists ps, el. split_and!.
  - exists hvk. done.
  - unfold voting_params_new in Hps. repeat setoid_rewrite bind_ok in Hps.
    by destruct Hps as (_ & _ & o & _ & [= <-]).
  - unfold read_manifest, unreadable_rule, unreadable_voting. rewrite Hcur. simpl. rewrite Hm1. simpl.
    rewrite Hd. simpl. rewrite Hi. simpl. by rewrite Hel.
  - rewrite <- Hv. f_equal. unfold audit_revote. by destruct (revote m).
Qed.
Definition whole_seconds (t : Z) : Prop := representable t ∧ t mod NANOS = 0.

Record certifiable_manifest (m : Manifest) : Prop := {
  cm_open : trustees m = None;
  cm_checked : ∃ own, check_manifest m own = Ok ();
  cm_scores : Forall scores_something (questions m);
  cm_opens : whole_seconds (voting_opens_at m);
  cm_closes : whole_seconds (voting_closes_at m);
}.
Hypothesis Hm : certifiable_manifest (er_manifest e0).

(** A ballot whose JSON is what its parsed form serializes to. *)
Definition normal_ballot (payload : Value) (p : CastPayload) : Prop :=
  ballot_to_value (wc_ballot (p_cast p)) = Ok (json_index (json_index payload "cast") "ballot").

(** A proof said to have been run apart was run, on this very check. *)
Definition proof_run (verified : option VerifiedCast) (e : ElectionRecord) (p : CastPayload)
    (payload : Value) : Prop :=
  ∀ cd bd bj tag held att,
    open_cast e p payload = Ok (NewCast cd bd bj tag held att) →
    covered verified (er_key e) cd = true →
    ∃ v, cast_check_run (open_check e cd bj att) = Ok v.

(** The life of an open election that runs to its result. *)
Inductive voting_life : ElectionRecord * World → Prop :=
| vote_start w :
    journal_whole (w_journal w) → re_election (journalled (e0, w)) = Some stored → re_entries (journalled (e0, w)) = [] →
    voting_life (e0, w)
| vote_advance now x x' :
    voting_life x → runs (advance now) x x' → exact_numbers x'.1 → voting_life x'
| vote_cast payload p verified now x x' :
    voting_life x → parse_cast payload = Ok p →
    canonical_value (json_index payload "cast") → normal_ballot payload p →
    proof_run verified x.1 p payload →
    runs (cast_election p payload verified now) x x' → exact_numbers x'.1 → voting_life x'
| vote_close now x x' :
    voting_life x → er_state x.1 = Voting → allow_early_close (er_manifest x.1) = true →
    runs (Record.close "closedEarly" now) x x' → exact_numbers x'.1 → voting_life x'.

Lemma voting_is_open x : voting_life x → open_life stored e0 x.
Proof.
  induction 1.
  - by apply life_start.
  - by eapply life_advance.
  - by eapply life_cast.
  - by eapply life_close.
Qed.

(** The auditor's reading of a state. *)
Definition order_of (s : State) (n : nat) : Order :=
  match s with
  | Voting => mk_order true false false false None
  | Closed => mk_order true false true false None
  | Tallied => mk_order true false true false (Some (n - 1)%nat)
  | _ => order_new
  end.

Definition audited (x : AdmittedCast * Ballot) : Z * Ballot := (ad_leaf x.1, x.2).

Abbreviation m0 := (er_manifest e0).
Abbreviation audit_of vals :=
  (audit_entries m0 (er_digest e0) (er_verifier e0) (audit_revote m0) (mk_counting ∅ None) 0 vals).

(** The result is the counted ballots' tally, at the board before it. *)
Definition result_of (e : ElectionRecord) (vals : list Value) : Prop :=
  ∃ r n rows qv e1 at_ vals1,
    er_result e = Some r ∧ vals = vals1 ++ [mk_obj {[ "kind" := VStr "result"; "result" := r ]}]
    ∧ tally m0 (snd <$> hash_values (er_counted e)) false = Some (Ok (n, rows))
    ∧ question_results_to_value rows = Ok qv ∧ result_value e1 n qv at_ = Some r
    ∧ er_digest e1 = er_digest e0 ∧ log_ok e1 ∧ er_entries e1 `prefix_of` er_entries e
    ∧ length (er_entries e1) = length vals1.

(** What the auditor finds in the board of a running election. *)
Record certifiable (e : ElectionRecord) (vals : list Value) : Prop := {
  ce_values : Forall2 entry_of vals (er_entries e);
  ce_order : order_from m0 0 order_new vals = Ok (order_of (er_state e) (length vals));
  ce_counted : audit_of vals = Ok (mk_counting (audited <$> er_counted e) None);
  ce_held t a b : er_counted e !! t = Some (a, b) →
    check_ballot m0 (er_digest e0) b = Ok ()
    ∧ ∃ v bj, ballot_to_value b = Ok v ∧ jcs_to_vec v = Ok bj ∧ ad_digest a = sha256 bj;
  ce_result : er_state e = Tallied → result_of e vals;
}.

(** *** The auditor's steps, on the entries a ballot box writes *)

Lemma order_entry_kind m i o v k :
  as_str (json_index v "kind") = Some k → json_get v "at" = None → o_result o = None →
  k = "replaced" ∨ (k = "cast" ∧ o_opened o = true ∧ o_closing o = false) →
  order_entry m i o v = Ok o.
Proof.
  intros Hk Hat Ho Hc. unfold order_entry.
  rewrite Ho, bool_decide_eq_false_2, (no_0_1_entry _ _ Hat), Hk by (by intros []).
  destruct Hc as [->|(-> & Hop & Hcl)]; [done|]. simpl. by rewrite Hop, Hcl.
Qed.

Lemma occurred_lifecycle k t :
  whole_seconds t →
  before (mk_obj {[ "kind" := VStr k; "occurredAt" := VStr (time t) ]}) t = false.
Proof.
  intros [Hr Hw]. unfold before, occurred_at. destruct (kind_of_lifecycle k (time t)) as (_ & -> & _).
  simpl. unfold time. rewrite rfc3339_truncates by done. apply Z.ltb_ge. lia.
Qed.

Lemma order_entry_opened i :
  order_entry m0 i order_new
    (mk_obj {[ "kind" := VStr "opened"; "occurredAt" := VStr (time (voting_opens_at m0)) ]})
  = Ok (mk_order true false false false None).
Proof.
  unfold order_entry. destruct (kind_of_lifecycle "opened" (time (voting_opens_at m0))) as (Hk & _ & Hat).
  rewrite (no_0_1_entry _ _ Hat), Hk. simpl.
  by rewrite occurred_lifecycle by apply Hm.
Qed.

Lemma order_entry_close i k t :
  (k = "closed" ∧ t = voting_closes_at m0) ∨ (k = "closedEarly" ∧ allow_early_close m0 = true) →
  order_entry m0 i (mk_order true false false false None)
    (mk_obj {[ "kind" := VStr k; "occurredAt" := VStr (time t) ]})
  = Ok (mk_order true false true false None).
Proof.
  intros Hk. unfold order_entry. destruct (kind_of_lifecycle k (time t)) as (Hkd & _ & Hat).
  rewrite (no_0_1_entry _ _ Hat), Hkd. destruct Hk as [[-> ->]|[-> Ha]]; simpl.
  - by rewrite occurred_lifecycle by apply Hm.
  - by rewrite Ha.
Qed.

Lemma order_entry_result i r :
  order_entry m0 i (mk_order true false true false None)
    (mk_obj {[ "kind" := VStr "result"; "result" := r ]})
  = Ok (mk_order true false true false (Some i)).
Proof.
  unfold order_entry. destruct (kind_of_entry "result" "result" r) as (Hkd & _ & Hat); [done..|].
  by rewrite (no_0_1_entry _ _ Hat), Hkd.
Qed.

(** An entry of another kind leaves the count as it is. *)
Lemma audit_entry_other m d ver rv c i v k :
  as_str (json_index v "kind") = Some k → k ≠ "cast" → k ≠ "replaced" →
  audit_entry m d ver rv c i v = Ok c.
Proof.
  intros Hk Hc Hr. unfold audit_entry. rewrite Hk.
  by rewrite (proj2 (String.eqb_neq _ _) Hc), (proj2 (String.eqb_neq _ _) Hr).
Qed.
(** *** One entry more *)

Lemma order_extend vals o v o' :
  order_from m0 0 order_new vals = Ok o → order_entry m0 (length vals) o v = Ok o' →
  order_from m0 0 order_new (vals ++ [v]) = Ok o'.
Proof. intros Ho Hv. rewrite order_from_app, Ho. simpl. by rewrite Hv. Qed.

Abbreviation audit_one c i v :=
  (audit_entry m0 (er_digest e0) (er_verifier e0) (audit_revote m0) c i v).

Lemma audit_extend vals c v c' :
  audit_of vals = Ok c → audit_one c (Z.of_nat (length vals)) v = Ok c' →
  audit_of (vals ++ [v]) = Ok c'.
Proof.
  intros Ho Hv. rewrite audit_entries_app, Ho. cbn [mbind result_bind audit_entries].
  by rewrite Z.add_0_l, Hv.
Qed.

Lemma entries_extend vals bs v b :
  Forall2 entry_of vals bs → canonical_value v → jcs_to_vec v = Ok b →
  Forall2 entry_of (vals ++ [v]) (bs ++ [b]).
Proof. intros Hv Hc Hb. apply Forall2_app; [done|]. by constructor. Qed.

(** An entry that only moves the election on. *)
Lemma certify_entry e vals v b k e' :
  certifiable e vals → canonical_value v → jcs_to_vec v = Ok b →
  as_str (json_index v "kind") = Some k → k ≠ "cast" → k ≠ "replaced" →
  er_entries e' = er_entries e ++ [b] → er_counted e' = er_counted e →
  order_entry m0 (length vals) (order_of (er_state e) (length vals)) v
    = Ok (order_of (er_state e') (S (length vals))) →
  (er_state e' = Tallied → result_of e' (vals ++ [v])) →
  certifiable e' (vals ++ [v]).
Proof.
  intros [Cv Co Cc Ch _] Hcan Hb Hk Hkc Hkr He Hcnt Hord Hres. split; rewrite ?He, ?Hcnt; try done.
  - by apply entries_extend.
  - rewrite length_app, Nat.add_1_r. by eapply order_extend.
  - eapply audit_extend; [exact Cc|]. by eapply audit_entry_other.
Qed.

Lemma certify_opened e vals b :
  certifiable e vals → er_state e = Registered ∨ er_state e = Registration →
  jcs_to_vec (mk_obj {[ "kind" := VStr "opened"; "occurredAt" := VStr (time (voting_opens_at m0)) ]})
    = Ok b →
  ∃ vals', certifiable (set_state Voting (appended b e)) vals'.
Proof.
  intros Hc Hs Hb. eexists. eapply certify_entry; [exact Hc|apply can_str_obj|exact Hb
    |apply (kind_of_lifecycle "opened")|done|done|done|done| |done].
  assert (order_of (er_state e) (length vals) = order_new) as -> by by destruct Hs as [-> | ->].
  apply order_entry_opened.
Qed.

Lemma entries_length e vals : certifiable e vals → length vals = length (er_entries e).
Proof. intros [Cv _ _ _ _]. by eapply Forall2_length. Qed.

Lemma certify_close e vals k t b1 b2 r e2 :
  certifiable e vals → er_state e = Voting → er_manifest e = m0 → er_digest e = er_digest e0 →
  log_ok e → (size (er_counted e) ≤ length (er_entries e))%nat →
 canonical_value r →
  (k = "closed" ∧ t = voting_closes_at m0) ∨ (k = "closedEarly" ∧ allow_early_close m0 = true) →
  jcs_to_vec (mk_obj {[ "kind" := VStr k; "occurredAt" := VStr (time t) ]}) = Ok b1 →
  e2 = set_state Closed (set_closing (Some (Z.of_nat (length (er_entries e)), time t)) (appended b1 e)) →
  tally_now e2 false t = Some (Ok r) →
  jcs_to_vec (mk_obj {[ "kind" := VStr "result"; "result" := r ]}) = Ok b2 →
  ∃ vals', certifiable (set_state Tallied (set_result (Some r) (appended b2 e2))) vals'.
Proof.
  intros Hc Hs Hm0 Hd Hlog Hcnt Hr Hk Hb1 -> Ht Hb2.
  set (e2 := set_state Closed _) in *. set (v1 := mk_obj _) in Hb1.
  assert (certifiable e2 (vals ++ [v1])) as Hc2.
  { eapply certify_entry; [exact Hc|apply can_str_obj|exact Hb1|apply kind_of_lifecycle| | |done|done
      | |done]; [by destruct Hk as [[-> _]|[-> _]]..|]. rewrite Hs. by apply order_entry_close. }
  assert (log_ok e2) as Hlog2 by exact (ext_log _ _ (follows_append (R := extends) e b1) Hlog).
  eexists. eapply certify_entry; [exact Hc2| |exact Hb2|by apply kind_of_entry|done|done|done|done| |].
  - apply can_obj, can_members_insert, can_members_singleton; [constructor|done].
  - simpl. replace (length (vals ++ [v1]) - 0)%nat with (length (vals ++ [v1])) by lia.
    apply order_entry_result.
  - intros _. unfold tally_now in Ht.
    destruct (tally _ _ _) as [[[n rows]|]|] eqn:Et; [|done..]. simpl in Ht.
    destruct (question_results_to_value rows) as [qv|] eqn:Eq; [|done]. simpl in Ht.
    destruct (result_value e2 n qv t) as [r'|] eqn:Er; [|done]. injection Ht as ->.
    exists r, n, rows, qv, e2, t, (vals ++ [v1]). split_and!; try done.
    + unfold e2 in Et. simpl in Et. by rewrite Hm0 in Et.
    + by exists [b2].
    + by rewrite (entries_length _ _ Hc2).
Qed.
(** *** A cast *)

(** What [admit_cast] appends. *)
Lemma admit_cast_inv cv bd tag held e w a o e1 w1 :
  log_ok e → admit_cast "cast" cv bd tag held (e, w) = Some (Ok (a, o), (e1, w1)) →
  ∃ b1, jcs_to_vec (mk_obj {[ "kind" := VStr "cast"; "cast" := cv ]}) = Ok b1
    ∧ ad_leaf a = Z.of_nat (length (er_entries e)) ∧ ad_digest a = bd
    ∧ match held with
      | None => e1 = appended b1 e
      | Some prev => ∃ b2,
          jcs_to_vec (mk_obj {[ "kind" := VStr "replaced"; "tag" := VStr tag;
            "replaces" := VNum (ad_leaf prev); "by" := VNum (ad_leaf a) ]}) = Ok b2
          ∧ e1 = appended b2 (appended b1 e)
      end.
Proof.
  intros Hlog (token & [e' w'] & Hf & Hr)%bind_run_inv.
  unfold fill_bytes in Hf. destruct (os_fill (w_os w)) as [t o'] eqn:Ho. injection Hf as <- <- <-.
  apply bind_run_inv in Hr as (e' & y & [= <- <-] & Hr).
  apply bind_run_inv in Hr as (u & [e2 w2] & Hj & Hr). unfold on_journal in Hj.
  destruct (journal_receipt _ _ _ _ _) as [[[]|] j]; [|done]. injection Hj as <- <- <-.
  apply bind_run_inv in Hr as (leaf & [e2 w3] & Ha & Hr).
  destruct (append_inv _ _ _ _ _ Ha) as (b1 & Hb1 & Hl & He & _). simpl in He. subst e2.
  rewrite board_len_ok in Hl by exact Hlog. exists b1.
  destruct held as [prev|]; [|by injection Hr as <- <- <- <-].
  apply bind_run_inv in Hr as (i & [e2 w4] & Ha2 & Hr). injection Hr as <- <- <- <-.
  destruct (append_inv _ _ _ _ _ Ha2) as (b2 & Hb2 & _ & He & _). simpl in He. subst e2.
  split_and!; [done..|]. by exists b2.
Qed.

Lemma open_cast_checks e p payload cd bd bj tag held att :
  open_cast e p payload = Ok (NewCast cd bd bj tag held att) →
  er_state e = Voting ∧ check_ballot (er_manifest e) (er_digest e) (wc_ballot (p_cast p)) = Ok ()
  ∧ (∃ a, dec_attestation (wc_attestation (p_cast p)) = Ok a ∧ att = mk_cast a)
  ∧ cast_tag att = Ok tag
  ∧ (∀ a, held = Some a → ad_digest a ≠ bd → revote (er_manifest e) = RevoteReplace).
Proof.
  unfold open_cast. intros (u1 & _ & (u2 & Hv%guard_ok & (u3 & Hck & (cj & _ & (bj' & _ & Ho)
    %bind_ok)%bind_ok)%bind_ok)%bind_ok)%bind_ok.
  destruct (er_exact e !! _); [done|].
  apply bind_ok in Ho as (u4 & Hrv%guard_ok & (a & Ha%map_err_ok & (t & Ht%map_err_ok &
    (u5 & Htag%guard_ok & Ho)%bind_ok)%bind_ok)%bind_ok).
  injection Ho as <- <- <- <- <- <-.
  apply bool_decide_eq_false, dec_stable in Hv, Htag. subst t.
  unfold rule_err in Hck. apply map_err_ok in Hck. destruct u3.
  split_and!; [done|done|by exists a|done|]. intros a' Hh Hne. rewrite Hh in Hrv.
  rewrite (bool_decide_eq_true_2 (ad_digest a' ≠ _)) in Hrv by done.
  rewrite andb_true_r in Hrv. by apply bool_decide_eq_false, dec_stable in Hrv.
Qed.

Lemma check_verifies e cd bj att v tag :
  cast_check_run (open_check e cd bj att) = Ok v → cast_tag att = Ok tag →
  verify (er_verifier e) att bj = Ok tag.
Proof.
  unfold cast_check_run. simpl. intros (t & Ht%map_err_ok & _)%bind_ok Htag.
  unfold verify in *. case_bool_decide; [done|]. apply bind_ok in Ht as (u & Hu & Ht).
  rewrite Hu. simpl. exact Htag.
Qed.

Definition counted_cast (a : AdmittedCast) (p : CastPayload) (e : ElectionRecord)
  : gmap string (AdmittedCast * Ballot) :=
  <[wc_tag (p_cast p) := (a, wc_ballot (p_cast p))]> (er_counted e).

(** The auditor re-admits a cast, and is owed the entry of the one it
    replaces. *)
Lemma audit_admitted e c payload p bj att v a i :
  audited <$> er_counted e = ct_counted c → ct_owed c = None →
  parse_wire_cast (json_index payload "cast") = Ok (p_cast p) →
  check_ballot m0 (er_digest e0) (wc_ballot (p_cast p)) = Ok () →
  dec_attestation (wc_attestation (p_cast p)) = Ok att →
  jcs_to_vec (json_index (json_index payload "cast") "ballot") = Ok bj →
  verify (er_verifier e0) (mk_cast att) bj = Ok (wc_tag (p_cast p)) →
  as_str (json_index v "kind") = Some "cast" → json_index v "cast" = json_index payload "cast" →
  ad_leaf a = i →
  (∀ a' b, er_counted e !! wc_tag (p_cast p) = Some (a', b) →
    audit_revote m0 = BallotBox.Replace
    ∧ ∃ w bo, ballot_to_value b = Ok w ∧ jcs_to_vec w = Ok bo ∧ bo ≠ bj) →
  audit_one c i v
  = Ok (mk_counting (audited <$> counted_cast a p e)
          ((λ x, (wc_tag (p_cast p), ad_leaf x.1, i)) <$> er_counted e !! wc_tag (p_cast p))).
Proof.
  intros Hc Howed Hw Hck Hatt Hbj Hv Hk Hcast <- Hrep.
  unfold audit_entry. rewrite Hk. simpl. unfold audit_cast. rewrite Howed, Hcast, Hw. simpl.
  rewrite Hck. simpl. rewrite Hatt. simpl. rewrite (canonical_ok _ _ Hbj). simpl. rewrite Hv. simpl.
  rewrite (bool_decide_same (wc_tag (p_cast p))).
  simpl. assert (<[wc_tag (p_cast p) := (ad_leaf a, wc_ballot (p_cast p))]> (ct_counted c)
          = audited <$> counted_cast a p e) as ->.
  { rewrite <- Hc. unfold counted_cast. by rewrite fmap_insert. }
  rewrite <- Hc, lookup_fmap.
  destruct (er_counted e !! wc_tag (p_cast p)) as [[a' b]|] eqn:Hl; [|done].
  destruct (Hrep a' b eq_refl) as (-> & w & bo & Hbv & Hbo & Hne). simpl. unfold unwrap_or.
  rewrite Hbv. simpl. rewrite (canonical_ok _ _ Hbo). simpl.
  by rewrite bool_decide_eq_false_2.
Qed.
Lemma audit_revote_replace m : revote m = RevoteReplace → audit_revote m = BallotBox.Replace.
Proof. unfold audit_revote. by intros ->. Qed.

Lemma as_u64_small z : 0 ≤ z ≤ 2 ^ 53 → as_u64 (VNum z) = Some z.
Proof. intros Hz. unfold as_u64, u64_max. rewrite bool_decide_eq_true_2; [done|lia]. Qed.

(** The auditor is owed the [replaced] entry the ballot box writes next. *)
Lemma audit_replaced counted tag from by_ i :
  0 ≤ from ≤ 2 ^ 53 → 0 ≤ by_ ≤ 2 ^ 53 →
  audit_one (mk_counting counted (Some (tag, from, by_))) i
    (mk_obj {[ "kind" := VStr "replaced"; "tag" := VStr tag;
               "replaces" := VNum from; "by" := VNum by_ ]})
  = Ok (mk_counting counted None).
Proof.
  intros Hf Hb. set (v := mk_obj _).
  assert (as_str (json_index v "kind") = Some "replaced" ∧ as_str (json_index v "tag") = Some tag
    ∧ json_index v "replaces" = VNum from ∧ json_index v "by" = VNum by_) as (Hk & Ht & Hr & Hby)
    by (unfold v; by rewrite !json_index_obj).
  unfold audit_entry. rewrite Hk. cbn -[check_replaced as_u64 as_str]. unfold check_replaced. simpl ct_owed.
  rewrite Ht, Hr, Hby, !as_u64_small by done.
  by rewrite !bool_decide_same.
Qed.
(** The order is unmoved by a cast in the voting window, and by its
    [replaced] entry. *)
Lemma order_cast vals v k :
  order_from m0 0 order_new vals = Ok (order_of Voting (length vals)) →
  as_str (json_index v "kind") = Some k → json_get v "at" = None → k = "cast" ∨ k = "replaced" →
  order_from m0 0 order_new (vals ++ [v]) = Ok (order_of Voting (length (vals ++ [v]))).
Proof.
  intros Ho Hk Hat Hkk. eapply order_extend; [exact Ho|].
  eapply order_entry_kind; [exact Hk|exact Hat|done|]. destruct Hkk as [->| ->]; [by right|by left].
Qed.

Lemma certify_admitted e vals payload p att bj a b1 ex :
  certifiable e vals → er_state e = Voting → Z.of_nat (length (er_entries e)) ≤ 2 ^ 53 →
  (∀ t a b, er_counted e !! t = Some (a, b) → 0 ≤ ad_leaf a < Z.of_nat (length (er_entries e))) →
  parse_cast payload = Ok p → canonical_value (json_index payload "cast") → normal_ballot payload p →
  check_ballot m0 (er_digest e0) (wc_ballot (p_cast p)) = Ok () →
  dec_attestation (wc_attestation (p_cast p)) = Ok att →
  jcs_to_vec (json_index (json_index payload "cast") "ballot") = Ok bj →
  verify (er_verifier e0) (mk_cast att) bj = Ok (wc_tag (p_cast p)) →
  jcs_to_vec (mk_obj {[ "kind" := VStr "cast"; "cast" := json_index payload "cast" ]}) = Ok b1 →
  ad_leaf a = Z.of_nat (length (er_entries e)) → ad_digest a = sha256 bj →
  (∀ a' b, er_counted e !! wc_tag (p_cast p) = Some (a', b) →
    audit_revote m0 = BallotBox.Replace ∧ ad_digest a' ≠ sha256 bj) →
  let after es := set_counted (counted_cast a p e) (set_exact ex es) in
  match er_counted e !! wc_tag (p_cast p) with
  | None => ∃ vals', certifiable (after (appended b1 e)) vals'
  | Some (prev, _) => ∀ b2,
      jcs_to_vec (mk_obj {[ "kind" := VStr "replaced"; "tag" := VStr (wc_tag (p_cast p));
        "replaces" := VNum (ad_leaf prev); "by" := VNum (ad_leaf a) ]}) = Ok b2 →
      ∃ vals', certifiable (after (appended b2 (appended b1 e))) vals'
  end.
Proof.
  intros Hc Hs Hsm Hlv Hp Hcan Hnorm Hck Hatt Hbj Hver Hb1 Hl Hd Hrep. simpl.
  pose proof (entries_length _ _ Hc) as Hlen. destruct Hc as [Cv Co Cc Ch Cr].
  set (v1 := mk_obj _) in Hb1.
  destruct (kind_of_entry "cast" "cast" (json_index payload "cast")) as (Hk1 & Hj1 & Hat1); [done..|].
  assert (canonical_value v1) as Hcan1
    by (apply can_obj, can_members_insert, can_members_singleton; [constructor|done]).
  assert (∀ t a' b, counted_cast a p e !! t = Some (a', b) →
    check_ballot m0 (er_digest e0) b = Ok ()
    ∧ ∃ v bj, ballot_to_value b = Ok v ∧ jcs_to_vec v = Ok bj ∧ ad_digest a' = sha256 bj) as Hheld.
  { intros t a' b. unfold counted_cast.
    intros [[_ [= <- <-]]|[_ Ht]]%lookup_insert_Some; [|by eapply Ch].
    split; [exact Hck|]. exists (json_index (json_index payload "cast") "ballot"), bj.
    exact (conj Hnorm (conj Hbj Hd)). }
  rewrite Hs in Co.
  pose proof (order_cast _ v1 _ Co Hk1 Hat1 (or_introl eq_refl)) as Ho1.
  pose proof (audit_admitted e (mk_counting (audited <$> er_counted e) None) payload p bj att v1 a (Z.of_nat (length vals)) eq_refl eq_refl
    (wire_cast_nested _ _ Hp) Hck Hatt Hbj Hver Hk1 Hj1) as Ha1.
  rewrite Hlen in Ha1. specialize (Ha1 Hl).
  assert (audit_of (vals ++ [v1]) = Ok (mk_counting (audited <$> counted_cast a p e)
    ((λ x, (wc_tag (p_cast p), ad_leaf x.1, ad_leaf a)) <$> er_counted e !! wc_tag (p_cast p)))) as Hc1.
  { eapply audit_extend; [exact Cc|]. rewrite Hlen, Ha1; [by rewrite Hl|].
    intros a' b Hab. destruct (Hrep a' b Hab) as [Hr Hne]. split; [done|].
    destruct (Ch _ _ _ Hab) as (_ & w & bo & Hw & Hbo & Hda). exists w, bo.
    refine (conj Hw (conj Hbo _)). intros ->. exact (Hne Hda). }
  pose proof (entries_extend _ _ _ _ Cv Hcan1 Hb1) as Hv1.
  destruct (er_counted e !! wc_tag (p_cast p)) as [[prev bp]|] eqn:Hprev.
  - intros b2 Hb2. set (v2 := mk_obj _) in Hb2.
    pose proof (Hlv _ _ _ Hprev) as Hpl.
    assert (0 ≤ ad_leaf prev ≤ 2 ^ 53 ∧ 0 ≤ ad_leaf a ≤ 2 ^ 53) as [Hb3 Hb4] by lia.
    exists ((vals ++ [v1]) ++ [v2]). split; [..|exact Hheld|].
    + apply entries_extend; [exact Hv1| |exact Hb2].
      apply can_replaced; lia.
    + simpl. rewrite Hs. eapply order_cast; [exact Ho1| | |by right];
        unfold v2; [by rewrite json_index_obj|by rewrite json_get_mk_obj].
    + eapply audit_extend; [exact Hc1|]. simpl. by apply audit_replaced.
    + intros Ht. simpl in Ht. by rewrite Hs in Ht.
  - exists (vals ++ [v1]). split; [exact Hv1| |exact Hc1|exact Hheld|].
    + simpl. rewrite Hs. exact Ho1.
    + intros Ht. simpl in Ht. by rewrite Hs in Ht.
Qed.
(** ** Every step of a voting life *)

Lemma certify_cast e w payload p verified now v e1 w1 vals :
  durable stored e0 (e, w) → extends e0 e → certifiable e vals → parse_cast payload = Ok p →
  canonical_value (json_index payload "cast") → normal_ballot payload p →
  proof_run verified e p payload →
  cast_election p payload verified now (e, w) = Some (Ok v, (e1, w1)) → exact_numbers e1 →
  ∃ vals', certifiable e1 vals'.
Proof.
  intros Hd [(_ & Em & _ & Ed & _ & Ev & _) _ _] Hc Hp Hcan Hnorm Hproof
    [[= -> ->]|(cj & bj & held & att & a & o & e2 & Ho & _ & Hbj & Hheld & Hrun & Hne & Ha & ->)]
    %cast_election_inv Hsm; [by exists vals|].
  destruct (open_cast_checks _ _ _ _ _ _ _ _ _ Ho) as (Hs & Hck & (att' & Hatt & ->) & Htag & Hrv).
  rewrite Em, Ed in Hck. rewrite Em in Hrv.
  assert (verify (er_verifier e0) (mk_cast att') bj = Ok (wc_tag (p_cast p))) as Hver.
  { rewrite <- Ev. destruct Hrun as [Hcov|[v' Hv']]; [|by eapply check_verifies].
    destruct (Hproof _ _ _ _ _ _ Ho Hcov) as [v' Hv']. by eapply check_verifies. }
  pose proof (dur_log _ _ _ Hd) as Hlog. simpl in Hlog.
  destruct (admit_cast_inv _ _ _ _ _ _ _ _ _ _ Hlog Ha) as (b1 & Hb1 & Hl & Hda & He2).
  pose proof (dur_leaves _ _ _ Hd) as Hlv. simpl in Hlv.
  pose proof (λ ex, certify_admitted e vals payload p att' bj a b1 ex Hc Hs) as Hgo. simpl in Hgo.
  destruct (er_counted e !! wc_tag (p_cast p)) as [[prev bp]|] eqn:Hprev; simpl in Hheld; subst held.
  - destruct He2 as (b2 & Hb2 & ->). apply exact_board in Hsm. simpl in Hsm.
    rewrite !length_app in Hsm. simpl in Hsm.
    eapply Hgo; try done; [lia|]. intros a' b [= <- <-].
    split; [|by apply Hne]. apply audit_revote_replace. eapply Hrv; [done|]. by apply Hne.
  - subst e2. apply exact_board in Hsm. simpl in Hsm. rewrite !length_app in Hsm. simpl in Hsm.
    eapply Hgo; try done. lia.
Qed.
Lemma certify_close_step e w k t e1 w1 vals :
  durable stored e0 (e, w) → extends e0 e → certifiable e vals → er_state e = Voting →
  (k = "closed" ∧ t = voting_closes_at m0) ∨ (k = "closedEarly" ∧ allow_early_close m0 = true) →
  Record.close k t (e, w) = Some (Ok (), (e1, w1)) → exact_numbers e1 →
  ∃ vals', certifiable e1 vals'.
Proof.
  intros Hd [(_ & Em & _ & Ed & _) _ _] Hc Hs Hk (i & [e2 w2] & Ha & Hr)%bind_run_inv Hsm.
  destruct (append_inv _ _ _ _ _ Ha) as (b1 & Hb1 & Hi & He2 & _). simpl in He2. subst e2.
  pose proof (dur_log _ _ _ Hd) as Hlog. pose proof (dur_count _ _ _ Hd) as Hcnt.
  pose proof (dur_open _ _ _ Hd) as Hopen. simpl in Hlog, Hcnt, Hopen.
  rewrite board_len_ok in Hi by exact Hlog. subst i.
  rewrite (bind_run _ _ _ _ _ (update_run _ _ _)) in Hr.
  apply bind_run_inv in Hr as (e3 & y & [= <- <-] & Hr).
  rewrite (bind_run _ _ _ _ _ (update_run _ _ _)) in Hr. simpl in Hr. rewrite Hopen in Hr.
  apply bind_run_inv in Hr as (e3 & y & [= <- <-] & Hr).
  apply bind_run_inv in Hr as (r & y & Ht & Hr). simpl in Ht. unfold try_or_panic in Ht.
  destruct (tally_now _ _ _) as [r'|] eqn:Et; [|done]. injection Ht as -> <-.
  apply bind_run_inv in Hr as (i & [e4 w4] & Ha2 & Hu). rewrite update_run in Hu. injection Hu as <- <-.
  destruct (append_inv _ _ _ _ _ Ha2) as (b2 & Hb2 & _ & He4 & _). simpl in He4. subst e4.
  eapply (certify_close e vals k t b1 b2 r _ Hc Hs Em Ed Hlog Hcnt);
    [by apply (exact_result _ Hsm)|exact Hk|exact Hb1|reflexivity|exact Et|exact Hb2].
Qed.

Lemma certify_registration e vals :
  certifiable e vals → er_state e = Registered → certifiable (set_state Registration e) vals.
Proof. intros [Cv Co Cc Ch Cr] Hs. rewrite Hs in Co. by split. Qed.

Lemma certify_open_step e w t e1 w1 vals :
  durable stored e0 (e, w) → certifiable e vals → t = voting_opens_at m0 →
  er_state e = Registered ∨ er_state e = Registration →
  (_ ← ceremony_deadline;
   _ ← append (mk_obj {[ "kind" := VStr "opened"; "occurredAt" := VStr (time t) ]});
   update (set_state Voting)) (e, w) = Some (Ok (), (e1, w1)) →
  er_state e1 = Voting ∧ ∃ vals', certifiable e1 vals'.
Proof.
  intros Hd Hc -> Hs (u & y & Hdl & Hr)%bind_run_inv.
  apply deadline_open in Hdl; [|exact (dur_open _ _ _ Hd)]. subst y.
  apply bind_run_inv in Hr as (i & [e2 w2] & Ha & Hr). rewrite update_run in Hr. injection Hr as <- <-.
  destruct (append_inv _ _ _ _ _ Ha) as (b & Hb & _ & He & _). simpl in He. subst e2.
  split; [done|]. by eapply certify_opened.
Qed.

Lemma rank_before_voting s : state_rank s ≤ state_rank Registration → s = Registered ∨ s = Registration.
Proof. destruct s; simpl; (lia || auto). Qed.

Lemma certify_advance now e w e1 w1 vals :
  durable stored e0 (e, w) → extends e0 e → certifiable e vals →
  advance now (e, w) = Some (Ok (), (e1, w1)) → exact_numbers e1 → ∃ vals', certifiable e1 vals'.
Proof.
  intros Hd Hx Hc Hr Hsm. unfold advance in Hr.
  apply bind_run_inv in Hr as (e' & y & [= <- <-] & Hr). simpl in Hr.
  apply bind_run_inv in Hr as (u & [e2 w2] & Hreg & Hr).
  assert (durable stored e0 (e2, w2) ∧ extends e0 e2 ∧ certifiable e2 vals) as (Hd2 & Hx2 & Hc2).
  { apply when_inv in Hreg as [[Hg Hu]| [= -> ->]]; [|done]. rewrite update_run in Hu.
    injection Hu as <- <-. apply andb_true_iff in Hg as [Hs%bool_decide_eq_true _]. split_and!.
    - by apply durable_registration.
    - etrans; [exact Hx|]. by split; [repeat split| |].
    - by apply certify_registration. }
  assert (er_manifest e2 = m0) as Em2 by apply Hx2.
  apply bind_run_inv in Hr as (e' & y & [= <- <-] & Hr). simpl in Hr.
  apply bind_run_inv in Hr as (u' & [e3 w3] & Hopn & Hr).
  assert (durable stored e0 (e3, w3) ∧ extends e0 e3 ∧ ∃ vals', certifiable e3 vals')
    as (Hd3 & Hx3 & vals3 & Hc3).
  { apply when_inv in Hopn as [[Hg Hu]| [= -> ->]]; [|split_and!; [done..|by exists vals]].
    apply andb_true_iff in Hg as [Hs%Z.leb_le%rank_before_voting _]. rewrite Em2 in Hu.
    split_and!; [by eapply durable_open_step| |].
    - etrans; [exact Hx2|]. apply bind_run_inv in Hu as (u1 & y & Hdl & Hu).
      etrans; [exact (ceremony_deadline_steps extends _ _ _ Hdl)|].
      apply bind_run_inv in Hu as (i & [e4 w4] & Ha & Hu). rewrite update_run in Hu.
      injection Hu as <- <-. destruct y as [e5 w5].
      etrans; [exact (append_steps extends _ _ _ _ Ha)|]. by split; [repeat split| |].
    - by eapply certify_open_step. }
  assert (er_manifest e3 = m0) as Em3 by apply Hx3.
  apply bind_run_inv in Hr as (e' & y & [= <- <-] & Hr). simpl in Hr.
  apply when_inv in Hr as [[Hg Hu]| [= -> ->]]; [|by exists vals3].
  apply andb_true_iff in Hg as [Hs%bool_decide_eq_true _].
  eapply certify_close_step; [exact Hd3|exact Hx3|exact Hc3|exact Hs| |exact Hu|exact Hsm].
  left. by rewrite Em3.
Qed.
Hypothesis Hopen : er_ceremony e0 = None.

Lemma certify_life x : voting_life x → ∃ vals, certifiable x.1 vals.
Proof.
  induction 1 as
    [w Hw Hs Hj|now [e w] [e1 w1] Hl [vals IH] [[] Hr] Hs
    |payload p verified now [e w] [e1 w1] Hl [vals IH] Hp Hc Hn Hv [v Hr] Hs
    |now [e w] [e1 w1] Hl [vals IH] Hv Hal [[] Hr] Hs];
    try pose proof (voting_is_open _ Hl) as Ho;
    try pose proof (durable_life _ _ Hbuilt Hopen _ Ho) as Hd; try pose proof (life_extends _ _ _ Ho) as Hx.
  - destruct (build_record_fresh _ _ _ Hbuilt) as (Je & _ & Jc & Js). exists []. split; simpl.
    + rewrite Je. constructor.
    + by rewrite Js.
    + by rewrite Jc, fmap_empty.
    + intros t a b. by rewrite Jc, lookup_empty.
    + by rewrite Js.
  - by eapply certify_advance.
  - by eapply certify_cast.
  - eapply certify_close_step; [exact Hd|exact Hx|exact IH|exact Hv| |exact Hr|exact Hs].
    right. split; [done|]. simpl in Hal. destruct Hx as [(_ & Em & _) _ _]. simpl in Em. by rewrite <- Em.
Qed.

(** ** The audit *)

Lemma read_entries vals bs : Forall2 entry_of vals bs → try_map from_slice bs = Ok vals.
Proof.
  induction 1 as [|v b vals bs [Hc Hb] Hv IH]; [done|]. cbn [try_map].
  rewrite (from_slice_jcs v b Hc Hb). simpl. by rewrite IH.
Qed.

Lemma life_small x : voting_life x → Z.of_nat (length (er_entries x.1)) ≤ 2 ^ 53.
Proof.
  induction 1; try by apply exact_board. destruct (build_record_fresh _ _ _ Hbuilt) as (Je & _).
  simpl. rewrite Je. simpl. lia.
Qed.

(** The tally the auditor makes of its own record of the counted casts. *)
Lemma audited_tally counted n rows :
  (∀ t a b, counted !! t = Some (a, b) → check_ballot m0 (er_digest e0) b = Ok ()) →
  Forall (order_free (size counted)) (questions m0) →
  tally m0 (snd <$> hash_values counted) false = Some (Ok (n, rows)) →
  n = Z.of_nat (size counted)
  ∧ tally m0 (snd <$> hash_values (audited <$> counted)) false = Some (Ok (n, rows)).
Proof.
  intros Hck Hfree Ht.
  assert (snd <$> hash_values counted ≡ₚ snd <$> (map_to_list counted).*2) as Hp1.
  { unfold hash_values. by rewrite hash_iter_perm. }
  assert (snd <$> hash_values (audited <$> counted) ≡ₚ snd <$> (map_to_list counted).*2) as Hp2.
  { unfold hash_values. rewrite hash_iter_perm, map_to_list_fmap, <- !list_fmap_compose.
    apply Permutation_refl'. by apply list_fmap_ext. }
  assert (length (snd <$> hash_values counted) = size counted) as Hlen
    by (rewrite Hp1, !length_fmap; by rewrite length_map_to_list).
  split.
  { unfold tally in Ht. rewrite Hlen in Ht.
    destruct (tally_loop _ _ _) as [[out|]|]; [|done..]. simpl in Ht. by injection Ht as <- _. }
  rewrite <- Ht. apply (tally_Permutation m0 (er_digest e0)).
  - destruct Hm as [_ Hown Hsc _ _]. split; [done..|]. rewrite Hp2. apply Forall_forall.
    intros b (x & -> & Hx)%list_elem_of_fmap. apply list_elem_of_fmap in Hx as ([t [a b]] & -> & Hx).
    apply elem_of_map_to_list in Hx. by eapply Hck.
  - by rewrite Hp1, Hp2.
  - by rewrite Hp2, <- Hp1, Hlen.
Qed.

(** A head the ballot box could have signed while the record was [e] or
    before. *)
Definition signed_head (e : ElectionRecord) (c : HeadRef) : Prop :=
  ∃ e', extends e' e ∧ log_ok e' ∧ board_root (er_board e') (Z.to_nat (hr_tree_size c)) = Ok (hr_root c).

Definition published_params (params : VotingParams) : Prop :=
  ∃ vk hvk, parse_parameters (st_parameters stored) = Ok vk ∧ dec_hvk vk = Ok hvk
    ∧ voting_params_new (er_community e0) hvk = Ok params.

Lemma published_params_audited params :
  published_params params →
  ∃ el, vp_community params = er_community e0
    ∧ read_manifest (st_manifest stored) (er_community e0) = Ok (m0, er_digest e0, el)
    ∧ ballot_box_new params el (audit_revote m0) (mk_nullifiers ∅) = Ok (er_verifier e0).
Proof.
  intros (vk & hvk & Hvk & Hh & Hp).
  destruct build_record_audited as (ps & el & (hvk' & Hh' & Hp') & Hc & Hr & Hv).
  rewrite Hvk in Hh'. simpl in Hh'. assert (hvk' = hvk) as -> by congruence.
  assert (ps = params) as -> by congruence. by exists el.
Qed.

Lemma checkpoint_ok b c :
  board_root b (Z.to_nat (hr_tree_size c)) = Ok (hr_root c) → audit_checkpoint b c = Ok ().
Proof.
  unfold audit_checkpoint. intros ->. by rewrite bool_decide_same.
Qed.

Lemma checkpoints_ok e cps :
  log_ok e → Forall (signed_head e) cps → try_map (audit_checkpoint (er_board e)) cps = Ok (replicate (length cps) ()).
Proof.
  intros Hl. induction 1 as [|c cps (e' & Hx & Hl' & Hr) Hc IH]; [done|]. cbn [try_map].
  rewrite (checkpoint_ok _ _ (root_kept e' e _ _ Hl' Hl (ext_entries _ _ Hx) Hr)).
  simpl. by rewrite IH.
Qed.

Lemma same_questions_refl qv :
  (∃ l, qv = VArr l ∧ Forall (λ v, is_Some (as_str (json_index v "question"))) l) →
  same_questions qv qv = true.
Proof.
  intros (l & -> & Hl). unfold same_questions. simpl.
  rewrite bool_decide_same.
  assert (∃ rows, rows_by_question (VArr l) = Some rows) as [rows ->].
  { unfold rows_by_question. simpl.
    assert (∃ ps, mapM (λ q, k ← as_str (json_index q "question"); Some (k, q)) l = Some ps) as [ps ->];
      [|by eexists]. induction Hl as [|v l [k Hk] Hl [ps IH]]; [by exists []|].
    exists ((k, v) :: ps). simpl. rewrite Hk. simpl. by rewrite IH. }
  by rewrite bool_decide_eq_true_2.
Qed.
(** A result's members, as the auditor reads them. *)
Lemma result_members e n qv at_ r :
  result_value e n qv at_ = Some r → 0 ≤ n ≤ 2 ^ 53 → Z.of_nat (board_len (er_board e)) ≤ 2 ^ 53 →
  ∃ root, board_root (er_board e) (board_len (er_board e)) = Ok root
    ∧ as_u64 (json_index r "ballotsCounted") = Some n ∧ json_index r "questions" = qv
    ∧ (as_str (json_index r "manifestDigest") ≫= digest_from_multibase) = Some (er_digest e)
    ∧ head_from_wire (json_index r "head")
      = Ok (mk_head_ref (Z.of_nat (board_len (er_board e))) root).
Proof.
  intros Hr Hn Hl. unfold result_value, er_head in Hr.
  destruct (board_root _ _) as [root|] eqn:Hroot; [|done]. simpl in Hr. injection Hr as <-.
  exists root.
  set (head := mk_obj {[ "electionId" := _; "treeSize" := _; "rootHash" := _; "issuedAt" := _ ]}).
  set (r := mk_obj _).
  assert (json_index r "ballotsCounted" = VNum n ∧ json_index r "questions" = qv
    ∧ json_index r "manifestDigest" = VStr (digest_multibase (er_digest e))
    ∧ json_index r "head" = head) as (-> & -> & -> & ->) by (unfold r; by rewrite !json_index_obj).
  assert (json_index head "treeSize" = VNum (Z.of_nat (board_len (er_board e)))
    ∧ json_index head "rootHash" = VStr (digest_multibase root)) as (Ht & Hh)
    by (unfold head; by rewrite !json_index_obj).
  rewrite as_u64_small by done. simpl as_str. cbn [mbind option_bind].
  split_and!; [done..|by apply digest_multibase_decode|].
  unfold head_from_wire. rewrite Ht, Hh, as_u64_small by lia. simpl.
  by rewrite digest_multibase_decode.
Qed.

Lemma finish_ok ev b e1 n qv at_ r idx :
  ev_result ev = r → result_value e1 n qv at_ = Some r → 0 ≤ n ≤ 2 ^ 53 →
  Z.of_nat (board_len (er_board e1)) ≤ 2 ^ 53 → board_len (er_board e1) = idx →
  (∀ root, board_root (er_board e1) idx = Ok root → board_root b idx = Ok root) →
  (∃ l, qv = VArr l ∧ Forall (λ v, is_Some (as_str (json_index v "question"))) l) →
  n ≤ ev_tickets_issued ev →
  finish ev b (er_digest e1) n qv (Some (mk_obj {[ "kind" := VStr "result"; "result" := r ]})) idx
  = Ok (mk_verified n qv).
Proof.
  intros Hev Hr Hn Hl Hidx Hroot Hnamed Hti.
  destruct (result_members _ _ _ _ _ Hr Hn Hl) as (root & Hrt & Hc & Hq & Hd & Hh).
  rewrite Hidx in Hrt, Hh. apply Hroot in Hrt.
  unfold finish. rewrite Hev, Hc, Hq, Hd, Hh, (same_questions_refl _ Hnamed).
  rewrite bool_decide_same. simpl.
  rewrite bool_decide_same. simpl.
  rewrite Hrt. rewrite !bool_decide_same. simpl.
  rewrite json_index_obj. simpl. unfold same_result. rewrite bool_decide_eq_true_2 by done. simpl.
  assert ((ev_tickets_issued ev <? n) = false) as -> by (by apply Z.ltb_ge). done.
Qed.

(** C1 (an open election's published result certifies): let an open election's
    manifest open and close at whole seconds, give every scored question an
    option, ask for no free text and bound its scores so that their sums stay
    within an [i64]; let every request of its life have succeeded, each ballot
    be, as JSON, what its parsed form writes, with integers up to [2 ^ 53]
    like the board's and the result's, and its proof have been run, under the
    lock or apart. Then whatever its voters did (casts counted, resent,
    replaced), however it closed, and in whatever order each side's hash map
    is walked: the auditor, given the board as it reads, its head, any heads
    the ballot box signed on the way, the published result and the parameters,
    and at least as many tickets as ballots, accepts every check and recounts
    exactly the published totals. *)
Theorem published_result_certifies x vals root cps r params tickets proven :
  voting_life x → er_state x.1 = Tallied → er_result x.1 = Some r →
  published_params params →
  try_map from_slice (er_entries x.1) = Ok vals →
  board_root (er_board x.1) (length (er_entries x.1)) = Ok root →
  Forall (signed_head x.1) cps →
  Forall (order_free (size (er_counted x.1))) (questions m0) →
  Z.of_nat (size (er_counted x.1)) ≤ tickets →
  audit (mk_evidence (st_manifest stored) params vals
           (mk_head_ref (Z.of_nat (length (er_entries x.1))) root) cps r tickets proven)
  = Some (Ok (mk_verified (Z.of_nat (size (er_counted x.1))) (json_index r "questions"))).
Proof.
  intros Hl Hs Hr Hparams Hvals Hroot Hcps Hfree Htk.
  destruct (certify_life x Hl) as [vals' Hc]. pose proof Hc as [Cv Co Cc Ch Cr].
  rewrite (read_entries _ _ Cv) in Hvals. injection Hvals as <-.
  pose proof (durable_life _ _ Hbuilt Hopen _ (voting_is_open _ Hl)) as Hd.
  pose proof (dur_log _ _ _ Hd) as Hlog. pose proof (dur_count _ _ _ Hd) as Hcnt.
  pose proof (life_small _ Hl) as Hsm.
  destruct (Cr Hs) as (r' & n & rows & qv & e1 & at_ & vals1 & Hr' & -> & Ht & Hq & Hrv & Hd1 & Hlog1
    & Hpre & Hlen1).
  assert (r' = r) as -> by congruence.
  destruct (audited_tally (er_counted x.1) n rows) as [-> Ht'];
    [intros t a b Hab; by destruct (Ch t a b Hab)|done|done|].
  destruct (published_params_audited _ Hparams) as (el & Hpc & Hread & Hver).
  rewrite Hs, length_app in Co. cbn [order_of length] in Co. rewrite Nat.add_sub in Co.
  pose proof (prefix_length _ _ Hpre) as Hple.
  assert (board_len (er_board e1) = length vals1) as Hl1 by (by rewrite board_len_ok).
  unfold audit. cbn [ev_manifest ev_params ev_entries ev_head ev_checkpoints ev_tickets_issued
    ev_proven hr_tree_size hr_root].
  rewrite Hpc, Hread. cbn [tried mbind attempt_bind].
  rewrite (audit_board_ok _ _ Hlog Cv). cbn [tried mbind attempt_bind].
  rewrite board_len_ok, Hroot by exact Hlog. simpl ok.
  rewrite !bool_decide_same. cbn [orb guard_err tried mbind attempt_bind].
  rewrite (checkpoints_ok _ _ Hlog Hcps). cbn [tried mbind attempt_bind].
  unfold check_order. rewrite Co. cbn [mbind result_bind ok_or o_result tried attempt_bind].
  rewrite list_lookup_middle by done. cbn [expected fmap option_fmap option_map mbind attempt_bind].
  rewrite Hver. simpl. destruct Hm as [-> _ _ _ _]. rewrite Cc. simpl. rewrite Ht'. simpl. rewrite Hq. simpl.
  rewrite <- Hd1.
  assert (0 ≤ Z.of_nat (size (er_counted x.1)) ≤ 2 ^ 53) as Hnb by lia.
  assert (Z.of_nat (board_len (er_board e1)) ≤ 2 ^ 53) as Hlb by (rewrite board_len_ok by exact Hlog1; lia).
  destruct (result_members _ _ _ _ _ Hrv Hnb Hlb) as (_ & _ & _ & -> & _).
  unfold tried. f_equal. eapply finish_ok; [done|exact Hrv|done|done|exact Hl1| |by eapply results_named|done].
  intros root1 Hr1. by apply (root_kept e1 x.1).
Qed.
End Certify.
