(* ===== verification/Runs.v ===== *)
(** * An election, run

    The ballot box over the small community of [Scene]: an election is
    registered, two members vote, one of them twice, and it closes. The
    theorems about the ballot box, its restart and its certification are
    applied to this run. *)

From S2P Require Import Prelude Json Election Board BallotBox Rules Tally Group Trustees Ceremony.
From S2P Require Import Wire Steps Host FileJournal AuditEncrypted BoardAudit Record Service ServiceEncrypted.
From S2P Require Import VoterClient HonestVoter Requests Restore Crash Certify Scene.

#[local] Existing Instance MemoryJournal.

Definition club_params : VotingParams := mk_params "did:web:club" () 5.
Definition member (n : Z) : Voter := mk_voter n n.
Definition ticket (n : Z) : Ticket := mk_ticket club_election (5, n, election_predicate club_election).

Definition with_election (fields : gmap string Value) : Value :=
  mk_obj (<["community" := VStr "did:web:club"]> (<["electionId" := VStr "e1"]> fields)).

Definition club_key : string := "z" +:+ String.string_of_list_byte (toy_put_Z 5).
Definition registration : Value :=
  with_election {[ "manifest" := club_value;
                   "manifestDigest" := VStr (digest_multibase club_digest);
                   "parameters" := mk_obj {[ "votingKey" := VStr club_key ]} ]}.

(** Member [n]'s cast for a choice. *)
Definition cast_value (n : Z) (choice : string) : Value :=
  match cast_wire (member n) club_params (ticket n) (VStr choice) 0 with
  | Ok (v, _) => v
  | Err _ => VNull
  end.
Definition casting (n : Z) (choice : string) : Value :=
  with_election {[ "cast" := cast_value n choice ]}.

(** The box after a request at second [at_]. *)
Definition after (rq : Request) (at_ : Z) (x : Service * World) : Service * World :=
  match handle rq (at_ * NANOS) x with Some (_, x') => x' | None => x end.

Definition answered (rq : Request) (at_ : Z) (x : Service * World) : bool :=
  match handle rq (at_ * NANOS) x with Some (Ok _, _) => true | _ => false end.

Lemma after_served rq at_ x : rtc served x (after rq at_ x).
Proof.
  unfold after. destruct (handle rq (at_ * NANOS) x) as [[r x']|] eqn:E; [|apply rtc_refl].
  apply rtc_once. by exists rq, (at_ * NANOS), r.
Qed.

Lemma then_served rq at_ x y : rtc served x y → rtc served x (after rq at_ y).
Proof. intros Hxy. etrans; [exact Hxy|apply after_served]. Qed.

Definition fresh : Service * World := (service_new "did:web:box", mk_world ∅ 0).
Definition registered : Service * World := after (RqRegister V0_4 "did:web:club" registration) 1 fresh.
Definition voted_once : Service * World :=
  after (RqCast (casting 8 "no") None) 12
    (after (RqCast (casting 9 "yes") None) 11 registered).
Definition voted : Service * World := after (RqCast (casting 9 "no") None) 13 voted_once.
Definition tallied : Service * World :=
  after (RqResult Anonymous (with_election ∅)) 30 voted.

Definition club_id : string * string := ("did:web:club", "e1")%string.
Definition blank : ElectionRecord :=
  mk_er "" club VNull club_digest VNull
    (mk_box () 5 club_election (election_predicate club_election) 0 BallotBox.Replace (mk_nullifiers ∅))
    Registered board_new [] ∅ ∅ ∅ ∅ [] None None ∅ [] None None None.
Definition held (x : Service * World) : ElectionRecord :=
  default blank (sv_elections x.1 !! club_id).
Definition holds_club (x : Service * World) : bool :=
  bool_decide (is_Some (sv_elections x.1 !! club_id)).
Lemma held_some x : holds_club x = true → sv_elections x.1 !! club_id = Some (held x).
Proof. unfold holds_club, held. intros [e ->]%bool_decide_eq_true. done. Qed.

Definition shape (x : Service * World) : State * nat * nat :=
  (er_state (held x), length (er_entries (held x)), size (er_counted (held x))).

(** ** The theorems on this run *)

Lemma voted_once_reached : rtc served fresh voted_once.
Proof. exact (then_served _ _ _ _ (then_served _ _ _ _ (after_served _ _ _))). Qed.
Lemma tallied_reached : rtc served voted_once tallied.
Proof. exact (then_served _ _ _ _ (after_served _ _ _)). Qed.
Lemma voted_once_held : sv_elections voted_once.1 !! club_id = Some (held voted_once).
Proof. apply held_some. vm_compute. reflexivity. Qed.

Lemma board_append_only_witness :
  ∃ e', sv_elections tallied.1 !! club_id = Some e'
    ∧ shape tallied = (Tallied, 7%nat, 2%nat)
    ∧ er_entries (held voted_once) `prefix_of` er_entries e'
    ∧ state_rank (er_state (held voted_once)) ≤ state_rank (er_state e').
Proof.
  destruct (board_append_only "did:web:box" voted_once tallied club_id (held voted_once))
    as (e' & He' & _ & Hp & _ & _ & Hr).
  - exact (ex_intro _ fresh.2 voted_once_reached).
  - exact tallied_reached.
  - exact voted_once_held.
  - exists e'. split; [exact He'|]. split; [vm_compute; reflexivity|exact (conj Hp Hr)].
Defined.

(** ** A restart *)

Lemma scene_rows rs qv :
  question_results_to_value rs = Ok qv →
  VArr rs = qv ∧ forallb names_question rs = true.
Proof.
  intros Hq.
  assert ((if forallb names_question rs then Ok (VArr rs) else Err "not rows")
          = Ok qv) as Hc by exact Hq.
  destruct (forallb names_question rs); [by injection Hc|done].
Qed.

#[export] Instance scene_tasks_laws : TasksLaws.
Proof.
  intros payload p (n & _ & (c & Hc & [= <-])%bind_ok)%bind_ok. exact Hc.
Qed.
#[export] Instance scene_result_laws : ResultLaws.
Proof.
  split. intros rs qv Hq. destruct (scene_rows rs qv Hq) as (<- & Hn).
  exists rs. split; [done|]. apply Forall_forall. intros v Hv.
  rewrite forallb_forall in Hn. apply (bool_decide_eq_true_1 _), Hn. by apply list_elem_of_In.
Qed.

Section AnyJournal.
Context {J : Journal} {JL : JournalLaws}.
Abbreviation EM := (M (ElectionRecord * World)).

(** A record after an operation, and whether it succeeded, its board short and
    its result's numbers kept. *)
Definition after_run {A} (m : EM A) (x : ElectionRecord * World) : ElectionRecord * World :=
  match m x with Some (_, x') => x' | None => x end.
Definition succeeds {A} (m : EM A) (x : ElectionRecord * World) : bool :=
  match m x with
  | Some (Ok _, x') => (length (er_entries x'.1) <=? 100)%nat && match er_result x'.1 with Some r => keeps r | None => true end
  | _ => false
  end.

Lemma after_run_runs {A} (m : EM A) x :
  succeeds m x = true → runs m x (after_run m x) ∧ exact_numbers (after_run m x).1.
Proof.
  unfold succeeds, after_run, runs. destruct (m x) as [[[a|?] x']|]; [|done..].
  intros [Hl%Nat.leb_le Hr]%andb_true_iff. split; [by exists a|]. split; [lia|].
  intros r Hres. rewrite Hres in Hr. by apply keeps_canonical.
Qed.

Definition club_stored : StoredElection :=
  mk_stored club_value (mk_obj {[ "votingKey" := VStr club_key ]}).
Definition club_record : ElectionRecord :=
  match build_record (st_manifest club_stored) (st_parameters club_stored) with
  | Ok e => e
  | Err _ => blank
  end.
Definition club_cast (n : Z) (choice : string) : EM Value :=
  let payload := casting n choice in
  match parse_cast payload with
  | Ok p => cast_election p payload None (13 * NANOS)
  | Err _ => fail (f_malformed "no cast")
  end.

(** The ballot's JSON in a cast is its normal form. *)
Definition normal_cast (n : Z) (choice : string) : bool :=
  match parse_cast (casting n choice) with
  | Ok p => match ballot_to_value (wc_ballot (p_cast p)) with
            | Ok v => bool_decide (v = json_index (json_index (casting n choice) "cast") "ballot")
            | Err _ => false
            end
  | Err _ => false
  end.

Lemma club_cast_life n choice x :
  voting_life club_stored club_record x → succeeds (club_cast n choice) x = true →
  keeps (cast_value n choice) && normal_cast n choice = true →
  voting_life club_stored club_record (after_run (club_cast n choice) x).
Proof.
  intros Hl [Hr Hs]%after_run_runs [Hk Hn]%andb_true_iff. unfold club_cast, normal_cast in *.
  destruct (parse_cast (casting n choice)) as [p|] eqn:Hp; [|done].
  eapply (vote_cast _ _ (casting n choice) p); [exact Hl|exact Hp| | | |exact Hr|exact Hs].
  - assert (json_index (casting n choice) "cast" = cast_value n choice) as ->.
    { unfold casting, with_election. by rewrite json_index_obj. }
    by apply keeps_canonical.
  - unfold normal_ballot. destruct (ballot_to_value _) as [v|]; [|done].
    apply bool_decide_eq_true in Hn. by rewrite Hn.
  - by intros ? ? ? ? ? ? _ ?.
Qed.

Lemma club_advance_life now x :
  voting_life club_stored club_record x → succeeds (advance now) x = true →
  voting_life club_stored club_record (after_run (advance now) x).
Proof.
  intros Hl [Hr Hs]%after_run_runs. exact (vote_advance _ _ now x _ Hl Hr Hs).
Qed.

Lemma club_built : build_record (st_manifest club_stored) (st_parameters club_stored) = Ok club_record.
Proof.
  assert (match build_record (st_manifest club_stored) (st_parameters club_stored) with
          | Ok _ => true | Err _ => false end = true) as Hok by (vm_compute; reflexivity).
  unfold club_record. destruct (build_record _ _); [reflexivity|discriminate Hok].
Qed.

Lemma club_is_open : er_ceremony club_record = None.
Proof.
  assert (match er_ceremony club_record with Some _ => false | None => true end = true) as Hok
    by (vm_compute; reflexivity).
  destruct (er_ceremony club_record); [discriminate Hok|reflexivity].
Qed.

End AnyJournal.

Section OneElection.
Definition club_start : ElectionRecord * World :=
  (club_record, mk_world (memory_election "did:web:club" "e1" club_stored ∅).2 0).

Definition club_open : ElectionRecord * World := after_run (advance (12 * NANOS)) club_start.
Definition club_first : ElectionRecord * World := after_run (club_cast 9 "yes") club_open.
Definition club_again : ElectionRecord * World := after_run (club_cast 9 "no") club_first.
Definition club_done : ElectionRecord * World := after_run (advance (30 * NANOS)) club_again.

Lemma club_done_life : voting_life club_stored club_record club_done.
Proof.
  assert (voting_life club_stored club_record club_start) as H0.
  { apply vote_start; [exact I|vm_compute; reflexivity..]. }
  assert (voting_life club_stored club_record club_open) as H1.
  { apply club_advance_life; [exact H0|vm_compute; reflexivity..]. }
  assert (voting_life club_stored club_record club_first) as H2.
  { apply club_cast_life; [exact H1|vm_compute; reflexivity..]. }
  assert (voting_life club_stored club_record club_again) as H3.
  { apply club_cast_life; [exact H2|vm_compute; reflexivity..]. }
  apply club_advance_life; [exact H3|vm_compute; reflexivity..].
Qed.

Lemma restart_reproduces_witness :
  er_state club_done.1 = Tallied ∧ length (er_entries club_done.1) = 6%nat
  ∧ restore_one 0 (journalled club_done) (fresh.1, fresh.2)
    = Some (Ok (), (set_election (er_key club_done.1) (as_restored club_done.1) fresh.1, fresh.2)).
Proof.
  split; [vm_compute; reflexivity|]. split; [vm_compute; reflexivity|].
  exact (restart_reproduces club_stored club_record club_built club_is_open club_done 0 fresh.1 fresh.2
           (voting_is_open _ _ _ club_done_life)).
Defined.

(** ** Its certification *)

Lemma club_manifest : er_manifest club_record = club.
Proof.
  destruct (build_record_manifest _ _ club_built) as [Hm _].
  assert (manifest_from_value (st_manifest club_stored) = Ok club) as Hc by (vm_compute; reflexivity).
  exact (ok_inj _ _ (eq_trans (eq_sym Hm) Hc)).
Qed.

Lemma club_certifiable : certifiable_manifest club.
Proof.
  split.
  - done.
  - exists None. vm_compute. reflexivity.
  - repeat constructor.
  - by vm_compute.
  - by vm_compute.
Qed.

Definition club_values : list Value := unwrap_or (try_map from_slice (er_entries club_done.1)) [].
Definition club_root (n : nat) : Hash :=
  unwrap_or (board_root (er_board club_done.1) n) (sha256 []).
Lemma club_values_ok :
  is_ok (try_map from_slice (er_entries club_done.1)) = true →
  try_map from_slice (er_entries club_done.1) = Ok club_values.
Proof. exact (unwrap_or_ok _ _). Qed.
Lemma club_root_ok n :
  is_ok (board_root (er_board club_done.1) n) = true →
  board_root (er_board club_done.1) n = Ok (club_root n).
Proof. exact (unwrap_or_ok _ _). Qed.
Definition club_result : Value := default VNull (er_result club_done.1).
Definition club_checkpoint : HeadRef := mk_head_ref 2 (club_root 2).
Definition club_evidence : Evidence :=
  mk_evidence club_value club_params club_values
    (mk_head_ref (Z.of_nat (length (er_entries club_done.1))) (club_root (length (er_entries club_done.1))))
    [club_checkpoint] club_result 3 (mk_proven ∅).

Lemma club_params_published : published_params club_stored club_record club_params.
Proof.
  exists club_key, 5. split; [vm_compute; reflexivity|]. split; [vm_compute; reflexivity|].
  destruct (build_record_manifest _ _ club_built) as [_ ->]. rewrite club_manifest.
  assert (is_ok (check_community (community club)) = true) as Hc by (vm_compute; reflexivity).
  unfold voting_params_new. destruct (check_community _); [reflexivity|discriminate Hc].
Qed.

Lemma club_checkpoint_signed : signed_head club_done.1 club_checkpoint.
Proof.
  exists club_done.1. split; [reflexivity|]. split.
  - exact (dur_log _ _ _ (durable_life _ _ club_built club_is_open _
             (voting_is_open _ _ _ club_done_life))).
  - cbn [hr_tree_size hr_root club_checkpoint]. change (Z.to_nat 2) with 2%nat.
    apply club_root_ok. vm_compute. reflexivity.
Qed.

Lemma published_result_certifies_witness :
  size (er_counted club_done.1) = 1%nat
  ∧ audit club_evidence
    = Some (Ok (mk_verified (Z.of_nat (size (er_counted club_done.1))) (json_index club_result "questions"))).
Proof.
  split; [vm_compute; reflexivity|].
  refine (published_result_certifies club_stored club_record club_built _ club_is_open club_done
            club_values (club_root (length (er_entries club_done.1))) [club_checkpoint] club_result
            club_params 3 (mk_proven ∅) club_done_life _ _ club_params_published _ _ _ _ _).
  - rewrite club_manifest. exact club_certifiable.
  - vm_compute. reflexivity.
  - unfold club_result. assert (bool_decide (is_Some (er_result club_done.1)) = true) as Hr
      by (vm_compute; reflexivity).
    apply bool_decide_eq_true in Hr as [r ->]. reflexivity.
  - apply club_values_ok. vm_compute. reflexivity.
  - apply club_root_ok. vm_compute. reflexivity.
  - apply Forall_singleton. exact club_checkpoint_signed.
  - rewrite club_manifest. repeat constructor.
  - apply (bool_decide_unpack _). vm_compute. exact I.
Defined.
End OneElection.

(** ** A crash *)

Section OnDisk.
#[local] Existing Instance FileJournal | 0.

Definition disk_start : ElectionRecord * World :=
  (club_record, mk_world ((file_election "did:web:club" "e1" club_stored (∅, [])).2 : @JState FileJournal) 0).
Definition disk_open : ElectionRecord * World := after_run (advance (12 * NANOS)) disk_start.
Definition disk_voted : ElectionRecord * World := after_run (club_cast 9 "yes") disk_open.

Lemma disk_started_whole : whole_disk (disk_of disk_start).
Proof.
  assert (is_ok (file_election "did:web:club" "e1" club_stored (∅, [])).1 = true) as Hok
    by (vm_compute; reflexivity).
  unfold disk_of, disk_start. cbn [snd w_journal].
  destruct (file_election "did:web:club" "e1" club_stored (∅, [])) as [[[]|] [d t]] eqn:Hf; [|discriminate Hok].
  apply (registered_whole _ _ _ _ _ _ _ (map_Forall_empty _) Hf).
Qed.

Lemma disk_voted_life : voting_life club_stored club_record disk_voted.
Proof.
  assert (voting_life club_stored club_record disk_start) as H0.
  { apply vote_start; [exact disk_started_whole|vm_compute; reflexivity..]. }
  assert (voting_life club_stored club_record disk_open) as H1.
  { apply club_advance_life; [exact H0|vm_compute; reflexivity..]. }
  apply club_cast_life; [exact H1|vm_compute; reflexivity..].
Qed.

(** The process dies after a byte of a further entry. *)
Definition dying : list Call := [Done; Done; Failed "power" 1].
Definition torn : result string unit * Os :=
  journal_op "did:web:club" "e1" (EntryOp 2 ["x"%byte]) (disk_of disk_voted, dying).

Lemma torn_split : torn = (torn.1, (torn.2.1, torn.2.2)).
Proof. by destruct torn as [? [? ?]]. Qed.

Lemma disk_voted_registered :
  ef_election (default no_files (disk_of disk_voted !! dir_name "did:web:club" "e1")) ≠ None.
Proof.
  assert (bool_decide (is_Some (ef_election (default no_files
            (disk_of disk_voted !! dir_name "did:web:club" "e1")))) = true) as Hs by (vm_compute; reflexivity).
  apply bool_decide_eq_true in Hs as [b ->]. discriminate.
Qed.

Lemma crash_restored_witness :
  is_ok torn.1 = false
  ∧ ∃ (l : list Restored) (d'' : Disk), load (torn.2.1, []) = (Ok l, (d'', [])) ∧ whole_disk d''.
Proof.
  split; [vm_compute; reflexivity|].
  destruct (crash_restored "did:web:club" "e1" (EntryOp 2 ["x"%byte]) (disk_of disk_voted) dying
              torn.1 torn.2.1 torn.2.2) as (l & d'' & Hl & _ & Hw & _).
  - exact (dur_whole _ _ _ (durable_life _ _ club_built club_is_open _ (voting_is_open _ _ _ disk_voted_life))).
  - exact disk_voted_registered.
  - exact torn_split.
  - exists l, d''. exact (conj Hl Hw).
Defined.

Lemma crash_restart_witness :
  length (er_entries disk_voted.1) = 2%nat
  ∧ is_ok torn.1 = false
  ∧ ∃ (l : list Restored) (d'' : Disk), load (torn.2.1, []) = (Ok l, (d'', [])) ∧ whole_disk d''.
Proof.
  split; [vm_compute; reflexivity|]. split; [vm_compute; reflexivity|].
  destruct (crash_restart club_stored club_record club_built club_is_open disk_voted 0 fresh.1 disk_voted.2
              "did:web:club" "e1" (EntryOp 2 ["x"%byte]) dying torn.1 torn.2.1 torn.2.2)
    as (l & r & d'' & Hl & Hw & _).
  - exact (voting_is_open _ _ _ disk_voted_life).
  - exact disk_voted_registered.
  - exact torn_split.
  - exists l, d''. exact (conj Hl Hw).
Defined.
End OnDisk.

(** ** The client's casts *)

#[export] Instance scene_cast_laws : CastLaws.
Proof.
  split. intros payload p (n & _ & (c & Hc & [= <-])%bind_ok)%bind_ok.
  unfold read_cast, read_str, get_str in Hc.
  apply bind_ok in Hc as (b & _ & (t & Ht%ok_or_ok & (a & Ha%ok_or_ok & [= <-])%bind_ok)%bind_ok).
  unfold json_index at 1 3. by split; [destruct (json_get _ "tag")|destruct (json_get _ "attestation")].
Qed.

#[local] Existing Instances toy_pcs_laws Toy.pcs_text_laws.

Definition club_registrar : Registrar := mk_registrar "did:web:club" () 5 5.
Definition club_box : BallotBox.BallotBox MemoryNullifiers :=
  mk_box () 5 club_election (election_predicate club_election)
    (default 0 (ok (election_point club_election))) BallotBox.Replace (mk_nullifiers ∅).
Definition voting_record : ElectionRecord :=
  mk_er "did:web:club" club club_value club_digest VNull club_box Voting board_new [] ∅ ∅ ∅ ∅ []
    None None ∅ [] None None None.
Definition club_payload : Value := casting 9 "yes".
Definition club_payload_cast : CastPayload :=
  match parse_cast club_payload with
  | Ok p => p
  | Err _ => mk_cast_payload "" "" (mk_wire_cast (club_ballot "") "" "")
  end.
Definition club_rng : Z :=
  match cast_wire (member 9) club_params (ticket 9) (VStr "yes") 0 with Ok (_, r) => r | Err _ => 0 end.

Lemma member_ticket_honest : honest_ticket club_registrar (member 9) club_params (ticket 9).
Proof.
  split; [done|]. split; [by exists 5, 6, ()|]. split; [by exists 9, 10|].
  by exists 0, 1, 0, 1, (9, election_predicate club_election), (), (5, election_predicate club_election).
Qed.

Lemma club_cast_wire :
  is_ok (cast_wire (member 9) club_params (ticket 9) (VStr "yes") 0) = true →
  cast_wire (member 9) club_params (ticket 9) (VStr "yes") 0 = Ok (cast_value 9 "yes", club_rng).
Proof.
  unfold cast_value, club_rng. by destruct (cast_wire _ _ _ _ _) as [[v r]|].
Qed.

Lemma club_payload_parsed :
  is_ok (parse_cast club_payload) = true → parse_cast club_payload = Ok club_payload_cast.
Proof. unfold club_payload_cast. by destruct (parse_cast club_payload). Qed.

Lemma honest_cast_accepted_witness :
  ∃ bj c, open_cast voting_record club_payload_cast club_payload
      = Ok (NewCast (sha256 (json_bytes (cast_value 9 "yes"))) (sha256 bj) bj
              (wc_tag (p_cast club_payload_cast)) None c)
    ∧ is_ok (cast_check_run (open_check voting_record (sha256 (json_bytes (cast_value 9 "yes"))) bj c)) = true.
Proof.
  destruct (honest_cast_accepted club_registrar (member 9) club_params (ticket 9) BallotBox.Replace
              voting_record club_payload_cast club_payload (VStr "yes") 0 (cast_value 9 "yes") club_rng
              (json_bytes (cast_value 9 "yes")))
    as (bj & c & _ & [Ho Hr]).
  - exact member_ticket_honest.
  - reflexivity.
  - reflexivity.
  - reflexivity.
  - apply club_cast_wire. vm_compute. reflexivity.
  - unfold club_payload, casting, with_election. by rewrite json_index_obj.
  - apply club_payload_parsed. vm_compute. reflexivity.
  - vm_compute. reflexivity.
  - reflexivity.
  - reflexivity.
  - by left.
  - exists bj, c. rewrite Hr. exact (conj Ho eq_refl).
Defined.

(** The same question asked with the totals encrypted. *)
Definition tallied_club : Manifest :=
  mk_manifest "e1" "did:web:club" (questions club) TalliedEncrypted (roll club) 0 (10 * NANOS)
    (20 * NANOS) RevoteReplace true [] "did:web:box" false true false 1 None.
Definition ballot_json : Value :=
  mk_obj {[ "answers" := VArr [mk_obj {[ "question" := VStr "motion"; "choice" := VArr [VStr "yes"] ]}] ]}.
Definition club_form : EncryptedForm * Z :=
  unwrap_or (encrypted_form tallied_club club_election ToyTrustees.ek ballot_json "tag" 6)
    (FormEncrypted VNull, 0).
Definition club_enc : Value :=
  match club_form.1 with FormEncrypted v => v | FormSealed v => v end.

Lemma encrypted_ballot_accepted_witness :
  is_ok (tallied_run (check_of tallied_club club_election ToyTrustees.ek "tag" club_enc)) = true
  ∧ ∃ xs vs, as_array (json_index club_enc "questions") = Some vs
    ∧ Forall3 (encrypts_choice ToyTrustees.ek ballot_json) (questions tallied_club) xs vs.
Proof.
  split; [vm_compute; reflexivity|].
  destruct (encrypted_ballot_accepted tallied_club club_election ToyTrustees.ek ballot_json "tag" (6 : @RngState ToyGroup.random)
              club_enc club_form.2) as (xs & vs & Hvs & Hxs & _).
  - reflexivity.
  - unfold club_enc, club_form.
    assert (match encrypted_form tallied_club club_election ToyTrustees.ek ballot_json "tag" 6 with
            | Ok (FormEncrypted _, _) => true | _ => false end = true) as Hok by (vm_compute; reflexivity).
    by destruct (encrypted_form _ _ _ _ _ _) as [[[|]]|].
  - exists xs, vs. exact (conj Hvs Hxs).
Defined.
