(* ===== verification/DispatchRuns.v ===== *)
(** * The dispatcher, run

    The service over the small community of [Scene] and the small proof
    system of [TaskProof]: a community registers its election with a signed
    document, and a member's cast is begun, waits, and is finished. The
    theorems about the dispatcher are applied to this run. *)

From S2P Require Import Prelude Text Json Election Board BallotBox Rules Tally Group Trustees Ceremony.
From S2P Require Import Wire Steps Host DidScid Refresh TaskProof AuditEncrypted Record Service.
From S2P Require Import ServiceEncrypted VoterClient Requests Dispatch Scene Runs.

#[local] Existing Instances MemoryJournal ToyProof.integrity ToyProof.integrity_laws ToyProof.client.

(** Documents are their JSON; an instant is a number of seconds. *)
Definition read_number (v : Value) (k : string) : option Z :=
  match json_get v k with Some (VNum z) => Some (z * NANOS) | _ => None end.
#[local] Instance scene_documents : TrustTasks := {|
  Doc := Value;
  doc_from_value := λ v, match v with VObj _ => Ok v | _ => Err "not a document" end;
  doc_to_value := Ok;
  doc_type_uri := λ v, default "" (get_str v "type");
  doc_issuer := λ v, get_str v "issuer";
  doc_recipient := λ v, get_str v "recipient";
  doc_issued_at := λ v, read_number v "issuedAt";
  doc_expires_at := λ v, read_number v "expiresAt";
  doc_proof := λ v, json_get v "proof";
  doc_payload := λ v, json_index v "payload";
  Code := string;
  code_text := λ c, c;
  code_parse := Some;
  code_extended := λ slug loc, Some (slug +:+ ":" +:+ loc);
  reject_with := λ _ id code message, Ok (mk_obj {[ "id" := VStr id; "code" := VStr code; "message" := VStr message ]});
  respond_with := λ _ id payload, Ok (mk_obj {[ "id" := VStr id; "payload" := payload ]});
  sign_in_place := Ok;
  UuidState := Z;
  new_uuid := λ n, (pretty n, n + 1);
|}.

#[local] Instance scene_dispatch_laws : DispatchLaws.
Proof.
  split. intros payload p Hp. apply bind_ok in Hp as (c & _ & (d & _ & (m & Hm & [= <-])%bind_ok)%bind_ok).
  cbn [rg_manifest]. unfold manifest_from_value, scene_manifest in Hm.
  case_bool_decide as Hv; [|done]. injection Hm as <-. rewrite Hv. unfold club_value. by rewrite json_index_obj.
Qed.

(** ** The run *)

Definition box_app : AppState := mk_app "did:web:box" (mk_communities ["did:web:club"]%string false 1).

Definition document (task issuer vm value : string) (payload : Value) : Value :=
  mk_obj {[ "type" := VStr (Task.SPEC +:+ task); "issuer" := VStr issuer; "recipient" := VStr "did:web:box";
            "issuedAt" := VNum 1; "payload" := payload;
            "proof" := ToyProof.proof_of vm "authentication" (value +:+ " " +:+ Task.SPEC +:+ task) ]}.
Definition register_body : bytes :=
  json_bytes (document "voting/election/register/0.4" "did:web:club" "did:web:club#key-0" "zClub" registration).
Definition cast_body : bytes :=
  json_bytes (document "voting/ballot/cast/0.1" "did:key:z9" "did:key:z9#z9" "z9" (casting 9 "yes")).

Definition begins (body : bytes) (at_ : Z) (h : HostState) : option Ready * HostState :=
  match begin_request box_app body None (at_ * NANOS) h with
  | (Begun_ready r, h') => (Some r, h')
  | (Answered _, h') => (None, h')
  end.
Definition idle : Ready := mk_ready VNull VNull Task.Show "" None None 0.

Definition host0 : HostState := mk_host (Some fresh) ToyProof.start 0.
Definition host1 : HostState := (begins register_body 1 host0).2.
Definition ready1 : Ready := default idle (begins register_body 1 host0).1.
Definition host2 : HostState := (finish_request box_app ready1 host1).2.
Definition host3 : HostState := (begins cast_body 11 host2).2.
Definition ready3 : Ready := default idle (begins cast_body 11 host2).1.

Lemma begins_step body at_ h rs :
  bool_decide (is_Some (begins body at_ h).1) = true →
  dispatched box_app (h, rs) ((begins body at_ h).2, default idle (begins body at_ h).1 :: rs).
Proof.
  unfold begins. destruct (begin_request box_app body None (at_ * NANOS) h) as [[a|r] h'] eqn:Hb; [done|].
  intros _. by eapply dispatch_begun.
Qed.

Definition box_of (h : HostState) : Service * World := default fresh (h_box h).
Lemma box_some h : bool_decide (is_Some (h_box h)) = true → h_box h = Some (box_of h).
Proof. unfold box_of. intros [x ->]%bool_decide_eq_true. done. Qed.

Lemma run_registered : rtc (dispatched box_app) (host0, []) (host2, []).
Proof.
  eapply rtc_l; [apply (begins_step register_body 1 host0 []); vm_compute; reflexivity|].
  apply rtc_once. apply (dispatch_finished box_app ready1 (finish_request box_app ready1 host1).1 host1 host2 [] []).
  unfold host2. by destruct (finish_request box_app ready1 host1).
Qed.

Lemma run_waiting : rtc (dispatched box_app) (host0, []) (host3, [ready3]).
Proof.
  eapply rtc_r; [exact run_registered|]. apply (begins_step cast_body 11 host2 []). vm_compute. reflexivity.
Qed.

Lemma dispatch_authorised_witness :
  holds (box_of host3).1 "did:web:club" "e1" = true
  ∧ vouched box_app ready3 ∧ rtc (box_step box_app) fresh (box_of host3).
Proof.
  split; [vm_compute; reflexivity|].
  destruct (dispatch_authorised box_app fresh ToyProof.start (h_uuids host0) host3 [ready3] run_waiting) as [Hf Hb].
  split; [exact (proj1 (Forall_singleton _ _) Hf)|]. apply Hb, box_some. vm_compute. reflexivity.
Defined.

Lemma quota_kept_witness :
  unfinished (box_of host3).1 "did:web:club" = 1%nat
  ∧ (unfinished (box_of host3).1 "did:web:club"
     ≤ Nat.max (unfinished fresh.1 "did:web:club") (max_unfinished (as_communities box_app)))%nat.
Proof.
  split; [vm_compute; reflexivity|].
  refine (proj1 (quota_kept box_app fresh ToyProof.start (h_uuids host0) host3 [ready3] (box_of host3) run_waiting _) _).
  apply box_some. vm_compute. reflexivity.
Defined.

Lemma checked_apart_witness :
  bool_decide (is_Some (rd_verified ready3)) = true
  ∧ outcome box_app ready3 (box_of host3)
    = cast_with (doc_payload (rd_doc ready3)) None (rd_now ready3) (box_of host3).
Proof.
  split; [vm_compute; reflexivity|].
  refine (checked_apart box_app fresh ToyProof.start (h_uuids host0) host3 [ready3] ready3 (box_of host3) run_waiting
            (list_elem_of_here _ _) _ _).
  - vm_compute. reflexivity.
  - apply box_some. vm_compute. reflexivity.
Defined.
