(* ===== verification/AclRuns.v ===== *)
(** * The access control list at work

    A small list of entries, its rows numbered texts, and what happens to it:
    grants, a rotation and a hand-off that succeed, on which the theorems of
    [AclSafety] and [AclEffects] are seen to hold; and three interleavings they
    leave out, in which an unconditional write brings back a row that was
    removed, or loses one that was written, while it was being changed. *)

From S2P Require Import Prelude Text Json Election Host Contexts Programs Keyspace Acl SwapProof AclOps AclSafety AclEffects Scene.

(** ** A list of entries *)

#[local] Instance form_eq_dec : EqDecision CompanionFormFactor.
Proof. solve_decision. Defined.
#[local] Instance service_kind_eq_dec : EqDecision ServiceKind.
Proof. solve_decision. Defined.
#[local] Instance kind_eq_dec : EqDecision ConsumerKind.
Proof. solve_decision. Defined.
#[local] Instance wake_eq_dec : EqDecision WakeChannel.
Proof. solve_decision. Defined.
#[local] Instance uv_key_eq_dec : EqDecision UvKey.
Proof. solve_decision. Defined.
#[local] Instance device_eq_dec : EqDecision DeviceBinding.
Proof. solve_decision. Defined.
#[local] Instance step_up_eq_dec : EqDecision StepUpMode.
Proof. solve_decision. Defined.
#[local] Instance approve_scope_eq_dec : EqDecision ApproveScope.
Proof. solve_decision. Defined.
#[local] Instance bound_eq_dec : EqDecision HandOffBound.
Proof. solve_decision. Defined.
#[local] Instance handoff_eq_dec : EqDecision HandOff.
Proof. solve_decision. Defined.
#[local] Instance entry_eq_dec : EqDecision AclEntry.
Proof. solve_decision. Defined.

Definition root : AclEntry := entry_new "did:root" Admin "cli:setup" 10.
(** An administrator of [acme] who signs with one key, until 1000. *)
Definition acme_admin : AclEntry :=
  with_expires_at (Some 1000) (with_allowed_keys (Some {["k1"]}) (with_contexts ["acme"] (entry_new "did:acme" Admin "did:root" 20))).
(** A reader it may make. *)
Definition reader : AclEntry :=
  with_expires_at (Some 900) (with_allowed_keys (Some {["k1"]}) (with_contexts ["acme"] (entry_new "did:reader" Reader "did:acme" 100))).
(** An entry [root] made to be handed off, and what it may be handed off to. *)
Definition marker : HandOff := mk_handoff "did:root" 100 (mk_bound Admin [] [] ApproveNone None None).
Definition temp : AclEntry :=
  with_handoff (Some marker) (with_expires_at (Some 500) (entry_new "did:temp" Admin "did:root" 100)).
Definition heir (did : string) : AclEntry := entry_new did Admin "did:temp" 100.

(** A row is an entry's place here. *)
Definition entries : list AclEntry :=
  [root; acme_admin; reader; temp; with_label (Some "spare") temp; with_version 1 (set_role Reader temp); heir "did:heir"; heir "did:other";
   set_did "did:next" acme_admin].

Fixpoint place (e : AclEntry) (es : list AclEntry) : option nat :=
  match es with
  | [] => None
  | x :: es => if bool_decide (x = e) then Some 0%nat else S <$> place e es
  end.
Lemma place_lookup e es n : place e es = Some n → es !! n = Some e.
Proof.
  revert n. induction es as [|x es IH]; intros n; [done|]. simpl. case_bool_decide as Hx.
  - intros [= <-]. by rewrite Hx.
  - intros (m & Hm & ->)%fmap_Some. by apply IH.
Qed.

#[local] Instance scene_acl : AclSerde := {|
  entry_to_vec := λ e, ok_or ((λ n, repeat x00 n) <$> place e entries) AppSerialization;
  entry_from_slice := λ b, ok_or (entries !! length b) AppSerialization;
|}.
#[local] Instance scene_acl_laws : AclSerdeLaws.
Proof.
  split. intros e b. unfold entry_to_vec, entry_from_slice, scene_acl.
  destruct (place e entries) as [n|] eqn:Hn; [|done]. intros [= <-]. rewrite repeat_length.
  by rewrite (place_lookup _ _ _ Hn).
Qed.

(** A key signs by its own bytes. *)
Definition next_key : string := "0123456789abcdef0123456789abcdef".
#[local] Instance scene_jws : Jws := {|
  b64_decode := λ s, Some (as_bytes s);
  ed25519_verify := λ key _ sig, bool_decide (key = sig);
|}.
#[local] Instance scene_swap : SwapSerde := {|
  header_from_slice := λ _, Some (mk_header "EdDSA" "did:next#k");
  claims_from_slice := λ _, Some (mk_swap_claims "did:next" "did:vta" 500 None [VP_TYPE; SWAP_TYPE] None);
|}.
#[local] Existing Instances Toy.multibase.

Definition presentation : string :=
  "h." +:+ String.string_of_list_byte (json_bytes (VObj [("iss", VStr "did:next")])) +:+ "." +:+ next_key.
Definition next_document : Value :=
  VObj [("verificationMethod", VArr [VObj [("id", VStr "did:next#k");
    ("publicKeyJwk", VObj [("crv", VStr "Ed25519"); ("kty", VStr "OKP"); ("x", VStr next_key)])]])].

Definition row_of (e : AclEntry) : bytes := unwrap_or (entry_to_vec e) [].
Definition world : World AgentCall :=
  mk_world (list_to_map ((λ e, (acl_key (ae_did e), row_of e)) <$> [root; acme_admin; temp]))
    {["acme"; "globex"]} 100 [] {["did:next" := next_document]}.

Definition session (e : AclEntry) : AuthClaims := mk_claims (ae_did e) (ae_role e) (ae_contexts e) "session" 0 0 ["pwd"] "aal1".

(** ** Requests *)

Definition make_reader : AclRequest :=
  RqCreate (mk_create "did:reader" Reader None ["acme"] (Some 900) None None ApproveNone (Some {["k1"]}) [] false).
Definition hand_to (did : string) : AclRequest := RqHandOff (mk_successor did Admin None [] []).
Definition relabel : AclRequest :=
  RqUpdate "did:temp" (mk_update None (Some "spare") None None None None None false None None None).

Example reader_made : is_ok (run (run_request (session acme_admin) make_reader) world).1 = true.
Proof. vm_compute. reflexivity. Qed.
Example handed_off : is_ok (run (run_request (session temp) (hand_to "did:heir")) world).1 = true.
Proof. vm_compute. reflexivity. Qed.
Example relabelled : is_ok (run (run_request (session root) relabel) world).1 = true.
Proof. vm_compute. reflexivity. Qed.
Example rotated : is_ok (run (run_request (session acme_admin) (RqSwap presentation "did:vta")) world).1 = true.
Proof. vm_compute. reflexivity. Qed.

(** ** The theorems on them *)

Lemma grant_bounded_witness :
  ∃ me e, caller_row (session acme_admin) (advance 5 [] (run_request (session acme_admin) make_reader) world).1 me
    ∧ entry_from_slice (row_of reader) = Ok e ∧ acl_key "did:reader" = acl_key (ae_did e)
    ∧ bounded (session acme_admin) me e
    ∧ (∀ ctx, touches ctx e = true → has_context_access (session acme_admin) ctx = true)
    ∧ ∃ had, had = [] ∧ adds_own (session acme_admin) had e.
Proof.
  apply (grant_bounded (session acme_admin) make_reader _
    (advance 5 [] (run_request (session acme_admin) make_reader) world).2
    (ApplyBatch (mk_batch [] [Put "acl:did:reader" (row_of reader)])));
    [reflexivity|apply advance_traced|vm_compute; reflexivity|by apply list_elem_of_singleton].
Defined.

Lemma handoff_bounded_witness :
  let h := (advance 5 [] (run_request (session temp) (hand_to "did:heir")) world).1 in
  ∃ me m created e,
    read_row h "did:temp" me ∧ ae_handoff me = Some m
    ∧ entry_from_slice (row_of (heir "did:heir")) = Ok e ∧ acl_key "did:heir" = acl_key (ae_did e)
    ∧ bounded (session temp) (with_expires_at None me) e
    ∧ bounded (granter_claims (session temp) m) (granter_entry m created) e
    ∧ ae_handoff e = None ∧ ae_approve_scope e = ApproveNone
    ∧ mk_event (RecordAudit (handoff_row (session temp) (ae_did e) "committing")) (Ok ()) ∈ h.
Proof.
  apply (handoff_bounded (session temp) (mk_successor "did:heir" Admin None [] []) _
    (advance 5 [] (run_request (session temp) (hand_to "did:heir")) world).2
    (MoveIfUnchanged "acl:did:temp" (row_of temp) "acl:did:heir" (row_of (heir "did:heir"))));
    [apply advance_traced|vm_compute; reflexivity|by split].
Defined.

(** A thread has answered. *)
Definition answered (s : Service AgentCall (option CreateAclResultBody)) (i : nat) : bool :=
  match sv_threads s !! i with Some (mk_thread _ (Ret (Ok _))) => true | _ => false end.

Lemma answered_thread s i :
  answered s i = true → ∃ h a, sv_threads s !! i = Some (mk_thread h (Ret (Ok a))).
Proof.
  unfold answered. destruct (sv_threads s !! i) as [[h [[a|]|]]|]; try done. intros _. by exists h, a.
Qed.

Definition acme_world : World AgentCall := set_rows (list_to_map [(acl_key "did:acme", row_of acme_admin)]) world.
Definition acme_requests : list (AuthClaims * AclRequest) :=
  [(session acme_admin, make_reader); (session acme_admin, RqSwap presentation "did:vta")].
Definition acme_served : Service AgentCall (option CreateAclResultBody) :=
  serve (mk_service acme_world [] (begin <$> served acme_requests)) [0; 1; 1; 0; 0; 1; 0; 1; 0; 1; 0; 1; 0; 1; 0; 1; 1; 1]%nat.

Lemma authority_contained_witness :
  answered acme_served 0 = true ∧ answered acme_served 1 = true ∧ untouched "globex" (sv_world acme_served).
Proof.
  split; [vm_compute; reflexivity|]. split; [vm_compute; reflexivity|].
  apply (authority_contained "globex" acme_requests acme_world); [| |apply serve_steps].
  - intros key b e Hk He. unfold acme_world in Hk. cbn [w_rows set_rows list_to_map foldr] in Hk.
    apply lookup_insert_Some in Hk as [[_ <-]|[_ Hk]]; [|by rewrite lookup_empty in Hk].
    vm_compute in He. injection He as <-. vm_compute. reflexivity.
  - intros auth rq Hin. apply elem_of_cons in Hin as [[= -> _]|Hin]; [vm_compute; reflexivity|].
    apply list_elem_of_singleton in Hin as [= -> _]. vm_compute. reflexivity.
Defined.

Definition rival_requests : list (AuthClaims * AclRequest) :=
  [(session temp, hand_to "did:heir"); (session temp, hand_to "did:other")].
(** Both have read the marked row before either moves it. *)
Definition rivals : Service AgentCall (option CreateAclResultBody) :=
  serve (mk_service world [] (begin <$> served rival_requests)) [0; 1; 0; 1; 0; 1; 0; 1; 0; 1; 0; 1; 0; 1; 0; 1; 0; 1]%nat.

Lemma handoff_once_witness : answered rivals 0 = true ∧ answered rivals 1 = false ∧ 0%nat = 0%nat.
Proof.
  split; [vm_compute; reflexivity|]. split; [vm_compute; reflexivity|].
  destruct (answered_thread rivals 0) as (h & a & Ht); [vm_compute; reflexivity|].
  apply (handoff_once rival_requests world rivals 0 0 (session temp) (session temp)
    (mk_successor "did:heir" Admin None [] []) (mk_successor "did:heir" Admin None [] [])
    (mk_thread h (Ret (Ok a))) (mk_thread h (Ret (Ok a))) a a);
    [|apply serve_steps|reflexivity|reflexivity|reflexivity|exact Ht|reflexivity|exact Ht|reflexivity].
  intros auth rq Hin. apply elem_of_cons in Hin as [[= _ ->]|Hin]; [reflexivity|].
  apply list_elem_of_singleton in Hin as [= _ ->]. reflexivity.
Defined.

Lemma request_effect_witness :
  let r := run (run_request (session acme_admin) (RqSwap presentation "did:vta")) world in
  is_ok r.1 = true
  ∧ match r.1 with
    | Err _ => w_rows r.2 = w_rows world
    | Ok a => effect (session acme_admin) world (RqSwap presentation "did:vta") a (w_rows r.2)
    end.
Proof.
  split; [exact rotated|].
  apply (request_effect (session acme_admin) (RqSwap presentation "did:vta")). apply surjective_pairing.
Defined.

(** ** What an unconditional write undoes

    [update_acl] and [swap_acl] read an entry and store it back with
    [store_acl_entry], whatever has become of the row meanwhile. *)

(** A hand-off exercised twice: the marked entry is relabelled by its granter
    while it is handed off, and is there again, marked. *)
Definition relabel_requests : list (AuthClaims * AclRequest) :=
  [(session temp, hand_to "did:heir"); (session root, relabel); (session temp, hand_to "did:other")].
Definition twice : Service AgentCall (option CreateAclResultBody) :=
  serve (mk_service world [] (begin <$> served relabel_requests))
    (repeat 1 3 ++ repeat 0 9 ++ repeat 1 3 ++ repeat 2 9)%nat.

Example handed_off_twice :
  rtc service_step (mk_service world [] (begin <$> served relabel_requests)) twice
  ∧ answered twice 0 = true ∧ answered twice 1 = true ∧ answered twice 2 = true
  ∧ is_Some (w_rows (sv_world twice) !! acl_key "did:heir") ∧ is_Some (w_rows (sv_world twice) !! acl_key "did:other").
Proof. split; [apply serve_steps|]. split_and!; try (vm_compute; reflexivity); vm_compute; by eexists. Qed.

(** A deleted entry rotated: its authority is back, under another DID. *)
Definition revoke_requests : list (AuthClaims * AclRequest) :=
  [(session acme_admin, RqSwap presentation "did:vta"); (session root, RqDelete "did:acme")].
Definition revived : Service AgentCall (option CreateAclResultBody) :=
  serve (mk_service world [] (begin <$> served revoke_requests)) (repeat 0 4 ++ repeat 1 6 ++ repeat 0 6)%nat.

Example revoked_then_rotated :
  rtc service_step (mk_service world [] (begin <$> served revoke_requests)) revived
  ∧ answered revived 0 = true ∧ answered revived 1 = true
  ∧ w_rows (sv_world revived) !! acl_key "did:next" = Some (row_of (set_did "did:next" acme_admin)).
Proof. split; [apply serve_steps|]. split_and!; vm_compute; reflexivity. Qed.

(** An update answered, and lost: the role change read the entry before it, and
    the version it checks has not moved. *)
Definition role_requests : list (AuthClaims * AclRequest) :=
  [(session root, RqChangeRole "did:temp" "admin" "reader"); (session root, relabel)].
Definition overwritten : Service AgentCall (option CreateAclResultBody) :=
  serve (mk_service world [] (begin <$> served role_requests)) (repeat 0 3 ++ repeat 1 6 ++ repeat 0 6)%nat.

Example update_lost :
  rtc service_step (mk_service world [] (begin <$> served role_requests)) overwritten
  ∧ answered overwritten 0 = true ∧ answered overwritten 1 = true
  ∧ w_rows (sv_world overwritten) !! acl_key "did:temp" = Some (row_of (with_version 1 (set_role Reader temp))).
Proof. split; [apply serve_steps|]. split_and!; vm_compute; reflexivity. Qed.
