(* ===== verification/Spine.v ===== *)
(** * The pipeline every document goes through

    [vti-trust-task-server]: the receive pipeline ([spine.rs]), the record of
    accepted document ids it claims before executing ([accepted.rs],
    [accepted_store.rs]), the signing of its answers ([sign.rs]), its refusals
    ([reject.rs]) and the default size table ([size.rs]), as programs whose
    calls are those of the store, of the clock, and of the parts a service
    injects. Documents are [trust_tasks_rs]'s; what it decides of them, and the
    text of its error documents, are arguments. Words of errors, and logging,
    are left out. *)

From S2P Require Import Prelude Text Json Host DidScid Programs Keyspace.

(** ** What the framework decides *)

Class TaskFramework := {
  TaskDoc : Type;
  (** [serde_json::from_slice::<TrustTask<Value>>]. *)
  task_from_slice : bytes → result string TaskDoc;
  task_id : TaskDoc → string;
  (** [type_uri.for_routing()]. *)
  task_type : TaskDoc → string;
  task_issuer : TaskDoc → option string;
  task_has_proof : TaskDoc → bool;
  task_expires_at : TaskDoc → option Z;
  document_digest : TaskDoc → result string string;
  RejectReason : Type;
  FreshnessPolicy : Type;
  policy_skew : FreshnessPolicy → Z;
  validate_freshness : TaskDoc → Z → FreshnessPolicy → result RejectReason unit;
  record_expiry : FreshnessPolicy → TaskDoc → Z → option Z;
  validate_basic : TaskDoc → Z → string → result RejectReason unit;
  SpecPolicy : Type;
  enforce : SpecPolicy → TaskDoc → result RejectReason unit;
  (** The reasons given here, by what they carry besides words. *)
  malformed_request : RejectReason;
  permission_denied : RejectReason;
  task_failed : option Value → RejectReason;
  internal_error : RejectReason;
  proof_required : RejectReason;
  proof_invalid : RejectReason;
  identity_mismatch : string → string → RejectReason;
  id_conflict : RejectReason;
  unavailable : RejectReason;
  (** Whether a reason is [TaskFailed], and the details it has. *)
  task_failed_details : RejectReason → option (option Value);
  (** [status_for_code] of a reason's code. *)
  status_for_reason : RejectReason → Z;
  (** What a size gate charged before the proof was looked at. *)
  SizeCharge : Type;
}.

(** [serde_json::to_vec] of a [Value]. *)
Class ValueSerde := value_to_vec : Value → result string bytes.

(** A row of the record of accepted ids. *)
Record IdRecord := mk_record {
  rc_digest : string;
  rc_retain_until : Z;
  rc_response : option Value;
  rc_completed : bool;
}.
Class RecordSerde := {
  record_to_vec : IdRecord → result AppError bytes;
  record_from_slice : bytes → result AppError IdRecord;
}.
Class RecordSerdeLaws `{RecordSerde} := {
  record_roundtrip r b : record_to_vec r = Ok b → record_from_slice b = Ok r;
}.

(** ** Outcomes and arrivals ([outcome.rs], [context.rs]) *)

Record TrustTaskOutcome := mk_outcome { oc_status : Z; oc_body : bytes }.
Definition outcome_empty (status : Z) : TrustTaskOutcome := mk_outcome status [].
Definition is_success (o : TrustTaskOutcome) : bool := (200 <=? oc_status o) && (oc_status o <? 300).

Inductive Transport := Rest | DIDComm | Tsp.
#[export] Instance transport_eq_dec : EqDecision Transport.
Proof. solve_decision. Defined.
Definition reports_sender (t : Transport) : bool := match t with DIDComm | Tsp => true | Rest => false end.

Record ArrivalCtx := mk_arrival {
  ar_transport : Transport;
  ar_sender_did : option string;
  ar_verified_signer : option string;
}.
Definition arrival_didcomm (sender : string) : ArrivalCtx := mk_arrival DIDComm (Some sender) None.
Definition arrival_rest : ArrivalCtx := mk_arrival Rest None None.
Definition with_verified_signer (signer : option string) (ctx : ArrivalCtx) : ArrivalCtx :=
  mk_arrival (ar_transport ctx) (ar_sender_did ctx) signer.

(** What a claim remembers: its id and digest. *)
Record Claim := mk_claim { cl_id : string; cl_digest : string }.
Inductive Acceptance :=
| Fresh (c : Claim)
| Duplicate (prior_response : option Value) (in_flight : bool)
| Conflict.
Inductive AcceptedIdsError := NotDigestible | IdsUnavailable.

(** ** Calls *)

Section Calls.
Context `{TaskFramework}.

Inductive SpineCall :=
(** The lock of a stripe, and dropping its guard. *)
| Lock (stripe : Z)
| Unlock (stripe : Z)
(** The accepted ids' keyspace. *)
| Get (k : string)
| Insert (k : string) (b : bytes)
| InsertIfAbsent (k : string) (b : bytes)
| Remove (k : string)
| PrefixIter (prefix : string)
(** The process-local record, each under its mutex. *)
| MemClaim (id digest : string) (retain_until now : Z)
| MemCompleted (c : Claim) (response : option Value)
| MemRelease (c : Claim)
| UtcNow
(** The parts a service injects: [SizeGate], [SpineHooks], [ProofVerifier],
    [VerifiedAdmission], [Dispatcher], [ResponseSigner]. *)
| Admit (body : bytes)
| Settle (charge : SizeCharge) (verified : option string)
| Recipient
| BeforeProof (doc : TaskDoc) (type_uri : string)
| VerifyProof (received : Value) (type_uri : string)
| AfterProof (doc : TaskDoc) (type_uri signer : string)
| AdmitVerified (signer : string)
| Dispatch (doc : TaskDoc) (type_uri : string) (ctx : ArrivalCtx) (received : Value)
| SignDocument (doc : Value)
(** The framework's error documents, each under a new id. *)
| RoutedError (doc : TaskDoc) (reason : RejectReason)
| UnroutedError (reason : RejectReason).

#[export] Instance spine_reply : CallType SpineCall := λ c,
  match c with
  | Get _ => option bytes
  | InsertIfAbsent _ _ => bool
  | PrefixIter _ => list (string * bytes)
  | MemClaim _ _ _ _ => option IdRecord
  | UtcNow => Z
  | Admit _ => result TrustTaskOutcome (option SizeCharge)
  | Recipient => option string
  | BeforeProof _ _ | AfterProof _ _ _ => option TrustTaskOutcome
  | VerifyProof _ _ => string
  | AdmitVerified _ => bool
  | Dispatch _ _ _ _ => TrustTaskOutcome
  | SignDocument _ => Value
  | RoutedError _ _ | UnroutedError _ => bytes
  | Lock _ | Unlock _ | Insert _ _ | Remove _ | MemCompleted _ _ | MemRelease _ | Settle _ _ => unit
  end%type.

End Calls.
Abbreviation SpineProg := (Prog SpineCall).

(** ** The record of accepted ids *)

Definition FALLBACK_RETENTION_SECS : Z := 11 * 60.
Definition KEY_PREFIX : string := "accepted:".
Definition STRIPES : Z := 64.

Definition record_key (id : string) : string := KEY_PREFIX +:+ id.

(** FNV-1a over the id, in 64 bits. *)
Definition fnv_step (h : Z) (b : byte) : Z := (Z.lxor h (Z_of_byte b) * 0x100000001b3) mod 2 ^ 64.
Definition stripe_for (id : string) : Z := fold_left fnv_step (as_bytes id) 0xcbf29ce484222325 mod STRIPES.

Definition is_expired_at (r : IdRecord) (now : Z) : bool := rc_retain_until r <=? now.

(** What a live row says of a document. *)
Definition acceptance_of (r : IdRecord) (digest : string) : Acceptance :=
  if bool_decide (rc_digest r = digest) then Duplicate (rc_response r) (negb (rc_completed r)) else Conflict.

(** *** In memory ([accepted.rs]) *)

Abbreviation Records := (gmap string IdRecord).

(** The live row in the way, or the new one in its place. *)
Definition mem_claim (id digest : string) (retain_until now : Z) (m : Records) : option IdRecord * Records :=
  let fresh := (None, <[id := mk_record digest retain_until None false]> m) in
  match m !! id with
  | Some existing => if now <? rc_retain_until existing then (Some existing, m) else fresh
  | None => fresh
  end.
Definition mem_completed (c : Claim) (response : option Value) (m : Records) : Records :=
  match m !! cl_id c with
  | Some r =>
      if bool_decide (rc_digest r = cl_digest c)
      then <[cl_id c := mk_record (rc_digest r) (rc_retain_until r) response true]> m
      else m
  | None => m
  end.
Definition mem_release (c : Claim) (m : Records) : Records :=
  match m !! cl_id c with
  | Some r => if bool_decide (rc_digest r = cl_digest c) && negb (rc_completed r) then delete (cl_id c) m else m
  | None => m
  end.

Section Spine.
Context `{TaskFramework, ValueSerde, RecordSerde, Jcs, Serde}.

(** A record of accepted ids, as the pipeline uses it. *)
Record AcceptedIdStore := mk_ids {
  ids_claim : TaskDoc → option Z → Z → SpineProg (result AcceptedIdsError Acceptance);
  ids_completed : Claim → option Value → SpineProg unit;
  ids_release : Claim → SpineProg unit;
}.

(** [unwrap_or_else]: the retention of a claim whose caller could bound
    nothing. *)
Definition retention (retain_until : option Z) (now : Z) : Z :=
  default (now + FALLBACK_RETENTION_SECS * NANOS) retain_until.

Definition memory_ids : AcceptedIdStore := {|
  ids_claim doc retain_until now :=
    match document_digest doc with
    | Err _ => mret (Err NotDigestible)
    | Ok digest =>
        existing ← call (MemClaim (task_id doc) digest (retention retain_until now) now);
        mret (Ok match existing with
                 | Some r => acceptance_of r digest
                 | None => Fresh (mk_claim (task_id doc) digest)
                 end)
    end;
  ids_completed c response := call (MemCompleted c response);
  ids_release c := call (MemRelease c);
|}.

(** *** In the store ([accepted_store.rs]) *)

(** The guard is dropped however [p] ends. *)
Definition with_stripe {A} (id : string) (p : SpineProg A) : SpineProg A :=
  _ ← call (Lock (stripe_for id));
  then_do p (λ r, _ ← call (Unlock (stripe_for id)); lift r).

(** [ks.get::<Record>]. *)
Definition get_record (id : string) : SpineProg (option IdRecord) :=
  raw ← call (Get (record_key id));
  match raw with
  | None => mret None
  | Some b => r ← lift (record_from_slice b); mret (Some r)
  end.

(** Put the claim's row where there is none. *)
Definition place (id digest : string) (retain_until : Z) : SpineProg Acceptance :=
  b ← lift (record_to_vec (mk_record digest retain_until None false));
  inserted ← call (InsertIfAbsent (record_key id) b);
  _ ← refuse_if (negb inserted) AppInternal;
  mret (Fresh (mk_claim id digest)).

Definition claim_inner (id digest : string) (retain_until now : Z) : SpineProg Acceptance :=
  with_stripe id (
    existing ← get_record id;
    match existing with
    | Some r =>
        if negb (is_expired_at r now) then mret (acceptance_of r digest)
        else _ ← call (Remove (record_key id)); place id digest retain_until
    | None => place id digest retain_until
    end).

Definition store_claim (doc : TaskDoc) (retain_until : option Z) (now : Z)
  : SpineProg (result AcceptedIdsError Acceptance) :=
  match document_digest doc with
  | Err _ => mret (Err NotDigestible)
  | Ok digest =>
      then_do (claim_inner (task_id doc) digest (retention retain_until now) now) (λ r,
        mret (map_err (λ _, IdsUnavailable) r))
  end.

Definition complete (c : Claim) (response : option Value) : SpineProg unit :=
  with_stripe (cl_id c) (
    existing ← get_record (cl_id c);
    match existing with
    | None => mret ()
    | Some r =>
        if bool_decide (rc_digest r ≠ cl_digest c) then mret ()
        else
          b ← lift (record_to_vec (mk_record (rc_digest r) (rc_retain_until r) response true));
          call (Insert (record_key (cl_id c)) b)
    end).

Definition release (c : Claim) : SpineProg unit :=
  with_stripe (cl_id c) (
    existing ← get_record (cl_id c);
    match existing with
    | None => mret ()
    | Some r =>
        if bool_decide (rc_digest r = cl_digest c) && negb (rc_completed r)
        then call (Remove (record_key (cl_id c)))
        else mret ()
    end).

(** A settlement that fails is logged and let pass. *)
Definition settled (p : SpineProg unit) : SpineProg unit := then_do p (λ _, mret ()).

Definition store_ids : AcceptedIdStore := {|
  ids_claim := store_claim;
  ids_completed c response := settled (complete c response);
  ids_release c := settled (release c);
|}.

(** The rows read, one by one: no lock is taken. *)
Fixpoint sweep_rows (now : Z) (rows : list (string * bytes)) (purged : nat) : SpineProg nat :=
  match rows with
  | [] => mret purged
  | (k, v) :: rows =>
      match record_from_slice v with
      | Ok r => if is_expired_at r now then _ ← call (Remove k); sweep_rows now rows (S purged)
                else sweep_rows now rows purged
      | Err _ => sweep_rows now rows purged
      end
  end.
Definition sweep_expired (now : Z) : SpineProg nat :=
  rows ← call (PrefixIter KEY_PREFIX); sweep_rows now rows 0.
(** [room-host]'s timer. *)
Definition sweep_accepted_ids : SpineProg nat := now ← call UtcNow; sweep_expired now.

(** ** Retention ([acceptance.rs]) *)

Definition retain_until (policy : FreshnessPolicy) (doc : TaskDoc) (now : Z) : option Z :=
  expiry ← record_expiry policy doc now;
  Some (match task_expires_at doc with
        | Some expires_at => if bool_decide (expiry = expires_at) then expires_at + policy_skew policy else expiry
        | None => expiry
        end).

(** ** Refusals ([reject.rs]) *)

Definition DETAILS_MAX_JCS_BYTES : nat := 4096.
Definition DETAILS_MAX_MEMBERS : nat := 16.

Definition bound_details (details : option Value) : option Value :=
  d ← details;
  let too_many := match d with VObj ms => (DETAILS_MAX_MEMBERS <? length ms)%nat | _ => false end in
  let too_large := match jcs_to_vec d with Ok jcs => (DETAILS_MAX_JCS_BYTES <? length jcs)%nat | Err _ => true end in
  if too_many || too_large then None else Some d.

(** [StatusCode::from_u16], or 500. *)
Definition status_or_500 (n : Z) : Z := if (100 <=? n) && (n <? 1000) then n else 500.

Definition reject_with (doc : TaskDoc) (reason : RejectReason) : SpineProg TrustTaskOutcome :=
  let reason := match task_failed_details reason with
                | Some details => task_failed (bound_details details)
                | None => reason
                end in
  body ← call (RoutedError doc reason);
  mret (mk_outcome (status_or_500 (status_for_reason reason)) body).

Definition task_failed_because (reason : string) : RejectReason :=
  task_failed (Some (mk_obj {["reason" := VStr reason]})).

Definition app_error_reason (e : AppError) : RejectReason :=
  match e with
  | AppAuthentication | AppUnauthorized | AppForbidden | AppStepUpRequired => permission_denied
  | AppValidation | AppTrustTaskMalformed | AppTrustTaskMissing | AppInvalidCursor => malformed_request
  | AppNotFound => task_failed_because "not_found"
  | AppConflict | AppIdempotencyKeyConflict => task_failed_because "conflict"
  | AppGone => task_failed_because "gone"
  | AppApprovalRequired code details =>
      task_failed (Some match details with
                        | VObj ms => mk_obj (<["reason" := VStr code]> (list_to_map ms))
                        | v => v
                        end)
  | _ => internal_error
  end.
Definition app_error_to_reject (doc : TaskDoc) (e : AppError) : SpineProg TrustTaskOutcome :=
  reject_with doc (app_error_reason e).

Definition unrouted_error_response (reason : RejectReason) : SpineProg TrustTaskOutcome :=
  body ← call (UnroutedError reason);
  mret (mk_outcome (status_or_500 (status_for_reason reason)) body).
Definition body_parse_error_response : SpineProg TrustTaskOutcome := unrouted_error_response malformed_request.

Definition ids_error_reason (e : AcceptedIdsError) : RejectReason :=
  match e with NotDigestible => internal_error | IdsUnavailable => unavailable end.

(** ** Signing ([sign.rs]) *)

Definition sign_response (signer : bool) (outcome : TrustTaskOutcome) : SpineProg TrustTaskOutcome :=
  if bool_decide (oc_body outcome = []) || negb signer then mret outcome
  else
    match from_slice (oc_body outcome) with
    | Err _ => mret outcome
    | Ok doc =>
        if bool_decide (is_Some (json_get doc "proof")) then mret outcome
        else
          then_do (call (SignDocument doc)) (λ r,
            match r with
            | Err _ => mret outcome
            | Ok signed =>
                mret (match value_to_vec signed with
                      | Ok body => mk_outcome (oc_status outcome) body
                      | Err _ => outcome
                      end)
            end)
    end.

(** ** The pipeline ([spine.rs]) *)

(** What a service injects: the parts that are called appear as calls;
    whether it has an admission and a signer, here. *)
Record Spine := mk_spine {
  sp_freshness : FreshnessPolicy;
  sp_policy : string → option SpecPolicy;
  sp_admission : bool;
  sp_accepted_ids : AcceptedIdStore;
  sp_records_response : string → bool;
  sp_signer : bool;
}.

(** A stage that passes something on, or answers. *)
Abbreviation Stage A := (SpineProg (result TrustTaskOutcome A)).
Definition pass {A} (a : A) : Stage A := mret (Ok a).
Definition answer {A} (p : SpineProg TrustTaskOutcome) : Stage A := o ← p; mret (Err o).
(** [if let Err(reason) = r { return reject_with(..) }] *)
Definition or_reject {A} (doc : TaskDoc) (r : result RejectReason A) : Stage A :=
  match r with Ok a => pass a | Err reason => answer (reject_with doc reason) end.
(** A hook's refusal. *)
Definition unless_refused (p : SpineProg (option TrustTaskOutcome)) : Stage unit :=
  refused ← p;
  mret (match refused with Some o => Err o | None => Ok () end).
Definition next {A B} (p : Stage A) (f : A → Stage B) : Stage B :=
  r ← p; match r with Ok a => f a | Err o => mret (Err o) end.
#[local] Notation "x <-? p ; q" := (next p (λ x, q)) (at level 20, p at level 100, q at level 200).

Definition settle (charge : option SizeCharge) (verified : option string) : SpineProg unit :=
  match charge with Some c => call (Settle c verified) | None => mret () end.

(** A document that may be looked at further. *)
Record Screened := mk_screened {
  sc_charge : option SizeCharge;
  sc_doc : TaskDoc;
  sc_received : Value;
  sc_now : Z;
}.
Definition sc_type (s : Screened) : string := task_type (sc_doc s).

(** Steps 0 to 2d. *)
Definition screen (sp : Spine) (body : bytes) : Stage Screened :=
  charge <-? call (Admit body);
  doc <-? match task_from_slice body with Ok d => pass d | Err _ => answer body_parse_error_response end;
  received <-? match from_slice body with Ok v => pass v | Err _ => answer body_parse_error_response end;
  now ← call UtcNow;
  _ <-? or_reject doc (validate_freshness doc now (sp_freshness sp));
  me ← call Recipient;
  _ <-? or_reject doc (match me with Some me => validate_basic doc now me | None => Ok () end);
  _ <-? or_reject doc (match sp_policy sp (task_type doc) with Some p => enforce p doc | None => Ok () end);
  _ <-? unless_refused (call (BeforeProof doc (task_type doc)));
  pass (mk_screened charge doc received now).

(** Step 3: the proof, against the document as received, bound to [issuer]. *)
Definition prove (ctx : ArrivalCtx) (s : Screened) : Stage ArrivalCtx :=
  if task_has_proof (sc_doc s) then
    then_do (call (VerifyProof (sc_received s) (sc_type s))) (λ r,
      match r with
      | Ok signer =>
          if bool_decide (task_issuer (sc_doc s) ≠ Some signer) then
            _ ← settle (sc_charge s) (Some signer);
            answer (reject_with (sc_doc s) proof_invalid)
          else
            _ ← settle (sc_charge s) (Some signer);
            _ <-? unless_refused (call (AfterProof (sc_doc s) (sc_type s) signer));
            pass (with_verified_signer (Some signer) ctx)
      | Err e =>
          _ ← settle (sc_charge s) None;
          answer (app_error_to_reject (sc_doc s) e)
      end)
  else
    _ ← settle (sc_charge s) None;
    pass ctx.

(** Step 3a: over messaging the proven signer is the sender. *)
Definition bind_sender (ctx : ArrivalCtx) (doc : TaskDoc) : Stage unit :=
  if reports_sender (ar_transport ctx) then
    match ar_verified_signer ctx, ar_sender_did ctx with
    | None, _ => answer (reject_with doc proof_required)
    | Some signer, Some sender =>
        if bool_decide (identity signer = identity sender) then pass ()
        else answer (reject_with doc (identity_mismatch signer sender))
    | Some signer, None => answer (reject_with doc (identity_mismatch signer ""))
    end
  else pass ().

(** Step 3a'. *)
Definition admission (sp : Spine) (ctx : ArrivalCtx) : Stage unit :=
  match ar_verified_signer ctx with
  | Some signer =>
      if sp_admission sp then
        admitted ← call (AdmitVerified signer);
        mret (if admitted : bool then Ok () else Err (outcome_empty 429))
      else pass ()
  | None => pass ()
  end.

(** Step 3b: the claim, or the answer to a duplicate. *)
Definition take_claim (sp : Spine) (s : Screened) : Stage Claim :=
  r ← ids_claim (sp_accepted_ids sp) (sc_doc s) (retain_until (sp_freshness sp) (sc_doc s) (sc_now s)) (sc_now s);
  match r with
  | Ok (Fresh claim) => pass claim
  | Ok (Duplicate (Some v) _) =>
      match value_to_vec v with
      | Ok body => mret (Err (mk_outcome 200 body))
      | Err _ => answer (reject_with (sc_doc s) internal_error)
      end
  | Ok (Duplicate None in_flight) => mret (Err (outcome_empty (if in_flight then 202 else 204)))
  | Ok Conflict => answer (reject_with (sc_doc s) id_conflict)
  | Err e => answer (reject_with (sc_doc s) (ids_error_reason e))
  end.

(** Step 4: dispatch, sign, and settle the claim. *)
Definition execute (sp : Spine) (s : Screened) (ctx : ArrivalCtx) (claim : Claim) : SpineProg TrustTaskOutcome :=
  outcome ← call (Dispatch (sc_doc s) (sc_type s) ctx (sc_received s));
  outcome ← sign_response (sp_signer sp) outcome;
  _ ← (if is_success outcome then
         ids_completed (sp_accepted_ids sp) claim
           (if sp_records_response sp (sc_type s)
            then match from_slice (oc_body outcome) with Ok v => Some v | Err _ => None end
            else None)
       else ids_release (sp_accepted_ids sp) claim);
  mret outcome.

(** Steps 0 to 3b: everything before the handler. *)
Definition prepare (sp : Spine) (ctx : ArrivalCtx) (body : bytes) : Stage (Screened * ArrivalCtx * Claim) :=
  s <-? screen sp body;
  ctx <-? prove ctx s;
  _ <-? bind_sender ctx (sc_doc s);
  _ <-? admission sp ctx;
  claim <-? take_claim sp s;
  pass (s, ctx, claim).

Definition receive_unsigned (sp : Spine) (ctx : ArrivalCtx) (body : bytes) : SpineProg TrustTaskOutcome :=
  r ← prepare sp ctx body;
  match r with
  | Ok (s, ctx, claim) => execute sp s ctx claim
  | Err outcome => mret outcome
  end.

Definition receive (sp : Spine) (ctx : ArrivalCtx) (body : bytes) : SpineProg TrustTaskOutcome :=
  outcome ← receive_unsigned sp ctx body;
  sign_response (sp_signer sp) outcome.

(** What a process runs: a document received, or the timer's sweep. *)
Inductive SpineRequest := Arrive (ctx : ArrivalCtx) (body : bytes) | SweepNow.
Definition run_spine (sp : Spine) (rq : SpineRequest) : SpineProg (option TrustTaskOutcome) :=
  match rq with
  | Arrive ctx body => o ← receive sp ctx body; mret (Some o)
  | SweepNow => _ ← sweep_accepted_ids; mret None
  end.
End Spine.

(** ** The calls, done *)

(** What the parts a service injects answer, left to themselves. *)
Class SpineHost `{TaskFramework} := {
  host_admit : bytes → result TrustTaskOutcome (option SizeCharge);
  host_recipient : option string;
  host_before_proof : TaskDoc → string → option TrustTaskOutcome;
  host_verify : Value → string → result AppError string;
  host_after_proof : TaskDoc → string → string → option TrustTaskOutcome;
  host_admits : string → bool;
  host_dispatch : TaskDoc → string → ArrivalCtx → Value → TrustTaskOutcome;
  host_sign : Value → result AppError Value;
  host_routed_error : TaskDoc → RejectReason → bytes;
  host_unrouted_error : RejectReason → bytes;
}.

(** An instant every clock reading of a run is before. *)
Class Horizon := horizon : Z.

Record SpineWorld := mk_spine_world {
  sw_rows : Rows;
  sw_locks : gset Z;
  sw_memory : Records;
  sw_now : Z;
}.
Definition with_rows (m : Rows) (w : SpineWorld) : SpineWorld := mk_spine_world m (sw_locks w) (sw_memory w) (sw_now w).
Definition with_locks (l : gset Z) (w : SpineWorld) : SpineWorld := mk_spine_world (sw_rows w) l (sw_memory w) (sw_now w).
Definition with_memory (m : Records) (w : SpineWorld) : SpineWorld :=
  mk_spine_world (sw_rows w) (sw_locks w) m (sw_now w).

Section Semantics.
Context `{TaskFramework, !SpineHost, Horizon}.

Definition spine_ready (c : SpineCall) (w : SpineWorld) : bool :=
  match c with Lock stripe => bool_decide (stripe ∉ sw_locks w) | _ => true end.

Definition spine_exec (c : SpineCall) (w : SpineWorld) : result AppError (Reply c) * SpineWorld :=
  match c with
  | Lock s => (Ok (), with_locks ({[s]} ∪ sw_locks w) w)
  | Unlock s => (Ok (), with_locks (sw_locks w ∖ {[s]}) w)
  | Get k => (Ok (sw_rows w !! k), w)
  | Insert k b => (Ok (), with_rows (<[k := b]> (sw_rows w)) w)
  | InsertIfAbsent k b => let '(r, m) := insert_if_absent k b (sw_rows w) in (Ok r, with_rows m w)
  | Remove k => (Ok (), with_rows (delete k (sw_rows w)) w)
  | PrefixIter p => (Ok (filter (λ kv, starts_with p kv.1 = true) (sorted_members (sw_rows w))), w)
  | MemClaim id d r now => let '(a, m) := mem_claim id d r now (sw_memory w) in (Ok a, with_memory m w)
  | MemCompleted c response => (Ok (), with_memory (mem_completed c response (sw_memory w)) w)
  | MemRelease c => (Ok (), with_memory (mem_release c (sw_memory w)) w)
  | UtcNow => (Ok (sw_now w), w)
  | Admit body => (Ok (host_admit body), w)
  | Settle _ _ => (Ok (), w)
  | Recipient => (Ok host_recipient, w)
  | BeforeProof d t => (Ok (host_before_proof d t), w)
  | VerifyProof v t => (host_verify v t, w)
  | AfterProof d t s => (Ok (host_after_proof d t s), w)
  | AdmitVerified s => (Ok (host_admits s), w)
  | Dispatch d t ctx v => (Ok (host_dispatch d t ctx v), w)
  | SignDocument v => (host_sign v, w)
  | RoutedError d r => (Ok (host_routed_error d r), w)
  | UnroutedError r => (Ok (host_unrouted_error r), w)
  end.

(** The store's operations, which may fail and may be given up on. *)
Definition of_store (c : SpineCall) : bool :=
  match c with Get _ | Insert _ _ | InsertIfAbsent _ _ | Remove _ | PrefixIter _ => true | _ => false end.
(** Those of this process alone: they do not fail. *)
Definition of_process (c : SpineCall) : bool :=
  match c with
  | Lock _ | Unlock _ | MemClaim _ _ _ _ | MemCompleted _ _ | MemRelease _ | UtcNow => true
  | _ => false
  end.
(** The parts that answer what they like; only the proof's verification and
    the signing may fail. *)
Definition may_fail (c : SpineCall) : bool :=
  match c with VerifyProof _ _ | SignDocument _ => true | _ => of_store c end.

Definition spine_glitch (c : SpineCall) (w : SpineWorld) (r : result AppError (Reply c)) (w' : SpineWorld) : Prop :=
  w' = w ∧
  match r with
  | Err _ => may_fail c = true
  | Ok _ => of_store c = false ∧ of_process c = false
  end.

(** The keyspace is this record's own, and only the clock moves by itself. A
    new process has no locks and an empty record of its own. *)
#[export] Instance spine_calls : CallSemantics SpineCall := {|
  World := SpineWorld;
  ready := spine_ready;
  exec := spine_exec;
  glitch := spine_glitch;
  outlives c := of_store c = true;
  elsewhere w w' :=
    sw_rows w' = sw_rows w ∧ sw_locks w' = sw_locks w ∧ sw_memory w' = sw_memory w ∧ sw_now w' < horizon;
  restarted w := mk_spine_world (sw_rows w) ∅ ∅ (sw_now w);
|}.
End Semantics.
