(* ===== verification/SpineSafety.v ===== *)
(** * What the pipeline lets through

    Whatever its calls answer: a document reaches its handler only once it has
    passed every step, and an answer leaves signed unless nothing can sign it.
    And of every run of a process, with any interleaving of documents and
    sweeps, failures of the store, late writes and restarts: while an id is
    retained, at most one request executes under it. *)

From S2P Require Import Prelude Json Host DidScid Programs Keyspace Spine.

(** ** Stages *)

Section Stages.
Context `{TaskFramework}.
Context (C : list (Event SpineCall) → SpineCall → Prop).

Definition passes {A} (P : list (Event SpineCall) → A → Prop) (h : list (Event SpineCall)) (r : result TrustTaskOutcome A)
  : Prop := match r with Ok a => P h a | Err _ => True end.
(** What a stage passes on is [P]. *)
Definition stage_ok {A} (P : list (Event SpineCall) → A → Prop) (h : list (Event SpineCall))
  (p : SpineProg (result TrustTaskOutcome A)) : Prop := always C (ok_then (passes P)) h p.

Lemma next_ok {A B} (P : list (Event SpineCall) → A → Prop) (Q : list (Event SpineCall) → B → Prop) p
    (f : A → SpineProg (result TrustTaskOutcome B)) h :
  stage_ok P h p → (∀ a h', h `prefix_of` h' → P h' a → stage_ok Q h' (f a)) → stage_ok Q h (next p f).
Proof.
  intros Hp Hf. eapply always_seq; [done|exact Hp|]. intros [a|o] h' Hpre Ha; [by apply Hf|done].
Qed.
Lemma pass_ok {A} (P : list (Event SpineCall) → A → Prop) h a : P h a → stage_ok P h (pass a).
Proof. done. Qed.

(** Calls that are neither the handler's nor the accepted ids'. *)
Definition plain (c : SpineCall) : bool :=
  match c with
  | Dispatch _ _ _ _ | Lock _ | Unlock _ | Get _ | Insert _ _ | InsertIfAbsent _ _ | Remove _ | PrefixIter _
  | MemClaim _ _ _ _ | MemCompleted _ _ | MemRelease _ => false
  | _ => true
  end.
Context (Hplain : ∀ h c, plain c = true → C h c).

Lemma call_ok c h : plain c = true → always C (ok_then (λ h' a, h' = h ++ [mk_event c (Ok a)])) h (call c).
Proof. intros Hc. split; [by apply Hplain|]. by intros [a|e]. Qed.
Lemma answer_ok {A} (P : list (Event SpineCall) → A → Prop) h p :
  always C (ok_then (λ _ _, True)) h p → stage_ok P h (answer p).
Proof. intros Hp. eapply always_seq; [done|exact Hp|done]. Qed.

Section Parts.
Context `{ValueSerde, RecordSerde, Jcs, Serde}.

Lemma reject_quiet doc reason h : always C (ok_then (λ _ _, True)) h (reject_with doc reason).
Proof. eapply always_seq; [done|by apply call_ok|done]. Qed.
Lemma unrouted_quiet reason h : always C (ok_then (λ _ _, True)) h (unrouted_error_response reason).
Proof. eapply always_seq; [done|by apply call_ok|done]. Qed.
Lemma settle_quiet charge v h : always C (ok_then (λ _ _, True)) h (settle charge v).
Proof. destruct charge; [eapply always_impl; [|by apply call_ok]; by intros ? []|done]. Qed.
Lemma sign_quiet signer o h :
  always C (ok_then (λ _ o', oc_status o' = oc_status o)) h (sign_response signer o).
Proof.
  unfold sign_response. destruct (_ || _); [done|]. destruct (from_slice _) as [doc|]; [|done].
  case_bool_decide; [done|]. apply always_then. split; [by apply Hplain|].
  intros [v|]; [|done]. simpl. by destruct (value_to_vec v).
Qed.

Lemma or_reject_ok {A} doc (r : result RejectReason A) (P : list (Event SpineCall) → A → Prop) h :
  (∀ a, r = Ok a → P h a) → stage_ok P h (or_reject doc r).
Proof. destruct r; intros HP; [by apply HP|apply answer_ok, reject_quiet]. Qed.
Lemma unless_refused_ok (R : list (Event SpineCall) → option TrustTaskOutcome → Prop) h p :
  always C (ok_then R) h p → stage_ok (λ h' _, R h' None) h (unless_refused p).
Proof. intros Hp. eapply always_seq; [done|exact Hp|]. by intros [o|] h' _ HR. Qed.
End Parts.

(** ** What a document has passed *)

Section Prepare.
Context `{ValueSerde, RecordSerde, Jcs, Serde}.
Context (sp : Spine) (ctx : ArrivalCtx) (body : bytes).
Abbreviation History := (list (Event SpineCall)).

(** Steps 0 to 2d. *)
Record screened (h : History) (s : Screened) : Prop := {
  ss_admitted : mk_event (Admit body) (Ok (Ok (sc_charge s))) ∈ h;
  ss_parsed : task_from_slice body = Ok (sc_doc s);
  ss_received : from_slice body = Ok (sc_received s);
  ss_now : mk_event UtcNow (Ok (sc_now s)) ∈ h;
  ss_fresh : validate_freshness (sc_doc s) (sc_now s) (sp_freshness sp) = Ok ();
  ss_recipient : ∃ me, mk_event Recipient (Ok me) ∈ h ∧
    ∀ did, me = Some did → validate_basic (sc_doc s) (sc_now s) did = Ok ();
  ss_policy : ∀ p, sp_policy sp (sc_type s) = Some p → enforce p (sc_doc s) = Ok ();
  ss_before : mk_event (BeforeProof (sc_doc s) (sc_type s)) (Ok None) ∈ h;
}.

(** Step 3: a proof verifies as the issuer's; without one nobody is proven. *)
Definition proven (h : History) (s : Screened) (ctx' : ArrivalCtx) : Prop :=
  if task_has_proof (sc_doc s) then
    ∃ signer, ctx' = with_verified_signer (Some signer) ctx ∧ task_issuer (sc_doc s) = Some signer
      ∧ mk_event (VerifyProof (sc_received s) (sc_type s)) (Ok signer) ∈ h
      ∧ mk_event (AfterProof (sc_doc s) (sc_type s) signer) (Ok None) ∈ h
  else ctx' = ctx.

(** Step 3a: over messaging, the proven signer is the sender. *)
Definition sender_bound (ctx' : ArrivalCtx) : Prop :=
  reports_sender (ar_transport ctx') = true →
  ∃ signer sender, ar_verified_signer ctx' = Some signer ∧ ar_sender_did ctx' = Some sender
    ∧ identity signer = identity sender.

Definition admitted (h : History) (ctx' : ArrivalCtx) : Prop :=
  ∀ signer, sp_admission sp = true → ar_verified_signer ctx' = Some signer →
    mk_event (AdmitVerified signer) (Ok true) ∈ h.

Record cleared (h : History) (s : Screened) (ctx' : ArrivalCtx) : Prop := {
  cr_screened : screened h s;
  cr_proven : proven h s ctx';
  cr_sender : sender_bound ctx';
  cr_admitted : admitted h ctx';
}.

Lemma event_later (h h' : History) ev : h `prefix_of` h' → ev ∈ h → ev ∈ h'.
Proof. intros [h1 ->] Hin. apply elem_of_app. by left. Qed.
Lemma event_last (h : History) ev : ev ∈ h ++ [ev].
Proof. apply elem_of_app. right. by left. Qed.
Hint Resolve event_last event_later prefix_app_r : core.

(** An event of an earlier history is one of a later. *)
Ltac later := first
  [ done | apply event_last
  | match goal with P : ?h `prefix_of` ?h' |- _ ∈ ?h' => apply (event_later h h' _ P); later end
  | apply elem_of_app; left; later ].

Lemma screened_later h h' s : h `prefix_of` h' → screened h s → screened h' s.
Proof.
  intros Hp [? ? ? ? ? (me & Hme & ?) ? ?]. split; eauto.
Qed.
Lemma proven_later h h' s ctx' : h `prefix_of` h' → proven h s ctx' → proven h' s ctx'.
Proof.
  intros Hp. unfold proven. destruct (task_has_proof _); [|done].
  intros (signer & ? & ? & ? & ?). exists signer. split_and!; eauto.
Qed.
Lemma admitted_later h h' ctx' : h `prefix_of` h' → admitted h ctx' → admitted h' ctx'.
Proof. intros Hp Ha signer ? ?. eauto. Qed.
Lemma cleared_later h h' s ctx' : h `prefix_of` h' → cleared h s ctx' → cleared h' s ctx'.
Proof.
  intros Hp [? ? ? ?]. split; [by eapply screened_later|by eapply proven_later|done|by eapply admitted_later].
Qed.

Lemma screen_keeps h : stage_ok screened h (screen sp body).
Proof.
  unfold screen.
  eapply (next_ok (λ h' charge, mk_event (Admit body) (Ok (Ok charge)) ∈ h')).
  { split; [by apply Hplain|]. intros [[charge|o]|e]; [|done|done]. simpl. eauto. }
  intros charge h1 _ Hadm. eapply (next_ok (λ _ doc, task_from_slice body = Ok doc)).
  { destruct (task_from_slice body); [by apply pass_ok|apply answer_ok, unrouted_quiet]. }
  intros doc h2 P2 Hdoc. eapply (next_ok (λ _ v, from_slice body = Ok v)).
  { destruct (from_slice body); [by apply pass_ok|apply answer_ok, unrouted_quiet]. }
  intros received h3 P3 Hrec. eapply always_seq; [done|by apply call_ok|]. intros now h4 P4 ->.
  eapply (next_ok (λ _ _, validate_freshness doc now (sp_freshness sp) = Ok ())).
  { apply or_reject_ok. by intros []. }
  intros _ h5 P5 Hfresh. eapply always_seq; [done|by apply call_ok|]. intros me h6 P6 ->.
  eapply (next_ok (λ _ _, ∀ did, me = Some did → validate_basic doc now did = Ok ())).
  { apply or_reject_ok. destruct me; [|done]. by intros [] Ha did [= <-]. }
  intros _ h7 P7 Hbasic.
  eapply (next_ok (λ _ _, ∀ p, sp_policy sp (task_type doc) = Some p → enforce p doc = Ok ())).
  { apply or_reject_ok. destruct (sp_policy sp _); [|done]. by intros [] Ha p [= <-]. }
  intros _ h8 P8 Hpol. eapply next_ok; [by eapply unless_refused_ok, call_ok|]. intros _ h9 P9 ->.
  apply pass_ok. split; simpl; [later|done|done|later|done|exists me; split; [later|done]|done|later].
Qed.

Lemma prove_keeps s h : screened h s → stage_ok (λ h' ctx', screened h' s ∧ proven h' s ctx') h (prove ctx s).
Proof.
  intros Hs. unfold prove, proven. destruct (task_has_proof _).
  - apply always_then. split; [by apply Hplain|]. intros [signer|e]; cbn [always].
    + case_bool_decide as Hiss.
      { eapply always_seq; [done|apply settle_quiet|]. intros _ h1 _ _. apply answer_ok, reject_quiet. }
      eapply always_seq; [done|apply settle_quiet|]. intros _ h1 P1 _.
      eapply next_ok; [by eapply unless_refused_ok, call_ok|]. intros _ h2 P2 ->. apply pass_ok.
      assert (h `prefix_of` h1) as P0 by (etrans; [by apply prefix_app_r|exact P1]).
      split; [eapply screened_later; [|exact Hs]; by apply prefix_app_r|].
      exists signer. split_and!; [done|done|later|later].
    + eapply always_seq; [done|apply settle_quiet|]. intros _ h1 _ _. apply answer_ok, reject_quiet.
  - eapply always_seq; [done|apply settle_quiet|]. intros _ h1 P1 _. apply pass_ok. split; [by eapply screened_later|done].
Qed.

Lemma bind_sender_ok ctx' doc h : stage_ok (λ _ _, sender_bound ctx') h (bind_sender ctx' doc).
Proof.
  unfold bind_sender, sender_bound. destruct (reports_sender _); [|by apply pass_ok].
  destruct (ar_verified_signer ctx') as [signer|]; [|apply answer_ok, reject_quiet].
  destruct (ar_sender_did ctx') as [sender|]; [|apply answer_ok, reject_quiet].
  case_bool_decide; [|apply answer_ok, reject_quiet]. apply pass_ok. intros _. by exists signer, sender.
Qed.

Lemma admission_ok ctx' h : stage_ok (λ h' _, admitted h' ctx') h (admission sp ctx').
Proof.
  unfold admission, admitted. destruct (ar_verified_signer ctx') as [signer|]; [|by apply pass_ok].
  destruct (sp_admission sp); [|by apply pass_ok]. eapply always_seq; [done|by apply call_ok|].
  intros [] h' _ ->; [|done]. intros s _ [= <-]. later.
Qed.

(** Step 3b, by what the record of accepted ids says of a fresh claim. *)
Context (fresh : History → Screened → Claim → Prop).
Context (Hclaim : ∀ h s, screened h s →
  always C (ok_then (λ h' a, ∀ c, a = Ok (Fresh c) → fresh h' s c)) h
    (ids_claim (sp_accepted_ids sp) (sc_doc s) (retain_until (sp_freshness sp) (sc_doc s) (sc_now s)) (sc_now s))).

Lemma take_claim_ok s h : screened h s → stage_ok (λ h' c, fresh h' s c) h (take_claim sp s).
Proof.
  intros Hs. eapply always_seq; [done|by apply Hclaim|].
  intros [[c|prior in_flight|]|e] h' _ Hf; [by apply pass_ok, Hf| |apply answer_ok, reject_quiet..].
  destruct prior as [v|]; [|done]. destruct (value_to_vec v); [done|]. apply answer_ok, reject_quiet.
Qed.

Lemma prepare_ok :
  stage_ok (λ h '(s, ctx', c), cleared h s ctx' ∧ fresh h s c) [] (prepare sp ctx body).
Proof.
  unfold prepare. eapply next_ok; [apply screen_keeps|]. intros s h1 _ Hs.
  eapply next_ok; [by apply prove_keeps|]. intros ctx' h2 _ [Hs2 Hp].
  eapply next_ok; [apply bind_sender_ok|]. intros u1 h3 P3 Hb.
  eapply next_ok; [apply admission_ok|]. intros u2 h4 P4 Ha.
  assert (h2 `prefix_of` h4) as P24 by (by etrans).
  pose proof (screened_later _ _ _ P24 Hs2) as Hs4.
  eapply next_ok; [by apply take_claim_ok|]. intros c h5 P5 Hf. apply pass_ok. split; [|done].
  apply (cleared_later h4); [done|]. split; [done|by eapply proven_later|done|done].
Qed.
End Prepare.
End Stages.

(** ** The record of accepted ids, as an interface *)

(** The calls of a record of accepted ids. *)
Definition of_ids `{TaskFramework} (c : SpineCall) : bool :=
  match c with
  | Lock _ | Unlock _ | Get _ | Insert _ _ | InsertIfAbsent _ _ | Remove _ | PrefixIter _
  | MemClaim _ _ _ _ | MemCompleted _ _ | MemRelease _ => true
  | _ => false
  end.

(** What a record promises the pipeline: it makes no calls but its own, and a
    claim it says is fresh, it took: [took] is the event that shows it. *)
Class AcceptedIdLaws `{TaskFramework} (ids : AcceptedIdStore) := {
  took : Claim → Z → Event SpineCall → Prop;
  claim_takes doc retain now h :
    always (λ _ c, of_ids c = true)
      (ok_then (λ h' a, ∀ c, a = Ok (Fresh c) → document_digest doc = Ok (cl_digest c) ∧ cl_id c = task_id doc
         ∧ ∃ ev, ev ∈ h' ∧ took c (retention retain now) ev)) h (ids_claim ids doc retain now);
  completed_quiet c response h : always (λ _ c, of_ids c = true) (ok_then (λ _ _, True)) h (ids_completed ids c response);
  release_quiet c h : always (λ _ c, of_ids c = true) (ok_then (λ _ _, True)) h (ids_release ids c);
}.

Section Records.
Context `{TaskFramework, RecordSerde}.
Abbreviation Q A := (ok_then (λ (_ : list (Event SpineCall)) (_ : A), True)).

(** The lock is taken and given back; between, the program's own. *)
Lemma with_stripe_always {A} C (R : list (Event SpineCall) → result AppError A → Prop) id (p : SpineProg A) h :
  (∀ h s, C h (Lock s) ∧ C h (Unlock s)) →
  (∀ h e, R h (Err e)) →
  (∀ h r u, R h r → R (h ++ [mk_event (Unlock (stripe_for id)) u]) r) →
  always C R (h ++ [mk_event (Lock (stripe_for id)) (Ok ())]) p → always C R h (with_stripe id p).
Proof.
  intros HC He Hr Hp. split; [apply HC|]. intros [[]|e]; [|apply He]. simpl. apply always_then.
  eapply always_impl; [|exact Hp]. intros h' r HR. split; [apply HC|]. intros [u|e]; [|apply He].
  simpl. destruct r; by apply Hr.
Qed.
(** A row read. *)
Definition got (k : string) (b : bytes) (h : list (Event SpineCall)) : Prop := mk_event (Get k) (Ok (Some b)) ∈ h.

Section Store.
Context (C : list (Event SpineCall) → SpineCall → Prop).
Context (Clock : ∀ h s, C h (Lock s) ∧ C h (Unlock s)) (Cget : ∀ h k, C h (Get k)).

Lemma get_record_always id h :
  always C (ok_then (λ h' o, (∃ v, h' = h ++ [mk_event (Get (record_key id)) v]) ∧ ∀ r, o = Some r →
    ∃ b, got (record_key id) b h' ∧ record_from_slice b = Ok r)) h (get_record id).
Proof.
  split; [apply Cget|]. intros [[b|]|e]; [|by split; [eexists|]|done]. simpl.
  destruct (record_from_slice b) as [r|] eqn:Hb; [|done]. split; [by eexists|].
  intros r' [= <-]. exists b. split; [|done]. apply elem_of_app. right. by left.
Qed.

(** A claim: an expired row may be removed, and a fresh claim put its row
    where there was none. *)
Lemma claim_inner_always (P : list (Event SpineCall) → Prop) id digest ret now h :
  (∀ h1 b r, h `prefix_of` h1 → got (record_key id) b h1 → record_from_slice b = Ok r →
    is_expired_at r now = true → C h1 (Remove (record_key id))) →
  (∀ h1 b, h `prefix_of` h1 → record_to_vec (mk_record digest ret None false) = Ok b →
    C h1 (InsertIfAbsent (record_key id) b)
    ∧ P (h1 ++ [mk_event (InsertIfAbsent (record_key id) b) (Ok true)])) →
  (∀ h1 s u, P h1 → P (h1 ++ [mk_event (Unlock s) u])) →
  always C (ok_then (λ h' a, ∀ c, a = Fresh c → c = mk_claim id digest ∧ P h')) h (claim_inner id digest ret now).
Proof.
  intros Hrm Hput Hun. apply with_stripe_always; [apply Clock|done| |].
  { intros h1 [a|] u Hr; [|done]. intros c Ha. split; [by apply Hr|]. by apply Hun, (Hr c). }
  set (h0 := h ++ [mk_event (Lock (stripe_for id)) (Ok ())]).
  assert (h `prefix_of` h0) as P0 by by apply prefix_app_r.
  assert (∀ h1, h `prefix_of` h1 →
    always C (ok_then (λ h' a, ∀ c, a = Fresh c → c = mk_claim id digest ∧ P h')) h1 (place id digest ret)) as Hplace.
  { intros h1 P1. unfold place. destruct (record_to_vec _) as [b|] eqn:Hb in |- *; [|done].
    destruct (Hput h1 b P1 Hb) as [Hc HP]. split; [done|]. intros [[]|]; [|done|done].
    simpl. by intros c [= <-]. }
  eapply always_seq; [done|apply get_record_always|]. intros o h1 P01 [_ Hr].
  assert (h `prefix_of` h1) as P1 by (by etrans). destruct o as [r|]; [|by apply Hplace].
  destruct (is_expired_at r now) eqn:Hx; simpl.
  - destruct (Hr r eq_refl) as (b & Hgot & Hb). split; [by apply (Hrm h1 b r)|].
    intros [[]|]; [|done]. apply Hplace. etrans; [exact P1|by apply prefix_app_r].
  - intros c. unfold acceptance_of. by case_bool_decide.
Qed.

Lemma complete_always c response h :
  (∀ h1 b0 r b, h `prefix_of` h1 → got (record_key (cl_id c)) b0 h1 → record_from_slice b0 = Ok r →
    record_to_vec (mk_record (rc_digest r) (rc_retain_until r) response true) = Ok b →
    C h1 (Insert (record_key (cl_id c)) b)) →
  always C (ok_then (λ _ _, True)) h (settled (complete c response)).
Proof.
  intros Hput. apply always_then. eapply always_impl; [by intros h' []|].
  apply (with_stripe_always C (λ _ _, True)); [apply Clock|done..|].
  eapply always_impl; [by intros h' []|]. eapply (always_seq _ _ (λ _ _, True)); [done|apply get_record_always|].
  intros [r|] h1 P1 [_ Hr]; [|done]. case_bool_decide; [done|].
  destruct (record_to_vec _) as [b|] eqn:Hb in |- *; [|done]. destruct (Hr r eq_refl) as (b0 & Hgot & Hb0).
  split; [|by intros []]. apply (Hput h1 b0 r b); try done. etrans; [|exact P1]. by apply prefix_app_r.
Qed.

(** A release removes nothing but its own claim's row. *)
Lemma release_always (G : list (Event SpineCall) → Prop) c h :
  (∀ h1 c r, G h1 → (∃ s, c = Lock s) ∨ (∃ k, c = Get k) → G (h1 ++ [mk_event c r])) →
  (∀ h1, G h1 → C h1 (Remove (record_key (cl_id c)))) →
  G h → always C (ok_then (λ _ _, True)) h (settled (release c)).
Proof.
  intros Hkeep Hrm Hg. apply always_then. eapply always_impl; [by intros h' []|].
  apply (with_stripe_always C (λ _ _, True)); [apply Clock|done..|].
  eapply always_impl; [by intros h' []|]. eapply (always_seq _ _ (λ _ _, True)); [done|apply get_record_always|].
  intros [r|] h1 _ [[v ->] Hr]; [|done]. destruct (_ && _); [|done]. split; [|by intros []].
  apply Hrm, Hkeep; [|by right; eexists]. apply Hkeep; [done|by left; eexists].
Qed.
End Store.

(** Both records keep the promise. *)
#[export] Program Instance store_laws : AcceptedIdLaws store_ids := {
  took c ret ev := ∃ b, record_to_vec (mk_record (cl_digest c) ret None false) = Ok b
    ∧ ev = mk_event (InsertIfAbsent (record_key (cl_id c)) b) (Ok true);
}.
Next Obligation.
  intros doc retain now h. simpl. unfold store_claim. destruct (document_digest doc) as [digest|]; [|done].
  apply always_then. eapply always_impl; [|apply (claim_inner_always _ (λ _ _, conj eq_refl eq_refl) (λ _ _, eq_refl)
    (λ h', ∃ ev b, ev ∈ h' ∧ record_to_vec (mk_record digest (retention retain now) None false) = Ok b
      ∧ ev = mk_event (InsertIfAbsent (record_key (task_id doc)) b) (Ok true)))].
  - intros h' [a|]; [|done]. simpl. intros Ha c [= ->]. destruct (Ha c eq_refl) as [-> (ev & b & ? & ? & ?)].
    split; [done|]. split; [done|]. exists ev. split; [done|]. by exists b.
  - done.
  - intros h1 b _ Hb. split; [done|]. eexists _, b. split; [|done]. apply elem_of_app. right. by left.
  - intros h1 s u (ev & b & Hin & ? & ?). exists ev, b. split; [|done]. apply elem_of_app. by left.
Qed.
Next Obligation. intros. by apply complete_always. Qed.
Next Obligation. intros. by apply (release_always _ (λ _ _, conj eq_refl eq_refl) (λ _ _, eq_refl) (λ _, True)). Qed.

#[export] Program Instance memory_laws : AcceptedIdLaws memory_ids := {
  took c ret ev := ∃ now, ev = mk_event (MemClaim (cl_id c) (cl_digest c) ret now) (Ok None);
}.
Next Obligation.
  intros doc retain now h. simpl. destruct (document_digest doc) as [digest|]; [|done].
  split; [done|]. intros [[r|]|e]; [| |done].
  - simpl. intros c [=Hc]. unfold acceptance_of in Hc. by case_bool_decide.
  - simpl. intros c [= <-]. split; [done|]. split; [done|]. eexists. split; [|by exists now].
    apply elem_of_app. right. by left.
Qed.
Next Obligation. intros. split; [done|]. by intros []. Qed.
Next Obligation. intros. split; [done|]. by intros []. Qed.
End Records.

(** ** What a document has passed when it reaches its handler *)

Section Cleared.
Context `{TaskFramework, ValueSerde, RecordSerde, Jcs, Serde}.
Context (sp : Spine) `{!AcceptedIdLaws (sp_accepted_ids sp)}.
Abbreviation History := (list (Event SpineCall)).

Definition undispatched (h : History) : Prop :=
  Forall (λ ev, match ev_call ev with Dispatch _ _ _ _ => False | _ => True end) h.
Definition not_dispatch (c : SpineCall) : Prop := match c with Dispatch _ _ _ _ => False | _ => True end.

(** The document, type, context and received JSON handed to the handler. *)
Record dispatchable (ctx : ArrivalCtx) (body : bytes) (h : History) (doc : TaskDoc) (type_uri : string)
  (ctx' : ArrivalCtx) (received : Value) : Prop := {
  di_cleared : ∃ s, cleared sp ctx body h s ctx' ∧ sc_doc s = doc ∧ sc_received s = received ∧ sc_type s = type_uri
    ∧ ∃ c ev, cl_id c = task_id doc ∧ document_digest doc = Ok (cl_digest c) ∧ ev ∈ h
        ∧ took c (retention (retain_until (sp_freshness sp) doc (sc_now s)) (sc_now s)) ev;
  di_once : undispatched h;
}.

Lemma of_ids_not_dispatch c : of_ids c = true → not_dispatch c.
Proof. by destruct c. Qed.

(** The claim of a screened document. *)
Definition taken_claim (h : History) (s : Screened) (c : Claim) : Prop :=
  cl_id c = task_id (sc_doc s) ∧ document_digest (sc_doc s) = Ok (cl_digest c)
  ∧ ∃ ev, ev ∈ h ∧ took c (retention (retain_until (sp_freshness sp) (sc_doc s) (sc_now s)) (sc_now s)) ev.

Lemma prepare_quiet ctx body :
  always (λ _ c, not_dispatch c)
    (λ h r, ok_then (passes (λ h '(s, ctx', c), cleared sp ctx body h s ctx' ∧ taken_claim h s c)) h r ∧ undispatched h)
    [] (prepare sp ctx body).
Proof.
  apply always_track; [|by constructor|].
  - intros h c r Hu Hc. apply Forall_app. split; [done|]. apply Forall_cons. split; [by destruct c|done].
  - apply prepare_ok.
    + by intros h [].
    + intros h s _. eapply (always_allows (λ _ c, of_ids c = true)); [|eapply always_impl; [|apply claim_takes]].
      * intros h1 c. apply of_ids_not_dispatch.
      * intros h1 [a|]; [|done]. intros Ha c Hc. destruct (Ha c Hc) as (? & ? & ?). done.
Qed.

Lemma execute_quiet s ctx claim h C :
  (∀ h c, not_dispatch c → C h c) → C h (Dispatch (sc_doc s) (sc_type s) ctx (sc_received s)) →
  always C (ok_then (λ _ _, True)) h (execute sp s ctx claim).
Proof.
  intros HC Hd. unfold execute. refine (always_call_ok _ _ _ _ _ _ _ _); [done|done|]. intros o.
  eapply always_seq; [done|apply sign_quiet; intros h1 c Hc; apply HC; by destruct c|]. intros o' h1 _ _.
  eapply (always_seq _ (λ _ _, True)); [done| |done].
  destruct (is_success o'); (eapply (always_allows (λ _ c, of_ids c = true)); [intros h2 c Hc; by apply HC, of_ids_not_dispatch|]);
    [apply completed_quiet|apply release_quiet].
Qed.

(** C7 (what reaches a handler): a document is handed to its handler only
    after it was admitted by size, parsed, found fresh and addressed to this
    service, and allowed by its specification and the service's own gates; with
    the signer its proof was verified to be and its issuer is, which over
    messaging is its sender and which the transport admits; after its id was
    claimed under its digest and until its retention; and only once. *)
Theorem dispatch_cleared ctx body h p doc type_uri ctx' received :
  traced (receive sp ctx body) h p → next_call p = Some (Dispatch doc type_uri ctx' received) →
  dispatchable ctx body h doc type_uri ctx' received.
Proof.
  set (C := λ h c, ∀ d t x v, c = Dispatch d t x v → dispatchable ctx body h d t x v).
  assert (∀ h c, not_dispatch c → C h c) as HC by (by intros h1 [] Hc d t x v [=]).
  assert (always C (λ _ _, True) [] (receive sp ctx body)) as Ha.
  { eapply (always_impl _ (ok_then (λ _ _, True))); [done|].
    eapply (always_seq _ (λ _ _, True)); [done| |].
    - unfold receive_unsigned. apply always_bind.
      eapply always_impl; [|eapply (always_allows (λ _ c, not_dispatch c)); [|apply prepare_quiet]]; [|intros h1 c Hc; by apply HC].
      intros h1 [[[[s cx] claim]|o]|e]; [|done|done]. intros [[Hcl (? & ? & ev & ? & ?)] Hu]. simpl.
      apply execute_quiet; [done|]. intros d t x v [= <- <- <- <-]. split; [|done].
      exists s. split_and!; try done. by exists claim, ev.
    - intros o h1 _ _. eapply always_impl; [|apply sign_quiet]; [by intros h2 []|].
      intros h2 c Hc. apply HC. by destruct c. }
  intros Ht Hn. pose proof (traced_always _ _ _ _ _ Ht Ha) as Hp.
  exact (always_next C _ _ _ _ Hp Hn _ _ _ _ eq_refl).
Qed.

(** ** What an answer is signed by *)

Definition signer_said (h : History) (v : Value) (r : result AppError Value) : Prop :=
  mk_event (SignDocument v) r ∈ h.

(** It carries a proof, or is what the signer gave; or there is nothing to
    sign, or nothing to sign it with, or signing it failed. *)
Inductive attributed (h : History) (o : TrustTaskOutcome) : Prop :=
| at_proof v : from_slice (oc_body o) = Ok v → is_Some (json_get v "proof") → attributed h o
| at_signed v (v' : Value) : signer_said h v (Ok v') → value_to_vec v' = Ok (oc_body o) → attributed h o
| at_empty : oc_body o = [] → attributed h o
| at_no_signer : sp_signer sp = false → attributed h o
| at_not_json e : from_slice (oc_body o) = Err e → attributed h o
| at_failed v (r : result AppError Value) : from_slice (oc_body o) = Ok v → signer_said h v r →
    match r with Ok v' => is_ok (value_to_vec v') = false | Err _ => True end → attributed h o.

Lemma sign_attributes o h : always (λ _ _, True) (ok_then attributed) h (sign_response (sp_signer sp) o).
Proof.
  unfold sign_response. case_bool_decide as He; [by apply at_empty|].
  destruct (sp_signer sp) eqn:Hs; [|by apply at_no_signer]. cbn [orb negb].
  destruct (from_slice (oc_body o)) as [v|e] eqn:Hv; [|by eapply at_not_json].
  case_bool_decide; [by eapply at_proof|]. apply always_then. split; [done|].
  intros [v'|e]; simpl; [|eapply at_failed; [done|apply event_last|done]].
  destruct (value_to_vec v') as [b|e] eqn:Hb; [by eapply at_signed; [apply event_last|]|].
  eapply at_failed; [done|apply event_last|]. simpl. by rewrite Hb.
Qed.

(** C32 (every answer is signed, refusals included): whatever its calls answer,
    what the pipeline answers carries a proof or is what its signer signed,
    unless it has no document or no signer, or signing it failed. *)
Theorem answers_attributed ctx body h o :
  traced (receive sp ctx body) h (Ret (Ok o)) → attributed h o.
Proof.
  intros Ht.
  assert (always (λ _ _, True) (ok_then attributed) [] (receive sp ctx body)) as Ha.
  { eapply (always_seq _ (λ _ _, True)); [done|apply always_any|]. intros o' h' _ _. apply sign_attributes. }
  exact (traced_always _ _ _ _ _ Ht Ha).
Qed.
End Cleared.

(** ** Once, while it is retained *)

Section Retained.
Context `{TaskFramework, ValueSerde, !RecordSerde, !RecordSerdeLaws, Jcs, Serde, !SpineHost, Horizon}.
Context (freshness : FreshnessPolicy) (policy : string → option SpecPolicy) (has_admission : bool).
Context (records_response : string → bool) (signer : bool).
Let sp := mk_spine freshness policy has_admission store_ids records_response signer.
Abbreviation History := (list (Event SpineCall)).

(** The id, and the documents that come under it: each is retained past the
    horizon whenever it is accepted before it. *)
Context (id : string) (bodies : list bytes).
Definition kept_until (doc : TaskDoc) (now : Z) : Z := retention (retain_until freshness doc now) now.
Context (Hkept : ∀ body doc now, body ∈ bodies → task_from_slice body = Ok doc → task_id doc = id →
  now < horizon → validate_freshness doc now freshness = Ok () → horizon ≤ kept_until doc now).

Abbreviation key := (record_key id).

Definition claims (ev : Event SpineCall) : Prop :=
  match ev with mk_event (InsertIfAbsent k _) (Ok true) => k = key | _ => False end.
Definition unclaims (c : SpineCall) : bool := match c with Remove k => bool_decide (k = key) | _ => false end.
Definition claimed (w : SpineWorld) : Prop := is_Some (sw_rows w !! key).

Definition executed (h : History) : Prop :=
  ∃ d t x v o, mk_event (Dispatch d t x v) (Ok o) ∈ h ∧ task_id d = id ∧ is_success o = true.

(** A row read, alone or by a sweep. *)
Definition seen (b : bytes) (h : History) : Prop :=
  got key b h ∨ ∃ p rows, mk_event (PrefixIter p) (Ok rows) ∈ h ∧ (key, b) ∈ rows.
Definition read_clock (now : Z) (h : History) : Prop := mk_event UtcNow (Ok now) ∈ h.

(** What a request calls under the id. *)
Definition keeps_claims (h : History) (c : SpineCall) : Prop :=
  match c with
  | Remove k => k = key →
      (holds_lease claims unclaims h ∧ ¬ executed h)
      ∨ ∃ b r now, seen b h ∧ record_from_slice b = Ok r ∧ is_expired_at r now = true ∧ read_clock now h
  | InsertIfAbsent k b => k = key →
      ∃ body doc digest now, body ∈ bodies ∧ task_from_slice body = Ok doc ∧ task_id doc = id
        ∧ validate_freshness doc now freshness = Ok () ∧ read_clock now h
        ∧ record_to_vec (mk_record digest (kept_until doc now) None false) = Ok b
  | Insert k b => k = key →
      ∃ b0 r response, got key b0 h ∧ record_from_slice b0 = Ok r
        ∧ record_to_vec (mk_record (rc_digest r) (rc_retain_until r) response true) = Ok b
  | Dispatch d _ _ _ => task_id d = id → holds_lease claims unclaims h
  | _ => True
  end.

(** The rows under the id outlast the horizon, in the store and as read. *)
Definition outlasts (b : bytes) : Prop := ∀ r, record_from_slice b = Ok r → horizon ≤ rc_retain_until r.
Definition world_outlasts (w : SpineWorld) : Prop :=
  sw_now w < horizon ∧ ∀ b, sw_rows w !! key = Some b → outlasts b.
Record history_outlasts (h : History) : Prop := {
  ho_seen : ∀ b, seen b h → outlasts b;
  ho_clock : ∀ now, read_clock now h → now < horizon;
  ho_executed : executed h → holds_lease claims unclaims h;
}.

Lemma not_expired h b r now :
  history_outlasts h → seen b h → record_from_slice b = Ok r → read_clock now h → is_expired_at r now = false.
Proof.
  intros Hh Hb Hr Hn. apply Z.leb_gt. pose proof (ho_clock _ Hh _ Hn). pose proof (ho_seen _ Hh _ Hb _ Hr). lia.
Qed.

Lemma unclaim_holds h c :
  history_outlasts h → keeps_claims h c → unclaims c = true → holds_lease claims unclaims h ∧ ¬ executed h.
Proof.
  intros Hh Hc Hu. destruct c; try done. simpl in *. apply bool_decide_eq_true in Hu as ->.
  destruct Hc as [Hc|(b & r & now & Hb & Hr & Hx & Hn)]; [done|done|].
  rewrite (not_expired h b r now) in Hx; done.
Qed.

(** A reply's own effect on what was seen. *)
Lemma seen_last b h ev :
  seen b (h ++ [ev]) → seen b h
  ∨ match ev with
    | mk_event (Get k) (Ok (Some b')) => k = key ∧ b' = b
    | mk_event (PrefixIter _) (Ok rows) => (key, b) ∈ rows
    | _ => False
    end.
Proof.
  intros [[Hin|Hin%list_elem_of_singleton]%elem_of_app|(p & rows & [Hin|Hin%list_elem_of_singleton]%elem_of_app & Hr)].
  - left. by left.
  - right. by rewrite <- Hin.
  - left. right. by exists p, rows.
  - right. by rewrite <- Hin.
Qed.
Lemma executed_last h ev :
  executed (h ++ [ev]) → executed h
  ∨ match ev with mk_event (Dispatch d _ _ _) (Ok o) => task_id d = id ∧ is_success o = true | _ => False end.
Proof.
  intros (d & t & x & v & o & [Hin|Hin%list_elem_of_singleton]%elem_of_app & Hd & Ho); [left; by exists d, t, x, v, o|].
  right. by rewrite <- Hin.
Qed.

(** The call's own part of [history_outlasts]. *)
Definition reply_outlasts (ev : Event SpineCall) : Prop :=
  match ev with
  | mk_event (Get k) (Ok (Some b)) => k = key → outlasts b
  | mk_event (PrefixIter _) (Ok rows) => ∀ b, (key, b) ∈ rows → outlasts b
  | mk_event UtcNow (Ok now) => now < horizon
  | _ => True
  end.

Lemma history_reply h c r :
  history_outlasts h → keeps_claims h c → reply_outlasts (mk_event c r) → history_outlasts (h ++ [mk_event c r]).
Proof.
  intros Hh Hc Hr. split.
  - intros b [Hb|Hb]%seen_last; [by apply Hh|].
    destruct c; try done; destruct r as [r|]; try done; simpl in *; [|by apply Hr].
    destruct r; [|done]. destruct Hb as [-> ->]. by apply Hr.
  - intros now [Hin|Hin%list_elem_of_singleton]%elem_of_app; [by apply Hh|].
    rewrite <- Hin in Hr. done.
  - intros [He|He]%executed_last.
    + apply holds_lease_keep; [by apply Hh|]. simpl. apply not_true_iff_false. intros Hu.
      by destruct (unclaim_holds h c Hh Hc Hu).
    + destruct c; try done. destruct r; try done. destruct He as [Hd Ho].
      apply holds_lease_keep; [by apply Hc|done].
Qed.

(** ** The world keeps it *)

Lemma claim_outlasts h b body doc digest now :
  history_outlasts h → read_clock now h → body ∈ bodies → task_from_slice body = Ok doc → task_id doc = id →
  validate_freshness doc now freshness = Ok () →
  record_to_vec (mk_record digest (kept_until doc now) None false) = Ok b → outlasts b.
Proof.
  intros Hh Hn Hbody Hdoc Hid Hf Hb r Hr. rewrite (record_roundtrip _ _ Hb) in Hr. injection Hr as <-.
  simpl. by eapply Hkept; [..|by apply (ho_clock _ Hh)|].
Qed.

Lemma exec_outlasts h c w :
  history_outlasts h → keeps_claims h c → world_outlasts w →
  world_outlasts (exec c w).2 ∧ reply_outlasts (mk_event c (exec c w).1).
Proof.
  intros Hh Hc [Hn Hw]. destruct c; try done; cbn [exec spine_calls spine_exec].
  - split; [done|]. simpl. destruct (sw_rows w !! k) eqn:Hk; [|done]. intros ->. by apply Hw.
  - split; [|done]. split; [done|]. simpl. intros b'. intros [[Hk <-]|[_ ?]]%lookup_insert_Some; [|by apply Hw].
    destruct (Hc Hk) as (b0 & r0 & resp & Hg & Hr0 & Hb). intros r Hr. rewrite (record_roundtrip _ _ Hb) in Hr.
    injection Hr as <-. simpl. by apply (ho_seen _ Hh b0); [left|].
  - unfold insert_if_absent. case_bool_decide; (split; [|done]); (split; [done|]); [exact Hw|]. simpl.
    intros b'. intros [[Hk <-]|[_ ?]]%lookup_insert_Some; [|by apply Hw].
    destruct (Hc Hk) as (body & doc & digest & now & ? & ? & ? & ? & ? & ?). by eapply claim_outlasts.
  - split; [|done]. split; [done|]. simpl. intros b' [_ ?]%lookup_delete_Some. by apply Hw.
  - split; [done|]. simpl. intros b [_ Hin]%list_elem_of_filter. apply Hw.
    rewrite sorted_members_Permutation in Hin. by apply elem_of_map_to_list in Hin.
  - by destruct (mem_claim _ _ _ _ _).
Qed.

Lemma glitch_outlasts c w r w' : glitch c w r w' → reply_outlasts (mk_event c r).
Proof. intros [_ Hr]. destruct c, r; try done; by destruct Hr. Qed.

Lemma claim_taken c w r w' : may_do c w r w' → claims (mk_event c r) → unclaims c = false ∧ ¬ claimed w ∧ claimed w'.
Proof.
  intros Hm Hc. destruct c; try done. destruct r as [[]|]; try done. simpl in Hc. subst k.
  split; [done|]. destruct Hm as [He|[_ [? _]]]; [|done]. cbn [exec spine_calls spine_exec] in He.
  unfold insert_if_absent in He. case_bool_decide as Hk; [done|]. injection He as <-. split; [done|].
  unfold claimed. simpl. rewrite lookup_insert_eq. by eexists.
Qed.
Lemma claim_kept c w r w' : may_do c w r w' → unclaims c = false → claimed w → claimed w'.
Proof.
  unfold claimed. intros [He|[-> _]] Hu Hw; [|done]. destruct c; cbn [exec spine_calls spine_exec] in He;
    try (injection He as _ <-; exact Hw).
  - injection He as _ <-. simpl. destruct (decide (k = key)) as [->|]; [by rewrite lookup_insert_eq|by rewrite lookup_insert_ne].
  - unfold insert_if_absent in He. case_bool_decide as Hk; injection He as _ <-; simpl; [exact Hw|].
    destruct (decide (k = key)) as [->|]; [by rewrite lookup_insert_eq|by rewrite lookup_insert_ne].
  - injection He as _ <-. simpl in *. apply bool_decide_eq_false in Hu. by rewrite lookup_delete_ne.
  - destruct (mem_claim _ _ _ _ _). injection He as _ <-. exact Hw.
Qed.

(** ** The programs keep it *)

Lemma record_key_inj a b : record_key a = record_key b → a = b.
Proof. unfold record_key. intros Hab. by apply (inj (String.app KEY_PREFIX)) in Hab. Qed.

Lemma plain_keeps h c : plain c = true → keeps_claims h c.
Proof. by destruct c. Qed.

(** What a fresh claim gives a document. *)
Definition leased (h : History) (s : Screened) (c : Claim) : Prop :=
  cl_id c = task_id (sc_doc s) ∧ (task_id (sc_doc s) = id → holds_lease claims unclaims h).

Lemma claim_keeps body h s :
  body ∈ bodies → screened sp body h s →
  always keeps_claims (ok_then (λ h' a, ∀ c, a = Ok (Fresh c) → leased h' s c)) h
    (store_claim (sc_doc s) (retain_until freshness (sc_doc s) (sc_now s)) (sc_now s)).
Proof.
  intros Hbody Hs. unfold store_claim. destruct (document_digest _) as [digest|]; [|done].
  apply always_then. eapply always_impl; [|apply (claim_inner_always _ (λ _ _, conj I I) (λ _ _, I)
    (λ h', task_id (sc_doc s) = id → holds_lease claims unclaims h'))].
  - intros h' [a|]; [|done]. simpl. intros Ha c [= ->]. by destruct (Ha c eq_refl) as [-> ?].
  - intros h1 b r P1 Hg Hr Hx Hk. right. exists b, r, (sc_now s). rewrite Hk in Hg. split; [by left|].
    split_and!; [done..|]. eapply event_later; [exact P1|by apply Hs].
  - intros h1 b P1 Hb. split.
    + intros Hk. exists body, (sc_doc s), digest, (sc_now s). apply record_key_inj in Hk.
      destruct Hs. split_and!; try done. by eapply event_later.
    + intros Hid. apply holds_lease_take. simpl. by rewrite Hid.
  - intros h1 st u Hh Hid. apply holds_lease_keep; [by apply Hh|done].
Qed.

Lemma prepare_keeps ctx body :
  body ∈ bodies →
  always keeps_claims
    (λ h r, ok_then (passes (λ h '(s, ctx', c), cleared sp ctx body h s ctx' ∧ leased h s c)) h r ∧ undispatched h)
    [] (prepare sp ctx body).
Proof.
  intros Hbody. eapply always_allows; [|eapply always_impl; [|apply always_both;
    [apply (prepare_ok keeps_claims plain_keeps sp ctx body leased); intros h s; by apply claim_keeps
    |apply (prepare_quiet sp ctx body)]]].
  - by intros h c [].
  - intros h r [Hr [_ Hu]]. by split.
Qed.

Lemma undispatched_executed h : undispatched h → ¬ executed h.
Proof.
  intros Hu (d & t & x & v & o & Hin & _). unfold undispatched in Hu. rewrite Forall_forall in Hu.
  by specialize (Hu _ Hin).
Qed.

Lemma execute_keeps s ctx c h :
  leased h s c → undispatched h → always keeps_claims (ok_then (λ _ _, True)) h (execute sp s ctx c).
Proof.
  intros [Hid Hh] Hu. unfold execute. refine (always_call_ok _ _ _ _ _ _ _ _); [done|exact Hh|]. intros o.
  set (G := λ h', (task_id (sc_doc s) = id → holds_lease claims unclaims h')
    ∧ (executed h' → task_id (sc_doc s) = id ∧ is_success o = true)).
  assert (∀ h' c' r, G h' → plain c' = true ∨ (∃ st, c' = Lock st) ∨ (∃ k, c' = Get k) → G (h' ++ [mk_event c' r])) as HG.
  { intros h' c' r [H1' H2'] Hc'. split.
    - intros Hd. apply holds_lease_keep; [by apply H1'|]. by destruct Hc' as [|[[? ->]|[? ->]]]; [destruct c'|..].
    - intros [He|He]%executed_last; [by apply H2'|]. by destruct Hc' as [|[[? ->]|[? ->]]]; [destruct c'|..]. }
  assert (G (h ++ [mk_event (Dispatch (sc_doc s) (sc_type s) ctx (sc_received s)) (Ok o)])) as HG0.
  { split; [intros Hd; apply holds_lease_keep; [by apply Hh|done]|].
    intros [He|He]%executed_last; [by apply undispatched_executed in He|done]. }
  eapply (always_seq _ (λ h' o', oc_status o' = oc_status o ∧ G h')); [done| |].
  { eapply (always_allows (λ _ c', plain c' = true)); [by intros; apply plain_keeps|].
    eapply always_impl; [|apply (always_track _ (ok_then (λ _ o', oc_status o' = oc_status o)) G); [|exact HG0|by apply sign_quiet]].
    - intros h' [o'|]; [|done]. by intros [? ?].
    - intros h' c' r Hg Hc'. apply HG; [done|by left]. }
  intros o' h' _ [Hst Hg]. eapply (always_seq _ (λ _ _, True)); [done| |done].
  destruct (is_success o') eqn:Hso.
  - apply complete_always; [done|done|]. intros h1 b0 r b _ Hgot Hr Hb Hk. rewrite Hk in Hgot. by eexists b0, r, _.
  - apply (release_always _ (λ _ _, conj I I) (λ _ _, I) G); [intros; by apply HG; [|right]| |done].
    intros h1 [Hh1 He1] Hk%record_key_inj. left. rewrite Hid in Hk. split; [by apply Hh1|].
    intros He. apply He1 in He as [_ Ho]. unfold is_success in *. rewrite Hst in Hso. congruence.
Qed.

Lemma receive_keeps ctx body : body ∈ bodies → always keeps_claims (λ _ _, True) [] (receive sp ctx body).
Proof.
  intros Hbody. eapply (always_impl _ (ok_then (λ _ _, True))); [done|].
  eapply (always_seq _ (λ _ _, True)); [done| |].
  - unfold receive_unsigned. apply always_bind. eapply always_impl; [|by apply prepare_keeps].
    intros h [[[[s cx] c]|o]|e]; [|done|done]. intros [[_ Hl] Hu]. by apply execute_keeps.
  - intros o h _ _. eapply always_impl; [|apply sign_quiet, plain_keeps]. by intros h2 [].
Qed.

Lemma sweep_keeps h now rows n :
  read_clock now h → (∀ k b, (k, b) ∈ rows → k = key → seen b h) →
  always keeps_claims (λ _ _, True) h (sweep_rows now rows n).
Proof.
  revert h n. induction rows as [|[k b] rows IH]; intros h n Hn Hs; [done|]. simpl.
  assert (∀ k b, (k, b) ∈ rows → k = key → seen b h) as Hs' by (intros k' b' ?; apply Hs; by right).
  destruct (record_from_slice b) as [r|] eqn:Hb; [|by apply IH]. destruct (is_expired_at r now) eqn:Hx; [|by apply IH].
  split; [intros Hk; right; exists b, r, now; by split_and!; [apply (Hs k); [left|]|..]|].
  intros [[]|]; [|done]. apply IH.
  - apply elem_of_app. by left.
  - intros k' b' Hin Hk. destruct (Hs' k' b' Hin Hk) as [Hg|(p & rs & Hp & Hr)].
    + left. apply elem_of_app. by left.
    + right. exists p, rs. split; [|done]. apply elem_of_app. by left.
Qed.

Lemma request_keeps rq :
  (∀ ctx body, rq = Arrive ctx body → body ∈ bodies) → always keeps_claims (λ _ _, True) [] (run_spine sp rq).
Proof.
  destruct rq as [ctx body|]; intros Hrq; cbn [run_spine].
  - eapply (always_impl _ (ok_then (λ _ _, True))); [done|]. eapply (always_seq _ (λ _ _, True)); [done| |done].
    eapply always_impl; [|by eapply receive_keeps, Hrq]. by intros h [].
  - split; [done|]. intros [now|]; [|done]. simpl. split; [done|]. intros [rows|]; [|done]. simpl.
    apply always_bind. eapply always_impl; [|apply sweep_keeps].
    + by intros h [].
    + by left.
    + intros k b Hin ->. right. exists KEY_PREFIX, rows. split; [by right; left|done].
Qed.

(** ** Every run *)

(** It has executed a document under the id, or is about to. *)
Definition executes (t : Thread SpineCall (option TrustTaskOutcome)) : Prop :=
  executed (th_history t)
  ∨ ∃ d ty x v, next_call (th_prog t) = Some (Dispatch d ty x v) ∧ task_id d = id.

(** C3 (executed once while retained): of every run of a process over the
    stored record, with any documents and sweeps in any interleaving, any
    answers of the service's parts, failed and late store operations and
    restarts: as long as the clock has not reached what the id's records are
    retained until, at most one request executes a document under the id or
    has executed one with success. *)
Theorem executed_once reqs (w : World SpineCall) s i j t u :
  (∀ ctx body, Arrive ctx body ∈ reqs → body ∈ bodies) →
  world_outlasts w →
  rtc service_step (mk_service w [] (begin <$> (run_spine sp <$> reqs))) s →
  sv_threads s !! i = Some t → sv_threads s !! j = Some u → executes t → executes u → i = j.
Proof.
  intros Hreqs Hw Hrun Hi Hj Ht Hu.
  assert (service_ok world_outlasts history_outlasts keeps_claims (λ _ _ _, True) s
    ∧ lease_ok claims unclaims claimed s) as [Hok Hl].
  { eapply (@service_lease _ _ spine_calls); [..|exact Hw| | |exact Hrun].
    - intros h c w1 Hh Hc Hw1. destruct (exec_outlasts h c w1) as [Hw2 Hr]; [done..|].
      split; [done|by apply history_reply].
    - intros h c w1 r w2 Hh Hc Hw1 Hg. split; [by destruct Hg as [-> _]|].
      apply history_reply; [done..|by eapply glitch_outlasts].
    - intros h c e Hh Hc _. apply history_reply; [done..|by destruct c].
    - intros w1 w2 (Hr & _ & _ & Hn) [_ Hw1]. split; [done|]. by rewrite Hr.
    - done.
    - done.
    - intros h c w1 r w2 _ _ _ Hm. by apply claim_taken.
    - intros h c w1 r w2 _ _ _ Hm. by eapply claim_kept.
    - intros h c Hh Hc Hu'. by destruct (unclaim_holds h c Hh Hc Hu').
    - intros h c e _ _ _ Hc. by destruct c.
    - intros w1 w2 (Hr & _) Hc. unfold claimed. by rewrite Hr.
    - done.
    - split; [|by intros now ?%elem_of_nil|by intros (? & ? & ? & ? & ? & ?%elem_of_nil & _)].
      by intros b [?%elem_of_nil|(? & ? & ?%elem_of_nil & _)].
    - intros n p Hn. rewrite list_lookup_fmap in Hn. apply fmap_Some in Hn as (rq & Hn & ->).
      apply request_keeps. intros ctx body ->. apply (Hreqs ctx). by eapply list_elem_of_lookup_2. }
  assert (∀ n x, sv_threads s !! n = Some x → executes x → holds_lease claims unclaims (th_history x)) as Hx.
  { intros n x Hn [He|(d & ty & cx & v & Hnext & Hd)]; destruct (ok_threads _ _ _ _ _ Hok _ _ Hn) as [Hg Ha].
    - by apply (ho_executed _ Hg).
    - by apply (always_next _ _ _ _ _ Ha Hnext). }
  by apply (lease_one _ _ _ _ Hl i j t u); [..|apply (Hx i)|apply (Hx j)].
Qed.
End Retained.
