(* ===== verification/AcceptedIds.v ===== *)
(** * The record of accepted ids, in the store and in memory

    The two records of [accepted.rs] and [accepted_store.rs] give the same
    answers to the same operations, one at a time and nothing failing; and
    what those answers are: a live claim is a duplicate to its own document
    and a conflict to any other, with the response recorded once it is
    completed, and is gone once it is released or expired. *)

From S2P Require Import Prelude Json Host Programs Keyspace Spine SpineSafety.

Section AcceptedIds.
Context `{TaskFramework, ValueSerde, RecordSerde, !RecordSerdeLaws, !SpineHost, Horizon}.

(** ** Operations on a record *)

Inductive IdsOp :=
| OpClaim (doc : TaskDoc) (retain_until : option Z) (now : Z)
| OpCompleted (c : Claim) (response : option Value)
| OpRelease (c : Claim).

(** A claim's answer; a settlement has none. *)
Abbreviation IdsAnswer := (option (result AcceptedIdsError Acceptance)).

Definition ids_op (ids : AcceptedIdStore) (op : IdsOp) : SpineProg IdsAnswer :=
  match op with
  | OpClaim doc retain now => a ← ids_claim ids doc retain now; mret (Some a)
  | OpCompleted c response => _ ← ids_completed ids c response; mret None
  | OpRelease c => _ ← ids_release ids c; mret None
  end.

Fixpoint ids_ops (ids : AcceptedIdStore) (ops : list IdsOp) (w : World SpineCall)
  : list (result AppError IdsAnswer) * World SpineCall :=
  match ops with
  | [] => ([], w)
  | op :: ops =>
      let '(r, w) := run (ids_op ids op) w in
      let '(rs, w) := ids_ops ids ops w in (r :: rs, w)
  end.

(** ** What they do to a map of records *)

Definition op_on (op : IdsOp) (m : Records) : IdsAnswer * Records :=
  match op with
  | OpClaim doc retain now =>
      match document_digest doc with
      | Err _ => (Some (Err NotDigestible), m)
      | Ok digest =>
          let '(existing, m) := mem_claim (task_id doc) digest (retention retain now) now m in
          (Some (Ok match existing with
                    | Some r => acceptance_of r digest
                    | None => Fresh (mk_claim (task_id doc) digest)
                    end), m)
      end
  | OpCompleted c response => (None, mem_completed c response m)
  | OpRelease c => (None, mem_release c m)
  end.

Lemma memory_op op w :
  run (ids_op memory_ids op) w = (Ok (op_on op (sw_memory w)).1, with_memory (op_on op (sw_memory w)).2 w).
Proof.
  destruct op as [doc retain now|c response|c]; [|done..]. simpl.
  destruct (document_digest doc) as [digest|]; [|by destruct w]. simpl.
  by destruct (mem_claim _ _ _ _ _) as [[r|] m].
Qed.

Fixpoint ops_on (ops : list IdsOp) (m : Records) : list IdsAnswer * Records :=
  match ops with
  | [] => ([], m)
  | op :: ops => let '(a, m) := op_on op m in let '(l, m) := ops_on ops m in (a :: l, m)
  end.

Lemma memory_ops ops w :
  ids_ops memory_ids ops w = (Ok <$> (ops_on ops (sw_memory w)).1, with_memory (ops_on ops (sw_memory w)).2 w).
Proof.
  revert w. induction ops as [|op ops IH]; intros w; [by destruct w|]. cbn [ids_ops ops_on].
  rewrite memory_op. destruct (op_on op (sw_memory w)) as [a m]. simpl. rewrite IH. simpl.
  by destruct (ops_on ops m).
Qed.

(** The rows are the records'. *)
Definition row_represents (rows : Rows) (m : Records) (id : string) : Prop :=
  match m !! id with
  | Some r => ∃ b, rows !! record_key id = Some b ∧ record_from_slice b = Ok r
  | None => rows !! record_key id = None
  end.
Definition represents (rows : Rows) (m : Records) : Prop := ∀ id, row_represents rows m id.

Lemma represents_insert rows m id r b :
  record_to_vec r = Ok b → represents rows m → represents (<[record_key id := b]> rows) (<[id := r]> m).
Proof.
  intros Hb Hr id'. unfold row_represents. destruct (decide (id = id')) as [<-|Hne].
  - rewrite !lookup_insert_eq. exists b. split; [done|by apply record_roundtrip].
  - rewrite (lookup_insert_ne m) by done. rewrite (lookup_insert_ne rows) by (by intros ?%record_key_inj). apply Hr.
Qed.
Lemma represents_delete rows m id :
  represents rows m → represents (delete (record_key id) rows) (delete id m).
Proof.
  intros Hr id'. unfold row_represents. destruct (decide (id = id')) as [<-|Hne].
  - by rewrite !lookup_delete_eq.
  - rewrite (lookup_delete_ne m) by done. rewrite (lookup_delete_ne rows) by (by intros ?%record_key_inj). apply Hr.
Qed.

Context (Hvec : ∀ r, is_ok (record_to_vec r) = true).

Lemma vec_ok r : ∃ b, record_to_vec r = Ok b.
Proof. specialize (Hvec r). destruct (record_to_vec r) as [b|]; [by exists b|done]. Qed.

(** The lock is free again. *)
Lemma run_with_stripe {A} id (p : SpineProg A) w r w' :
  run p (with_locks ({[stripe_for id]} ∪ sw_locks w) w) = (r, w') →
  run (with_stripe id p) w = (r, with_locks (sw_locks w' ∖ {[stripe_for id]}) w').
Proof. intros Hp. unfold with_stripe. rewrite run_bind. simpl. rewrite run_then, Hp. simpl. by destruct r. Qed.

Lemma run_get_record id m w :
  row_represents (sw_rows w) m id → run (get_record id) w = (Ok (m !! id), w).
Proof.
  unfold row_represents, get_record. intros Hr. rewrite run_bind. simpl. destruct (m !! id) as [r|].
  - destruct Hr as (b & -> & Hb). simpl. by rewrite Hb.
  - by rewrite Hr.
Qed.

Lemma run_place id digest ret w :
  sw_rows w !! record_key id = None →
  ∃ b, record_to_vec (mk_record digest ret None false) = Ok b
    ∧ run (place id digest ret) w = (Ok (Fresh (mk_claim id digest)), with_rows (<[record_key id := b]> (sw_rows w)) w).
Proof.
  intros Hk. destruct (vec_ok (mk_record digest ret None false)) as [b Hb]. exists b. split; [done|].
  unfold place. rewrite Hb. simpl. unfold insert_if_absent. rewrite Hk. by case_bool_decide as Hs; [destruct Hs|].
Qed.

Lemma run_claim_inner id digest ret now m w :
  represents (sw_rows w) m →
  ∃ w', run (claim_inner id digest ret now) w =
      (Ok match (mem_claim id digest ret now m).1 with
          | Some r => acceptance_of r digest
          | None => Fresh (mk_claim id digest)
          end, w')
    ∧ represents (sw_rows w') (mem_claim id digest ret now m).2.
Proof.
  intros Hm. unfold claim_inner.
  pose proof (Hm id) as Hid. unfold row_represents in Hid. unfold mem_claim. destruct (m !! id) as [r|] eqn:Hr.
  - assert (is_expired_at r now = negb (now <? rc_retain_until r)) as Hexp by apply Z.leb_antisym.
    destruct (now <? rc_retain_until r) eqn:Hx; simpl in Hexp.
    + eexists. split; [apply run_with_stripe; rewrite run_bind, (run_get_record _ m), Hr by apply Hm; simpl; by rewrite Hexp|done].
    + destruct (run_place id digest ret (with_rows (delete (record_key id) (sw_rows w)) (with_locks ({[stripe_for id]} ∪ sw_locks w) w))) as (b & Hb & Hp).
      { apply lookup_delete_eq. }
      eexists. split.
      { apply run_with_stripe. rewrite run_bind, (run_get_record _ m), Hr by apply Hm. simpl. rewrite Hexp. simpl. exact Hp. }
      simpl. rewrite insert_delete_eq. by apply represents_insert.
  - destruct (run_place id digest ret (with_locks ({[stripe_for id]} ∪ sw_locks w) w) Hid) as (b & Hb & Hp).
    eexists. split; [apply run_with_stripe; rewrite run_bind, (run_get_record _ m), Hr by apply Hm; exact Hp|]. by apply represents_insert.
Qed.

Definition unlocked (id : string) (w : SpineWorld) : SpineWorld := with_locks (sw_locks w ∖ {[stripe_for id]}) w.

Lemma run_settlement id (body : option IdRecord → SpineProg unit) m w :
  represents (sw_rows w) m →
  run (settled (with_stripe id (get_record id ≫= body))) w
  = (Ok (), unlocked id (run (body (m !! id)) (with_locks ({[stripe_for id]} ∪ sw_locks w) w)).2).
Proof.
  intros Hm. unfold settled. rewrite run_then. erewrite run_with_stripe; [done|].
  rewrite run_bind, (run_get_record _ m) by apply Hm. apply surjective_pairing.
Qed.

Lemma store_op op m w :
  represents (sw_rows w) m →
  ∃ w', run (ids_op store_ids op) w = (Ok (op_on op m).1, w') ∧ represents (sw_rows w') (op_on op m).2.
Proof.
  intros Hm. destruct op as [doc retain now|c response|c]; cbn [ids_op ids_claim ids_completed ids_release store_ids op_on].
  - unfold store_claim. destruct (document_digest doc) as [digest|]; [|by exists w].
    destruct (run_claim_inner (task_id doc) digest (retention retain now) now m w Hm) as (w' & Hr & Hm').
    exists w'. destruct (mem_claim _ _ _ _ _) as [ex m']. split; [|done].
    by rewrite run_bind, run_then, Hr.
  - unfold complete. rewrite run_bind, (run_settlement _ _ m) by done. eexists. split; [done|].
    unfold mem_completed. destruct (m !! cl_id c) as [r|] eqn:Hr; [|done].
    destruct (decide (rc_digest r = cl_digest c)) as [Hd|Hd].
    + rewrite bool_decide_eq_false_2 by (by intros []). rewrite bool_decide_eq_true_2 by done.
      destruct (vec_ok (mk_record (rc_digest r) (rc_retain_until r) response true)) as [b Hb]. rewrite Hb.
      by apply represents_insert.
    + rewrite bool_decide_eq_true_2 by done. by rewrite bool_decide_eq_false_2.
  - unfold release. rewrite run_bind, (run_settlement _ _ m) by done. eexists. split; [done|].
    unfold mem_release. destruct (m !! cl_id c) as [r|] eqn:Hr; [|done].
    destruct (_ && _); [by apply represents_delete|done].
Qed.

Lemma store_ops ops m w :
  represents (sw_rows w) m →
  ∃ w', ids_ops store_ids ops w = (Ok <$> (ops_on ops m).1, w') ∧ represents (sw_rows w') (ops_on ops m).2.
Proof.
  revert m w. induction ops as [|op ops IH]; intros m w Hm; [by exists w|]. cbn [ids_ops ops_on].
  destruct (store_op op m w Hm) as (w1 & Hr & Hm1). rewrite Hr. destruct (op_on op m) as [a m1]. simpl in Hm1.
  destruct (IH m1 w1 Hm1) as (w2 & Hr2 & Hm2). rewrite Hr2. exists w2. by destruct (ops_on ops m1).
Qed.

(** C23 (the durable record is the simple one): from rows that are a map's
    records, any operations on the stored record, one after another with
    nothing failing, answer as they do on the record in memory, and leave rows
    that are its records. *)
Theorem store_refines_memory ops (w w' : World SpineCall) :
  represents (sw_rows w) (sw_memory w') →
  (ids_ops store_ids ops w).1 = (ids_ops memory_ids ops w').1
  ∧ represents (sw_rows (ids_ops store_ids ops w).2) (sw_memory (ids_ops memory_ids ops w').2).
Proof. intros Hm. rewrite memory_ops. by destruct (store_ops ops _ w Hm) as (w1 & -> & Hm1). Qed.

(** ** What the answers are *)

Definition claimable (m : Records) (id : string) (now : Z) : Prop :=
  ∀ r, m !! id = Some r → rc_retain_until r ≤ now.

(** A duplicate to the document that holds the id, a conflict to another. *)
Definition held_by (digest digest' : string) (prior_response : option Value) (in_flight : bool) : Acceptance :=
  if bool_decide (digest = digest') then Duplicate prior_response in_flight else Conflict.

(** What becomes of an id: where an id is free or its record expired, a
    document's claim is fresh. Until its retention, a document that comes
    under the id is a duplicate in flight, or once the claim is completed a
    duplicate with the response recorded, where it is the same document, and
    otherwise a conflict; and it has a fresh claim once the claim was
    released, or has expired. *)
Theorem id_lifecycle doc doc' digest digest' retain retain' now now' response m (w : World SpineCall) :
  document_digest doc = Ok digest → document_digest doc' = Ok digest' → task_id doc' = task_id doc →
  represents (sw_rows w) m → claimable m (task_id doc) now →
  let c := mk_claim (task_id doc) digest in
  let claimed := Ok (Some (Ok (Fresh c))) in
  let again := OpClaim doc' retain' now' in
  let free := Ok (Some (Ok (Fresh (mk_claim (task_id doc) digest')))) in
  if now' <? retention retain now then
    (ids_ops store_ids [OpClaim doc retain now; again] w).1 = [claimed; Ok (Some (Ok (held_by digest digest' None true)))]
    ∧ (ids_ops store_ids [OpClaim doc retain now; OpCompleted c response; again] w).1
      = [claimed; Ok None; Ok (Some (Ok (held_by digest digest' response false)))]
    ∧ (ids_ops store_ids [OpClaim doc retain now; OpRelease c; again] w).1 = [claimed; Ok None; free]
  else
    (ids_ops store_ids [OpClaim doc retain now; again] w).1 = [claimed; free]
    ∧ (ids_ops store_ids [OpClaim doc retain now; OpCompleted c response; again] w).1 = [claimed; Ok None; free].
Proof.
  intros Hd Hd' Hid Hm Hfree. cbv zeta.
  assert (mem_claim (task_id doc) digest (retention retain now) now m
    = (None, <[task_id doc := mk_record digest (retention retain now) None false]> m)) as Hc.
  { unfold mem_claim. destruct (m !! task_id doc) as [r|] eqn:Hr; [|done].
    apply Hfree in Hr. by rewrite (proj2 (Z.ltb_ge _ _) Hr). }
  destruct (now' <? retention retain now) eqn:Hn; split_and?;
    match goal with |- (ids_ops _ ?ops _).1 = _ => destruct (store_ops ops m w Hm) as (w1 & -> & _) end;
    cbn [ops_on op_on]; rewrite ?Hd, ?Hd', ?Hid, Hc; unfold mem_completed, mem_release, mem_claim; cbn [cl_id cl_digest];
    rewrite ?lookup_insert_eq; cbn [rc_digest rc_completed rc_retain_until rc_response];
    rewrite ?bool_decide_eq_true_2 by done; cbn [andb negb];
    rewrite ?lookup_insert_eq, ?lookup_delete_eq; cbn [rc_retain_until]; rewrite ?Hn; try done.
  all: unfold acceptance_of, held_by; simpl; by case_bool_decide.
Qed.

End AcceptedIds.
