(* ===== verification/SpineRuns.v ===== *)
(** * The pipeline at work

    A small service: documents that are numbered bodies, a framework that
    holds them fresh for a while, and what happens to them: the theorems of
    [SpineSafety] and [AcceptedIds] seen to hold, and three runs outside what
    they show, in which a document is executed twice: at the very instant its
    record expires, beside a sweep, and after a removal that was given up on. *)

From S2P Require Import Prelude Json Host DidScid Programs Keyspace Spine SpineSafety AcceptedIds.

(** ** A service *)

Record ToyDoc := mk_toy_doc {
  td_id : string; td_type : string; td_issuer : option string; td_proof : bool; td_issued : Z; td_digest : string;
}.

Definition ping : ToyDoc := mk_toy_doc "i1" "ping" (Some "did:a") false 100 "d1".
(** Signed, and under an id [ping] has had. *)
Definition signed : ToyDoc := mk_toy_doc "i1" "signed" (Some "did:a") true 1000 "d2".
Definition documents : list ToyDoc := [ping; signed].
Definition body (n : nat) : bytes := repeat x00 (S n).

Definition with_proof (v : Value) : bool := bool_decide (is_Some (json_get v "proof")).
Definition proof_value : Value := VObj [("proof", VNull)].

#[local] Instance toy_framework : TaskFramework := {|
  TaskDoc := ToyDoc;
  task_from_slice b := ok_or (documents !! pred (length b)) "not a document";
  task_id := td_id;
  task_type := td_type;
  task_issuer := td_issuer;
  task_has_proof := td_proof;
  task_expires_at _ := None;
  document_digest d := Ok (td_digest d);
  RejectReason := string;
  FreshnessPolicy := Z;
  policy_skew _ := 60;
  validate_freshness d now window := guard_err (td_issued d + window <? now) "expired";
  record_expiry window d _ := Some (td_issued d + window);
  validate_basic _ _ _ := Ok ();
  SpecPolicy := unit;
  enforce _ d := guard_err (negb (td_proof d)) "proofRequired";
  malformed_request := "malformedRequest";
  permission_denied := "permissionDenied";
  task_failed _ := "taskFailed";
  internal_error := "internalError";
  proof_required := "proofRequired";
  proof_invalid := "proofInvalid";
  identity_mismatch _ _ := "identityMismatch";
  id_conflict := "idConflict";
  unavailable := "unavailable";
  task_failed_details r := if String.eqb r "taskFailed" then Some None else None;
  status_for_reason r := if String.eqb r "unavailable" then 503 else 422;
  SizeCharge := unit;
|}.

Definition ping_doc : TaskDoc := ping.
Definition signed_doc : TaskDoc := signed.

(** A body that begins with 1 has a proof. *)
#[local] Instance toy_value_serde : ValueSerde := λ v, Ok [if with_proof v then x01 else x00].
#[local] Instance toy_serde : Serde := {|
  from_slice b := match b with
                  | [] => Err "empty"
                  | x01 :: _ => Ok proof_value
                  | _ => Ok (VNum (Z.of_nat (length b)))
                  end;
  json_display _ := "";
  str_debug s := s;
|}.

#[local] Instance toy_host : SpineHost := {|
  host_admit _ := Ok None;
  host_recipient := Some "did:me";
  host_before_proof _ _ := None;
  host_verify _ _ := Ok "did:a";
  host_after_proof _ _ _ := None;
  host_admits _ := true;
  host_dispatch _ _ _ _ := mk_outcome 200 [x02];
  host_sign _ := Ok proof_value;
  host_routed_error _ _ := [x02];
  host_unrouted_error _ := [x02];
|}.

(** ** Records as bytes *)

Fixpoint value_tree (v : Value) : gen_tree (bool + Z + string) :=
  match v with
  | VNull => GenNode 0 []
  | VBool b => GenLeaf (inl (inl b))
  | VNum z => GenLeaf (inl (inr z))
  | VFloat t => GenNode 4 [GenLeaf (inr t)]
  | VStr s => GenLeaf (inr s)
  | VArr l => GenNode 1 (value_tree <$> l)
  | VObj ms => GenNode 2 ((λ m, GenNode 3 [GenLeaf (inr m.1); value_tree m.2]) <$> ms)
  end.
Fixpoint tree_value (t : gen_tree (bool + Z + string)) : Value :=
  match t with
  | GenLeaf (inl (inl b)) => VBool b
  | GenLeaf (inl (inr z)) => VNum z
  | GenLeaf (inr s) => VStr s
  | GenNode 1 l => VArr (tree_value <$> l)
  | GenNode 2 l =>
      VObj ((λ m, match m with GenNode 3 [GenLeaf (inr k); v] => (k, tree_value v) | _ => ("", VNull) end) <$> l)
  | GenNode 4 [GenLeaf (inr t)] => VFloat t
  | _ => VNull
  end.
Lemma value_tree_value v : tree_value (value_tree v) = v.
Proof.
  revert v. fix IH 1. intros [|b|z|t|s|l|ms]; simpl; try done.
  - f_equal. induction l as [|v l IHl]; simpl; [done|]. f_equal; [apply IH|exact IHl].
  - f_equal. induction ms as [|[k v] ms IHms]; simpl; [done|]. f_equal; [by rewrite IH|exact IHms].
Qed.
#[local] Instance value_countable : Countable Value := inj_countable' value_tree tree_value value_tree_value.

Definition record_tuple (r : IdRecord) : string * Z * option Value * bool :=
  (rc_digest r, rc_retain_until r, rc_response r, rc_completed r).
#[local] Instance toy_records : RecordSerde := {|
  record_to_vec r := Ok (bits_of (encode (record_tuple r)));
  record_from_slice b :=
    '(d, t, v, c) ← ok_or (decode (of_bits b)) AppSerialization; Ok (mk_record d t v c);
|}.
#[local] Instance toy_records_laws : RecordSerdeLaws.
Proof. split. intros [d t v c] b [= <-]. simpl. by rewrite of_bits_of, decode_encode. Qed.

Lemma toy_vec r : is_ok (record_to_vec r) = true.
Proof. done. Qed.

#[local] Instance no_canonical_form : Jcs := λ _, Err "".
#[local] Instance toy_horizon : Horizon := 1600.

(** Fresh for 660 seconds; signed documents need their proof; answers are
    signed. *)
Definition window : FreshnessPolicy := 660.
Definition service : Spine :=
  mk_spine window (λ t, if String.eqb t "signed" then Some () else None) true store_ids (λ _, true) true.

(** What a thread has answered, and whether it executed under [i1]. *)
Definition status (s : Service SpineCall (option TrustTaskOutcome)) (i : nat) : option Z :=
  match sv_threads s !! i with Some (mk_thread _ (Ret (Ok (Some o)))) => Some (oc_status o) | _ => None end.
Definition dispatched_with (ev : Event SpineCall) : bool :=
  match ev with mk_event (Dispatch d _ _ _) (Ok o) => bool_decide (task_id d = "i1") && is_success o | _ => false end.
Definition ran (s : Service SpineCall (option TrustTaskOutcome)) (i : nat) : bool :=
  match sv_threads s !! i with Some t => existsb dispatched_with (th_history t) | None => false end.

Definition at_time (now : Z) : World SpineCall := mk_spine_world ∅ ∅ ∅ now.
Definition start (w : World SpineCall) (reqs : list SpineRequest) : Service SpineCall (option TrustTaskOutcome) :=
  mk_service w [] (begin <$> (run_spine service <$> reqs)).

(** A document twice at once, with a sweep: the second waits for the first's
    claim and is told it is in flight. *)
Definition rival_arrivals : list SpineRequest :=
  [Arrive (arrival_didcomm "did:a") (body 1); SweepNow; Arrive (arrival_didcomm "did:a") (body 1)].
Definition rival_schedule : list nat :=
  (repeat 0 12 ++ repeat 2 8 ++ repeat 1 2 ++ repeat 2 8 ++ repeat 0 20 ++ repeat 2 20)%nat.
Definition rivals : Service SpineCall (option TrustTaskOutcome) :=
  serve (start (at_time 1100) rival_arrivals) rival_schedule.
Example rivals_answered :
  status rivals 0 = Some 200 ∧ status rivals 2 = Some 202 ∧ ran rivals 0 = true ∧ ran rivals 2 = false.
Proof. vm_compute. done. Qed.

Lemma ran_executes s i : ran s i = true → ∃ t, sv_threads s !! i = Some t ∧ executes "i1" t.
Proof.
  unfold ran. destruct (sv_threads s !! i) as [t|]; [|done]. intros (ev & Hin & Hev)%existsb_exists.
  apply list_elem_of_In in Hin. exists t. split; [done|]. left.
  destruct ev as [[] [o|]]; try done. apply andb_prop in Hev as [Hd%bool_decide_eq_true Ho].
  by eexists _, _, _, _, o.
Qed.

(** ** The theorems on it *)

Definition arrival : ArrivalCtx := arrival_didcomm "did:a".
Definition before_dispatch := advance 11 [] (receive service arrival (body 1)) (at_time 1100).
Definition proven_arrival : ArrivalCtx := with_verified_signer (Some "did:a") arrival.

Lemma dispatch_cleared_witness :
  dispatchable service arrival (body 1) before_dispatch.1 signed "signed" proven_arrival (VNum 2).
Proof.
  apply (dispatch_cleared service arrival (body 1) before_dispatch.1 before_dispatch.2);
    [apply advance_traced|vm_compute; reflexivity].
Defined.

Definition answered := advance 40 [] (receive service arrival (body 1)) (at_time 1100).
Lemma answers_attributed_witness : attributed service answered.1 (mk_outcome 200 [x01]).
Proof.
  apply (answers_attributed service arrival (body 1)).
  replace (Ret (Ok (mk_outcome 200 [x01]))) with answered.2 by (vm_compute; reflexivity). apply advance_traced.
Defined.

(** Neither is expired while it is accepted. *)
Lemma signed_kept bs doc now :
  bs ∈ [body 1] → task_from_slice bs = Ok doc → task_id doc = "i1" → now < horizon →
  validate_freshness doc now window = Ok () → horizon ≤ kept_until window doc now.
Proof. intros ->%list_elem_of_singleton [= <-] _ _ _. done. Qed.

Lemma executed_once_witness :
  ran rivals 0 = true ∧ ∀ j u, sv_threads rivals !! j = Some u → executes "i1" u → 0%nat = j.
Proof.
  split; [vm_compute; reflexivity|]. intros j u Hj Hu.
  destruct (ran_executes rivals 0) as (t & Ht & He); [vm_compute; reflexivity|].
  apply (executed_once window (sp_policy service) true (λ _, true) true "i1" [body 1] signed_kept
    rival_arrivals (at_time 1100) rivals 0 j t u);
    [| |exact (serve_steps (start (at_time 1100) rival_arrivals) rival_schedule)|exact Ht|exact Hj|exact He|exact Hu].
  - intros ctx bs Hin. unfold rival_arrivals in Hin. rewrite !elem_of_cons, elem_of_nil in Hin.
    destruct Hin as [[= _ ->]|[[=]|[[= _ ->]|[]]]]; by left.
  - split; [done|]. intros b Hb. exfalso. exact (lookup_empty_Some (M := gmap string) (record_key "i1") b Hb).
Defined.

Definition ops : list IdsOp :=
  [OpClaim ping_doc None 100; OpCompleted (mk_claim "i1" "d1") (Some VNull); OpClaim signed_doc None 200].
Lemma store_refines_memory_witness :
  (ids_ops store_ids ops (at_time 100)).1 = (ids_ops memory_ids ops (at_time 100)).1
  ∧ represents (sw_rows (ids_ops store_ids ops (at_time 100)).2) (sw_memory (ids_ops memory_ids ops (at_time 100)).2).
Proof.
  apply (store_refines_memory toy_vec ops).
  intros id. reflexivity.
Defined.

Lemma id_lifecycle_witness :
  (ids_ops store_ids [OpClaim signed_doc (Some 1660) 1100; OpCompleted (mk_claim "i1" "d2") (Some VNull); OpClaim signed_doc (Some 1660) 1200]
     (at_time 1100)).1
  = [Ok (Some (Ok (Fresh (mk_claim "i1" "d2")))); Ok None; Ok (Some (Ok (Duplicate (Some VNull) false)))].
Proof.
  apply (id_lifecycle toy_vec signed_doc signed_doc "d2" "d2" (Some 1660) (Some 1660) 1100 1200 (Some VNull) ∅ (at_time 1100));
    [reflexivity|reflexivity|reflexivity| |].
  - intros id. reflexivity.
  - intros r Hr. discriminate Hr.
Defined.

(** ** Twice

    What [executed_once] leaves out: an id whose record expires during the
    run. *)

(** An earlier document's record, expired. *)
Definition after_ping (now : Z) : World SpineCall :=
  with_rows {[record_key "i1" := unwrap_or (record_to_vec (mk_record "d1" 760 None true)) []]} (at_time now).
Definition arrive : SpineRequest := Arrive arrival (body 1).

(** A sweep read the expired row; it removes the row a claim has put in its
    place, for it takes no lock, and the document is executed again. *)
Definition swept : Service SpineCall (option TrustTaskOutcome) :=
  serve (start (after_ping 1100) [SweepNow; arrive; arrive]) (repeat 0 2 ++ repeat 1 40 ++ repeat 0 2 ++ repeat 2 40)%nat.
Example executed_twice_beside_a_sweep :
  rtc service_step (start (after_ping 1100) [SweepNow; arrive; arrive]) swept ∧ ran swept 1 = true ∧ ran swept 2 = true.
Proof. split; [apply serve_steps|]. split; vm_compute; reflexivity. Qed.

(** At the last instant the document is accepted, its record has expired. *)
Definition at_the_edge : Service SpineCall (option TrustTaskOutcome) :=
  serve (start (at_time 1660) [arrive; arrive]) (repeat 0 40 ++ repeat 1 40)%nat.
Example executed_twice_at_the_edge :
  rtc service_step (start (at_time 1660) [arrive; arrive]) at_the_edge ∧ ran at_the_edge 0 = true ∧ ran at_the_edge 1 = true.
Proof. split; [apply serve_steps|]. split; vm_compute; reflexivity. Qed.

(** A claim's removal of an expired row, given up on, removes the next claim's
    row when it is done. *)
Definition giving_up (s : Service SpineCall (option TrustTaskOutcome)) (i : nat) : Service SpineCall (option TrustTaskOutcome) :=
  match sv_threads s !! i with
  | Some (mk_thread h (Do c k)) =>
      if of_store c then
        mk_service (sv_world s) (c :: sv_late s) (<[i := mk_thread (h ++ [mk_event c (Err AppInternal)]) (k (Err AppInternal))]> (sv_threads s))
      else s
  | _ => s
  end.
Definition land (s : Service SpineCall (option TrustTaskOutcome)) : Service SpineCall (option TrustTaskOutcome) :=
  match sv_late s with
  | [] => s
  | c :: late => mk_service (exec c (sv_world s)).2 late (sv_threads s)
  end.
Lemma giving_up_steps s i : rtc service_step s (giving_up s i).
Proof.
  unfold giving_up. destruct (sv_threads s !! i) as [[h [r|c k]]|] eqn:Hi; [done| |done].
  destruct (of_store c) eqn:Hc; [|done]. apply rtc_once. destruct s as [w late ts]. simpl in *. by apply step_timed_out.
Qed.
Lemma land_steps s : rtc service_step s (land s).
Proof.
  destruct s as [w [|c late] ts]; unfold land; simpl; [done|]. apply rtc_once. apply (step_late w [] c late ts).
Qed.

Definition given_up : Service SpineCall (option TrustTaskOutcome) :=
  giving_up (serve (start (after_ping 1100) [arrive; arrive; arrive]) (repeat 0 9)%nat) 0.
Definition landed : Service SpineCall (option TrustTaskOutcome) :=
  serve (land (serve given_up (repeat 0 20 ++ repeat 1 40)%nat)) (repeat 2 40)%nat.
Example executed_twice_after_a_late_removal :
  rtc service_step (start (after_ping 1100) [arrive; arrive; arrive]) landed
  ∧ sv_late given_up = [Remove (record_key "i1")] ∧ status landed 0 = Some 503 ∧ ran landed 1 = true ∧ ran landed 2 = true.
Proof.
  split.
  - etrans; [|apply serve_steps]. etrans; [|apply land_steps].
    etrans; [|apply serve_steps]. etrans; [|apply giving_up_steps]. apply serve_steps.
  - split_and!; vm_compute; reflexivity.
Qed.
