(* ===== verification/Sessions.v ===== *)
(** * Sessions

    [vti-common/src/auth/session.rs]: the rows of the sessions keyspace and
    what reads and writes them; and, of [auth/extractor.rs], how a token is
    checked against its session. A session is a row under its id; a challenge
    is such a row under a fresh id, listed by an index of its subject; a
    refresh token is known by its hash alone, in an index to its session, in a
    record of which token is current, and in a tombstone once it is retired.

    The operations are programs of [SessionCall]s, those of the store, of the
    clock and the random source, and of the backend a service injects, whose
    handlers are in [Login]. A key of the keyspace is a text here. *)

From S2P Require Import Prelude Text Json Programs Keyspace Acl.

(** ** Rows *)

Inductive SessionState := ChallengeSent | Authenticated.
#[export] Instance session_state_eq_dec : EqDecision SessionState.
Proof. solve_decision. Defined.

Record Session := mk_session {
  ss_session_id : string;
  ss_did : string;
  ss_challenge : string;
  ss_state : SessionState;
  ss_created_at : Z;
  ss_last_seen : Z;
  ss_refresh_token : option string;
  ss_refresh_expires_at : option Z;
  ss_tee_attested : bool;
  ss_amr : list string;
  ss_acr : string;
  ss_acr_expires_at : option Z;
  ss_token_id : option string;
  ss_session_pubkey : option string;
  ss_not_after : option Z;
}.
#[export] Instance session_eq_dec : EqDecision Session.
Proof. solve_decision. Defined.

Inductive TombstoneCause := Rotated | Superseded.
#[export] Instance cause_eq_dec : EqDecision TombstoneCause.
Proof. solve_decision. Defined.
Record RefreshTombstone := mk_tombstone {
  ts_session_id : string;
  ts_did : string;
  ts_rotated_at : Z;
  ts_expires_at : Z;
  ts_successor_hash : string;
  ts_cause : TombstoneCause;
}.
Record PendingChallengeEntry := mk_pending { pe_created_at : Z; pe_seq : Z }.

(** [serde_json] on the rows. *)
Class SessionSerde := {
  session_to_vec : Session → result AppError bytes;
  session_from_slice : bytes → result AppError Session;
  tombstone_to_vec : RefreshTombstone → result AppError bytes;
  tombstone_from_slice : bytes → result AppError RefreshTombstone;
  pending_to_vec : PendingChallengeEntry → result AppError bytes;
  pending_from_slice : bytes → result AppError PendingChallengeEntry;
}.
Class SessionSerdeLaws `{SessionSerde} := {
  session_roundtrip s b : session_to_vec s = Ok b → session_from_slice b = Ok s;
  tombstone_roundtrip t b : tombstone_to_vec t = Ok b → tombstone_from_slice b = Ok t;
}.

(** [u64::saturating_add]. *)
Definition saturating_add (a b : Z) : Z := Z.min u64_max (a + b).

(** [String::from_utf8]. *)
Definition from_utf8 (b : bytes) : option string :=
  let s := String.string_of_list_byte b in if is_utf8 s then Some s else None.

(** *** A session's times *)

Definition clamp_to_end (s : Session) (at_ : Z) : Z :=
  match ss_not_after s with Some end_ => Z.min at_ end_ | None => at_ end.
Definition past_end (s : Session) (now : Z) : bool :=
  match ss_not_after s with Some end_ => end_ <=? now | None => false end.
Definition elevation_active (s : Session) (now : Z) : bool :=
  match ss_acr_expires_at s with Some deadline => now <? deadline | None => false end.

Definition with_last_seen (now : Z) (s : Session) : Session :=
  mk_session (ss_session_id s) (ss_did s) (ss_challenge s) (ss_state s) (ss_created_at s) now (ss_refresh_token s)
    (ss_refresh_expires_at s) (ss_tee_attested s) (ss_amr s) (ss_acr s) (ss_acr_expires_at s) (ss_token_id s)
    (ss_session_pubkey s) (ss_not_after s).
Definition with_aal (amr : list string) (acr : string) (until : option Z) (s : Session) : Session :=
  mk_session (ss_session_id s) (ss_did s) (ss_challenge s) (ss_state s) (ss_created_at s) (ss_last_seen s)
    (ss_refresh_token s) (ss_refresh_expires_at s) (ss_tee_attested s) amr acr until (ss_token_id s)
    (ss_session_pubkey s) (ss_not_after s).

(** A change to a row, and whether there was any. *)
Definition downgrade_lapsed_elevation (now : Z) (s : Session) : bool * Session :=
  match ss_acr_expires_at s with
  | Some deadline => if deadline <=? now then (true, with_aal ["did"] "aal1" None s) else (false, s)
  | None => (false, s)
  end.
Definition clear_non_passkey_elevation (s : Session) : bool * Session :=
  if bool_decide (ss_acr_expires_at s = None) || bool_decide ("passkey" ∈ ss_amr s) then (false, s)
  else (true, with_aal ["did"] "aal1" None s).

(** *** Keys *)

Definition hex_digit_lower (z : Z) : byte := byte_of_Z (if z <? 10 then 48 + z else 87 + z).
Definition hex_lower (b : bytes) : string :=
  String.string_of_list_byte (concat ((λ x, [hex_digit_lower (Z_of_byte x / 16); hex_digit_lower (Z_of_byte x mod 16)]) <$> b)).

(** Two digits say which byte. *)
Lemma Z_of_byte_inj a b : Z_of_byte a = Z_of_byte b → a = b.
Proof.
  intros Heq%N2Z.inj. apply (f_equal Byte.of_N) in Heq. rewrite !Byte.of_to_N in Heq. by injection Heq.
Qed.
Lemma hex_digit_value a b : 0 ≤ a < 16 → 0 ≤ b < 16 → hex_digit_lower a = hex_digit_lower b → a = b.
Proof.
  intros Ha Hb Heq. apply (f_equal Z_of_byte) in Heq. unfold hex_digit_lower in Heq. rewrite !Z_of_byte_of_Z in Heq.
  revert Heq. destruct (Z.ltb_spec a 10), (Z.ltb_spec b 10); rewrite !(Z.mod_small (_ + _) 256) by lia; lia.
Qed.
Lemma Z_of_byte_range x : 0 ≤ Z_of_byte x < 256.
Proof. unfold Z_of_byte. pose proof (Byte.to_N_bounded x). lia. Qed.
Lemma hex_lower_inj a b : hex_lower a = hex_lower b → a = b.
Proof.
  unfold hex_lower. intros Heq. apply (f_equal String.list_byte_of_string) in Heq.
  rewrite !String.list_byte_of_string_of_list_byte in Heq. revert b Heq.
  induction a as [|x a IH]; intros [|y b]; try done. simpl. intros [= Hhi Hlo Hrest].
  pose proof (Z_of_byte_range x). pose proof (Z_of_byte_range y).
  apply hex_digit_value in Hhi; [|by split; [apply Z.div_pos; lia|apply Z.div_lt_upper_bound; lia]..].
  apply hex_digit_value in Hlo; [|by apply Z.mod_pos_bound..].
  f_equal; [|by apply IH]. apply Z_of_byte_inj.
  rewrite (Z.div_mod (Z_of_byte x) 16), (Z.div_mod (Z_of_byte y) 16) by lia. by rewrite Hhi, Hlo.
Qed.

Section Keys.
Context `{Sha256}.

Definition session_key (session_id : string) : string := "session:" +:+ session_id.
Definition refresh_token_hash (token : string) : string := hex_lower (vec_to_list (sha256 (as_bytes token))).
Definition refresh_key (token : string) : string := "refresh:" +:+ refresh_token_hash token.
Definition current_refresh_key (session_id : string) : string := "refresh-current:" +:+ session_id.
Definition rotated_key (token : string) : string := "rotated:" +:+ refresh_token_hash token.
Definition pending_challenge_prefix (did : string) : string :=
  "pending-challenge:" +:+ hex_lower (vec_to_list (sha256 (as_bytes did))) +:+ ":".
Definition pending_challenge_key (did session_id : string) : string := pending_challenge_prefix did +:+ session_id.

Lemma refresh_key_hash a b : refresh_key a = refresh_key b → sha256 (as_bytes a) = sha256 (as_bytes b).
Proof.
  unfold refresh_key, refresh_token_hash. simpl. intros [= Heq]. by apply vec_to_list_inj2, hex_lower_inj.
Qed.
End Keys.

(** ** Calls *)

(** What a JWT states; [jsonwebtoken] checks its signature, audience and
    expiry. *)
Record Claims := mk_jwt_claims {
  jc_sub : string;
  jc_session_id : string;
  jc_role : string;
  jc_contexts : list string;
  jc_exp : Z;
  jc_iat : Z;
  jc_amr : list string;
  jc_acr : string;
  jc_jti : string;
}.

(** What a service decides: its roles, and how long things last. *)
Class AuthBackend := {
  BackendRole : Type;
  challenge_ttl : Z;
  access_token_ttl : Z;
  access_token_ttl_for_aal2 : Z;
  refresh_token_ttl : Z;
  refresh_reuse_grace : Z;
  didcomm_freshness_window : Z;
  idle_timeout : option Z;
  max_pending_challenges_per_did : nat;
}.

Record RoleResolution `{AuthBackend} := mk_role { rr_role : BackendRole; rr_contexts : list string }.
Arguments mk_role {_} _ _.
Record AttestationOutcome := mk_attestation { ao_report : option Value; ao_attested : bool }.

(** The arguments of [mint_access_token]. *)
Record AccessGrant `{AuthBackend} := mk_grant {
  ag_subject : string;
  ag_session_id : string;
  ag_role : BackendRole;
  ag_contexts : list string;
  ag_amr : list string;
  ag_acr : string;
  ag_tee_attested : bool;
  ag_ttl : Z;
  ag_jti : string;
}.

Arguments mk_grant {_} _ _ _ _ _ _ _ _ _.

Inductive RefreshReuseReason := GraceExpired | ChainAdvanced | SessionGone.
Inductive AuthAuditEvent :=
| ChallengeIssued (did session_id : string)
| AuditAuthenticated (did session_id : string) (amr : list string) (acr : string)
| Refreshed (did old_session_id new_session_id : string) (amr : list string) (acr : string)
| RefreshReuseDetected (did session_id : string) (rotated_at : Z) (reason : RefreshReuseReason)
| RefreshSuperseded (did session_id : string) (rotated_at : Z).

Section Calls.
Context `{AuthBackend}.

Inductive SessionCall :=
(** The sessions keyspace. *)
| ReadRow (k : string)
| TakeRow (k : string)
| PutRow (k : string) (b : bytes)
| RemoveRow (k : string)
| RunBatch (b : Batch)
| ScanRows (prefix : string)
(** The process's clock, random source and counter, and the lock of a
    subject's cap, which is waited for a bounded time. *)
| ReadClock
| NewUuid
| RandomBytes
| NextSeq
| CapLock (did : string)
| CapUnlock (did : string)
(** The backend. *)
| ValidateDid (did : string)
| HasEffectiveEntry (did : string)
| AttestChallenge (challenge : bytes)
| CheckAcl (did : string)
| MintAccessToken (g : AccessGrant)
| AuditAuth (e : AuthAuditEvent)
(** [JwtKeys::decode], where there are keys. *)
| DecodeToken (token : string).

#[export] Instance session_reply : CallType SessionCall := λ c,
  match c with
  | ReadRow _ | TakeRow _ => option bytes
  | RunBatch _ => BatchOutcome
  | ScanRows _ => list (string * bytes)
  | ReadClock | NextSeq => Z
  | NewUuid | MintAccessToken _ => string
  | RandomBytes => bytes
  | HasEffectiveEntry _ => bool
  | AttestChallenge _ => AttestationOutcome
  | CheckAcl _ => RoleResolution
  | DecodeToken _ => Claims
  | PutRow _ _ | RemoveRow _ | CapLock _ | CapUnlock _ | ValidateDid _ | AuditAuth _ => unit
  end%type.
End Calls.
Abbreviation SessionProg := (Prog SessionCall).

Section Sessions.
Context `{AuthBackend, SessionSerde, Sha256}.

(** ** Reading and writing a session *)

(** [Batch::insert]. *)
Definition staged (k : string) (r : result AppError bytes) : result AppError Write := b ← r; mret (Put k b).

(** The index entry of a challenge being written. *)
Definition stage_pending_challenge_index (s : Session) : SessionProg (list Write) :=
  if bool_decide (ss_state s ≠ ChallengeSent) then mret []
  else
    seq ← call NextSeq;
    w ← lift (staged (pending_challenge_key (ss_did s) (ss_session_id s)) (pending_to_vec (mk_pending (ss_created_at s) seq)));
    mret [w].

Definition write_session (s : Session) : SessionProg unit :=
  index ← stage_pending_challenge_index s;
  row ← lift (staged (session_key (ss_session_id s)) (session_to_vec s));
  _ ← call (RunBatch (mk_batch [] (index ++ [row])));
  mret ().
Definition store_session (s : Session) : SessionProg unit := write_session s.
Definition update_session (s : Session) : SessionProg unit := write_session s.

Definition get_session (session_id : string) : SessionProg (option Session) :=
  raw ← call (ReadRow (session_key session_id));
  match raw with
  | None => mret None
  | Some b => s ← lift (session_from_slice b); mret (Some s)
  end.

Definition take_session (session_id : string) : SessionProg (option Session) :=
  raw ← call (TakeRow (session_key session_id));
  match raw with
  | None => mret None
  | Some b =>
      s ← lift (map_err (λ _, AppInternal) (session_from_slice b));
      _ ← call (RemoveRow (pending_challenge_key (ss_did s) session_id));
      mret (Some s)
  end.

(** Put [s] in the row's place while it is still [raw]. *)
Definition replace_if_unchanged (key : string) (raw : bytes) (s : Session) (index : list Write) : SessionProg bool :=
  row ← lift (staged key (session_to_vec s));
  o ← call (RunBatch (mk_batch [Unchanged key raw] (row :: index)));
  mret (is_applied o).

Definition SESSION_WRITE_ATTEMPTS : nat := 64.

(** [update_session_with]'s attempts. *)
Fixpoint update_attempts (n : nat) (session_id : string) (modify : Session → bool * Session)
  : SessionProg (option Session) :=
  match n with
  | O => lift (Err AppConflict)
  | S n =>
      raw ← call (ReadRow (session_key session_id));
      match raw with
      | None => mret None
      | Some b =>
          s ← lift (map_err (λ _, AppInternal) (session_from_slice b));
          let '(changed, s) := modify s in
          if negb changed then mret (Some s)
          else
            (** The row is staged before its index entry. *)
            row ← lift (staged (session_key session_id) (session_to_vec s));
            index ← stage_pending_challenge_index s;
            o ← call (RunBatch (mk_batch [Unchanged (session_key session_id) b] (row :: index)));
            if is_applied o then mret (Some s) else update_attempts n session_id modify
      end
  end.
Definition update_session_with (session_id : string) (modify : Session → bool * Session) : SessionProg (option Session) :=
  update_attempts SESSION_WRITE_ATTEMPTS session_id modify.

(** *** Pending challenges *)

(** Oldest first; those equally old stay as they were. *)
Definition pending_le (a b : Z * Session) : bool :=
  (ss_created_at a.2 <? ss_created_at b.2) || ((ss_created_at a.2 =? ss_created_at b.2) && (a.1 <=? b.1)).
Fixpoint insert_pending (x : Z * Session) (l : list (Z * Session)) : list (Z * Session) :=
  match l with
  | [] => [x]
  | y :: l' => if pending_le x y then x :: l else y :: insert_pending x l'
  end.
Definition sort_pending (l : list (Z * Session)) : list (Z * Session) := foldr insert_pending [] l.

(** The challenges the index entries name. *)
Fixpoint pending_of (did : string) (entries : list (string * bytes)) : SessionProg (list (Z * Session)) :=
  match entries with
  | [] => mret []
  | (k, v) :: rest =>
      match strip_prefix (pending_challenge_prefix did) k with
      | None => pending_of did rest
      | Some session_id =>
          let seq := match pending_from_slice v with Ok e => pe_seq e | Err _ => 0 end in
          s ← get_session session_id;
          pending ← pending_of did rest;
          mret match s with
               | Some s =>
                   if bool_decide (ss_did s = did) && bool_decide (ss_state s = ChallengeSent)
                   then (seq, s) :: pending else pending
               | None => pending
               end
      end
  end.
Definition list_pending_challenges (did : string) : SessionProg (list Session) :=
  entries ← call (ScanRows (pending_challenge_prefix did));
  pending ← pending_of did entries;
  mret (sort_pending pending).*2.

Definition sessions_in (entries : list (string * bytes)) : list Session :=
  omap (λ kv, ok (session_from_slice kv.2)) entries.
Definition count_pending_challenges (did : string) : SessionProg nat :=
  entries ← call (ScanRows "session:");
  mret (length (filter (λ s, ss_did s = did ∧ ss_state s = ChallengeSent) (sessions_in entries))).
Definition list_sessions : SessionProg (list Session) :=
  entries ← call (ScanRows "session:");
  mret (sessions_in entries).

(** *** Activity *)

Definition INTRINSIC_SESSION_IDLE_TTL_SECS : Z := 86400.
Definition LAST_SEEN_GRANULARITY_SECS : Z := 60.

Definition recently_seen (s : Session) (now : Z) : bool := now <? saturating_add (ss_last_seen s) LAST_SEEN_GRANULARITY_SECS.

Definition touch_last_seen (s : Session) (now : Z) : SessionProg bool :=
  if recently_seen s now then mret false
  else
    let key := session_key (ss_session_id s) in
    raw ← call (ReadRow key);
    match raw with
    | None => mret false
    | Some b =>
        current ← lift (map_err (λ _, AppInternal) (session_from_slice b));
        if recently_seen current now then mret false
        else replace_if_unchanged key b (with_last_seen now current) []
    end.

(** The session of a caller that messages, at its first message. *)
Definition intrinsic_session (did : string) (now : Z) : Session :=
  mk_session did did "" Authenticated now now None None false ["did"] "aal1" None None None None.

Fixpoint resolve_attempts (n : nat) (did : string) (now : Z) : SessionProg Session :=
  match n with
  | O => lift (Err AppConflict)
  | S n =>
      known ← update_session_with did (λ s, (true, (downgrade_lapsed_elevation now (with_last_seen now s)).2));
      match known with
      | Some s => mret s
      | None =>
          let s := intrinsic_session did now in
          row ← lift (staged (session_key did) (session_to_vec s));
          o ← call (RunBatch (mk_batch [Absent (session_key did)] [row]));
          if is_applied o then mret s else resolve_attempts n did now
      end
  end.
Definition resolve_did_session (did : string) (now : Z) : SessionProg Session :=
  resolve_attempts SESSION_WRITE_ATTEMPTS did now.

(** *** Refresh tokens *)

Definition store_refresh_index (token session_id : string) : SessionProg unit :=
  _ ← call (RunBatch (mk_batch [] [
         Put (current_refresh_key session_id) (as_bytes (refresh_token_hash token));
         Put (refresh_key token) (as_bytes session_id)]));
  mret ().

Definition text_row (raw : option bytes) : SessionProg (option string) :=
  match raw with
  | None => mret None
  | Some b => s ← lift (ok_or (from_utf8 b) AppInternal); mret (Some s)
  end.
Definition current_refresh_hash (session_id : string) : SessionProg (option string) :=
  raw ← call (ReadRow (current_refresh_key session_id)); text_row raw.
Definition get_session_by_refresh (token : string) : SessionProg (option string) :=
  raw ← call (ReadRow (refresh_key token)); text_row raw.
Definition delete_refresh_index (token : string) : SessionProg unit := call (RemoveRow (refresh_key token)).
Definition take_session_id_by_refresh (token : string) : SessionProg (option string) :=
  raw ← call (TakeRow (refresh_key token)); text_row raw.

Definition store_refresh_tombstone (token : string) (t : RefreshTombstone) : SessionProg unit :=
  b ← lift (tombstone_to_vec t); _ ← call (PutRow (rotated_key token) b); mret ().
Definition get_refresh_tombstone (token : string) : SessionProg (option RefreshTombstone) :=
  raw ← call (ReadRow (rotated_key token));
  match raw with
  | None => mret None
  | Some b => t ← lift (tombstone_from_slice b); mret (Some t)
  end.

(** *** Removal *)

Definition stage_session_removal (s : Session) : list Write :=
  match ss_refresh_token s with Some token => [Delete (refresh_key token)] | None => [] end
  ++ [Delete (current_refresh_key (ss_session_id s));
      Delete (pending_challenge_key (ss_did s) (ss_session_id s));
      Delete (session_key (ss_session_id s))].

Definition delete_session (session_id : string) : SessionProg unit :=
  s ← get_session session_id;
  match s with
  | None => mret ()
  | Some s => _ ← call (RunBatch (mk_batch [] (stage_session_removal s))); mret ()
  end.

(** ** The sweep *)

Definition refresh_lapsed (s : Session) (now : Z) : bool :=
  match ss_refresh_expires_at s with Some expires => expires <? now | None => true end.
Definition session_expired (ttl now : Z) (s : Session) : bool :=
  match ss_state s with
  | ChallengeSent => ttl <? u64_saturating_sub now (ss_created_at s)
  | Authenticated =>
      match ss_refresh_token s with
      | Some _ => refresh_lapsed s now
      | None =>
          if bool_decide (ss_session_id s = ss_did s)
          then INTRINSIC_SESSION_IDLE_TTL_SECS <? u64_saturating_sub now (Z.max (ss_last_seen s) (ss_created_at s))
          else refresh_lapsed s now
      end
  end.

(** The ids of the sessions left. *)
Fixpoint sweep_sessions (ttl now : Z) (entries : list (string * bytes)) (live : gset string) : SessionProg (gset string) :=
  match entries with
  | [] => mret live
  | (k, v) :: rest =>
      match session_from_slice v with
      | Err _ => sweep_sessions ttl now rest live
      | Ok s =>
          if session_expired ttl now s then
            o ← call (RunBatch (mk_batch [Unchanged k v] (stage_session_removal s)));
            sweep_sessions ttl now rest (if is_applied o then live else {[ss_session_id s]} ∪ live)
          else sweep_sessions ttl now rest ({[ss_session_id s]} ∪ live)
      end
  end.

(** Remove the rows [orphan] finds, one by one. *)
Fixpoint sweep_where (orphan : string * bytes → SessionProg bool) (entries : list (string * bytes)) : SessionProg unit :=
  match entries with
  | [] => mret ()
  | e :: rest =>
      gone ← orphan e;
      if gone : bool then _ ← call (RemoveRow e.1); sweep_where orphan rest else sweep_where orphan rest
  end.

(** An index entry whose token its session does not currently issue. *)
Definition refresh_orphan (e : string * bytes) : SessionProg bool :=
  match from_utf8 e.2 with
  | None => mret true
  | Some session_id =>
      row ← get_session session_id;
      match row with
      | None => mret true
      | Some row =>
          current ← current_refresh_hash session_id;
          mret (negb match current with
                     | Some hash => bool_decide ("refresh:" +:+ hash = e.1)
                     | None => match ss_refresh_token row with
                               | Some live => bool_decide (refresh_key live = e.1)
                               | None => false
                               end
                     end)
      end
  end.
Definition current_orphan (e : string * bytes) : SessionProg bool :=
  match strip_prefix "refresh-current:" e.1 with
  | None => mret true
  | Some session_id => raw ← call (ReadRow (session_key session_id)); mret (bool_decide (raw = None))
  end.
Definition pending_lapsed (ttl now : Z) (e : string * bytes) : SessionProg bool :=
  let created_at := match pending_from_slice e.2 with Ok p => pe_created_at p | Err _ => 0 end in
  mret (ttl <? u64_saturating_sub now created_at).
Definition nonce_orphan (live : gset string) (e : string * bytes) : SessionProg bool :=
  mret match from_utf8 e.2 with Some session_id => bool_decide (session_id ∉ live) | None => true end.
Definition tombstone_lapsed (now : Z) (e : string * bytes) : SessionProg bool :=
  mret match tombstone_from_slice e.2 with Ok t => ts_expires_at t <? now | Err _ => true end.

Definition cleanup_expired_sessions (ttl : Z) : SessionProg unit :=
  entries ← call (ScanRows "session:");
  now ← call ReadClock;
  live ← sweep_sessions ttl now entries ∅;
  refresh ← call (ScanRows "refresh:");
  _ ← sweep_where refresh_orphan refresh;
  current ← call (ScanRows "refresh-current:");
  _ ← sweep_where current_orphan current;
  pending ← call (ScanRows "pending-challenge:");
  _ ← sweep_where (pending_lapsed ttl now) pending;
  nonces ← call (ScanRows "nonce:");
  _ ← sweep_where (nonce_orphan live) nonces;
  tombstones ← call (ScanRows "rotated:");
  sweep_where (tombstone_lapsed now) tombstones.

(** ** Elevation, by other parts of the services *)

(** [trust_tasks/step_up.rs]: an approved step-up. *)
Definition STEP_UP_ELEVATION_TTL_SECS : Z := 900.
Definition push_factor (factor : string) (amr : list string) : list string :=
  if bool_decide (factor ∈ amr) then amr else amr ++ [factor].
Definition elevate (factor target : string) (until : Z) (s : Session) : bool * Session :=
  (true, with_aal (push_factor factor (ss_amr s)) target (Some until) s).
Definition step_up (session_id factor target : string) : SessionProg (option Session) :=
  now ← call ReadClock;
  update_session_with session_id (elevate factor target (saturating_add now STEP_UP_ELEVATION_TTL_SECS)).

(** [operations/passkey_vms]: the subject now has a passkey. *)
Definition clear_if_of (did : string) (s : Session) : bool * Session :=
  if bool_decide (ss_did s = did) then clear_non_passkey_elevation s else (false, s).
Fixpoint clear_each (did : string) (l : list Session) : SessionProg unit :=
  match l with
  | [] => mret ()
  | s :: rest => _ ← update_session_with (ss_session_id s) (clear_if_of did); clear_each did rest
  end.
Definition clear_non_passkey_elevation_for_did (did : string) : SessionProg unit :=
  l ← list_sessions;
  clear_each did (filter (λ s, ss_did s = did) l).

(** ** Authenticating a token ([extractor.rs]) *)

Definition authenticate_token (token : string) : SessionProg (AuthClaims * Session) :=
  claims ← call (DecodeToken token);
  found ← get_session (jc_session_id claims);
  s ← lift (ok_or found AppUnauthorized);
  _ ← refuse_if (bool_decide (ss_state s ≠ Authenticated)) AppUnauthorized;
  _ ← refuse_if match ss_token_id s with Some pinned => bool_decide (jc_jti claims ≠ pinned) | None => false end
        AppUnauthorized;
  role ← lift (role_parse (jc_role claims));
  mret (mk_claims (jc_sub claims) role (jc_contexts claims) (jc_session_id claims) (jc_exp claims) (jc_iat claims)
          (jc_amr claims) (jc_acr claims), s).

(** The clock is read where the level is reached. *)
Definition check_fresh_step_up (s : Session) : SessionProg unit :=
  _ ← refuse_if (bool_decide (ss_acr s ≠ "aal2")) AppStepUpRequired;
  now ← call ReadClock;
  refuse_if (negb (elevation_active s now)) AppStepUpRequired.
(** [StepUpAuth]. *)
Definition step_up_auth (token : string) : SessionProg AuthClaims :=
  r ← authenticate_token token;
  _ ← check_fresh_step_up r.2;
  mret r.1.
End Sessions.

(** ** The calls, done *)

(** What a backend answers, left to itself. *)
Class AuthHost `{AuthBackend} := {
  host_validate_did : string → result AppError unit;
  host_entry : string → bool;
  host_attest : bytes → result AppError AttestationOutcome;
  host_acl : string → result AppError RoleResolution;
  host_mint : AccessGrant → result AppError string;
  host_decode : string → result AppError Claims;
}.
(** What a random source gives at each draw: version 4 UUIDs, no two alike. *)
Class RandomSource := { uuid : nat → string; random_bytes : nat → bytes }.
Class RandomLaws `{RandomSource} := #[global] uuid_inj :: Inj eq eq uuid.

Record AuthWorld := mk_auth_world {
  aw_rows : Rows;
  aw_now : Z;
  aw_drawn : nat;
  aw_seq : Z;
  aw_caps : gset string;
  aw_audit : list AuthAuditEvent;
}.
Definition with_auth_rows (m : Rows) (w : AuthWorld) : AuthWorld :=
  mk_auth_world m (aw_now w) (aw_drawn w) (aw_seq w) (aw_caps w) (aw_audit w).
Definition with_caps (s : gset string) (w : AuthWorld) : AuthWorld :=
  mk_auth_world (aw_rows w) (aw_now w) (aw_drawn w) (aw_seq w) s (aw_audit w).
Definition draw (w : AuthWorld) : AuthWorld :=
  mk_auth_world (aw_rows w) (aw_now w) (S (aw_drawn w)) (aw_seq w) (aw_caps w) (aw_audit w).

Section Semantics.
Context `{AuthBackend, !AuthHost, RandomSource}.

Definition session_ready (c : SessionCall) (w : AuthWorld) : bool :=
  match c with CapLock did => bool_decide (did ∉ aw_caps w) | _ => true end.

Definition session_exec (c : SessionCall) (w : AuthWorld) : result AppError (Reply c) * AuthWorld :=
  match c with
  | ReadRow k => (Ok (aw_rows w !! k), w)
  | TakeRow k => (Ok (aw_rows w !! k), with_auth_rows (delete k (aw_rows w)) w)
  | PutRow k b => (Ok (), with_auth_rows (<[k := b]> (aw_rows w)) w)
  | RemoveRow k => (Ok (), with_auth_rows (delete k (aw_rows w)) w)
  | RunBatch b => let '(r, m) := apply_batch b (aw_rows w) in (r, with_auth_rows m w)
  | ScanRows p => (Ok (filter (λ kv, starts_with p kv.1 = true) (sorted_members (aw_rows w))), w)
  | ReadClock => (Ok (aw_now w), w)
  | NewUuid => (Ok (uuid (aw_drawn w)), draw w)
  | RandomBytes => (Ok (random_bytes (aw_drawn w)), draw w)
  | NextSeq => (Ok (aw_seq w), mk_auth_world (aw_rows w) (aw_now w) (aw_drawn w) ((aw_seq w + 1) mod 2 ^ 64) (aw_caps w) (aw_audit w))
  | CapLock did => (Ok (), with_caps ({[did]} ∪ aw_caps w) w)
  | CapUnlock did => (Ok (), with_caps (aw_caps w ∖ {[did]}) w)
  | ValidateDid did => (host_validate_did did, w)
  | HasEffectiveEntry did => (Ok (host_entry did), w)
  | AttestChallenge b => (host_attest b, w)
  | CheckAcl did => (host_acl did, w)
  | MintAccessToken g => (host_mint g, w)
  | AuditAuth e => (Ok (), mk_auth_world (aw_rows w) (aw_now w) (aw_drawn w) (aw_seq w) (aw_caps w) (aw_audit w ++ [e]))
  | DecodeToken t => (host_decode t, w)
  end.

(** The store's operations may fail, and be given up on and done later. *)
Definition of_sessions (c : SessionCall) : bool :=
  match c with
  | ReadRow _ | TakeRow _ | PutRow _ _ | RemoveRow _ | RunBatch _ | ScanRows _ => true
  | _ => false
  end.
(** The backend may answer as it likes. *)
Definition of_backend (c : SessionCall) : bool :=
  match c with
  | ValidateDid _ | HasEffectiveEntry _ | AttestChallenge _ | CheckAcl _ | MintAccessToken _ | DecodeToken _ => true
  | _ => false
  end.
(** The wait for a cap's lock may end without it. *)
Definition session_may_fail (c : SessionCall) : bool :=
  of_sessions c
  || match c with
     | CapLock _ | ValidateDid _ | AttestChallenge _ | CheckAcl _ | MintAccessToken _ | DecodeToken _ => true
     | _ => false
     end.

Definition session_glitch (c : SessionCall) (w : AuthWorld) (r : result AppError (Reply c)) (w' : AuthWorld) : Prop :=
  w' = w ∧ match r with Err _ => session_may_fail c = true | Ok _ => of_backend c = true end.

(** Others leave the keyspace alone, and draw what no one draws again. A new
    process has no locks, and counts its challenges afresh. *)
#[export] Instance session_calls : CallSemantics SessionCall := {|
  World := AuthWorld;
  ready := session_ready;
  exec := session_exec;
  glitch := session_glitch;
  outlives c := of_sessions c = true;
  elsewhere w w' := aw_rows w' = aw_rows w ∧ aw_caps w' = aw_caps w ∧ (aw_drawn w ≤ aw_drawn w')%nat;
  restarted w := mk_auth_world (aw_rows w) (aw_now w) (aw_drawn w) 0 ∅ (aw_audit w);
|}.
End Semantics.
