(* ===== verification/Login.v ===== *)
(** * Logging in, and staying logged in

    [vti-common/src/auth]: the errors and inputs of [backend.rs], the store of
    sessions its handlers are written against with [handlers/store.rs]'s over a
    keyspace, and the three handlers: a challenge is issued
    ([handlers/challenge.rs]), redeemed for a session and its tokens
    ([handlers/authenticate.rs], [handlers/mint.rs]), and the tokens are
    rotated ([handlers/refresh.rs]); for a backend whose errors are
    [AppError]s, as the agent's and the communities' are. *)

From S2P Require Import Prelude Text Json Host Programs Keyspace Acl Sessions.

(** ** Errors and inputs ([backend.rs]) *)

Module AuthError.
Inductive AuthError :=
| Forbidden | DidMethodRejected | PendingChallengeLimitReached | SessionNotFound | SessionStateMismatch
| ChallengeMismatch | ChallengeExpired | SignerMismatch | MissingRecipient | WrongRecipient (recipient own : string)
| StaleMessage | RefreshTokenInvalid | RefreshTokenExpired | SessionIdleTimeout | AttestationFailed | Internal.
#[export] Instance eq_dec : EqDecision AuthError.
Proof. solve_decision. Defined.
End AuthError.

(** [From<AuthError> for AppError], without words. *)
Definition auth_error (e : AuthError.AuthError) : AppError :=
  match e with
  | AuthError.Forbidden | AuthError.DidMethodRejected => AppForbidden
  | AuthError.PendingChallengeLimitReached | AuthError.MissingRecipient => AppValidation
  | AuthError.SessionNotFound | AuthError.SessionStateMismatch | AuthError.ChallengeMismatch
  | AuthError.ChallengeExpired | AuthError.SignerMismatch | AuthError.StaleMessage | AuthError.RefreshTokenInvalid
  | AuthError.RefreshTokenExpired | AuthError.SessionIdleTimeout | AuthError.WrongRecipient _ _ => AppAuthentication
  | AuthError.AttestationFailed | AuthError.Internal => AppInternal
  end.

Record ChallengeInput := mk_challenge_input { ci_did : string; ci_session_pubkey : option string }.

Inductive AudienceBinding :=
| AudienceTransport
| AudienceRecipient (recipient own_did : option string).
Definition check_audience (a : AudienceBinding) : result AuthError.AuthError unit :=
  match a with
  | AudienceTransport => Ok ()
  | AudienceRecipient recipient own_did =>
      own ← ok_or own_did AuthError.Internal;
      match recipient with
      | None => Err AuthError.MissingRecipient
      | Some r => if bool_decide (r = own) then Ok () else Err (AuthError.WrongRecipient r own)
      end
  end.

Record AuthenticateInput := mk_authenticate_input {
  ai_session_id : string;
  ai_challenge : string;
  ai_signer_did : string;
  ai_created_time : option Z;
  ai_session_pubkey : option string;
  ai_audience : AudienceBinding;
}.
Record RefreshInput := mk_refresh_input { ri_refresh_token : string; ri_signer_did : option string }.

(** ** Answers ([vta-sdk/src/protocols/auth.rs]) *)

Record ChallengeResponse := mk_challenge_response {
  cr_challenge : string;
  cr_session_id : string;
  cr_expires_at : string;
  cr_tee_attestation : option Value;
}.
Record WireSession := mk_wire_session {
  ws_id : string;
  ws_subject : string;
  ws_issued_at : string;
  ws_expires_at : string;
  ws_amr : list string;
  ws_acr : string;
}.
Record TokenBundle := mk_tokens {
  tb_access_token : string;
  tb_refresh_token : option string;
  tb_token_type : string;
  tb_expires_in : Z;
  tb_refresh_expires_in : option Z;
  tb_scope : list string;
}.
Record AuthenticateResponse := mk_auth_response { rs_session : WireSession; rs_tokens : TokenBundle }.

Section Login.
Context `{AuthBackend, SessionSerde, Sha256, Chrono}.

(** Epoch seconds as text; out of [chrono]'s range, the epoch's. *)
Definition MAX_TIMESTAMP : Z := 8210266876799.
Definition epoch_to_rfc3339 (epoch_secs : Z) : string :=
  let secs := if epoch_secs <=? i64_max then epoch_secs else 0 in
  if secs <=? MAX_TIMESTAMP then rfc3339_secs (secs * NANOS) else "1970-01-01T00:00:00Z".

(** [amr] and [acr] carry over; a row from before them has one factor. *)
Definition refresh_amr_acr (s : Session) : list string * string :=
  if bool_decide (ss_amr s = []) then (["did"], "aal1") else (ss_amr s, ss_acr s).

Definition check_freshness (created_time : option Z) (session_created_at now window : Z) : result AuthError.AuthError unit :=
  match created_time with
  | None => Ok ()
  | Some ct =>
      if ct <? session_created_at then Err AuthError.StaleMessage
      else if window <? u64_saturating_sub now ct then Err AuthError.StaleMessage
      else Ok ()
  end.

(** Every byte is looked at. *)
Definition constant_time_challenge_eq (a b : string) : bool :=
  let a := as_bytes a in
  let b := as_bytes b in
  if negb (Nat.eqb (length a) (length b)) then false
  else fold_left (λ diff xy, Z.lor diff (Z.lxor (Z_of_byte xy.1) (Z_of_byte xy.2))) (zip a b) 0 =? 0.

(** ** The store of sessions, as the handlers see it *)

Record SessionStore := mk_session_store {
  st_store_session : Session → SessionProg unit;
  st_get_session : string → SessionProg (option Session);
  st_delete_session : string → SessionProg unit;
  st_take_session : string → SessionProg (option Session);
  st_store_refresh_index : string → string → SessionProg unit;
  st_take_session_id_by_refresh : string → SessionProg (option string);
  st_current_refresh_hash : string → SessionProg (option string);
  st_store_refresh_tombstone : string → RefreshTombstone → SessionProg unit;
  st_get_refresh_tombstone : string → SessionProg (option RefreshTombstone);
  st_count_pending_challenges : string → SessionProg nat;
  st_pending_challenges : string → SessionProg (option (list Session));
  st_touch_session : string → Z → SessionProg unit;
}.

Definition touch_session (session_id : string) (at_ : Z) : SessionProg unit :=
  row ← get_session session_id;
  match row with
  | None => mret ()
  | Some row => _ ← touch_last_seen row at_; mret ()
  end.

Definition keyspace_session_store : SessionStore := {|
  st_store_session := store_session;
  st_get_session := get_session;
  st_delete_session := delete_session;
  st_take_session := take_session;
  st_store_refresh_index := store_refresh_index;
  st_take_session_id_by_refresh := take_session_id_by_refresh;
  st_current_refresh_hash := current_refresh_hash;
  st_store_refresh_tombstone := store_refresh_tombstone;
  st_get_refresh_tombstone := get_refresh_tombstone;
  st_count_pending_challenges := count_pending_challenges;
  st_pending_challenges did := pending ← list_pending_challenges did; mret (Some pending);
  st_touch_session := touch_session;
|}.

Context (sessions : SessionStore).

(** [map_err(AuthError::Internal)?] *)
Definition internal {A} (p : SessionProg A) : SessionProg A := then_do p (λ r, lift (map_err (λ _, auth_error AuthError.Internal) r)).
(** [Err(e.into())] *)
Definition auth_fails {A} (e : AuthError.AuthError) : SessionProg A := lift (Err (auth_error e)).
Definition auth_refuse (c : bool) (e : AuthError.AuthError) : SessionProg unit := refuse_if c (auth_error e).
(** [tracing::error!] and go on. *)
Definition logged {A} (p : SessionProg A) : SessionProg (result AppError A) := then_do p (λ r, mret r).

(** ** A challenge *)

(** The lock is given back however [p] ends. *)
Definition with_cap {A} (did : string) (p : SessionProg A) : SessionProg A :=
  _ ← internal (call (CapLock did));
  then_do p (λ r, _ ← call (CapUnlock did); lift r).

Fixpoint delete_all (l : list Session) : SessionProg unit :=
  match l with
  | [] => mret ()
  | s :: rest => _ ← internal (st_delete_session sessions (ss_session_id s)); delete_all rest
  end.

Definition challenge_lapsed (now : Z) (s : Session) : bool := challenge_ttl <? u64_saturating_sub now (ss_created_at s).

(** Those to evict so that one more is within [limit]. *)
Definition evicted (limit : nat) (now : Z) (pending : list Session) : list Session :=
  let expired := filter (λ s, challenge_lapsed now s = true) pending in
  let live := filter (λ s, challenge_lapsed now s = false) pending in
  expired ++ take (length live + 1 - limit) live.

Definition make_room_for_challenge (did : string) (limit : nat) : SessionProg unit :=
  listed ← internal (st_pending_challenges sessions did);
  match listed with
  | None =>
      n ← internal (st_count_pending_challenges sessions did);
      auth_refuse (limit <=? n)%nat AuthError.PendingChallengeLimitReached
  | Some pending =>
      now ← call ReadClock;
      delete_all (evicted limit now pending)
  end.

Definition handle_challenge (input : ChallengeInput) : SessionProg ChallengeResponse :=
  _ ← call (ValidateDid (ci_did input));
  enrolled ← call (HasEffectiveEntry (ci_did input));
  random ← call RandomBytes;
  let challenge := hex_lower random in
  session_id ← call NewUuid;
  attestation ← call (AttestChallenge random);
  created_at ← call ReadClock;
  let session := mk_session session_id (ci_did input) challenge ChallengeSent created_at created_at None None
                   (ao_attested attestation) [] "" None None (ci_session_pubkey input) None in
  _ ← (if enrolled : bool then
         with_cap (ci_did input) (
           _ ← (if (0 <? max_pending_challenges_per_did)%nat
                then make_room_for_challenge (ci_did input) max_pending_challenges_per_did
                else mret ());
           _ ← internal (st_store_session sessions session);
           call (AuditAuth (ChallengeIssued (ci_did input) session_id)))
       else mret ());
  mret (mk_challenge_response challenge session_id (epoch_to_rfc3339 (saturating_add created_at challenge_ttl))
          (ao_report attestation)).

(** ** Minting ([mint.rs]) *)

Record MintedTokens := mk_minted {
  mt_access_token : string;
  mt_refresh_token : string;
  mt_access_ttl : Z;
  mt_access_expires_at : Z;
  mt_refresh_expires_at : Z;
  mt_issued_at : Z;
  mt_token_id : string;
}.

(** The access token's life at an assurance level, ending by [not_after]. *)
Definition ttl_for (acr : string) : Z := if bool_decide (acr = "aal2") then access_token_ttl_for_aal2 else access_token_ttl.
Definition ttl_until (not_after : option Z) (now ttl : Z) : Z :=
  match not_after with Some end_ => Z.min ttl (u64_saturating_sub end_ now) | None => ttl end.

Definition mint_session_tokens_until (did session_id : string) (role : BackendRole) (contexts amr : list string)
  (acr : string) (tee_attested : bool) (not_after : option Z) : SessionProg MintedTokens :=
  now ← call ReadClock;
  let access_ttl := ttl_until not_after now (ttl_for acr) in
  refresh_token ← call NewUuid;
  token_id ← call NewUuid;
  let refresh_expires_at := saturating_add now refresh_token_ttl in
  let refresh_expires_at := match not_after with Some end_ => Z.min refresh_expires_at end_ | None => refresh_expires_at end in
  access_token ← call (MintAccessToken (mk_grant did session_id role contexts amr acr tee_attested access_ttl token_id));
  _ ← call (AuditAuth (AuditAuthenticated did session_id amr acr));
  mret (mk_minted access_token refresh_token access_ttl (saturating_add now access_ttl) refresh_expires_at now token_id).
Definition mint_session_tokens (did session_id : string) (role : BackendRole) (contexts amr : list string)
  (acr : string) (tee_attested : bool) : SessionProg MintedTokens :=
  mint_session_tokens_until did session_id role contexts amr acr tee_attested None.

Definition scope_of (contexts : list string) : list string := (λ c, "ctx:" +:+ c) <$> contexts.

(** ** Authentication *)

(** The challenge an input redeems, from its row, up to its claim. *)
Definition redeem_challenge (input : AuthenticateInput) : SessionProg (Session * Z) :=
  _ ← lift (map_err auth_error (check_audience (ai_audience input)));
  found ← internal (st_get_session sessions (ai_session_id input));
  session ← lift (ok_or found (auth_error AuthError.SessionNotFound));
  _ ← auth_refuse (bool_decide (ss_state session ≠ ChallengeSent)) AuthError.SessionStateMismatch;
  _ ← auth_refuse (negb (constant_time_challenge_eq (ss_challenge session) (ai_challenge input))) AuthError.ChallengeMismatch;
  _ ← auth_refuse (bool_decide (ss_did session ≠ ai_signer_did input)) AuthError.SignerMismatch;
  now ← call ReadClock;
  _ ← auth_refuse (challenge_lapsed now session) AuthError.ChallengeExpired;
  _ ← lift (map_err auth_error (check_freshness (ai_created_time input) (ss_created_at session) now didcomm_freshness_window));
  taken ← internal (st_take_session sessions (ai_session_id input));
  _ ← auth_refuse (bool_decide (taken = None)) AuthError.SessionStateMismatch;
  mret (session, now).

(** The token of the session's a login replaces. *)
Definition retire_superseded (did : string) (now : Z) (successor superseded : string) : SessionProg unit :=
  claimed ← logged (st_take_session_id_by_refresh sessions superseded);
  match claimed with
  | Ok (Some _) =>
      _ ← logged (st_store_refresh_tombstone sessions superseded
            (mk_tombstone did did now (saturating_add now refresh_token_ttl) (refresh_token_hash successor) Superseded));
      mret ()
  | _ => mret ()
  end.

Definition handle_authenticate_with_aal (input : AuthenticateInput) (amr : list string) (acr : string)
  : SessionProg AuthenticateResponse :=
  redeemed ← redeem_challenge input;
  let session : Session := redeemed.1 in
  let now : Z := redeemed.2 in
  let did := ss_did session in
  role ← call (CheckAcl did);
  minted ← mint_session_tokens did did (rr_role role) (rr_contexts role) amr acr (ss_tee_attested session);
  prior ← internal (st_get_session sessions did);
  let superseded := p ← prior; ss_refresh_token p in
  _ ← internal (st_store_session sessions (mk_session did did "" Authenticated now now (Some (mt_refresh_token minted))
         (Some (mt_refresh_expires_at minted)) (ss_tee_attested session) amr acr None (Some (mt_token_id minted))
         (match ai_session_pubkey input with Some k => Some k | None => ss_session_pubkey session end) None));
  _ ← internal (st_store_refresh_index sessions (mt_refresh_token minted) did);
  _ ← match superseded with
      | Some old => retire_superseded did now (mt_refresh_token minted) old
      | None => mret ()
      end;
  mret (mk_auth_response
    (mk_wire_session did did (epoch_to_rfc3339 (mt_issued_at minted)) (epoch_to_rfc3339 (mt_access_expires_at minted)) amr acr)
    (mk_tokens (mt_access_token minted) (Some (mt_refresh_token minted)) "Bearer" (mt_access_ttl minted)
       (Some refresh_token_ttl) (scope_of (rr_contexts role)))).

Definition DEFAULT_AMR : list string := ["did"].
Definition DEFAULT_ACR : string := "aal1".
Definition handle_authenticate (input : AuthenticateInput) : SessionProg AuthenticateResponse :=
  handle_authenticate_with_aal input DEFAULT_AMR DEFAULT_ACR.

(** ** Refresh *)

Definition clamped_access_ttl (acr : string) (s : Session) (now : Z) : Z := ttl_until (ss_not_after s) now (ttl_for acr).

Definition is_innocent_retry (s : Session) (t : RefreshTombstone) (now grace : Z) : bool :=
  bool_decide (ts_cause t = Rotated) && bool_decide (ss_state s = Authenticated)
  && (u64_saturating_sub now (ts_rotated_at t) <? grace)
  && match ss_refresh_token s with
     | Some live => bool_decide (refresh_token_hash live = ts_successor_hash t)
     | None => false
     end.

Definition replay_rotation (s : Session) (now : Z) : SessionProg AuthenticateResponse :=
  _ ← auth_refuse (past_end s now) AuthError.RefreshTokenExpired;
  let amr := (refresh_amr_acr s).1 in
  let acr := (refresh_amr_acr s).2 in
  role ← call (CheckAcl (ss_did s));
  let access_ttl := clamped_access_ttl acr s now in
  match ss_refresh_token s, ss_token_id s with
  | Some refresh_token, Some token_id =>
      access_token ← call (MintAccessToken (mk_grant (ss_did s) (ss_session_id s) (rr_role role) (rr_contexts role) amr acr
                             (ss_tee_attested s) access_ttl token_id));
      _ ← call (AuditAuth (Refreshed (ss_did s) (ss_session_id s) (ss_session_id s) amr acr));
      mret (mk_auth_response
        (mk_wire_session (ss_session_id s) (ss_did s) (epoch_to_rfc3339 now) (epoch_to_rfc3339 (saturating_add now access_ttl)) amr acr)
        (mk_tokens access_token (Some refresh_token) "Bearer" access_ttl
           ((λ expires, u64_saturating_sub expires now) <$> ss_refresh_expires_at s) (scope_of (rr_contexts role))))
  | _, _ => auth_fails AuthError.RefreshTokenInvalid
  end.

(** A retired token, and no retry: a newer login's is refused, a spent one is
    reuse and ends the session. *)
Definition refuse_retired (t : RefreshTombstone) (session : option Session) (now : Z) : SessionProg AuthenticateResponse :=
  if bool_decide (ts_cause t = Superseded) then
    _ ← call (AuditAuth (RefreshSuperseded (ts_did t) (ts_session_id t) (ts_rotated_at t)));
    auth_fails AuthError.RefreshTokenInvalid
  else
    let reason := match session with
                  | None => SessionGone
                  | Some _ => if refresh_reuse_grace <=? u64_saturating_sub now (ts_rotated_at t)
                              then GraceExpired else ChainAdvanced
                  end in
    _ ← match session with Some _ => _ ← logged (st_delete_session sessions (ts_session_id t)); mret () | None => mret () end;
    _ ← call (AuditAuth (RefreshReuseDetected (ts_did t) (ts_session_id t) (ts_rotated_at t) reason));
    auth_fails AuthError.RefreshTokenInvalid.

Definition handle_unclaimed_refresh (input : RefreshInput) : SessionProg AuthenticateResponse :=
  found ← internal (st_get_refresh_tombstone sessions (ri_refresh_token input));
  t ← lift (ok_or found (auth_error AuthError.RefreshTokenInvalid));
  session ← internal (st_get_session sessions (ts_session_id t));
  now ← call ReadClock;
  match session with
  | Some s =>
      if is_innocent_retry s t now refresh_reuse_grace then
        _ ← auth_refuse match ri_signer_did input with Some signer => bool_decide (signer ≠ ss_did s) | None => false end
              AuthError.SignerMismatch;
        replay_rotation s now
      else refuse_retired t session now
  | None => refuse_retired t session now
  end.

(** The claimed token is not the one its session issues. *)
Definition refuse_superseded (token : string) (s : Session) (current : option string) : SessionProg unit :=
  now ← call ReadClock;
  _ ← logged (st_store_refresh_tombstone sessions token
        (mk_tombstone (ss_session_id s) (ss_did s) now (saturating_add now refresh_token_ttl) (default "" current) Superseded));
  _ ← call (AuditAuth (RefreshSuperseded (ss_did s) (ss_session_id s) now));
  auth_fails AuthError.RefreshTokenInvalid.

Definition idle (s : Session) (now : Z) : bool :=
  match idle_timeout with
  | Some idle_ttl =>
      let last_activity := if ss_last_seen s =? 0 then ss_created_at s else ss_last_seen s in
      idle_ttl <? u64_saturating_sub now last_activity
  | None => false
  end.

(** Whether the session a current token names may be renewed now. *)
Definition renewable (input : RefreshInput) (s : Session) : SessionProg Z :=
  _ ← auth_refuse match ri_signer_did input with Some signer => bool_decide (signer ≠ ss_did s) | None => false end
        AuthError.SignerMismatch;
  _ ← auth_refuse (bool_decide (ss_state s ≠ Authenticated)) AuthError.SessionStateMismatch;
  now ← call ReadClock;
  _ ← auth_refuse match ss_refresh_expires_at s with Some expires_at => expires_at <? now | None => false end
        AuthError.RefreshTokenExpired;
  _ ← auth_refuse (past_end s now) AuthError.RefreshTokenExpired;
  _ ← auth_refuse (idle s now) AuthError.SessionIdleTimeout;
  mret now.

(** Steps 6 to 10. *)
Definition rotate (token : string) (old : Session) (now : Z) : SessionProg AuthenticateResponse :=
  let amr := (refresh_amr_acr old).1 in
  let acr := (refresh_amr_acr old).2 in
  role ← call (CheckAcl (ss_did old));
  new_refresh_token ← call NewUuid;
  new_token_id ← call NewUuid;
  let new_refresh_expires_at := clamp_to_end old (saturating_add now refresh_token_ttl) in
  let access_ttl := clamped_access_ttl acr old now in
  access_token ← call (MintAccessToken (mk_grant (ss_did old) (ss_session_id old) (rr_role role) (rr_contexts role) amr acr
                         (ss_tee_attested old) access_ttl new_token_id));
  _ ← internal (st_store_session sessions (mk_session (ss_session_id old) (ss_did old) "" Authenticated now (ss_last_seen old)
         (Some new_refresh_token) (Some new_refresh_expires_at) (ss_tee_attested old) amr acr (ss_acr_expires_at old)
         (Some new_token_id) (ss_session_pubkey old) (ss_not_after old)));
  _ ← internal (st_store_refresh_index sessions new_refresh_token (ss_session_id old));
  _ ← logged (st_store_refresh_tombstone sessions token
         (mk_tombstone (ss_session_id old) (ss_did old) now (saturating_add now refresh_token_ttl)
            (refresh_token_hash new_refresh_token) Rotated));
  _ ← call (AuditAuth (Refreshed (ss_did old) (ss_session_id old) (ss_session_id old) amr acr));
  mret (mk_auth_response
    (mk_wire_session (ss_session_id old) (ss_did old) (epoch_to_rfc3339 now) (epoch_to_rfc3339 (saturating_add now access_ttl)) amr acr)
    (mk_tokens access_token (Some new_refresh_token) "Bearer" access_ttl
       (Some (u64_saturating_sub new_refresh_expires_at now)) (scope_of (rr_contexts role)))).

Definition handle_refresh (input : RefreshInput) : SessionProg AuthenticateResponse :=
  claimed ← internal (st_take_session_id_by_refresh sessions (ri_refresh_token input));
  match claimed with
  | None => handle_unclaimed_refresh input
  | Some session_id =>
      found ← internal (st_get_session sessions session_id);
      old ← lift (ok_or found (auth_error AuthError.SessionNotFound));
      recorded ← internal (st_current_refresh_hash sessions session_id);
      let current := match recorded with Some h => Some h | None => refresh_token_hash <$> ss_refresh_token old end in
      if bool_decide (current ≠ Some (refresh_token_hash (ri_refresh_token input))) then
        _ ← refuse_superseded (ri_refresh_token input) old current;
        auth_fails AuthError.RefreshTokenInvalid
      else
        now ← renewable input old;
        rotate (ri_refresh_token input) old now
  end.
End Login.
