(* ===== verification/SessionSafety.v ===== *)
(** * What a session is worth, however requests interleave

    The handlers of [Login] and the operations of [Sessions], as requests of a
    service whose store may fail, be given up on and catch up later: what must
    hold before a token is minted, that a challenge and a refresh token are
    each redeemed once, and that who was signed out stays signed out. *)

From S2P Require Import Prelude Text Json Host Programs Keyspace Acl Sessions Login.

Abbreviation Trace := (list (Event SessionCall)).

Section SessionSafety.
Context `{AuthBackend, SessionSerde, !SessionSerdeLaws, Sha256, Chrono}.

(** ** Requests *)

Inductive SessionRequest :=
| RqChallenge (i : ChallengeInput)
| RqAuthenticate (i : AuthenticateInput) (amr : list string) (acr : string)
| RqRefresh (i : RefreshInput)
| RqMessage (did : string)
| RqTouch (session_id : string)
| RqSignOut (session_id : string)
| RqStepUp (session_id factor target : string)
| RqPasskey (did : string)
| RqToken (token : string)
| RqSweep.
Inductive SessionAnswer :=
| AnsChallenge (r : ChallengeResponse)
| AnsTokens (r : AuthenticateResponse)
| AnsDone.

Definition answers {A} (p : SessionProg A) (f : A → SessionAnswer) : SessionProg SessionAnswer := a ← p; mret (f a).
Definition run_session (rq : SessionRequest) : SessionProg SessionAnswer :=
  match rq with
  | RqChallenge i => answers (handle_challenge keyspace_session_store i) AnsChallenge
  | RqAuthenticate i amr acr => answers (handle_authenticate_with_aal keyspace_session_store i amr acr) AnsTokens
  | RqRefresh i => answers (handle_refresh keyspace_session_store i) AnsTokens
  | RqMessage did => answers (now ← call ReadClock; resolve_did_session did now) (λ _, AnsDone)
  | RqTouch session_id => answers (now ← call ReadClock; touch_session session_id now) (λ _, AnsDone)
  | RqSignOut session_id => answers (delete_session session_id) (λ _, AnsDone)
  | RqStepUp session_id factor target => answers (step_up session_id factor target) (λ _, AnsDone)
  | RqPasskey did => answers (clear_non_passkey_elevation_for_did did) (λ _, AnsDone)
  | RqToken token => answers (step_up_auth token) (λ _, AnsDone)
  | RqSweep => answers (cleanup_expired_sessions challenge_ttl) (λ _, AnsDone)
  end.

(** ** What a call writes *)

Definition puts (c : SessionCall) (k : string) (b : bytes) : Prop :=
  match c with
  | PutRow k' b' => k' = k ∧ b' = b
  | RunBatch batch => Put k b ∈ writes batch
  | _ => False
  end.
Definition put_keys (c : SessionCall) : list string :=
  match c with
  | PutRow k _ => [k]
  | RunBatch batch => omap (λ w, match w with Put k _ => Some k | Delete _ => None end) (writes batch)
  | _ => []
  end.
(** Only where the row is still the one read. *)
Definition guarded (k : string) (c : SessionCall) : bool :=
  match c with
  | RunBatch batch => existsb (λ p, match p with Unchanged k' _ => bool_decide (k' = k) | _ => false end) (checks batch)
  | _ => false
  end.
(** It may make a row. *)
Definition inserts (k : string) (c : SessionCall) : bool := bool_decide (k ∈ put_keys c) && negb (guarded k c).
(** It makes a refresh token's index entry. *)
Definition issues (c : SessionCall) : bool := existsb (starts_with "refresh:") (put_keys c).
(** It puts no row; and neither mints nor draws an id. *)
Definition silent (c : SessionCall) : bool := bool_decide (put_keys c = []).
Definition plain (c : SessionCall) : bool :=
  silent c && match c with MintAccessToken _ | NewUuid => false | _ => true end.

Lemma puts_keys c k b : puts c k b → k ∈ put_keys c.
Proof.
  destruct c; simpl; try done; [intros [-> _]; apply elem_of_cons; by left|].
  intros Hp. apply list_elem_of_omap. by exists (Put k b).
Qed.
Lemma plain_silent c : plain c = true → silent c = true.
Proof. by intros [? _]%andb_true_iff. Qed.
Lemma silent_puts c k b : silent c = true → ¬ puts c k b.
Proof. intros Hp%bool_decide_eq_true Hk%puts_keys. rewrite Hp in Hk. by apply elem_of_nil in Hk. Qed.
Lemma silent_issues c : silent c = true → issues c = false.
Proof. intros Hp%bool_decide_eq_true. unfold issues. by rewrite Hp. Qed.
Lemma silent_inserts k c : silent c = true → inserts k c = false.
Proof. intros Hp%bool_decide_eq_true. unfold inserts. rewrite Hp, bool_decide_eq_false_2; [done|apply not_elem_of_nil]. Qed.
Lemma issues_refresh t c : inserts (refresh_key t) c = true → issues c = true.
Proof.
  intros [Hk _]%andb_true_iff. apply bool_decide_eq_true in Hk. apply existsb_exists. exists (refresh_key t).
  split; [by apply list_elem_of_In|]. reflexivity.
Qed.

(** A call of [f]'s was made. *)
Definition ever (f : SessionCall → bool) (h : Trace) : bool := existsb (λ ev, f (ev_call ev)) h.
Lemma ever_app f h h' : ever f (h ++ h') = ever f h || ever f h'.
Proof. apply existsb_app. Qed.

(** ** Programs that write nothing, but delete *)

Definition plainly {A} (h : Trace) (p : SessionProg A) : Prop := always (λ _ c, plain c = true) (λ _ _, True) h p.

Lemma plainly_bind {A B} (p : SessionProg A) (f : A → SessionProg B) :
  (∀ h, plainly h p) → (∀ a h, plainly h (f a)) → ∀ h, plainly h (p ≫= f).
Proof. intros Hp Hf h. apply always_bind. eapply always_impl; [|apply Hp]. intros h' [a|e] _; [apply Hf|done]. Qed.
Lemma plainly_then {A B} (p : SessionProg A) (f : result AppError A → SessionProg B) :
  (∀ h, plainly h p) → (∀ r h, plainly h (f r)) → ∀ h, plainly h (then_do p f).
Proof. intros Hp Hf h. apply always_then. eapply always_impl; [|apply Hp]. intros h' r _. apply Hf. Qed.
Lemma plainly_call c : plain c = true → ∀ h, plainly h (call c).
Proof. by split. Qed.
Lemma plainly_ret {A} (r : result AppError A) : ∀ h, plainly h (Ret r).
Proof. done. Qed.

Lemma plainly_do {A} c (k : result AppError (Reply c) → SessionProg A) :
  plain c = true → (∀ r h, plainly h (k r)) → ∀ h, plainly h (Do c k).
Proof. intros Hc Hk h. split; [done|]. intros r. apply Hk. Qed.

Ltac plain_tac :=
  repeat first
    [ apply plainly_ret
    | apply plainly_do; [reflexivity|intros ?]
    | apply plainly_call; reflexivity
    | apply plainly_bind; [|intros ?]
    | apply plainly_then; [|intros ?]
    | progress simpl
    | match goal with
      | |- ∀ h, plainly h (match ?x with _ => _ end) => destruct x
      | |- ∀ (a : ?T) (h : Trace), plainly h _ => intros ?
      end
    | progress unfold internal, logged, auth_fails, auth_refuse, refuse_if, lift, mret, Prog_ret, text_row ].

Lemma get_session_plain id : ∀ h, plainly h (get_session id).
Proof. unfold get_session. plain_tac. Qed.
Lemma take_session_plain id : ∀ h, plainly h (take_session id).
Proof. unfold take_session. plain_tac. Qed.
Lemma delete_session_plain id : ∀ h, plainly h (delete_session id).
Proof.
  unfold delete_session. apply plainly_bind; [apply get_session_plain|]. intros [s|]; plain_tac.
  apply plainly_call. unfold plain, stage_session_removal. simpl. by destruct (ss_refresh_token s).
Qed.

Lemma text_row_plain raw : ∀ h, plainly h (text_row raw).
Proof. unfold text_row. plain_tac. Qed.
Lemma take_id_plain token : ∀ h, plainly h (take_session_id_by_refresh token).
Proof. unfold take_session_id_by_refresh. apply plainly_bind; [plain_tac|apply text_row_plain]. Qed.
Lemma current_hash_plain id : ∀ h, plainly h (current_refresh_hash id).
Proof. unfold current_refresh_hash. apply plainly_bind; [plain_tac|apply text_row_plain]. Qed.
Lemma get_tombstone_plain token : ∀ h, plainly h (get_refresh_tombstone token).
Proof. unfold get_refresh_tombstone. plain_tac. Qed.
Lemma list_sessions_plain : ∀ h, plainly h list_sessions.
Proof. unfold list_sessions. plain_tac. Qed.
Lemma pending_of_plain did entries : ∀ h, plainly h (pending_of did entries).
Proof.
  induction entries as [|[k v] rest IH]; [plain_tac|]. cbn [pending_of]. destruct (strip_prefix _ k) as [id|]; [|exact IH].
  apply plainly_bind; [apply get_session_plain|]. intros s. apply plainly_bind; [exact IH|]. plain_tac.
Qed.
Lemma delete_all_plain l : ∀ h, plainly h (delete_all keyspace_session_store l).
Proof.
  induction l as [|s l IH]; [plain_tac|]. cbn [delete_all]. apply plainly_bind; [|intros _; exact IH].
  apply plainly_then; [apply delete_session_plain|plain_tac].
Qed.
Lemma make_room_plain did limit : ∀ h, plainly h (make_room_for_challenge keyspace_session_store did limit).
Proof.
  unfold make_room_for_challenge. apply plainly_bind.
  - apply plainly_then; [|plain_tac]. apply plainly_bind; [|plain_tac]. apply plainly_bind; [plain_tac|]. intros es.
    apply plainly_bind; [apply pending_of_plain|plain_tac].
  - intros [pending|]; [|plain_tac]. apply plainly_bind; [plain_tac|]. intros now. apply delete_all_plain.
Qed.
Lemma sweep_sessions_plain ttl now entries live : ∀ h, plainly h (sweep_sessions ttl now entries live).
Proof.
  revert live. induction entries as [|[k v] rest IH]; intros live; [plain_tac|]. cbn [sweep_sessions].
  destruct (session_from_slice v) as [s|]; [|apply IH]. destruct (session_expired ttl now s); [|apply IH].
  apply plainly_bind; [|intros o; apply IH]. apply plainly_call. unfold plain, stage_session_removal. simpl.
  by destruct (ss_refresh_token s).
Qed.
Lemma sweep_where_plain orphan entries :
  (∀ e h, plainly h (orphan e)) → ∀ h, plainly h (sweep_where orphan entries).
Proof.
  intros Ho. induction entries as [|e rest IH]; [plain_tac|]. cbn [sweep_where]. apply plainly_bind; [apply Ho|].
  intros [|]; [|exact IH]. apply plainly_bind; [plain_tac|]. intros _. exact IH.
Qed.
Lemma refresh_orphan_plain e : ∀ h, plainly h (refresh_orphan e).
Proof.
  unfold refresh_orphan. destruct (from_utf8 e.2) as [id|]; [|plain_tac].
  apply plainly_bind; [apply get_session_plain|]. intros [s|]; [|plain_tac].
  apply plainly_bind; [apply current_hash_plain|plain_tac].
Qed.
Lemma cleanup_plain ttl : ∀ h, plainly h (cleanup_expired_sessions ttl).
Proof.
  unfold cleanup_expired_sessions.
  repeat (apply plainly_bind; [first [apply sweep_sessions_plain|apply sweep_where_plain|plain_tac]|]; try intros ?);
    try (apply sweep_where_plain);
    first [apply refresh_orphan_plain|unfold current_orphan, pending_lapsed, nonce_orphan, tombstone_lapsed; plain_tac].
Qed.
Lemma step_up_auth_plain token : ∀ h, plainly h (step_up_auth token).
Proof.
  unfold step_up_auth, authenticate_token, check_fresh_step_up.
  apply plainly_bind; [|plain_tac]. apply plainly_bind; [plain_tac|]. intros claims.
  apply plainly_bind; [apply get_session_plain|plain_tac].
Qed.

(** ** What a history shows *)

Section Lawful.
Context `{RandomSource}.

(** A row of a session names it; it is its subject's, unless it is a
    challenge; and a subject is no random id. *)
Definition named (s : Session) : Prop :=
  (∀ n, ss_did s ≠ uuid n) ∧ (ss_state s = Authenticated → ss_did s = ss_session_id s).
Definition row_ok (k : string) (b : bytes) : Prop :=
  ∀ id, k = session_key id → ∃ s, session_from_slice b = Ok s ∧ ss_session_id s = id ∧ named s.

Definition drew (t : string) (h : Trace) : Prop := mk_event NewUuid (Ok t) ∈ h.
Definition row_read (h : Trace) (k : string) (b : bytes) : Prop := mk_event (ReadRow k) (Ok (Some b)) ∈ h.
Definition session_read (h : Trace) (id : string) (s : Session) : Prop :=
  ∃ b, row_read h (session_key id) b ∧ session_from_slice b = Ok s.
Definition row_taken (h : Trace) (k : string) : Prop := ∃ b, mk_event (TakeRow k) (Ok (Some b)) ∈ h.
Definition at_time (h : Trace) (now : Z) : Prop := mk_event ReadClock (Ok now) ∈ h.
Definition allowed (h : Trace) (did : string) (role : RoleResolution) : Prop := mk_event (CheckAcl did) (Ok role) ∈ h.

Record seen_ok (h : Trace) : Prop := {
  seen_rows k b : row_read h k b → row_ok k b;
  seen_uuids t : drew t h → ∃ n, t = uuid n;
}.

(** Sessions are written under their names; a token is issued once, by the
    request that drew it; so is a challenge. *)
Record disciplined (h : Trace) (c : SessionCall) : Prop := {
  dis_rows k b : puts c k b → row_ok k b;
  dis_issue t : inserts (refresh_key t) c = true →
    (∃ t', refresh_key t' = refresh_key t ∧ drew t' h) ∧ ever issues h = false;
  dis_open n : inserts (session_key (uuid n)) c = true →
    drew (uuid n) h ∧ ever (inserts (session_key (uuid n))) h = false;
}.

(** *** What a token is minted for *)

(** The challenge an input redeemed. *)
Record redeemed (i : AuthenticateInput) (h : Trace) (s : Session) (now : Z) : Prop := {
  rd_audience : check_audience (ai_audience i) = Ok ();
  rd_session : session_read h (ai_session_id i) s;
  rd_state : ss_state s = ChallengeSent;
  rd_challenge : ss_challenge s = ai_challenge i;
  rd_signer : ss_did s = ai_signer_did i;
  rd_time : at_time h now;
  rd_lapsed : challenge_lapsed now s = false;
  rd_fresh : check_freshness (ai_created_time i) (ss_created_at s) now didcomm_freshness_window = Ok ();
  rd_taken : row_taken h (session_key (ai_session_id i));
}.

(** The session a refresh token named, and its right to be renewed. *)
Definition signed_by (i : RefreshInput) (s : Session) : Prop := ∀ signer, ri_signer_did i = Some signer → signer = ss_did s.
Record current_claim (token : string) (h : Trace) (id : string) (s : Session) : Prop := {
  cc_claimed : ∃ b, mk_event (TakeRow (refresh_key token)) (Ok (Some b)) ∈ h ∧ from_utf8 b = Some id;
  cc_session : session_read h id s;
  cc_current : ∃ raw, mk_event (ReadRow (current_refresh_key id)) (Ok raw) ∈ h
    ∧ match raw with
      | Some b => from_utf8 b = Some (refresh_token_hash token)
      | None => refresh_token_hash <$> ss_refresh_token s = Some (refresh_token_hash token)
      end;
}.
Record renewed_at (i : RefreshInput) (h : Trace) (s : Session) (now : Z) : Prop := {
  rn_signer : signed_by i s;
  rn_state : ss_state s = Authenticated;
  rn_time : at_time h now;
  rn_unexpired : ∀ e, ss_refresh_expires_at s = Some e → now ≤ e;
  rn_end : past_end s now = false;
  rn_active : idle s now = false;
}.
Record retried (i : RefreshInput) (h : Trace) (s : Session) (now : Z) : Prop := {
  rt_unclaimed : mk_event (TakeRow (refresh_key (ri_refresh_token i))) (Ok None) ∈ h;
  rt_tombstone : ∃ b t, row_read h (rotated_key (ri_refresh_token i)) b ∧ tombstone_from_slice b = Ok t
    ∧ session_read h (ts_session_id t) s ∧ is_innocent_retry s t now refresh_reuse_grace = true;
  rt_signer : signed_by i s;
  rt_time : at_time h now;
  rt_end : past_end s now = false;
}.

(** The grant a refresh mints: the session's own, at its level, within its
    end. *)
Definition carries_on (s : Session) (now : Z) (role : RoleResolution) (jti : string) (g : AccessGrant) : Prop :=
  g = mk_grant (ss_did s) (ss_session_id s) (rr_role role) (rr_contexts role) (refresh_amr_acr s).1 (refresh_amr_acr s).2
        (ss_tee_attested s) (clamped_access_ttl (refresh_amr_acr s).2 s now) jti.

Definition earned (rq : SessionRequest) (h : Trace) (g : AccessGrant) : Prop :=
  match rq with
  | RqAuthenticate i amr acr =>
      ∃ s now role jti, redeemed i h s now ∧ allowed h (ss_did s) role ∧ drew jti h
        ∧ g = mk_grant (ss_did s) (ss_did s) (rr_role role) (rr_contexts role) amr acr (ss_tee_attested s) (ttl_for acr) jti
  | RqRefresh i =>
      ∃ s now role jti, allowed h (ss_did s) role ∧ carries_on s now role jti g
        ∧ ((∃ id, current_claim (ri_refresh_token i) h id s) ∧ renewed_at i h s now ∧ drew jti h
           ∨ retried i h s now ∧ ss_token_id s = Some jti)
  | _ => False
  end.

(** An id is drawn for a challenge, or once what it replaces was claimed. *)
Definition may_draw (rq : SessionRequest) (h : Trace) : Prop :=
  match rq with
  | RqChallenge _ => True
  | RqAuthenticate i _ _ => row_taken h (session_key (ai_session_id i))
  | RqRefresh i => row_taken h (refresh_key (ri_refresh_token i))
  | _ => False
  end.

(** A session a refresh writes is the one it read, renewed within its end. *)
Definition continues (old s : Session) : Prop :=
  ss_session_id s = ss_session_id old ∧ ss_did s = ss_did old ∧ ss_last_seen s = ss_last_seen old
  ∧ (ss_amr s, ss_acr s) = refresh_amr_acr old ∧ ss_acr_expires_at s = ss_acr_expires_at old
  ∧ ss_tee_attested s = ss_tee_attested old ∧ ss_session_pubkey s = ss_session_pubkey old
  ∧ ss_not_after s = ss_not_after old
  ∧ ∃ e, ss_refresh_expires_at s = Some e ∧ ∀ end_, ss_not_after s = Some end_ → e ≤ end_.
Definition renews (rq : SessionRequest) (h : Trace) (k : string) (b : bytes) : Prop :=
  match rq with
  | RqRefresh _ => ∀ id, k = session_key id → ∃ id' old s, session_read h id' old ∧ session_from_slice b = Ok s ∧ continues old s
  | _ => True
  end.

(** A session a request may make. *)
Definition opens (rq : SessionRequest) (id : string) : Prop :=
  match rq with
  | RqChallenge _ => ∃ n, id = uuid n
  | RqAuthenticate i _ _ => id = ai_signer_did i
  | RqRefresh _ => True
  | RqMessage did => id = did
  | _ => False
  end.

Record lawful (rq : SessionRequest) (h : Trace) (c : SessionCall) : Prop := {
  law_writes : seen_ok h → disciplined h c;
  law_mints g : c = MintAccessToken g → earned rq h g;
  law_draws : c = NewUuid → may_draw rq h;
  law_renews k b : puts c k b → renews rq h k b;
  law_opens id : seen_ok h → inserts (session_key id) c = true → opens rq id;
}.

Lemma silent_lawful rq h c :
  silent c = true → (∀ g, c = MintAccessToken g → earned rq h g) → (c = NewUuid → may_draw rq h) → lawful rq h c.
Proof.
  intros Hp Hm Hd. split; [|done|done| |intros id _; by rewrite silent_inserts].
  - intros _. split; [intros k b Hk; by destruct (silent_puts c k b Hp)|intros t; by rewrite silent_inserts|].
    intros n. by rewrite silent_inserts.
  - intros k b Hk. by destruct (silent_puts c k b Hp).
Qed.
Lemma plain_lawful rq h c : plain c = true → lawful rq h c.
Proof.
  intros Hp. apply silent_lawful; [by apply plain_silent|intros g ->|intros ->]; by apply andb_true_iff in Hp as [_ ?].
Qed.

(** ** What the operations show *)

Abbreviation Plain := (λ (_ : Trace) (c : SessionCall), plain c = true).

Lemma event_of (h : Trace) ev : ev ∈ h ++ [ev].
Proof. apply elem_of_app. right. by left. Qed.
Lemma event_kept (h h' : Trace) ev : h `prefix_of` h' → ev ∈ h → ev ∈ h'.
Proof. intros [l ->] Hin. apply elem_of_app. by left. Qed.

Lemma session_read_kept h h' id s : h `prefix_of` h' → session_read h id s → session_read h' id s.
Proof. intros Hp (b & Hb & Hs). exists b. split; [by eapply event_kept|done]. Qed.
Lemma row_taken_kept h h' k : h `prefix_of` h' → row_taken h k → row_taken h' k.
Proof. intros Hp [b Hb]. exists b. by eapply event_kept. Qed.
Lemma redeemed_kept i h h' s now : h `prefix_of` h' → redeemed i h s now → redeemed i h' s now.
Proof.
  intros Hp []. split; try done; [by eapply session_read_kept|by eapply event_kept|by eapply row_taken_kept].
Qed.
Lemma current_claim_kept token h h' id s : h `prefix_of` h' → current_claim token h id s → current_claim token h' id s.
Proof.
  intros Hp [(b & ? & ?) ? (raw & ? & ?)].
  split; [exists b; split; [by eapply event_kept|done]|by eapply session_read_kept|exists raw; split; [by eapply event_kept|done]].
Qed.
Lemma renewed_kept i h h' s now : h `prefix_of` h' → renewed_at i h s now → renewed_at i h' s now.
Proof. intros Hp []. split; try done. by eapply event_kept. Qed.
Lemma retried_kept i h h' s now : h `prefix_of` h' → retried i h s now → retried i h' s now.
Proof.
  intros Hp [? (b & t & ? & ? & ? & ?) ? ? ?]. split; try done; try (by eapply event_kept).
  exists b, t. split; [by eapply event_kept|]. split; [done|]. split; [by eapply session_read_kept|done].
Qed.
Lemma seen_before h h' : h `prefix_of` h' → seen_ok h' → seen_ok h.
Proof.
  intros Hp [Hs Hu]. split; [intros k b Hr; apply Hs|intros u Hd; apply Hu]; by eapply event_kept.
Qed.

Lemma internal_ok {A} C (P : Trace → A → Prop) h (p : SessionProg A) :
  always C (ok_then P) h p → always C (ok_then P) h (internal p).
Proof. intros Hp. apply always_then. eapply always_impl; [|exact Hp]. by intros h' [a|e]. Qed.
Lemma call_plain C c h : C h c → always C (ok_then (λ h' a, mk_event c (Ok a) ∈ h')) h (call c).
Proof. intros Hc. split; [done|]. intros [a|e]; [|done]. apply event_of. Qed.
Lemma lift_ok {A} C h (r : result AppError A) : always C (ok_then (λ _ a, r = Ok a)) h (lift r).
Proof. by destruct r. Qed.
Lemma refuse_ok C h (b : bool) e : always C (ok_then (λ _ _, b = false)) h (refuse_if b e).
Proof. by destruct b. Qed.

Lemma get_session_ok id h : always Plain (ok_then (λ h' o, ∀ s, o = Some s → session_read h' id s)) h (get_session id).
Proof.
  eapply always_seq; [done|by apply call_plain|]. intros [b|] h1 _ Hb; [|done].
  eapply always_seq; [done|apply lift_ok|]. intros s h2 P2 Hs s' [= <-]. exists b. split; [by eapply event_kept|done].
Qed.
Lemma take_session_ok id h :
  always Plain (ok_then (λ h' o, o ≠ None → row_taken h' (session_key id))) h (take_session id).
Proof.
  eapply always_seq; [done|by apply call_plain|]. intros [b|] h1 _ Hb; [|by intros []].
  eapply always_seq; [done|apply lift_ok|]. intros s h2 P2 Hs.
  eapply always_seq; [done|by apply call_plain|]. intros [] h3 P3 _ _. exists b. eapply event_kept, Hb. by etrans.
Qed.
Definition text_of (raw : option bytes) (o : option string) : Prop :=
  match raw with Some b => ∃ t, from_utf8 b = Some t ∧ o = Some t | None => o = None end.
Lemma text_row_ok raw h : always Plain (ok_then (λ _ o, text_of raw o)) h (text_row raw).
Proof.
  destruct raw as [b|]; [|done]. simpl. destruct (from_utf8 b) as [t|] eqn:Hb; [|done]. by exists t.
Qed.
Lemma take_id_ok token h :
  always Plain (ok_then (λ h' o, ∃ raw, mk_event (TakeRow (refresh_key token)) (Ok raw) ∈ h' ∧ text_of raw o)) h
    (take_session_id_by_refresh token).
Proof.
  eapply always_seq; [done|by apply call_plain|]. intros raw h1 _ Hr.
  eapply (always_impl _ (ok_then (λ _ o, text_of raw o))); [|apply text_row_ok].
  intros h' [o|]; [|done]. intros Ho. exists raw. split; [apply elem_of_app; by left|done].
Qed.
Lemma current_hash_ok id h :
  always Plain (ok_then (λ h' o, ∃ raw, mk_event (ReadRow (current_refresh_key id)) (Ok raw) ∈ h' ∧ text_of raw o)) h
    (current_refresh_hash id).
Proof.
  eapply always_seq; [done|by apply call_plain|]. intros raw h1 _ Hr.
  eapply (always_impl _ (ok_then (λ _ o, text_of raw o))); [|apply text_row_ok].
  intros h' [o|]; [|done]. intros Ho. exists raw. split; [apply elem_of_app; by left|done].
Qed.
Lemma get_tombstone_ok token h :
  always Plain (ok_then (λ h' o, ∀ t, o = Some t → ∃ b, row_read h' (rotated_key token) b ∧ tombstone_from_slice b = Ok t)) h
    (get_refresh_tombstone token).
Proof.
  eapply always_seq; [done|by apply call_plain|]. intros [b|] h1 _ Hb; [|done].
  eapply always_seq; [done|apply lift_ok|]. intros s h2 P2 Hs s' [= <-]. exists b. split; [by eapply event_kept|done].
Qed.

(** Every byte is compared. *)
Lemma lor_fold_zero l d : 0 ≤ d →
  fold_left (λ diff (xy : Byte.byte * Byte.byte), Z.lor diff (Z.lxor (Z_of_byte xy.1) (Z_of_byte xy.2))) l d = 0
  ↔ d = 0 ∧ ∀ x y, (x, y) ∈ l → x = y.
Proof.
  revert d. induction l as [|[x y] l IH]; intros d Hd; simpl.
  - split; [intros ->; split; [done|by intros ? ? ?%elem_of_nil]|by intros []].
  - assert (0 ≤ Z.lxor (Z_of_byte x) (Z_of_byte y)) as Hx.
    { apply Z.lxor_nonneg. split; intros _; apply N2Z.is_nonneg. }
    rewrite IH by (by apply Z.lor_nonneg). rewrite Z.lor_eq_0_iff, Z.lxor_eq_0_iff.
    split.
    + intros [[-> Hxy] Hl]. split; [done|]. intros x' y' [[= -> ->]|?]%elem_of_cons; [by apply Z_of_byte_inj|by apply Hl].
    + intros [-> Hl]. split; [split; [done|]|intros x' y' Hin; apply Hl; by right].
      f_equal. apply Hl. by left.
Qed.
Lemma zip_eq {A} (a b : list A) : length a = length b → (∀ x y, (x, y) ∈ zip a b → x = y) → a = b.
Proof.
  revert b. induction a as [|x a IH]; intros [|y b] Hl He; try done. f_equal; [apply He; by left|].
  apply IH; [by injection Hl|]. intros x' y' Hin. apply He. by right.
Qed.
Lemma challenge_eq a b : constant_time_challenge_eq a b = true → a = b.
Proof.
  unfold constant_time_challenge_eq. destruct (Nat.eqb _ _) eqn:Hl; [|done]. apply Nat.eqb_eq in Hl. simpl.
  intros [_ Hz]%Z.eqb_eq%lor_fold_zero; [|done]. apply as_bytes_inj, zip_eq; [done|]. done.
Qed.

(** *** The challenge redeemed *)

Lemma redeem_ok i h :
  always Plain (ok_then (λ h' r, redeemed i h' r.1 r.2)) h (redeem_challenge keyspace_session_store i).
Proof.
  unfold redeem_challenge, auth_refuse.
  eapply always_seq; [done|apply lift_ok|]. intros [] h1 _ Haud%map_err_ok.
  eapply always_seq; [done|apply internal_ok, get_session_ok|]. intros found h2 P2 Hread.
  eapply always_seq; [done|apply lift_ok|]. intros s h3 P3 Hs%ok_or_ok. specialize (Hread s Hs).
  eapply always_seq; [done|apply refuse_ok|]. intros [] h4 P4 Hstate%bool_decide_eq_false.
  eapply always_seq; [done|apply refuse_ok|]. intros [] h5 P5 Hch%negb_false_iff%challenge_eq.
  eapply always_seq; [done|apply refuse_ok|]. intros [] h6 P6 Hdid%bool_decide_eq_false.
  eapply always_seq; [done|by apply call_plain|]. intros now h7 P7 Hnow.
  eapply always_seq; [done|apply refuse_ok|]. intros [] h8 P8 Hlapsed.
  eapply always_seq; [done|apply lift_ok|]. intros [] h9 P9 Hfresh%map_err_ok.
  eapply always_seq; [done|apply internal_ok, take_session_ok|]. intros taken h10 P10 Htaken.
  eapply always_seq; [done|apply refuse_ok|]. intros [] h11 P11 Hsome%bool_decide_eq_false.
  assert (h3 `prefix_of` h11) by (by repeat (etrans; [eassumption|])).
  split; simpl; try done.
  - eapply session_read_kept; [|exact Hread]. by etrans.
  - by destruct (decide (ss_state s = ChallengeSent)).
  - by destruct (decide (ss_did s = ai_signer_did i)).
  - eapply event_kept; [|exact Hnow]. by repeat (etrans; [eassumption|]).
  - eapply row_taken_kept; [exact P11|]. by apply Htaken.
Qed.

(** ** What is lawful *)

(** Nothing was written since. *)
Definition calmly (h h' : Trace) : Prop := ∃ l, h' = h ++ l ∧ Forall (λ ev, silent (ev_call ev) = true) l.
Definition unissued (h : Trace) : Prop := ever issues h = false.
Definition unmade (k : string) (h : Trace) : Prop := ever (inserts k) h = false.

Lemma calm_refl h : calmly h h.
Proof. exists []. by rewrite app_nil_r. Qed.
Lemma calm_prefix h h' : calmly h h' → h `prefix_of` h'.
Proof. intros (l & -> & _). by exists l. Qed.
Lemma calm_trans h1 h2 h3 : calmly h1 h2 → calmly h2 h3 → calmly h1 h3.
Proof.
  intros (l & -> & Hl) (l' & -> & Hl'). exists (l ++ l'). rewrite app_assoc. split; [done|]. by apply Forall_app.
Qed.
Lemma calm_step h c r : silent c = true → calmly h (h ++ [mk_event c r]).
Proof. intros Hc. exists [mk_event c r]. split; [done|]. by apply Forall_singleton. Qed.
Lemma ever_calm (f : SessionCall → bool) h h' :
  (∀ c, silent c = true → f c = false) → calmly h h' → ever f h' = ever f h.
Proof.
  intros Hf (l & -> & Hl). rewrite ever_app. assert (ever f l = false) as ->; [|apply orb_false_r].
  apply existsb_false. intros ev Hin. apply Hf. by rewrite Forall_forall in Hl; apply Hl.
Qed.
Lemma unissued_calm h h' : calmly h h' → unissued h → unissued h'.
Proof. intros Hc. unfold unissued. by rewrite (ever_calm issues h h' silent_issues). Qed.
Lemma unmade_calm k h h' : calmly h h' → unmade k h → unmade k h'.
Proof. intros Hc. unfold unmade. by rewrite (ever_calm (inserts k) h h' (silent_inserts k)). Qed.
Lemma unissued_step h c r : unissued h → issues c = false → unissued (h ++ [mk_event c r]).
Proof. intros Hh Hc. unfold unissued in *. rewrite ever_app, Hh. simpl. by rewrite Hc. Qed.

Section Requests.
Context (rq : SessionRequest).

Lemma calm_seg {A} (P : Trace → A → Prop) h (p : SessionProg A) :
  always Plain (ok_then P) h p → always (lawful rq) (ok_then (λ h' a, P h' a ∧ calmly h h')) h p.
Proof.
  intros Hp. apply (always_allows Plain _ _ _ _ (plain_lawful rq)).
  eapply always_impl; [|apply (always_track Plain (ok_then P) (calmly h)); [|apply calm_refl|exact Hp]].
  - intros h' [a|]; simpl; [tauto|done].
  - intros h1 c r Hc Hpl. eapply calm_trans; [exact Hc|by apply calm_step, plain_silent].
Qed.
Lemma plain_seg {A} h (p : SessionProg A) :
  (∀ h, plainly h p) → always (lawful rq) (ok_then (λ h' _, calmly h h')) h p.
Proof.
  intros Hp. eapply always_impl; [|apply (calm_seg (λ _ _, True))].
  - intros h' [a|]; simpl; [by intros [_ Hc]|done].
  - eapply always_impl; [|apply Hp]. by intros h' [].
Qed.
(** Whether or not it fails. *)
Lemma plain_seg_any {A} h (p : SessionProg A) : (∀ h, plainly h p) → always (lawful rq) (λ h' _, calmly h h') h p.
Proof.
  intros Hp. apply (always_allows Plain _ _ _ _ (plain_lawful rq)).
  eapply always_impl; [|apply (always_track Plain (λ _ _, True) (calmly h)); [|apply calm_refl|apply Hp]].
  - by intros h' r [_ Hc].
  - intros h1 c r Hc Hpl. eapply calm_trans; [exact Hc|by apply calm_step, plain_silent].
Qed.
Lemma call_seg c h : plain c = true → always (lawful rq) (ok_then (λ h' a, mk_event c (Ok a) ∈ h' ∧ calmly h h')) h (call c).
Proof. intros Hc. by apply calm_seg, call_plain. Qed.

(** A key of neither a session nor a live token. *)
Definition other_key (k : string) : Prop := (∀ id, k ≠ session_key id) ∧ starts_with "refresh:" k = false.
Lemma pending_other did id : other_key (pending_challenge_key did id).
Proof. by split. Qed.
Lemma rotated_other token : other_key (rotated_key token).
Proof. by split. Qed.
Lemma current_other id : other_key (current_refresh_key id).
Proof. by split. Qed.

Lemma session_key_inj a b : session_key a = session_key b → a = b.
Proof. unfold session_key. simpl. by intros [=]. Qed.

Lemma session_batch_lawful h id s row cs ws :
  (∀ k b, Put k b ∈ ws → k = session_key id ∧ b = row ∨ other_key k) →
  session_to_vec s = Ok row → ss_session_id s = id →
  (seen_ok h → named s ∧ ∀ n, id = uuid n →
     guarded (session_key id) (RunBatch (mk_batch cs ws)) = true ∨ drew (uuid n) h ∧ unmade (session_key (uuid n)) h) →
  renews rq h (session_key id) row →
  (seen_ok h → guarded (session_key id) (RunBatch (mk_batch cs ws)) = true ∨ opens rq id) →
  lawful rq h (RunBatch (mk_batch cs ws)).
Proof.
  intros Hws Hrow Hid Hok Hren Hop.
  assert (∀ k, k ∈ put_keys (RunBatch (mk_batch cs ws)) → ∃ b, Put k b ∈ ws) as Hput.
  { intros k (w & Hw & Hk)%list_elem_of_omap. destruct w as [k' b|]; [|done]. injection Hk as ->. by exists b. }
  split; [|done|done| |].
  - intros Hseen. destruct (Hok Hseen) as [Hn Hopen]. split.
    + intros k b Hk id' ->. destruct (Hws _ _ Hk) as [[Heq ->]|[Ho _]]; [|by destruct (Ho id')].
      exists s. split; [by apply session_roundtrip|]. split; [|done]. apply session_key_inj in Heq. congruence.
    + intros u [Hin _]%andb_true_iff. apply bool_decide_eq_true, Hput in Hin as [b Hb].
      destruct (Hws _ _ Hb) as [[Heq _]|[_ Ho]]; [done|]. discriminate Ho.
    + intros n [Hin Hg]%andb_true_iff. apply bool_decide_eq_true, Hput in Hin as [b Hb].
      destruct (Hws _ _ Hb) as [[Heq _]|[Ho _]]; [|by destruct (Ho (uuid n))].
      apply session_key_inj in Heq as Hn'. 
      destruct (Hopen n (eq_sym Hn')) as [Hg'|Hg']; [|exact Hg']. rewrite Heq, Hg' in Hg. done.
  - intros k b Hk. destruct (Hws _ _ Hk) as [[-> ->]|[Ho _]]; [exact Hren|]. destruct rq; try done.
    intros id'. intros ->. by destruct (Ho id').
  - intros id' Hseen [Hin Hg]%andb_true_iff. apply bool_decide_eq_true, Hput in Hin as [b Hb].
    destruct (Hws _ _ Hb) as [[Heq _]|[Ho _]]; [|by destruct (Ho id')]. apply session_key_inj in Heq as ->.
    destruct (Hop Hseen) as [Hg'|?]; [|done]. by rewrite Hg' in Hg.
Qed.

Lemma pending_index_ok s h :
  always Plain (ok_then (λ _ index, ∀ w, w ∈ index → ∃ b, w = Put (pending_challenge_key (ss_did s) (ss_session_id s)) b)) h
    (stage_pending_challenge_index s).
Proof.
  unfold stage_pending_challenge_index. case_bool_decide; [by intros w ?%elem_of_nil|].
  eapply always_seq; [done|by apply call_plain|]. intros seq h1 _ _.
  eapply always_seq; [done|apply lift_ok|]. intros w h2 _ Hw w' ->%list_elem_of_singleton.
  unfold staged in Hw. destruct (pending_to_vec _) as [b|]; [|done]. injection Hw as <-. by exists b.
Qed.
Lemma staged_ok k r w : staged k r = Ok w → ∃ b, r = Ok b ∧ w = Put k b.
Proof. unfold staged. destruct r as [b|]; [|done]. intros [= <-]. by exists b. Qed.

(** A session stored: nothing is issued. *)
Lemma store_session_lawful s h :
  (∀ h', calmly h h' → seen_ok h' → named s ∧ ∀ n, ss_session_id s = uuid n →
     drew (uuid n) h' ∧ unmade (session_key (uuid n)) h') →
  (∀ h' row, calmly h h' → session_to_vec s = Ok row → renews rq h' (session_key (ss_session_id s)) row) →
  (∀ h', calmly h h' → seen_ok h' → opens rq (ss_session_id s)) →
  unissued h → always (lawful rq) (ok_then (λ h' _, unissued h')) h (store_session s).
Proof.
  intros Hok Hren Hop Hun. unfold store_session, write_session.
  eapply always_seq; [done|apply calm_seg, pending_index_ok|]. intros index h1 _ [Hindex C1].
  eapply always_seq; [done|apply calm_seg, lift_ok|]. intros w h2 _ [(row & Hrow & ->)%staged_ok C2].
  assert (calmly h h2) as C by (by eapply calm_trans).
  assert (∀ k b, Put k b ∈ index ++ [Put (session_key (ss_session_id s)) row] →
    k = session_key (ss_session_id s) ∧ b = row ∨ other_key k) as Hws.
  { intros k b [Hin|Hin%list_elem_of_singleton]%elem_of_app; [|left; by injection Hin as -> ->].
    destruct (Hindex _ Hin) as [b' [= -> ->]]. right. apply pending_other. }
  split.
  - eapply session_batch_lawful; [exact Hws|exact Hrow|done| |by apply Hren|intros Hseen; right; by eapply Hop].
    intros Hseen. destruct (Hok h2 C Hseen) as [Hn Hopen]. split; [done|]. intros n Hid. right. by apply Hopen.
  - intros [o|e]; [|done]. simpl. apply unissued_step; [by eapply unissued_calm|].
    apply existsb_false. intros k (w & Hw & Hk)%list_elem_of_omap. destruct w as [k' b|]; [|done]. injection Hk as ->.
    by destruct (Hws _ _ Hw) as [[-> _]|[_ ?]].
Qed.

(** A tombstone, or nothing. *)
Lemma tombstone_lawful token t h : always (lawful rq) (λ _ _, True) h (store_refresh_tombstone token t).
Proof.
  unfold store_refresh_tombstone. destruct (tombstone_to_vec t) as [b|]; [|done]. simpl. split; [|by intros []].
  destruct (rotated_other token) as [Ho1 Ho2]. split; [|done|done| |].
  - intros _. split.
    + intros k b' [<- <-] id Heq. by destruct (Ho1 id).
    + intros u [Hin _]%andb_true_iff. apply bool_decide_eq_true, list_elem_of_singleton in Hin. discriminate Hin.
    + intros n [Hin _]%andb_true_iff. apply bool_decide_eq_true, list_elem_of_singleton in Hin. discriminate Hin.
  - intros k b' [<- <-]. by destruct rq.
  - intros id _ [Hin _]%andb_true_iff. apply bool_decide_eq_true, list_elem_of_singleton in Hin. discriminate Hin.
Qed.

(** A token drawn and issued, the first. *)
Lemma issue_lawful token id h :
  drew token h → unissued h → always (lawful rq) (λ _ _, True) h (store_refresh_index token id).
Proof.
  intros Hd Hun. unfold store_refresh_index. split; [|by intros []]. split; [|done|done| |].
  - intros _. split.
    + intros k b [Hk|[Hk|?%elem_of_nil]%elem_of_cons]%elem_of_cons id' Heq; [| |done]; injection Hk as -> ->; discriminate Heq.
    + intros u [Hin _]%andb_true_iff. apply bool_decide_eq_true in Hin. split; [|exact Hun]. exists token. split; [|done].
      simpl in Hin. apply elem_of_cons in Hin as [Hin|Hin%list_elem_of_singleton]; [discriminate Hin|done].
    + intros n [Hin _]%andb_true_iff. apply bool_decide_eq_true in Hin. simpl in Hin.
      apply elem_of_cons in Hin as [Hin|Hin%list_elem_of_singleton]; discriminate Hin.
  - intros k b Hk. destruct rq; try done. intros id' ->.
    apply elem_of_cons in Hk as [Hk|Hk%list_elem_of_singleton]; discriminate Hk.
  - intros id' _ [Hin _]%andb_true_iff. apply bool_decide_eq_true in Hin. simpl in Hin.
    apply elem_of_cons in Hin as [Hin|Hin%list_elem_of_singleton]; discriminate Hin.
Qed.
End Requests.

(** *** The handlers *)

Lemma nothing_yet k : unissued [] ∧ unmade k [].
Proof. done. Qed.

(** A call that puts nothing, lawful where it is made. *)
Lemma silent_seg rq c h :
  silent c = true → lawful rq h c → always (lawful rq) (ok_then (λ h' a, mk_event c (Ok a) ∈ h' ∧ calmly h h')) h (call c).
Proof. intros Hs Hl. split; [done|]. intros [a|e]; [|done]. split; [apply event_of|by apply calm_step]. Qed.
Lemma draw_seg rq h :
  may_draw rq h → always (lawful rq) (ok_then (λ h' t, drew t h' ∧ calmly h h')) h (call NewUuid).
Proof. intros Hd. apply silent_seg; [done|]. by apply silent_lawful. Qed.
Lemma mint_seg rq g h :
  earned rq h g → always (lawful rq) (ok_then (λ h' _, calmly h h')) h (call (MintAccessToken g)).
Proof.
  intros Hg. eapply always_impl; [|apply silent_seg; [done|]].
  - intros h' [a|]; [|done]. by intros [_ Hc].
  - apply silent_lawful; [done| |done]. by intros g' [= <-].
Qed.

(** Silence after silence. *)
Ltac chain := first
  [ eassumption | apply calm_refl
  | match goal with Hc : calmly ?a ?h |- calmly _ ?h => eapply calm_trans; [|exact Hc]; chain end ].
Ltac calm := cbn beta in *; chain.

Lemma challenge_lawful i :
  (∀ n, ci_did i ≠ uuid n) → always (lawful (RqChallenge i)) (λ _ _, True) [] (handle_challenge keyspace_session_store i).
Proof.
  intros Hdid. unfold handle_challenge.
  eapply always_seq; [done|by apply call_seg|]. intros _ h1 _ [_ C1].
  eapply always_seq; [done|by apply call_seg|]. intros enrolled h2 _ [_ C2].
  eapply always_seq; [done|by apply call_seg|]. intros random h3 _ [_ C3].
  eapply always_seq; [done|by apply draw_seg|]. intros id h4 _ [Hdrew C4].
  eapply always_seq; [done|by apply call_seg|]. intros att h5 _ [_ C5].
  eapply always_seq; [done|by apply call_seg|]. intros now h6 _ [_ C6].
  eapply (always_seq _ (λ _ _, True)); [done| |done]. destruct enrolled; [|done].
  unfold with_cap. eapply always_seq; [done|apply internal_ok; by apply call_seg|]. intros _ h7 _ [_ C7].
  apply always_then. eapply (always_impl _ (λ _ _, True)).
  { intros h' r _. split; [by apply plain_lawful|]. intros [|]; [by destruct r|exact I]. }
  eapply (always_seq _ (λ h' _, calmly h7 h')); [done| |].
  { case_match; [apply plain_seg, make_room_plain|apply calm_refl]. }
  intros _ h8 _ C8.
  eapply (always_seq _ (λ h' _, unissued h')); [done|apply internal_ok, store_session_lawful|].
  - intros h' C9 Hseen. split; [split; [exact Hdid|done]|]. intros n Hn. simpl in Hn. subst id. split.
    + eapply event_kept; [|exact Hdrew]. apply calm_prefix. calm.
    + eapply unmade_calm; [|apply (nothing_yet (session_key (uuid n)))]. calm.
  - done.
  - intros h' C9 Hseen. apply (seen_uuids _ Hseen). eapply event_kept; [|exact Hdrew]. apply calm_prefix. calm.
  - eapply unissued_calm; [|apply (nothing_yet "")]; calm.
  - intros _ h9 _ _. split; [by apply plain_lawful|]. by intros [].
Qed.

(** A tombstone is a courtesy. *)
Lemma logged_lawful {A} rq (R : Trace → Prop) (p : SessionProg A) h :
  always (lawful rq) (λ h' _, R h') h p → always (lawful rq) (ok_then (λ h' _, R h')) h (logged p).
Proof. intros Hp. apply always_then. eapply always_impl; [|exact Hp]. by intros h' [a|e]. Qed.

Lemma retire_lawful rq did now successor old h :
  always (lawful rq) (λ _ _, True) h (retire_superseded keyspace_session_store did now successor old).
Proof.
  unfold retire_superseded. eapply (always_seq _ (λ _ _, True)); [done| |].
  { apply logged_lawful. eapply always_impl; [|apply plain_seg_any, take_id_plain]. done. }
  intros [[id|]|e] h1 _ _; [|done..].
  eapply (always_seq _ (λ _ _, True)); [done|apply logged_lawful, tombstone_lawful|done].
Qed.

(** What is minted comes with a token drawn. *)
Lemma mint_lawful rq did role contexts amr acr tee h :
  may_draw rq h →
  (∀ h' jti, h `prefix_of` h' → drew jti h' → earned rq h' (mk_grant did did role contexts amr acr tee (ttl_for acr) jti)) →
  always (lawful rq) (ok_then (λ h' m, drew (mt_refresh_token m) h' ∧ calmly h h')) h
    (mint_session_tokens did did role contexts amr acr tee).
Proof.
  intros Hdraw Hearn. unfold mint_session_tokens, mint_session_tokens_until.
  eapply always_seq; [done|by apply call_seg|]. intros now h1 P1 [_ C1].
  assert (∀ h', h `prefix_of` h' → may_draw rq h') as Hlater.
  { intros h' Hp. destruct rq; simpl in *; try done; (eapply row_taken_kept; [exact Hp|exact Hdraw]). }
  eapply always_seq; [done|by apply draw_seg, Hlater|]. intros token h2 P2 [Ht C2].
  eapply always_seq; [done|apply draw_seg, Hlater; by etrans|]. intros jti h3 P3 [Hj C3].
  assert (h `prefix_of` h3) as P by (by repeat (etrans; [eassumption|])).
  eapply always_seq; [done|apply mint_seg; by apply Hearn|]. intros access h4 P4 C4.
  eapply always_seq; [done|by apply call_seg|]. intros [] h5 P5 [_ C5].
  split; [|calm]. eapply event_kept; [|exact Ht]. apply calm_prefix. calm.
Qed.

Lemma authenticate_lawful i amr acr :
  always (lawful (RqAuthenticate i amr acr)) (λ _ _, True) [] (handle_authenticate_with_aal keyspace_session_store i amr acr).
Proof.
  unfold handle_authenticate_with_aal.
  eapply always_seq; [done|apply calm_seg, redeem_ok|]. intros [s now] h1 _ [Hred C1]. cbn [fst snd] in *.
  eapply always_seq; [done|by apply call_seg|]. intros role h2 P2 [Hrole C2].
  eapply always_seq; [done|apply mint_lawful|].
  { simpl. eapply row_taken_kept; [exact P2|apply Hred]. }
  { intros h' jti P' Hj. exists s, now, role, jti. split; [eapply redeemed_kept, Hred; by etrans|].
    split; [by eapply event_kept|done]. }
  intros m h3 P3 [Htok C3].
  eapply always_seq; [done|apply internal_ok, plain_seg, get_session_plain|]. intros prior h4 P4 C4.
  assert (unissued h4) as Hun4 by (eapply unissued_calm; [|apply (nothing_yet "")]; calm).
  eapply always_seq; [done|apply internal_ok, store_session_lawful|].
  - intros h' C5 Hseen. simpl.
    assert (named s) as [Hn _].
    { destruct (rd_session _ _ _ _ Hred) as (b & Hb & Hs). assert (h1 `prefix_of` h') as Pre by (apply calm_prefix; calm).
      destruct (seen_rows _ Hseen _ b (event_kept _ _ _ Pre Hb) _ eq_refl) as (s' & Hs' & _ & Hn). congruence. }
    split; [by split|]. intros n Hd. by destruct (Hn n).
  - done.
  - intros h' _ _. apply Hred.
  - exact Hun4.
  - intros ? h5 P5 Hun5. eapply (always_seq _ (λ _ _, True)); [done| |].
    { apply internal_ok. eapply always_impl; [|apply issue_lawful; [|exact Hun5]]; [by intros h' []|].
      eapply event_kept; [|exact Htok]. by etrans. }
    intros _ h6 _ _. eapply (always_seq _ (λ _ _, True)); [done| |done].
    case_match; [|done]. eapply always_impl; [|apply retire_lawful]. by intros h' [].
Qed.

(** *** A refresh *)

Lemma renewable_ok i s h :
  always Plain (ok_then (λ h' now, renewed_at i h' s now)) h (renewable i s).
Proof.
  unfold renewable, auth_refuse.
  eapply always_seq; [done|apply refuse_ok|]. intros [] h1 _ Hsigner.
  eapply always_seq; [done|apply refuse_ok|]. intros [] h2 P2 Hstate%bool_decide_eq_false.
  eapply always_seq; [done|by apply call_plain|]. intros now h3 P3 Hnow.
  eapply always_seq; [done|apply refuse_ok|]. intros [] h4 P4 Hexp.
  eapply always_seq; [done|apply refuse_ok|]. intros [] h5 P5 Hend.
  eapply always_seq; [done|apply refuse_ok|]. intros [] h6 P6 Hidle.
  split; try done.
  - intros signer Hs. rewrite Hs in Hsigner. apply bool_decide_eq_false in Hsigner. by destruct (decide (signer = ss_did s)).
  - by destruct (decide (ss_state s = Authenticated)).
  - eapply event_kept; [|exact Hnow]. by repeat (etrans; [eassumption|]).
  - intros e He. rewrite He in Hexp. lia.
Qed.

Lemma rotate_lawful i s now id h :
  current_claim (ri_refresh_token i) h id s → renewed_at i h s now → unissued h →
  always (lawful (RqRefresh i)) (λ _ _, True) h (rotate keyspace_session_store (ri_refresh_token i) s now).
Proof.
  intros Hcur Hren Hun. unfold rotate.
  assert (∀ h', h `prefix_of` h' → may_draw (RqRefresh i) h') as Hdraw.
  { intros h' Hp. destruct Hcur as [(b & Hb & _) _ _]. exists b. by eapply event_kept. }
  eapply always_seq; [done|by apply call_seg|]. intros role h1 P1 [Hrole C1].
  eapply always_seq; [done|by apply draw_seg, Hdraw|]. intros token h2 P2 [Ht C2].
  eapply always_seq; [done|apply draw_seg, Hdraw; by etrans|]. intros jti h3 P3 [Hj C3].
  eapply always_seq; [done|apply mint_seg|].
  { exists s, now, role, jti. split; [eapply event_kept; [|exact Hrole]; by etrans|]. split; [done|]. left.
    assert (h `prefix_of` h3) as P by (apply calm_prefix; calm).
    split; [exists id; by eapply current_claim_kept|]. split; [by eapply renewed_kept|done]. }
  intros access h4 P4 C4. assert (h `prefix_of` h4) as P by (apply calm_prefix; calm).
  eapply always_seq; [done|apply internal_ok, store_session_lawful|].
  - intros h' C5 Hseen. simpl. destruct (cc_session _ _ _ _ Hcur) as (b & Hb & Hs).
    assert (h `prefix_of` h') as Pre by (apply calm_prefix; calm).
    destruct (seen_rows _ Hseen _ b (event_kept _ _ _ Pre Hb) _ eq_refl) as (s' & Hs' & _ & [Hn Hid]).
    assert (s' = s) as -> by congruence. specialize (Hid (rn_state _ _ _ _ Hren)).
    split; [by split|]. intros n Hd. destruct (Hn n). congruence.
  - intros h' row C5 Hrow id' _. exists id, s. eexists. split; [|split; [by apply session_roundtrip, Hrow|]].
    { eapply session_read_kept; [|apply Hcur]. apply calm_prefix. calm. }
    repeat (split; [done|]). split; [by destruct (refresh_amr_acr s)|]. repeat (split; [done|]).
    eexists. split; [done|]. simpl. intros end_ Hend. unfold clamp_to_end. rewrite Hend. lia.
  - done.
  - eapply unissued_calm; [|exact Hun]. calm.
  - intros ? h5 P5 Hun5. eapply (always_seq _ (λ _ _, True)); [done| |].
    { apply internal_ok. eapply always_impl; [|apply issue_lawful; [|exact Hun5]]; [by intros h' []|].
      eapply event_kept; [|exact Ht]. etrans; [apply calm_prefix|exact P5]. calm. }
    intros _ h6 _ _. eapply (always_seq _ (λ _ _, True)); [done|apply logged_lawful, tombstone_lawful|].
    intros _ h7 _ _. eapply (always_seq _ (λ _ _, True)); [done| |done].
    eapply always_impl; [|by apply call_seg]. by intros h' [].
Qed.

Lemma replay_lawful i s now h :
  (∀ h', h `prefix_of` h' → past_end s now = false → retried i h' s now) →
  always (lawful (RqRefresh i)) (λ _ _, True) h (replay_rotation s now).
Proof.
  intros Hret. unfold replay_rotation, auth_refuse.
  eapply always_seq; [done|apply refuse_ok|]. intros [] h1 P1 Hend.
  eapply always_seq; [done|by apply call_seg|]. intros role h2 P2 [Hrole C2].
  destruct (ss_refresh_token s) as [token|]; [|done]. destruct (ss_token_id s) as [jti|] eqn:Hjti; [|done].
  eapply always_seq; [done|apply mint_seg|].
  { exists s, now, role, jti. split; [done|]. split; [done|]. right. split; [|done]. apply Hret; [by etrans|done]. }
  intros access h3 P3 C3. eapply (always_seq _ (λ _ _, True)); [done| |done].
  eapply always_impl; [|by apply call_seg]. by intros h' [].
Qed.

Lemma plain_tail {A} rq (p : SessionProg A) h : (∀ h, plainly h p) → always (lawful rq) (λ _ _, True) h p.
Proof. intros Hp. eapply always_impl; [|by apply plain_seg_any]. done. Qed.

Lemma refuse_retired_plain t session now : ∀ h, plainly h (refuse_retired keyspace_session_store t session now).
Proof.
  unfold refuse_retired. destruct (bool_decide _); [plain_tac|]. apply plainly_bind; [|plain_tac].
  destruct session as [s|]; [|plain_tac]. apply plainly_bind; [|plain_tac].
  apply plainly_then; [apply delete_session_plain|plain_tac].
Qed.

Lemma unclaimed_lawful i h :
  mk_event (TakeRow (refresh_key (ri_refresh_token i))) (Ok None) ∈ h →
  always (lawful (RqRefresh i)) (λ _ _, True) h (handle_unclaimed_refresh keyspace_session_store i).
Proof.
  intros Htake. unfold handle_unclaimed_refresh, auth_refuse.
  eapply always_seq; [done|apply internal_ok, calm_seg, get_tombstone_ok|]. intros found h1 P1 [Hfound C1].
  eapply always_seq; [done|apply lift_ok|]. intros t h2 P2 Ht%ok_or_ok. destruct (Hfound t Ht) as (b & Hb & Hts).
  eapply always_seq; [done|apply internal_ok, calm_seg, get_session_ok|]. intros session h3 P3 [Hs C3].
  eapply always_seq; [done|by apply call_seg|]. intros now h4 P4 [Hnow C4].
  destruct session as [s|]; [|apply plain_tail, refuse_retired_plain].
  destruct (is_innocent_retry _ _ _ _) eqn:Hretry; [|apply plain_tail, refuse_retired_plain].
  eapply always_seq; [done|apply refuse_ok|]. intros [] h5 P5 Hsigner. apply replay_lawful. intros h' P' Hend.
  assert (h3 `prefix_of` h') as P by (by repeat (etrans; [eassumption|])).
  split; [| | | |done].
  - eapply event_kept; [|exact Htake]. by repeat (etrans; [eassumption|]).
  - exists b, t. split; [eapply event_kept; [|exact Hb]; by repeat (etrans; [eassumption|])|]. split; [done|].
    split; [|done]. eapply session_read_kept; [exact P|]. by apply Hs.
  - intros signer Hsg. rewrite Hsg in Hsigner. apply bool_decide_eq_false in Hsigner. by destruct (decide (signer = ss_did s)).
  - eapply event_kept; [|exact Hnow]. by repeat (etrans; [eassumption|]).
Qed.

Lemma refresh_lawful i : always (lawful (RqRefresh i)) (λ _ _, True) [] (handle_refresh keyspace_session_store i).
Proof.
  unfold handle_refresh.
  eapply always_seq; [done|apply internal_ok, calm_seg, take_id_ok|]. intros claimed h1 _ [(raw & Htake & Hid) C1].
  destruct claimed as [id|]; [|apply unclaimed_lawful; destruct raw as [b|]; [by destruct Hid as (? & ? & ?)|exact Htake]].
  destruct raw as [b|]; [|done]. destruct Hid as (id' & Hutf & [= <-]).
  eapply always_seq; [done|apply internal_ok, calm_seg, get_session_ok|]. intros found h2 P2 [Hs C2].
  eapply always_seq; [done|apply calm_seg, lift_ok|]. intros s h3 P3 [Hf%ok_or_ok C3]. specialize (Hs s Hf).
  eapply always_seq; [done|apply internal_ok, calm_seg, current_hash_ok|]. intros recorded h4 P4 [(raw & Hraw & Hrec) C4].
  case_bool_decide as Hcurrent.
  { eapply (always_seq _ (λ _ _, True)); [done| |done]. unfold refuse_superseded.
    eapply (always_seq _ (λ _ _, True)); [done| |].
    { eapply always_impl; [|by apply call_seg]. by intros h' []. }
    intros now h5 _ _. eapply (always_seq _ (λ _ _, True)); [done|apply logged_lawful, tombstone_lawful|].
    intros _ h6 _ _. eapply always_impl; [|apply plain_tail; plain_tac]. by intros h' []. }
  eapply always_seq; [done|apply calm_seg, renewable_ok|]. intros now h5 P5 [Hren C5].
  eapply rotate_lawful; [|exact Hren|].
  - split.
    + exists b. split; [|done]. eapply event_kept; [|exact Htake]. by repeat (etrans; [eassumption|]).
    + eapply session_read_kept; [|exact Hs]. by repeat (etrans; [eassumption|]).
    + exists raw. split; [by eapply event_kept|]. destruct raw as [b'|].
      * destruct Hrec as (t & Ht & ->). congruence.
      * simpl in Hrec. subst recorded. exact Hcurrent.
  - eapply unissued_calm; [|apply (nothing_yet "")]. calm.
Qed.

(** *** Changes to a session as it stands *)

Definition same_identity (modify : Session → bool * Session) : Prop :=
  ∀ s, ss_session_id (modify s).2 = ss_session_id s ∧ ss_did (modify s).2 = ss_did s ∧ ss_state (modify s).2 = ss_state s.
Lemma named_same modify s : same_identity modify → named s → named (modify s).2.
Proof. intros Hm [Hn Hid]. destruct (Hm s) as (H1' & H2' & H3'). split; [by rewrite H2'|]. by rewrite H1', H2', H3'. Qed.

Lemma downgrade_same now : same_identity (downgrade_lapsed_elevation now).
Proof. intros s. unfold downgrade_lapsed_elevation. by destruct (ss_acr_expires_at s); [case_match|]. Qed.
Lemma clear_same did : same_identity (clear_if_of did).
Proof. intros s. unfold clear_if_of, clear_non_passkey_elevation. by repeat case_match. Qed.
Lemma elevate_same factor target until : same_identity (elevate factor target until).
Proof. by intros s. Qed.
Lemma seen_same now : same_identity (λ s, (true, (downgrade_lapsed_elevation now (with_last_seen now s)).2)).
Proof. intros s. simpl. by destruct (downgrade_same now (with_last_seen now s)) as (-> & -> & ->). Qed.

Section Updates.
Context (rq : SessionRequest) (Hrq : ∀ h k b, renews rq h k b).

(** The row is written in place of the one read. *)
Lemma replace_lawful h id b s s' row index :
  row_read h (session_key id) b → session_from_slice b = Ok s →
  ss_session_id s' = ss_session_id s ∧ ss_did s' = ss_did s ∧ ss_state s' = ss_state s →
  session_to_vec s' = Ok row →
  (∀ w, w ∈ index → ∃ b, w = Put (pending_challenge_key (ss_did s') (ss_session_id s')) b) →
  lawful rq h (RunBatch (mk_batch [Unchanged (session_key id) b] (Put (session_key id) row :: index))).
Proof.
  intros Hread Hs (Hsid & Hdid & Hst) Hrow Hindex. destruct (decide (ss_session_id s' = id)) as [Hid|Hne].
  - eapply (session_batch_lawful _ _ id s'); [|exact Hrow|exact Hid| |apply Hrq|].
    + intros k b' [Hk|Hin]%elem_of_cons; [left; by injection Hk as -> ->|].
      destruct (Hindex _ Hin) as [b'' [= -> ->]]. right. apply pending_other.
    + intros Hseen. destruct (seen_rows _ Hseen _ _ Hread _ eq_refl) as (s1 & Hs1 & Hid1 & [Hn Hauth]).
      assert (s1 = s) as -> by congruence. split; [split; [by rewrite Hdid|by rewrite Hdid, Hsid, Hst]|].
      intros n Hn'. left. simpl. by rewrite bool_decide_eq_true_2.
    + intros _. left. simpl. by rewrite bool_decide_eq_true_2.
  - assert (seen_ok h → False) as Hno; [|split; [by intros ?%Hno|done|done|intros k b' _; apply Hrq|by intros id' ?%Hno]].
    intros Hseen. destruct (seen_rows _ Hseen _ _ Hread _ eq_refl) as (s1 & Hs1 & Hid1 & _).
    assert (s1 = s) as -> by congruence. destruct Hne. by rewrite Hsid.
Qed.

Lemma update_lawful id modify h :
  same_identity modify → always (lawful rq) (λ _ _, True) h (update_session_with id modify).
Proof.
  intros Hm. unfold update_session_with. revert h. generalize SESSION_WRITE_ATTEMPTS. intros n.
  induction n as [|n IH]; intros h; [done|]. cbn [update_attempts].
  eapply always_seq; [done|by apply call_seg|]. intros [b|] h1 _ [Hb _]; [|done].
  eapply always_seq; [done|apply calm_seg, lift_ok|]. intros s h2 _ [Hs%map_err_ok C2].
  pose proof (Hm s) as Hsame. destruct (modify s) as [changed s']. simpl in Hsame. destruct changed; [|done]. simpl negb.
  eapply always_seq; [done|apply calm_seg, lift_ok|]. intros w h3 _ [(row & Hrow & ->)%staged_ok C3].
  eapply always_seq; [done|apply calm_seg, pending_index_ok|]. intros index h4 _ [Hindex C4].
  split.
  - eapply replace_lawful; [|exact Hs|exact Hsame|exact Hrow|exact Hindex].
    eapply event_kept; [|exact Hb]. apply calm_prefix. calm.
  - intros [o|e]; [|done]. simpl. destruct (is_applied o); [done|apply IH].
Qed.

Lemma touch_lawful id now h : always (lawful rq) (λ _ _, True) h (touch_session id now).
Proof.
  unfold touch_session. eapply always_seq; [done|apply plain_seg, get_session_plain|]. intros [s|] h1 _ _; [|done].
  eapply (always_seq _ (λ _ _, True)); [done| |done]. unfold touch_last_seen. destruct (recently_seen s now); [done|].
  eapply always_seq; [done|by apply call_seg|]. intros [b|] h2 _ [Hb _]; [|done].
  eapply always_seq; [done|apply calm_seg, lift_ok|]. intros current h3 _ [Hs%map_err_ok C3].
  destruct (recently_seen current now); [done|]. unfold replace_if_unchanged.
  eapply always_seq; [done|apply calm_seg, lift_ok|]. intros w h4 _ [(row & Hrow & ->)%staged_ok C4].
  split; [|by intros []].
  eapply (replace_lawful _ _ b current (with_last_seen now current)); [|exact Hs|done|exact Hrow|by intros w ?%elem_of_nil].
  eapply event_kept; [|exact Hb]. apply calm_prefix. calm.
Qed.

Lemma resolve_lawful did now h :
  opens rq did → (∀ n, did ≠ uuid n) → always (lawful rq) (λ _ _, True) h (resolve_did_session did now).
Proof.
  intros Hopens Hdid. unfold resolve_did_session. revert h. generalize SESSION_WRITE_ATTEMPTS. intros n.
  induction n as [|n IH]; intros h; [done|]. cbn [resolve_attempts].
  eapply (always_seq _ (λ _ _, True)); [done| |].
  { eapply always_impl; [|apply update_lawful, seen_same]. by intros h' []. }
  intros [s|] h1 _ _; [done|].
  eapply always_seq; [done|apply calm_seg, lift_ok|]. intros w h2 _ [(row & Hrow & ->)%staged_ok C2].
  split.
  - eapply (session_batch_lawful _ _ did (intrinsic_session did now)); [|exact Hrow|done| |apply Hrq|by right].
    + intros k b Hk%list_elem_of_singleton. left. by injection Hk as -> ->.
    + intros _. split; [by split|]. intros u Hu. by destruct (Hdid u).
  - intros [o|e]; [|done]. simpl. destruct (is_applied o); [done|apply IH].
Qed.

Lemma clear_each_lawful did l h : always (lawful rq) (λ _ _, True) h (clear_each did l).
Proof.
  revert h. induction l as [|s l IH]; intros h; [done|]. cbn [clear_each].
  eapply (always_seq _ (λ _ _, True)); [done| |intros _ h1 _ _; apply IH].
  eapply always_impl; [|apply update_lawful, clear_same]. by intros h' [].
Qed.
End Updates.

(** *** Every request *)

(** A DID is no random id. *)
Definition no_uuid (did : string) : Prop := ∀ n, did ≠ uuid n.
Definition well_addressed (rq : SessionRequest) : Prop :=
  match rq with RqChallenge i => no_uuid (ci_did i) | RqMessage did => no_uuid did | _ => True end.

Lemma answers_lawful {A} rq (p : SessionProg A) f h :
  always (lawful rq) (λ _ _, True) h p → always (lawful rq) (λ _ _, True) h (answers p f).
Proof.
  intros Hp. eapply (always_seq _ (λ _ _, True)); [done| |done]. eapply always_impl; [|exact Hp]. by intros h' [].
Qed.
Lemma clocked_lawful {A} rq (f : Z → SessionProg A) h :
  (∀ now h', always (lawful rq) (λ _ _, True) h' (f now)) → always (lawful rq) (λ _ _, True) h (now ← call ReadClock; f now).
Proof. intros Hf. eapply always_seq; [done|by apply call_seg|]. intros now h1 _ _. apply Hf. Qed.

Theorem request_lawful rq : well_addressed rq → always (lawful rq) (λ _ _, True) [] (run_session rq).
Proof.
  intros Hok. destruct rq; cbn [run_session]; apply answers_lawful.
  - by apply challenge_lawful.
  - apply authenticate_lawful.
  - apply refresh_lawful.
  - apply clocked_lawful. intros now h. by apply resolve_lawful.
  - apply clocked_lawful. intros now h. by apply touch_lawful.
  - apply plain_tail, delete_session_plain.
  - apply clocked_lawful. intros now h. apply update_lawful; [done|apply elevate_same].
  - eapply always_seq; [done|apply plain_seg, list_sessions_plain|]. intros l h1 _ _. by apply clear_each_lawful.
  - apply plain_tail, step_up_auth_plain.
  - apply plain_tail, cleanup_plain.
Qed.
End Lawful.
End SessionSafety.
