(* ===== verification/SessionService.v ===== *)
(** * The sessions of a running service

    Requests of [SessionSafety] served together, over one keyspace, while
    store operations fail or are given up on and land later, and the process
    restarts: what every token minted was minted for; that a challenge is
    redeemed, and a refresh token rotated, at most once; and what a refresh
    may change in the session it renews. *)

From S2P Require Import Prelude Text Json Host Programs Keyspace Acl Sessions Login SessionSafety.

Section SessionService.
Context `{AuthBackend, SessionSerde, !SessionSerdeLaws, Sha256, Chrono, RandomSource, !RandomLaws, !AuthHost}.

(** Every session's row is of that session. *)
Definition rows_ok (w : AuthWorld) : Prop := ∀ k b, aw_rows w !! k = Some b → row_ok k b.
(** Some request's. *)
Definition any_lawful (h : Trace) (c : SessionCall) : Prop := ∃ rq, lawful rq h c.

(** ** Events *)

Definition read_of (ev : Event SessionCall) : option (string * bytes) :=
  match ev with
  | mk_event c r =>
      match c return result AppError (Reply c) → option (string * bytes) with
      | ReadRow k => λ r, match r with Ok (Some b) => Some (k, b) | _ => None end
      | _ => λ _, None
      end r
  end.
Definition drew_of (ev : Event SessionCall) : option string :=
  match ev with
  | mk_event c r =>
      match c return result AppError (Reply c) → option string with
      | NewUuid => λ r, match r with Ok t => Some t | _ => None end
      | _ => λ _, None
      end r
  end.
Definition took_of (ev : Event SessionCall) : option (string * bytes) :=
  match ev with
  | mk_event c r =>
      match c return result AppError (Reply c) → option (string * bytes) with
      | TakeRow k => λ r, match r with Ok (Some b) => Some (k, b) | _ => None end
      | _ => λ _, None
      end r
  end.

Lemma read_last h ev k b : row_read (h ++ [ev]) k b → row_read h k b ∨ read_of ev = Some (k, b).
Proof. intros [Hin|Hin%list_elem_of_singleton]%elem_of_app; [by left|right; by subst ev]. Qed.
Lemma drew_last h ev t : drew t (h ++ [ev]) → drew t h ∨ drew_of ev = Some t.
Proof. intros [Hin|Hin%list_elem_of_singleton]%elem_of_app; [by left|right; by subst ev]. Qed.

(** What the rows come to. *)
Lemma exec_row c w k b :
  aw_rows (session_exec c w).2 !! k = Some b →
  aw_rows w !! k = Some b ∨ puts c k b ∧ (guarded k c = true → is_Some (aw_rows w !! k)).
Proof.
  destruct c as [k'|k'|k' b'|k'|batch| | | | | | | | | | | | | | ]; simpl; try (by left).
  - intros Hk%lookup_delete_Some. left. tauto.
  - intros [[-> ->]|[_ Hk]]%lookup_insert_Some; [right; by split|by left].
  - intros Hk%lookup_delete_Some. left. tauto.
  - destruct (apply_batch batch (aw_rows w)) as [r m] eqn:Ha. simpl. intros Hk.
    assert ((apply_batch batch (aw_rows w)).2 !! k = Some b) as Hk' by (by rewrite Ha).
    destruct (applied_lookup _ _ _ _ Hk') as [Hold|[Hput Hchecks]]; [by left|]. right. split; [done|].
    intros (p & Hp & Hg)%existsb_exists. destruct p as [|?|k' e]; [done..|]. apply bool_decide_eq_true in Hg as ->.
    apply list_elem_of_In in Hp. apply Hchecks, bool_decide_eq_true in Hp. by rewrite Hp.
Qed.

Lemma seen_step h c r :
  seen_ok h → (∀ k b, read_of (mk_event c r) = Some (k, b) → row_ok k b) →
  (∀ t, drew_of (mk_event c r) = Some t → ∃ n, t = uuid n) → seen_ok (h ++ [mk_event c r]).
Proof.
  intros [Hrows Huuids] Hr Hu. split; [by intros k b [?|?]%read_last; [apply Hrows|apply Hr]|].
  by intros t [?|?]%drew_last; [apply Huuids|apply Hu].
Qed.

Lemma seen_nil : seen_ok [].
Proof. split; [intros k b Hr|intros t Hr]; by apply elem_of_nil in Hr. Qed.

Lemma exec_keeps h c w : seen_ok h → any_lawful h c → rows_ok w →
  rows_ok (session_exec c w).2 ∧ seen_ok (h ++ [mk_event c (session_exec c w).1]).
Proof.
  intros Hseen [rq Hlaw] Hw. split.
  - intros k b [Hold|[Hput _]]%exec_row; [by apply Hw|]. exact (dis_rows _ _ (law_writes _ _ _ Hlaw Hseen) k b Hput).
  - apply seen_step; [done| |].
    + intros k b. destruct c; try done. simpl. destruct (aw_rows w !! k0) as [b'|] eqn:Hk; [|done]. intros [= <- <-].
      by apply Hw.
    + intros t. destruct c; try done. simpl. intros [= <-]. by eexists.
Qed.

Lemma glitch_keeps h c w r w' : seen_ok h → any_lawful h c → rows_ok w → session_glitch c w r w' →
  rows_ok w' ∧ seen_ok (h ++ [mk_event c r]).
Proof.
  intros Hseen _ Hw [-> Hr]. split; [done|]. apply seen_step; [done|..].
  - intros k b. destruct c; try done. by destruct r.
  - intros t. destruct c; try done. by destruct r.
Qed.
Lemma late_keeps h c e : seen_ok h → any_lawful h c → outlives c → seen_ok (h ++ [mk_event c (Err e)]).
Proof. intros Hseen _ _. apply seen_step; [done|..]; intros ? *; by destruct c. Qed.

Lemma requests_lawful rqs i p :
  Forall well_addressed rqs → (run_session <$> rqs) !! i = Some p → always any_lawful (λ _ _, True) [] p.
Proof.
  intros Hrqs Hi. rewrite list_lookup_fmap in Hi. apply fmap_Some in Hi as (rq & Hi & ->).
  eapply always_allows; [|apply (request_lawful rq); by eapply Forall_lookup_1]. intros h c Hl. by exists rq.
Qed.

(** What a request called was lawful. *)
Lemma thread_lawful w rqs s i t rq ev :
  Forall well_addressed rqs → rtc service_step (mk_service w [] (begin <$> (run_session <$> rqs))) s →
  rqs !! i = Some rq → sv_threads s !! i = Some t → ev ∈ th_history t →
  ∃ h, h `prefix_of` th_history t ∧ lawful rq h (ev_call ev).
Proof.
  intros Hrqs Hrun Hrq Hi Hev. destruct (service_traced _ _ _ _ _ Hrun Hi) as (p & p' & Hp & Ht).
  rewrite list_lookup_fmap, Hrq in Hp. injection Hp as <-.
  eapply (traced_event _ _ _ _ _ _ Ht); [|exact Hev]. apply request_lawful. by eapply Forall_lookup_1.
Qed.
Lemma thread_draws w rqs s i t rq x :
  Forall well_addressed rqs → rtc service_step (mk_service w [] (begin <$> (run_session <$> rqs))) s →
  rqs !! i = Some rq → sv_threads s !! i = Some t → drew x (th_history t) → may_draw rq (th_history t).
Proof.
  intros Hrqs Hrun Hrq Hi Hx. destruct (thread_lawful _ _ _ _ _ _ _ Hrqs Hrun Hrq Hi Hx) as (h & Hp & Hl).
  pose proof (law_draws _ _ _ Hl eq_refl) as Hd. destruct rq; simpl in *; try done; by eapply row_taken_kept.
Qed.

(** ** What is drawn once is taken once *)

Section Once.
#[local] Open Scope nat_scope.
Context (κ : string) (n : nat).
Context (Hκ : ∀ h c, seen_ok h → disciplined h c → inserts κ c = true → drew (uuid n) h ∧ ever (inserts κ) h = false).

Definition takes_it (ev : Event SessionCall) : nat :=
  match took_of ev with Some (k, _) => if bool_decide (k = κ) then 1 else 0 | None => 0 end.
Definition unused (h : Trace) : nat :=
  if existsb (λ ev, bool_decide (drew_of ev = Some (uuid n))) h && negb (ever (inserts κ) h) then 1 else 0.
Definition claims_in (h : Trace) : nat := unused h + sum_list_with takes_it h.
Definition in_rows (w : AuthWorld) : nat := if bool_decide (is_Some (aw_rows w !! κ)) then 1 else 0.
Definition undrawn (w : AuthWorld) : nat := if (aw_drawn w <=? n)%nat then 1 else 0.
Definition claims_left (w : AuthWorld) : nat := undrawn w + in_rows w.
Definition may_bring (c : SessionCall) : nat := if inserts κ c then 1 else 0.

Lemma unused_step h ev :
  unused (h ++ [ev]) ≤ unused h + (if bool_decide (drew_of ev = Some (uuid n)) then 1 else 0).
Proof.
  unfold unused. rewrite ever_app, existsb_app. simpl. rewrite !orb_false_r.
  destruct (existsb _ h), (ever _ h), (bool_decide _), (inserts κ _); simpl; lia.
Qed.
Lemma unused_inserted h c r : any_lawful h c → seen_ok h → inserts κ c = true →
  unused h = 1 ∧ unused (h ++ [mk_event c r]) = 0.
Proof.
  intros [rq Hl] Hseen Hins. destruct (Hκ h c Hseen (law_writes _ _ _ Hl Hseen) Hins) as [Hd He].
  unfold unused. rewrite ever_app, He. simpl. rewrite Hins, andb_false_r. split; [|done].
  assert (existsb (λ ev, bool_decide (drew_of ev = Some (uuid n))) h = true) as ->; [|done].
  apply existsb_exists. eexists. split; [by apply list_elem_of_In, Hd|]. simpl. by apply bool_decide_eq_true.
Qed.
Lemma claims_in_last h ev : claims_in (h ++ [ev]) = (unused (h ++ [ev]) + sum_list_with takes_it h + takes_it ev)%nat.
Proof. unfold claims_in. rewrite sum_list_with_app. simpl. lia. Qed.

Lemma in_rows_step c w : (in_rows (session_exec c w).2 ≤ in_rows w + may_bring c)%nat.
Proof.
  unfold in_rows, may_bring. case_bool_decide as Hnew; [|lia]. destruct Hnew as [b Hb].
  destruct (exec_row _ _ _ _ Hb) as [Hold|[Hput Hg]].
  - rewrite bool_decide_eq_true_2 by (by eexists). lia.
  - unfold inserts. rewrite (bool_decide_eq_true_2 _ (puts_keys _ _ _ Hput)). simpl. destruct (guarded κ c); simpl.
    + rewrite bool_decide_eq_true_2 by (by apply Hg). lia.
    + lia.
Qed.

Lemma undrawn_mono w w' : aw_drawn w ≤ aw_drawn w' → undrawn w' ≤ undrawn w.
Proof. unfold undrawn. destruct (Nat.leb_spec (aw_drawn w') n), (Nat.leb_spec (aw_drawn w) n); lia. Qed.
Lemma undrawn_used w : aw_drawn w = n → undrawn (draw w) + 1 ≤ undrawn w.
Proof. unfold undrawn, draw. cbn [aw_drawn]. intros ->. destruct (Nat.leb_spec (S n) n), (Nat.leb_spec n n); lia. Qed.
Lemma drawn_grows c w : aw_drawn w ≤ aw_drawn (session_exec c w).2.
Proof. destruct c; simpl; try lia. destruct (apply_batch b (aw_rows w)). simpl. lia. Qed.

Lemma taken_it w b : aw_rows w !! κ = Some b → in_rows (with_auth_rows (delete κ (aw_rows w)) w) = 0 ∧ in_rows w = 1.
Proof.
  intros Hk. unfold in_rows. simpl. rewrite bool_decide_eq_false_2 by (rewrite lookup_delete_eq; by intros []).
  by rewrite bool_decide_eq_true_2 by (by rewrite Hk).
Qed.

Lemma claims_do h c w r w' : seen_ok h → any_lawful h c → rows_ok w → may_do c w r w' →
  (claims_left w' + claims_in (h ++ [mk_event c r]) ≤ claims_left w + claims_in h)%nat.
Proof.
  intros Hseen Hl _ Hm. rewrite claims_in_last. unfold claims_in, claims_left.
  pose proof (unused_step h (mk_event c r)) as Hu.
  assert (drew_of (mk_event c r) = Some (uuid n) → (undrawn w' + 1 ≤ undrawn w)%nat ∧ takes_it (mk_event c r) = 0 ∧ in_rows w' = in_rows w) as Hdraw.
  { destruct c; try done. destruct Hm as [He|[-> He]]; [|by destruct r]. injection He as <- <-. intros [= Hn%(inj uuid)].
    split; [by apply undrawn_used|done]. }
  assert (undrawn w' ≤ undrawn w)%nat as Hmono.
  { destruct Hm as [He|[-> _]]; [|lia]. change (session_exec c w = (r, w')) in He.
    apply undrawn_mono. pose proof (drawn_grows c w) as Hd. by rewrite He in Hd. }
  assert (in_rows w' + takes_it (mk_event c r) ≤ in_rows w + may_bring c)%nat as Hrows.
  { destruct Hm as [He|[-> He]].
    - change (session_exec c w = (r, w')) in He. pose proof (in_rows_step c w) as Hs. rewrite He in Hs. simpl in Hs.
      destruct c as [k|k|k b|k|batch| | | | | | | | | | | | | | ]; try (change (takes_it _) with 0; lia).
      injection He as <- <-. destruct (aw_rows w !! k) as [b|] eqn:Hk; [|change (takes_it _) with 0; lia].
      destruct (decide (k = κ)) as [->|Hne].
      + pose proof (taken_it w b Hk) as [-> ->]. unfold takes_it. simpl. by rewrite bool_decide_eq_true_2.
      + assert (takes_it (@mk_event SessionCall _ (TakeRow k) (Ok (Some b))) = 0) as ->; [|lia].
        unfold takes_it. simpl. by rewrite bool_decide_eq_false_2.
    - assert (takes_it (mk_event c r) = 0) as ->; [|lia]. unfold takes_it. destruct c; try done. by destruct r. }
  destruct (inserts κ c) eqn:Hins.
  - destruct (unused_inserted h c r Hl Hseen Hins) as [-> ->]. unfold may_bring in Hrows. rewrite Hins in Hrows. lia.
  - unfold may_bring in Hrows. rewrite Hins in Hrows. case_bool_decide as Hd; [|lia].
    destruct (Hdraw Hd) as (? & ? & ?). lia.
Qed.

Lemma claims_late h c e : seen_ok h → any_lawful h c → outlives c →
  (may_bring c + claims_in (h ++ [mk_event c (Err e)]) ≤ claims_in h)%nat.
Proof.
  intros Hseen Hl _. rewrite claims_in_last. unfold claims_in, may_bring.
  assert (takes_it (mk_event c (Err e)) = 0) as -> by (unfold takes_it; by destruct c).
  assert (drew_of (mk_event c (Err e)) = None) as Hd by (by destruct c).
  destruct (inserts κ c) eqn:Hins.
  - destruct (unused_inserted h c (Err e) Hl Hseen Hins) as [-> ->]. lia.
  - pose proof (unused_step h (mk_event c (Err e))) as Hu. rewrite Hd in Hu. simpl in Hu. lia.
Qed.

Lemma claims_land h c w : seen_ok h → any_lawful h c → rows_ok w →
  (claims_left (session_exec c w).2 ≤ claims_left w + may_bring c)%nat.
Proof.
  intros _ _ _. unfold claims_left. pose proof (in_rows_step c w).
  pose proof (undrawn_mono _ _ (drawn_grows c w)). lia.
Qed.

Lemma taken_claims h : row_taken h κ → (0 < claims_in h)%nat.
Proof.
  intros [b Hin]. apply list_elem_of_split in Hin as (h1 & h2 & ->). unfold claims_in. rewrite sum_list_with_app. simpl.
  unfold takes_it at 2. simpl. rewrite bool_decide_eq_true_2 by done. lia.
Qed.

(** At most one request takes it, from when it was not yet drawn, or there. *)
Lemma taken_once w rqs s i j t u :
  rows_ok w → ((aw_drawn w ≤ n)%nat → aw_rows w !! κ = None) → Forall well_addressed rqs →
  rtc service_step (mk_service w [] (begin <$> (run_session <$> rqs))) s →
  sv_threads s !! i = Some t → sv_threads s !! j = Some u →
  row_taken (th_history t) κ → row_taken (th_history u) κ → i = j.
Proof.
  intros Hw Hnew Hrqs Hrun Hi Hj Ht%taken_claims Hu%taken_claims.
  assert (claims_left w ≤ 1) as Hone.
  { unfold claims_left, undrawn, in_rows. destruct (Nat.leb_spec (aw_drawn w) n); [|case_bool_decide; lia].
    rewrite Hnew by done. simpl. lia. }
  apply (@service_weight SessionCall _ session_calls _ rows_ok seen_ok any_lawful (λ _ _ _, True) exec_keeps glitch_keeps late_keeps)
    with (of_world := claims_left) (of_late := may_bring) (of_history := claims_in) (w := w) (ps := run_session <$> rqs) (s := s) (t := t) (u := u);
    try done.
  - intros w1 w2 (Hr & _ & _). unfold rows_ok. by rewrite Hr.
  - exact claims_do.
  - exact claims_late.
  - exact claims_land.
  - intros w1 w2 (Hr & _ & Hd). unfold claims_left, in_rows. rewrite Hr. pose proof (undrawn_mono w1 w2 Hd). lia.
  - apply seen_nil.
  - intros m p Hm. by eapply requests_lawful.
Qed.
End Once.

(** ** Signing out *)

Section SignedOut.
Context (X : string) (HX : no_uuid X).

Definition logs_in (rq : SessionRequest) : Prop :=
  match rq with RqAuthenticate i _ _ => ai_signer_did i = X | RqMessage did => did = X | _ => False end.
Definition signed_out (w : AuthWorld) : Prop := rows_ok w ∧ aw_rows w !! session_key X = None.
Definition never_seen (h : Trace) : Prop := seen_ok h ∧ ∀ b, ¬ row_read h (session_key X) b.
Definition others_lawful (h : Trace) (c : SessionCall) : Prop := ∃ rq, lawful rq h c ∧ ¬ logs_in rq.

Lemma others_any h c : others_lawful h c → any_lawful h c.
Proof. intros (rq & Hl & _). by exists rq. Qed.

(** A refresh writes the session it read. *)
Lemma not_brought_back h c b : never_seen h → others_lawful h c → puts c (session_key X) b → guarded (session_key X) c = true.
Proof.
  intros [Hseen Hno] (rq & Hl & Hnot) Hput. destruct (guarded (session_key X) c) eqn:Hg; [done|]. exfalso.
  assert (inserts (session_key X) c = true) as Hins.
  { unfold inserts. by rewrite (bool_decide_eq_true_2 _ (puts_keys _ _ _ Hput)), Hg. }
  pose proof (law_opens _ _ _ Hl X Hseen Hins) as Hop. pose proof (law_renews _ _ _ Hl _ _ Hput) as Hren.
  destruct rq; simpl in Hop, Hnot; try done; [by destruct Hop as [n ?%HX]|].
  destruct (Hren X eq_refl) as (id & old & s & (b' & Hb' & Hold) & Hs & Hid & _).
  destruct (dis_rows _ _ (law_writes _ _ _ Hl Hseen) _ _ Hput X eq_refl) as (s' & Hs' & HidX & _).
  destruct (seen_rows _ Hseen _ _ Hb' id eq_refl) as (old' & Hold' & HidO & _).
  assert (s' = s) as -> by congruence. assert (old' = old) as -> by congruence.
  apply (Hno b'). by replace X with id by congruence.
Qed.

Lemma signed_out_exec h c w : never_seen h → others_lawful h c → signed_out w →
  signed_out (session_exec c w).2 ∧ never_seen (h ++ [mk_event c (session_exec c w).1]).
Proof.
  intros [Hseen Hno] Hc [Hw Hout]. destruct (exec_keeps h c w Hseen (others_any _ _ Hc) Hw) as [Hw' Hseen'].
  split; (split; [done|]).
  - apply eq_None_not_Some. intros [b [Hold|[Hput Hg]]%exec_row]; [congruence|].
    destruct (Hg (not_brought_back h c b (conj Hseen Hno) Hc Hput)). congruence.
  - intros b [Hr|Hr]%read_last; [by destruct (Hno b)|]. destruct c; try done. simpl in Hr.
    destruct (aw_rows w !! k) eqn:Hk; [|done]. injection Hr as -> ->. congruence.
Qed.
Lemma signed_out_glitch h c w r w' : never_seen h → others_lawful h c → signed_out w → session_glitch c w r w' →
  signed_out w' ∧ never_seen (h ++ [mk_event c r]).
Proof.
  intros [Hseen Hno] Hc [Hw Hout] Hgl. destruct (glitch_keeps h c w r w' Hseen (others_any _ _ Hc) Hw Hgl) as [Hw' Hseen'].
  destruct Hgl as [-> Hr]. split; [done|]. split; [done|].
  intros b [Hb|Hb]%read_last; [by destruct (Hno b)|]. destruct c; try done. by destruct r.
Qed.
Lemma signed_out_late h c e : never_seen h → others_lawful h c → outlives c → never_seen (h ++ [mk_event c (Err e)]).
Proof.
  intros [Hseen Hno] Hc Ho. split; [by apply late_keeps; [|apply others_any|]|].
  intros b [Hb|Hb]%read_last; [by destruct (Hno b)|]. by destruct c.
Qed.
End SignedOut.

(** ** What holds of the service *)

(** C5 (minted for a reason): an access token is minted for a challenge that
    was redeemed - pending, answered by its subject in time, and claimed - by
    a caller the access list allows; or for a refresh token that was claimed
    and current, its session authenticated and renewable, or retried within
    the grace; at the session's own level, for the session's own subject. *)
Theorem mint_earned rq h p g :
  well_addressed rq → traced (run_session rq) h p → next_call p = Some (MintAccessToken g) → earned rq h g.
Proof.
  intros Hrq Ht Hn. pose proof (traced_always _ _ _ _ _ Ht (request_lawful rq Hrq)) as Ha.
  by apply (law_mints _ _ _ (always_next _ _ _ _ _ Ha Hn)).
Qed.

(** C16 (renewed within its bounds): the session a refresh writes is the one it
    read, at the same level, elevated until the same time, its inactivity not
    reset, its refresh token ending with it; and what it mints ends by the
    session's end. *)
Theorem renewal_bounded i h p c :
  traced (run_session (RqRefresh i)) h p → next_call p = Some c →
  (∀ id b, puts c (session_key id) b →
     ∃ id' old s, session_read h id' old ∧ session_from_slice b = Ok s ∧ continues old s)
  ∧ (∀ g, c = MintAccessToken g →
     ∃ id s now, session_read h id s ∧ at_time h now ∧ ag_session_id g = ss_session_id s ∧ ag_subject g = ss_did s
       ∧ ∀ end_, ss_not_after s = Some end_ → now + ag_ttl g ≤ end_).
Proof.
  intros Ht Hn. pose proof (traced_always _ _ _ _ _ Ht (request_lawful (RqRefresh i) I)) as Ha.
  pose proof (always_next _ _ _ _ _ Ha Hn) as Hl. split.
  - intros id b Hput. by apply (law_renews _ _ _ Hl _ _ Hput id).
  - intros g Hg. destruct (law_mints _ _ _ Hl g Hg) as (s & now & role & jti & _ & Hc & Hwhy).
    unfold carries_on in Hc. subst g.
    assert (∃ id, session_read h id s) as [id Hread].
    { destruct Hwhy as [[[id Hcur] _]|[Hret _]]; [exists id; apply Hcur|].
      destruct (rt_tombstone _ _ _ _ Hret) as (b & t & _ & _ & Hs & _). by eexists. }
    exists id, s, now. split; [done|]. split; [destruct Hwhy as [(_ & Hr & _)|[Hr _]]; apply Hr|].
    do 2 (split; [done|]). intros end_ Hend. simpl.
    assert (past_end s now = false) as Hpast by (destruct Hwhy as [(_ & Hr & _)|[Hr _]]; apply Hr).
    unfold past_end in Hpast. unfold clamped_access_ttl, ttl_until, u64_saturating_sub. rewrite Hend in *. lia.
Qed.

(** C6 (a refresh token is rotated once): however requests interleave, fail
    and are retried, at most one refresh of a token draws the next one. *)
Theorem refresh_spent_once w rqs s i j t u a b n x y :
  rows_ok w → ((aw_drawn w ≤ n)%nat → aw_rows w !! refresh_key (uuid n) = None) →
  (∀ m, sha256 (as_bytes (uuid m)) = sha256 (as_bytes (uuid n)) → m = n) →
  Forall well_addressed rqs → rtc service_step (mk_service w [] (begin <$> (run_session <$> rqs))) s →
  rqs !! i = Some (RqRefresh a) → rqs !! j = Some (RqRefresh b) →
  ri_refresh_token a = uuid n → ri_refresh_token b = uuid n →
  sv_threads s !! i = Some t → sv_threads s !! j = Some u →
  drew x (th_history t) → drew y (th_history u) → i = j.
Proof.
  intros Hw Hnew Hsha Hrqs Hrun Hra Hrb Ha Hb Hi Hj Hx Hy.
  refine (taken_once (refresh_key (uuid n)) n _ w rqs s i j t u Hw Hnew Hrqs Hrun Hi Hj _ _).
  - intros h c Hseen Hd Hins. destruct (dis_issue _ _ Hd (uuid n) Hins) as [(t' & Hkey & Ht') Hnone]. split.
    + destruct (seen_uuids _ Hseen _ Ht') as [m ->]. by rewrite <- (Hsha m (refresh_key_hash _ _ Hkey)).
    + apply existsb_false. intros ev Hin. apply not_true_is_false. intros Hev%issues_refresh.
      apply (existsb_false (λ ev, issues (ev_call ev))) with (x := ev) in Hnone; [congruence|done].
  - rewrite <- Ha. exact (thread_draws _ _ _ _ _ _ _ Hrqs Hrun Hra Hi Hx).
  - rewrite <- Hb. exact (thread_draws _ _ _ _ _ _ _ Hrqs Hrun Hrb Hj Hy).
Qed.

(** C8 (a challenge is redeemed once): however requests interleave, fail and
    are retried, at most one answer to a challenge mints a token. *)
Theorem challenge_redeemed_once w rqs s i j t u a b n amr acr amr' acr' g g' r r' :
  rows_ok w → ((aw_drawn w ≤ n)%nat → aw_rows w !! session_key (uuid n) = None) → Forall well_addressed rqs →
  rtc service_step (mk_service w [] (begin <$> (run_session <$> rqs))) s →
  rqs !! i = Some (RqAuthenticate a amr acr) → rqs !! j = Some (RqAuthenticate b amr' acr') →
  ai_session_id a = uuid n → ai_session_id b = uuid n →
  sv_threads s !! i = Some t → sv_threads s !! j = Some u →
  mk_event (MintAccessToken g) r ∈ th_history t → mk_event (MintAccessToken g') r' ∈ th_history u → i = j.
Proof.
  intros Hw Hnew Hrqs Hrun Hra Hrb Ha Hb Hi Hj Hg Hg'.
  assert (∀ i t a amr acr g r, rqs !! i = Some (RqAuthenticate a amr acr) → ai_session_id a = uuid n →
    sv_threads s !! i = Some t → mk_event (MintAccessToken g) r ∈ th_history t →
    row_taken (th_history t) (session_key (uuid n))) as Htook.
  { clear - Hrqs Hrun H0 H1. intros i t a amr acr g r Hra Ha Hi Hg.
    destruct (thread_lawful _ _ _ _ _ _ _ Hrqs Hrun Hra Hi Hg) as (h & Hp & Hl).
    destruct (law_mints _ _ _ Hl g eq_refl) as (s0 & now & role & jti & Hred & _). rewrite <- Ha.
    eapply row_taken_kept; [exact Hp|apply Hred]. }
  refine (taken_once (session_key (uuid n)) n _ w rqs s i j t u Hw Hnew Hrqs Hrun Hi Hj _ _);
    [|exact (Htook _ _ _ _ _ _ _ Hra Ha Hi Hg)|exact (Htook _ _ _ _ _ _ _ Hrb Hb Hj Hg')].
  intros h c _ Hd Hins. by apply (dis_open _ _ Hd).
Qed.

(** C27 (signed out, and staying so): once the session kept under a subject's
    DID is gone, and no request is under way, none of the requests that begin
    from then on - refreshes of its tokens, activity, elevation, tokens, and
    anything of anyone else's, in every interleaving and with every failure -
    brings its row back: only its subject's next login or message does. (No
    subject here is itself an id drawn at random, as challenges have.) A
    refresh that read the row before it went may still write it back
    ([SessionRuns.signed_out_and_written_back]). *)
Theorem signed_out_stays X w rqs s :
  no_uuid X → rows_ok w → aw_rows w !! session_key X = None → Forall well_addressed rqs →
  Forall (λ rq, ¬ logs_in X rq) rqs → rtc service_step (mk_service w [] (begin <$> (run_session <$> rqs))) s →
  aw_rows (sv_world s) !! session_key X = None.
Proof.
  intros HX Hw Hout Hrqs Hnot Hrun.
  apply (@service_always SessionCall _ session_calls _ (signed_out X) (never_seen X) (others_lawful X) (λ _ _ _, True)
    (signed_out_exec X HX) (signed_out_glitch X) (signed_out_late X)) in Hrun; try done.
  - apply Hrun.
  - intros w1 w2 (Hr & _ & _) [Hw1 Hout1]. split; [unfold rows_ok|]; by rewrite Hr.
  - split; [apply seen_nil|]. by intros b Hb%elem_of_nil.
  - intros m p Hm. rewrite list_lookup_fmap in Hm. apply fmap_Some in Hm as (rq & Hm & ->).
    eapply always_allows; [|apply (request_lawful rq); by eapply Forall_lookup_1].
    intros h c Hl. exists rq. split; [done|]. exact (Forall_lookup_1 _ _ _ _ Hnot Hm).
Qed.

(** *** A token accepted *)

(** What a token's session shows. *)
Record authenticates (token : string) (h : Trace) (claims : AuthClaims) (s : Session) : Prop := {
  au_claims : ∃ jc role, mk_event (DecodeToken token) (Ok jc) ∈ h ∧ session_read h (jc_session_id jc) s
    ∧ (∀ pinned, ss_token_id s = Some pinned → jc_jti jc = pinned) ∧ role_parse (jc_role jc) = Ok role
    ∧ claims = mk_claims (jc_sub jc) role (jc_contexts jc) (jc_session_id jc) (jc_exp jc) (jc_iat jc) (jc_amr jc) (jc_acr jc);
  au_state : ss_state s = Authenticated;
}.
Lemma authenticates_kept token h h' claims s : h `prefix_of` h' → authenticates token h claims s → authenticates token h' claims s.
Proof.
  intros Hp [(jc & role & Hd & Hr & Hrest) ?]. split; [|done]. exists jc, role. split; [by eapply event_kept|].
  split; [by eapply session_read_kept|done].
Qed.

Lemma authenticate_ok token h :
  always (λ _ c, plain c = true) (ok_then (λ h' r, authenticates token h' r.1 r.2)) h (authenticate_token token).
Proof.
  unfold authenticate_token.
  eapply always_seq; [done|by apply call_plain|]. intros jc h1 _ Hdec.
  eapply always_seq; [done|apply get_session_ok|]. intros found h2 P2 Hread.
  eapply always_seq; [done|apply lift_ok|]. intros s h3 P3 Hs%ok_or_ok. specialize (Hread s Hs).
  eapply always_seq; [done|apply refuse_ok|]. intros [] h4 P4 Hstate%bool_decide_eq_false.
  eapply always_seq; [done|apply refuse_ok|]. intros [] h5 P5 Hpin.
  eapply always_seq; [done|apply lift_ok|]. intros role h6 P6 Hrole.
  assert (h3 `prefix_of` h6) as P by (by repeat (etrans; [eassumption|])).
  split; simpl; [|by destruct (decide (ss_state s = Authenticated))].
  exists jc, role. split; [eapply event_kept; [|exact Hdec]; by repeat (etrans; [eassumption|])|].
  split; [eapply session_read_kept; [|exact Hread]; by etrans|]. split; [|done].
  intros pinned Hp. rewrite Hp in Hpin. apply bool_decide_eq_false in Hpin. by destruct (decide (jc_jti jc = pinned)).
Qed.

(** Elevated now: a token passes as stepped up only for a session that is
    authenticated, whose token this is, and whose elevation, as its row stands,
    has not run out; whatever the token itself says. *)
Theorem elevation_fresh token h claims :
  traced (step_up_auth token) h (Ret (Ok claims)) →
  ∃ s now, authenticates token h claims s ∧ ss_acr s = "aal2" ∧ at_time h now
    ∧ ∃ deadline, ss_acr_expires_at s = Some deadline ∧ now < deadline.
Proof.
  intros Ht. set (Q := λ (h : Trace) (claims : AuthClaims), ∃ s now, authenticates token h claims s ∧ ss_acr s = "aal2"
    ∧ at_time h now ∧ ∃ deadline, ss_acr_expires_at s = Some deadline ∧ now < deadline).
  enough (always (λ _ c, plain c = true) (ok_then Q) [] (step_up_auth token)) as Ha
    by exact (traced_always _ _ _ _ _ Ht Ha).
  unfold step_up_auth, check_fresh_step_up.
  eapply always_seq; [done|apply authenticate_ok|]. intros [c s] h1 _ Hau. cbn [fst snd] in *.
  eapply (always_seq _ (λ h' _, h1 `prefix_of` h' ∧ ss_acr s = "aal2" ∧ ∃ now, at_time h' now ∧ elevation_active s now = true)); [done| |].
  - eapply always_seq; [done|apply refuse_ok|]. intros [] h2 P2 Hacr%bool_decide_eq_false.
    eapply always_seq; [done|by apply call_plain|]. intros now h3 P3 Hnow.
    destruct (elevation_active s now) eqn:Hel; [|done]. simpl. split; [by etrans|].
    split; [by destruct (decide (ss_acr s = "aal2"))|by exists now].
  - intros [] h2 _ (P2 & Hacr & now & Hnow & Hel). exists s, now. split; [by eapply authenticates_kept|].
    do 2 (split; [done|]). unfold elevation_active in Hel. destruct (ss_acr_expires_at s) as [d|]; [|done].
    exists d. split; [done|lia].
Qed.
End SessionService.
