(* ===== verification/SessionEffects.v ===== *)
(** * What a refresh does

    [handle_refresh] run alone over a keyspace, nothing failing: the current
    token is rotated; within the grace its retry is answered with the same
    next token and changes nothing; after it, the replay ends the session. *)

From S2P Require Import Prelude Text Json Host Programs Keyspace Acl Sessions Login.

Section SessionEffects.
Context `{AuthBackend, SessionSerde, !SessionSerdeLaws, Sha256, Chrono, RandomSource, !AuthHost}.

(** ** Running *)

Lemma run_seq {A B} (p : SessionProg A) (f : A → SessionProg B) w a w1 :
  run p w = (Ok a, w1) → run (p ≫= f) w = run (f a) w1.
Proof. intros Hp. by rewrite run_bind, Hp. Qed.
Lemma run_internal {A} (p : SessionProg A) w a w1 : run p w = (Ok a, w1) → run (internal p) w = (Ok a, w1).
Proof. intros Hp. unfold internal. by rewrite run_then, Hp. Qed.
Lemma run_logged {A} (p : SessionProg A) w r w1 : run p w = (r, w1) → run (logged p) w = (Ok r, w1).
Proof. intros Hp. unfold logged. by rewrite run_then, Hp. Qed.
Lemma run_refuse_no b e w : b = false → run (refuse_if b e : SessionProg unit) w = (Ok (), w).
Proof. by intros ->. Qed.

Lemma run_mint g access w : host_mint g = Ok access → run (call (MintAccessToken g)) w = (Ok access, w).
Proof. simpl. by intros ->. Qed.
Lemma run_acl did role w : host_acl did = Ok role → run (call (CheckAcl did)) w = (Ok role, w).
Proof. simpl. by intros ->. Qed.

(** ** Rows *)

Definition session_row (w : AuthWorld) (id : string) (s : Session) : Prop :=
  ∃ b, aw_rows w !! session_key id = Some b ∧ session_from_slice b = Ok s.

Lemma run_get_session w id s : session_row w id s → run (get_session id) w = (Ok (Some s), w).
Proof. intros (b & Hb & Hs). unfold get_session. simpl. rewrite Hb. simpl. by rewrite Hs. Qed.

Lemma run_store_session s b w : ss_state s = Authenticated → session_to_vec s = Ok b →
  run (store_session s) w = (Ok (), with_auth_rows (<[session_key (ss_session_id s) := b]> (aw_rows w)) w).
Proof.
  intros Hst Hb. unfold store_session, write_session, stage_pending_challenge_index, staged.
  rewrite bool_decide_eq_true_2 by (by rewrite Hst). simpl. by rewrite Hb.
Qed.

Definition with_index (token id : string) (m : Rows) : Rows :=
  <[refresh_key token := as_bytes id]> (<[current_refresh_key id := as_bytes (refresh_token_hash token)]> m).
Lemma run_store_index token id w :
  run (store_refresh_index token id) w = (Ok (), with_auth_rows (with_index token id (aw_rows w)) w).
Proof. reflexivity. Qed.

Lemma run_store_tombstone token t b w : tombstone_to_vec t = Ok b →
  run (store_refresh_tombstone token t) w = (Ok (), with_auth_rows (<[rotated_key token := b]> (aw_rows w)) w).
Proof. intros Hb. unfold store_refresh_tombstone. rewrite Hb. done. Qed.

Lemma from_utf8_bytes s : is_utf8 s = true → from_utf8 (as_bytes s) = Some s.
Proof. intros Hs. unfold from_utf8, as_bytes. by rewrite String.string_of_list_byte_of_string, Hs. Qed.
Lemma hash_utf8 token : is_utf8 (refresh_token_hash token) = true.
Proof.
  unfold is_utf8, refresh_token_hash, hex_lower, as_bytes. rewrite String.list_byte_of_string_of_list_byte.
  apply ascii_utf8. apply Forall_concat, Forall_fmap, Forall_true. intros x. simpl.
  assert (∀ z, 0 ≤ z < 16 → Z_of_byte (hex_digit_lower z) < 128) as Hd.
  { intros z Hz. unfold hex_digit_lower. rewrite Z_of_byte_of_Z, Z.mod_small; destruct (Z.ltb_spec z 10); lia. }
  pose proof (Z_of_byte_range x).
  repeat constructor; apply Hd; [split; [apply Z.div_pos; lia|apply Z.div_lt_upper_bound; lia]|by apply Z.mod_pos_bound].
Qed.

Lemma run_take_id token id w : is_utf8 id = true → aw_rows w !! refresh_key token = Some (as_bytes id) →
  run (take_session_id_by_refresh token) w = (Ok (Some id), with_auth_rows (delete (refresh_key token) (aw_rows w)) w).
Proof.
  intros Hid Hrow. unfold take_session_id_by_refresh. simpl. rewrite Hrow. simpl. by rewrite from_utf8_bytes.
Qed.
Lemma run_take_none token w : aw_rows w !! refresh_key token = None →
  run (take_session_id_by_refresh token) w = (Ok None, with_auth_rows (delete (refresh_key token) (aw_rows w)) w).
Proof. intros Hrow. unfold take_session_id_by_refresh. simpl. by rewrite Hrow. Qed.
Lemma run_current_hash id token w : aw_rows w !! current_refresh_key id = Some (as_bytes (refresh_token_hash token)) →
  run (current_refresh_hash id) w = (Ok (Some (refresh_token_hash token)), w).
Proof.
  intros Hrow. unfold current_refresh_hash. simpl. rewrite Hrow. simpl. by rewrite from_utf8_bytes by apply hash_utf8.
Qed.

Lemma run_delete_session w id s : session_row w id s → ss_session_id s = id →
  ∃ m, run (delete_session id) w = (Ok (), with_auth_rows m w) ∧ m !! session_key id = None
    ∧ ∀ token, ss_refresh_token s = Some token → m !! refresh_key token = None.
Proof.
  intros Hrow Hid. unfold delete_session. erewrite run_seq by by apply run_get_session.
  set (ws := stage_session_removal s).
  exists (fold_left write_row ws (aw_rows w)). split; [|split].
  - simpl. unfold ws, stage_session_removal. by destruct (ss_refresh_token s).
  - unfold ws, stage_session_removal. rewrite fold_left_app. simpl. rewrite Hid. apply lookup_delete_eq.
  - intros token Ht. unfold ws, stage_session_removal. rewrite Ht. simpl.
    rewrite !lookup_delete_ne by discriminate. apply lookup_delete_eq.
Qed.

(** ** A refresh *)

Section Refresh.
Context (i : RefreshInput) (s : Session) (role : RoleResolution).
Context (Hsession : ∀ s, ∃ b, session_to_vec s = Ok b) (Htomb : ∀ t, ∃ b, tombstone_to_vec t = Ok b).
Context (Hmint : ∀ g, ∃ access, host_mint g = Ok access) (Hrole : host_acl (ss_did s) = Ok role).
Context (Hid : is_utf8 (ss_session_id s) = true).

Abbreviation token := (ri_refresh_token i).
Abbreviation sid := (ss_session_id s).

(** [s] may be renewed with the token at [now]. *)
Record may_renew (now : Z) : Prop := {
  mr_signer : ∀ signer, ri_signer_did i = Some signer → signer = ss_did s;
  mr_state : ss_state s = Authenticated;
  mr_unexpired : ∀ e, ss_refresh_expires_at s = Some e → now ≤ e;
  mr_end : past_end s now = false;
  mr_active : idle s now = false;
}.
(** The keyspace has the session, and the token as its current one. *)
Record current_in (w : AuthWorld) : Prop := {
  ci_index : aw_rows w !! refresh_key token = Some (as_bytes sid);
  ci_row : session_row w sid s;
  ci_current : aw_rows w !! current_refresh_key sid = Some (as_bytes (refresh_token_hash token));
}.

Lemma signer_kept : (∀ signer, ri_signer_did i = Some signer → signer = ss_did s) →
  match ri_signer_did i with Some signer => bool_decide (signer ≠ ss_did s) | None => false end = false.
Proof. intros Hs. destruct (ri_signer_did i) as [d|]; [|done]. apply bool_decide_eq_false. intros Hn. by destruct (Hn (Hs d eq_refl)). Qed.

Lemma run_renewable w : may_renew (aw_now w) → run (renewable i s) w = (Ok (aw_now w), w).
Proof.
  intros [Hsig Hst Hexp Hend Hidle]. unfold renewable, auth_refuse.
  erewrite run_seq by by apply run_refuse_no, signer_kept.
  erewrite run_seq by (apply run_refuse_no, bool_decide_eq_false; intros Hn; by destruct (Hn Hst)).
  erewrite run_seq by reflexivity.
  erewrite run_seq by (apply run_refuse_no; destruct (ss_refresh_expires_at s) as [e|]; [|done]; specialize (Hexp e eq_refl); lia).
  erewrite run_seq by by apply run_refuse_no. by erewrite run_seq by by apply run_refuse_no.
Qed.

(** The session as the rotation leaves it. *)
Definition next_token (w : AuthWorld) : string := uuid (aw_drawn w).
Definition renewed (w : AuthWorld) : Session :=
  mk_session sid (ss_did s) "" Authenticated (aw_now w) (ss_last_seen s) (Some (next_token w))
    (Some (clamp_to_end s (saturating_add (aw_now w) refresh_token_ttl))) (ss_tee_attested s)
    (refresh_amr_acr s).1 (refresh_amr_acr s).2 (ss_acr_expires_at s) (Some (uuid (S (aw_drawn w))))
    (ss_session_pubkey s) (ss_not_after s).
Definition rotation_tombstone (w : AuthWorld) : RefreshTombstone :=
  mk_tombstone sid (ss_did s) (aw_now w) (saturating_add (aw_now w) refresh_token_ttl) (refresh_token_hash (next_token w)) Rotated.
Definition rotated_rows (w : AuthWorld) (m m' : Rows) : Prop :=
  ∃ b t, session_to_vec (renewed w) = Ok b ∧ tombstone_to_vec (rotation_tombstone w) = Ok t
    ∧ m' = <[rotated_key token := t]> (with_index (next_token w) sid (<[session_key sid := b]> m)).

Lemma run_rotate w : ∃ resp w',
  run (rotate keyspace_session_store token s (aw_now w)) w = (Ok resp, w')
  ∧ tb_refresh_token (rs_tokens resp) = Some (next_token w) ∧ rotated_rows w (aw_rows w) (aw_rows w').
Proof.
  destruct (Hsession (renewed w)) as [b Hb]. destruct (Htomb (rotation_tombstone w)) as [t Ht].
  unfold rotate. erewrite run_seq by by apply run_acl.
  do 2 erewrite run_seq by reflexivity.
  match goal with |- context [MintAccessToken ?g] => destruct (Hmint g) as [access Ha] end.
  erewrite run_seq by by apply run_mint.
  erewrite run_seq by by apply run_internal, run_store_session.
  erewrite run_seq by apply run_internal, run_store_index.
  erewrite run_seq by by apply run_logged, run_store_tombstone.
  erewrite run_seq by reflexivity. eexists _, _. split; [reflexivity|]. split; [done|]. by exists b, t.
Qed.

Lemma run_first w : current_in w → may_renew (aw_now w) → ∃ resp w',
  run (handle_refresh keyspace_session_store i) w = (Ok resp, w')
  ∧ tb_refresh_token (rs_tokens resp) = Some (next_token w)
  ∧ rotated_rows w (delete (refresh_key token) (aw_rows w)) (aw_rows w').
Proof.
  intros [Hindex (b & Hb & Hs) Hcur] Hren. unfold handle_refresh.
  erewrite run_seq by by apply run_internal, run_take_id.
  set (w1 := with_auth_rows (delete (refresh_key token) (aw_rows w)) w).
  assert (session_row w1 sid s) as Hrow by (exists b; split; [unfold w1; simpl; by rewrite lookup_delete_ne|done]).
  cbv beta iota. erewrite run_seq by by apply run_internal, run_get_session.
  erewrite run_seq by reflexivity.
  erewrite run_seq; [|apply run_internal, run_current_hash; unfold w1; simpl; by rewrite lookup_delete_ne].
  cbv beta iota zeta. rewrite bool_decide_eq_false_2 by (intros Hn; by destruct Hn).
  erewrite run_seq by by apply run_renewable.
  destruct (run_rotate w1) as (resp & w' & Hrun & Htok & Hrows). exists resp, w'. by rewrite Hrun.
Qed.

(** After it, the token again. *)
Section Again.
Context (w : AuthWorld) (m : Rows) (Hm : rotated_rows w (delete (refresh_key token) (aw_rows w)) m).
Context (w2 : AuthWorld) (Hw2 : aw_rows w2 = m).
Context (Hkeys : refresh_key (next_token w) ≠ refresh_key token).

Lemma again_rows : aw_rows w2 !! refresh_key token = None
  ∧ session_row (with_auth_rows (delete (refresh_key token) (aw_rows w2)) w2) sid (renewed w)
  ∧ ∃ t, aw_rows w2 !! rotated_key token = Some t ∧ tombstone_from_slice t = Ok (rotation_tombstone w).
Proof.
  destruct Hm as (b & t & Hb & Ht & Heq). rewrite Hw2, Heq. unfold with_index. split; [|split].
  - rewrite lookup_insert_ne, lookup_insert_ne, lookup_insert_ne, lookup_insert_ne; [apply lookup_delete_eq|done..].
  - exists b. split; [|by apply session_roundtrip]. simpl.
    rewrite lookup_delete_ne, lookup_insert_ne, lookup_insert_ne, lookup_insert_ne by done. apply lookup_insert_eq.
  - exists t. split; [apply lookup_insert_eq|by apply tombstone_roundtrip].
Qed.

(** What an unclaimed token comes to. *)
Lemma run_again : run (handle_refresh keyspace_session_store i) w2
  = run (if is_innocent_retry (renewed w) (rotation_tombstone w) (aw_now w2) refresh_reuse_grace
         then _ ← auth_refuse match ri_signer_did i with Some signer => bool_decide (signer ≠ ss_did s) | None => false end
                    AuthError.SignerMismatch;
              replay_rotation (renewed w) (aw_now w2)
         else refuse_retired keyspace_session_store (rotation_tombstone w) (Some (renewed w)) (aw_now w2))
      (with_auth_rows (delete (refresh_key token) (aw_rows w2)) w2).
Proof.
  destruct again_rows as (Hnone & Hrow & t & Ht & Htb). unfold handle_refresh.
  erewrite run_seq by by apply run_internal, run_take_none.
  cbv beta iota. unfold handle_unclaimed_refresh.
  erewrite run_seq; [|apply run_internal; simpl; rewrite lookup_delete_ne, Ht by done; simpl; by rewrite Htb].
  erewrite run_seq by reflexivity.
  erewrite run_seq by by apply run_internal, run_get_session.
  by erewrite run_seq by reflexivity.
Qed.

Lemma innocent : is_innocent_retry (renewed w) (rotation_tombstone w) (aw_now w2) refresh_reuse_grace
  = (u64_saturating_sub (aw_now w2) (aw_now w) <? refresh_reuse_grace).
Proof. unfold is_innocent_retry. simpl. rewrite !bool_decide_eq_true_2 by done. simpl. apply andb_true_r. Qed.

Lemma run_retry : (∀ signer, ri_signer_did i = Some signer → signer = ss_did s) →
  u64_saturating_sub (aw_now w2) (aw_now w) < refresh_reuse_grace → past_end s (aw_now w2) = false →
  ∃ resp w3, run (handle_refresh keyspace_session_store i) w2 = (Ok resp, w3)
    ∧ tb_refresh_token (rs_tokens resp) = Some (next_token w) ∧ aw_rows w3 = aw_rows w2.
Proof.
  intros Hsig Hgrace Hend. rewrite run_again, innocent, (proj2 (Z.ltb_lt _ _)) by done.
  erewrite run_seq by by apply run_refuse_no, signer_kept.
  unfold replay_rotation. erewrite run_seq by by apply run_refuse_no.
  erewrite run_seq by by apply run_acl. cbn [renewed ss_refresh_token ss_token_id].
  match goal with |- context [MintAccessToken ?g] => destruct (Hmint g) as [access Ha] end.
  erewrite run_seq by by apply run_mint. erewrite run_seq by reflexivity.
  eexists _, _. split; [reflexivity|]. split; [done|]. simpl. apply delete_id, again_rows.
Qed.

Lemma run_replay : refresh_reuse_grace ≤ u64_saturating_sub (aw_now w2) (aw_now w) →
  ∃ w3, run (handle_refresh keyspace_session_store i) w2 = (Err AppAuthentication, w3)
    ∧ aw_rows w3 !! session_key sid = None ∧ aw_rows w3 !! refresh_key (next_token w) = None.
Proof.
  intros Hgrace. rewrite run_again, innocent, (proj2 (Z.ltb_ge _ _)) by done. unfold refuse_retired.
  rewrite bool_decide_eq_false_2 by done. destruct again_rows as (_ & Hrow & _).
  destruct (run_delete_session _ sid _ Hrow eq_refl) as (m' & Hrun & Hsid & Htok).
  erewrite run_seq; [|by erewrite run_seq by by apply run_logged]. erewrite run_seq by reflexivity.
  eexists. split; [reflexivity|]. split; [exact Hsid|]. by apply Htok.
Qed.
End Again.

(** C20 (a token's life): a current token of a session in good standing is
    rotated; the same request again, within the grace, is given the same next
    token and changes nothing; after the grace it is refused and the session
    is gone with every token of it. *)
Theorem refresh_lifecycle w :
  current_in w → may_renew (aw_now w) → sha256 (as_bytes (next_token w)) ≠ sha256 (as_bytes token) →
  ∃ resp w1, run (handle_refresh keyspace_session_store i) w = (Ok resp, w1)
    ∧ tb_refresh_token (rs_tokens resp) = Some (next_token w)
    ∧ (∀ w2, aw_rows w2 = aw_rows w1 → u64_saturating_sub (aw_now w2) (aw_now w) < refresh_reuse_grace →
        past_end s (aw_now w2) = false →
        ∃ resp2 w3, run (handle_refresh keyspace_session_store i) w2 = (Ok resp2, w3)
          ∧ tb_refresh_token (rs_tokens resp2) = Some (next_token w) ∧ aw_rows w3 = aw_rows w2)
    ∧ (∀ w2, aw_rows w2 = aw_rows w1 → refresh_reuse_grace ≤ u64_saturating_sub (aw_now w2) (aw_now w) →
        ∃ w3, run (handle_refresh keyspace_session_store i) w2 = (Err AppAuthentication, w3)
          ∧ aw_rows w3 !! session_key sid = None ∧ aw_rows w3 !! refresh_key (next_token w) = None).
Proof.
  intros Hcur Hren Hnew. destruct (run_first w Hcur Hren) as (resp & w1 & Hrun & Htok & Hrows).
  assert (refresh_key (next_token w) ≠ refresh_key token) as Hkeys by (by intros ?%refresh_key_hash).
  exists resp, w1. split; [done|]. split; [done|]. split.
  - intros w2 Hw2 Hgrace Hend. by apply (run_retry w (aw_rows w1)); [..|apply Hren| |].
  - intros w2 Hw2 Hgrace. by apply (run_replay w (aw_rows w1)).
Qed.
End Refresh.
End SessionEffects.
