(* ===== verification/SessionRuns.v ===== *)
(** * Sessions at work

    A small service: one caller it knows, tokens that are runs of a letter,
    rows that are codes; and a login, its refreshes and what they race with,
    on which the theorems of [SessionService] and [SessionEffects] are seen to
    hold; and two interleavings they leave out, in which a refresh under way
    writes back what was removed since it read it. *)

From S2P Require Import Prelude Text Json Host Programs Keyspace Acl Sessions Login SessionSafety SessionService SessionEffects.

(** ** A service *)

(** Runs of [a], and hashes that are lengths. *)
#[local] Instance toy_random : RandomSource := {|
  uuid n := String.string_of_list_byte (repeat x61 (S n));
  random_bytes n := [byte_of_Z (Z.of_nat n)];
|}.
#[local] Instance length_hash : Sha256 := λ b, vec_pad 32 (to_be_bytes 32 (Z.min (Z.of_nat (length b)) (2 ^ 256 - 1))).
Lemma uuid_length n : length (as_bytes (uuid n)) = S n.
Proof.
  unfold as_bytes. change (uuid n) with (String.string_of_list_byte (repeat x61 (S n))).
  rewrite String.list_byte_of_string_of_list_byte. apply repeat_length.
Qed.
#[local] Instance toy_random_laws : RandomLaws.
Proof. intros m n Heq. apply (f_equal (λ s, length (as_bytes s))) in Heq. rewrite !uuid_length in Heq. by injection Heq. Qed.
Lemma hashes_apart n m : Z.of_nat n < 1000 → sha256 (as_bytes (uuid m)) = sha256 (as_bytes (uuid n)) → m = n.
Proof.
  intros Hn Heq. apply (f_equal vec_to_list) in Heq. unfold sha256, length_hash in Heq.
  rewrite !vec_pad_full, !uuid_length in Heq by apply length_to_be_bytes.
  apply to_be_bytes_inj in Heq; lia.
Qed.
Lemma did_no_uuid s : no_uuid ("did:" +:+ s).
Proof. intros n Heq. discriminate Heq. Qed.

#[local] Instance toy_backend : AuthBackend := {|
  BackendRole := unit;
  challenge_ttl := 300;
  access_token_ttl := 900;
  access_token_ttl_for_aal2 := 300;
  refresh_token_ttl := 86400;
  refresh_reuse_grace := 60;
  didcomm_freshness_window := 300;
  idle_timeout := Some 1800;
  max_pending_challenges_per_did := 3;
|}.
#[local] Instance toy_chrono : Chrono := {| rfc3339_secs _ := "then"; rfc3339_parse _ := None |}.

(** *** Rows *)

#[local] Instance state_countable : Countable SessionState :=
  inj_countable' (λ s, match s with ChallengeSent => true | Authenticated => false end)
    (λ b : bool, if b then ChallengeSent else Authenticated) (λ s, match s with ChallengeSent | Authenticated => eq_refl end).
#[local] Instance cause_countable : Countable TombstoneCause :=
  inj_countable' (λ s, match s with Rotated => true | Superseded => false end)
    (λ b : bool, if b then Rotated else Superseded) (λ s, match s with Rotated | Superseded => eq_refl end).
Definition session_tuple (s : Session) :=
  ((ss_session_id s, ss_did s, ss_challenge s, ss_state s), (ss_created_at s, ss_last_seen s, ss_refresh_token s, ss_refresh_expires_at s),
   (ss_tee_attested s, ss_amr s, ss_acr s, ss_acr_expires_at s), (ss_token_id s, ss_session_pubkey s, ss_not_after s)).
Definition tombstone_tuple (t : RefreshTombstone) :=
  (ts_session_id t, ts_did t, ts_rotated_at t, ts_expires_at t, ts_successor_hash t, ts_cause t).

#[local] Instance toy_sessions : SessionSerde := {|
  session_to_vec s := Ok (bits_of (encode (session_tuple s)));
  session_from_slice b :=
    '((id, did, ch, st), (c, l, rt, re), (tee, amr, acr, ae), (ti, pk, na)) ← ok_or (decode (of_bits b)) AppSerialization;
    Ok (mk_session id did ch st c l rt re tee amr acr ae ti pk na);
  tombstone_to_vec t := Ok (bits_of (encode (tombstone_tuple t)));
  tombstone_from_slice b :=
    '(id, did, r, e, h, c) ← ok_or (decode (of_bits b)) AppSerialization; Ok (mk_tombstone id did r e h c);
  pending_to_vec p := Ok (bits_of (encode (pe_created_at p, pe_seq p)));
  pending_from_slice b := '(c, s) ← ok_or (decode (of_bits b)) AppSerialization; Ok (mk_pending c s);
|}.
#[local] Instance toy_sessions_laws : SessionSerdeLaws.
Proof.
  split.
  - intros [] b [= <-]. simpl. by rewrite of_bits_of, decode_encode.
  - intros [] b [= <-]. simpl. by rewrite of_bits_of, decode_encode.
Qed.

(** *** The backend *)

Definition alice : string := "did:a".
Definition alices_role : RoleResolution := mk_role () ["garden"].
#[local] Instance toy_host : AuthHost := {|
  host_validate_did _ := Ok ();
  host_entry did := bool_decide (did = alice);
  host_attest _ := Ok (mk_attestation None false);
  host_acl did := if bool_decide (did = alice) then Ok alices_role else Err AppForbidden;
  host_mint g := Ok ("for " +:+ ag_jti g);
  host_decode t :=
    match strip_prefix "for " t with
    | Some jti => Ok (mk_jwt_claims alice alice "admin" ["garden"] 2000 1000 ["did"] "aal1" jti)
    | None => Err AppUnauthorized
    end;
|}.

(** ** A login *)

Definition empty_keyspace (now : Z) : World SessionCall := mk_auth_world ∅ now 0 0 ∅ [].
Definition later (now : Z) (w : World SessionCall) : World SessionCall :=
  mk_auth_world (aw_rows w) now (aw_drawn w) (aw_seq w) (aw_caps w) (aw_audit w).

Definition hello : ChallengeInput := mk_challenge_input alice None.
Definition answer : AuthenticateInput := mk_authenticate_input (uuid 1) "00" alice (Some 1010) None AudienceTransport.
Definition first_token : string := uuid 2.
Definition again : RefreshInput := mk_refresh_input first_token (Some alice).

Definition challenged : World SessionCall := (run (run_session (RqChallenge hello)) (empty_keyspace 1000)).2.
Definition logged_in : World SessionCall := (run (run_session (RqAuthenticate answer ["did"] "aal1")) (later 1020 challenged)).2.

Definition granted (r : result AppError SessionAnswer) : option string :=
  match r with Ok (AnsTokens t) => tb_refresh_token (rs_tokens t) | _ => None end.
Example logs_in_and_refreshes :
  granted (run (run_session (RqAuthenticate answer ["did"] "aal1")) (later 1020 challenged)).1 = Some first_token
  ∧ granted (run (run_session (RqRefresh again)) (later 1500 logged_in)).1 = Some (uuid 4).
Proof. vm_compute. done. Qed.

(** ** The theorems on it *)

Definition alices_key : string := session_key alice.
Definition row_of (w : World SessionCall) (k : string) : bytes := default [] (aw_rows w !! k).
Definition session_of (w : World SessionCall) : Session :=
  match session_from_slice (row_of w alices_key) with Ok s => s | Err _ => intrinsic_session "" 0 end.

Definition minting := advance 7 [] (run_session (RqRefresh again)) (later 1500 logged_in).
Definition grant : AccessGrant := mk_grant alice alice () ["garden"] ["did"] "aal1" false 900 (uuid 5).
Lemma mint_earned_witness : earned (RqRefresh again) minting.1 grant.
Proof.
  apply (mint_earned (RqRefresh again) minting.1 minting.2);
    [exact I|apply advance_traced|vm_compute; reflexivity].
Defined.

Definition rotating := advance 8 [] (run_session (RqRefresh again)) (later 1500 logged_in).
Definition refreshed : World SessionCall := (run (run_session (RqRefresh again)) (later 1500 logged_in)).2.
Definition the_write : SessionCall := RunBatch (mk_batch [] [Put alices_key (row_of refreshed alices_key)]).
Lemma renewal_bounded_witness :
  next_call rotating.2 = Some the_write
  ∧ ∃ id' old s, session_read rotating.1 id' old ∧ session_from_slice (row_of refreshed alices_key) = Ok s ∧ continues old s.
Proof.
  assert (next_call rotating.2 = Some the_write) as Hw by (vm_compute; reflexivity). split; [exact Hw|].
  apply (renewal_bounded again rotating.1 rotating.2 the_write (advance_traced _ _ _) Hw) with (id := alice).
  by apply list_elem_of_singleton.
Defined.

Definition elevated : World SessionCall := (run (run_session (RqStepUp alice "webauthn" "aal2")) (later 1100 logged_in)).2.
Definition bearer : string := "for " +:+ uuid 3.
Definition accepted := advance 9 [] (step_up_auth bearer) (later 1200 elevated).
Definition alices_claims : AuthClaims := mk_claims alice Admin ["garden"] alice 2000 1000 ["did"] "aal1".
Lemma elevation_fresh_witness :
  ∃ s now, authenticates bearer accepted.1 alices_claims s ∧ ss_acr s = "aal2" ∧ at_time accepted.1 now
    ∧ ∃ deadline, ss_acr_expires_at s = Some deadline ∧ now < deadline.
Proof.
  apply (elevation_fresh bearer accepted.1 alices_claims).
  replace (Ret (Ok alices_claims)) with accepted.2 by (vm_compute; reflexivity). apply advance_traced.
Defined.

Lemma refresh_lifecycle_witness :
  ∃ resp w1, run (handle_refresh keyspace_session_store again) (later 1500 logged_in) = (Ok resp, w1)
    ∧ tb_refresh_token (rs_tokens resp) = Some (uuid 4).
Proof.
  destruct (refresh_lifecycle again (session_of logged_in) alices_role) with (w := later 1500 logged_in)
    as (resp & w1 & Hrun & Htok & _).
  - intros s. by eexists.
  - intros t. by eexists.
  - intros g. by eexists.
  - vm_compute; reflexivity.
  - vm_compute; reflexivity.
  - split; [vm_compute; reflexivity| |vm_compute; reflexivity].
    exists (row_of logged_in alices_key). split; vm_compute; reflexivity.
  - split.
    + intros signer [= <-]. vm_compute; reflexivity.
    + vm_compute; reflexivity.
    + intros e He. assert (e = 87420) as -> by (revert He; vm_compute; by intros [= <-]). vm_compute. discriminate.
    + vm_compute; reflexivity.
    + vm_compute; reflexivity.
  - intros Heq%(f_equal vec_to_list). revert Heq. vm_compute. discriminate.
  - exists resp, w1. split; [exact Hrun|]. rewrite Htok. vm_compute; reflexivity.
Defined.

(** *** At once *)

Definition start (w : World SessionCall) (rqs : list SessionRequest) : Service SessionCall SessionAnswer :=
  mk_service w [] (begin <$> (run_session <$> rqs)).
Definition replied (s : Service SessionCall SessionAnswer) (i : nat) : option string :=
  match sv_threads s !! i with Some (mk_thread _ (Ret r)) => granted r | _ => None end.
Definition mint_of (ev : Event SessionCall) : bool := match ev_call ev with MintAccessToken _ => true | _ => false end.
Definition draw_of (ev : Event SessionCall) : bool := match drew_of ev with Some _ => true | None => false end.
Definition did (f : Event SessionCall → bool) (s : Service SessionCall SessionAnswer) (i : nat) : bool :=
  match sv_threads s !! i with Some t => existsb f (th_history t) | None => false end.
Lemma did_event f s i : did f s i = true → ∃ t ev, sv_threads s !! i = Some t ∧ ev ∈ th_history t ∧ f ev = true.
Proof.
  unfold did. destruct (sv_threads s !! i) as [t|]; [|done]. intros (ev & Hin & Hev)%existsb_exists.
  apply list_elem_of_In in Hin. by exists t, ev.
Qed.

Definition alternate (i j n : nat) : list nat := concat (repeat [i; j] n).

(** One challenge, two answers. *)
Definition answers_at_once : list SessionRequest :=
  [RqChallenge hello; RqAuthenticate answer ["did"] "aal1"; RqAuthenticate answer ["did"] "aal1"].
Definition answer_schedule : list nat := (repeat 0 20 ++ alternate 2 1 30)%nat.
Definition answered : Service SessionCall SessionAnswer := serve (start (empty_keyspace 1010) answers_at_once) answer_schedule.
Example one_answer_granted : did mint_of answered 1 = false ∧ did mint_of answered 2 = true.
Proof. vm_compute. done. Qed.

Lemma empty_rows_ok now : rows_ok (empty_keyspace now).
Proof. intros k b Hb. exfalso. exact (lookup_empty_Some (M := gmap string) k b Hb). Qed.
Lemma answers_addressed : Forall well_addressed answers_at_once.
Proof. repeat constructor. apply did_no_uuid. Qed.

Lemma challenge_redeemed_once_witness :
  did mint_of answered 2 = true
  ∧ ∀ j u b amr acr g r, answers_at_once !! j = Some (RqAuthenticate b amr acr) → ai_session_id b = uuid 1 →
      sv_threads answered !! j = Some u → mk_event (MintAccessToken g) r ∈ th_history u → 2%nat = j.
Proof.
  split; [vm_compute; reflexivity|]. intros j u b amr acr g r Hrq Hid Hj Hev.
  destruct (did_event mint_of answered 2) as (t & ev & Ht & Hin & Hm); [vm_compute; reflexivity|].
  destruct ev as [c re]. destruct c; try discriminate Hm.
  apply (challenge_redeemed_once (empty_keyspace 1010) answers_at_once answered 2 j t u answer b 1 ["did"] "aal1" amr acr g0 g re r
    (empty_rows_ok 1010) (λ _, lookup_empty (M := gmap string) (session_key (uuid 1))) answers_addressed
    (serve_steps (start (empty_keyspace 1010) answers_at_once) answer_schedule) eq_refl Hrq eq_refl Hid Ht Hj Hin Hev).
Defined.

(** A login, then its token twice at once. *)
Definition refreshes_at_once : list SessionRequest :=
  [RqChallenge hello; RqAuthenticate answer ["did"] "aal1"; RqRefresh again; RqSweep; RqRefresh again].
Definition refresh_schedule : list nat := (repeat 0 20 ++ repeat 1 30 ++ repeat 3 10 ++ alternate 4 2 30)%nat.
Definition rotated_once : Service SessionCall SessionAnswer := serve (start (empty_keyspace 1010) refreshes_at_once) refresh_schedule.
Example one_refresh_draws :
  replied rotated_once 1 = Some first_token ∧ did draw_of rotated_once 2 = false ∧ did draw_of rotated_once 4 = true.
Proof. vm_compute. done. Qed.

Lemma refreshes_addressed : Forall well_addressed refreshes_at_once.
Proof. repeat constructor. apply did_no_uuid. Qed.
Lemma refresh_spent_once_witness :
  did draw_of rotated_once 4 = true
  ∧ ∀ j u b y, refreshes_at_once !! j = Some (RqRefresh b) → ri_refresh_token b = first_token →
      sv_threads rotated_once !! j = Some u → drew y (th_history u) → 4%nat = j.
Proof.
  split; [vm_compute; reflexivity|]. intros j u b y Hrq Htok Hj Hy.
  destruct (did_event draw_of rotated_once 4) as (t & ev & Ht & Hin & Hd); [vm_compute; reflexivity|].
  destruct ev as [c re]. destruct c; try discriminate Hd. destruct re as [x|]; [|discriminate Hd].
  apply (refresh_spent_once (empty_keyspace 1010) refreshes_at_once rotated_once 4 j t u again b 2 x y
    (empty_rows_ok 1010) (λ _, lookup_empty (M := gmap string) (refresh_key (uuid 2))) (λ m, hashes_apart 2 m eq_refl)
    refreshes_addressed (serve_steps (start (empty_keyspace 1010) refreshes_at_once) refresh_schedule)
    eq_refl Hrq eq_refl Htok Ht Hj Hin Hy).
Defined.

(** *** After a sign-out *)

(** A token's index is left, its session is gone. *)
Definition left_over : World SessionCall :=
  mk_auth_world {[refresh_key first_token := as_bytes alice]} 1500 4 0 ∅ [].
Definition attempts : list SessionRequest :=
  [RqRefresh again; RqStepUp alice "webauthn" "aal2"; RqTouch alice; RqMessage "did:b"; RqToken bearer; RqSweep].
Definition attempted : Service SessionCall SessionAnswer :=
  serve (start left_over attempts) (alternate 0 1 20 ++ alternate 2 3 20 ++ alternate 5 4 20)%nat.
Lemma left_over_ok : rows_ok left_over.
Proof.
  intros k b Hb id ->. exfalso. unfold left_over in Hb. cbn [aw_rows] in Hb.
  apply (lookup_singleton_Some (M := gmap string)) in Hb as [Hk _]. discriminate Hk.
Qed.
Lemma attempts_addressed : Forall well_addressed attempts.
Proof. repeat constructor. apply did_no_uuid. Qed.
Lemma attempts_no_login : Forall (λ rq, ¬ logs_in alice rq) attempts.
Proof.
  unfold attempts. rewrite !Forall_cons, Forall_nil. split_and!; try exact I; intros Hin; first [exact Hin|discriminate Hin].
Qed.
Lemma signed_out_stays_witness : aw_rows (sv_world attempted) !! alices_key = None.
Proof.
  apply (signed_out_stays alice left_over attempts attempted (did_no_uuid "a") left_over_ok eq_refl attempts_addressed
    attempts_no_login (serve_steps (start left_over attempts) (alternate 0 1 20 ++ alternate 2 3 20 ++ alternate 5 4 20)%nat)).
Defined.

(** ** Written back

    What [signed_out_stays] leaves out: a refresh that has read the session
    when it is removed stores it again, and signed in it stays; and one that
    has read an elevation stores it again after it was withdrawn. *)

Definition racing (rq : SessionRequest) : list SessionRequest := [RqRefresh again; rq].
Definition read_then (w : World SessionCall) (rq : SessionRequest) : Service SessionCall SessionAnswer :=
  serve (start w (racing rq)) (repeat 0 5 ++ repeat 1 20 ++ repeat 0 20)%nat.

Example signed_out_and_written_back :
  rtc service_step (start (later 1500 logged_in) (racing (RqSignOut alice))) (read_then (later 1500 logged_in) (RqSignOut alice))
  ∧ bool_decide (aw_rows (sv_world (serve (start (later 1500 logged_in) (racing (RqSignOut alice))) (repeat 0 5 ++ repeat 1 20)%nat)) !! alices_key = None) = true
  ∧ bool_decide (aw_rows (sv_world (read_then (later 1500 logged_in) (RqSignOut alice))) !! alices_key = None) = false
  ∧ replied (read_then (later 1500 logged_in) (RqSignOut alice)) 0 = Some (uuid 4).
Proof. split; [apply serve_steps|]. split_and!; vm_compute; reflexivity. Qed.

Example withdrawn_and_written_back :
  rtc service_step (start (later 1500 elevated) (racing (RqPasskey alice))) (read_then (later 1500 elevated) (RqPasskey alice))
  ∧ ss_acr (session_of (sv_world (serve (start (later 1500 elevated) (racing (RqPasskey alice))) (repeat 0 5 ++ repeat 1 20)%nat))) = "aal1"
  ∧ ss_acr (session_of (sv_world (read_then (later 1500 elevated) (RqPasskey alice)))) = "aal2"
  ∧ ss_acr_expires_at (session_of (sv_world (read_then (later 1500 elevated) (RqPasskey alice)))) = Some 2000.
Proof. split; [apply serve_steps|]. split_and!; vm_compute; reflexivity. Qed.
