(* ===== verification/WebAuthn.v ===== *)
(** * Passkey assertions

    [vti-webauthn]: an assertion checked against a verification method of a
    DID document, with [vta-service/src/operations/passkey_login.rs]'s
    resolver over such documents. Proved: what is accepted is an assertion by
    that method's key, of a present (and where asked, verified) user, for this
    party, origin and challenge, and nothing else is; and an assertion bound
    to a document is bound to that document alone.

    Base64, JSON, URLs, multicodec integers, JSON pointers and P-256 are
    arguments; an error keeps which check failed. *)

From S2P Require Import Prelude Text Json Election Host.

(** ** What the code takes from its libraries *)

Record ClientData := mk_client_data { cd_type : string; cd_challenge : string; cd_origin : string }.
Record Url := mk_url { url_scheme : string; url_host_str : option string; url_port : option Z }.

Class WebAuthnLibs := {
  (** [URL_SAFE_NO_PAD.decode] and [URL_SAFE.decode]. *)
  b64url_no_pad : string → option bytes;
  b64url_padded : string → option bytes;
  (** [serde_json::from_slice] to the borrowed [ClientData]. *)
  client_data_from_slice : bytes → option ClientData;
  (** [Url::parse]. *)
  url_parse : string → option Url;
  (** [unsigned_varint::decode::u64]. *)
  varint_u64 : bytes → option (Z * bytes);
  (** P-256 points, and the check of an ES256 signature: key, message,
      signature. *)
  Sec1Point : Type;
  P256PublicKey : Type;
  sec1_from_bytes : bytes → option Sec1Point;
  from_sec1_point : Sec1Point → option P256PublicKey;
  to_uncompressed : P256PublicKey → bytes;
  ecdsa_p256_verify : bytes → bytes → bytes → bool;
}.

(** [Value::pointer] and the value [pointer_mut] leaves when its target is
    replaced. *)
Class JsonPointer := {
  pointer_get : string → Value → option Value;
  pointer_set : string → Value → Value → Value;
}.

(** ** Errors ([error.rs], [resolver.rs], [config.rs]) *)

Inductive ResolverError := VmNotFound | UnresolvableDid | MalformedVm | OtherResolverError.
Inductive VerifyError :=
| MalformedAssertion (what : string)
| VmResolution (e : ResolverError)
| UnsupportedAlgorithm
| WrongClientDataType
| WrongOrigin
| ChallengeMismatch
| WrongRpId
| UserPresenceMissing
| UserVerificationMissing
| SignatureInvalid
| ControllerMismatch (expected found : string).
Inductive ConfigError := InvalidUrl | NoHostInUrl.
Inductive BindingError := AssertionPointerMissing | Canonicalisation.

(** ** Data *)

Inductive VerificationAlgorithm := AlgP256.
Record ResolvedVm := mk_resolved { rv_algorithm : VerificationAlgorithm; rv_public_key_bytes : bytes; rv_controller : string }.
Record VerifierConfig := mk_verifier { vc_rp_id : string; vc_expected_origin : string; vc_require_user_verification : bool }.
Record AssertionPayload := mk_assertion {
  ap_credential_id : bytes;
  ap_authenticator_data : bytes;
  ap_client_data_json : bytes;
  ap_signature : bytes;
  ap_verification_method : string;
}.
Record VerifiedAssertion := mk_verified_assertion {
  va_did : string;
  va_verification_method : string;
  va_user_present : bool;
  va_user_verified : bool;
  va_sign_count : Z;
  va_algorithm : VerificationAlgorithm;
}.
Record AuthData := mk_auth_data { ad_user_present : bool; ad_user_verified : bool; ad_sign_count : Z }.

(** [str::to_ascii_lowercase]. *)
Definition lower_char (c : ascii) : ascii :=
  let n := Z.of_nat (Ascii.nat_of_ascii c) in if (65 <=? n) && (n <=? 90) then Ascii.ascii_of_nat (Z.to_nat (n + 32)) else c.
Fixpoint to_ascii_lowercase (s : string) : string :=
  match s with EmptyString => EmptyString | String c s => String (lower_char c) (to_ascii_lowercase s) end.

(** [serde_json::Map::insert]. *)
Fixpoint insert_member (k : string) (v : Value) (ms : list (string * Value)) : list (string * Value) :=
  match ms with
  | [] => [(k, v)]
  | (j, w) :: rest =>
      if String.eqb j k then (k, v) :: rest
      else if String.ltb k j then (k, v) :: ms else (j, w) :: insert_member k v rest
  end.

Definition FLAG_UP : Z := 1.
Definition FLAG_UV : Z := 4.
Definition MIN_AUTH_DATA_LEN : nat := 37.
Definition MULTICODEC_P256 : Z := 0x1200.
Definition NULLED_FIELDS : list string := ["signature"; "authenticatorData"; "clientDataJSON"].

Section WebAuthn.
Context `{WebAuthnLibs, Sha256, Multibase}.

(** ** Configuration ([config.rs]) *)

Definition default_port (scheme : string) : Z :=
  if String.eqb scheme "https" then 443 else if String.eqb scheme "http" then 80 else 0.
Definition from_public_url (public_url : string) (require_uv : bool) : result ConfigError VerifierConfig :=
  url ← ok_or (url_parse public_url) InvalidUrl;
  let scheme := url_scheme url in
  _ ← guard_err (negb (String.eqb scheme "https") && negb (String.eqb scheme "http")) InvalidUrl;
  host ← ok_or (url_host_str url) NoHostInUrl;
  let host := to_ascii_lowercase host in
  _ ← guard_err (String.eqb host "") NoHostInUrl;
  let port_segment := match url_port url with
                      | None => ""
                      | Some p => if p =? default_port scheme then "" else ":" +:+ pretty p
                      end in
  Ok (mk_verifier host (scheme +:+ "://" +:+ host +:+ port_segment) require_uv).

(** ** The client's data ([client_data.rs]) *)

(** Without padding, or with. *)
Definition b64url_either (t : string) : option bytes :=
  match b64url_no_pad t with Some b => Some b | None => b64url_padded t end.

Definition validate_client_data (bs : bytes) (expected_origin : string) (expected_challenge : bytes) : result VerifyError unit :=
  parsed ← ok_or (client_data_from_slice bs) (MalformedAssertion "clientDataJSON is not valid JSON");
  _ ← guard_err (negb (String.eqb (cd_type parsed) "webauthn.get")) WrongClientDataType;
  _ ← guard_err (negb (String.eqb (cd_origin parsed) expected_origin)) WrongOrigin;
  decoded ← ok_or (b64url_either (cd_challenge parsed)) (MalformedAssertion "clientData.challenge is not base64url");
  guard_err (bool_decide (decoded ≠ expected_challenge)) ChallengeMismatch.

(** ** The authenticator's data ([auth_data.rs]) *)

Definition flags_of (bs : bytes) : Z := Z_of_byte (nth 32 bs x00).
Definition validate_auth_data (bs : bytes) (expected_rp_id : string) (require_uv : bool) : result VerifyError AuthData :=
  _ ← guard_err (length bs <? MIN_AUTH_DATA_LEN)%nat (MalformedAssertion "authenticatorData shorter than 37 bytes");
  _ ← guard_err (bool_decide (take 32 bs ≠ vec_to_list (sha256 (as_bytes expected_rp_id)))) WrongRpId;
  let user_present := negb (Z.land (flags_of bs) FLAG_UP =? 0) in
  let user_verified := negb (Z.land (flags_of bs) FLAG_UV =? 0) in
  _ ← guard_err (negb user_present) UserPresenceMissing;
  _ ← guard_err (require_uv && negb user_verified) UserVerificationMissing;
  Ok (mk_auth_data user_present user_verified (of_be_bytes (take 4 (drop 33 bs)))).

(** ** Keys ([multikey.rs], [verify.rs]) *)

Definition decode_multikey (multibase_str : string) : result ResolverError (VerificationAlgorithm * bytes) :=
  '(base58btc, bs) ← ok_or (multibase_decode multibase_str) MalformedVm;
  _ ← guard_err (negb base58btc) MalformedVm;
  '(codec, rest) ← ok_or (varint_u64 bs) MalformedVm;
  if codec =? MULTICODEC_P256 then
    _ ← guard_err (negb (length rest =? 33)%nat) MalformedVm;
    let header := Z_of_byte (nth 0 rest x00) in
    _ ← guard_err (negb (header =? 2) && negb (header =? 3)) MalformedVm;
    Ok (AlgP256, rest)
  else Err MalformedVm.

Definition decompress_p256_point (compressed : bytes) : result VerifyError bytes :=
  ep ← ok_or (sec1_from_bytes compressed) (MalformedAssertion "invalid SEC1 compressed P-256 point");
  pk ← ok_or (from_sec1_point ep) (MalformedAssertion "compressed P-256 point is not on the curve");
  let uncompressed := to_uncompressed pk in
  _ ← guard_err (negb (length uncompressed =? 65)%nat)
        (MalformedAssertion "P-256 uncompressed point did not produce 65 bytes");
  Ok uncompressed.
Definition verify_p256 (resolved : ResolvedVm) (message signature : bytes) : result VerifyError unit :=
  uncompressed ← decompress_p256_point (rv_public_key_bytes resolved);
  guard_err (negb (ecdsa_p256_verify uncompressed message signature)) SignatureInvalid.

(** ** An assertion ([verify.rs]) *)

Definition did_portion (vm_url : string) : string := before "#" vm_url.

Definition verify_assertion (payload : AssertionPayload) (expected_challenge : bytes)
    (resolve_vm : string → result ResolverError ResolvedVm) (config : VerifierConfig) : result VerifyError VerifiedAssertion :=
  resolved ← map_err VmResolution (resolve_vm (ap_verification_method payload));
  let claimed_did := did_portion (ap_verification_method payload) in
  _ ← guard_err (negb (String.eqb claimed_did (rv_controller resolved))) (ControllerMismatch claimed_did (rv_controller resolved));
  _ ← validate_client_data (ap_client_data_json payload) (vc_expected_origin config) expected_challenge;
  auth ← validate_auth_data (ap_authenticator_data payload) (vc_rp_id config) (vc_require_user_verification config);
  let message := ap_authenticator_data payload ++ vec_to_list (sha256 (ap_client_data_json payload)) in
  _ ← match rv_algorithm resolved with AlgP256 => verify_p256 resolved message (ap_signature payload) end;
  Ok (mk_verified_assertion claimed_did (ap_verification_method payload) (ad_user_present auth) (ad_user_verified auth)
        (ad_sign_count auth) (rv_algorithm resolved)).

(** ** Verification methods of a DID document ([passkey_login.rs]) *)

(** [resolve_did]: the document, as JSON, or why there is none. *)
Definition resolve_vm (resolve_did : string → result ResolverError Value) (vm_url : string) : result ResolverError ResolvedVm :=
  '(did, fragment) ← ok_or (split_once "#" vm_url) MalformedVm;
  doc_value ← resolve_did did;
  vms ← ok_or (json_get doc_value "verificationMethod" ≫= as_array) VmNotFound;
  let relative := "#" +:+ fragment in
  vm ← ok_or (find (λ vm, let id := default "" (get_str vm "id") in String.eqb id vm_url || String.eqb id relative) vms) VmNotFound;
  multibase_str ← ok_or (get_str vm "publicKeyMultibase") MalformedVm;
  '(algorithm, public_key_bytes) ← decode_multikey multibase_str;
  Ok (mk_resolved algorithm public_key_bytes (default did (get_str vm "controller"))).

Definition verify_passkey_login (payload : AssertionPayload) (expected_challenge : bytes)
    (resolve_did : string → result ResolverError Value) (config : VerifierConfig) : result VerifyError VerifiedAssertion :=
  verify_assertion payload expected_challenge (resolve_vm resolve_did) config.

(** ** Binding a document ([document_binding.rs]) *)

Context `{Jcs, JsonPointer}.

Definition nulled (ms : list (string * Value)) : list (string * Value) :=
  fold_left (λ obj field, insert_member field VNull obj) NULLED_FIELDS ms.
(** The document without what the authenticator makes. *)
Definition unsigned_body (trust_task_body : Value) (assertion_pointer : string) : result BindingError Value :=
  assertion ← ok_or (pointer_get assertion_pointer trust_task_body) AssertionPointerMissing;
  match assertion with
  | VObj obj => Ok (pointer_set assertion_pointer (VObj (nulled obj)) trust_task_body)
  | _ => Err AssertionPointerMissing
  end.
Definition document_binding_challenge (trust_task_body : Value) (assertion_pointer : string) : result BindingError Hash :=
  body ← unsigned_body trust_task_body assertion_pointer;
  canonical ← map_err (λ _, Canonicalisation) (jcs_to_vec body);
  Ok (sha256 canonical).

(** ** What is accepted *)

Lemma land_bit f n : 0 ≤ n → negb (Z.land f (2 ^ n) =? 0) = Z.testbit f n.
Proof.
  intros Hn. assert (Z.land f (2 ^ n) = if Z.testbit f n then 2 ^ n else 0) as ->.
  { apply Z.bits_inj'. intros m Hm. rewrite Z.land_spec, Z.pow2_bits_eqb by done.
    destruct (Z.eqb_spec n m) as [->|Hne].
    - rewrite andb_true_r. destruct (Z.testbit f m); [|by rewrite Z.bits_0]. by rewrite Z.pow2_bits_true.
    - rewrite andb_false_r. destruct (Z.testbit f n); [|by rewrite Z.bits_0]. by rewrite Z.pow2_bits_false. }
  destruct (Z.testbit f n); [|done]. pose proof (Z.pow_pos_nonneg 2 n ltac:(lia) Hn).
  destruct (Z.eqb_spec (2 ^ n) 0); [lia|done].
Qed.
Lemma user_present_bit f : negb (Z.land f FLAG_UP =? 0) = Z.testbit f 0.
Proof. exact (land_bit f 0 (Z.le_refl 0)). Qed.
Lemma user_verified_bit f : negb (Z.land f FLAG_UV =? 0) = Z.testbit f 2.
Proof. apply (land_bit f 2). lia. Qed.

(** An assertion by a method's key, for this challenge and party. *)
Record genuine (payload : AssertionPayload) (challenge : bytes) (config : VerifierConfig)
    (resolved : ResolvedVm) (v : VerifiedAssertion) : Prop := {
  ge_controller : rv_controller resolved = did_portion (ap_verification_method payload);
  ge_client : ∃ cd, client_data_from_slice (ap_client_data_json payload) = Some cd ∧ cd_type cd = "webauthn.get"
    ∧ cd_origin cd = vc_expected_origin config ∧ b64url_either (cd_challenge cd) = Some challenge;
  ge_length : (37 ≤ length (ap_authenticator_data payload))%nat;
  ge_rp : take 32 (ap_authenticator_data payload) = vec_to_list (sha256 (as_bytes (vc_rp_id config)));
  ge_present : Z.testbit (flags_of (ap_authenticator_data payload)) 0 = true;
  ge_verified : vc_require_user_verification config = true → Z.testbit (flags_of (ap_authenticator_data payload)) 2 = true;
  ge_signature : ∃ point pk, sec1_from_bytes (rv_public_key_bytes resolved) = Some point ∧ from_sec1_point point = Some pk
    ∧ length (to_uncompressed pk) = 65%nat
    ∧ ecdsa_p256_verify (to_uncompressed pk)
        (ap_authenticator_data payload ++ vec_to_list (sha256 (ap_client_data_json payload))) (ap_signature payload) = true;
  ge_result : v = mk_verified_assertion (did_portion (ap_verification_method payload)) (ap_verification_method payload)
    true (Z.testbit (flags_of (ap_authenticator_data payload)) 2)
    (of_be_bytes (take 4 (drop 33 (ap_authenticator_data payload)))) AlgP256;
}.

Lemma client_data_iff bs origin ch : validate_client_data bs origin ch = Ok () ↔
  ∃ cd, client_data_from_slice bs = Some cd ∧ cd_type cd = "webauthn.get" ∧ cd_origin cd = origin
    ∧ b64url_either (cd_challenge cd) = Some ch.
Proof.
  unfold validate_client_data. split.
  - destruct (client_data_from_slice bs) as [cd|]; [|done]. simpl.
    destruct (String.eqb_spec (cd_type cd) "webauthn.get") as [Ht|]; [|done].
    destruct (String.eqb_spec (cd_origin cd) origin) as [Ho|]; [|done]. simpl.
    destruct (b64url_either (cd_challenge cd)) as [b|] eqn:Hb; [|done]. simpl.
    case_bool_decide as Hc; [done|]. intros _. exists cd. split; [done|]. split; [done|]. split; [done|].
    by destruct (decide (b = ch)) as [->|].
  - intros (cd & -> & Ht & <- & Hb). simpl. rewrite Ht, !String.eqb_refl. simpl. rewrite Hb. simpl.
    by rewrite bool_decide_eq_false_2 by (intros Hn; by destruct Hn).
Qed.

Lemma auth_data_iff bs rp uv a : validate_auth_data bs rp uv = Ok a ↔
  (37 ≤ length bs)%nat ∧ take 32 bs = vec_to_list (sha256 (as_bytes rp)) ∧ Z.testbit (flags_of bs) 0 = true
  ∧ (uv = true → Z.testbit (flags_of bs) 2 = true)
  ∧ a = mk_auth_data true (Z.testbit (flags_of bs) 2) (of_be_bytes (take 4 (drop 33 bs))).
Proof.
  unfold validate_auth_data, MIN_AUTH_DATA_LEN. rewrite user_present_bit, user_verified_bit.
  generalize (Z.testbit (flags_of bs) 0) (Z.testbit (flags_of bs) 2). intros up verified. split.
  - destruct (Nat.ltb_spec (length bs) 37); [done|]. simpl. case_bool_decide as Hrp; [done|]. simpl.
    destruct up; [|done]. simpl.
    destruct (uv && negb verified) eqn:Huv; [done|]. simpl. intros [= <-].
    split; [done|]. split; [by destruct (decide (take 32 bs = vec_to_list (sha256 (as_bytes rp))))|].
    split; [done|]. split; [|done]. intros ->. by apply negb_false_iff in Huv.
  - intros (Hl & Hrp & -> & Huv & ->). destruct (Nat.ltb_spec (length bs) 37); [lia|]. simpl.
    rewrite bool_decide_eq_false_2 by (intros Hn; by destruct Hn). simpl.
    destruct uv; [|done]. by rewrite Huv.
Qed.

Lemma p256_iff r m sig : verify_p256 r m sig = Ok () ↔
  ∃ point pk, sec1_from_bytes (rv_public_key_bytes r) = Some point ∧ from_sec1_point point = Some pk
    ∧ length (to_uncompressed pk) = 65%nat ∧ ecdsa_p256_verify (to_uncompressed pk) m sig = true.
Proof.
  unfold verify_p256, decompress_p256_point. split.
  - destruct (sec1_from_bytes _) as [point|]; [|done]. simpl. destruct (from_sec1_point point) as [pk|] eqn:Hp; [|done]. simpl.
    destruct (Nat.eqb_spec (length (to_uncompressed pk)) 65); [|done]. simpl.
    destruct (ecdsa_p256_verify _ _ _) eqn:Hv; [|done]. intros _. by exists point, pk.
  - intros (point & pk & -> & Hp & Hl & Hv). simpl. rewrite Hp. simpl. rewrite Hl. simpl. by rewrite Hv.
Qed.

Lemma accepted_genuine payload challenge resolve config v :
  verify_assertion payload challenge resolve config = Ok v →
  ∃ resolved, resolve (ap_verification_method payload) = Ok resolved ∧ genuine payload challenge config resolved v.
Proof.
  unfold verify_assertion. destruct (resolve (ap_verification_method payload)) as [r|]; [|done]. simpl.
  destruct (String.eqb_spec (did_portion (ap_verification_method payload)) (rv_controller r)) as [Hc|]; [|done]. simpl.
  destruct (validate_client_data _ _ _) as [[]|] eqn:Hcd; [|done]. simpl.
  destruct (validate_auth_data _ _ _) as [a|] eqn:Ha; [|done]. simpl. destruct (rv_algorithm r) eqn:Halg.
  destruct (verify_p256 _ _ _) as [[]|] eqn:Hv; [|done]. simpl. intros [= <-]. exists r. split; [done|].
  apply auth_data_iff in Ha as (Hl & Hrp & Hup & Huv & ->). split; try done; [by apply client_data_iff|by apply p256_iff].
Qed.

(** C19 (what a passkey shows): an assertion is accepted exactly when the
    verification method it names resolves, under the DID it names, to a key
    that signed it; for this relying party, origin and challenge; with the
    user present, and verified where that is asked. *)
Theorem assertion_iff payload challenge resolve config v :
  verify_assertion payload challenge resolve config = Ok v ↔
  ∃ resolved, resolve (ap_verification_method payload) = Ok resolved ∧ genuine payload challenge config resolved v.
Proof.
  split; [apply accepted_genuine|]. intros (r & Hr & [Hc Hcd Hl Hrp Hup Huv Hsig ->]).
  unfold verify_assertion. rewrite Hr. simpl. rewrite Hc, String.eqb_refl. simpl.
  rewrite (proj2 (client_data_iff _ _ _) Hcd). simpl.
  rewrite (proj2 (auth_data_iff _ _ _ _) (conj Hl (conj Hrp (conj Hup (conj Huv eq_refl))))). simpl.
  destruct (rv_algorithm r). by rewrite (proj2 (p256_iff _ _ _) Hsig).
Qed.

(** The challenge says which document, unless hashes collide. *)
Lemma binding_same d d' p h : document_binding_challenge d p = Ok h → document_binding_challenge d' p = Ok h →
  (∃ b b' c, unsigned_body d p = Ok b ∧ unsigned_body d' p = Ok b' ∧ jcs_to_vec b = Ok c ∧ jcs_to_vec b' = Ok c)
  ∨ ∃ c, is_collision c.
Proof.
  unfold document_binding_challenge. destruct (unsigned_body d p) as [b|]; [|done]. destruct (unsigned_body d' p) as [b'|]; [|done].
  simpl. destruct (jcs_to_vec b) as [c|] eqn:Hc; [|done]. destruct (jcs_to_vec b') as [c'|] eqn:Hc'; [|done]. simpl.
  intros [= <-] [= Heq]. destruct (decide (c = c')) as [<-|Hne]; [left; by exists b, b', c|].
  right. by exists (c, c').
Qed.

(** C31 (an assertion binds its document): an assertion accepted for one
    document's challenge and for another's - whoever resolves its method - is
    for documents that have the same canonical bytes once what the
    authenticator makes is left out, unless SHA-256 collides. They are then
    the same documents where their numbers are ones canonicalization keeps:
    integers up to [2 ^ 53]. *)
Theorem assertion_binds payload d d' p h h' resolve resolve' config config' v v' `{!Serde, !SerdeLaws} :
  document_binding_challenge d p = Ok h → document_binding_challenge d' p = Ok h' →
  verify_assertion payload (vec_to_list h) resolve config = Ok v →
  verify_assertion payload (vec_to_list h') resolve' config' = Ok v' →
  (∃ b b' c, unsigned_body d p = Ok b ∧ unsigned_body d' p = Ok b' ∧ jcs_to_vec b = Ok c ∧ jcs_to_vec b' = Ok c
     ∧ (canonical_value b → canonical_value b' → b = b'))
  ∨ ∃ c, is_collision c.
Proof.
  intros Hd Hd' Hv Hv'.
  apply accepted_genuine in Hv as (r & _ & Hg). apply accepted_genuine in Hv' as (r' & _ & Hg').
  destruct (ge_client _ _ _ _ _ Hg) as (cd & Hcd & _ & _ & Hch). destruct (ge_client _ _ _ _ _ Hg') as (cd' & Hcd' & _ & _ & Hch').
  rewrite Hcd in Hcd'. injection Hcd' as <-. rewrite Hch in Hch'. injection Hch' as Hh%vec_to_list_inj2. subst h'.
  destruct (binding_same _ _ _ _ Hd Hd') as [(b & b' & c & Hb & Hb' & Hc & Hc')|]; [|by right]. left.
  exists b, b', c. do 4 (split; [done|]). intros Hcan Hcan'.
  pose proof (from_slice_jcs b c Hcan Hc). pose proof (from_slice_jcs b' c Hcan' Hc'). congruence.
Qed.
End WebAuthn.
