(* ===== verification/StepUp.v ===== *)
(** * Step-up: a session raised by an approval

    [vti-common/src/auth/step_up.rs] and
    [vta-service/src/trust_tasks/step_up.rs]: a step-up is minted as a pending
    record under a fresh challenge and a signed request; the approver answers
    with a signed document, a passkey's assertion, or both; the answer consumes
    the record and raises the session, or records the approval of the one
    disclosure the record is bound to.

    A handler is a program of [StepUpCall]s: those of the sessions keyspace
    ([Sessions]), and those of the access control list, the identity documents
    kept here and elsewhere, the verification of an approval's proof
    ([TaskProof]'s, for [assertionMethod]), signing, and the store of previews.
    The self-addressed push that follows a request is none at all. *)

From S2P Require Import Prelude Text Json Election Host Programs Keyspace Acl Sessions WebAuthn.

(** ** Pending step-ups *)

Record PendingStepUp := mk_pending_step_up {
  pu_challenge : string;
  pu_session_id : string;
  pu_subject : string;
  pu_approver : string;
  pu_approver_any : bool;
  pu_target_acr : string;
  pu_acceptable_evidence : list string;
  pu_created_at : Z;
  pu_expires_at : Z;
  pu_bound_to : option string;
}.
Inductive ConsumeOutcome := StepUpNotFound | StepUpExpired | StepUpFound (p : PendingStepUp).

Definition step_up_key (challenge : string) : string := "stepup:" +:+ challenge.

(** ** Documents *)

(** What is read of an answer: its issuer, whether it has a proof, and its
    payload. *)
Record ApprovalDoc := mk_approval_doc { sd_issuer : option string; sd_has_proof : bool; sd_payload : Value }.

Record AssertionResponse := mk_assertion_response {
  as_id : string; as_authenticator_data : string; as_client_data_json : string; as_signature : string;
}.
Inductive Evidence := EvDidSigned | EvWebauthn (assertion : AssertionResponse) | EvOther.
Inductive PayloadDecision := Approved | Denied.
#[export] Instance decision_eq_dec : EqDecision PayloadDecision.
Proof. solve_decision. Defined.
Record ApproveResponse := mk_approve_response {
  rp_subject : string;
  rp_challenge : string;
  rp_session_id : option string;
  rp_decision : PayloadDecision;
  rp_evidence : option Evidence;
  rp_granted_acr : option string;
  rp_denied_reason : option string;
}.

Class StepUpSerde := {
  pending_step_up_to_vec : PendingStepUp → result AppError bytes;
  pending_step_up_from_slice : bytes → result AppError PendingStepUp;
  (** The generated payloads: the answer's, read; the request's, checked
      against its schema and written back. *)
  approve_response_from_value : Value → option ApproveResponse;
  approve_request_payload : Value → result string Value;
  APPROVE_REQUEST_TYPE : string;
  (** A UUID's bytes; [URL_SAFE_NO_PAD.encode]. *)
  uuid_bytes : string → bytes;
  b64url_encode : bytes → string;
}.

(** Why a proof was not accepted, as far as it is told apart. *)
Inductive DiProofError := NoProof | NotProven.

(** ** Outcomes *)

Inductive StepUpRefusal :=
| MalformedRequest | PermissionDenied | ProofRequired | ProofInvalid | InternalError
| SubjectMismatch | ChallengeUnknown | ChallengeExpired | ApproverUnauthorized | NoGate | AssertionInvalid | AcrUnsatisfied.
#[export] Instance refusal_eq_dec : EqDecision StepUpRefusal.
Proof. solve_decision. Defined.
Definition step_up_failure (r : StepUpRefusal) : option string :=
  let code s := Some ("auth/step-up/approve-response:" +:+ s) in
  match r with
  | SubjectMismatch => code "subjectMismatch"
  | ChallengeUnknown => code "challengeUnknown"
  | ChallengeExpired => code "challengeExpired"
  | ApproverUnauthorized => code "approverUnauthorized"
  | NoGate => code "noGate"
  | AssertionInvalid => code "assertionInvalid"
  | AcrUnsatisfied => code "acrUnsatisfied"
  | _ => None
  end.
Inductive StepUpOutcome :=
| StepUpElevated (s : Session)
| StepUpRecorded (preview_id : string)
| StepUpDeclined (reason : string)
| StepUpRejected (r : StepUpRefusal).

Definition acr_rank (acr : string) : Z :=
  if String.eqb acr "aal3" then 3 else if String.eqb acr "aal2" then 2 else if String.eqb acr "aal1" then 1 else 0.
Definition STEP_UP_TARGET_ACR : string := "aal2".
Definition STEP_UP_TTL_SECS : Z := 300.
Definition DEFAULT_STEP_UP_REASON : string := "this operation requires a stepped-up (AAL2) session".
Definition EXT_KEY_AUTHZ_CONTEXT : string := "org.openvtc.authorization-context".
Definition PERSONA_AUTHZ_CONTEXT_TYPE : string := "https://openvtc.org/persona/authorization-context/0.1".

(** ** Calls *)

(** The configuration, as a request finds it. *)
Record StepUpConfig := mk_step_up_config { cf_vta_did : option string; cf_public_url : option string; cf_resolver : bool }.

Section Calls.
Context `{AuthBackend}.

Inductive StepUpCall :=
| OnSession (c : SessionCall)
| ReadConfig
| ReadAclEntry (did : string)
(** The document of a DID kept here, and of any. *)
| ReadOwnDocument (did : string)
| ResolveAnyDid (did : string)
| VerifyApprovalProof (doc : ApprovalDoc)
| LoadOperationalSecret (vta_did : string)
| SignRequest (doc : Value)
| ApprovePreview (preview_id : string)
| AuditStepUp (row : AuditRow).

#[export] Instance step_up_reply : CallType StepUpCall := λ c,
  match c with
  | OnSession c => Reply c
  | ReadConfig => StepUpConfig
  | ReadAclEntry _ => option AclEntry
  | ReadOwnDocument _ => option Value
  | ResolveAnyDid _ => result ResolverError Value
  | VerifyApprovalProof _ => result DiProofError string
  | SignRequest _ => Value
  | ApprovePreview _ => bool
  | LoadOperationalSecret _ | AuditStepUp _ => unit
  end%type.

(** A program of the sessions keyspace's. *)
Fixpoint on_session {A} (p : Prog SessionCall A) : Prog StepUpCall A :=
  match p with
  | Ret r => Ret r
  | Do c k => Do (OnSession c) (λ r, on_session (k r))
  end.
End Calls.
Abbreviation StepUpProg := (Prog StepUpCall).
Abbreviation Attempt A := (Prog StepUpCall (result StepUpRefusal A)).

Section Attempts.
Context `{AuthBackend}.

(** [match p { Err(_) => return reject(e), .. }] *)
Definition or_reject {A} (e : StepUpRefusal) (p : StepUpProg A) : Attempt A := or_refuse (λ _, e) p.
(** An event of the audit trail. *)
Definition audited (action actor resource outcome : string) : Attempt unit :=
  then_do (call (AuditStepUp (mk_audit action actor resource outcome))) (λ _, settled (Ok ())).
End Attempts.

Section StepUp.
Context `{AuthBackend, SessionSerde, Sha256, StepUpSerde, WebAuthnLibs, Multibase, Host.Chrono}.

(** ** The store of pending step-ups *)

Definition store_pending_step_up (p : PendingStepUp) : SessionProg unit :=
  b ← lift (pending_step_up_to_vec p); _ ← call (PutRow (step_up_key (pu_challenge p)) b); mret ().
Definition get_pending_step_up (challenge : string) : SessionProg (option PendingStepUp) :=
  raw ← call (ReadRow (step_up_key challenge));
  match raw with
  | None => mret None
  | Some b => p ← lift (pending_step_up_from_slice b); mret (Some p)
  end.
Definition consume_pending_step_up (challenge : string) (now : Z) : SessionProg ConsumeOutcome :=
  found ← get_pending_step_up challenge;
  match found with
  | None => mret StepUpNotFound
  | Some p =>
      _ ← call (RemoveRow (step_up_key challenge));
      mret (if pu_expires_at p <=? now then StepUpExpired else StepUpFound p)
  end.
Definition new_pending_step_up (challenge session_id subject approver : string) (approver_any : bool) (target_acr : string)
    (acceptable_evidence : list string) (ttl_secs : Z) : SessionProg PendingStepUp :=
  created_at ← call ReadClock;
  mret (mk_pending_step_up challenge session_id subject approver approver_any target_acr acceptable_evidence created_at
          (saturating_add created_at ttl_secs) None).

(** ** The gates *)

(** The proof's signer, who must be the issuer. *)
Definition verify_did_signed_gate (doc : ApprovalDoc) (expected_signer : string) : Attempt unit :=
  verified ←? or_reject ProofInvalid (call (VerifyApprovalProof doc));
  signer_did ←? settled (map_err (λ e, match e with NoProof => ProofRequired | NotProven => ProofInvalid end) verified);
  refuse_when (bool_decide (signer_did ≠ expected_signer)) SubjectMismatch.

(** The passkeys on a document kept here ([operations/passkey_vms]). *)
Definition is_passkey_vm (vm : Value) : bool :=
  match get_str vm "id" with
  | Some id => match nth_error (split "#" id) 1 with Some frag => starts_with "passkey-" frag | None => false end
  | None => false
  end.
Definition passkeys_on (doc : Value) : list Value :=
  filter (λ vm, is_passkey_vm vm = true) (default [] (json_get doc "verificationMethod" ≫= as_array)).
Definition passkey_vms_of (did : string) : StepUpProg (list Value) :=
  doc ← call (ReadOwnDocument did);
  mret match doc with None => [] | Some doc => passkeys_on doc end.
Definition has_passkey_vm (did : string) : StepUpProg bool :=
  vms ← passkey_vms_of did; mret (negb (bool_decide (vms = []))).
Fixpoint passkey_with (credential_id : bytes) (vms : list Value) : option string :=
  match vms with
  | [] => None
  | vm :: rest =>
      match get_str vm "id", get_str vm "webauthnCredentialId" ≫= b64url_no_pad with
      | Some id, Some cred => if bool_decide (cred = credential_id) then Some id else passkey_with credential_id rest
      | _, _ => passkey_with credential_id rest
      end
  end.
Definition find_passkey_vm_by_credential_id (did : string) (credential_id : bytes) : StepUpProg (option string) :=
  vms ← passkey_vms_of did; mret (passkey_with credential_id vms).

(** A failure to determine it counts as none. *)
Definition subject_has_passkey (did : string) : StepUpProg bool :=
  then_do (has_passkey_vm did) (λ r, mret match r with Ok b => b | Err _ => false end).

Definition decoded (t : string) : Attempt bytes := settled (ok_or (b64url_either t) AssertionInvalid).
(** The document [resolve_vm] looks in, where it looks in one. *)
Definition resolved_for (vm_url : string) : Attempt (result ResolverError Value) :=
  match split_once "#" vm_url with
  | Some (did, _) => or_reject AssertionInvalid (call (ResolveAnyDid did))
  | None => settled (Ok (Err MalformedVm))
  end.
Definition verify_webauthn_gate (approver challenge : string) (assertion : AssertionResponse) : Attempt unit :=
  cf ←? or_reject InternalError (call ReadConfig);
  _ ←? refuse_when (negb (cf_resolver cf)) InternalError;
  public_url ←? settled (ok_or (cf_public_url cf) InternalError);
  config ←? settled (map_err (λ _, InternalError) (from_public_url public_url true));
  credential_id ←? decoded (as_id assertion);
  found ←? or_reject InternalError (find_passkey_vm_by_credential_id approver credential_id);
  vm_url ←? settled (ok_or found AssertionInvalid);
  authenticator_data ←? decoded (as_authenticator_data assertion);
  client_data_json ←? decoded (as_client_data_json assertion);
  signature ←? decoded (as_signature assertion);
  doc ←? resolved_for vm_url;
  settled (map_err (λ _, AssertionInvalid)
    (_ ← verify_passkey_login (mk_assertion credential_id authenticator_data client_data_json signature vm_url)
           (as_bytes challenge) (λ _, doc) config;
     Ok ())).

(** ** An answer *)

(** The proof is settled first: only an approval by passkey may have none. *)
Definition webauthn_approval (payload : ApproveResponse) : bool :=
  bool_decide (rp_decision payload = Approved) && match rp_evidence payload with Some (EvWebauthn _) => true | _ => false end.
Definition settle_proof (doc : ApprovalDoc) (issuer : string) (payload : ApproveResponse) : Attempt unit :=
  if sd_has_proof doc then verify_did_signed_gate doc issuer
  else refuse_when (negb (webauthn_approval payload)) ProofRequired.

Definition consumed (challenge : string) : Attempt PendingStepUp :=
  now ←? or_reject InternalError (on_session (call ReadClock));
  o ←? or_reject InternalError (on_session (consume_pending_step_up challenge now));
  settled match o with
          | StepUpFound p => Ok p
          | StepUpNotFound => Err ChallengeUnknown
          | StepUpExpired => Err ChallengeExpired
          end.

Definition pending_session (p : PendingStepUp) : option string :=
  if String.eqb (pu_session_id p) "" then None else Some (pu_session_id p).
(** The one it is addressed to, or the subject where none is named. *)
Definition authorized_signer (subject : string) (p : PendingStepUp) : string :=
  if String.eqb (pu_approver p) "" then subject else pu_approver p.
Definition authorize_signer (issuer subject : string) (p : PendingStepUp) : Attempt unit :=
  if pu_approver_any p then
    now ←? or_reject InternalError (on_session (call ReadClock));
    found ←? or_reject ApproverUnauthorized (call (ReadAclEntry issuer));
    issuer_entry ←? settled (ok_or found ApproverUnauthorized);
    _ ←? refuse_when (is_expired issuer_entry now) ApproverUnauthorized;
    found ←? or_reject ApproverUnauthorized (call (ReadAclEntry subject));
    subject_entry ←? settled (ok_or found ApproverUnauthorized);
    refuse_when (negb (delegated_any_approver_covers issuer_entry subject_entry)) ApproverUnauthorized
  else refuse_when (bool_decide (issuer ≠ authorized_signer subject p)) ApproverUnauthorized.

Definition evidence_kind (e : option Evidence) : option string :=
  match e with
  | None | Some EvDidSigned => Some "did-signed"
  | Some (EvWebauthn _) => Some "webauthn"
  | Some EvOther => None
  end.
Definition offered (p : PendingStepUp) (e : option Evidence) : bool :=
  match evidence_kind e with Some k => bool_decide (k ∈ pu_acceptable_evidence p) | None => false end.
(** The factor the evidence is. *)
Definition verify_gate (issuer challenge : string) (e : option Evidence) : Attempt string :=
  match e with
  | None | Some EvDidSigned => settled (Ok "did")
  | Some (EvWebauthn assertion) => _ ←? verify_webauthn_gate issuer challenge assertion; settled (Ok "passkey")
  | Some EvOther => settled (Err NoGate)
  end.
Definition granted_acr (doc : ApprovalDoc) (payload : ApproveResponse) : string :=
  if sd_has_proof doc then default "aal2" (rp_granted_acr payload) else "aal2".

Definition record_approval (p : PendingStepUp) (preview_id : string) : Attempt StepUpOutcome :=
  marked ←? or_reject InternalError (call (ApprovePreview preview_id));
  _ ←? audited "persona.disclosure.step_up_approved" (pu_subject p) preview_id (if marked : bool then "success" else "expired");
  _ ←? audited "auth.step_up.recorded" (pu_subject p) preview_id "success";
  settled (Ok (StepUpRecorded preview_id)).
Definition elevate_session (p : PendingStepUp) (factor subject : string) : Attempt StepUpOutcome :=
  updated ←? or_reject InternalError (on_session (step_up (pu_session_id p) factor (pu_target_acr p)));
  s ←? settled (ok_or updated ChallengeUnknown);
  _ ←? audited "auth.step_up" subject (pu_session_id p) "success";
  settled (Ok (StepUpElevated s)).

(** Whose answer it is, with its proof settled. *)
Definition answering (auth : AuthClaims) (doc : ApprovalDoc) : Attempt (ApproveResponse * string) :=
  payload ←? settled (ok_or (approve_response_from_value (sd_payload doc)) MalformedRequest);
  issuer ←? settled (ok_or (sd_issuer doc) SubjectMismatch);
  _ ←? refuse_when (bool_decide (ac_did auth ≠ issuer)) PermissionDenied;
  _ ←? settle_proof doc issuer payload;
  settled (Ok (payload, issuer)).
(** The step-up it answers, and its right to. *)
Definition claim_step_up (payload : ApproveResponse) (issuer : string) : Attempt PendingStepUp :=
  p ←? consumed (rp_challenge payload);
  _ ←? refuse_when (bool_decide (pu_subject p ≠ rp_subject payload) || bool_decide (rp_session_id payload ≠ pending_session p))
         SubjectMismatch;
  _ ←? authorize_signer issuer (rp_subject payload) p;
  settled (Ok p).
(** The gate and the level reached. *)
Definition approve (doc : ApprovalDoc) (payload : ApproveResponse) (issuer : string) (p : PendingStepUp) : Attempt string :=
  _ ←? refuse_when (negb (offered p (rp_evidence payload))) NoGate;
  factor ←? verify_gate issuer (rp_challenge payload) (rp_evidence payload);
  _ ←? refuse_when (acr_rank (granted_acr doc payload) <? acr_rank (pu_target_acr p)) AcrUnsatisfied;
  settled (Ok factor).

Definition approve_response (auth : AuthClaims) (doc : ApprovalDoc) : Attempt StepUpOutcome :=
  answer ←? answering auth doc;
  let payload : ApproveResponse := answer.1 in
  let issuer : string := answer.2 in
  p ←? claim_step_up payload issuer;
  if bool_decide (rp_decision payload = Denied) then
    _ ←? audited "auth.step_up_denied" (rp_subject payload) (pu_session_id p) "declined";
    settled (Ok (StepUpDeclined (default "user declined" (rp_denied_reason payload))))
  else
    factor ←? approve doc payload issuer p;
    match pu_bound_to p with
    | Some preview_id => record_approval p preview_id
    | None => elevate_session p factor (rp_subject payload)
    end.
Definition handle_approve_response (auth : AuthClaims) (doc : ApprovalDoc) : StepUpProg StepUpOutcome :=
  r ← approve_response auth doc;
  mret match r with Ok o => o | Err e => StepUpRejected e end.

(** ** A request *)

(** [doc[k] = v] on an object. *)
Definition json_set (k : string) (v doc : Value) : Value :=
  match doc with VObj ms => VObj (insert_member k v ms) | _ => doc end.

Definition offered_for (approver_has_passkey : bool) : list string * list string :=
  if approver_has_passkey then (["webauthn"], ["webauthn"]) else (["did-signed"; "webauthn"], ["didSigned"; "webauthn"]).

Definition request_payload (subject session_id challenge reason : string) (accepts : list string) : result string Value :=
  approve_request_payload (mk_obj {[ "subject" := VStr subject; "sessionId" := VStr session_id; "challenge" := VStr challenge;
    "reason" := VStr reason; "targetAcr" := VStr STEP_UP_TARGET_ACR; "accepts" := VArr (VStr <$> accepts);
    "ttlSeconds" := VNum STEP_UP_TTL_SECS ]}).

Definition with_bound_to (bound_to : option string) (p : PendingStepUp) : PendingStepUp :=
  mk_pending_step_up (pu_challenge p) (pu_session_id p) (pu_subject p) (pu_approver p) (pu_approver_any p) (pu_target_acr p)
    (pu_acceptable_evidence p) (pu_created_at p) (pu_expires_at p) bound_to.

Definition new_uuid : Attempt string := or_reject InternalError (on_session (call NewUuid)).

Definition mint_pending_step_up (vta_did subject recipient : string) (approver_any : bool) (session_id reason : string)
    (authorization_context : option Value) (bound_to : option string) (approver_has_passkey : bool) : Attempt Value :=
  let acceptable : list string := (offered_for approver_has_passkey).1 in
  let acceptable_wire : list string := (offered_for approver_has_passkey).2 in
  u1 ←? new_uuid;
  u2 ←? new_uuid;
  let challenge := b64url_encode (uuid_bytes u1 ++ uuid_bytes u2) in
  pending ←? or_reject InternalError (on_session
    (new_pending_step_up challenge session_id subject recipient approver_any STEP_UP_TARGET_ACR acceptable STEP_UP_TTL_SECS));
  _ ←? or_reject InternalError (on_session (store_pending_step_up (with_bound_to bound_to pending)));
  payload ←? settled (map_err (λ _, InternalError) (request_payload subject session_id challenge reason acceptable_wire));
  id ←? new_uuid;
  now ←? or_reject InternalError (on_session (call ReadClock));
  let payload := match authorization_context with
                 | Some ctx => json_set "ext" (mk_obj {[ EXT_KEY_AUTHZ_CONTEXT := ctx ]}) payload
                 | None => payload
                 end in
  let doc := mk_obj {[ "id" := VStr ("urn:uuid:" +:+ id); "type" := VStr APPROVE_REQUEST_TYPE; "issuer" := VStr vta_did;
                       "issuedAt" := VStr (rfc3339_secs (now * NANOS)); "payload" := payload ]} in
  let doc := if negb approver_any && negb (String.eqb recipient "") then json_set "recipient" (VStr recipient) doc else doc in
  proof ←? or_reject InternalError (call (SignRequest doc));
  settled (Ok (json_set "proof" proof doc)).

Definition reason_and_context (payload : Value) : string * option Value :=
  let ctx := json_get payload "authorizationContext" in
  (default DEFAULT_STEP_UP_REASON (c ← ctx; get_str c "summary"), ctx).

(** The self-addressed request of a caller, and what a task refused for want
    of a step-up says. *)
Definition initiate_self_step_up (auth : AuthClaims) (payload : Value) : Attempt Value :=
  cf ←? or_reject InternalError (call ReadConfig);
  let vta_did : string := default "" (cf_vta_did cf) in
  _ ←? or_reject InternalError (call (LoadOperationalSecret vta_did));
  has ←? or_reject InternalError (subject_has_passkey (ac_did auth));
  approve_request ←? mint_pending_step_up vta_did (ac_did auth) (ac_did auth) false (ac_session_id auth)
    (reason_and_context payload).1 (reason_and_context payload).2 None has;
  settled (Ok (mk_obj {[ "requiredAcr" := VStr STEP_UP_TARGET_ACR; "approveRequest" := approve_request ]})).

(** A request bound to one disclosure. *)
Definition initiate_disclosure_step_up (auth : AuthClaims) (preview_id verifier_did : string) (purpose : option string)
    (claim_types : list string) : Attempt Value :=
  cf ←? or_reject InternalError (call ReadConfig);
  let vta_did : string := default "" (cf_vta_did cf) in
  _ ←? or_reject InternalError (call (LoadOperationalSecret vta_did));
  let reason := "Approve disclosing "
    +:+ (match length claim_types with 1%nat => "1 attribute" | n => pretty n +:+ " attributes" end)
    +:+ " to " +:+ verifier_did in
  let action := mk_obj {[ "kind" := VStr "disclose"; "previewId" := VStr preview_id; "verifierDid" := VStr verifier_did;
                          "claimTypes" := VArr (VStr <$> claim_types) ]} in
  let action := match purpose with Some p => json_set "purpose" (VStr p) action | None => action end in
  let context := mk_obj {[ "type" := VStr PERSONA_AUTHZ_CONTEXT_TYPE; "summary" := VStr reason; "risk" := VStr "high"; "action" := action ]} in
  has ←? or_reject InternalError (subject_has_passkey (ac_did auth));
  approve_request ←? mint_pending_step_up vta_did (ac_did auth) (ac_did auth) false (ac_session_id auth) reason
    (Some context) (Some preview_id) has;
  settled (Ok (mk_obj {[ "previewId" := VStr preview_id; "previewRetained" := VBool true; "approveRequest" := approve_request ]})).
End StepUp.

(** ** The calls, done *)

Class StepUpHost `{AuthBackend} := {
  step_up_config : StepUpConfig;
  own_document : string → result AppError (option Value);
  any_did : string → result ResolverError Value;
  approval_proof : ApprovalDoc → result DiProofError string;
  operational_secret : string → result AppError unit;
  sign_request : Value → result AppError Value;
}.
Record StepUpWorld := mk_step_up_world { uw_sessions : AuthWorld; uw_entries : gmap string AclEntry; uw_previews : gmap string bool }.

Section Semantics.
Context `{AuthBackend, !AuthHost, RandomSource, !StepUpHost}.

Definition with_sessions (a : AuthWorld) (w : StepUpWorld) : StepUpWorld := mk_step_up_world a (uw_entries w) (uw_previews w).

Definition step_up_exec (c : StepUpCall) (w : StepUpWorld) : result AppError (Reply c) * StepUpWorld :=
  match c with
  | OnSession c => let '(r, a) := session_exec c (uw_sessions w) in (r, with_sessions a w)
  | ReadConfig => (Ok step_up_config, w)
  | ReadAclEntry did => (Ok (uw_entries w !! did), w)
  | ReadOwnDocument did => (own_document did, w)
  | ResolveAnyDid did => (Ok (any_did did), w)
  | VerifyApprovalProof doc => (Ok (approval_proof doc), w)
  | LoadOperationalSecret did => (operational_secret did, w)
  | SignRequest doc => (sign_request doc, w)
  (** Marked if it is there. *)
  | ApprovePreview id =>
      match uw_previews w !! id with
      | Some _ => (Ok true, mk_step_up_world (uw_sessions w) (uw_entries w) (<[id := true]> (uw_previews w)))
      | None => (Ok false, w)
      end
  | AuditStepUp _ => (Ok (), w)
  end.
Definition step_up_glitch (c : StepUpCall) (w : StepUpWorld) (r : result AppError (Reply c)) (w' : StepUpWorld) : Prop :=
  match c return result AppError (Reply c) → Prop with
  | OnSession c => λ r, ∃ a, session_glitch c (uw_sessions w) r a ∧ w' = with_sessions a w
  | _ => λ _, w' = w
  end r.

(** Others change the access control list and the previews. *)
#[export] Instance step_up_calls : CallSemantics StepUpCall := {|
  World := StepUpWorld;
  ready c w := match c with OnSession c => session_ready c (uw_sessions w) | _ => true end;
  exec := step_up_exec;
  glitch := step_up_glitch;
  outlives c := match c with OnSession c => of_sessions c = true | ReadAclEntry _ | ApprovePreview _ => True | _ => False end;
  elsewhere w w' := aw_rows (uw_sessions w') = aw_rows (uw_sessions w);
  restarted w := with_sessions (restarted (uw_sessions w)) w;
|}.
End Semantics.
