(* ===== verification/StepUpSafety.v ===== *)
(** * What an approval is worth

    [StepUp]'s handler of answers, whatever the replies to its calls - so
    whatever other requests do meanwhile, and whatever fails. *)

From S2P Require Import Prelude Text Json Election Host Programs Keyspace Acl Sessions Login SessionSafety WebAuthn StepUp.

Abbreviation StepUpTrace := (list (Event StepUpCall)).

Section StepUpSafety.
Context `{AuthBackend, SessionSerde, !SessionSerdeLaws, Sha256, StepUpSerde, WebAuthnLibs, Multibase, Chrono}.

(** ** What a history shows *)

Definition sees (h : StepUpTrace) (c : StepUpCall) (r : Reply c) : Prop := mk_event c (Ok r) ∈ h.
Definition session_sees (h : StepUpTrace) (c : SessionCall) (r : Reply c) : Prop := sees h (OnSession c) r.

(** The approver's own passkey asserted this challenge, its user verified. *)
Record passkey_shown (h : StepUpTrace) (approver challenge : string) (a : AssertionResponse) : Prop := {
  ps_verified : ∃ cf public_url config own vm_url doc cred ad cd sg v,
    sees h ReadConfig cf ∧ cf_public_url cf = Some public_url ∧ from_public_url public_url true = Ok config
    ∧ sees h (ReadOwnDocument approver) (Some own)
    ∧ passkey_with cred (passkeys_on own) = Some vm_url
    ∧ b64url_either (as_id a) = Some cred ∧ b64url_either (as_authenticator_data a) = Some ad
    ∧ b64url_either (as_client_data_json a) = Some cd ∧ b64url_either (as_signature a) = Some sg
    ∧ (∀ did frag, split_once "#" vm_url = Some (did, frag) → sees h (ResolveAnyDid did) doc)
    ∧ verify_passkey_login (mk_assertion cred ad cd sg vm_url) (as_bytes challenge) (λ _, doc) config = Ok v;
}.

Record approval (auth : AuthClaims) (doc : ApprovalDoc) (h : StepUpTrace) (payload : ApproveResponse) (p : PendingStepUp)
    (factor : string) : Prop := {
  apv_payload : approve_response_from_value (sd_payload doc) = Some payload;
  apv_issuer : sd_issuer doc = Some (ac_did auth);
  apv_proof : sd_has_proof doc = true → sees h (VerifyApprovalProof doc) (Ok (ac_did auth));
  apv_pending : ∃ raw now, session_sees h (ReadRow (step_up_key (rp_challenge payload))) (Some raw)
    ∧ pending_step_up_from_slice raw = Ok p ∧ session_sees h (RemoveRow (step_up_key (rp_challenge payload))) ()
    ∧ session_sees h ReadClock now ∧ now < pu_expires_at p;
  apv_subject : pu_subject p = rp_subject payload ∧ rp_session_id payload = pending_session p;
  apv_signer : if pu_approver_any p
    then ∃ now mine theirs, session_sees h ReadClock now ∧ sees h (ReadAclEntry (ac_did auth)) (Some mine)
           ∧ is_expired mine now = false ∧ sees h (ReadAclEntry (rp_subject payload)) (Some theirs)
           ∧ delegated_any_approver_covers mine theirs = true
    else ac_did auth = authorized_signer (rp_subject payload) p;
  apv_decision : rp_decision payload = Approved;
  apv_offered : ∃ kind, evidence_kind (rp_evidence payload) = Some kind ∧ kind ∈ pu_acceptable_evidence p;
  apv_gate : match rp_evidence payload with
             | Some (EvWebauthn a) => factor = "passkey" ∧ passkey_shown h (ac_did auth) (rp_challenge payload) a
             | _ => factor = "did" ∧ sd_has_proof doc = true
             end;
  apv_level : acr_rank (pu_target_acr p) ≤ acr_rank (granted_acr doc payload);
}.

(** What a call may do, after the calls before it. *)
Record approved_call (auth : AuthClaims) (doc : ApprovalDoc) (h : StepUpTrace) (c : StepUpCall) : Prop := {
  apc_session sc id b : c = OnSession sc → puts sc (session_key id) b →
    ∃ payload p factor raw old now, approval auth doc h payload p factor ∧ pu_bound_to p = None ∧ id = pu_session_id p
      ∧ session_sees h (ReadRow (session_key id)) (Some raw) ∧ session_from_slice raw = Ok old
      ∧ session_sees h ReadClock now
      ∧ session_to_vec (elevate factor (pu_target_acr p) (saturating_add now STEP_UP_ELEVATION_TTL_SECS) old).2 = Ok b
      ∧ guarded (session_key id) sc = true;
  apc_preview id : c = ApprovePreview id → ∃ payload p factor, approval auth doc h payload p factor ∧ pu_bound_to p = Some id;
}.

(** ** Going through a handler *)

Definition harmless (c : StepUpCall) : bool :=
  match c with OnSession c => silent c | ApprovePreview _ => false | _ => true end.
Lemma sees_kept h h' c r : h `prefix_of` h' → sees h c r → sees h' c r.
Proof. intros [l ->] Hin. apply elem_of_app. by left. Qed.
(** Through the steps since. *)
Ltac prefixes :=
  repeat match goal with
  | |- ?h `prefix_of` ?h => reflexivity
  | |- ?h `prefix_of` ?h ++ ?l => exact (prefix_app_r h h l (reflexivity h))
  | |- _ `prefix_of` ?h ++ ?l => apply prefix_app_r
  | H : _ `prefix_of` ?h |- _ `prefix_of` ?h => etrans; [|exact H]; clear H
  end.
Ltac kept H := eapply sees_kept; [|exact H]; prefixes.

Lemma sees_last h c r : sees (h ++ [mk_event c (Ok r)]) c r.
Proof. apply elem_of_app. right. by left. Qed.
Lemma passkey_kept h h' approver ch a : h `prefix_of` h' → passkey_shown h approver ch a → passkey_shown h' approver ch a.
Proof.
  intros Hp [(cf & url & config & own & vm & d & cred & ad & cd & sg & v & H1' & H2' & H3' & H4' & H5' & H6' & H7' & H8' & H9' & H10 & H11)].
  split. exists cf, url, config, own, vm, d, cred, ad, cd, sg, v. repeat (split; [by first [done|eapply sees_kept]|]).
  split; [|done]. intros did frag Hs. eapply sees_kept; [exact Hp|by eapply H10].
Qed.
Lemma approval_kept auth doc h h' payload p factor :
  h `prefix_of` h' → approval auth doc h payload p factor → approval auth doc h' payload p factor.
Proof.
  intros Hp [? ? Hproof (raw & now & ? & ? & ? & ? & ?) ? Hsigner ? ? Hgate ?]. split; try done.
  - intros Hh. by eapply sees_kept, Hproof.
  - exists raw, now. repeat (split; [by first [done|eapply sees_kept]|]). done.
  - destruct (pu_approver_any p); [|done]. destruct Hsigner as (n & mine & theirs & ? & ? & ? & ? & ?).
    exists n, mine, theirs. repeat (split; [by first [done|eapply sees_kept]|]). done.
  - destruct (rp_evidence payload) as [[| |]|]; try done. destruct Hgate as [? Hg]. split; [done|]. by eapply passkey_kept.
Qed.

Definition claimed (h : StepUpTrace) (challenge : string) (p : PendingStepUp) : Prop :=
  ∃ raw now, session_sees h (ReadRow (step_up_key challenge)) (Some raw) ∧ pending_step_up_from_slice raw = Ok p
    ∧ session_sees h (RemoveRow (step_up_key challenge)) () ∧ session_sees h ReadClock now ∧ now < pu_expires_at p.
Lemma claimed_kept h h' challenge p : h `prefix_of` h' → claimed h challenge p → claimed h' challenge p.
Proof. intros Hp (raw & now & ? & ? & ? & ? & ?). exists raw, now. repeat (split; [by first [done|eapply sees_kept]|]). done. Qed.

Definition gate_passed (h : StepUpTrace) (issuer challenge factor : string) (e : option Evidence) : Prop :=
  match e with
  | Some (EvWebauthn a) => factor = "passkey" ∧ passkey_shown h issuer challenge a
  | _ => factor = "did"
  end.
Lemma gate_kept h h' issuer challenge factor e :
  h `prefix_of` h' → gate_passed h issuer challenge factor e → gate_passed h' issuer challenge factor e.
Proof. intros Hp. destruct e as [[|a|]|]; simpl; try done. intros [? Hg]. split; [done|]. by eapply passkey_kept. Qed.

(** *** A session raised *)

Definition embed (hs : Trace) : StepUpTrace := (λ ev, match ev with mk_event c r => mk_event (OnSession c) r end) <$> hs.
Lemma on_session_always {A} C Q C' Q' h hs (p : SessionProg A) :
  (∀ hs c, C hs c → C' (h ++ embed hs) (OnSession c)) → (∀ hs r, Q hs r → Q' (h ++ embed hs) r) →
  always C Q hs p → always C' Q' (h ++ embed hs) (on_session p).
Proof.
  intros HC HQ. revert hs. induction p as [r|c k IH]; intros hs; simpl; [apply HQ|]. intros [Hc Hk]. split; [by apply HC|].
  intros r. specialize (IH r (hs ++ [mk_event c r]) (Hk r)). unfold embed in *. by rewrite fmap_app, app_assoc in IH.
Qed.
Lemma embed_sees h hs c r : mk_event c (Ok r) ∈ hs → session_sees (h ++ embed hs) c r.
Proof. intros Hin. apply elem_of_app. right. apply list_elem_of_fmap. by exists (mk_event c (Ok r)). Qed.

Definition elevates (id factor target : string) (hs : Trace) (c : SessionCall) : Prop :=
  ∀ id' b, puts c (session_key id') b → id' = id ∧ guarded (session_key id) c = true
    ∧ ∃ old now, session_read hs id old ∧ at_time hs now
      ∧ session_to_vec (elevate factor target (saturating_add now STEP_UP_ELEVATION_TTL_SECS) old).2 = Ok b.
Lemma elevates_silent id factor target hs c : silent c = true → elevates id factor target hs c.
Proof. intros Hc id' b Hp. by destruct (silent_puts c _ _ Hc Hp). Qed.
Lemma elevates_quiet {A} (P : Trace → A → Prop) id factor target h (p : SessionProg A) :
  always (λ _ c, plain c = true) (ok_then P) h p → always (elevates id factor target) (ok_then P) h p.
Proof. apply always_allows. intros h' c Hc. by apply elevates_silent, plain_silent. Qed.

Lemma attempts_elevate n id factor target now h :
  at_time h now →
  always (elevates id factor target) (λ _ _, True) h
    (update_attempts n id (elevate factor target (saturating_add now STEP_UP_ELEVATION_TTL_SECS))).
Proof.
  revert h. induction n as [|n IH]; intros h Hnow; [done|]. cbn [update_attempts].
  eapply always_seq; [done|by apply elevates_quiet, call_plain|]. intros [b|] h1 P1 Hb; [|done].
  eapply always_seq; [done|apply elevates_quiet, lift_ok|]. intros s h2 P2 Hs%map_err_ok. cbn [elevate negb].
  eapply always_seq; [done|apply elevates_quiet, lift_ok|]. intros w h3 P3 (row & Hrow & ->)%staged_ok.
  eapply always_seq; [done|apply elevates_quiet, pending_index_ok|]. intros index h4 P4 Hindex.
  assert (at_time h4 now) as Hnow4 by (eapply event_kept; [|exact Hnow]; prefixes). split.
  - intros id' b' [Hk|Hin]%elem_of_cons; [|destruct (Hindex _ Hin) as [b'' [= Hk _]]; by destruct (pending_other (ss_did s) id)].
    assert (session_key id' = session_key id ∧ b' = row) as [->%session_key_inj ->] by (split; congruence). split; [done|]. split; [simpl; by rewrite bool_decide_eq_true_2|].
    exists s, now. split; [|split; [exact Hnow4|exact Hrow]]. exists b. split; [|exact Hs].
    eapply event_kept; [|exact Hb]. prefixes.
  - intros [o|e]; [|done]. cbn. destruct (is_applied o); [done|]. apply IH. eapply event_kept; [|exact Hnow4]. by apply prefix_app_r.
Qed.
Lemma step_up_elevates id factor target : always (elevates id factor target) (λ _ _, True) [] (step_up id factor target).
Proof.
  unfold step_up. split; [by apply elevates_silent|]. intros [now|e]; [|done]. apply attempts_elevate. by apply elem_of_cons; left.
Qed.

Section Walk.
Context (auth : AuthClaims) (doc : ApprovalDoc).

Lemma harmless_ok h c : harmless c = true → approved_call auth doc h c.
Proof.
  intros Hc. split.
  - intros sc id b -> Hput. by destruct (silent_puts sc _ _ Hc Hput).
  - intros id ->. done.
Qed.

Abbreviation Lawful := (approved_call auth doc).

Lemma step_ok c h : harmless c = true → always Lawful (ok_then (λ h' a, sees h' c a)) h (call c).
Proof. intros Hc. split; [by apply harmless_ok|]. intros [a|e]; [|done]. apply sees_last. Qed.
Lemma clock_ok h : always Lawful (ok_then (λ h' now, session_sees h' ReadClock now)) h (on_session (call ReadClock)).
Proof. split; [by apply harmless_ok|]. intros [a|e]; [|done]. apply sees_last. Qed.
Lemma audited_ok h action actor resource outcome : always Lawful (accepted_then (λ _ _, True)) h (audited action actor resource outcome).
Proof. split; [by apply harmless_ok|]. by intros [a|e]. Qed.

(** *** Who answers, and its proof *)

Lemma gate_ok issuer h :
  always Lawful (accepted_then (λ h' _, sees h' (VerifyApprovalProof doc) (Ok issuer))) h (verify_did_signed_gate doc issuer).
Proof.
  unfold verify_did_signed_gate.
  eapply attempt_seq; [by apply attempted_ok, step_ok|]. intros verified h1 _ Hv.
  eapply attempt_seq; [apply settled_ok|]. intros signer h2 P2 Hs%map_err_ok.
  eapply always_impl; [|apply refused_ok]. intros h' [[[]|]|]; [|done..]. intros Heq%bool_decide_eq_false.
  simpl. eapply sees_kept; [|]. { apply prefix_app_r, P2. }
  destruct (decide (signer = issuer)) as [->|]; [|done]. by rewrite <- Hs.
Qed.

Definition proof_settled (h : StepUpTrace) (issuer : string) (payload : ApproveResponse) : Prop :=
  if sd_has_proof doc then sees h (VerifyApprovalProof doc) (Ok issuer) else webauthn_approval payload = true.
Lemma settled_kept h h' issuer payload : h `prefix_of` h' → proof_settled h issuer payload → proof_settled h' issuer payload.
Proof. intros Hp. unfold proof_settled. destruct (sd_has_proof doc); [|done]. by apply sees_kept. Qed.
Lemma settle_ok issuer payload h :
  always Lawful (accepted_then (λ h' _, proof_settled h' issuer payload)) h (settle_proof doc issuer payload).
Proof.
  unfold settle_proof, proof_settled. destruct (sd_has_proof doc); [apply gate_ok|].
  eapply always_impl; [|apply refused_ok]. intros h' [[[]|]|]; [|done..]. by intros Hn%negb_false_iff.
Qed.

Lemma answering_ok h :
  always Lawful (accepted_then (λ h' r, approve_response_from_value (sd_payload doc) = Some r.1 ∧ sd_issuer doc = Some r.2
    ∧ ac_did auth = r.2 ∧ proof_settled h' r.2 r.1)) h (answering auth doc).
Proof.
  unfold answering.
  eapply attempt_seq; [apply settled_ok|]. intros payload h1 _ Hpay%ok_or_ok.
  eapply attempt_seq; [apply settled_ok|]. intros issuer h2 _ Hiss%ok_or_ok.
  eapply attempt_seq; [apply refused_ok|]. intros [] h3 _ Hme%bool_decide_eq_false.
  eapply attempt_seq; [apply settle_ok|]. intros [] h4 _ Hset. simpl.
  repeat (split; [done|]). split; [|done]. by destruct (decide (ac_did auth = issuer)).
Qed.

(** *** The step-up it answers *)

Lemma consumed_ok challenge h : always Lawful (accepted_then (λ h' p, claimed h' challenge p)) h (consumed challenge).
Proof.
  unfold consumed. eapply attempt_seq; [apply attempted_ok, clock_ok|]. intros now h1 _ Hnow.
  eapply (attempt_seq _ (λ h' o, ∀ p, o = StepUpFound p → claimed h' challenge p)).
  - apply attempted_ok. unfold consume_pending_step_up, get_pending_step_up. split; [by apply harmless_ok|].
    intros [[raw|]|e]; [|done..]. cbn. destruct (pending_step_up_from_slice raw) as [p|] eqn:Hp; [|done]. cbn.
    split; [by apply harmless_ok|]. intros [[]|e]; [|done]. cbn.
    destruct (Z.leb_spec (pu_expires_at p) now); [done|]. intros p' [= <-]. exists raw, now.
    split; [eapply sees_kept; [by eexists|apply sees_last]|]. split; [done|]. split; [apply sees_last|].
    split; [|done]. eapply sees_kept; [|exact Hnow]. by rewrite <- app_assoc; eexists.
  - intros o h2 _ Ho. eapply always_impl; [|apply settled_ok]. intros h' [[p|]|]; [|done..]. simpl. intros Hp.
    destruct o as [| |q]; try done. injection Hp as ->. destruct (Ho p eq_refl) as (raw & n & ? & ? & ? & ? & ?).
    exists raw, n. repeat (split; [by first [done|eapply sees_kept; [by eexists|done]]|]). done.
Qed.

Definition signer_of (h : StepUpTrace) (issuer subject : string) (p : PendingStepUp) : Prop :=
  if pu_approver_any p
  then ∃ now mine theirs, session_sees h ReadClock now ∧ sees h (ReadAclEntry issuer) (Some mine)
         ∧ is_expired mine now = false ∧ sees h (ReadAclEntry subject) (Some theirs) ∧ delegated_any_approver_covers mine theirs = true
  else issuer = authorized_signer subject p.
Lemma signer_of_kept h h' issuer subject p : h `prefix_of` h' → signer_of h issuer subject p → signer_of h' issuer subject p.
Proof.
  intros Hp. unfold signer_of. destruct (pu_approver_any p); [|done]. intros (now & mine & theirs & ? & ? & ? & ? & ?).
  exists now, mine, theirs. repeat (split; [by first [done|eapply sees_kept]|]). done.
Qed.
Lemma authorize_ok issuer subject p h :
  always Lawful (accepted_then (λ h' _, signer_of h' issuer subject p)) h (authorize_signer issuer subject p).
Proof.
  unfold authorize_signer, signer_of. destruct (pu_approver_any p).
  - eapply attempt_seq; [apply attempted_ok, clock_ok|]. intros now h1 _ Hnow.
    eapply attempt_seq; [by apply attempted_ok, step_ok|]. intros found h2 P2 Hme.
    eapply attempt_seq; [apply settled_ok|]. intros mine h3 P3 ->%ok_or_ok.
    eapply attempt_seq; [apply refused_ok|]. intros [] h4 P4 Hexp.
    eapply attempt_seq; [by apply attempted_ok, step_ok|]. intros found h5 P5 Hthem.
    eapply attempt_seq; [apply settled_ok|]. intros theirs h6 P6 ->%ok_or_ok.
    eapply always_impl; [|apply refused_ok]. intros h' [[[]|]|]; [|done..]. simpl. intros Hcov%negb_false_iff.
    assert (h6 `prefix_of` h6 ++ h') as P7 by by eexists.
    exists now, mine, theirs. split; [eapply sees_kept; [|exact Hnow]; by repeat (etrans; [eassumption|])|].
    split; [eapply sees_kept; [|exact Hme]; by repeat (etrans; [eassumption|])|]. split; [done|].
    split; [eapply sees_kept; [|exact Hthem]; by etrans|done].
  - eapply always_impl; [|apply refused_ok]. intros h' [[[]|]|]; [|done..]. simpl. intros Hn%bool_decide_eq_false.
    by destruct (decide (issuer = authorized_signer subject p)).
Qed.

Lemma claim_ok payload issuer h :
  always Lawful (accepted_then (λ h' p, claimed h' (rp_challenge payload) p ∧ (pu_subject p = rp_subject payload ∧ rp_session_id payload = pending_session p)
    ∧ signer_of h' issuer (rp_subject payload) p)) h (claim_step_up payload issuer).
Proof.
  unfold claim_step_up. eapply attempt_seq; [apply consumed_ok|]. intros p h1 _ Hp.
  eapply attempt_seq; [apply refused_ok|]. intros [] h2 P2 [Hs Hid]%orb_false_iff.
  eapply attempt_seq; [apply authorize_ok|]. intros [] h3 P3 Hsig. simpl.
  split; [eapply claimed_kept; [|exact Hp]; prefixes|]. split; [|done].
  apply bool_decide_eq_false in Hs, Hid. split; by apply dec_stable.
Qed.

(** *** The gate *)

Lemma decoded_ok t h : always Lawful (accepted_then (λ _ b, b64url_either t = Some b)) h (decoded t).
Proof. unfold decoded. eapply always_impl; [|apply settled_ok]. intros h' [[b|]|]; [|done..]. by intros ?%ok_or_ok. Qed.

Lemma passkey_vm_ok did cred h :
  always Lawful (ok_then (λ h' found, ∀ vm, found = Some vm → ∃ own, sees h' (ReadOwnDocument did) (Some own)
    ∧ passkey_with cred (passkeys_on own) = Some vm)) h (find_passkey_vm_by_credential_id did cred).
Proof.
  unfold find_passkey_vm_by_credential_id, passkey_vms_of. split; [by apply harmless_ok|]. intros [[own|]|e]; [|done..].
  cbn. intros vm Hvm. exists own. split; [apply sees_last|exact Hvm].
Qed.
Lemma resolved_ok vm h :
  always Lawful (accepted_then (λ h' r, ∀ did frag, split_once "#" vm = Some (did, frag) → sees h' (ResolveAnyDid did) r)) h (resolved_for vm).
Proof.
  unfold resolved_for. destruct (split_once "#" vm) as [[did frag]|]; [|done].
  apply attempted_ok. eapply always_impl; [|by apply step_ok]. intros h' [r|]; [|done]. simpl. by intros Hs ? ? [= <- <-].
Qed.

Lemma webauthn_ok approver challenge a h :
  always Lawful (accepted_then (λ h' _, passkey_shown h' approver challenge a)) h (verify_webauthn_gate approver challenge a).
Proof.
  unfold verify_webauthn_gate.
  eapply attempt_seq; [by apply attempted_ok, step_ok|]. intros cf h1 _ Hcf.
  eapply attempt_seq; [apply refused_ok|]. intros [] h2 P2 _.
  eapply attempt_seq; [apply settled_ok|]. intros url h3 P3 Hurl%ok_or_ok.
  eapply attempt_seq; [apply settled_ok|]. intros config h4 P4 Hconfig%map_err_ok.
  eapply attempt_seq; [apply decoded_ok|]. intros cred h5 P5 Hcred.
  eapply attempt_seq; [apply attempted_ok, passkey_vm_ok|]. intros found h6 P6 Hfound.
  eapply attempt_seq; [apply settled_ok|]. intros vm h7 P7 ->%ok_or_ok.
  destruct (Hfound _ eq_refl) as (own & Hown & Hvm).
  eapply attempt_seq; [apply decoded_ok|]. intros ad h8 P8 Had.
  eapply attempt_seq; [apply decoded_ok|]. intros cd h9 P9 Hcd.
  eapply attempt_seq; [apply decoded_ok|]. intros sg h10 P10 Hsg.
  eapply attempt_seq; [apply resolved_ok|]. intros d h11 P11 Hd.
  eapply always_impl; [|apply settled_ok]. intros h' [[[]|]|]; [|done..]. intros Hv%map_err_ok.
  apply bind_ok in Hv as (v & Hv & _). split.
  exists cf, url, config, own, vm, d, cred, ad, cd, sg, v.
  split; [by kept Hcf|]. do 2 (split; [done|]). split; [by kept Hown|]. do 5 (split; [done|]). split; [|done].
  intros did frag Hs. specialize (Hd _ _ Hs). by kept Hd.
Qed.

Lemma verify_gate_ok issuer challenge e h :
  always Lawful (accepted_then (λ h' factor, gate_passed h' issuer challenge factor e)) h (verify_gate issuer challenge e).
Proof.
  unfold verify_gate, gate_passed. destruct e as [[| a|]|]; [done| |done..].
  eapply attempt_seq; [apply webauthn_ok|]. by intros [] h1 _ Hp.
Qed.
Lemma approve_ok payload issuer p h :
  always Lawful (accepted_then (λ h' factor, gate_passed h' issuer (rp_challenge payload) factor (rp_evidence payload)
    ∧ offered p (rp_evidence payload) = true ∧ acr_rank (pu_target_acr p) ≤ acr_rank (granted_acr doc payload))) h
    (approve doc payload issuer p).
Proof.
  unfold approve. eapply attempt_seq; [apply refused_ok|]. intros [] h1 _ Hoff%negb_false_iff.
  eapply attempt_seq; [apply verify_gate_ok|]. intros factor h2 P2 Hg.
  eapply attempt_seq; [apply refused_ok|]. intros [] h3 P3 Hacr%Z.ltb_ge. simpl. split; [|done].
  eapply gate_kept; [|exact Hg]; prefixes.
Qed.

(** *** What follows an approval *)

Section Approved.
Context (h : StepUpTrace) (payload : ApproveResponse) (p : PendingStepUp) (factor : string).
Context (Happroved : approval auth doc h payload p factor).

Lemma record_ok preview_id :
  pu_bound_to p = Some preview_id → always Lawful (λ _ _, True) h (record_approval p preview_id).
Proof.
  intros Hb. unfold record_approval.
  eapply always_impl; [done|]. eapply (attempt_seq _ (λ _ _, True) (λ _ _, True)).
  - apply attempted_ok. split; [|by intros []]. split; [done|]. intros id [= <-]. by exists payload, p, factor.
  - intros marked h1 _ _. eapply attempt_seq; [apply audited_ok|]. intros [] h2 _ _.
    by eapply attempt_seq; [apply audited_ok|].
Qed.
Lemma elevate_ok subject :
  pu_bound_to p = None → always Lawful (λ _ _, True) h (elevate_session p factor subject).
Proof.
  intros Hb. unfold elevate_session.
  eapply always_impl; [done|]. eapply (attempt_seq _ (λ _ _, True) (λ _ _, True)).
  - apply attempted_ok. replace h with (h ++ embed []) by apply app_nil_r.
    eapply on_session_always; [| |apply step_up_elevates]; [|by intros ? []].
    intros hs c Hc. split; [|done]. intros sc id b [= ->] Hput. destruct (Hc _ _ Hput) as (-> & Hg & old & now & (raw & Hraw & Hold) & Hnow & Hb').
    exists payload, p, factor, raw, old, now. split; [by eapply approval_kept; [by apply prefix_app_r|]|].
    repeat (split; [by first [done|apply embed_sees]|]). done.
  - intros o h1 _ _. eapply attempt_seq; [apply settled_ok|]. intros s h2 _ _.
    by eapply attempt_seq; [apply audited_ok|].
Qed.
End Approved.

Lemma approved_by h payload p factor :
  approve_response_from_value (sd_payload doc) = Some payload → sd_issuer doc = Some (ac_did auth) →
  proof_settled h (ac_did auth) payload → claimed h (rp_challenge payload) p →
  (pu_subject p = rp_subject payload ∧ rp_session_id payload = pending_session p) →
  signer_of h (ac_did auth) (rp_subject payload) p → rp_decision payload = Approved → offered p (rp_evidence payload) = true →
  gate_passed h (ac_did auth) (rp_challenge payload) factor (rp_evidence payload) →
  acr_rank (pu_target_acr p) ≤ acr_rank (granted_acr doc payload) →
  approval auth doc h payload p factor.
Proof.
  unfold proof_settled, webauthn_approval. intros Hpay Hiss Hproof Hp Hsub Hsig Hd Hoff Hgate Hacr. split; try done.
  - intros Hh. by rewrite Hh in Hproof.
  - unfold offered in Hoff. destruct (evidence_kind (rp_evidence payload)) as [kind|]; [|done].
    exists kind. by apply bool_decide_eq_true in Hoff.
  - destruct (sd_has_proof doc); destruct (rp_evidence payload) as [[|a|]|]; simpl in *; try done;
      by rewrite andb_false_r in Hproof.
Qed.
Lemma approve_response_ok : always Lawful (λ _ _, True) [] (approve_response auth doc).
Proof.
  unfold approve_response. eapply always_impl; [done|]. eapply (attempt_seq _ _ (λ _ _, True)); [apply answering_ok|].
  intros [payload issuer] h1 P1 (Hpay & Hiss & Hme & Hproof). cbn [fst snd] in *. subst issuer.
  eapply attempt_seq; [apply claim_ok|]. intros p h2 P2 (Hp & Hsub & Hsig).
  case_bool_decide as Hd; [by eapply attempt_seq; [apply audited_ok|]|].
  eapply attempt_seq; [apply approve_ok|]. intros factor h3 P3 (Hgate & Hoff & Hacr).
  assert (approval auth doc h3 payload p factor) as Happ.
  { eapply approved_by; [exact Hpay|exact Hiss| |by eapply claimed_kept|exact Hsub| |by destruct (rp_decision payload)|exact Hoff|exact Hgate|exact Hacr].
    - eapply settled_kept; [|exact Hproof]. prefixes.
    - by eapply signer_of_kept. }
  eapply always_impl; [by intros ? [[]|]|].
  destruct (pu_bound_to p) as [preview_id|] eqn:Hb; [by eapply record_ok|by eapply elevate_ok].
Qed.

(** C9 (a session is raised only by an approval): whatever the replies to its
    calls - whatever other requests do meanwhile, and whatever fails - the
    handler of step-up answers writes a session's row only for an approval, of
    a step-up bound to nothing: its caller's own, with any proof verified as
    the caller's; of a pending step-up read and removed before it expired, for
    that subject and session; by the approver it names or, where any may
    answer, one whose unexpired entry covers the subject's; with evidence of a
    kind that was offered - a passkey of the caller's own document that signed
    this challenge, its user verified, or else the proof - for a level that
    reaches the one asked. The row is that step-up's session, put in place of
    the row read, raised for 900 seconds from a time read and otherwise
    unchanged; and a disclosure is marked approved only for such an approval
    of the step-up bound to it. *)
Theorem elevation_approved h p c :
  traced (handle_approve_response auth doc) h p → next_call p = Some c → approved_call auth doc h c.
Proof.
  intros Ht Hc. eapply always_next; [|exact Hc]. eapply (traced_always _ (λ _ _, True)); [exact Ht|].
  unfold handle_approve_response. apply always_bind. eapply always_impl; [|exact approve_response_ok]. by intros h' [].
Qed.
End Walk.
End StepUpSafety.
