(* ===== verification/StepUpRuns.v ===== *)
(** * Step-up at work

    The service of [SessionRuns], with an access control list and a passkey:
    a request made and answered, on which the theorems of [WebAuthn] and
    [StepUpSafety] are seen to hold; and one answer sent twice at once. *)

From S2P Require Import Prelude Text Json Election Host Programs Keyspace Acl Sessions Login SessionSafety Scene.
From S2P Require Import WebAuthn StepUp StepUpSafety SessionRuns.
#[local] Existing Instances toy_random length_hash toy_backend toy_chrono toy_sessions toy_sessions_laws toy_host.

(** ** Passkeys

    Base64 is the text itself; the client's data is its challenge; points are
    their bytes, and a key signs with its first bytes. *)

#[local] Instance toy_libs : WebAuthnLibs := {|
  b64url_no_pad t := Some (as_bytes t);
  b64url_padded _ := None;
  client_data_from_slice b := Some (mk_client_data "webauthn.get" (to_string b) "https://vta");
  url_parse _ := Some (mk_url "https" (Some "vta") None);
  varint_u64 b := Some (MULTICODEC_P256, drop 2 b);
  Sec1Point := bytes;
  P256PublicKey := bytes;
  sec1_from_bytes := Some;
  from_sec1_point := Some;
  to_uncompressed b := b ++ repeat x00 32;
  ecdsa_p256_verify key _ signature := bool_decide (signature = take 4 key);
|}.
(** One level down. *)
#[local] Instance toy_pointer : JsonPointer := {|
  pointer_get p v := match strip_prefix "/" p with Some k => json_get v k | None => None end;
  pointer_set p x v :=
    match strip_prefix "/" p, v with Some k, VObj ms => VObj (insert_member k x ms) | _, _ => v end;
|}.

Definition passkey : bytes := x02 :: repeat x41 32.
Definition vta : VerifierConfig := mk_verifier "vta" "https://vta" true.
Definition authenticator : bytes := vec_to_list (sha256 (as_bytes "vta")) ++ [x05; x00; x00; x00; x07].
Definition passkey_url : string := "did:a#passkey-1".
Definition alices_document : Value :=
  mk_obj {[ "verificationMethod" := VArr [mk_obj {[
    "id" := VStr passkey_url; "webauthnCredentialId" := VStr "cred";
    "publicKeyMultibase" := VStr (multibase_encode (x80 :: x24 :: passkey)) ]}] ]}.
Definition asserting (challenge : bytes) : AssertionPayload :=
  mk_assertion (as_bytes "cred") authenticator challenge (take 4 passkey) passkey_url.
Definition seen_passkey : VerifiedAssertion := mk_verified_assertion "did:a" passkey_url true true 7 AlgP256.


(** Two documents that are one but for what the authenticator makes. *)
Definition signed_document (signature : string) : Value :=
  mk_obj {[ "assertion" := mk_obj {[ "signature" := VStr signature; "verificationMethod" := VStr passkey_url ]};
            "task" := VStr "join" ]}.
Definition bound_hash : Hash := default (sha256 []) (ok (document_binding_challenge (signed_document "s") "/assertion")).

(** ** Step-ups *)

Definition pending_tuple (p : PendingStepUp) :=
  ((pu_challenge p, pu_session_id p, pu_subject p, pu_approver p), (pu_approver_any p, pu_target_acr p, pu_acceptable_evidence p),
   (pu_created_at p, pu_expires_at p, pu_bound_to p)).
#[local] Instance toy_step_up_serde : StepUpSerde := {|
  pending_step_up_to_vec p := Ok (bits_of (encode (pending_tuple p)));
  pending_step_up_from_slice b :=
    '((ch, sid, sub, ap), (any, acr, ev), (c, e, bd)) ← ok_or (decode (of_bits b)) AppSerialization;
    Ok (mk_pending_step_up ch sid sub ap any acr ev c e bd);
  approve_response_from_value v :=
    subject ← get_str v "subject"; challenge ← get_str v "challenge"; decision ← get_str v "decision";
    let shown := mk_assertion_response "cred" (to_string authenticator) challenge (to_string (take 4 passkey)) in
    Some (mk_approve_response subject challenge (get_str v "sessionId") (if String.eqb decision "approved" then Approved else Denied)
            ((λ _, EvWebauthn shown) <$> json_get v "passkey") None None);
  approve_request_payload v := Ok v;
  APPROVE_REQUEST_TYPE := "approve-request";
  uuid_bytes := as_bytes;
  b64url_encode := to_string;
|}.
#[local] Instance toy_step_up_host : StepUpHost := {|
  step_up_config := mk_step_up_config (Some "did:v") (Some "https://vta") true;
  own_document did := Ok (if bool_decide (did = alice) then Some alices_document else None);
  any_did did := if bool_decide (did = alice) then Ok alices_document else Err UnresolvableDid;
  approval_proof doc := if sd_has_proof doc then Ok alice else Err NoProof;
  operational_secret _ := Ok ();
  sign_request _ := Ok (VStr "signed");
|}.

Definition base_row : bytes := default [] (ok (session_to_vec (intrinsic_session alice 1000))).
Definition signed_in : World StepUpCall :=
  mk_step_up_world (mk_auth_world {[session_key alice := base_row]} 1000 0 0 ∅ []) ∅ {[ "preview" := false ]}.

Definition asked : result AppError (result StepUpRefusal Value) * World StepUpCall := run (initiate_self_step_up alices_claims VNull) signed_in.
Definition asked_for_preview : result AppError (result StepUpRefusal Value) * World StepUpCall :=
  run (initiate_disclosure_step_up alices_claims "preview" "did:s" None ["name"]) signed_in.
Definition the_challenge (r : result AppError (result StepUpRefusal Value)) : string :=
  match r with
  | Ok (Ok v) => default "" (json_get v "approveRequest" ≫= λ d, json_get d "payload" ≫= λ p, get_str p "challenge")
  | _ => ""
  end.
Definition approving (challenge : string) : ApprovalDoc :=
  mk_approval_doc (Some alice) false (mk_obj {[ "subject" := VStr alice; "challenge" := VStr challenge; "sessionId" := VStr alice;
    "decision" := VStr "approved"; "passkey" := VBool true ]}).
Definition my_answer : ApprovalDoc := approving (the_challenge asked.1).
Definition answered_step_up : World StepUpCall := (run (handle_approve_response alices_claims my_answer) asked.2).2.

Definition level_of (w : World StepUpCall) : option (string * list string * option Z) :=
  match session_from_slice (default [] (aw_rows (uw_sessions w) !! session_key alice)) with
  | Ok s => Some (ss_acr s, ss_amr s, ss_acr_expires_at s)
  | Err _ => None
  end.
Example raised_once :
  the_challenge asked.1 = uuid 2 
  ∧ level_of signed_in = Some ("aal1", ["did"], None)
  ∧ level_of answered_step_up = Some ("aal2", ["did"; "passkey"], Some 1900)
  ∧ (run (handle_approve_response alices_claims my_answer) answered_step_up).1 = Ok (StepUpRejected ChallengeUnknown).
Proof. vm_compute. done. Qed.

(** *** The theorems on it *)

Lemma assertion_binds_witness :
  verify_assertion (asserting (vec_to_list bound_hash)) (vec_to_list bound_hash) (resolve_vm (λ _, Ok alices_document)) vta = Ok seen_passkey
  ∧ ((∃ b b' c, unsigned_body (signed_document "s") "/assertion" = Ok b
        ∧ unsigned_body (signed_document "t") "/assertion" = Ok b'
        ∧ jcs_to_vec b = Ok c ∧ jcs_to_vec b' = Ok c ∧ (canonical_value b → canonical_value b' → b = b'))
     ∨ ∃ c, is_collision c).
Proof.
  assert (verify_assertion (asserting (vec_to_list bound_hash)) (vec_to_list bound_hash) (resolve_vm (λ _, Ok alices_document)) vta
          = Ok seen_passkey) as Hv by (vm_compute; reflexivity).
  split; [exact Hv|].
  apply (assertion_binds (asserting (vec_to_list bound_hash)) (signed_document "s") (signed_document "t") "/assertion"
    bound_hash bound_hash (resolve_vm (λ _, Ok alices_document)) (resolve_vm (λ _, Ok alices_document)) vta vta seen_passkey seen_passkey).
  - vm_compute; reflexivity.
  - vm_compute; reflexivity.
  - exact Hv.
  - exact Hv.
Defined.

Definition raising := advance 8 [] (handle_approve_response alices_claims my_answer) asked.2.
Definition the_raise : StepUpCall :=
  OnSession (RunBatch (mk_batch [Unchanged (session_key alice) base_row]
    [Put (session_key alice) (default [] (aw_rows (uw_sessions answered_step_up) !! session_key alice))])).
Lemma elevation_approved_witness :
  next_call raising.2 = Some the_raise ∧ approved_call alices_claims my_answer raising.1 the_raise.
Proof.
  assert (next_call raising.2 = Some the_raise) as Hc by (vm_compute; reflexivity). split; [exact Hc|].
  exact (elevation_approved alices_claims my_answer raising.1 raising.2 the_raise (advance_traced _ _ _) Hc).
Defined.

(** ** One answer, twice at once

    The pending step-up is read by one call and removed by another: two
    answers that both read it before either removes it are both taken. *)

Definition answers_twice (r : result AppError (result StepUpRefusal Value) * World StepUpCall) : Service StepUpCall StepUpOutcome :=
  mk_service r.2 [] (begin <$> repeat (handle_approve_response alices_claims (approving (the_challenge r.1))) 2).
Definition outcome_of (s : Service StepUpCall StepUpOutcome) (i : nat) : option (option string) :=
  match sv_threads s !! i with
  | Some (mk_thread _ (Ret (Ok (StepUpElevated s)))) => Some (Some (ss_acr s))
  | Some (mk_thread _ (Ret (Ok (StepUpRecorded id)))) => Some (Some id)
  | Some (mk_thread _ (Ret _)) => Some None
  | _ => None
  end.
Definition both_read : list nat := ([0; 0; 1; 1] ++ repeat 0 12 ++ repeat 1 12)%nat.
Definition one_by_one : list nat := (repeat 0 12 ++ repeat 1 12)%nat.

Example answered_twice :
  rtc service_step (answers_twice asked) (serve (answers_twice asked) both_read)
  ∧ outcome_of (serve (answers_twice asked) both_read) 0 = Some (Some "aal2")
  ∧ outcome_of (serve (answers_twice asked) both_read) 1 = Some (Some "aal2")
  ∧ outcome_of (serve (answers_twice asked) one_by_one) 1 = Some None.
Proof. split; [apply serve_steps|]. vm_compute. done. Qed.

(** A bound step-up raises no session. *)
Example bound_raises_nothing :
  outcome_of (serve (answers_twice asked_for_preview) one_by_one) 0 = Some (Some "preview")
  ∧ uw_previews (sv_world (serve (answers_twice asked_for_preview) one_by_one)) !! "preview" = Some true
  ∧ level_of (sv_world (serve (answers_twice asked_for_preview) one_by_one)) = Some ("aal1", ["did"], None).
Proof. vm_compute. done. Qed.
