(* ===== verification/Rooms.v ===== *)
(** * Data rooms: who may act, and what was withdrawn

    [vti-rooms]: a room's life ([lifecycle.rs]), the authorization of an
    operation on it ([authz.rs]), the room's signed list of withdrawn
    credentials ([revocation.rs]) and the tasks that deliver and read it
    ([revocation_tasks.rs]). A host consults no roster: an operation is
    authorized by the presentation, which a [ChainVerifier] judges, and by the
    list the room signed; a per-room gate keeps a list from being accepted
    between an authorization and the write it authorized.

    A task is a program of [RoomCall]s. Times are nanoseconds, except those of
    a room's own row, which are seconds. *)

From S2P Require Import Prelude Text Json Election Host Programs Rules.

(** ** A room ([lib.rs]) *)

Inductive Visibility := Open | Attributed | Private.
Inductive RetentionPolicy := Chained | FromJoin.
Inductive AnchorCadence := Never | Renewal | Manual.
#[export] Instance visibility_eq_dec : EqDecision Visibility.
Proof. solve_decision. Defined.

Definition stores_cleartext (v : Visibility) : bool := match v with Open => true | _ => false end.
Definition discloses_actor (v : Visibility) : bool := match v with Open | Attributed => true | Private => false end.
Definition links_epochs (p : RetentionPolicy) : bool := match p with Chained => true | FromJoin => false end.

(** [record_retention.rs]. *)
Record RecordRetention := mk_record_retention {
  rr_tombstone_days : option Z;
  rr_record_days : option Z;
  rr_ext : option (list (string * Value));
}.
Record RecordPrune := mk_record_prune { rp_version : Z; rp_at : Z; rp_removed : Z }.

Record Room := mk_room {
  rm_room_id : string;
  rm_owner_did : string;
  rm_visibility : Visibility;
  rm_anchor_cadence : AnchorCadence;
  rm_retention_policy : RetentionPolicy;
  rm_epoch : Z;
  rm_next_version : Z;
  rm_retention_days : Z;
  rm_epoch_expires_at : option Z;
  rm_mirror_of : option string;
  rm_record_retention : option RecordRetention;
  rm_last_prune : option RecordPrune;
  rm_epoch_floor : option Z;
  rm_frozen_at : option Z;
  rm_created_at : Z;
  rm_updated_at : Z;
}.
Definition is_mirror (r : Room) : bool := match rm_mirror_of r with Some _ => true | None => false end.
Definition is_frozen (r : Room) : bool := match rm_frozen_at r with Some _ => true | None => false end.
Definition watermark (r : Room) : Z := u64_saturating_sub (rm_next_version r) 1.

(** ** Its life ([lifecycle.rs]) *)

Inductive Lifecycle := Live | Lapsed | Dormant | Reclaimable.
Definition DORMANT_AFTER_LAPSE_DAYS : Z := 30.
Definition DAY : Z := 24 * 60 * 60.
Definition accepts_writes (l : Lifecycle) : bool := match l with Live => true | _ => false end.
Definition serves_reads (l : Lifecycle) : bool := true.
Definition admits_a_claim (l : Lifecycle) : bool := match l with Dormant | Reclaimable => true | _ => false end.

Definition lifecycle (r : Room) (now : Z) : Lifecycle :=
  match rm_epoch_expires_at r with
  | None => Live
  | Some expires =>
      if now <? expires then Live
      else
        let lapsed_for := now - expires in
        let grace := DORMANT_AFTER_LAPSE_DAYS * DAY in
        if lapsed_for <? grace then Lapsed
        else
          let reclaim_after := Z.max (rm_retention_days r * DAY) grace in
          if lapsed_for <? reclaim_after then Dormant else Reclaimable
  end.

(** ** Withdrawals ([revocation.rs]) *)

Definition MAX_ENTRIES : nat := 4096.
Definition DROP_MARGIN : Z := 24 * 3600 * NANOS.

Record CredentialFacts := mk_facts {
  cf_id : option string;
  cf_subject : string;
  cf_issuer : string;
  cf_valid_from : option Z;
}.
Record Presented := mk_presented { ps_membership : option CredentialFacts; ps_authority : list CredentialFacts }.
Definition presented_all (p : Presented) : list CredentialFacts :=
  match ps_membership p with Some c => [c] | None => [] end ++ ps_authority p.

Inductive Entry :=
| EntryCredential (credential_id : string) (revoked_at : Z) (until : option Z)
| EntrySubject (subject : string) (revoked_at : Z) (until : option Z)
| EntryRoom (revoked_at : Z) (until : option Z).
#[export] Instance entry_eq_dec : EqDecision Entry.
Proof. solve_decision. Defined.

Definition entry_until (e : Entry) : option Z :=
  match e with EntryCredential _ _ u | EntrySubject _ _ u | EntryRoom _ u => u end.
Definition entry_revoked_at (e : Entry) : Z :=
  match e with EntryCredential _ t _ | EntrySubject _ t _ | EntryRoom t _ => t end.
Definition live_at (now : Z) (e : Entry) : bool := match entry_until e with None => true | Some u => now <=? u end.
Definition issued_before (c : CredentialFacts) (at_ : Z) : bool := match cf_valid_from c with None => true | Some from => from <? at_ end.
Definition matches (e : Entry) (c : CredentialFacts) : bool :=
  match e with
  | EntryCredential id _ _ => bool_decide (cf_id c = Some id)
  | EntrySubject s at_ _ => (bool_decide (cf_subject c = s) || bool_decide (cf_issuer c = s)) && issued_before c at_
  | EntryRoom at_ _ => issued_before c at_
  end.
Definition is_room_entry (e : Entry) : bool := match e with EntryRoom _ _ => true | _ => false end.

Inductive ListRefusal :=
| ListInvalid | EntryNotPermitted | Stale (held_sequence : Z) | SequenceConflict | NotAppendOnly.
Inductive Acceptance := AcceptNew | AcceptRepeat.

Record RevocationList := mk_list {
  rl_raw : Value;
  rl_room_id : string;
  rl_sequence : Z;
  rl_entries : list Entry;
}.
Record Head := mk_head { hd_sequence : Z; hd_digest : string }.
Record HeldList := mk_held { hl_list : Value; hl_in_force_at : Z }.

(** What [chrono] does beside [Host.Chrono]: [to_rfc3339_opts(AutoSi, true)],
    and [from_timestamp], in whole seconds. *)
Class ChronoAuto := { rfc3339_auto : Z → string; from_timestamp : Z → option Z }.
Class ChronoAutoLaws `{Chrono, ChronoAuto} := {
  rfc3339_exact t : representable t → rfc3339_parse (rfc3339_auto t) = Some t;
}.

Definition as_object (v : Value) : option (list (string * Value)) := match v with VObj ms => Some ms | _ => None end.

Section Withdrawals.
Context `{Chrono, ChronoAuto, Sha256, Jcs, Multibase}.

(** *** Reading *)

Definition entry_time (obj : Value) (name : string) : result ListRefusal (option Z) :=
  match json_get obj name with
  | None => Ok None
  | Some (VStr s) => t ← ok_or (rfc3339_parse s) ListInvalid; Ok (Some t)
  | Some _ => Err ListInvalid
  end.
Definition entry_string (obj : Value) (name : string) : result ListRefusal string :=
  match json_get obj name with
  | Some (VStr s) => if String.eqb s "" then Err ListInvalid else Ok s
  | _ => Err ListInvalid
  end.
Definition entry_members (kind : option string) : result ListRefusal (list string) :=
  match kind with
  | Some k =>
      if String.eqb k "credential" then Ok ["kind"; "credentialId"; "revokedAt"; "until"]
      else if String.eqb k "subject" then Ok ["kind"; "subject"; "revokedAt"; "until"]
      else if String.eqb k "room" then Ok ["kind"; "revokedAt"; "until"]
      else Err ListInvalid
  | None => Err ListInvalid
  end.
Definition only_members (allowed : list string) (ms : list (string * Value)) : bool :=
  forallb (λ m, bool_decide (m.1 ∈ allowed)) ms.

Definition entry_parse (raw : Value) : result ListRefusal Entry :=
  obj ← ok_or (as_object raw) ListInvalid;
  revoked_at ← entry_time raw "revokedAt";
  revoked_at ← ok_or revoked_at ListInvalid;
  until ← entry_time raw "until";
  let kind := get_str raw "kind" in
  allowed ← entry_members kind;
  _ ← guard_err (negb (only_members allowed obj)) ListInvalid;
  if bool_decide (kind = Some "credential") then
    id ← entry_string raw "credentialId"; Ok (EntryCredential id revoked_at until)
  else if bool_decide (kind = Some "subject") then
    subject ← entry_string raw "subject";
    _ ← guard_err (negb (starts_with "did:" subject)) ListInvalid;
    Ok (EntrySubject subject revoked_at until)
  else Ok (EntryRoom revoked_at until).

Definition names_room (room_id : string) (e : Entry) : bool :=
  match e with EntrySubject s _ _ => String.eqb s room_id | _ => false end.

Definition list_parse (raw : Value) (room_id : string) : result ListRefusal RevocationList :=
  obj ← ok_or (as_object raw) ListInvalid;
  _ ← guard_err (negb (only_members ["roomId"; "sequence"; "issuedAt"; "entries"; "proof"] obj)) ListInvalid;
  list_room ← ok_or (get_str raw "roomId") ListInvalid;
  _ ← guard_err (negb (String.eqb list_room room_id)) ListInvalid;
  sequence ← ok_or (json_get raw "sequence" ≫= as_u64) ListInvalid;
  _ ← guard_err (sequence <? 1) ListInvalid;
  _ ← ok_or (get_str raw "issuedAt" ≫= rfc3339_parse) ListInvalid;
  _ ← ok_or (json_get raw "proof" ≫= as_object) ListInvalid;
  raw_entries ← ok_or (json_get raw "entries" ≫= as_array) ListInvalid;
  _ ← guard_err (MAX_ENTRIES <? length raw_entries)%nat ListInvalid;
  entries ← try_map entry_parse raw_entries;
  _ ← guard_err (existsb (names_room room_id) entries) ListInvalid;
  Ok (mk_list raw room_id sequence entries).

(** *** Accepting *)

(** A value that has no canonical form digests as nothing. *)
Definition digest_value (v : Value) : string := digest_multibase (sha256 (default [] (ok (jcs_to_vec v)))).
Definition list_head (l : RevocationList) : Head := mk_head (rl_sequence l) (digest_value (rl_raw l)).
Definition head_to_wire (h : Head) : Value := mk_obj {[ "sequence" := VNum (hd_sequence h); "digest" := VStr (hd_digest h) ]}.

Definition names_anyone (l : RevocationList) : bool := existsb (λ e, negb (is_room_entry e)) (rl_entries l).
(** The live entries of the one are all in the other. *)
Definition keeps_live (now : Z) (held l : RevocationList) : bool :=
  forallb (λ e, negb (live_at now e) || bool_decide (e ∈ rl_entries l)) (rl_entries held).
Definition accept (visibility : Visibility) (held : option RevocationList) (now : Z) (l : RevocationList) : result ListRefusal Acceptance :=
  _ ← guard_err (bool_decide (visibility = Private) && names_anyone l) EntryNotPermitted;
  match held with
  | None => Ok AcceptNew
  | Some held =>
      _ ← guard_err (rl_sequence l <? rl_sequence held) (Stale (rl_sequence held));
      if rl_sequence l =? rl_sequence held then
        if String.eqb (hd_digest (list_head l)) (hd_digest (list_head held)) then Ok AcceptRepeat else Err SequenceConflict
      else
        _ ← guard_err (negb (keeps_live now held l)) NotAppendOnly;
        Ok AcceptNew
  end.

(** *** Matching *)

Definition revokes (l : RevocationList) (c : CredentialFacts) : bool := existsb (λ e, matches e c) (rl_entries l).
Definition bars_private (l : RevocationList) (now : Z) : bool := existsb (λ e, is_room_entry e && live_at now e) (rl_entries l).
Definition withdraws (l : RevocationList) (visibility : Visibility) (p : Presented) (now : Z) : bool :=
  match visibility with
  | Private => if bars_private l now then true else existsb (revokes l) (presented_all p)
  | _ => match ps_membership p with
         | None => negb (bool_decide (rl_entries l = []))
         | Some _ => existsb (revokes l) (presented_all p)
         end
  end.

(** *** The next list a key holder signs *)

Definition entry_kind (e : Entry) : string :=
  match e with EntryCredential _ _ _ => "credential" | EntrySubject _ _ _ => "subject" | EntryRoom _ _ => "room" end.
Definition entry_to_wire (e : Entry) : Value :=
  let m : gmap string Value := {[ "kind" := VStr (entry_kind e); "revokedAt" := VStr (rfc3339_auto (entry_revoked_at e)) ]} in
  let m := match e with
           | EntryCredential id _ _ => <["credentialId" := VStr id]> m
           | EntrySubject s _ _ => <["subject" := VStr s]> m
           | EntryRoom _ _ => m
           end in
  mk_obj match entry_until e with Some u => <["until" := VStr (rfc3339_secs u)]> m | None => m end.
Definition kept_by_holder (now : Z) (e : Entry) : bool := match entry_until e with None => true | Some u => now <=? u + DROP_MARGIN end.
Definition next_unsigned (room_id : string) (held : option RevocationList) (added : list Entry) (now : Z) : Value :=
  let kept := match held with Some h => filter (λ e, kept_by_holder now e = true) (rl_entries h) | None => [] end in
  mk_obj {[ "roomId" := VStr room_id; "sequence" := VNum match held with None => 1 | Some h => rl_sequence h + 1 end;
            "issuedAt" := VStr (rfc3339_secs now); "entries" := VArr (entry_to_wire <$> kept ++ added) ]}.

Definition held_parsed (h : HeldList) (room_id : string) : result ListRefusal RevocationList := list_parse (hl_list h) room_id.
(** The list a room is held to, as read. *)
Definition in_force (v : option HeldList) (room_id : string) (l : option RevocationList) : Prop :=
  match v with None => l = None | Some h => ∃ l', held_parsed h room_id = Ok l' ∧ l = Some l' end.
End Withdrawals.

(** ** Authorization ([authz.rs]) *)

Definition MAX_CHAIN_DEPTH : nat := 8.
Inductive Action := Read | Write | Curate | Admin.
#[export] Instance action_eq_dec : EqDecision Action.
Proof. solve_decision. Defined.
Definition action_str (a : Action) : string :=
  match a with Read => "read" | Write => "write" | Curate => "curate" | Admin => "admin" end.

Record AuthorityPresentation := mk_presentation {
  pr_membership : string;
  pr_authority : list string;
  pr_subject_binding : option string;
}.
Record VerifiedChain := mk_verified {
  vch_subject : string;
  vch_actions : list string;
  vch_member : option string;
  vch_presented : Presented;
  vch_valid_until : option Z;
}.
(** What a request may do, and the gate it holds: exclusively, or shared. *)
Record AuthorizedAction := mk_authorized {
  az_action : Action;
  az_room_id : string;
  az_verified : VerifiedChain;
  az_held : option RevocationList;
  az_exclusive : bool;
}.

(** A DID without its fragment. *)
Definition did_of (did : string) : string := before "#" (trim did).

Record AuthorizedCreate := mk_authorized_create { azc_room_id : string; azc_owner_did : string }.
Definition authorize_create (room_id owner_did presenter : string) : result AppError AuthorizedCreate :=
  _ ← guard_err (blank room_id) AppForbidden;
  _ ← guard_err (blank owner_did) AppForbidden;
  _ ← guard_err (blank presenter) AppForbidden;
  _ ← guard_err (negb (String.eqb (did_of presenter) (did_of owner_did))) AppForbidden;
  Ok (mk_authorized_create (trim room_id) (did_of owner_did)).
Definition also_unrevoked (a : AuthorizedAction) (c : CredentialFacts) : result AppError unit :=
  match az_held a with Some l => guard_err (revokes l c) AppForbidden | None => Ok () end.

(** ** Calls *)

Inductive RoomCall :=
(** The room's gate; its guard is dropped by the request that has it. *)
| GateRead (room_id : string)
| GateWrite (room_id : string)
| GateDrop (room_id : string) (exclusive : bool)
| ReadRoom (room_id : string)
| ReadHeld (room_id : string)
| StoreHeld (room_id : string) (l : HeldList)
| PersistHeld
| ReadNow
(** The host's [ChainVerifier]. *)
| VerifyChain (r : Room) (p : AuthorityPresentation) (a : Action) (presenter : string)
| VerifyRoomSignature (r : Room) (document : Value)
(** What a handler does with what it was authorized to do. *)
| Perform (room_id subject : string) (a : Action).

#[export] Instance room_reply : CallType RoomCall := λ c,
  match c with
  | ReadRoom _ => Room
  | ReadHeld _ => option HeldList
  | ReadNow => Z
  | VerifyChain _ _ _ _ => VerifiedChain
  | _ => unit
  end%type.
Abbreviation RoomProg := (Prog RoomCall).

(** The guard is dropped with the request that fails. *)
Definition under_gate {A} (room_id : string) (exclusive : bool) (p : RoomProg A) : RoomProg A :=
  then_do p (λ r, match r with
                  | Ok a => mret a
                  | Err e => then_do (call (GateDrop room_id exclusive)) (λ _, lift (Err e))
                  end).

Section Authorize.
Context `{Chrono, ChronoAuto, Sha256, Jcs, Multibase}.

Definition as_i64 (n : Z) : Z := if n <? 2 ^ 63 then n else n - 2 ^ 64.
Definition held (room_id : string) : RoomProg (option HeldList) := call (ReadHeld room_id).
Definition held_list (room_id : string) : RoomProg (option RevocationList) :=
  h ← held room_id;
  match h with
  | None => mret None
  | Some h => l ← lift (map_err (λ _, AppInternal) (held_parsed h room_id)); mret (Some l)
  end.

(** What a presentation is refused for before a verifier sees it. *)
Definition shape_refused (room : Room) (p : AuthorityPresentation) (action : Action) (presenter : string) (now : Z) (mirror_gate : bool) : bool :=
  bool_decide (pr_authority p = []) || (MAX_CHAIN_DEPTH <? length (pr_authority p))%nat || blank (pr_membership p)
  || bool_decide (rm_visibility room = Private) && bool_decide (pr_subject_binding p = None)
  || blank presenter
  || is_mirror room && mirror_gate && bool_decide (action ≠ Read)
  || is_frozen room && negb (bool_decide (action = Read) || bool_decide (action = Admin))
  || bool_decide (action ≠ Admin) && negb (accepts_writes (lifecycle room now)) && bool_decide (action ≠ Read).
Definition check (room : Room) (p : AuthorityPresentation) (action : Action) (presenter : string) (now : Z)
    (held : option RevocationList) (mirror_gate : bool) : RoomProg VerifiedChain :=
  _ ← refuse_if (shape_refused room p action presenter now mirror_gate) AppForbidden;
  verified ← call (VerifyChain room p action presenter);
  _ ← refuse_if (negb (bool_decide (action_str action ∈ vch_actions verified))) AppForbidden;
  _ ← refuse_if (bool_decide (vch_subject verified ≠ presenter)) AppForbidden;
  match held with
  | None => mret verified
  | Some l =>
      at_ ← match from_timestamp (as_i64 now) with Some t => mret t | None => call ReadNow end;
      _ ← refuse_if (withdraws l (rm_visibility room) (vch_presented verified) at_) AppForbidden;
      mret verified
  end.

Definition authorize (room : Room) (p : AuthorityPresentation) (action : Action) (presenter : string) (now : Z) : RoomProg AuthorizedAction :=
  _ ← call (GateRead (rm_room_id room));
  under_gate (rm_room_id room) false (
    held ← held_list (rm_room_id room);
    verified ← check room p action presenter now held true;
    mret (mk_authorized action (rm_room_id room) verified held false)).
(** Under the gate its caller holds. *)
Definition authorize_list_admin (room : Room) (p : AuthorityPresentation) (presenter : string) (now : Z)
    (held : option RevocationList) (exclusive : bool) : RoomProg AuthorizedAction :=
  verified ← check room p Admin presenter now held false;
  mret (mk_authorized Admin (rm_room_id room) verified held exclusive).
End Authorize.

(** ** The tasks ([revocation_tasks.rs]) *)

Inductive Refusal := Declared (code : string) (details : option Value) | Malformed | App (e : AppError) | Internal.
Abbreviation RoomTask A := (RoomProg (result Refusal A)).

(** The generated payloads and responses, as checks; a presentation, read. *)
Class RoomSerde := {
  put_payload_ok : Value → bool;
  get_payload_ok : Value → bool;
  put_response_ok : Value → bool;
  get_response_ok : Value → bool;
  presentation_from_value : Value → option AuthorityPresentation;
}.

Section Tasks.
Context `{Chrono, ChronoAuto, Sha256, Jcs, Multibase, RoomSerde}.

Definition put_refusal (e : ListRefusal) : Refusal :=
  match e with
  | ListInvalid => Declared "listInvalid" None
  | EntryNotPermitted => Declared "entryNotPermitted" None
  | Stale n => Declared "stale" (Some (mk_obj {[ "heldSequence" := VNum n ]}))
  | SequenceConflict => Declared "sequenceConflict" None
  | NotAppendOnly => Declared "notAppendOnly" None
  end.
Definition app {A} (p : RoomProg A) : RoomTask A := or_refuse App p.
Definition checked (response_ok : Value → bool) (body : Value) : RoomTask Value :=
  settled (if response_ok body then Ok body else Err Internal).
Definition task_under_gate {A} (room_id : string) (exclusive : bool) (p : RoomTask A) : RoomTask A :=
  let dropped {B} (q : RoomProg B) : RoomProg B := then_do (call (GateDrop room_id exclusive)) (λ _, q) in
  then_do p (λ r, match r with
                  | Ok (Ok a) => settled (Ok a)
                  | Ok (Err e) => dropped (settled (Err e))
                  | Err e => dropped (lift (Err e))
                  end).
Definition addressed (room : Room) (payload_ok : Value → bool) (payload : Value) : RoomTask AuthorityPresentation :=
  _ ←? refuse_when (negb (payload_ok payload)) Malformed;
  _ ←? refuse_when (negb (bool_decide (as_str (json_index payload "roomId") = Some (rm_room_id room)))) Malformed;
  settled (ok_or (presentation_from_value (json_index payload "presentation")) Malformed).
(** [Utc::now().timestamp().max(0) as u64]. *)
Definition unix_secs (now : Z) : Z := Z.max 0 (now / NANOS).

Definition store (room_id : string) (l : HeldList) : RoomProg unit :=
  _ ← call (StoreHeld room_id l); call PersistHeld.

(** The delivered list, once it is the room's. *)
Definition deliver (room : Room) (delivered : Value) : RoomTask RevocationList :=
  l ←? settled (map_err put_refusal (list_parse delivered (rm_room_id room)));
  _ ←? or_refuse (λ _, put_refusal ListInvalid) (call (VerifyRoomSignature room delivered));
  settled (Ok l).
Definition put (room : Room) (presenter : string) (payload : Value) : RoomTask (Value * AuthorizedAction) :=
  presentation ←? addressed room put_payload_ok payload;
  let delivered := json_index payload "list" in
  _ ←? app (call (GateWrite (rm_room_id room)));
  task_under_gate (rm_room_id room) true (
    held_row ←? app (held (rm_room_id room));
    held ←? app (held_list (rm_room_id room));
    now ←? app (call ReadNow);
    authorized ←? app (authorize_list_admin room presentation presenter (unix_secs now) held true);
    l ←? deliver room delivered;
    accepted ←? settled (map_err put_refusal (accept (rm_visibility room) held now l));
    in_force_at ←? match accepted with
                   | AcceptRepeat => settled (Ok (default now (hl_in_force_at <$> held_row)))
                   | AcceptNew => _ ←? app (store (rm_room_id room) (mk_held delivered now)); settled (Ok now)
                   end;
    body ←? checked put_response_ok (mk_obj {[ "roomId" := VStr (rm_room_id room); "head" := head_to_wire (list_head l);
                                              "inForceAt" := VStr (rfc3339_secs in_force_at) ]});
    settled (Ok (body, authorized))).

Definition get (room : Room) (presenter : string) (payload : Value) : RoomTask (Value * AuthorizedAction) :=
  presentation ←? addressed room get_payload_ok payload;
  _ ←? app (call (GateRead (rm_room_id room)));
  task_under_gate (rm_room_id room) false (
    held_row ←? app (held (rm_room_id room));
    held ←? app (held_list (rm_room_id room));
    now ←? app (call ReadNow);
    authorized ←? app (authorize_list_admin room presentation presenter (unix_secs now) held false);
    body ←? checked get_response_ok (mk_obj match held_row with
              | Some h => <["list" := hl_list h]> (<["inForceAt" := VStr (rfc3339_secs (hl_in_force_at h))]> {[ "roomId" := VStr (rm_room_id room) ]})
              | None => {[ "roomId" := VStr (rm_room_id room) ]}
              end);
    settled (Ok (body, authorized))).

(** A step of a transfer that presents nothing; it keeps the gate. *)
Definition transfer_step (room : Room) (presented : option Presented) : RoomProg unit :=
  _ ← call (GateRead (rm_room_id room));
  under_gate (rm_room_id room) false (
    held ← held_list (rm_room_id room);
    match held with
    | None => mret ()
    | Some l =>
        withdrawn ← match presented with
                    | Some p => now ← call ReadNow; mret (withdraws l (rm_visibility room) p now)
                    | None => mret (negb (bool_decide (rl_entries l = [])))
                    end;
        refuse_if withdrawn AppForbidden
    end).

(** ** A host's requests

    A handler keeps what it was authorized by until it has answered: it does
    what it was asked to, then drops the gate. *)

Inductive RoomRequest :=
| RqOperate (room_id : string) (p : AuthorityPresentation) (a : Action) (presenter : string) (now : Z)
| RqTransfer (room_id : string) (presented : option Presented) (subject : string) (a : Action)
| RqPut (room_id presenter : string) (payload : Value)
| RqGet (room_id presenter : string) (payload : Value).

Definition dropping (room_id : string) (exclusive : bool) (p : RoomProg unit) : RoomProg unit :=
  then_do p (λ r, then_do (call (GateDrop room_id exclusive)) (λ _, lift r)).
Definition operate (room_id : string) (p : AuthorityPresentation) (a : Action) (presenter : string) (now : Z) : RoomProg unit :=
  room ← call (ReadRoom room_id);
  authorized ← authorize room p a presenter now;
  dropping (az_room_id authorized) false (call (Perform (az_room_id authorized) (vch_subject (az_verified authorized)) a)).
(** A step of a transfer the host has, in a room it has. *)
Definition transfer (room_id : string) (presented : option Presented) (subject : string) (a : Action) : RoomProg unit :=
  room ← call (ReadRoom room_id);
  _ ← transfer_step room presented;
  dropping (rm_room_id room) false (call (Perform (rm_room_id room) subject a)).
Definition list_task (exclusive : bool) (task : RoomTask (Value * AuthorizedAction)) : RoomProg unit :=
  r ← task;
  match r with
  | Ok (_, authorized) => dropping (az_room_id authorized) exclusive (mret ())
  | Err _ => mret ()
  end.
Definition run_room (rq : RoomRequest) : RoomProg unit :=
  match rq with
  | RqOperate room_id p a presenter now => operate room_id p a presenter now
  | RqTransfer room_id presented subject a => transfer room_id presented subject a
  | RqPut room_id presenter payload => room ← call (ReadRoom room_id); list_task true (put room presenter payload)
  | RqGet room_id presenter payload => room ← call (ReadRoom room_id); list_task false (get room presenter payload)
  end.
End Tasks.

(** ** The calls, done *)

(** A host's verifier, as it answers. *)
Class RoomHost := {
  verify_chain : Room → AuthorityPresentation → Action → string → result AppError VerifiedChain;
  verify_room_signature : Room → Value → result AppError unit;
}.
(** Permits of a gate: a reader takes one, a writer all. *)
Definition MAX_READS : Z := 2 ^ 29 - 1.
Record RoomWorld := mk_room_world {
  rw_rooms : gmap string Room;
  rw_held : gmap string HeldList;
  rw_taken : gmap string Z;
  rw_now : Z;
  rw_done : list (string * string * Action);
}.
Definition taken (w : RoomWorld) (room_id : string) : Z := default 0 (rw_taken w !! room_id).
Definition with_taken (room_id : string) (n : Z) (w : RoomWorld) : RoomWorld :=
  mk_room_world (rw_rooms w) (rw_held w) (<[room_id := n]> (rw_taken w)) (rw_now w) (rw_done w).
Definition with_held (room_id : string) (l : HeldList) (w : RoomWorld) : RoomWorld :=
  mk_room_world (rw_rooms w) (<[room_id := l]> (rw_held w)) (rw_taken w) (rw_now w) (rw_done w).
Definition permits (exclusive : bool) : Z := if exclusive then MAX_READS else 1.

Section Semantics.
Context `{RoomHost}.

Definition room_ready (c : RoomCall) (w : RoomWorld) : bool :=
  match c with
  | GateRead id => taken w id <? MAX_READS
  | GateWrite id => taken w id =? 0
  | _ => true
  end.
Definition room_exec (c : RoomCall) (w : RoomWorld) : result AppError (Reply c) * RoomWorld :=
  match c with
  | GateRead id => (Ok (), with_taken id (taken w id + permits false) w)
  | GateWrite id => (Ok (), with_taken id (taken w id + permits true) w)
  | GateDrop id exclusive => (Ok (), with_taken id (taken w id - permits exclusive) w)
  | ReadRoom id => (ok_or (rw_rooms w !! id) AppNotFound, w)
  | ReadHeld id => (Ok (rw_held w !! id), w)
  | StoreHeld id l => (Ok (), with_held id l w)
  | PersistHeld => (Ok (), w)
  | ReadNow => (Ok (rw_now w), w)
  | VerifyChain r p a presenter => (verify_chain r p a presenter, w)
  | VerifyRoomSignature r d => (verify_room_signature r d, w)
  | Perform id s a => (Ok (), mk_room_world (rw_rooms w) (rw_held w) (rw_taken w) (rw_now w) (rw_done w ++ [(id, s, a)]))
  end.
(** A call of the store may fail, having happened or not. *)
Definition of_store (c : RoomCall) : Prop :=
  match c with ReadRoom _ | ReadHeld _ | StoreHeld _ _ | PersistHeld | Perform _ _ _ => True | _ => False end.
Definition room_glitch (c : RoomCall) (w : RoomWorld) (r : result AppError (Reply c)) (w' : RoomWorld) : Prop :=
  of_store c ∧ (∃ e, r = Err e) ∧ (w' = w ∨ w' = (room_exec c w).2).

(** Others change the rooms' rows, and time passes; a gate does not outlive
    its process. *)
#[export] Instance room_calls : CallSemantics RoomCall := {|
  World := RoomWorld;
  ready := room_ready;
  exec := room_exec;
  glitch := room_glitch;
  outlives := of_store;
  elsewhere w w' := rw_held w' = rw_held w ∧ rw_taken w' = rw_taken w ∧ rw_now w ≤ rw_now w';
  restarted w := mk_room_world (rw_rooms w) (rw_held w) ∅ (rw_now w) (rw_done w);
|}.
End Semantics.
