(* ===== verification/RoomSafety.v ===== *)
(** * What a room's withdrawals hold

    [Rooms]' tasks whatever the replies to their calls: what a host stores as a
    room's list, and what it does on whose authority. Then every run of a host:
    an operation is done only under the list in force as it is done, and the
    list in force only moves forward. Both leave out a store of a list that
    failed or was given up on, whose late landing [RoomRuns] shows. *)

From S2P Require Import Prelude Text Json Election Host Programs Rules Rooms.

Abbreviation RoomTrace := (list (Event RoomCall)).

(** ** What a history shows *)

(** The gate it holds, and what it has read of a room's list since it took
    it. *)
Definition gate_step (g : option (string * bool)) (ev : Event RoomCall) : option (string * bool) :=
  match ev with
  | mk_event (GateRead id) (Ok _) => Some (id, false)
  | mk_event (GateWrite id) (Ok _) => Some (id, true)
  | mk_event (GateDrop _ _) _ => None
  | _ => g
  end.
Definition gate_of (h : RoomTrace) : option (string * bool) := fold_left gate_step h None.

Definition read_step (id : string) (seen : list (option HeldList)) (ev : Event RoomCall) : list (option HeldList) :=
  match ev with
  | mk_event (GateRead _) _ | mk_event (GateWrite _) _ | mk_event (StoreHeld _ _) _ => []
  | mk_event (ReadHeld id') (Ok v) => if String.eqb id' id then v :: seen else seen
  | _ => seen
  end.
Definition read_since (id : string) (h : RoomTrace) : list (option HeldList) := fold_left (read_step id) h [].

Lemma gate_last h ev : gate_of (h ++ [ev]) = gate_step (gate_of h) ev.
Proof. unfold gate_of. by rewrite fold_left_app. Qed.
Lemma read_since_last id h ev : read_since id (h ++ [ev]) = read_step id (read_since id h) ev.
Proof. unfold read_since. by rewrite fold_left_app. Qed.

Definition shown (h : RoomTrace) (c : RoomCall) (r : Reply c) : Prop := mk_event c (Ok r) ∈ h.
Lemma shown_kept h h' c r : h `prefix_of` h' → shown h c r → shown h' c r.
Proof. intros [l ->] Hin. apply elem_of_app. by left. Qed.
Lemma shown_last h c r : shown (h ++ [mk_event c (Ok r)]) c r.
Proof. apply elem_of_app. right. by left. Qed.

(** Calls that leave the gate and the list alone. *)
Definition aside (c : RoomCall) : bool :=
  match c with GateRead _ | GateWrite _ | GateDrop _ _ | ReadHeld _ | StoreHeld _ _ => false | _ => true end.
(** Nothing but such calls, and readings of the list. *)
Record still (h h' : RoomTrace) : Prop := {
  still_prefix : h `prefix_of` h';
  still_gate : gate_of h' = gate_of h;
  still_read id v : v ∈ read_since id h → v ∈ read_since id h';
}.
Lemma still_refl h : still h h.
Proof. by split. Qed.
Lemma still_trans h1 h2 h3 : still h1 h2 → still h2 h3 → still h1 h3.
Proof. intros [P1 G1 R1] [P2 G2 R2]. split; [by etrans|congruence|]. intros id v Hv. by apply R2, R1. Qed.
Lemma aside_still h c r : aside c = true → still h (h ++ [mk_event c r]).
Proof.
  intros Hc. split; [by eexists|rewrite gate_last; by destruct c|]. intros id v Hv. rewrite read_since_last. by destruct c.
Qed.
Lemma reading_still h id r : still h (h ++ [mk_event (ReadHeld id) r]).
Proof.
  split; [by eexists|by rewrite gate_last|]. intros id' v Hv. rewrite read_since_last. destruct r as [u|]; simpl; [|done].
  destruct (String.eqb id id'); [|done]. by apply elem_of_cons; right.
Qed.

Section RoomSafety.
Context `{Chrono, ChronoAuto, Sha256, Jcs, Multibase, RoomSerde}.

(** ** What a host may store, and do *)

(** A request's moment, as a date. *)
Definition moment (h : RoomTrace) (now at_ : Z) : Prop :=
  from_timestamp (as_i64 now) = Some at_ ∨ shown h ReadNow at_.

Record authorized_by (h : RoomTrace) (room : Room) (p : AuthorityPresentation) (a : Action) (presenter : string) (now : Z)
    (held : option RevocationList) (mirror_gate : bool) (v : VerifiedChain) : Prop := {
  ab_shape : shape_refused room p a presenter now mirror_gate = false;
  ab_chain : shown h (VerifyChain room p a presenter) v;
  ab_confers : action_str a ∈ vch_actions v;
  ab_subject : vch_subject v = presenter;
  ab_list l : held = Some l → ∃ at_, moment h now at_ ∧ withdraws l (rm_visibility room) (vch_presented v) at_ = false;
}.

(** A list that may take the place of the one read. *)
Definition supersedes (id : string) (v : option HeldList) (now : Z) (l : RevocationList) : Prop :=
  match v with
  | None => True
  | Some h => ∃ old, held_parsed h id = Ok old ∧ rl_sequence old < rl_sequence l ∧ keeps_live now old l = true
  end.
Record may_store (h : RoomTrace) (id presenter : string) (b : HeldList) : Prop := {
  ms_gate : gate_of h = Some (id, true);
  ms_new : ∃ v now l room p held chain, v ∈ read_since id h ∧ shown h ReadNow now ∧ held_parsed b id = Ok l ∧ supersedes id v now l
    ∧ rm_room_id room = id ∧ shown h (VerifyRoomSignature room (hl_list b)) ()
    ∧ in_force v id held ∧ authorized_by h room p Admin presenter (unix_secs now) held false chain
    ∧ (rm_visibility room = Private → names_anyone l = false);
}.
(** What a request does under the list it was held to. *)
Definition entitled (rq : RoomRequest) (h : RoomTrace) (id s : string) (a : Action) (v : option HeldList) : Prop :=
  match rq with
  | RqOperate room_id p a' presenter now =>
      ∃ room held chain, shown h (ReadRoom room_id) room ∧ rm_room_id room = id ∧ a' = a ∧ presenter = s
        ∧ in_force v id held ∧ authorized_by h room p a presenter now held true chain
  | RqTransfer room_id presented s' a' =>
      ∃ room held, shown h (ReadRoom room_id) room ∧ rm_room_id room = id ∧ a' = a ∧ s' = s ∧ in_force v id held
        ∧ ∀ l, held = Some l → match presented with
                               | Some p => ∃ at_, shown h ReadNow at_ ∧ withdraws l (rm_visibility room) p at_ = false
                               | None => rl_entries l = []
                               end
  | _ => False
  end.

Record lawful (rq : RoomRequest) (h : RoomTrace) (c : RoomCall) : Prop := {
  lw_enter id : c = GateRead id ∨ c = GateWrite id → gate_of h = None;
  lw_drop id ex : c = GateDrop id ex → gate_of h = Some (id, ex);
  lw_store id b : c = StoreHeld id b → match rq with RqPut _ presenter _ => may_store h id presenter b | _ => False end;
  lw_perform id s a : c = Perform id s a → gate_of h = Some (id, false) ∧ ∃ v, v ∈ read_since id h ∧ entitled rq h id s a v;
}.

(** ** Going through a task *)

Section Walk.
Context (rq : RoomRequest).
Abbreviation Lawful := (lawful rq).

Definition free (c : RoomCall) : bool :=
  match c with GateRead _ | GateWrite _ | GateDrop _ _ | StoreHeld _ _ | Perform _ _ _ => false | _ => true end.
Lemma free_lawful h c : free c = true → Lawful h c.
Proof. intros Hc. split; intros; subst; try done. by destruct H5; subst. Qed.

(** A stretch of a task that stays in its gate. *)
Definition quietly {A} (P : RoomTrace → A → Prop) (h : RoomTrace) (p : RoomProg A) : Prop :=
  always Lawful (λ h' r, still h h' ∧ ok_then P h' r) h p.

Lemma quietly_seq {A B} (P : RoomTrace → A → Prop) (Q : RoomTrace → B → Prop) (p : RoomProg A) (f : A → RoomProg B) h :
  quietly P h p → (∀ a h', still h h' → P h' a → quietly Q h' (f a)) → quietly Q h (p ≫= f).
Proof.
  intros Hp Hf. apply always_bind. eapply always_impl; [|exact Hp]. intros h' [a|e] [S HP]; simpl in *; [|done].
  eapply always_impl; [|exact (Hf a _ S HP)]. intros h2 r [S2 HQ]. split; [by eapply still_trans|exact HQ].
Qed.
Lemma quietly_impl {A} (P Q : RoomTrace → A → Prop) h p : (∀ h' a, P h' a → Q h' a) → quietly P h p → quietly Q h p.
Proof. intros HPQ. apply always_impl. intros h' [a|e] [S HP]; (split; [exact S|]); [by apply HPQ|done]. Qed.
Lemma quietly_ret {A} (P : RoomTrace → A → Prop) h (a : A) : P h a → quietly P h (mret a).
Proof. intros HP. split; [apply still_refl|exact HP]. Qed.
Lemma quietly_lift {A} h (r : result AppError A) : quietly (λ _ a, r = Ok a) h (lift r).
Proof. split; [apply still_refl|by destruct r]. Qed.
Lemma quietly_refuse h b e : quietly (λ _ _, b = false) h (refuse_if b e).
Proof. eapply quietly_impl; [|apply quietly_lift]. by intros h' [] ->%guard_ok. Qed.
Lemma quietly_call c h : free c = true → aside c = true → quietly (λ h' a, shown h' c a) h (call c).
Proof.
  intros Hf Ha. split; [by apply free_lawful|]. intros r. split; [by apply aside_still|].
  destruct r as [a|e]; [apply shown_last|done].
Qed.

Lemma held_ok id h : quietly (λ h' v, v ∈ read_since id h') h (held id).
Proof.
  split; [by apply free_lawful|]. intros r. split; [apply reading_still|]. destruct r as [v|e]; [|done]. simpl.
  rewrite read_since_last. simpl. rewrite String.eqb_refl. by left.
Qed.
Lemma held_list_ok id h : quietly (λ h' l, ∃ v, v ∈ read_since id h' ∧ in_force v id l) h (held_list id).
Proof.
  unfold held_list. eapply quietly_seq; [apply held_ok|]. intros [b|] h1 S1 Hv; [|apply quietly_ret; by exists None].
  eapply quietly_seq; [apply quietly_lift|]. intros l h2 S2 Hl%map_err_ok. apply quietly_ret.
  exists (Some b). split; [by eapply still_read|by exists l].
Qed.

Lemma moment_kept h h' now at_ : h `prefix_of` h' → moment h now at_ → moment h' now at_.
Proof. intros Hp [?|?]; [by left|right; by eapply shown_kept]. Qed.
Lemma authorized_kept h h' room p a presenter now held mg v :
  h `prefix_of` h' → authorized_by h room p a presenter now held mg v → authorized_by h' room p a presenter now held mg v.
Proof.
  intros Hp [? ? ? ? Hl]. split; try done; [by eapply shown_kept|]. intros l Hheld. destruct (Hl l Hheld) as (t & Ht & ?).
  exists t. split; [by eapply moment_kept|done].
Qed.
Lemma check_ok room p a presenter now held mg h :
  quietly (λ h' v, authorized_by h' room p a presenter now held mg v) h (check room p a presenter now held mg).
Proof.
  unfold check. eapply quietly_seq; [apply quietly_refuse|]. intros [] h1 S1 Hshape.
  eapply quietly_seq; [by apply quietly_call|]. intros v h2 S2 Hv.
  eapply quietly_seq; [apply quietly_refuse|]. intros [] h3 S3 Hact%negb_false_iff%bool_decide_eq_true.
  eapply quietly_seq; [apply quietly_refuse|]. intros [] h4 S4 Hsub%bool_decide_eq_false.
  assert (vch_subject v = presenter) as Hs by (by apply dec_stable).
  assert (shown h4 (VerifyChain room p a presenter) v) as Hv4.
  { eapply shown_kept; [|exact Hv]. etrans; [apply (still_prefix _ _ S3)|apply (still_prefix _ _ S4)]. }
  destruct held as [l|]; [|by apply quietly_ret].
  apply (quietly_seq (λ h' at_, moment h' now at_)).
  - destruct (from_timestamp (as_i64 now)) as [t|] eqn:Ht; [apply quietly_ret; by left|].
    eapply quietly_impl; [|by apply quietly_call]. intros h' t Hshown. by right.
  - intros at_ h5 S5 Hm. eapply quietly_seq; [apply quietly_refuse|]. intros [] h6 S6 Hw. apply quietly_ret.
    split; try done.
    + eapply shown_kept; [|exact Hv4]. etrans; [apply (still_prefix _ _ S5)|apply (still_prefix _ _ S6)].
    + intros l' [= <-]. exists at_. split; [eapply moment_kept; [apply (still_prefix _ _ S6)|exact Hm]|done].
Qed.

(** *** In a gate *)

Lemma drop_ok {A} C' id ex (q : RoomProg A) h :
  gate_of h = Some (id, ex) → (∀ h', gate_of h' = None → always Lawful C' h' q) →
  always Lawful C' h (then_do (call (GateDrop id ex)) (λ _, q)).
Proof.
  intros Hg Hq. split.
  - split; intros; subst; try done; [by destruct H5|]. by simplify_eq.
  - intros r. apply Hq. by rewrite gate_last.
Qed.

(** It has the gate, or has failed and dropped it. *)
Definition leaves {A} (id : string) (ex : bool) (P : RoomTrace → A → Prop) (h : RoomTrace) (r : result AppError A) : Prop :=
  match r with Ok a => gate_of h = Some (id, ex) ∧ P h a | Err _ => gate_of h = None end.
Lemma under_gate_ok {A} (P : RoomTrace → A → Prop) id ex (p : RoomProg A) h :
  gate_of h = Some (id, ex) → quietly P h p → always Lawful (leaves id ex P) h (under_gate id ex p).
Proof.
  intros Hg Hp. apply always_then. eapply always_impl; [|exact Hp]. intros h' [a|e] [S HP]; cbn beta iota.
  - split; [by rewrite (still_gate _ _ S)|exact HP].
  - refine (drop_ok _ id ex (lift (Err e)) _ _ _); [by rewrite (still_gate _ _ S)|]. by intros h2 ?.
Qed.
Lemma enter_shared {A} C' id (f : () → RoomProg A) h :
  gate_of h = None →
  (∀ h', gate_of h' = Some (id, false) → h `prefix_of` h' → always Lawful C' h' (f ())) →
  (∀ h' e, gate_of h' = None → C' h' (Err e)) →
  always Lawful C' h (call (GateRead id) ≫= f).
Proof.
  intros Hnone Hf He. apply always_bind. split; [split; intros; subst; done|]. intros [[]|e].
  - apply Hf; [by rewrite gate_last|by eexists].
  - apply He. by rewrite gate_last.
Qed.
Lemma enter_exclusive {A} C' id (f : () → RoomProg A) h :
  gate_of h = None →
  (∀ h', gate_of h' = Some (id, true) → h `prefix_of` h' → always Lawful C' h' (f ())) →
  (∀ h' e, gate_of h' = None → C' h' (Err e)) →
  always Lawful C' h (call (GateWrite id) ≫= f).
Proof.
  intros Hnone Hf He. apply always_bind. split; [split; intros; subst; done|]. intros [[]|e].
  - apply Hf; [by rewrite gate_last|by eexists].
  - apply He. by rewrite gate_last.
Qed.
Lemma dropping_ok id ex (p : RoomProg unit) h :
  gate_of h = Some (id, ex) → always Lawful (λ h' _, gate_of h' = Some (id, ex)) h p →
  always Lawful (λ _ _, True) h (dropping id ex p).
Proof.
  intros Hg Hp. apply always_then. eapply always_impl; [|exact Hp]. intros h' r Hg'. by refine (drop_ok _ id ex (lift r) _ _ _).
Qed.

Lemma room_authorize_ok room p a presenter now h :
  gate_of h = None →
  always Lawful (leaves (rm_room_id room) false (λ h' z, az_room_id z = rm_room_id room
    ∧ vch_subject (az_verified z) = presenter ∧ h `prefix_of` h'
    ∧ ∃ v held, v ∈ read_since (rm_room_id room) h' ∧ in_force v (rm_room_id room) held
        ∧ authorized_by h' room p a presenter now held true (az_verified z))) h
    (authorize room p a presenter now).
Proof.
  intros Hg. apply enter_shared; [done| |by intros]. intros h1 Hg1 P1.
  apply under_gate_ok; [done|]. eapply quietly_seq; [apply held_list_ok|]. intros held h2 S2 (v & Hv & Hin).
  eapply quietly_seq; [apply check_ok|]. intros chain h3 S3 Hab. apply quietly_ret. simpl.
  split; [done|]. split; [by apply (ab_subject _ _ _ _ _ _ _ _ _ Hab)|].
  split; [etrans; [exact P1|]; etrans; [apply (still_prefix _ _ S2)|apply (still_prefix _ _ S3)]|].
  exists v, held. split; [by eapply still_read|done].
Qed.

Lemma transfer_step_ok room presented h :
  gate_of h = None →
  always Lawful (leaves (rm_room_id room) false (λ h' _, h `prefix_of` h' ∧ ∃ v held, v ∈ read_since (rm_room_id room) h'
    ∧ in_force v (rm_room_id room) held
    ∧ ∀ l, held = Some l → match presented with
                           | Some p => ∃ at_, shown h' ReadNow at_ ∧ withdraws l (rm_visibility room) p at_ = false
                           | None => rl_entries l = []
                           end)) h
    (transfer_step room presented).
Proof.
  intros Hg. apply enter_shared; [done| |by intros]. intros h1 Hg1 P1.
  apply under_gate_ok; [done|]. eapply quietly_seq; [apply held_list_ok|]. intros held h2 S2 (v & Hv & Hin).
  assert (h `prefix_of` h2) as P2 by (etrans; [exact P1|apply (still_prefix _ _ S2)]).
  destruct held as [l|]; [|apply quietly_ret; split; [done|]; by exists v, None].
  apply (quietly_seq (λ h' (w : bool), w = false → match presented with
                           | Some p => ∃ at_, shown h' ReadNow at_ ∧ withdraws l (rm_visibility room) p at_ = false
                           | None => rl_entries l = []
                           end)).
  - destruct presented as [pr|].
    + eapply quietly_seq; [by apply quietly_call|]. intros t h3 S3 Ht. apply quietly_ret. intros Hw. by exists t.
    + apply quietly_ret. intros Hw%negb_false_iff. by apply bool_decide_eq_true in Hw.
  - intros w h3 S3 Hw. eapply always_impl; [|apply quietly_refuse]. intros h4 [[]|e] [S4 Hr]; (split; [exact S4|]); [|done].
    simpl in *. split; [etrans; [exact P2|]; etrans; [apply (still_prefix _ _ S3)|apply (still_prefix _ _ S4)]|].
    exists v, (Some l). split; [by eapply still_read, still_read|]. split; [done|]. intros l' [= <-]. specialize (Hw Hr).
    destruct presented; [|done]. destruct Hw as (t & Ht & ?). exists t. split; [|done].
    eapply shown_kept; [apply (still_prefix _ _ S4)|exact Ht].
Qed.

Lemma aside_gate h c r : aside c = true → gate_of (h ++ [mk_event c r]) = gate_of h.
Proof. intros Hc. apply (still_gate _ _ (aside_still h c r Hc)). Qed.

(** *** The tasks *)

(** What holds of what is not refused, along the way. *)
Definition unless_refused {A} (P : RoomTrace → A → Prop) (h : RoomTrace) (r : result Refusal A) : Prop :=
  match r with Ok a => P h a | Err _ => True end.
(** A stretch that stays in its gate. *)
Definition stays {A} (Q : A → Prop) (h : RoomTrace) (p : RoomTask A) : Prop :=
  always Lawful (λ h' r, gate_of h' = gate_of h ∧ match r with Ok (Ok a) => Q a | _ => True end) h p.

Lemma quietly_attempt {A B} (P : RoomTrace → A → Prop) (Q : RoomTrace → B → Prop) (p : RoomTask A) (f : A → RoomTask B) h :
  quietly (unless_refused P) h p → (∀ a h', still h h' → P h' a → quietly (unless_refused Q) h' (f a)) →
  quietly (unless_refused Q) h (attempt_bind p f).
Proof.
  intros Hp Hf. apply (quietly_seq (A := result Refusal A) (unless_refused P)); [exact Hp|].
  intros [a|e] h' S HP; [by apply Hf|]. apply (quietly_ret (unless_refused Q) h' (Err e)). exact I.
Qed.
Lemma stays_attempt {A B} (P : RoomTrace → A → Prop) (Q : B → Prop) (p : RoomTask A) (f : A → RoomTask B) h :
  quietly (unless_refused P) h p → (∀ a h', still h h' → P h' a → stays Q h' (f a)) → stays Q h (attempt_bind p f).
Proof.
  intros Hp Hf. apply (always_bind (A := result Refusal A)). eapply always_impl; [|exact Hp].
  intros h' [[a|e]|e] [S HP].
  - eapply always_impl; [|exact (Hf a _ S HP)]. intros h2 r [Hg HQ]. split; [by rewrite Hg, (still_gate _ _ S)|exact HQ].
  - split; [by rewrite (still_gate _ _ S)|done].
  - split; [by rewrite (still_gate _ _ S)|done].
Qed.
Lemma quietly_settled {A} h (r : result Refusal A) : quietly (unless_refused (λ _ a, r = Ok a)) h (settled r).
Proof. split; [apply still_refl|]. by destruct r. Qed.
Lemma quietly_refused h b (e : Refusal) : quietly (unless_refused (λ _ _, b = false)) h (refuse_when b e).
Proof. split; [apply still_refl|]. by destruct b. Qed.
Lemma quietly_attempted {A} (P : RoomTrace → A → Prop) (f : AppError → Refusal) h (p : RoomProg A) :
  quietly P h p → quietly (unless_refused P) h (or_refuse f p).
Proof. intros Hp. apply always_then. eapply always_impl; [|exact Hp]. by intros h' [a|e] [S HP]. Qed.

Lemma task_gate_ok {A} (Q : A → Prop) id ex (p : RoomTask A) h :
  gate_of h = Some (id, ex) → stays Q h p →
  always Lawful (λ h' r, match r with Ok (Ok a) => gate_of h' = Some (id, ex) ∧ Q a | _ => gate_of h' = None end) h
    (task_under_gate id ex p).
Proof.
  intros Hg Hp. apply always_then. eapply always_impl; [|exact Hp]. intros h' [[a|e]|e] [Hg' HQ]; cbn beta iota.
  - split; [by rewrite Hg'|exact HQ].
  - refine (drop_ok _ id ex (settled (Err e)) _ _ _); [by rewrite Hg'|]. by intros h2 ?.
  - refine (drop_ok _ id ex (lift (Err e)) _ _ _); [by rewrite Hg'|]. by intros h2 ?.
Qed.

Lemma addressed_ok room ok payload h :
  quietly (unless_refused (λ _ _, True)) h (addressed room ok payload).
Proof.
  unfold addressed. eapply quietly_attempt; [apply quietly_refused|]. intros [] h1 _ _.
  eapply quietly_attempt; [apply quietly_refused|]. intros [] h2 _ _.
  eapply quietly_impl; [|apply quietly_settled]. by intros h' [].
Qed.
Lemma deliver_ok room delivered h :
  quietly (unless_refused (λ h' l, list_parse delivered (rm_room_id room) = Ok l
    ∧ shown h' (VerifyRoomSignature room delivered) ())) h (deliver room delivered).
Proof.
  unfold deliver. eapply quietly_attempt; [apply quietly_settled|]. intros l h1 _ Hl%map_err_ok.
  eapply quietly_attempt; [by apply quietly_attempted, quietly_call|]. intros [] h2 _ Hs. by apply quietly_ret.
Qed.
Lemma list_admin_ok room p presenter now held ex h :
  quietly (λ h' z, az_room_id z = rm_room_id room ∧ ∃ v, authorized_by h' room p Admin presenter now held false v) h
    (authorize_list_admin room p presenter now held ex).
Proof.
  unfold authorize_list_admin. eapply quietly_seq; [apply check_ok|]. intros v h1 _ Hv. apply quietly_ret. split; [done|by exists v].
Qed.
Lemma checked_ok ok body h : quietly (unless_refused (λ _ _, True)) h (checked ok body).
Proof. unfold checked. eapply quietly_impl; [|apply quietly_settled]. by intros h' []. Qed.

(** What is accepted takes the place of what was read. *)
Lemma accept_new id v visibility held now l :
  in_force v id held → accept visibility held now l = Ok AcceptNew →
  supersedes id v now l ∧ (visibility = Private → names_anyone l = false).
Proof.
  intros Hin. unfold accept. destruct (bool_decide (visibility = Private) && names_anyone l) eqn:Hp; [done|]. simpl. intros Hacc.
  split; [|intros ->; by rewrite bool_decide_eq_true_2 in Hp].
  destruct v as [b|]; [|done]. destruct Hin as (old & Hold & ->). exists old. split; [done|].
  destruct (Z.ltb_spec (rl_sequence l) (rl_sequence old)); [done|]. cbn in Hacc.
  destruct (Z.eqb_spec (rl_sequence l) (rl_sequence old)); [by destruct (String.eqb _ _)|].
  destruct (keeps_live now old l); [|done]. split; [lia|done].
Qed.

Definition of_room (room : Room) (r : Value * AuthorizedAction) : Prop := az_room_id r.2 = rm_room_id room.
(** A list task ends with its gate, or with none. *)
Definition task_ends (room : Room) (ex : bool) (h : RoomTrace) (r : result AppError (result Refusal (Value * AuthorizedAction))) : Prop :=
  match r with Ok (Ok a) => gate_of h = Some (rm_room_id room, ex) ∧ of_room room a | _ => gate_of h = None end.

Lemma stays_settled {A} (Q : A → Prop) h (r : result Refusal A) : (∀ a, r = Ok a → Q a) → stays Q h (settled r).
Proof. intros HQ. split; [done|]. destruct r; [by apply HQ|done]. Qed.

Lemma store_stays id b h :
  Lawful h (StoreHeld id b) → stays (λ _, True) h (app (store id b)).
Proof.
  intros Hl. unfold app, store. apply always_then. apply always_bind. split; [exact Hl|]. intros [[]|e].
  - split; [by apply free_lawful|]. intros r. split; [by rewrite !gate_last|by destruct r].
  - split; [by rewrite gate_last|done].
Qed.
Lemma store_lawful room_id presenter payload h id b :
  rq = RqPut room_id presenter payload → may_store h id presenter b → Lawful h (StoreHeld id b).
Proof.
  intros -> Hm. split; [intros ? [?|?]; done|done| |done]. intros id' b' [= <- <-]. exact Hm.
Qed.
Lemma stays_then {A B} (P : A → Prop) (Q : B → Prop) (p : RoomTask A) (f : A → RoomTask B) h :
  stays P h p → (∀ a h', P a → stays Q h' (f a)) → stays Q h (attempt_bind p f).
Proof.
  intros Hp Hf. apply (always_bind (A := result Refusal A)). eapply always_impl; [|exact Hp].
  intros h' [[a|e]|e] [Hg HP]; [|by split..].
  eapply always_impl; [|exact (Hf a _ HP)]. intros h2 r [Hg2 HQ]. split; [by rewrite Hg2|exact HQ].
Qed.
Lemma stays_quiet {A} (P : RoomTrace → A → Prop) (Q : A → Prop) (p : RoomTask A) h :
  (∀ h' a, P h' a → Q a) → quietly (unless_refused P) h p → stays Q h p.
Proof.
  intros HPQ. apply always_impl. intros h' [[a|e]|e] [S HP]; (split; [apply (still_gate _ _ S)|]); [by eapply HPQ|done..].
Qed.

Lemma before_gate {A} room ex (P : RoomTrace → A → Prop) (p : RoomTask A) (f : A → RoomTask (Value * AuthorizedAction)) h :
  gate_of h = None → quietly (unless_refused P) h p →
  (∀ a h', gate_of h' = None → always Lawful (task_ends room ex) h' (f a)) →
  always Lawful (task_ends room ex) h (attempt_bind p f).
Proof.
  intros Hg Hp Hf. apply (always_bind (A := result Refusal A)). eapply always_impl; [|exact Hp].
  intros h' [[a|e]|e] [S _]; [apply Hf|..]; cbn; by rewrite (still_gate _ _ S).
Qed.
Lemma before_shared room (f : () → RoomTask (Value * AuthorizedAction)) h :
  gate_of h = None → (∀ h', gate_of h' = Some (rm_room_id room, false) → always Lawful (task_ends room false) h' (f ())) →
  always Lawful (task_ends room false) h (attempt_bind (app (call (GateRead (rm_room_id room)))) f).
Proof.
  intros Hg Hf. apply (always_bind (A := result Refusal unit)). apply always_then.
  split; [split; intros; subst; done|]. intros [[]|e]; [apply Hf; by rewrite gate_last|]. cbn. by rewrite gate_last.
Qed.
Lemma before_exclusive room (f : () → RoomTask (Value * AuthorizedAction)) h :
  gate_of h = None → (∀ h', gate_of h' = Some (rm_room_id room, true) → always Lawful (task_ends room true) h' (f ())) →
  always Lawful (task_ends room true) h (attempt_bind (app (call (GateWrite (rm_room_id room)))) f).
Proof.
  intros Hg Hf. apply (always_bind (A := result Refusal unit)). apply always_then.
  split; [split; intros; subst; done|]. intros [[]|e]; [apply Hf; by rewrite gate_last|]. cbn. by rewrite gate_last.
Qed.

Lemma put_ok room_id room presenter payload h :
  rq = RqPut room_id presenter payload → gate_of h = None →
  always Lawful (task_ends room true) h (put room presenter payload).
Proof.
  intros Hrq Hg. unfold put. eapply before_gate; [done|apply addressed_ok|]. intros pres h1 Hg1.
  apply before_exclusive; [done|]. intros h2 Hg2. apply (task_gate_ok (of_room room)); [done|].
  eapply stays_attempt; [apply quietly_attempted, held_ok|]. intros row h3 S3 _.
  eapply stays_attempt; [apply quietly_attempted, held_list_ok|]. intros hl h4 S4 (v & Hv & Hin).
  eapply stays_attempt; [by apply quietly_attempted, quietly_call|]. intros now h5 S5 Hnow.
  eapply stays_attempt; [apply quietly_attempted, list_admin_ok|]. intros z h6 S6 (Hz & chain & Hab).
  eapply stays_attempt; [apply deliver_ok|]. intros l h7 S7 (Hl & Hsig).
  eapply stays_attempt; [apply quietly_settled|]. intros acc h8 S8 Hacc%map_err_ok.
  assert (∀ at_ h', stays (of_room room) h' (body ←? checked put_response_ok (mk_obj {[ "roomId" := VStr (rm_room_id room);
    "head" := head_to_wire (list_head l); "inForceAt" := VStr (rfc3339_secs at_) ]}); settled (Ok (body, z)))) as Hrest.
  { intros at_ h'. eapply stays_attempt; [apply checked_ok|]. intros body h9 _ _. apply stays_settled. by intros ? [= <-]. }
  destruct acc; [|apply (stays_then (λ _, True)); [by apply stays_settled|intros at_ h' _; apply Hrest]].
  apply (stays_then (λ _, True)); [|intros at_ h' _; apply Hrest].
  apply (stays_then (λ _, True)); [|intros [] h' _; by apply stays_settled].
  apply store_stays. pose proof (accept_new _ _ _ _ _ _ Hin Hacc) as [Hsup Hpriv].
  assert (still h4 h8) as S48 by (repeat (eapply still_trans; [eassumption|]); apply still_refl).
  assert (still h5 h8) as S58 by (repeat (eapply still_trans; [eassumption|]); apply still_refl).
  assert (still h6 h8) as S68 by (repeat (eapply still_trans; [eassumption|]); apply still_refl).
  eapply store_lawful; [exact Hrq|]. split.
  - by rewrite (still_gate _ _ S48), (still_gate _ _ S4), (still_gate _ _ S3).
  - exists v, now, l, room, pres, hl, chain. split; [by apply (still_read _ _ S48)|].
    split; [eapply shown_kept; [apply (still_prefix _ _ S58)|exact Hnow]|]. split; [exact Hl|]. split; [exact Hsup|].
    split; [done|]. split; [eapply shown_kept; [apply (still_prefix _ _ S8)|exact Hsig]|]. split; [exact Hin|].
    split; [eapply authorized_kept; [apply (still_prefix _ _ S68)|exact Hab]|exact Hpriv].
Qed.

Lemma get_ok room presenter payload h :
  gate_of h = None → always Lawful (task_ends room false) h (get room presenter payload).
Proof.
  intros Hg. unfold get. eapply before_gate; [done|apply addressed_ok|]. intros pres h1 Hg1.
  apply before_shared; [done|]. intros h2 Hg2. apply (task_gate_ok (of_room room)); [done|].
  eapply stays_attempt; [apply quietly_attempted, held_ok|]. intros row h3 S3 _.
  eapply stays_attempt; [apply quietly_attempted, held_list_ok|]. intros hl h4 S4 _.
  eapply stays_attempt; [by apply quietly_attempted, quietly_call|]. intros now h5 S5 Hnow.
  eapply stays_attempt; [apply quietly_attempted, list_admin_ok|]. intros z h6 S6 (Hz & _).
  eapply stays_attempt; [apply checked_ok|]. intros body h7 _ _. apply stays_settled. by intros ? [= <-].
Qed.

(** *** A request *)

Lemma list_task_ok room ex task h :
  always Lawful (task_ends room ex) h task → always Lawful (λ _ _, True) h (list_task ex task).
Proof.
  intros Ht. apply (always_bind (A := result Refusal (Value * AuthorizedAction))). eapply always_impl; [|exact Ht].
  intros h' [[[body z]|e]|e]; [|done..]. intros [Hg Hz]. unfold and_then. cbn beta iota.
  change (az_room_id z = rm_room_id room) in Hz. rewrite Hz. by apply dropping_ok.
Qed.
Lemma perform_ok id s a v h :
  gate_of h = Some (id, false) → v ∈ read_since id h → entitled rq h id s a v → always Lawful (λ _ _, True) h (dropping id false (call (Perform id s a))).
Proof.
  intros Hg Hv He. apply dropping_ok; [exact Hg|]. split.
  - split; [by intros ? [?|?]|done|done|]. intros ? ? ? [= <- <- <-]. split; [exact Hg|by exists v].
  - intros r. cbn [always]. by rewrite aside_gate.
Qed.
End Walk.

Lemma read_room_ok {A} rq id (f : Room → RoomProg A) (Q : RoomTrace → result AppError A → Prop) :
  (∀ h room, gate_of h = None → shown h (ReadRoom id) room → always (lawful rq) (λ _ _, True) h (f room)) →
  always (lawful rq) (λ _ _, True) [] (call (ReadRoom id) ≫= f).
Proof.
  intros Hf. apply always_bind. split; [by apply free_lawful|]. intros [room|e]; [|done]. apply Hf; [done|apply shown_last].
Qed.

Lemma room_request_lawful rq : always (lawful rq) (λ _ _, True) [] (run_room rq).
Proof.
  destruct rq as [id p a presenter now|id presented s a|id presenter payload|id presenter payload];
    (apply read_room_ok with (Q := λ _ _, True); intros h room Hg Hroom).
  - apply always_bind. eapply always_impl; [|by apply room_authorize_ok].
    intros h' [z|e]; [|done]. intros [Hg' (Hz & Hs & Hp & v & held & Hv & Hin & Hab)]. unfold and_then. cbn beta iota. rewrite Hz, Hs.
    apply (perform_ok _ _ _ _ v); [exact Hg'|exact Hv|]. exists room, held, (az_verified z). split; [by eapply shown_kept|]. done.
  - apply always_bind. eapply always_impl; [|by apply transfer_step_ok].
    intros h' [[]|e]; [|done]. intros [Hg' (Hp & v & held & Hv & Hin & Hl)]. unfold and_then. cbn beta iota.
    apply (perform_ok _ _ _ _ v); [exact Hg'|exact Hv|]. exists room, held. split; [by eapply shown_kept|]. done.
  - eapply list_task_ok, put_ok; [done|exact Hg].
  - eapply list_task_ok, get_ok. exact Hg.
Qed.

(** ** Every run of a host *)

Context `{RoomHost}.

(** Permits of a room's gate. *)
Definition permits_of (id : string) (h : RoomTrace) : Z :=
  match gate_of h with Some (id', ex) => if String.eqb id' id then permits ex else 0 | None => 0 end.
(** A request that has not been answered has its permits. *)
Definition live_permits (id : string) (t : Thread RoomCall unit) : Z :=
  match th_prog t with Do _ _ => permits_of id (th_history t) | Ret _ => 0 end.
Definition in_hands (id : string) (ts : list (Thread RoomCall unit)) : Z := foldr (λ t n, live_permits id t + n) 0 ts.

(** Runs in which no store of this room's list is given up on. *)
Definition steady (id : string) (s s' : Service RoomCall unit) : Prop :=
  service_step s s' ∧ ∀ b, StoreHeld id b ∉ sv_late s'.

(** Replies that say something of the host. *)
Definition said (w : RoomWorld) (ev : Event RoomCall) : Prop :=
  match ev with
  | mk_event ReadNow (Ok n) => n ≤ rw_now w
  | mk_event (VerifyChain r p a presenter) (Ok v) => verify_chain r p a presenter = Ok v
  | mk_event (VerifyRoomSignature r d) (Ok _) => verify_room_signature r d = Ok ()
  | _ => True
  end.

Record guarded (rqs : list RoomRequest) (id : string) (s : Service RoomCall unit) : Prop := {
  gd_permits : in_hands id (sv_threads s) ≤ taken (sv_world s) id ≤ MAX_READS;
  gd_late c : c ∈ sv_late s → of_store c ∧ ∀ b, c ≠ StoreHeld id b;
  gd_lawful i t : sv_threads s !! i = Some t →
    ∃ rq, rqs !! i = Some rq ∧ always (lawful rq) (λ _ _, True) (th_history t) (th_prog t);
  gd_said i t ev : sv_threads s !! i = Some t → ev ∈ th_history t → said (sv_world s) ev;
  gd_read i t ex v c k : sv_threads s !! i = Some t → th_prog t = Do c k → gate_of (th_history t) = Some (id, ex) →
    v ∈ read_since id (th_history t) → v = rw_held (sv_world s) !! id;
}.


Lemma permits_of_range id h : 0 ≤ permits_of id h ≤ MAX_READS.
Proof. unfold permits_of, permits, MAX_READS. destruct (gate_of h) as [[? []]|]; [case_match; lia..|lia]. Qed.
Lemma live_range id t : 0 ≤ live_permits id t ≤ permits_of id (th_history t).
Proof. unfold live_permits. pose proof (permits_of_range id (th_history t)). destruct (th_prog t); lia. Qed.
Lemma in_hands_range id ts : 0 ≤ in_hands id ts.
Proof. induction ts as [|t ts IH]; simpl; [lia|]. pose proof (live_range id t). lia. Qed.
Lemma in_hands_insert id ts i t u :
  ts !! i = Some t → in_hands id (<[i := u]> ts) + live_permits id t = in_hands id ts + live_permits id u.
Proof.
  revert i. induction ts as [|t' ts IH]; intros [|i]; [done..| |]; simpl; [intros [= ->]; lia|].
  intros Hi%IH. lia.
Qed.
Lemma in_hands_two id ts i j t u :
  i ≠ j → ts !! i = Some t → ts !! j = Some u → live_permits id t + live_permits id u ≤ in_hands id ts.
Proof.
  intros Hne Hi Hj. pose proof (in_hands_insert id ts i t (mk_thread [] (Ret (Ok ()))) Hi) as H1'.
  assert (<[i := mk_thread [] (Ret (Ok ()))]> ts !! j = Some u) as Hj' by (by rewrite list_lookup_insert_ne).
  pose proof (in_hands_insert id _ j u (mk_thread [] (Ret (Ok ()))) Hj') as H2'.
  pose proof (in_hands_range id (<[j := mk_thread [] (Ret (Ok ()))]> (<[i := mk_thread [] (Ret (Ok ()))]> ts))). simpl in *.
  unfold live_permits in H1' at 2. unfold live_permits in H2' at 2. simpl in *. lia.
Qed.
Lemma begun_permits id ps : in_hands id (begin <$> ps) = 0.
Proof.
  induction ps as [|p ps IH]; [done|]. rewrite fmap_cons. unfold in_hands in *. cbn [foldr]. rewrite IH. by destruct p.
Qed.
Lemma permits_of_last id h ev : permits_of id (h ++ [ev]) =
  match gate_step (gate_of h) ev with Some (id', ex) => if String.eqb id' id then permits ex else 0 | None => 0 end.
Proof. unfold permits_of. by rewrite gate_last. Qed.
Lemma taken_same id n w : taken (with_taken id n w) id = n.
Proof. unfold taken, with_taken. simpl. by rewrite lookup_insert_eq. Qed.
Lemma taken_other id id' n w : id ≠ id' → taken (with_taken id n w) id' = taken w id'.
Proof. intros Hne. unfold taken, with_taken. simpl. by rewrite lookup_insert_ne. Qed.


(** A call made: done, gone wrong, or given up on. *)
Definition made (c : RoomCall) (w : RoomWorld) (r : result AppError (Reply c)) (w' : RoomWorld) : Prop :=
  (room_ready c w = true ∧ room_exec c w = (r, w')) ∨ room_glitch c w r w' ∨ (of_store c ∧ w' = w ∧ ∃ e, r = Err e).

Definition of_gate (c : RoomCall) : bool := match c with GateRead _ | GateWrite _ | GateDrop _ _ => true | _ => false end.
Lemma store_gate c : of_store c → of_gate c = false.
Proof. by destruct c; simpl. Qed.
Lemma exec_taken c w : of_gate c = false → rw_taken (room_exec c w).2 = rw_taken w.
Proof. by destruct c. Qed.
Lemma gate_exec c w r w' : of_gate c = true → made c w r w' → room_ready c w = true ∧ room_exec c w = (r, w').
Proof. intros Hg [Hm|[[Ho _]|[Ho _]]]; [exact Hm|by destruct c..]. Qed.
Lemma late_made c (w : World RoomCall) : of_store c → made c w (Err AppInternal) (exec c w).2.
Proof. intros Ho. right. left. split; [exact Ho|]. split; [by eexists|by right]. Qed.
Lemma made_world c w r w' : made c w r w' → w' = w ∨ w' = (room_exec c w).2.
Proof. intros [[_ He]|[(_ & _ & ?)|(_ & -> & _)]]; [right; by rewrite He|done|by left]. Qed.
Lemma made_taken c w r w' id : of_gate c = false → made c w r w' → taken w' id = taken w id.
Proof. intros Hg [->| ->]%made_world; [done|]. unfold taken. by rewrite exec_taken. Qed.

(** It then has the permits it takes, and no more are taken than there are. *)
Lemma made_permits rq id h c w r w' :
  lawful rq h c → taken w id ≤ MAX_READS → made c w r w' →
  permits_of id (h ++ [mk_event c r]) - permits_of id h ≤ taken w' id - taken w id ∧ taken w' id ≤ MAX_READS.
Proof.
  intros Hc Hw Hm. rewrite permits_of_last. unfold permits_of. destruct (of_gate c) eqn:Hg.
  - destruct (gate_exec _ _ _ _ Hg Hm) as [Hr He]. destruct c; try done; simpl in Hr, He; injection He as <- <-; simpl.
    + rewrite (lw_enter _ _ _ Hc room_id) by (by left). destruct (String.eqb_spec room_id id) as [->|].
      * rewrite taken_same. unfold permits. lia.
      * rewrite taken_other by done. lia.
    + rewrite (lw_enter _ _ _ Hc room_id) by (by right). destruct (String.eqb_spec room_id id) as [->|].
      * rewrite taken_same. unfold permits. lia.
      * rewrite taken_other by done. lia.
    + rewrite (lw_drop _ _ _ Hc _ _ eq_refl). destruct (String.eqb_spec room_id id) as [->|].
      * rewrite taken_same. pose proof (permits_of_range id h) as Hp. unfold permits_of in Hp.
        rewrite (lw_drop _ _ _ Hc _ _ eq_refl), String.eqb_refl in Hp. lia.
      * rewrite taken_other by done. lia.
  - rewrite (made_taken _ _ _ _ id Hg Hm). destruct c; try done; simpl; lia.
Qed.

Lemma made_held c w r w' id : (∀ b, c ≠ StoreHeld id b) → made c w r w' → rw_held w' !! id = rw_held w !! id.
Proof.
  intros Hc [->| ->]%made_world; [done|]. destruct c; try done. simpl. apply lookup_insert_ne. intros ->. by eapply Hc.
Qed.
Lemma made_now c w r w' : made c w r w' → rw_now w' = rw_now w.
Proof. intros [->| ->]%made_world; [done|]. by destruct c. Qed.
Lemma said_later w w' ev : rw_now w ≤ rw_now w' → said w ev → said w' ev.
Proof. intros Hn. destruct ev as [[] [|]]; simpl; try done. lia. Qed.
Lemma made_said c w r w' : made c w r w' → said w' (mk_event c r).
Proof.
  intros Hm. destruct r as [a|e]; [|by destruct c]. destruct Hm as [[_ He]|[(_ & [e He] & _)|(_ & _ & [e He])]]; [|discriminate He..].
  destruct c; try done; simpl in *; injection He as He1 He2; subst; try done. by destruct a.
Qed.
Lemma made_read rq id h c w r w' ex :
  lawful rq h c → made c w r w' → gate_of (h ++ [mk_event c r]) = Some (id, ex) →
  (∀ ex' v, gate_of h = Some (id, ex') → v ∈ read_since id h → v = rw_held w !! id) →
  ∀ v, v ∈ read_since id (h ++ [mk_event c r]) → v = rw_held w' !! id.
Proof.
  intros Hc Hm Hg IH v. rewrite gate_last in Hg. rewrite read_since_last.
  assert ((∀ b, c ≠ StoreHeld id b) → gate_of h = Some (id, ex) → v ∈ read_since id h → v = rw_held w' !! id) as Hsame.
  { intros Hne Hg'. rewrite (made_held _ _ _ _ _ Hne Hm). by apply IH with ex. }
  destruct c; simpl in *; try (by apply Hsame); try (by intros ?%elem_of_nil).
  destruct r as [u|e]; [|by apply Hsame]. destruct (String.eqb_spec room_id id) as [->|]; [|by apply Hsame].
  intros [->|Hin]%elem_of_cons; [|by apply Hsame].
  destruct Hm as [[_ He]|[(_ & [e He] & _)|(_ & _ & [e He])]]; [|discriminate He..]. simpl in He. by injection He as <- <-.
Qed.

Section Guarded.
Context (rqs : list RoomRequest) (id : string).

(** Who stores a room's list has its gate alone. *)
Lemma alone w late ts i j h c k t b :
  guarded rqs id (mk_service w late ts) → i ≠ j → ts !! i = Some (mk_thread h (Do c k)) → c = StoreHeld id b →
  ts !! j = Some t → live_permits id t = 0.
Proof.
  intros [Hp _ Hl _ _] Hne Hi -> Hj. destruct (Hl _ _ Hi) as (rq & _ & Hc & _). cbn [th_history sv_threads sv_world] in *.
  pose proof (lw_store _ _ _ Hc _ _ eq_refl) as Hm. destruct rq; try done. destruct Hm as [Hg _].
  pose proof (in_hands_two id ts i j _ _ Hne Hi Hj) as Htwo. pose proof (live_range id t).
  assert (live_permits id (mk_thread h (Do (StoreHeld id b) k)) = MAX_READS) as Ha; [|lia].
  unfold live_permits, permits_of. simpl. rewrite Hg, String.eqb_refl. done.
Qed.

Lemma guarded_made w late late' ts i h c k r w' :
  guarded rqs id (mk_service w late ts) → ts !! i = Some (mk_thread h (Do c k)) → made c w r w' →
  (∀ c', c' ∈ late' → of_store c' ∧ ∀ b, c' ≠ StoreHeld id b) →
  guarded rqs id (mk_service w' late' (<[i := mk_thread (h ++ [mk_event c r]) (k r)]> ts)).
Proof.
  intros Hok Hi Hm Hlate. destruct Hok as [Hp Hl Hlaw Hsaid Hread] eqn:E. cbn [sv_world sv_threads] in *.
  destruct (Hlaw _ _ Hi) as (rq & Hrq & Hc & Hk). cbn [th_history] in Hc.
  pose proof (lookup_lt_Some _ _ _ Hi) as Hlt. split; cbn [sv_world sv_threads sv_late].
  - pose proof (made_permits rq id h c w r w' Hc (proj2 Hp) Hm) as [Hd Hmax]. split; [|exact Hmax].
    pose proof (in_hands_insert id ts i _ (mk_thread (h ++ [mk_event c r]) (k r)) Hi) as Hins.
    pose proof (live_range id (mk_thread (h ++ [mk_event c r]) (k r))) as Hu. cbn [th_history] in Hu.
    unfold live_permits in Hins at 1. cbn [th_prog th_history] in Hins. lia.
  - exact Hlate.
  - intros j t Hj. destruct (decide (i = j)) as [<-|Hne].
    + rewrite list_lookup_insert_eq in Hj by done. injection Hj as <-. exists rq. split; [done|apply Hk].
    + rewrite list_lookup_insert_ne in Hj by done. by apply Hlaw.
  - intros j t ev Hj Hev. destruct (decide (i = j)) as [<-|Hne].
    + rewrite list_lookup_insert_eq in Hj by done. injection Hj as <-. apply elem_of_app in Hev as [Hev| ->%list_elem_of_singleton].
      * eapply said_later; [|by apply (Hsaid _ _ _ Hi)]. rewrite (made_now _ _ _ _ Hm). lia.
      * by apply made_said with w.
    + rewrite list_lookup_insert_ne in Hj by done. eapply said_later; [|by apply (Hsaid _ _ _ Hj)].
      rewrite (made_now _ _ _ _ Hm). lia.
  - intros j t ex v c' k' Hj Hdo Hg Hv. destruct (decide (i = j)) as [<-|Hne].
    + rewrite list_lookup_insert_eq in Hj by done. injection Hj as <-. cbn [th_history th_prog] in *.
      eapply (made_read rq id h c w r w' ex); [done..| |done]. intros ex' v' Hg' Hv'. by apply (Hread i _ ex' v' c k Hi).
    + rewrite list_lookup_insert_ne in Hj by done. rewrite (Hread _ _ _ _ _ _ Hj Hdo Hg Hv). symmetry.
      apply (made_held c w r w' id); [|done]. intros b Hcb. pose proof (alone _ _ _ _ _ _ _ _ _ _ Hok Hne Hi Hcb Hj) as Hz.
      unfold live_permits, permits_of in Hz. rewrite Hdo, Hg, String.eqb_refl in Hz. by destruct ex.
Qed.

Lemma guarded_step s s' : guarded rqs id s → steady id s s' → guarded rqs id s'.
Proof.
  intros Hok [Hstep Hst]. destruct Hstep as [w late ts i h c k r w' Hi Hr He|w late ts i h c k r w' Hi He|w late ts i h c k e Hi Ho
                    |w late1 c late2 ts|w w' late ts Hsame|w late ts]; cbn [sv_late] in Hst.
  - eapply guarded_made; [done..| |apply (gd_late _ _ _ Hok)]. left. by split.
  - eapply guarded_made; [done..| |apply (gd_late _ _ _ Hok)]. right. by left.
  - eapply guarded_made; [done..| |].
    + right. right. split; [exact Ho|]. split; [done|by exists e].
    + intros c' [->|Hin]%elem_of_cons; [|by apply (gd_late _ _ _ Hok)]. split; [exact Ho|]. intros b ->. by apply (Hst b); left.
  - destruct Hok as [Hp Hl Hlaw Hsaid Hread]. destruct (Hl c) as [Ho Hne]; [apply elem_of_app; right; by left|].
    pose proof (late_made c w Ho) as Hm.
    cbn [sv_world sv_threads sv_late] in *. split; cbn [sv_world sv_threads sv_late].
    + rewrite (made_taken _ _ _ _ id (store_gate _ Ho) Hm). exact Hp.
    + intros c' [?|?]%elem_of_app; apply Hl, elem_of_app; [by left|right; by right].
    + exact Hlaw.
    + intros j t ev Hj Hev. eapply said_later; [|by apply (Hsaid _ _ _ Hj)].
      rewrite (made_now _ _ _ _ Hm). lia.
    + intros j t ex v c' k Hj Hdo Hg Hv. rewrite (Hread _ _ _ _ _ _ Hj Hdo Hg Hv). symmetry. by apply (made_held _ _ _ _ id Hne Hm).
  - destruct Hok as [Hp Hl Hlaw Hsaid Hread]. destruct Hsame as (Hh & Ht & Hn). cbn [sv_world sv_threads sv_late] in *.
    split; cbn [sv_world sv_threads sv_late]; try done.
    + unfold taken. by rewrite Ht.
    + intros j t ev Hj Hev. eapply said_later; [exact Hn|by apply (Hsaid _ _ _ Hj)].
    + rewrite Hh. exact Hread.
  - destruct Hok as [Hp Hl Hlaw Hsaid Hread]. cbn [sv_world sv_threads sv_late] in *.
    assert (∀ j t, (cut_off <$> ts) !! j = Some t → ∃ u, ts !! j = Some u ∧ t = cut_off u) as Hcut.
    { intros j t Hj. rewrite list_lookup_fmap in Hj. apply fmap_Some in Hj as (u & ? & ->). by exists u. }
    split; cbn [sv_world sv_threads sv_late].
    + unfold taken. simpl. rewrite lookup_empty. simpl. split; [|unfold MAX_READS; lia].
      unfold in_hands. clear. induction ts as [|t ts IH]; [done|]. rewrite fmap_cons. cbn [foldr]. by rewrite (Z.le_antisymm _ _ IH (in_hands_range id _)).
    + by intros c ?%elem_of_nil.
    + intros j t (u & Hu & ->)%Hcut. destruct (Hlaw _ _ Hu) as (rq & ? & _). by exists rq.
    + intros j t ev (u & Hu & ->)%Hcut. apply (Hsaid _ _ _ Hu).
    + by intros j t ex v c k (u & Hu & ->)%Hcut.
Qed.

Lemma guarded_begins w : rw_taken w = ∅ → guarded rqs id (mk_service w [] (begin <$> (run_room <$> rqs))).
Proof.
  intros Hw. split; cbn [sv_world sv_threads sv_late].
  - unfold taken. rewrite Hw, lookup_empty, begun_permits. done.
  - by intros c ?%elem_of_nil.
  - intros i t Hi. rewrite !list_lookup_fmap in Hi. apply fmap_Some in Hi as (p & Hp & ->).
    apply fmap_Some in Hp as (rq & Hrq & ->). exists rq. split; [done|]. apply room_request_lawful.
  - intros i t ev Hi. rewrite !list_lookup_fmap in Hi. apply fmap_Some in Hi as (p & Hp & ->). by intros ?%elem_of_nil.
  - intros i t ex v c k Hi. rewrite !list_lookup_fmap in Hi. apply fmap_Some in Hi as (p & Hp & ->). done.
Qed.
Lemma guarded_runs w s :
  rw_taken w = ∅ → rtc (steady id) (mk_service w [] (begin <$> (run_room <$> rqs))) s → guarded rqs id s.
Proof.
  intros Hw Hrun. pose proof (guarded_begins w Hw) as Hs. induction Hrun as [|s1 s2 s3 H12 _ IH]; [done|].
  apply IH. by eapply guarded_step.
Qed.

(** *** What it keeps *)

Definition host (w : RoomWorld) : Service RoomCall unit := mk_service w [] (begin <$> (run_room <$> rqs)).

(** The host's verifiers and clock bear out what a request was authorized by. *)
Record borne_out (w : RoomWorld) (room : Room) (p : AuthorityPresentation) (a : Action) (presenter : string) (now : Z)
    (held : option RevocationList) (v : VerifiedChain) : Prop := {
  bo_shape : shape_refused room p a presenter now true = false;
  bo_chain : verify_chain room p a presenter = Ok v;
  bo_confers : action_str a ∈ vch_actions v;
  bo_subject : vch_subject v = presenter;
  bo_list l : held = Some l → ∃ at_, (from_timestamp (as_i64 now) = Some at_ ∨ at_ ≤ rw_now w)
    ∧ withdraws l (rm_visibility room) (vch_presented v) at_ = false;
}.
Definition authorized_now (w : RoomWorld) (rq : RoomRequest) (s : string) (a : Action) : Prop :=
  match rq with
  | RqOperate _ p a' presenter now =>
      ∃ room held chain, rm_room_id room = id ∧ a' = a ∧ presenter = s
        ∧ in_force (rw_held w !! id) id held ∧ borne_out w room p a presenter now held chain
  | RqTransfer _ presented s' a' =>
      ∃ room held, rm_room_id room = id ∧ a' = a ∧ s' = s ∧ in_force (rw_held w !! id) id held
        ∧ ∀ l, held = Some l → match presented with
                               | Some p => ∃ at_, at_ ≤ rw_now w ∧ withdraws l (rm_visibility room) p at_ = false
                               | None => rl_entries l = []
                               end
  | _ => False
  end.

(** C10 (in_force_when_done): in every run of a host, with requests of every
    kind interleaved, calls failing, given up on or landing late, and restarts,
    as long as no store of the room's list is given up on: when a request is
    about to do what it was authorized to do in a room, the list in force in
    that room is the very one it was judged by, and that list withdraws
    nothing it presented. An operation's presentation passes the checks of its
    shape, is the one the chain verifier accepts, confers the action, and is
    its presenter's own. So no list is accepted between an authorization and
    what it authorized; a put or a get does nothing else in the room. *)
Theorem in_force_when_done w s i t sub a :
  rw_taken w = ∅ → rtc (steady id) (host w) s →
  sv_threads s !! i = Some t → next_call (th_prog t) = Some (Perform id sub a) →
  ∃ rq, rqs !! i = Some rq ∧ authorized_now (sv_world s) rq sub a.
Proof.
  intros Hw Hrun Hi Hnext. pose proof (guarded_runs w s Hw Hrun) as [_ _ Hlaw Hsaid Hread].
  destruct (Hlaw _ _ Hi) as (rq & Hrq & Hal). exists rq. split; [exact Hrq|].
  pose proof (lw_perform _ _ _ (always_next _ _ _ _ _ Hal Hnext) _ _ _ eq_refl) as (Hg & v & Hv & He).
  assert (∃ k, th_prog t = Do (Perform id sub a) k) as [k Hk].
  { destruct (th_prog t) as [|c k]; [done|]. injection Hnext as ->. by exists k. }
  pose proof (Hread _ _ _ _ _ _ Hi Hk Hg Hv) as ->. destruct rq as [rid p a' presenter now|rid presented s' a'| |]; try done.
  - destruct He as (room & held & chain & _ & Hid & -> & -> & Hin & [Hs Hc Hcf Hsub Hl]). exists room, held, chain.
    split; [exact Hid|]. split; [done|]. split; [done|]. split; [exact Hin|]. split; [done|exact (Hsaid _ _ _ Hi Hc)|done..|].
    intros l Hheld. destruct (Hl l Hheld) as (at_ & Hm & Hwd). exists at_. split; [|exact Hwd].
    destruct Hm as [Hm|Hm]; [by left|right; exact (Hsaid _ _ _ Hi Hm)].
  - destruct He as (room & held & _ & Hid & -> & -> & Hin & Hl). exists room, held.
    split; [exact Hid|]. split; [done|]. split; [done|]. split; [exact Hin|]. intros l Hheld. specialize (Hl l Hheld).
    destruct presented; [|exact Hl]. destruct Hl as (at_ & Hm & Hwd). exists at_. split; [exact (Hsaid _ _ _ Hi Hm)|exact Hwd].
Qed.

(** A list the room signed. *)
Definition signed (b : HeldList) (l : RevocationList) : Prop :=
  held_parsed b id = Ok l ∧ ∃ room, rm_room_id room = id ∧ verify_room_signature room (hl_list b) = Ok ()
    ∧ (rm_visibility room = Private → names_anyone l = false).
(** The list in force has stayed, or has given way to a later one that keeps
    every entry not past its date. *)
Definition moved_on (now : Z) (v v' : option HeldList) : Prop :=
  v' = v ∨ ∃ b l, v' = Some b ∧ signed b l
    ∧ ∀ h, v = Some h → ∃ old, held_parsed h id = Ok old ∧ rl_sequence old < rl_sequence l
        ∧ ∀ e, e ∈ rl_entries old → live_at now e = true → e ∈ rl_entries l.

Lemma live_before now now' e : now ≤ now' → live_at now' e = true → live_at now e = true.
Proof. unfold live_at. destruct (entry_until e); [|done]. lia. Qed.
Lemma moved_on_trans now now' v1 v2 v3 :
  now ≤ now' → moved_on now v1 v2 → moved_on now' v2 v3 → moved_on now' v1 v3.
Proof.
  intros Hn [->|(b & l & -> & Hb & H12)] H23; [exact H23|]. right.
  destruct H23 as [->|(b' & l' & -> & Hb' & H23)].
  - exists b, l. split; [done|]. split; [exact Hb|]. intros h Hh. destruct (H12 h Hh) as (old & Ho & Hs & He).
    exists old. split; [exact Ho|]. split; [exact Hs|]. intros e Hin Hl. apply He; [exact Hin|by eapply live_before].
  - exists b', l'. split; [done|]. split; [exact Hb'|]. intros h Hh. destruct (H12 h Hh) as (old & Ho & Hs & He).
    destruct (H23 b eq_refl) as (mid & Hmid & Hs' & He'). destruct Hb as [Hb _]. rewrite Hb in Hmid. injection Hmid as <-.
    exists old. split; [exact Ho|]. split; [lia|]. intros e Hin Hl. apply He'; [|exact Hl]. apply He; [exact Hin|by eapply live_before].
Qed.
Lemma keeps_live_iff now old l :
  keeps_live now old l = true ↔ ∀ e, e ∈ rl_entries old → live_at now e = true → e ∈ rl_entries l.
Proof.
  unfold keeps_live. rewrite forallb_forall. split; intros Hk e Hin.
  - intros Hl. apply list_elem_of_In in Hin. specialize (Hk e Hin). rewrite Hl in Hk. by apply bool_decide_eq_true in Hk.
  - apply list_elem_of_In in Hin. destruct (live_at now e) eqn:Hl; [|done]. by apply bool_decide_eq_true, Hk.
Qed.

(** What a store does, if it is made. *)
Lemma stored_moves_on w late ts i h b k r w' :
  guarded rqs id (mk_service w late ts) → ts !! i = Some (mk_thread h (Do (StoreHeld id b) k)) →
  made (StoreHeld id b) w r w' → moved_on (rw_now w) (rw_held w !! id) (rw_held w' !! id).
Proof.
  intros [_ _ Hlaw Hsaid Hread] Hi [->| ->]%made_world; [by left|]. right. cbn [sv_world sv_threads] in *.
  destruct (Hlaw _ _ Hi) as (rq & _ & Hc & _). pose proof (lw_store _ _ _ Hc _ _ eq_refl) as Hm. destruct rq; try done.
  destruct Hm as [Hg (v & now & l & room & p & held & chain & Hv & Hnow & Hl & Hsup & Hid & Hsig & _ & _ & Hpriv)].
  pose proof (Hread _ _ _ _ _ _ Hi eq_refl Hg Hv) as ->. exists b, l.
  split; [apply lookup_insert_eq|]. split.
  - split; [exact Hl|]. exists room. split; [exact Hid|]. split; [exact (Hsaid _ _ _ Hi Hsig)|exact Hpriv].
  - intros hd Hhd. unfold supersedes in Hsup. rewrite Hhd in Hsup. destruct Hsup as (old & Ho & Hs & Hk). exists old.
    split; [exact Ho|]. split; [exact Hs|]. intros e Hin Hlive. apply (proj1 (keeps_live_iff _ _ _) Hk e Hin).
    eapply live_before; [exact (Hsaid _ _ _ Hi Hnow)|exact Hlive].
Qed.
Lemma stores_or_not c : (∃ b, c = StoreHeld id b) ∨ ∀ b, c ≠ StoreHeld id b.
Proof.
  destruct c; try (by right). destruct (decide (room_id = id)) as [->|Hne]; [left; by eexists|right; congruence].
Qed.
Lemma made_moves_on w late ts i h c k r w' :
  guarded rqs id (mk_service w late ts) → ts !! i = Some (mk_thread h (Do c k)) →
  made c w r w' → moved_on (rw_now w) (rw_held w !! id) (rw_held w' !! id).
Proof.
  intros Hok Hi Hm. destruct (stores_or_not c) as [[b ->]|Hne]; [by eapply stored_moves_on|].
  left. by apply (made_held c w r w').
Qed.

Lemma steady_moves_on s s' : guarded rqs id s → steady id s s' →
  rw_now (sv_world s) ≤ rw_now (sv_world s')
  ∧ moved_on (rw_now (sv_world s')) (rw_held (sv_world s) !! id) (rw_held (sv_world s') !! id).
Proof.
  intros Hok [Hstep _].
  assert (∀ w late ts i h c k r w', s = mk_service w late ts → ts !! i = Some (mk_thread h (Do c k)) → made c w r w' →
    rw_now w ≤ rw_now w' ∧ moved_on (rw_now w') (rw_held w !! id) (rw_held w' !! id)) as Hmade.
  { intros w late ts i h c k r w' -> Hi Hm. rewrite (made_now _ _ _ _ Hm). split; [lia|by eapply made_moves_on]. }
  destruct Hstep as [w late ts i h c k r w' Hi Hr He|w late ts i h c k r w' Hi He|w late ts i h c k e Hi Ho
                    |w late1 c late2 ts|w w' late ts (Hh & _ & Hn)|w late ts]; cbn [sv_world].
  - eapply Hmade; [done..|]. left. exact (conj Hr He).
  - eapply Hmade; [done..|]. right. left. exact He.
  - split; [lia|by left].
  - destruct (gd_late _ _ _ Hok c) as [Ho Hne]; [apply elem_of_app; right; by left|].
    pose proof (late_made c w Ho) as Hm.
    rewrite (made_now _ _ _ _ Hm). split; [lia|]. left. by apply (made_held _ _ _ _ id Hne Hm).
  - split; [exact Hn|]. left. by rewrite Hh.
  - split; [simpl; lia|by left].
Qed.

(** C11 (held_forward): the list a host holds for a room only moves forward. In
    every run, with any requests interleaved and any failures and restarts, as
    long as no store of the room's list is given up on, between any two moments
    the list is the same, or has given way to one that reads as a list of this
    room, that verified as signed by the room, that names no one where the room
    is private, whose sequence is greater, and that still has every entry of
    the first that is not past its date. Whatever a put delivers, and whoever
    delivers it, no withdrawal is lost before it has expired. *)
Theorem held_forward w s1 s2 :
  rw_taken w = ∅ → rtc (steady id) (host w) s1 → rtc (steady id) s1 s2 →
  rw_now (sv_world s1) ≤ rw_now (sv_world s2)
  ∧ moved_on (rw_now (sv_world s2)) (rw_held (sv_world s1) !! id) (rw_held (sv_world s2) !! id).
Proof.
  intros Hw H01 H12. pose proof (guarded_runs w s1 Hw H01) as Hok. induction H12 as [s|s1 s2 s3 Hs _ IH]; [split; [lia|by left]|].
  destruct (steady_moves_on _ _ Hok Hs) as [Hn Hm]. destruct (IH (rtc_r _ _ _ H01 Hs) (guarded_step _ _ Hok Hs)) as [Hn' Hm'].
  split; [lia|]. by eapply moved_on_trans.
Qed.
End Guarded.
End RoomSafety.
