(* ===== verification/RoomLists.v ===== *)
(** * Authorization and lists, alone

    What [Rooms.authorize] answers when nothing else runs and nothing fails
    ([authorize_iff]), and that the list a key holder builds next, once signed,
    is one a host reads and accepts ([next_accepted]). *)

From S2P Require Import Prelude Text Json Election Host Programs Rules Rooms.

(** ** Authorization *)

Section Authorization.
Context `{Chrono, ChronoAuto, Sha256, Jcs, Multibase, RoomHost}.

Abbreviation alone p w := (@run RoomCall room_reply room_calls _ p w).
Lemma run_lift {A} (r : result AppError A) (w : RoomWorld) : alone (lift (K := RoomCall) r) w = (r, w).
Proof. done. Qed.
Lemma run_refuse (b : bool) e (w : RoomWorld) : alone (refuse_if (K := RoomCall) b e) w = (if b then Err e else Ok (), w).
Proof. by destruct b. Qed.

(** Under a gate: what fails gives its permit back. *)
Lemma run_under_gate {A} id ex (p : RoomProg A) w :
  alone (under_gate id ex p) w = let '(r, w') := alone p w in
    (r, match r with Ok _ => w' | Err _ => with_taken id (taken w' id - permits ex) w' end).
Proof. unfold under_gate. rewrite run_then. destruct (alone p w) as [[a|e] w']; done. Qed.

(** The date a request is judged at. *)
Definition judged_at (now : Z) (w : RoomWorld) : Z := default (rw_now w) (from_timestamp (as_i64 now)).
Record passes (room : Room) (p : AuthorityPresentation) (a : Action) (presenter : string) (now : Z)
    (held : option RevocationList) (mirror_gate : bool) (w : RoomWorld) (v : VerifiedChain) : Prop := {
  pa_shape : shape_refused room p a presenter now mirror_gate = false;
  pa_chain : verify_chain room p a presenter = Ok v;
  pa_confers : action_str a ∈ vch_actions v;
  pa_subject : vch_subject v = presenter;
  pa_list l : held = Some l → withdraws l (rm_visibility room) (vch_presented v) (judged_at now w) = false;
}.

Lemma check_runs room p a presenter now held mg w :
  (alone (check room p a presenter now held mg) w).2 = w
  ∧ ∀ v, (alone (check room p a presenter now held mg) w).1 = Ok v ↔ passes room p a presenter now held mg w v.
Proof.
  unfold check. rewrite run_bind, run_refuse. destruct (shape_refused room p a presenter now mg) eqn:Hshape.
  { split; [done|]. intros v. split; [done|]. intros [Hs _ _ _ _]. congruence. }
  rewrite run_bind. cbn [run call exec room_calls room_exec]. destruct (verify_chain room p a presenter) as [v|e] eqn:Hv.
  2: { split; [done|]. intros v. split; [done|]. intros [_ Hc _ _ _]. congruence. }
  rewrite run_bind, run_refuse. destruct (bool_decide_reflect (action_str a ∈ vch_actions v)) as [Hact|Hact]; simpl negb; cbn match.
  2: { split; [done|]. intros v'. split; [done|]. intros [_ Hc Ha _ _]. congruence. }
  rewrite run_bind, run_refuse. destruct (bool_decide_reflect (vch_subject v ≠ presenter)) as [Hsub|Hsub]; cbn match.
  { split; [done|]. intros v'. split; [done|]. intros [_ Hc _ Hs _]. congruence. }
  apply dec_stable in Hsub. destruct held as [l|].
  2: { split; [done|]. intros v'. split; [intros [= <-]; by split|]. intros [_ Hc _ _ _]. cbn. congruence. }
  rewrite run_bind.
  match goal with |- context [alone (match ?o with Some t => @?f t | None => ?q end) w] =>
    assert (alone (match o with Some t => f t | None => q end) w = (Ok (judged_at now w), w)) as -> end.
  { unfold judged_at. by destruct (from_timestamp (as_i64 now)). }
  rewrite run_bind, run_refuse.
  destruct (withdraws l (rm_visibility room) (vch_presented v) (judged_at now w)) eqn:Hw.
  { split; [done|]. intros v'. split; [done|]. intros [_ Hc _ _ Hl]. specialize (Hl l eq_refl). congruence. }
  split; [done|]. intros v'. split.
  - intros [= <-]. split; [done..|]. by intros l' [= <-].
  - intros [_ Hc _ _ _]. cbn. congruence.
Qed.

Lemma held_list_runs id w :
  (alone (held_list id) w).2 = w ∧ ∀ l, (alone (held_list id) w).1 = Ok l ↔ in_force (rw_held w !! id) id l.
Proof.
  unfold held_list, held. rewrite run_bind. cbn [run call exec room_calls room_exec].
  destruct (rw_held w !! id) as [h|]; cbn [in_force].
  - rewrite run_bind, run_lift. destruct (held_parsed h id) as [l|e]; cbn.
    + split; [done|]. intros l'. split; [intros [= <-]; by exists l|]. by intros (l2 & [= <-] & ->).
    + split; [done|]. intros l'. split; [done|]. by intros (l2 & [=] & _).
  - split; [done|]. intros l. split; [by intros [= <-]|by intros ->].
Qed.

(** C17 (authorize_iff): authorization, nothing going wrong, answers exactly
    when the presentation is neither empty, too deep, unbound in a private
    room nor the wrong one for a mirror, a frozen room or a room that takes no
    writes; the chain verifier accepts it; it confers the action; it is the
    presenter's own; and the list in force, which must read as one, withdraws
    nothing in it as of the request's moment. The answer names the action, the
    room and the chain that was verified, and holds one permit of the room's
    gate; a refusal holds none. Nothing else changes. *)
Theorem authorize_iff room p a presenter now w :
  let id := rm_room_id room in let out := alone (authorize room p a presenter now) w in
  (∀ z, out.1 = Ok z ↔ ∃ held chain, in_force (rw_held w !! id) id held ∧ passes room p a presenter now held true w chain
                         ∧ z = mk_authorized a id chain held false)
  ∧ out.2 = with_taken id (match out.1 with Ok _ => taken w id + 1 | Err _ => taken w id end) w.
Proof.
  cbn zeta. unfold authorize. rewrite run_bind. cbn [run call exec room_calls room_exec]. rewrite run_under_gate.
  set (w1 := with_taken _ _ w). rewrite run_bind.
  destruct (held_list_runs (rm_room_id room) w1) as [Hw Hread]. destruct (alone (held_list (rm_room_id room)) w1) as [held w2].
  cbn [fst snd] in Hw, Hread. subst w2.
  assert (∀ n, with_taken (rm_room_id room) n w1 = with_taken (rm_room_id room) n w) as Hback.
  { intros n. unfold w1, with_taken. simpl. by rewrite insert_insert_eq. }
  assert (taken w1 (rm_room_id room) = taken w (rm_room_id room) + 1) as Ht.
  { unfold w1, taken, with_taken. simpl. by rewrite lookup_insert_eq. }
  assert (∀ mg l v, passes room p a presenter now l mg w1 v ↔ passes room p a presenter now l mg w v) as Hsame.
  { intros mg l v. split; intros [? ? ? ? ?]; by split. }
  destruct held as [held|e]; cbn [fst snd].
  2: { split; [|rewrite Hback, Ht; f_equal; unfold permits; lia]. intros z. split; [done|].
       intros (held & chain & Hr & _). by apply Hread in Hr. }
  rewrite run_bind. destruct (check_runs room p a presenter now held true w1) as [Hc Hpass].
  destruct (alone (check room p a presenter now held true) w1) as [chain w2]. cbn [fst snd] in Hc, Hpass. subst w2.
  assert (∀ l, in_force (rw_held w !! rm_room_id room) (rm_room_id room) l ↔ held = l) as Hheld.
  { intros l. etrans; [symmetry; exact (Hread l)|]. split; [by intros [= ->]|by intros ->]. }
  destruct chain as [chain|e]; cbn [fst snd].
  - split; [|unfold w1; f_equal; unfold permits; lia]. intros z. split.
    + intros [= <-]. exists held, chain. rewrite Hheld, <- (Hsame true), <- Hpass. done.
    + intros (l & ch & <-%Hheld & [= <-]%Hsame%Hpass & ->). done.
  - split; [|rewrite Hback, Ht; f_equal; unfold permits; lia]. intros z. split; [done|].
    intros (l & ch & <-%Hheld & Hp%Hsame & _). by apply Hpass in Hp.
Qed.
End Authorization.

(** ** The next list *)

Lemma members_named m ms allowed :
  as_object (mk_obj m) = Some ms → (∀ k v, m !! k = Some v → k ∈ allowed) → only_members allowed ms = true.
Proof.
  intros Hms Ha. assert (ms = sorted_members m) as ->.
  { with_strategy transparent [mk_obj] (by injection Hms). }
  apply forallb_forall. intros [k v] Hin%list_elem_of_In. apply bool_decide_eq_true. simpl.
  rewrite sorted_members_Permutation in Hin. apply elem_of_map_to_list in Hin. by eapply Ha.
Qed.
Lemma object_of m : ∃ ms, as_object (mk_obj m) = Some ms.
Proof. with_strategy transparent [mk_obj] (by eexists). Qed.

Section Next.
Context `{Chrono, !ChronoLaws, ChronoAuto, !ChronoAutoLaws, Sha256, Jcs, Multibase}.

Definition whole (t : Z) : Prop := representable t ∧ t mod NANOS = 0.
(** An entry that a list's text keeps. *)
Record writable (room_id : string) (e : Entry) : Prop := {
  wr_at : representable (entry_revoked_at e);
  wr_until u : entry_until e = Some u → whole u;
  wr_names : match e with
             | EntryCredential id _ _ => id ≠ ""
             | EntrySubject s _ _ => starts_with "did:" s = true ∧ s ≠ room_id
             | EntryRoom _ _ => True
             end;
}.

Lemma whole_read t : whole t → rfc3339_parse (rfc3339_secs t) = Some t.
Proof. intros [Hr Hm]. rewrite rfc3339_truncates by done. f_equal. lia. Qed.
Lemma time_read m k t s : m !! k = Some (VStr s) → rfc3339_parse s = Some t → entry_time (mk_obj m) k = Ok (Some t).
Proof. intros Hk Ht. unfold entry_time. rewrite json_get_mk_obj, Hk. by rewrite Ht. Qed.


(** A date that may be absent. *)
Lemma date_read m k (o : option Z) :
  (∀ t, o = Some t → whole t) → m !! k = (VStr ∘ rfc3339_secs) <$> o → entry_time (mk_obj m) k = Ok o.
Proof.
  intros Ho Hk. destruct o as [t|]; [eapply time_read; [exact Hk|by apply whole_read, Ho]|].
  unfold entry_time. by rewrite json_get_mk_obj, Hk.
Qed.

(** An entry's text, by member. *)
Record entry_text (e : Entry) (m : gmap string Value) : Prop := {
  et_kind : m !! "kind" = Some (VStr (entry_kind e));
  et_at : m !! "revokedAt" = Some (VStr (rfc3339_auto (entry_revoked_at e)));
  et_until : m !! "until" = (VStr ∘ rfc3339_secs) <$> entry_until e;
  et_id : m !! "credentialId" = match e with EntryCredential id _ _ => Some (VStr id) | _ => None end;
  et_subject : m !! "subject" = match e with EntrySubject s _ _ => Some (VStr s) | _ => None end;
  et_only k v : m !! k = Some v → ∃ allowed, entry_members (Some (entry_kind e)) = Ok allowed ∧ k ∈ allowed;
}.
Lemma entry_to_wire_text e : ∃ m, entry_to_wire e = mk_obj m ∧ entry_text e m.
Proof.
  eexists. split; [reflexivity|]. destruct e as [id at_ [u|]|s at_ [u|]|at_ [u|]]; cbn [entry_kind entry_until entry_revoked_at].
  all: split; try (by autorewrite with json).
  all: intros k v Hk; rewrite ?lookup_insert_Some, lookup_singleton_Some in Hk; eexists; split; [reflexivity|].
  all: repeat match goal with H : _ ∨ _ |- _ => destruct H | H : _ ∧ _ |- _ => destruct H end; subst; repeat constructor.
Qed.

Lemma entry_roundtrip room_id e : writable room_id e → entry_parse (entry_to_wire e) = Ok e ∧ names_room room_id e = false.
Proof.
  intros [Ha Hu Hn]. destruct (entry_to_wire_text e) as (m & -> & [Hk Hat Hun Hid Hs Honly]).
  destruct (object_of m) as [ms Hms]. unfold entry_parse. rewrite Hms. cbn [ok_or mbind result_bind].
  rewrite (time_read _ _ (entry_revoked_at e) _ Hat) by (by apply rfc3339_exact). cbn [ok_or mbind result_bind].
  rewrite (date_read _ _ (entry_until e)) by done. cbn [mbind result_bind]. unfold get_str. rewrite json_get_mk_obj, Hk. cbn [mbind option_bind as_str].
  destruct (Honly _ _ Hk) as (allowed & Hal & _). rewrite Hal. cbn [mbind result_bind].
  rewrite (members_named m ms allowed Hms).
  2: { intros k v Hkv. destruct (Honly k v Hkv) as (al & Hal' & Hin). rewrite Hal in Hal'. by injection Hal' as ->. }
  cbn [negb guard_err mbind result_bind]. unfold entry_string. rewrite !json_get_mk_obj, Hid, Hs.
  destruct e as [id at_ u|s at_ u|at_ u]; cbn [entry_kind entry_revoked_at entry_until names_room] in *;
    repeat case_bool_decide; try done.
  - by destruct (String.eqb_spec id "").
  - destruct Hn as [Hd Hne]. destruct (String.eqb_spec s "") as [->|]; [done|]. cbn [mbind result_bind]. rewrite Hd.
    split; [done|]. by apply String.eqb_neq.
Qed.

(** A list, with a proof added. *)
Record proven (unsigned raw : Value) : Prop := {
  pv_object : ∃ ms, as_object raw = Some ms ∧ only_members ["roomId"; "sequence"; "issuedAt"; "entries"; "proof"] ms = true;
  pv_proof : ∃ ms, json_get raw "proof" = Some (VObj ms);
  pv_rest k : k ≠ "proof" → json_get raw k = json_get unsigned k;
}.

Definition kept (held : option RevocationList) (now : Z) : list Entry :=
  match held with Some h => filter (λ e, kept_by_holder now e = true) (rl_entries h) | None => [] end.
Definition next_sequence (held : option RevocationList) : Z := match held with None => 1 | Some h => rl_sequence h + 1 end.

Lemma next_read room_id held added now raw :
  proven (next_unsigned room_id held added now) raw →
  representable now → 0 < next_sequence held ≤ u64_max → (length (kept held now ++ added) ≤ MAX_ENTRIES)%nat →
  Forall (writable room_id) (kept held now ++ added) →
  list_parse raw room_id = Ok (mk_list raw room_id (next_sequence held) (kept held now ++ added)).
Proof.
  intros [(ms & Hms & Honly) [pf Hpf] Hrest] Hnow Hseq Hlen Hwr.
  assert (json_get raw "roomId" = Some (VStr room_id) ∧ json_get raw "sequence" = Some (VNum (next_sequence held))
    ∧ json_get raw "issuedAt" = Some (VStr (rfc3339_secs now))
    ∧ json_get raw "entries" = Some (VArr (entry_to_wire <$> kept held now ++ added))) as (H1' & H2' & H3' & H4').
  { rewrite !Hrest by done. unfold next_unsigned. by autorewrite with json. }
  unfold list_parse, get_str. rewrite Hms. cbn [ok_or mbind result_bind]. rewrite Honly, H1', H2', H3', H4', Hpf.
  cbn [ok_or mbind result_bind negb guard_err option_bind as_str as_object as_array].
  rewrite String.eqb_refl. cbn [negb guard_err mbind result_bind].
  unfold as_u64. rewrite bool_decide_eq_true_2 by lia. cbn [ok_or mbind result_bind].
  rewrite (proj2 (Z.ltb_ge _ _)) by lia. cbn [guard_err mbind result_bind].
  rewrite rfc3339_truncates by done. cbn [ok_or mbind result_bind].
  rewrite length_fmap, (proj2 (Nat.ltb_ge _ _)) by done. cbn [guard_err mbind result_bind].
  assert (try_map entry_parse (entry_to_wire <$> kept held now ++ added) = Ok (kept held now ++ added)) as ->.
  { apply try_map_ok, Forall2_fmap_l, Forall_Forall2_diag. eapply Forall_impl; [exact Hwr|]. intros e He. by apply (entry_roundtrip room_id). }
  cbn [mbind result_bind].
  assert (existsb (names_room room_id) (kept held now ++ added) = false) as ->; [|done].
  apply existsb_false. rewrite Forall_forall in Hwr. intros e He%Hwr. by apply (entry_roundtrip room_id).
Qed.

(** C22 (next_accepted): the list a key holder builds next, once its proof is
    added, is one a host reads as the room's, with the next sequence, the kept
    entries and the added ones exactly as they were; and a host that holds the
    list it was built on accepts it as new, if its clock is at most the margin
    of 24 hours behind the key holder's. For this the dates entries end on are
    in whole seconds, their names are ones a list may have, the entries fit,
    and in a private room all are of the room itself. *)
Theorem next_accepted room_id visibility held added now now' raw :
  proven (next_unsigned room_id held added now) raw →
  representable now → 0 < next_sequence held ≤ u64_max → (length (kept held now ++ added) ≤ MAX_ENTRIES)%nat →
  Forall (writable room_id) (kept held now ++ added) →
  now ≤ now' + DROP_MARGIN → (visibility = Private → forallb is_room_entry (kept held now ++ added) = true) →
  ∃ l, list_parse raw room_id = Ok l ∧ rl_sequence l = next_sequence held ∧ rl_entries l = kept held now ++ added
    ∧ accept visibility held now' l = Ok AcceptNew.
Proof.
  intros Hraw Hnow Hseq Hlen Hwr Hclock Hpriv. eexists. split; [by eapply next_read|]. split; [done|]. split; [done|].
  unfold accept.
  assert (bool_decide (visibility = Private) && names_anyone (mk_list raw room_id (next_sequence held) (kept held now ++ added)) = false) as ->.
  { case_bool_decide as Hv; [|done]. specialize (Hpriv Hv). apply existsb_false. intros e He%list_elem_of_In.
    rewrite forallb_forall in Hpriv. by rewrite (Hpriv e He). }
  cbn [guard_err mbind result_bind]. destruct held as [h|]; [|done]. cbn [rl_sequence next_sequence].
  rewrite (proj2 (Z.ltb_ge _ _)) by lia. cbn [guard_err mbind result_bind].
  rewrite (proj2 (Z.eqb_neq _ _)) by lia.
  assert (keeps_live now' h (mk_list raw room_id (rl_sequence h + 1) (kept (Some h) now ++ added)) = true) as ->; [|done].
  apply forallb_forall. intros e He%list_elem_of_In. destruct (live_at now' e) eqn:Hl; [|done]. apply bool_decide_eq_true.
  apply elem_of_app. left. apply list_elem_of_filter. split; [|done].
  unfold live_at in Hl. unfold kept_by_holder. destruct (entry_until e); [lia|done].
Qed.
End Next.
