(* ===== verification/RoomRuns.v ===== *)
(** * Data rooms at work

    A host with one room, on which the theorems of [RoomSafety] and [RoomLists]
    are seen to hold; and what they leave out: a list whose store was given up
    on lands late, and an entry that ends between two seconds does not survive
    being written. *)

From S2P Require Import Prelude Text Json Election Host Programs Rules Trustees Scene SessionRuns Rooms RoomSafety RoomLists.
#[local] Existing Instance length_hash.

(** Dates are written in nanoseconds. *)
#[local] Instance nano_chrono : Chrono := {|
  rfc3339_secs t := String.string_of_list_byte (toy_put_Z (t - t mod NANOS));
  rfc3339_parse s := fst <$> toy_get_Z (as_bytes s);
|}.
#[local] Instance nano_auto : ChronoAuto := {|
  rfc3339_auto t := String.string_of_list_byte (toy_put_Z t);
  from_timestamp t := Some (t * NANOS);
|}.
Lemma nano_read t : rfc3339_parse (String.string_of_list_byte (toy_put_Z t)) = Some t.
Proof. cbn [rfc3339_parse nano_chrono]. by rewrite as_bytes_of_list, <- (app_nil_r (toy_put_Z t)), toy_get_put_Z. Qed.
#[local] Instance nano_chrono_laws : ChronoLaws.
Proof. split. intros t _. apply nano_read. Qed.
#[local] Instance nano_auto_laws : ChronoAutoLaws.
Proof. split. intros t _. apply nano_read. Qed.

(** A presentation is its presenter's name, which a verifier believes. *)
#[local] Instance toy_room_serde : RoomSerde := {|
  put_payload_ok _ := true; get_payload_ok _ := true; put_response_ok _ := true; get_response_ok _ := true;
  presentation_from_value v := (λ s, mk_presentation s ["grant"] None) <$> as_str v;
|}.
Definition card (who : string) : CredentialFacts := mk_facts (Some (("urn:" ++ who)%string)) who "did:room" (Some 0).
#[local] Instance toy_room_host : RoomHost := {|
  verify_chain room p a presenter :=
    if bool_decide (pr_membership p = presenter)
    then Ok (mk_verified presenter ["read"; "write"; "admin"] (Some presenter) (mk_presented (Some (card presenter)) []) None)
    else Err AppForbidden;
  verify_room_signature room d := match json_get d "proof" with Some (VObj _) => Ok () | _ => Err AppForbidden end;
|}.

Definition the_room : Room :=
  mk_room "did:room" "did:owner" Attributed Manual Chained 0 1 30 None None None None None None 0 0.
Definition at_secs (n : Z) : Z := n * NANOS.
Definition out_c : Entry := EntrySubject "did:c" (at_secs 90) (Some (at_secs 5000)).
Definition out_d : Entry := EntryCredential "urn:did:d" (at_secs 95) None.

(** A list the room signed. *)
Definition list_of (sequence : Z) (es : list Entry) : Value :=
  mk_obj {[ "roomId" := VStr "did:room"; "sequence" := VNum sequence; "issuedAt" := VStr (rfc3339_secs (at_secs 100));
            "entries" := VArr (entry_to_wire <$> es); "proof" := VObj [] ]}.
Definition world_with (held : option Value) : RoomWorld :=
  mk_room_world {[ "did:room" := the_room ]} match held with Some l => {[ "did:room" := mk_held l (at_secs 99) ]} | None => ∅ end ∅
    (at_secs 100) [].
Definition putting (l : Value) : RoomRequest :=
  RqPut "did:room" "did:owner" (mk_obj {[ "roomId" := VStr "did:room"; "presentation" := VStr "did:owner"; "list" := l ]}).
Definition writing (who : string) : RoomRequest := RqOperate "did:room" (mk_presentation who ["grant"] None) Write who 100.
Definition sequence_held (s : Service RoomCall unit) : option Z :=
  h ← rw_held (sv_world s) !! "did:room"; rl_sequence <$> ok (held_parsed h "did:room").
Definition done_in (s : Service RoomCall unit) : list (string * string * Action) := rw_done (sv_world s).

Lemma serve_steady id s schedule : sv_late s = [] → rtc (steady id) s (serve s schedule).
Proof.
  intros Hs. eapply rtc_subrel; [|apply serve_within]. intros s1 s2 [Hstep Hl]. split; [exact Hstep|].
  intros b. rewrite Hl, Hs. apply not_elem_of_nil.
Qed.

(** ** A list delivered while two members write

    The one it withdraws is served before it or not at all. *)

Definition requests : list RoomRequest := [putting (list_of 1 [out_c]); writing "did:c"; writing "did:b"].
Definition start : Service RoomCall unit := host requests (world_with None).

(** Whoever has the gate first. *)
Example list_first : done_in (serve start (repeat 0 12 ++ repeat 1 8 ++ repeat 2 8)%nat) = [("did:room", "did:b", Write)].
Proof. vm_compute; reflexivity. Qed.
Example list_waits :
  let s := serve start (repeat 1 4 ++ repeat 0 12 ++ repeat 1 8 ++ repeat 0 12 ++ repeat 2 8)%nat in
  done_in s = [("did:room", "did:c", Write); ("did:room", "did:b", Write)] ∧ sequence_held s = Some 1.
Proof. split; vm_compute; reflexivity. Qed.

Definition before_write : Service RoomCall unit := serve start (repeat 0 12 ++ repeat 2 4)%nat.
Lemma in_force_when_done_witness :
  rtc (steady "did:room") (host requests (world_with None)) before_write
  ∧ (next_call ∘ th_prog <$> sv_threads before_write !! 2%nat) = Some (Some (Perform "did:room" "did:b" Write))
  ∧ sequence_held before_write = Some 1
  ∧ authorized_now "did:room" (sv_world before_write) (writing "did:b") "did:b" Write.
Proof.
  assert (rtc (steady "did:room") (host requests (world_with None)) before_write) as Hrun by (apply serve_steady; reflexivity).
  assert ((next_call ∘ th_prog <$> sv_threads before_write !! 2%nat) = Some (Some (Perform "did:room" "did:b" Write))) as Hn
    by (vm_compute; reflexivity).
  split; [exact Hrun|]. split; [exact Hn|]. split; [vm_compute; reflexivity|].
  apply fmap_Some in Hn as (t & Ht & Hc).
  destruct (in_force_when_done requests "did:room" (world_with None) before_write 2 t "did:b" Write eq_refl Hrun Ht (eq_sym Hc))
    as (rq & Hrq & Hnow).
  injection Hrq as <-. exact Hnow.
Defined.

Definition forward_start : Service RoomCall unit := host [putting (list_of 2 [out_c; out_d]); putting (list_of 3 [out_c; out_d])] (world_with (Some (list_of 1 [out_c]))).
Definition first_put : Service RoomCall unit := serve forward_start (repeat 0 12)%nat.
Lemma held_forward_witness :
  sequence_held forward_start = Some 1 ∧ sequence_held first_put = Some 2
  ∧ moved_on "did:room" (rw_now (sv_world first_put)) (rw_held (sv_world forward_start) !! "did:room")
      (rw_held (sv_world first_put) !! "did:room").
Proof.
  split; [vm_compute; reflexivity|]. split; [vm_compute; reflexivity|].
  refine (proj2 (held_forward [putting (list_of 2 [out_c; out_d]); putting (list_of 3 [out_c; out_d])] "did:room"
    (world_with (Some (list_of 1 [out_c]))) forward_start first_put eq_refl (rtc_refl _ _) _)).
  apply serve_steady. reflexivity.
Defined.

(** What a list of the room must not be. *)
Definition put_answer (held : option Value) (l : Value) : option (result Refusal unit) :=
  match (run (put the_room "did:owner" (mk_obj {[ "roomId" := VStr "did:room"; "presentation" := VStr "did:owner"; "list" := l ]}))
          (world_with held)).1 with
  | Ok (Ok _) => Some (Ok ()) | Ok (Err e) => Some (Err e) | Err _ => None
  end.
Example put_answers :
  put_answer (Some (list_of 1 [out_c])) (list_of 2 [out_c; out_d]) = Some (Ok ())
  ∧ put_answer (Some (list_of 1 [out_c])) (list_of 1 [out_c]) = Some (Ok ())
  ∧ put_answer (Some (list_of 1 [out_c])) (list_of 2 [out_d]) = Some (Err (Declared "notAppendOnly" None))
  ∧ put_answer (Some (list_of 1 [out_c])) (list_of 1 [out_d]) = Some (Err (Declared "sequenceConflict" None))
  ∧ put_answer (Some (list_of 2 [out_c])) (list_of 1 [out_c]) = Some (Err (Declared "stale" (Some (mk_obj {[ "heldSequence" := VNum 2 ]}))))
  ∧ put_answer None (list_of 0 []) = Some (Err (Declared "listInvalid" None)).
Proof. split_and!; vm_compute; reflexivity. Qed.

(** ** The next list *)

Definition held_now : RevocationList := mk_list (list_of 1 [out_c]) "did:room" 1 [out_c].
Lemma out_c_writable : writable "did:room" out_c.
Proof. split; [vm_compute; split; congruence| |by vm_compute]. intros u [= <-]. split; [vm_compute; split; congruence|vm_compute; reflexivity]. Qed.
Lemma out_d_writable : writable "did:room" out_d.
Proof. split; [vm_compute; split; congruence|done|by vm_compute]. Qed.
Definition next_signed : Value :=
  mk_obj (<["proof" := VObj []]> {[ "roomId" := VStr "did:room"; "sequence" := VNum 2; "issuedAt" := VStr (rfc3339_secs (at_secs 100));
            "entries" := VArr (entry_to_wire <$> [out_c; out_d]) ]}).
Lemma next_proven : proven (next_unsigned "did:room" (Some held_now) [out_d] (at_secs 100)) next_signed.
Proof.
  split.
  - destruct (object_of (<["proof" := VObj []]> {[ "roomId" := VStr "did:room"; "sequence" := VNum 2;
      "issuedAt" := VStr (rfc3339_secs (at_secs 100)); "entries" := VArr (entry_to_wire <$> [out_c; out_d]) ]})) as [ms Hms].
    exists ms. split; [exact Hms|]. revert Hms. with_strategy transparent [mk_obj] (vm_compute; by intros [= <-]).
  - exists []. unfold next_signed. by rewrite json_get_mk_obj, lookup_insert_eq.
  - intros k Hk. unfold next_signed, next_unsigned. by rewrite !json_get_mk_obj, lookup_insert_ne.
Qed.
Lemma next_accepted_witness :
  ∃ l, list_parse next_signed "did:room" = Ok l ∧ rl_sequence l = 2 ∧ rl_entries l = [out_c; out_d]
    ∧ accept Attributed (Some held_now) (at_secs 40) l = Ok AcceptNew.
Proof.
  apply (next_accepted "did:room" Attributed (Some held_now) [out_d] (at_secs 100) (at_secs 40) next_signed next_proven).
  - vm_compute. split; congruence.
  - vm_compute. split; congruence.
  - vm_compute. lia.
  - exact (Forall_cons_2 _ _ _ out_c_writable (Forall_cons_2 _ _ _ out_d_writable (Forall_nil_2 _))).
  - vm_compute. congruence.
  - discriminate.
Defined.

(** An entry may end within a second ([Entry::parse] reads any date), but is
    written without the fraction: the key holder's next list has another entry
    in its place, and the host that holds the first refuses it. *)
Definition out_e : Entry := EntrySubject "did:e" (at_secs 90) (Some (at_secs 5000 + 5 * 10 ^ 8)).
Definition list_e : RevocationList := mk_list (list_of 1 [out_e]) "did:room" 1 [out_e].
Definition next_of_e : Value :=
  mk_obj (<["proof" := VObj []]> {[ "roomId" := VStr "did:room"; "sequence" := VNum 2; "issuedAt" := VStr (rfc3339_secs (at_secs 100));
            "entries" := VArr (entry_to_wire <$> [out_e]) ]}).
Example fraction_refused :
  entry_parse (mk_obj {[ "kind" := VStr "subject"; "subject" := VStr "did:e"; "revokedAt" := VStr (rfc3339_auto (at_secs 90));
                         "until" := VStr (rfc3339_auto (at_secs 5000 + 5 * 10 ^ 8)) ]}) = Ok out_e
  ∧ (l ← list_parse next_of_e "did:room"; accept Attributed (Some list_e) (at_secs 100) l) = Err NotAppendOnly.
Proof. split; vm_compute; reflexivity. Qed.

(** ** A store given up on *)

Definition abandon (s : Service RoomCall unit) (i : nat) : Service RoomCall unit :=
  match sv_threads s !! i with
  | Some (mk_thread h (Do (StoreHeld id l) k)) =>
      mk_service (sv_world s) (StoreHeld id l :: sv_late s)
        (<[i := mk_thread (h ++ [mk_event (StoreHeld id l) (Err AppStore)]) (k (Err AppStore))]> (sv_threads s))
  | _ => s
  end.
Lemma abandon_steps s i : rtc service_step s (abandon s i).
Proof.
  destruct s as [w late ts]. unfold abandon. cbn [sv_threads sv_world sv_late].
  destruct (ts !! i) as [[h [r|c k]]|] eqn:Hi; [done| |done]. destruct c; try done. apply rtc_once. by apply step_timed_out.
Qed.
Lemma given_up_runs s l1 i l2 : rtc service_step s (serve (abandon (serve s l1) i) l2).
Proof. etrans; [apply serve_steps|]. etrans; [apply abandon_steps|]. apply serve_steps. Qed.
Definition land (s : Service RoomCall unit) : Service RoomCall unit :=
  match sv_late s with c :: late => mk_service (exec c (sv_world s)).2 late (sv_threads s) | [] => s end.
Lemma land_late_steps s : rtc service_step s (land s).
Proof. destruct s as [w [|c late] ts]; [done|]. apply rtc_once. exact (step_late w [] c late ts). Qed.

(** The first list's store outlives its request; the second list, delivered
    and answered, is gone when it lands. *)
Definition two_puts : Service RoomCall unit := host [putting (list_of 2 [out_c]); putting (list_of 3 [out_c; out_d])] (world_with (Some (list_of 1 []))).
Definition given : Service RoomCall unit := abandon (serve two_puts (repeat 0 7)%nat) 0.
Definition second_in_force : Service RoomCall unit := serve given (repeat 0 4 ++ repeat 1 14)%nat.
Example late_store_rolls_back :
  rtc service_step two_puts second_in_force ∧ rtc service_step second_in_force (land second_in_force)
  ∧ sequence_held second_in_force = Some 3 ∧ sequence_held (land second_in_force) = Some 2.
Proof.
  split; [exact (given_up_runs two_puts (repeat 0 7)%nat 0 (repeat 0 4 ++ repeat 1 14)%nat)|].
  split; [exact (land_late_steps second_in_force)|]. split; vm_compute; reflexivity.
Qed.
